(* ===== verification/_CoqProject ===== *)
-Q . S2P
Prelude.v
CLib.v
Memory.v
DwarfMemory.v
Regs.v
DwarfOpTable.v
DwarfOp.v
DwarfExpr.v
DwarfCfa.v
DwarfCfaSpec.v
DwarfSection.v
DwarfEntries.v
DwarfEhFrame.v
DwarfDebugFrame.v
DwarfSectionSpec.v
DwarfStep.v
ArmExidx.v
ArmExidxSpec.v
Symbols.v
Maps.v
MapsSpec.v
ElfInterface.v
ElfInterfaceSpec.v
Elf.v
ElfSpec.v
Unwinder.v
UnwinderSpec.v
Buffer.v
Utf8.v
WebSocketProtocol.v
Masking.v
WebSocketFrames.v
WebSocketProtocolSpec.v
Socket.v
SocketSpec.v
WebSocketFormat.v
WebSocket.v
WebSocketSpec.v
ConnectionSpec.v
Group.v
GroupSpec.v
Extensions.v
Http.v
HttpSocket.v
HttpSpec.v
HttpResponses.v
Hub.v
Handshake.v
Json.v
JsonParser.v
JsonDump.v
JsonLexSpec.v
JsonTokens.v
JsonSpec.v
JsonDumpSpec.v
