(* ===== verification/Prelude.v ===== *)
(** * A verification of libunwindstack, uWebSockets and a JSON library

    The repository is the Android system/core tree (src/core) beside a few small
    socket and websocket programs with the libraries they use.  This development
    models three parts of it.  libunwindstack (src/core/libunwindstack) computes the
    call stack of a thread; it is modelled completely but for its logging, from the
    bytes of a process and of its ELF files to the list of frames.  uWebSockets
    (src/libuws) is the library of the websocket programs; its connections are
    modelled from the URI and the handshake to the messages, from the bytes recv
    returns to the handlers of the application and from the application's messages
    to the bytes send takes.  The JSON library (src/libjson, with copies in other
    directories) is what these programs write their messages with; its text parser
    and its serializer are modelled.  In the first part
    below a path without a directory is relative to src/core/libunwindstack
    (headers of the same name are in include/unwindstack), in the second to
    src/libuws/include and src/libuws/src; the third is about the single file
    src/libjson/include/json.hpp.

    ** libunwindstack and the files that model it

    The unwinder repeats one step.  It finds the map of the pc, gets the ELF
    object of the map, adds a frame, and lets the ELF object compute the
    registers of the caller.  The layers, from the bottom up:

    - [Prelude] (this file): machine integers, the outcomes of a C++ program,
      the state monad the methods are written in, loops, little-endian words,
      the program logic [wp] and its tactics, bisections.
    - [CLib]: the functions of the C library on characters and numerals, which all
      three parts use.
    - [Memory] (Memory.cpp): the sources of bytes.  [Memory] is an object
      with a virtual [Read]; [MemoryOk] is the law that the readers of DWARF and
      ELF data rely on and that the sources satisfy.
    - [Regs] (Regs.cpp, Machine.h, User.h, Ucontext.h): the register sets of the
      four machines and stepping out of signal handlers.
    - [DwarfMemory] (DwarfMemory.cpp): LEB128 numbers and encoded pointers.
    - [DwarfOpTable], [DwarfOp] (DwarfOp.cpp, DwarfOp.h): the opcode table and the
      evaluator of DWARF expressions; [DwarfExpr] specifies expressions.
    - [DwarfCfa] (DwarfCfa.cpp): the interpreter of call frame instructions;
      [DwarfCfaSpec] specifies programs of them as rows of rules.
    - [DwarfSection] (DwarfSection.cpp): CIEs, FDEs, register rules and Step.  The
      virtual methods are the class [VirtualSection], with two instances:
      [DwarfEhFrame] (DwarfEhFrame.cpp) and [DwarfDebugFrame]
      (DwarfDebugFrame.cpp).  [DwarfEntries] specifies the layout of the entries,
      [DwarfSectionSpec] the evaluation of a row, [DwarfStep] a whole step.
    - [ArmExidx] (ArmExidx.cpp): the ARM exception tables; [ArmExidxSpec]
      specifies their instructions.
    - [Symbols] (Symbols.cpp): names of functions.
    - [ElfInterface] (ElfInterface.cpp, ElfInterfaceArm.cpp): the headers and
      sections of an ELF file and stepping through them; [ElfInterfaceSpec].
    - [Maps] (Maps.cpp): the maps of a process and their parsers; [MapsSpec].
    - [Elf] (Elf.cpp, MapInfo.cpp): an ELF object and how a map gets one;
      [ElfSpec].
    - [Unwinder] (Unwinder.cpp): the loop, against the class [ElfObject] of which
      [Elf] is an instance; [UnwinderSpec].

    ** uWebSockets and the files that model it

    The event loop tells a socket that it is readable or writable.  What is read
    goes through the parser of frames, in place in the receive buffer, to the
    handling of fragments and from there to the application; what is sent is
    formatted and goes to the kernel, or to the queue of the socket when the
    kernel does not take all of it.  A connection begins as an HTTP socket; a
    request to upgrade turns it into a WebSocket.

    - [Buffer]: blocks of memory, whose accesses are undefined out of range.
    - [Utf8] (WebSocketProtocol.h): the validation of text.
    - [WebSocketProtocol] (WebSocketProtocol.h): the parser and the formatting of
      frames.  The template parameter [Impl] is a type class.  [Masking] holds the
      lemmas on unmasking, [WebSocketFrames] specifies frames, their encoding and a
      receiver of whole frames, and the class [FragmentLaws], which states what
      the parser needs of its [Impl]; [WebSocketProtocolSpec] proves the parser
      against that class; [WebSocketFormat] is about formatting.
    - [Socket] (Socket.h, Networking.h): the message queue and the two system
      calls on it, against the class [Kernel]; [SocketSpec].
    - [WebSocket] (WebSocket.cpp, WebSocket.h, Hub.cpp): messages, control frames,
      closing, decompression, and what happens when the socket is readable, with
      the application as the class [Application] and zlib as [Zlib].
      [WebSocketSpec] shows that it satisfies [FragmentLaws]; [ConnectionSpec]
      composes the parts to theorems on whole connections.
    - [Group] (Group.cpp, Group.h, WebSocket.cpp): the list of the sockets of a
      group, prepared messages, broadcasts and the ping timer; [GroupSpec] with the
      states a group can reach.
    - [Extensions] (Extensions.cpp): the negotiation of permessage-deflate.
    - [Http] (HTTPSocket.cpp, HTTPSocket.h): the parser of request and answer heads,
      in place in the buffer, and the lookup of headers.
    - [HttpSocket] (HTTPSocket.cpp, HTTPSocket.h, Group.cpp): what an HTTP socket does
      with data, its response objects, which live in a heap, the answer to an
      upgrade, and the deadline for requests, with the handlers as the class
      [HttpApplication].  [HttpSpec] is about the division of heads into reads and
      about the two sides of an upgrade, [HttpResponses] about the queue of responses.
    - [Hub] (Hub.cpp): URIs and the request of a client.
    - [Handshake] (HTTPSocket.cpp, WebSocket.h): the change of an HTTP socket to a
      WebSocket, and a client and a server of the library against each other.

    ** The JSON library and the files that model it

    An input adapter hands out the characters of a buffer or of a stream.  The lexer
    makes tokens of them, on which the parser and the acceptor are recursive
    descents; the serializer writes a value as text.

    - [Json] (the exceptions, the input adapters, class lexer): the adapters
      are the instances of the class [InputAdapter]; floating-point numbers with
      strtod and snprintf are the class [Floats].
    - [JsonParser] (class parser): parse with its callback, and accept.
    - [JsonDump] (class serializer, basic_json::dump).
    - [JsonLexSpec]: the class [AdapterLaws], what the lexer relies on, with its two
      instances; the spelling of strings, and that scan_string reads exactly that.
    - [JsonTokens]: numbers and tokens, and that scan yields exactly the tokens that
      are spelled in the text; [FloatLaws] says that strtod converts all of a number.
    - [JsonSpec]: the grammar of JSON over tokens ([value_tokens], [document]); parse
      against it for every adapter, and accept against parse.
    - [JsonDumpSpec]: what dump writes is a document for the value.

    ** How the code is modelled

    A class is a record, a method a function in the state monad [M] over it; a
    pointer out-parameter is a result.  [outcome] separates a return ([Ok]) from
    a failed CHECK ([Abort]), undefined behaviour of C++ ([Undef]: an access out
    of range, a null dereference, a shift that is too wide, a signed overflow)
    and a loop that used up the model's fuel ([NoFuel]).  Integers are [Z] with
    the wrap-around of their type written out.  A template over the address size
    is a function of [AddressType].  A vector is a list, an unordered_map a
    [gmap]; where the order of iteration matters it is a parameter.  What a Read
    that fails leaves in its destination is a parameter ([torn]).

    Outside code is a parameter too: ptrace, process_vm_readv, open, read and
    mmap, std::sort, the xz decoder; send, rand, SHA1, zlib and the application.  The
    theorems that need more of them than a type state it as hypotheses or as laws
    of a class: a sort yields a sorted permutation, read returns some bytes unless
    the file is at its end, send takes a first part of what it is given, inflate
    asks for more room only when its buffer is full.  An application is a set of
    functions on a state of its own that ask for actions on their socket; the
    theorems on connections assume that it asks for none behind a close.

    ** What the theorems show

    - Refinements.  Expressions, call frame instructions and ARM unwinding
      instructions have an abstract syntax with an encoding and a semantics; the
      interpreters run an encoded program to what its semantics says
      ([Eval_compile], [GetLocationInfo_refines], [ArmEval_refines]).  The
      evaluation of a row computes the caller's frame ([Eval_refines]).  Two
      theorems compose these with the readers into a whole step from the bytes of
      a file to the registers of the caller: [Step_refines] for DWARF,
      [StepExidx_refines] for ARM.
    - Readers and round trips.  CIEs, FDEs, LEB128 numbers, encoded pointers,
      exception table entries, program headers, lines and records of maps are
      read back from their encodings; a maps file gives the same maps however
      read divides it ([Parse_correct]).
    - Searches.  The bisections of .eh_frame_hdr, .debug_frame, the ARM index, the
      symbol cache and the maps find what a search from the front finds, through
      caches that stay coherent.
    - Sources of bytes.  A mapped file, a traced process and a range read as the
      bytes they stand for; the position of a pc in its ELF file is right
      ([GetFileMemory_position]).
    - Totality, errors and bounds.  Expressions and ARM programs end within their
      bounds, the interpreters fail with the errors they document, the register
      sets keep their shape, an unwinding has at most max_frames frames and ends.
    - Connections.  What a WebSocket does is a function of the frames it gets,
      however the stream is cut into reads ([WebSocket_reads]); messages arrive
      whole and in order between control frames ([WebSocket_conversation]); what one
      side sends is what the other side's application gets ([WebSocket_delivery]);
      no input leads to undefined behaviour ([WebSocket_hostile_input]); the parser's
      state keeps to its ranges ([WebSocket_parser_typed]).
    - JSON.  parse returns a value exactly for the documents that spell it
      ([json_parse_correct]), from a buffer as from a stream ([json_stream_correct]);
      accept answers as parse does ([json_accept_correct]); no text and no callback
      leads to undefined behaviour or a failed assertion, and errors are reported
      within the text ([json_hostile_input]); what dump writes is read back as the
      value ([json_roundtrip]).
    - Queues and groups.  A socket's queue is a lossless stream that runs empty when
      the kernel takes bytes ([Socket_stream], [Socket_drains]).  In every reachable
      state of a group every event runs without an invalid access ([Group_safe]) and
      a prepared message has as many references as queues hold it
      ([Group_references]); a broadcast reaches every socket once, and silent
      connections are ended ([broadcast_reaches_all], [timer_ends_silent]).
    - HTTP and the handshake.  What an HTTP socket does with a head does not depend
      on the reads that bring it ([onData_pieces]); responses leave in the order of
      their requests, whatever order the application answers in
      ([responses_in_order]); an offer of extensions is read as the list of words it
      is ([readOffer_correct]); a URI is read back ([parseURI_roundtrip]).  The request
      of the client opens a WebSocket at the server, whose answer opens one at the
      client, and what the server's application sends first arrives
      ([handshake_opens]).
    - Text and compression.  The validation accepts exactly UTF-8
      ([isValidUtf8_correct]), close frames are read back
      ([closePayload_roundtrip]), inflating ends and is bounded
      ([inflate_bounded]).
    - Faults.  Several theorems state behaviour that the code should not have:
      undefined shifts and accesses, a loop without end in the call frame
      interpreter and in the unwinder, ranges of pc-relative FDEs that are off by
      four, expression blocks that are evaluated behind their end.  Remarks that are
      computed on one input accompany the definitions they are about, such as
      [interleaved_messages], [compressed_head_split], [forEach_skips],
      [prepareMessage_overflows], [stale_link], [anagram_accepted],
      [rejected_array_depth], [stream_after_end] and [indent_overrun].

    ** Fuel

    Bisections get 65 rounds, enough for 2^63 entries.  The expression loop has
    the bound of the source, 1000 operations; the ARM decoder as many rounds as
    bytes; the loops over a maps file as many as the file or the buffer has
    bytes.  Loops over file content without a bound of their own (call frame
    instructions, strings, symbol tables, .debug_frame, the dynamic section) take
    a [fuel] argument; the theorems on results say how much is enough, and
    [GetLocationInfo_diverges] and [Unwind_skipping] that no amount is.  The loops of
    uWebSockets get as many rounds as there are bytes, queued messages, sockets or,
    for inflate, bytes up to the limit; that this is enough is part of the theorems,
    which exclude [NoFuel].  The loops and the recursion of the JSON parser get more
    rounds than the text has bytes, which is enough for every text.

    ** Not modelled

    Of libunwindstack: the logging functions, the log file, RegsGetLocal.h and the
    assembly that captures the registers of the running thread, destructors.
    Reads of a MemoryFileAtOffset that was never mapped are failures in
    [file_memory]; [MemoryFileAtOffset_correct] shows that mapped ones are never
    undefined.  Of uWebSockets: TLS, corking, other threads, the event loops, the
    calls that listen and connect, Hub::upgrade, and Group::close.  The list of HTTP
    sockets repeats the code of the list of WebSockets; an [HttpSocket] only knows
    whether it is in it.  A handler of HTTP requests acts on its own socket.  The
    theorems on connections are about frames that are not compressed.  Of the rest
    of the repository: adb, fastboot, init, debuggerd,
    fs_mgr, logd, healthd, lmkd, storaged, trusty, sdcard, toolbox and the socket
    programs, which are mostly system calls and threads.  Of the JSON library: the
    class basic_json with its conversions and iterators, JSON pointers and patches,
    and CBOR and MessagePack; a value is a tree here.  The depth of the stack
    is not bounded, and the growth of the lexer's text buffer is not modelled.  Left
    for later work are the parts that are
    computation: the demangler (demangle), the block lists of libsparse,
    Unicode.cpp of libutils, hashmap.c of libcutils, the heap walker of
    libmemunreachable, the zip directory of libziparchive and the string helpers
    of base. *)

From stdpp Require Export prelude gmap list strings.
From Stdlib Require Export ZArith Lia.

#[global] Open Scope Z_scope.

(** ** Machine integers

    A w-bit unsigned integer is the [Z] in [0, 2^w); arithmetic is followed by
    the wrap-around the C++ standard prescribes for unsigned types.  A signed
    integer is the [Z] in [-2^(w-1), 2^(w-1)). *)

Definition uwrap (w x : Z) : Z := x mod 2 ^ w.

Definition swrap (w x : Z) : Z := (x + 2 ^ (w - 1)) mod 2 ^ w - 2 ^ (w - 1).

Definition in_unsigned (w x : Z) : Prop := 0 <= x < 2 ^ w.

Definition in_signed (w x : Z) : Prop := - 2 ^ (w - 1) <= x < 2 ^ (w - 1).

(** Decides whether the exact result of a signed operation is representable;
    when it is not, the C++ expression is undefined. *)
Definition fits_signed (w x : Z) : bool :=
  (- 2 ^ (w - 1) <=? x) && (x <? 2 ^ (w - 1)).

Abbreviation u8 := (uwrap 8).
Abbreviation u16 := (uwrap 16).
Abbreviation u32 := (uwrap 32).
Abbreviation u64 := (uwrap 64).
Abbreviation s8 := (swrap 8).
Abbreviation s16 := (swrap 16).
Abbreviation s32 := (swrap 32).
Abbreviation s64 := (swrap 64).

(** UINT64_MAX, also [static_cast<uint64_t>(-1)]. *)
Definition UINT64_MAX : Z := 2 ^ 64 - 1.

(** [x & mask] used as a condition. *)
Definition bits_set (x mask : Z) : bool := negb (Z.land x mask =? 0).

(** The template parameter [AddressType] of the unwinder: its two
    instantiations. *)
Inductive AddressType := uint32_t | uint64_t.

Definition sizeof (AT : AddressType) : Z :=
  match AT with uint32_t => 4 | uint64_t => 8 end.

Definition bits (AT : AddressType) : Z := 8 * sizeof AT.

#[global] Instance AddressType_eq_dec : EqDecision AddressType.
Proof. solve_decision. Defined.

(** ** Outcomes

    [Ok] is normal return.  [Abort] is a failed CHECK or a call of abort().
    [Undef] is an operation the C++ standard leaves undefined (an
    out-of-range access, an over-wide shift, a signed overflow, a read of an
    uninitialised variable, a null dereference).  [NoFuel] only says that the
    bound given to a loop of the model was too small. *)
Inductive outcome (A : Type) : Type :=
| Ok (a : A)
| Abort
| Undef
| NoFuel.
Arguments Ok {A} a.
Arguments Abort {A}.
Arguments Undef {A}.
Arguments NoFuel {A}.

(** Methods read and write the fields of their object: a method of a class
    with state [S] that returns [A] is an [M S A]. *)
Definition M (S A : Type) : Type := S -> outcome (A * S).

Definition ret {S A} (a : A) : M S A := fun s => Ok (a, s).

Definition bind {S A B} (m : M S A) (k : A -> M S B) : M S B := fun s =>
  match m s with
  | Ok (a, s') => k a s'
  | Abort => Abort
  | Undef => Undef
  | NoFuel => NoFuel
  end.

Definition abort {S A} : M S A := fun _ => Abort.

Definition undef {S A} : M S A := fun _ => Undef.

Definition get {S A} (f : S -> A) : M S A := fun s => Ok (f s, s).

Definition modify {S} (f : S -> S) : M S unit := fun s => Ok (tt, f s).

(** CHECK(assertion) of Check.h. *)
Definition CHECK {S} (b : bool) : M S unit := if b then ret tt else abort.

(** A precondition of a C++ operation; undefined behaviour when it fails. *)
Definition require {S} (b : bool) : M S unit := if b then ret tt else undef.

Definition outcome_map {A B} (f : A -> B) (o : outcome A) : outcome B :=
  match o with
  | Ok a => Ok (f a)
  | Abort => Abort
  | Undef => Undef
  | NoFuel => NoFuel
  end.

(** Runs a method of a member object: [proj] reads the member, [upd] stores it
    back. *)
Definition lift {S T A} (proj : S -> T) (upd : T -> S -> S) (m : M T A) : M S A :=
  fun s => outcome_map (fun '(a, t) => (a, upd t s)) (m (proj s)).

Declare Scope cpp_scope.
Delimit Scope cpp_scope with cpp.
#[global] Open Scope cpp_scope.

Notation "x <- m ;; k" := (bind m (fun x => k))
  (at level 100, m at next level, right associativity) : cpp_scope.

Notation "m ;; k" := (bind m (fun _ => k))
  (at level 100, right associativity) : cpp_scope.

(** [if (!m(&x)) h; k]: a call that returns false leaves through [h]. *)
Notation "'let?' x := m 'else' h 'in' k" :=
  (bind m (fun o => match o with Some x => k | None => h end))
  (at level 10, x name, m at level 99, h at level 99, k at level 200) : cpp_scope.

(** [if (!m()) h; k] for a call with no out-parameter. *)
Notation "'call?' m 'else' h 'in' k" :=
  (bind m (fun b : bool => if b then k else h))
  (at level 10, m at level 99, h at level 99, k at level 200) : cpp_scope.

(** A loop with local variables [L]: the body yields [inl l] to go round again
    and [inr a] to leave with [a].  [fuel] bounds the number of rounds. *)
Fixpoint iter {S L A} (fuel : nat) (body : L -> M S (L + A)) (l : L) : M S A :=
  match fuel with
  | O => fun _ => NoFuel
  | Datatypes.S n =>
      r <- body l ;;
      match r with
      | inl l' => iter n body l'
      | inr a => ret a
      end
  end.

(** ** Bytes in memory

    The host is little-endian, as every Android target is: reading an n-byte
    integer is [le_combine] of its bytes. *)
Definition is_byte (b : Z) : Prop := 0 <= b < 256.

Fixpoint le_combine (bs : list Z) : Z :=
  match bs with
  | [] => 0
  | b :: t => b + 256 * le_combine t
  end.

Fixpoint le_split (n : nat) (z : Z) : list Z :=
  match n with
  | O => []
  | S n => z mod 256 :: le_split n (z / 256)
  end.

(** The characters of a literal. *)
Definition chars (s : string) : list Z := Z.of_N <$> (Ascii.N_of_ascii <$> String.list_ascii_of_string s).

#[global] Arguments chars : simpl never.

(** ** Reasoning about methods

    [wp b m Q s]: running [m] from [s] ends in a state that satisfies [Q], or
    in a failure that [b] accepts. *)
Record bad := Bad { on_abort : Prop; on_undef : Prop; on_nofuel : Prop }.

Definition anything : bad := Bad True True True.
Definition nothing : bad := Bad False False False.
Definition unless_undef : bad := Bad False True False.
Definition terminates : bad := Bad True True False.

Definition wp {S A} (b : bad) (m : M S A) (Q : A -> S -> Prop) (s : S) : Prop :=
  match m s with
  | Ok (a, s') => Q a s'
  | Abort => on_abort b
  | Undef => on_undef b
  | NoFuel => on_nofuel b
  end.

Create HintDb cpp.

Section Wp.
Context {St : Type}.
Implicit Types (b : bad) (s : St).

Lemma wp_ret {A} b (a : A) (Q : A -> St -> Prop) s : Q a s -> wp b (ret a) Q s.
Proof. done. Qed.

Lemma wp_bind {A B} b (m : M St A) (k : A -> M St B) Q s :
  wp b m (fun a s' => wp b (k a) Q s') s -> wp b (bind m k) Q s.
Proof. unfold wp, bind. by destruct (m s) as [[a s']| | |]. Qed.

Lemma wp_mono {A} b (m : M St A) (Q Q' : A -> St -> Prop) s :
  wp b m Q s -> (forall a s', Q a s' -> Q' a s') -> wp b m Q' s.
Proof. unfold wp. destruct (m s) as [[a s']| | |]; eauto. Qed.

Lemma wp_get {A} b (f : St -> A) (Q : A -> St -> Prop) s : Q (f s) s -> wp b (get f) Q s.
Proof. done. Qed.

Lemma wp_modify b (f : St -> St) (Q : unit -> St -> Prop) s :
  Q tt (f s) -> wp b (modify f) Q s.
Proof. done. Qed.

Lemma wp_require b c (Q : unit -> St -> Prop) s :
  (c = true -> Q tt s) -> (c = false -> on_undef b) -> wp b (require c) Q s.
Proof. destruct c; unfold wp; simpl; auto. Qed.

Lemma wp_CHECK b c (Q : unit -> St -> Prop) s :
  (c = true -> Q tt s) -> (c = false -> on_abort b) -> wp b (CHECK c) Q s.
Proof. destruct c; unfold wp; simpl; auto. Qed.

Lemma wp_lift {T A} b (proj : St -> T) upd (m : M T A) (Q : A -> St -> Prop) s :
  wp b m (fun a t => Q a (upd t s)) (proj s) -> wp b (lift proj upd m) Q s.
Proof. unfold wp, lift. by destruct (m (proj s)) as [[a t]| | |]. Qed.

Lemma wp_run {A} b (m : M St A) (Q : A -> St -> Prop) s a s' :
  wp b m Q s -> m s = Ok (a, s') -> Q a s'.
Proof. unfold wp. intros H E. by rewrite E in H. Qed.

Lemma wp_ok {A} b (m : M St A) (Q : A -> St -> Prop) s a s' : m s = Ok (a, s') -> Q a s' -> wp b m Q s.
Proof. intros E HQ. unfold wp. by rewrite E. Qed.

Lemma wp_total {A} (m : M St A) (Q : A -> St -> Prop) s :
  wp nothing m Q s -> exists a s', m s = Ok (a, s') /\ Q a s'.
Proof. unfold wp, nothing. destruct (m s) as [[a s']| | |]; simpl; naive_solver. Qed.

(** The rule for loops: [I] holds before every round and [mu] decreases with
    every round that goes on. *)
Lemma wp_iter {L A} b (body : L -> M St (L + A)) (I : L -> St -> Prop)
    (mu : L -> St -> nat) (Q : A -> St -> Prop) :
  (forall l s, I l s ->
     wp b (body l) (fun r s' => match r with
                    | inl l' => I l' s' /\ (mu l' s' < mu l s)%nat
                    | inr a => Q a s' end) s) ->
  forall fuel l s, I l s -> (mu l s < fuel)%nat -> wp b (iter fuel body l) Q s.
Proof.
  intros Hbody fuel. induction fuel as [|n IH]; intros l s HI Hmu; [lia|].
  simpl. apply wp_bind. eapply wp_mono; [by apply Hbody|].
  intros [l'|a] s' H; [|done]. apply IH; [tauto|]. destruct H. lia.
Qed.

(** The same without the measure, when running out of fuel is acceptable. *)
Lemma wp_iter_partial {L A} b (body : L -> M St (L + A)) (I : L -> St -> Prop)
    (Q : A -> St -> Prop) :
  on_nofuel b ->
  (forall l s, I l s ->
     wp b (body l) (fun r s' => match r with inl l' => I l' s' | inr a => Q a s' end) s) ->
  forall fuel l s, I l s -> wp b (iter fuel body l) Q s.
Proof.
  intros Hf Hbody fuel. induction fuel as [|n IH]; intros l s HI; [done|].
  simpl. apply wp_bind. eapply wp_mono; [by apply Hbody|].
  intros [l'|a] s' H; [by apply IH|done].
Qed.

(** More fuel never changes a result. *)
Lemma iter_mono {L A} (body : L -> M St (L + A)) n m l s :
  (n <= m)%nat -> iter n body l s <> NoFuel -> iter m body l s = iter n body l s.
Proof.
  revert m l s. induction n as [|n IH]; intros [|m] l s Hle Hne; try done; try lia.
  simpl in *. unfold bind in *. destruct (body l s) as [[[l'|a] s']| | |]; try done.
  apply IH; [lia|done].
Qed.

End Wp.

(** Steps through the straight-line part of a method. *)
Ltac wp_step :=
  lazymatch goal with
  | |- wp _ (bind _ _) _ _ => apply wp_bind
  | |- wp _ (ret _) _ _ => apply wp_ret
  | |- wp _ (get _) _ _ => apply wp_get
  | |- wp _ (modify _) _ _ => apply wp_modify
  | |- wp _ (lift _ _ _) _ _ => apply wp_lift
  | |- wp _ (require _) _ _ => apply wp_require; [intros ?|intros ?]
  | |- wp _ (CHECK _) _ _ => apply wp_CHECK; [intros ?|intros ?]
  | |- wp _ (match ?x with _ => _ end) _ _ => destruct x eqn:?
  end.

Ltac wp_go := repeat (wp_step; simpl).

(** Case analysis on every match in sight, closing the impossible cases. *)
Ltac split_cases := repeat case_match; simplify_eq/=; try lia; try done.

(** Proves a closed decidable proposition by running its decision procedure. *)
Ltac by_decide := apply (bool_decide_unpack _); by vm_compute.

(** ** Arithmetic lemmas *)

Lemma uwrap_range w x : 0 <= w -> in_unsigned w (uwrap w x).
Proof. intros. apply Z.mod_pos_bound. lia. Qed.

Lemma uwrap_small w x : in_unsigned w x -> uwrap w x = x.
Proof. intros. by apply Z.mod_small. Qed.

Lemma uwrap_idemp w x : uwrap w (uwrap w x) = uwrap w x.
Proof. apply Z.mod_mod_divide, Z.divide_refl. Qed.

Lemma uwrap_add_l w x y : uwrap w (uwrap w x + y) = uwrap w (x + y).
Proof. apply Zplus_mod_idemp_l. Qed.

Lemma uwrap_add_r w x y : uwrap w (x + uwrap w y) = uwrap w (x + y).
Proof. apply Zplus_mod_idemp_r. Qed.

Lemma uwrap_sub_r w x y : uwrap w (x - uwrap w y) = uwrap w (x - y).
Proof. apply Zminus_mod_idemp_r. Qed.

Lemma uwrap_uwrap w w' x : 0 <= w <= w' -> uwrap w (uwrap w' x) = uwrap w x.
Proof.
  intros H. unfold uwrap. apply Z.mod_mod_divide. exists (2 ^ (w' - w)).
  rewrite <- Z.pow_add_r by lia. f_equal. lia.
Qed.

Lemma pow_half w : 0 < w -> 2 ^ w = 2 * 2 ^ (w - 1).
Proof. intros. rewrite <- Z.pow_succ_r by lia. f_equal. lia. Qed.

Lemma swrap_range w x : 0 < w -> in_signed w (swrap w x).
Proof.
  intros. unfold in_signed, swrap. pose proof (pow_half w H).
  pose proof (Z.mod_pos_bound (x + 2 ^ (w - 1)) (2 ^ w)). lia.
Qed.

Lemma swrap_small w x : 0 < w -> in_signed w x -> swrap w x = x.
Proof.
  intros Hw H. unfold in_signed, swrap in *. pose proof (pow_half w Hw).
  rewrite Z.mod_small; lia.
Qed.

Lemma swrap_uwrap w x : swrap w (uwrap w x) = swrap w x.
Proof. unfold swrap, uwrap. by rewrite Zplus_mod_idemp_l. Qed.

Lemma uwrap_swrap w x : 0 < w -> uwrap w (swrap w x) = uwrap w x.
Proof.
  intros. unfold swrap, uwrap. rewrite Zminus_mod_idemp_l. f_equal. lia.
Qed.

Lemma fits_signed_spec w x : fits_signed w x = true <-> in_signed w x.
Proof. unfold fits_signed, in_signed. lia. Qed.

Lemma bits_pos AT : 0 < bits AT.
Proof. by destruct AT. Qed.

Lemma bits_le_64 AT : bits AT <= 64.
Proof. by destruct AT. Qed.

Lemma in_unsigned_mono w w' x : 0 <= w <= w' -> in_unsigned w x -> in_unsigned w' x.
Proof. unfold in_unsigned. intros. pose proof (Z.pow_le_mono_r 2 w w'). lia. Qed.

#[export] Hint Resolve uwrap_range swrap_range bits_pos : cpp.
#[export] Hint Resolve Z.lt_le_incl : cpp.

Lemma land_ones_mod x n : 0 <= n -> Z.land x (Z.ones n) = x mod 2 ^ n.
Proof. apply Z.land_ones. Qed.

(** ** Lemmas on bytes *)

Lemma le_combine_range bs : Forall is_byte bs -> 0 <= le_combine bs < 256 ^ Z.of_nat (length bs).
Proof.
  induction 1 as [|b bs Hb _ IH]; simpl; [lia|].
  rewrite Nat2Z.inj_succ, Z.pow_succ_r by lia. unfold is_byte in Hb. nia.
Qed.

Lemma le_split_length n z : length (le_split n z) = n.
Proof. revert z. induction n; intros; simpl; auto. Qed.

Lemma le_split_bytes n z : Forall is_byte (le_split n z).
Proof.
  revert z. induction n; intros; simpl; constructor; auto.
  apply Z.mod_pos_bound. lia.
Qed.

Lemma le_combine_split n z : le_combine (le_split n z) = z mod 256 ^ Z.of_nat n.
Proof.
  revert z. induction n as [|n IH]; intros z; cbn [le_split le_combine].
  - by rewrite Z.mod_1_r.
  - rewrite IH, Nat2Z.inj_succ, Z.pow_succ_r by lia.
    rewrite Z.rem_mul_r by lia. done.
Qed.

Lemma le_split_combine bs : Forall is_byte bs -> le_split (length bs) (le_combine bs) = bs.
Proof.
  induction 1 as [|b bs Hb _ IH]; [done|]. unfold is_byte in Hb. cbn [length le_split le_combine].
  rewrite Z.mul_comm, Z_mod_plus_full, Z.mod_small by lia.
  rewrite Z.div_add, Z.div_small by lia. by rewrite Z.add_0_l, IH.
Qed.

Lemma pow256 n : 0 <= n -> 256 ^ n = 2 ^ (8 * n).
Proof. intros. change 256 with (2 ^ 8). by rewrite <- Z.pow_mul_r by lia. Qed.

(** ** Bisection

    How often a range of [w] elements can be halved. *)
Definition halvings (w : Z) : nat := if 0 <? w then Z.to_nat (Z.log2 w + 1) else 0.

Lemma halvings_decrease w w' : 0 < w -> w' <= w / 2 -> (halvings w' < halvings w)%nat.
Proof.
  intros Hw Hle. unfold halvings. rewrite (proj2 (Z.ltb_lt 0 w)) by done.
  pose proof (Z.log2_nonneg w). destruct (Z.ltb_spec 0 w') as [Hpos|]; [|lia].
  assert (w / 2 * 2 <= w) by (rewrite Z.mul_comm; by apply Z.mul_div_le).
  assert (Z.log2 (2 * w') = Z.log2 w' + 1) as E by (rewrite Z.log2_double by done; lia).
  pose proof (Z.log2_le_mono (2 * w') w). pose proof (Z.log2_nonneg w'). lia.
Qed.

Lemma halvings_bound w : w < 2 ^ 63 -> (halvings w <= 63)%nat.
Proof.
  intros Hw. unfold halvings. destruct (Z.ltb_spec 0 w) as [Hpos|]; [|lia].
  pose proof (proj1 (Z.log2_lt_pow2 w 63 Hpos) Hw). lia.
Qed.

(** The middle of a range and the two halves beside it. *)
Lemma bisect first last : 0 <= first < last -> last < 2 ^ 63 ->
  let current := u64 (first + last) / 2 in
  first <= current < last /\ u64 (current + 1) = current + 1 /\
  (halvings (current - first) < halvings (last - first))%nat /\
  (halvings (last - (current + 1)) < halvings (last - first))%nat.
Proof.
  intros H1 H2 current. subst current. rewrite uwrap_small by (unfold in_unsigned; lia).
  assert ((first + last) / 2 = first + (last - first) / 2) as ->.
  { replace (first + last) with (last - first + first * 2) by lia. rewrite Z.div_add by lia. lia. }
  pose proof (Z.div_mod (last - first) 2 ltac:(lia)). pose proof (Z.mod_pos_bound (last - first) 2 ltac:(lia)).
  split_and!; try lia; [apply uwrap_small; unfold in_unsigned; lia|apply halvings_decrease; lia..].
Qed.

(** ** Filters that keep all or nothing *)

Lemma filter_all {A} (P : A -> Prop) `{!forall x, Decision (P x)} l : Forall P l -> filter P l = l.
Proof. induction 1 as [|x l Hx _ IH]; [done|]. by rewrite filter_cons_True, IH. Qed.

Lemma filter_none {A} (P : A -> Prop) `{!forall x, Decision (P x)} l :
  Forall (fun x => ~ P x) l -> filter P l = [].
Proof. induction 1 as [|x l Hx _ IH]; [done|]. by rewrite filter_cons_False. Qed.
