(* ===== verification/CLib.v ===== *)
(** * Characters and numbers of the C library

    The functions of <ctype.h>, <stdlib.h> and std::to_string that the programs
    use, on strings that are lists of characters, and lemmas on numerals. *)

From S2P Require Import Prelude.

(** isdigit in the C locale. *)
Definition digit (c : Z) : bool := (48 <=? c) && (c <=? 57).

(** isspace in the C locale. *)
Definition isspace (c : Z) : bool := (c =? 32) || ((9 <=? c) && (c <=? 13)).

Fixpoint skip_spaces (l : list Z) : list Z :=
  match l with
  | c :: l' => if isspace c then skip_spaces l' else l
  | [] => []
  end.

(** The value of a character as a digit. *)
Definition digit_value (c : Z) : option Z :=
  if (48 <=? c) && (c <=? 57) then Some (c - 48)
  else if (97 <=? c) && (c <=? 122) then Some (c - 87)
  else if (65 <=? c) && (c <=? 90) then Some (c - 55)
  else None.

Definition digit_of (base c : Z) : option Z :=
  match digit_value c with
  | Some d => if d <? base then Some d else None
  | None => None
  end.

(** The digits at the front: their value, their number, the rest. *)
Fixpoint digits (base : Z) (l : list Z) (acc : Z) (n : nat) : Z * nat * list Z :=
  match l with
  | c :: l' =>
      match digit_of base c with
      | Some d => digits base l' (acc * base + d) (S n)
      | None => (acc, n, l)
      end
  | [] => (acc, n, [])
  end.

(** The prefix 0x, only in front of a hexadecimal digit. *)
Definition skip_prefix (base : Z) (l : list Z) : list Z :=
  match l with
  | z :: x :: c :: l' =>
      if (base =? 16) && (z =? 48) && ((x =? 120) || (x =? 88)) && bool_decide (is_Some (digit_of 16 c))
      then c :: l' else l
  | _ => l
  end.

(** An optional sign. *)
Definition sign (l : list Z) : bool * list Z :=
  match l with
  | c :: l' => if c =? 45 then (true, l') else if c =? 43 then (false, l') else (false, l)
  | [] => (false, l)
  end.

(** strtoul with a 64-bit unsigned long: the value and where the end pointer
    points, the start when nothing was converted. *)
Definition strtoul (l : list Z) (base : Z) : Z * list Z :=
  let s := skip_spaces l in
  let '(negative, s) := sign s in
  let '(v, n, rest) := digits base (skip_prefix base s) 0 0 in
  if (n =? 0)%nat then (0, l)
  else if 2 ^ 64 <=? v then (UINT64_MAX, rest)
  else (if negative : bool then u64 (- v) else v, rest).

(** strtoull and strtoll of decimal numbers: the value, unless errno is set to
    ERANGE, and what is left of the string. *)
Definition strtoull (l : list Z) : option Z * list Z :=
  let '(negative, s) := sign (skip_spaces l) in
  let '(v, n, rest) := digits 10 s 0 0 in
  if (n =? 0)%nat then (Some 0, l)
  else (if v <? 2 ^ 64 then Some (if negative : bool then u64 (- v) else v) else None, rest).

Definition strtoll (l : list Z) : option Z * list Z :=
  let '(negative, s) := sign (skip_spaces l) in
  let '(v, n, rest) := digits 10 s 0 0 in
  let v := if negative : bool then - v else v in
  if (n =? 0)%nat then (Some 0, l) else (if fits_signed 64 v then Some v else None, rest).

(** The character of a digit. *)
Definition digit_char (d : Z) : Z := if d <? 10 then 48 + d else 87 + d.

(** A number without leading zeros; 64 bits have at most 64 digits. *)
Fixpoint print_digits (base : Z) (fuel : nat) (n : Z) : list Z :=
  match fuel with
  | O => []
  | S f => if n <? base then [digit_char n] else print_digits base f (n / base) ++ [digit_char (n mod base)]
  end.

Definition print_number (base n : Z) : list Z := print_digits base 64 n.

(** std::to_string *)
Definition to_string (n : Z) : list Z := if n <? 0 then 45 :: print_number 10 (- n) else print_number 10 n.

(** The value of decimal digits. *)
Definition decimal (l : list Z) : Z := foldl (fun n c => n * 10 + (c - 48)) 0 l.

(** The longest prefix of characters with a property, and the rest. *)
Fixpoint span (p : Z -> bool) (l : list Z) : list Z * list Z :=
  match l with
  | c :: l' => if p c then let '(a, r) := span p l' in (c :: a, r) else ([], l)
  | [] => ([], [])
  end.

(** [n] in [k] digits. *)
Fixpoint numeral (base : Z) (k : nat) (n : Z) : list Z :=
  match k with
  | O => []
  | S k' => numeral base k' (n / base) ++ [digit_char (n mod base)]
  end.

(** ** Lemmas *)

Lemma span_app p t : fst (span p t) ++ snd (span p t) = t.
Proof. induction t as [|c t IH]; [done|]. cbn. destruct (p c); [|done]. destruct (span p t). cbn in *. by rewrite IH. Qed.

Lemma span_stop p t c r : snd (span p t) = c :: r -> p c = false.
Proof. induction t as [|d t IH]; [done|]. cbn. destruct (p d) eqn:E; [destruct (span p t); cbn; apply IH|]. by intros [= -> ->]. Qed.

Lemma span_forall p t : Forall (fun c => p c = true) (fst (span p t)).
Proof. induction t as [|d t IH]; [constructor|]. cbn. destruct (p d) eqn:E; [|constructor]. destruct (span p t). by constructor. Qed.

Lemma span_all p a r : Forall (fun c => p c = true) a -> p (hd 0 r) = false \/ r = [] -> span p (a ++ r) = (a, r).
Proof.
  intros Ha Hr. induction Ha as [|c a Hc _ IH]; cbn [app].
  - destruct r as [|c r]; [done|]. cbn in *. destruct Hr as [->|]; done.
  - cbn. by rewrite Hc, IH.
Qed.

Lemma span_prefix p a t : Forall (fun c => p c = true) a -> span p (a ++ t) = (a ++ fst (span p t), snd (span p t)).
Proof. induction 1 as [|c a Hc _ IH]; cbn; [by destruct (span p t)|]. by rewrite Hc, IH. Qed.

Lemma sign_none c l : c <> 45 -> c <> 43 -> sign (c :: l) = (false, c :: l).
Proof. intros. cbn. by rewrite (proj2 (Z.eqb_neq c 45)), (proj2 (Z.eqb_neq c 43)). Qed.

Lemma digit_char_of base d : 10 <= base <= 16 -> 0 <= d < base -> digit_of base (digit_char d) = Some d.
Proof. intros Hb Hd. unfold digit_of, digit_value, digit_char. split_cases; f_equal; lia. Qed.

Lemma digits_numeral base k rest : 10 <= base <= 16 -> forall n acc c, 0 <= n < base ^ Z.of_nat k ->
  digits base (numeral base k n ++ rest) acc c = digits base rest (acc * base ^ Z.of_nat k + n) (c + k).
Proof.
  intros Hb. revert rest. induction k as [|k IH]; intros rest n acc c Hn.
  - simpl in *. f_equal; lia.
  - simpl numeral. rewrite <- app_assoc. rewrite Nat2Z.inj_succ, Z.pow_succ_r in * by lia.
    pose proof (Z.mod_pos_bound n base ltac:(lia)). pose proof (Z.div_mod n base ltac:(lia)).
    rewrite IH by (split; [apply Z.div_pos; lia|apply Z.div_lt_upper_bound; lia]).
    simpl. rewrite digit_char_of by lia. f_equal; [|lia]. nia.
Qed.

Lemma numeral_chars base k n : 10 <= base <= 16 ->
  Forall (fun c => 48 <= c <= 57 \/ 97 <= c <= 102) (numeral base k n).
Proof.
  intros Hb. revert n. induction k as [|k IH]; intros n; simpl; [constructor|].
  apply Forall_app. split; [done|]. constructor; [|constructor].
  pose proof (Z.mod_pos_bound n base ltac:(lia)). unfold digit_char. case_match; lia.
Qed.

Lemma numeral_length base k n : length (numeral base k n) = k.
Proof. revert n. induction k as [|k IH]; intros n; simpl; [done|]. rewrite length_app, IH. simpl. lia. Qed.

Lemma numeral_digits k n : Forall (fun c => digit c = true) (numeral 10 k n).
Proof.
  revert n. induction k as [|k IH]; intros n; cbn [numeral]; [constructor|]. apply Forall_app. split; [apply IH|].
  constructor; [|constructor]. pose proof (Z.mod_pos_bound n 10 ltac:(lia)). unfold digit_char, digit. destruct (n mod 10 <? 10) eqn:E; lia.
Qed.

Lemma numeral_value k n : 0 <= n < 10 ^ Z.of_nat k -> decimal (numeral 10 k n) = n.
Proof.
  revert n. induction k as [|k IH]; intros n Hn; [cbn in *; lia|]. cbn [numeral]. unfold decimal in *. rewrite foldl_app. cbn [foldl].
  rewrite Nat2Z.inj_succ, Z.pow_succ_r in Hn by lia. rewrite IH by (Z.to_euclidean_division_equations; lia).
  pose proof (Z.mod_pos_bound n 10 ltac:(lia)). unfold digit_char. destruct (n mod 10 <? 10) eqn:E; [|lia].
  pose proof (Z.div_mod n 10). lia.
Qed.

Lemma print_digits_length base n x : (length (print_digits base n x) <= n)%nat.
Proof.
  revert x. induction n as [|n IH]; intros x; cbn [print_digits]; [cbn; lia|].
  destruct (x <? base); cbn; [lia|]. rewrite length_app. cbn. specialize (IH (x / base)). lia.
Qed.
