(* ===== verification/Memory.v ===== *)
(** * Memory: the sources of bytes (libunwindstack/Memory.cpp, Memory.h)

    [Memory] is the abstract class: all the unwinder knows of a memory is its
    virtual [Read].  [MemoryOk] states what the unwinder relies on.  Below it
    come the concrete classes [MemoryBuffer], [MemoryFileAtOffset],
    [MemoryOffline], [MemoryRange] and [MemoryRemote]. *)

From S2P Require Import Prelude.

(** ** The interface *)

(** [Read m addr size] is [None] when the method returns false and [Some] of
    the bytes stored into [dst] when it returns true. *)
Record Memory := mkMemory { Read : Z -> Z -> option (list Z) }.

(** What a memory promises: a read that succeeds delivers exactly the bytes
    asked for, does not run over the end of the 64-bit address space, and a
    read of adjacent ranges is the concatenation of the reads. *)
Class MemoryOk (m : Memory) : Prop := {
  Read_length a n bs : 0 <= a -> 0 <= n -> Read m a n = Some bs -> Z.of_nat (length bs) = n;
  Read_bytes a n bs : 0 <= a -> 0 <= n -> Read m a n = Some bs -> Forall is_byte bs;
  Read_no_overflow a n bs : 0 <= a -> 0 <= n -> Read m a n = Some bs -> a + n < 2 ^ 64;
  Read_app a n1 n2 : 0 <= a -> 0 <= n1 -> 0 <= n2 ->
    Read m a (n1 + n2) =
      match Read m a n1, Read m (a + n1) n2 with
      | Some b1, Some b2 => Some (b1 ++ b2)
      | _, _ => None
      end
}.

(** [__builtin_add_overflow] on uint64_t: [None] when the sum does not fit. *)
Definition add_overflow (x y : Z) : option Z :=
  if 2 ^ 64 <=? x + y then None else Some (x + y).

Definition Read32 (m : Memory) (addr : Z) : option Z :=
  le_combine <$> Read m addr 4.

Definition Read64 (m : Memory) (addr : Z) : option Z :=
  le_combine <$> Read m addr 8.

(** [ReadField]: the field's address is given as its distance from the start
    of the structure ([field - start]). *)
Definition ReadField (m : Memory) (addr field size : Z) : option (list Z) :=
  if field <? 0 then None
  else match add_overflow addr field with
       | None => None
       | Some offset => Read m offset size
       end.

(** [ReadString]: the returned flag and the content of [*string]. *)
Fixpoint ReadString_loop (m : Memory) (fuel : nat) (addr bytes_read max_read : Z)
    (string : list Z) : outcome (bool * list Z) :=
  match fuel with
  | O => NoFuel
  | S n =>
      if bytes_read <? max_read then
        match Read m addr 1 with
        | Some [value] =>
            if value =? 0 then Ok (true, string)
            else ReadString_loop m n (u64 (addr + 1)) (bytes_read + 1) max_read
                   (string ++ [value])
        | _ => Ok (false, string)
        end
      else Ok (false, string)
  end.

Definition ReadString (m : Memory) (fuel : nat) (addr max_read : Z) : outcome (bool * list Z) :=
  ReadString_loop m fuel addr 0 max_read [].

(** The [n] bytes of [l] from index [a] on. *)
Definition slice (l : list Z) (a n : Z) : list Z :=
  take (Z.to_nat n) (drop (Z.to_nat a) l).

Definition lengthZ {A} (l : list A) : Z := Z.of_nat (length l).

Lemma lengthZ_nonneg {A} (l : list A) : 0 <= lengthZ l.
Proof. unfold lengthZ. lia. Qed.

#[export] Hint Resolve lengthZ_nonneg : cpp.

(** ** MemoryBuffer *)

Record MemoryBuffer := mkMemoryBuffer { raw_ : list Z }.

Definition MemoryBuffer_Read (mb : MemoryBuffer) (addr size : Z) : option (list Z) :=
  match add_overflow size addr with
  | None => None
  | Some last_read_byte =>
      if lengthZ (raw_ mb) <? last_read_byte then None
      else Some (slice (raw_ mb) addr size)
  end.

(** [GetPtr]: the index of the byte pointed at, or nullptr. *)
Definition MemoryBuffer_GetPtr (mb : MemoryBuffer) (offset : Z) : option Z :=
  if offset <? lengthZ (raw_ mb) then Some offset else None.

Definition MemoryBuffer_Resize (mb : MemoryBuffer) (size : Z) : MemoryBuffer :=
  mkMemoryBuffer (take (Z.to_nat size) (raw_ mb)
                  ++ replicate (Z.to_nat size - length (raw_ mb)) 0).

Definition MemoryBuffer_Size (mb : MemoryBuffer) : Z := lengthZ (raw_ mb).

Definition buffer_memory (mb : MemoryBuffer) : Memory := mkMemory (MemoryBuffer_Read mb).

(** ** MemoryFileAtOffset

    The mapping is the list of bytes that mmap returned; [data_] is the index
    in it that the C++ pointer designates, [None] for nullptr. *)
Record MemoryFileAtOffset := mkFile {
  map_ : list Z;
  size_ : Z;
  offset_ : Z;
  data_ : option Z
}.

Definition new_MemoryFileAtOffset : MemoryFileAtOffset := mkFile [] 0 0 None.

Definition MemoryFileAtOffset_Clear (f : MemoryFileAtOffset) : MemoryFileAtOffset :=
  match data_ f with
  | Some _ => mkFile [] (size_ f) (offset_ f) None
  | None => f
  end.

Section FileAtOffset.
(** The environment of [Init]: the content of the named file ([None]: open or
    fstat fail), the page size, and whether mmap accepts a length and offset. *)
Context (file : option (list Z)) (getpagesize : Z) (mmap : Z -> Z -> bool).

Definition MemoryFileAtOffset_Init (offset size : Z) (f0 : MemoryFileAtOffset)
    : bool * MemoryFileAtOffset :=
  let f := MemoryFileAtOffset_Clear f0 in
  match file with
  | None => (false, f)
  | Some content =>
      let st_size := lengthZ content in
      if st_size <=? offset then (false, f)
      else
        let off := Z.land offset (getpagesize - 1) in
        let aligned_offset := Z.land offset (u64 (Z.lnot (getpagesize - 1))) in
        let f := mkFile (map_ f) (size_ f) off (data_ f) in
        if (st_size <? aligned_offset) || (st_size <? offset) then (false, f)
        else
          let sz := st_size - aligned_offset in
          let sz := match add_overflow size off with
                    | Some max_size => if max_size <? sz then max_size else sz
                    | None => sz
                    end in
          let f := mkFile (map_ f) sz off (data_ f) in
          if mmap sz aligned_offset then
            (true, mkFile (slice content aligned_offset sz) (u64 (sz - off)) off (Some off))
          else (false, f)
  end.

End FileAtOffset.

(** [memcpy(dst, &data_[addr], size)] through a null or dangling pointer is
    undefined. *)
Definition MemoryFileAtOffset_memcpy (f : MemoryFileAtOffset) (addr size : Z)
    : outcome (option (list Z)) :=
  match data_ f with
  | None => Undef
  | Some d =>
      if d + addr + size <=? lengthZ (map_ f) then Ok (Some (slice (map_ f) (d + addr) size))
      else Undef
  end.

Definition MemoryFileAtOffset_Read (f : MemoryFileAtOffset) (addr size : Z)
    : outcome (option (list Z)) :=
  match add_overflow addr size with
  | None => Ok None
  | Some max_size =>
      if size_ f <? max_size then Ok None
      else MemoryFileAtOffset_memcpy f addr size
  end.

Definition file_memory (f : MemoryFileAtOffset) : Memory :=
  mkMemory (fun addr size => match MemoryFileAtOffset_Read f addr size with
                             | Ok r => r | _ => None end).

(** ** MemoryOffline: a file whose first eight bytes are the start address *)

Record MemoryOffline := mkOffline { base_ : MemoryFileAtOffset; start_ : Z }.

Definition MemoryOffline_Init (file : option (list Z)) (getpagesize : Z) (mmap : Z -> Z -> bool)
    (offset : Z) (o : MemoryOffline) : outcome (bool * MemoryOffline) :=
  let '(ok, f) := MemoryFileAtOffset_Init file getpagesize mmap offset UINT64_MAX (base_ o) in
  if ok then
    match MemoryFileAtOffset_Read f 0 8 with
    | Ok (Some bs) =>
        Ok (true, mkOffline (mkFile (map_ f) (u64 (size_ f - 8)) (offset_ f) (data_ f))
                            (le_combine bs))
    | Ok None => Ok (false, mkOffline f (start_ o))
    | Abort => Abort
    | Undef => Undef
    | NoFuel => NoFuel
    end
  else Ok (false, mkOffline f (start_ o)).

Definition MemoryOffline_Read (o : MemoryOffline) (addr size : Z) : outcome (option (list Z)) :=
  let f := base_ o in
  match add_overflow addr size with
  | None => Ok None
  | Some max_size =>
      match add_overflow (start_ o) (offset_ f) with
      | None => Ok None
      | Some real_size =>
          match add_overflow real_size (size_ f) with
          | None => Ok None
          | Some real_size =>
              if (addr <? start_ o) || (real_size <? max_size) then Ok None
              else MemoryFileAtOffset_memcpy f (u64 (addr + offset_ f - start_ o + 8)) size
          end
      end
  end.

(** ** MemoryRange *)

Record MemoryRange := mkRange { memory_ : Memory; begin_ : Z; length_ : Z }.

Definition new_MemoryRange (memory : Memory) (begin end_ : Z) : outcome MemoryRange :=
  if begin <? end_ then Ok (mkRange memory begin (u64 (end_ - begin))) else Abort.

Definition MemoryRange_Read (r : MemoryRange) (addr size : Z) : option (list Z) :=
  match add_overflow addr size with
  | None => None
  | Some max_read =>
      if length_ r <? max_read then None
      else Read (memory_ r) (u64 (addr + begin_ r)) size
  end.

Definition range_memory (r : MemoryRange) : Memory := mkMemory (MemoryRange_Read r).

(** ** MemoryRemote

    [ptrace addr] is the value ptrace(PTRACE_PEEKTEXT, pid_, addr) returns and
    whether errno is set afterwards (a long is 8 bytes: the LP64 build). *)
Section Remote.
Context (ptrace : Z -> Z * bool).

Definition PtraceRead (addr : Z) : option Z :=
  let '(value, errno) := ptrace addr in
  if (value =? -1) && errno then None else Some value.

(** The bytes of the object representation of a long. *)
Definition long_bytes (data : Z) : list Z := le_split 8 (u64 data).

Fixpoint MemoryRemote_words (n : nat) (addr : Z) : option (list Z) :=
  match n with
  | O => Some []
  | S n =>
      match PtraceRead addr with
      | None => None
      | Some data =>
          match MemoryRemote_words n (u64 (addr + 8)) with
          | None => None
          | Some rest => Some (long_bytes data ++ rest)
          end
      end
  end.

(** The part of [Read] after the unaligned head: whole words, then the rest. *)
Definition MemoryRemote_aligned (addr bytes : Z) : option (list Z) :=
  match MemoryRemote_words (Z.to_nat (bytes / 8)) addr with
  | None => None
  | Some words =>
      let left_over := Z.land bytes 7 in
      if left_over =? 0 then Some words
      else match PtraceRead (u64 (addr + 8 * (bytes / 8))) with
           | None => None
           | Some data => Some (words ++ slice (long_bytes data) 0 left_over)
           end
  end.

Definition MemoryRemote_Read (addr bytes : Z) : option (list Z) :=
  match add_overflow addr bytes with
  | None => None
  | Some _ =>
      let align_bytes := Z.land addr 7 in
      if align_bytes =? 0 then MemoryRemote_aligned addr bytes
      else match PtraceRead (Z.land addr (u64 (Z.lnot 7))) with
           | None => None
           | Some data =>
               let copy_bytes := Z.min (8 - align_bytes) bytes in
               match MemoryRemote_aligned (u64 (addr + copy_bytes)) (bytes - copy_bytes) with
               | None => None
               | Some rest => Some (slice (long_bytes data) align_bytes copy_bytes ++ rest)
               end
           end
  end.

End Remote.

Definition remote_memory (ptrace : Z -> Z * bool) : Memory := mkMemory (MemoryRemote_Read ptrace).

(** ** MemoryLocal

    [process_vm_readv addr size] is the count the system call returns and the
    bytes it stored. *)
Definition MemoryLocal_Read (process_vm_readv : Z -> Z -> Z * list Z) (addr size : Z)
    : option (list Z) :=
  match add_overflow addr size with
  | None => None
  | Some _ =>
      let '(bytes_read, dst) := process_vm_readv addr size in
      if bytes_read =? -1 then None
      else if u64 bytes_read =? size then Some dst else None
  end.

(** ** Lemmas on slices and alignment *)

Lemma lengthZ_app {A} (l1 l2 : list A) : lengthZ (l1 ++ l2) = lengthZ l1 + lengthZ l2.
Proof. unfold lengthZ. rewrite length_app. lia. Qed.

Lemma lengthZ_cons {A} (a : A) l : lengthZ (a :: l) = 1 + lengthZ l.
Proof. unfold lengthZ. simpl. lia. Qed.

Lemma lengthZ_le_split n z : lengthZ (le_split n z) = Z.of_nat n.
Proof. unfold lengthZ. by rewrite le_split_length. Qed.

Lemma slice_length l a n : 0 <= a -> 0 <= n -> a + n <= lengthZ l -> lengthZ (slice l a n) = n.
Proof. unfold lengthZ, slice. intros. rewrite length_take, length_drop. lia. Qed.

Lemma slice_bytes l a n : Forall is_byte l -> Forall is_byte (slice l a n).
Proof. intros. by apply Forall_take, Forall_drop. Qed.

Lemma slice_app l a n1 n2 : 0 <= a -> 0 <= n1 -> 0 <= n2 ->
  slice l a (n1 + n2) = slice l a n1 ++ slice l (a + n1) n2.
Proof.
  intros. unfold slice. rewrite !Z2Nat.inj_add by lia.
  rewrite <- drop_drop, take_take_drop. done.
Qed.

Lemma slice_slice l a n b m : 0 <= a -> 0 <= b -> 0 <= m -> b + m <= n ->
  slice (slice l a n) b m = slice l (a + b) m.
Proof.
  intros. unfold slice. rewrite skipn_firstn_comm, take_take, drop_drop.
  f_equal; [lia|]. f_equal. lia.
Qed.

Lemma add_overflow_Some x y z : add_overflow x y = Some z <-> z = x + y /\ x + y < 2 ^ 64.
Proof.
  unfold add_overflow. case_match; split; [done|lia|intros; simplify_eq; lia|].
  intros [-> _]. done.
Qed.

Lemma land_u64 x y : in_unsigned 64 x -> Z.land x (u64 y) = Z.land x y.
Proof.
  intros Hx. unfold uwrap. rewrite <- Z.land_ones by lia.
  rewrite (Z.land_comm y), Z.land_assoc, Z.land_ones, Z.mod_small by (unfold in_unsigned in *; lia).
  done.
Qed.

Lemma land_low x k : 0 <= k -> Z.land x (2 ^ k - 1) = x mod 2 ^ k.
Proof. intros. rewrite <- Z.land_ones, Z.ones_equiv by lia. f_equal. Qed.

Lemma land_high x k : in_unsigned 64 x -> 0 <= k ->
  Z.land x (u64 (Z.lnot (2 ^ k - 1))) = x - x mod 2 ^ k.
Proof.
  intros Hx Hk. rewrite land_u64 by done.
  replace (2 ^ k - 1) with (Z.ones k) by (rewrite Z.ones_equiv; lia).
  rewrite <- Z.ldiff_land, Z.ldiff_ones_r, Z.shiftl_mul_pow2, Z.shiftr_div_pow2 by lia.
  pose proof (Z.div_mod x (2 ^ k)). lia.
Qed.

(** ** The buffer and the range implement the interface *)

#[global] Instance buffer_memory_ok mb : Forall is_byte (raw_ mb) -> MemoryOk (buffer_memory mb).
Proof.
  intros Hb. assert (forall a n bs, 0 <= a -> 0 <= n -> MemoryBuffer_Read mb a n = Some bs ->
    a + n < 2 ^ 64 /\ a + n <= lengthZ (raw_ mb) /\ bs = slice (raw_ mb) a n) as Hread.
  { intros a n bs Ha Hn. unfold MemoryBuffer_Read, add_overflow.
    repeat case_match; intros; simplify_eq; lia || (split_and!; [lia..|done]). }
  split; simpl.
  - intros a n bs Ha Hn (?&?&->)%Hread; [|done..]. by apply slice_length.
  - intros a n bs Ha Hn (?&?&->)%Hread; [|done..]. by apply slice_bytes.
  - intros a n bs Ha Hn (?&?&->)%Hread; done.
  - intros a n1 n2 Ha H1 H2. unfold MemoryBuffer_Read, add_overflow.
    repeat case_match; simplify_eq; try lia; try done.
    f_equal. by apply slice_app.
Qed.

(** A buffer given byte by byte. *)
Definition bytes_memory (bs : list Z) : Memory := buffer_memory (mkMemoryBuffer bs).

Lemma bytes_memory_ok bs :
  forallb (fun b => (0 <=? b) && (b <? 256)) bs = true -> MemoryOk (bytes_memory bs).
Proof.
  intros H. apply buffer_memory_ok. simpl. induction bs as [|b bs IH]; simpl in H; constructor.
  - unfold is_byte. lia.
  - by apply IH; destruct (forallb _ bs); [|rewrite andb_false_r in H].
Qed.

Arguments bytes_memory_ok bs & _.

(** A memory that answers like a lawful one is lawful. *)
Lemma MemoryOk_ext m m' :
  (forall a n, 0 <= a -> 0 <= n -> Read m' a n = Read m a n) -> MemoryOk m -> MemoryOk m'.
Proof.
  intros E [L B O A]. split.
  - intros a n bs Ha Hn. rewrite E by done. eauto.
  - intros a n bs Ha Hn. rewrite E by done. eauto.
  - intros a n bs Ha Hn. rewrite E by done. eauto.
  - intros. rewrite !E by lia. auto.
Qed.

(** A range of a lawful memory is lawful: the comment of [MemoryRange::Read]
    holds, [addr + begin_] does not overflow. *)
Lemma MemoryRange_Read_inside m begin end_ r addr size :
  in_unsigned 64 begin -> in_unsigned 64 end_ -> new_MemoryRange m begin end_ = Ok r ->
  0 <= addr -> 0 <= size ->
  MemoryRange_Read r addr size =
    if end_ - begin <? addr + size then None else Read m (begin + addr) size.
Proof.
  unfold new_MemoryRange, in_unsigned, MemoryRange_Read, add_overflow.
  intros Hb He Hr Ha Hs. case_match eqn:Hlt; simplify_eq. simpl.
  rewrite !(uwrap_small 64 (end_ - begin)) by (unfold in_unsigned; lia).
  split_cases.
  rewrite uwrap_small by (unfold in_unsigned; lia). f_equal. lia.
Qed.

#[global] Instance range_memory_ok m begin end_ r : MemoryOk m ->
  in_unsigned 64 begin -> in_unsigned 64 end_ -> new_MemoryRange m begin end_ = Ok r ->
  MemoryOk (range_memory r).
Proof.
  intros Hm Hb He Hr.
  pose proof (fun a n => MemoryRange_Read_inside m begin end_ r a n Hb He Hr) as E.
  unfold in_unsigned in *. split; simpl.
  - intros a n bs Ha Hn. rewrite E by done. case_match; [done|]. apply Read_length; lia.
  - intros a n bs Ha Hn. rewrite E by done. case_match; [done|]. apply Read_bytes; lia.
  - intros a n bs Ha Hn. rewrite E by done. case_match; [done|]. lia.
  - intros a n1 n2 Ha H1 H2. rewrite !E, Read_app, !Z.add_assoc by lia. split_cases.
Qed.

(** ** The mapped file *)

(** What a successful [Init] leaves: the mapping starts at the page below
    [offset], [data_] points at [offset] in it and [size_] bytes follow. *)
Lemma MemoryFileAtOffset_Init_shape content k mmap offset size f0 f :
  lengthZ content < 2 ^ 63 -> 0 <= k -> in_unsigned 64 offset -> in_unsigned 64 size ->
  MemoryFileAtOffset_Init (Some content) (2 ^ k) mmap offset size f0 = (true, f) ->
  let off := offset mod 2 ^ k in
  let n := Z.min size (lengthZ content - offset) in
  offset < lengthZ content /\ f = mkFile (slice content (offset - off) (n + off)) n off (Some off).
Proof.
  intros Hlen Hk Hoff Hsize Hinit. unfold MemoryFileAtOffset_Init in Hinit.
  rewrite land_low, land_high in Hinit by done. unfold in_unsigned in *.
  pose proof (Z.mod_pos_bound offset (2 ^ k) ltac:(lia)) as Hmod.
  pose proof (Z.mod_le offset (2 ^ k) ltac:(lia) ltac:(lia)) as Hmodle.
  set (off := offset mod 2 ^ k) in *. set (n := Z.min size (lengthZ content - offset)).
  replace (match add_overflow size off with
           | Some max_size => if max_size <? lengthZ content - (offset - off) then max_size
                              else lengthZ content - (offset - off)
           | None => lengthZ content - (offset - off)
           end) with (n + off) in Hinit
    by (unfold add_overflow, n; split_cases).
  case_match; [done|]. split; [lia|]. split_cases.
  f_equal. rewrite uwrap_small; unfold in_unsigned; lia.
Qed.

(** After a successful [Init] the file reads as a buffer that holds its bytes
    from [offset] on, at most [size] of them. *)
Lemma MemoryFileAtOffset_Read_buffer content k mmap offset size f0 f addr n :
  lengthZ content < 2 ^ 63 -> 0 <= k -> in_unsigned 64 offset -> in_unsigned 64 size ->
  MemoryFileAtOffset_Init (Some content) (2 ^ k) mmap offset size f0 = (true, f) ->
  0 <= addr -> 0 <= n ->
  MemoryFileAtOffset_Read f addr n =
    Ok (MemoryBuffer_Read (mkMemoryBuffer (slice content offset size)) addr n).
Proof.
  intros Hlen Hk Hoff Hsize Hinit Ha Hn.
  apply MemoryFileAtOffset_Init_shape in Hinit as [Hin ->]; [|done..].
  pose proof (Z.mod_pos_bound offset (2 ^ k) ltac:(lia)) as Hmod.
  pose proof (Z.mod_le offset (2 ^ k) ltac:(unfold in_unsigned in *; lia) ltac:(lia)) as Hmodle.
  set (off := offset mod 2 ^ k) in *. unfold in_unsigned in *.
  assert (lengthZ (slice content offset size) = Z.min size (lengthZ content - offset)) as Hsl.
  { unfold lengthZ, slice in *. rewrite length_take, length_drop. lia. }
  unfold MemoryFileAtOffset_Read, MemoryBuffer_Read, MemoryFileAtOffset_memcpy, add_overflow.
  simpl. rewrite Hsl, (Z.add_comm n addr), slice_length by lia.
  split_cases. rewrite !slice_slice by lia. do 3 f_equal. lia.
Qed.

(** The same with the bytes of the file. *)
Lemma MemoryFileAtOffset_Read_slice content k mmap offset size f0 f addr n :
  lengthZ content < 2 ^ 63 -> 0 <= k -> in_unsigned 64 offset -> in_unsigned 64 size ->
  MemoryFileAtOffset_Init (Some content) (2 ^ k) mmap offset size f0 = (true, f) ->
  0 <= addr -> 0 <= n ->
  MemoryFileAtOffset_Read f addr n =
    Ok (if addr + n <=? Z.min size (lengthZ content - offset)
        then Some (slice content (offset + addr) n) else None).
Proof.
  intros Hlen Hk Hoff Hsize Hinit Ha Hn. rewrite (MemoryFileAtOffset_Read_buffer _ _ _ _ _ _ _ _ _ Hlen Hk Hoff Hsize Hinit) by done.
  apply MemoryFileAtOffset_Init_shape in Hinit as [Hin _]; [|done..]. unfold MemoryBuffer_Read, add_overflow.
  unfold in_unsigned in *. simpl.
  assert (lengthZ (slice content offset size) = Z.min size (lengthZ content - offset)) as ->.
  { unfold lengthZ, slice in *. rewrite length_take, length_drop. lia. }
  f_equal. split_cases. f_equal. apply slice_slice; lia.
Qed.

(** Mapping a file at any offset (page aligned or not) and with any size
    limit succeeds into a lawful memory whose reads are never undefined and
    are exactly the reads of the file's bytes [offset, offset + size), cut at
    the end of the file. *)
Theorem MemoryFileAtOffset_correct content k mmap offset size f0 f :
  Forall is_byte content -> lengthZ content < 2 ^ 63 -> 0 <= k ->
  in_unsigned 64 offset -> in_unsigned 64 size ->
  MemoryFileAtOffset_Init (Some content) (2 ^ k) mmap offset size f0 = (true, f) ->
  MemoryOk (file_memory f) /\
  forall addr n, 0 <= addr -> 0 <= n ->
    MemoryFileAtOffset_Read f addr n =
      Ok (if addr + n <=? Z.min size (lengthZ content - offset)
          then Some (slice content (offset + addr) n) else None).
Proof.
  intros Hb Hlen Hk Hoff Hsize Hinit.
  pose proof (fun a n => MemoryFileAtOffset_Read_buffer _ _ _ _ _ _ _ a n Hlen Hk Hoff Hsize Hinit)
    as E.
  split.
  - eapply MemoryOk_ext, (buffer_memory_ok (mkMemoryBuffer (slice content offset size)));
      [|by apply slice_bytes].
    intros a n Ha Hn. simpl. by rewrite E.
  - intros addr n Ha Hn. by apply (MemoryFileAtOffset_Read_slice content k mmap offset size f0 f).
Qed.

Lemma MemoryFileAtOffset_correct_witness :
  MemoryOk (file_memory (mkFile [1; 2; 3; 4; 5; 6; 7] 2 5 (Some 5))) /\
  forall addr n, 0 <= addr -> 0 <= n ->
    MemoryFileAtOffset_Read (mkFile [1; 2; 3; 4; 5; 6; 7] 2 5 (Some 5)) addr n =
      Ok (if addr + n <=? 2 then Some (slice [1; 2; 3; 4; 5; 6; 7; 8; 9] (5 + addr) n) else None).
Proof.
  apply (MemoryFileAtOffset_correct [1; 2; 3; 4; 5; 6; 7; 8; 9] 12 (fun _ _ => true) 5 2
           new_MemoryFileAtOffset); [by repeat constructor|vm_compute; done..].
Defined.

(** ** MemoryOffline *)

Lemma MemoryOffline_Init_shape content k mmap offset o0 o :
  lengthZ content < 2 ^ 63 -> 0 <= k -> in_unsigned 64 offset -> offset mod 2 ^ k = 0 ->
  MemoryOffline_Init (Some content) (2 ^ k) mmap offset o0 = Ok (true, o) ->
  let n := lengthZ content - offset in
  8 <= n /\
  o = mkOffline (mkFile (slice content offset n) (n - 8) 0 (Some 0))
                (le_combine (slice content offset 8)).
Proof.
  intros Hlen Hk Hoff Hal Hinit. unfold MemoryOffline_Init in Hinit.
  destruct (MemoryFileAtOffset_Init _ _ _ _ _ _) as [[] f] eqn:Hf; [|done].
  assert (in_unsigned 64 UINT64_MAX) as Hmax by done.
  rewrite (MemoryFileAtOffset_Read_buffer _ _ _ _ _ _ _ 0 8 Hlen Hk Hoff Hmax Hf) in Hinit by lia.
  apply MemoryFileAtOffset_Init_shape in Hf as [Hin ->]; [|done..].
  unfold MemoryBuffer_Read in Hinit. simpl in Hinit. unfold in_unsigned in *.
  assert (lengthZ (slice content offset UINT64_MAX) = lengthZ content - offset) as Hs.
  { unfold lengthZ, slice, UINT64_MAX in *. rewrite length_take, length_drop. lia. }
  rewrite Hs, Hal, slice_slice in Hinit by (unfold UINT64_MAX; lia).
  replace (Z.min UINT64_MAX (lengthZ content - offset)) with (lengthZ content - offset) in Hinit
    by (unfold UINT64_MAX; lia).
  rewrite !Z.add_0_r, Z.sub_0_r in Hinit.
  destruct (lengthZ content - offset <? 8) eqn:H8; simpl in Hinit; simplify_eq.
  split; [lia|]. rewrite uwrap_small by (unfold in_unsigned; lia). done.
Qed.

(** An offline snapshot taken at a page-aligned file offset: its first
    eight bytes are the start address and every read inside
    [start_, start_ + size_) returns the snapshot's byte for that address, every
    other read fails, and none is undefined. *)
Theorem MemoryOffline_Read_aligned content k mmap offset o0 o :
  Forall is_byte content -> lengthZ content < 2 ^ 63 -> 0 <= k ->
  in_unsigned 64 offset -> offset mod 2 ^ k = 0 ->
  MemoryOffline_Init (Some content) (2 ^ k) mmap offset o0 = Ok (true, o) ->
  start_ o + lengthZ content < 2 ^ 64 ->
  start_ o = le_combine (slice content offset 8) /\
  forall addr n, 0 <= addr -> 0 <= n ->
    MemoryOffline_Read o addr n =
      Ok (if (start_ o <=? addr) && (addr + n <=? start_ o + (lengthZ content - offset - 8))
          then Some (slice content (offset + 8 + (addr - start_ o)) n) else None).
Proof.
  intros Hb Hlen Hk Hoff Hal Hinit Hstart.
  apply MemoryOffline_Init_shape in Hinit as [H8 ->]; [|done..]. split; [done|]. simpl in *.
  pose proof (le_combine_range _ (slice_bytes _ offset 8 Hb)) as Hst.
  set (st := le_combine _) in *. unfold in_unsigned in *.
  intros addr n Ha Hn. unfold MemoryOffline_Read, MemoryFileAtOffset_memcpy, add_overflow.
  simpl. rewrite slice_length, !Z.add_0_r, Z.add_0_l by lia.
  destruct (decide (st <= addr /\ addr + n <= st + (lengthZ content - offset - 8))).
  - rewrite !(uwrap_small 64 (addr - st + 8)) by (unfold in_unsigned; lia).
    split_cases. rewrite slice_slice by lia. do 3 f_equal. lia.
  - split_cases.
Qed.

Lemma MemoryOffline_Read_aligned_witness :
  exists o, MemoryOffline_Init (Some [9; 9; 0; 1; 0; 0; 0; 0; 0; 0; 21; 22; 23]) 2 (fun _ _ => true) 2
              (mkOffline new_MemoryFileAtOffset 0) = Ok (true, o) /\
  start_ o = 256 /\
  MemoryOffline_Read o 257 2 = Ok (Some [22; 23]).
Proof.
  eexists. split; [vm_compute; done|]. split; [done|].
  refine (proj2 (MemoryOffline_Read_aligned [9; 9; 0; 1; 0; 0; 0; 0; 0; 0; 21; 22; 23] 1
                   (fun _ _ => true) 2 (mkOffline new_MemoryFileAtOffset 0) _ _ _ _ _ _ _ _)
                257 2 _ _);
    [by repeat constructor|vm_compute; done..].
Defined.

(** A 20-byte file: a snapshot at file offset 4 (not page aligned) with start
    address 256 and the eight bytes 10 .. 17. *)
Definition offline_sample : list Z := [0; 0; 0; 0; 0; 1; 0; 0; 0; 0; 0; 0; 10; 11; 12; 13; 14; 15; 16; 17].

(** At an offset that is not page aligned the address arithmetic of
    [MemoryOffline::Read] adds [offset_] although [data_] already includes it:
    the read of the start address returns the byte four further on, and a read
    of the last bytes the bounds check lets through leaves the mapping. *)
Theorem MemoryOffline_Read_unaligned :
  exists o, MemoryOffline_Init (Some offline_sample) 4096 (fun _ _ => true) 4
              (mkOffline new_MemoryFileAtOffset 0) = Ok (true, o) /\
    start_ o = 256 /\
    MemoryOffline_Read o 256 1 = Ok (Some [14]) /\
    MemoryOffline_Read o 260 8 = Undef.
Proof. eexists. split; [vm_compute; done|]. by vm_compute. Qed.

(** ** ReadString *)

(** The memory holds [bs] at [a]. *)
Definition holds (m : Memory) (a : Z) (bs : list Z) : Prop :=
  Read m a (lengthZ bs) = Some bs.

Section Holds.
Context (m : Memory) `{!MemoryOk m}.

Lemma holds_app a bs1 bs2 : 0 <= a ->
  holds m a (bs1 ++ bs2) <-> holds m a bs1 /\ holds m (a + lengthZ bs1) bs2.
Proof.
  intros Ha. unfold holds. rewrite lengthZ_app, Read_app by (unfold lengthZ; lia).
  split.
  - intros H. destruct (Read m a (lengthZ bs1)) as [b1|] eqn:E1; [|done].
    destruct (Read m (a + lengthZ bs1) (lengthZ bs2)) as [b2|] eqn:E2; [|done].
    apply Read_length in E1; [|unfold lengthZ; lia..]. simplify_eq.
    apply app_inj_1 in H as [-> ->]; [done|]. unfold lengthZ in *. lia.
  - by intros [-> ->].
Qed.

Lemma holds_cons a b bs : 0 <= a -> holds m a (b :: bs) <-> holds m a [b] /\ holds m (a + 1) bs.
Proof. intros. by apply (holds_app a [b] bs). Qed.

Lemma holds_bound a bs : 0 <= a -> holds m a bs -> a + lengthZ bs < 2 ^ 64.
Proof. intros Ha H. eapply Read_no_overflow; [done| |exact H]. unfold lengthZ. lia. Qed.

Lemma holds_bytes a bs : 0 <= a -> holds m a bs -> Forall is_byte bs.
Proof. intros Ha H. eapply Read_bytes; [done| |exact H]. unfold lengthZ. lia. Qed.

Lemma Read1_inv a bs : 0 <= a -> Read m a 1 = Some bs -> exists b, bs = [b] /\ is_byte b.
Proof.
  intros Ha H. pose proof (Read_length a 1 bs Ha ltac:(lia) H) as L.
  pose proof (Read_bytes a 1 bs Ha ltac:(lia) H) as B.
  destruct bs as [|b [|]]; simpl in L; try lia. exists b. split; [done|]. by inversion B.
Qed.

Lemma ReadString_loop_found s fuel a r max acc :
  0 <= a -> holds m a (s ++ [0]) -> Forall (fun c => c <> 0) s ->
  r + lengthZ s < max -> (length s < fuel)%nat ->
  ReadString_loop m fuel a r max acc = Ok (true, acc ++ s).
Proof.
  revert fuel a r acc. induction s as [|c s IH]; intros [|n] a r acc Ha H Hs Hmax Hfuel;
    simpl in *; try lia; unfold lengthZ in *; simpl in *;
    rewrite (proj2 (Z.ltb_lt r max)) by lia.
  - change (Read m a 1 = Some [0]) in H. rewrite H. simpl. by rewrite app_nil_r.
  - apply holds_cons in H as [Hc H]; [|done]. inversion Hs; subst.
    change (Read m a 1 = Some [c]) in Hc. rewrite Hc, (proj2 (Z.eqb_neq c 0)) by done.
    assert (a + 1 + lengthZ (s ++ [0]) < 2 ^ 64) as Hb by (apply holds_bound; [lia|done]).
    unfold lengthZ in Hb.
    rewrite uwrap_small by (unfold in_unsigned; lia).
    rewrite IH; [by rewrite <- app_assoc|lia|done|done|lia|lia].
Qed.

Lemma ReadString_loop_total fuel a r max acc :
  0 <= a < 2 ^ 64 -> (Z.to_nat (2 ^ 64 - a) < fuel)%nat ->
  exists ok s, ReadString_loop m fuel a r max acc = Ok (ok, s).
Proof.
  revert a r acc. induction fuel as [|n IH]; intros a r acc Ha Hf; [lia|]. simpl.
  case_match; [|by eauto]. destruct (Read m a 1) as [bs|] eqn:E; [|by eauto].
  apply Read1_inv in E as E'; [|lia]. destruct E' as (b & -> & Hb).
  case_match; [by eauto|]. apply Read_no_overflow in E; [|lia..].
  rewrite uwrap_small by (unfold in_unsigned; lia). apply IH; lia.
Qed.

End Holds.

(** On a lawful memory [ReadString] always returns, and when the memory
    holds a NUL-terminated string at [addr] that is shorter than [max_read], it
    returns true with exactly the characters before the NUL. *)
Theorem ReadString_correct m (OK : MemoryOk m) addr s max_read :
  0 <= addr -> holds m addr (s ++ [0]) -> Forall (fun c => c <> 0) s -> lengthZ s < max_read ->
  (forall fuel a limit, 0 <= a < 2 ^ 64 -> (Z.to_nat (2 ^ 64 - a) < fuel)%nat ->
     exists ok str, ReadString m fuel a limit = Ok (ok, str)) /\
  (forall fuel, (length s < fuel)%nat -> ReadString m fuel addr max_read = Ok (true, s)).
Proof.
  intros Ha H Hs Hmax. split; intros.
  - by apply ReadString_loop_total.
  - unfold ReadString. rewrite (ReadString_loop_found m s); by rewrite ?app_nil_l.
Qed.

Lemma ReadString_correct_witness :
  ReadString (buffer_memory (mkMemoryBuffer [7; 104; 105; 0; 9])) 3 1 100 = Ok (true, [104; 105]).
Proof.
  refine (proj2 (ReadString_correct (buffer_memory (mkMemoryBuffer [7; 104; 105; 0; 9])) _ 1
                   [104; 105] 100 _ _ _ _) 3%nat _); try done.
  - apply buffer_memory_ok. by repeat constructor.
  - by repeat constructor.
  - simpl. lia.
Defined.

(** ** MemoryRemote reads the tracee's bytes *)

(** The [n] bytes of the tracee from [a] on; [None] when one is not mapped. *)
Definition bytes_at (tracee : Z -> option Z) (a n : Z) : option (list Z) :=
  mapM tracee (seqZ a n).

Section RemoteFacts.
Context (tracee : Z -> option Z) (ptrace : Z -> Z * bool).
(** The tracee's memory consists of bytes, and is mapped in units that are
    multiples of a word (pages). *)
Hypothesis tracee_bytes : forall a b, tracee a = Some b -> is_byte b.
Hypothesis tracee_words : forall a b, a / 8 = b / 8 -> is_Some (tracee a) -> is_Some (tracee b).
(** PTRACE_PEEKTEXT of an aligned word: the word's value, or -1 with errno. *)
Hypothesis ptrace_peek : forall a, 0 <= a -> a mod 8 = 0 ->
  ptrace a = match bytes_at tracee a 8 with
             | Some bs => (s64 (le_combine bs), false)
             | None => (-1, true)
             end.

Lemma bytes_at_app a n1 n2 : 0 <= n1 -> 0 <= n2 ->
  bytes_at tracee a (n1 + n2) =
    (b1 ← bytes_at tracee a n1; b2 ← bytes_at tracee (a + n1) n2; Some (b1 ++ b2)).
Proof.
  intros. unfold bytes_at. rewrite seqZ_app by lia.
  generalize (seqZ (a + n1) n2) as l2. generalize (seqZ a n1) as l1.
  induction l1 as [|x l1 IH]; intros l2; simpl.
  - by destruct (mapM tracee l2).
  - destruct (tracee x); simpl; [|done]. rewrite IH. by repeat destruct (mapM _ _).
Qed.

Lemma bytes_at_length a n bs : 0 <= n -> bytes_at tracee a n = Some bs -> lengthZ bs = n.
Proof.
  intros Hn H. apply length_mapM in H. rewrite length_seqZ in H. unfold lengthZ. lia.
Qed.

Lemma bytes_at_bytes a n bs : bytes_at tracee a n = Some bs -> Forall is_byte bs.
Proof.
  unfold bytes_at. intros H%mapM_Some. induction H; constructor; eauto.
Qed.

Lemma bytes_at_None a n : bytes_at tracee a n = None -> exists x, a <= x < a + n /\ tracee x = None.
Proof.
  unfold bytes_at. intros H. apply mapM_None, Exists_exists in H as (x & Hx%elem_of_seqZ & ?). eauto.
Qed.

Lemma bytes_at_hole a n x : a <= x < a + n -> tracee x = None -> bytes_at tracee a n = None.
Proof.
  intros Hx HN. unfold bytes_at. apply mapM_None, Exists_exists. exists x.
  split; [by apply elem_of_seqZ|done].
Qed.

Lemma PtraceRead_word a : 0 <= a -> a mod 8 = 0 ->
  long_bytes <$> PtraceRead ptrace a = bytes_at tracee a 8.
Proof.
  intros Ha Hal. unfold PtraceRead. rewrite ptrace_peek by done.
  destruct (bytes_at tracee a 8) as [bs|] eqn:E; [|done].
  rewrite andb_false_r. simpl. f_equal. unfold long_bytes.
  rewrite uwrap_swrap by lia.
  pose proof (bytes_at_length a 8 bs ltac:(lia) E) as L.
  apply bytes_at_bytes in E. pose proof (le_combine_range _ E).
  unfold lengthZ in L. rewrite uwrap_small.
  - replace 8%nat with (length bs) by lia. by apply le_split_combine.
  - unfold in_unsigned. rewrite L in H. by rewrite pow256 in H by lia.
Qed.

(** A part of a word, as the unaligned head and the tail of [Read] take it. *)
Lemma PtraceRead_part a j n : 0 <= a -> a mod 8 = 0 -> 0 <= j -> 0 < n -> j + n <= 8 ->
  (fun d => slice (long_bytes d) j n) <$> PtraceRead ptrace a = bytes_at tracee (a + j) n.
Proof.
  intros Ha Hal Hj Hn H8.
  change (fun d => slice (long_bytes d) j n) with ((fun w => slice w j n) ∘ long_bytes).
  rewrite option_fmap_compose, PtraceRead_word by done.
  destruct (bytes_at tracee a 8) as [bs|] eqn:E; simpl.
  - replace 8 with (j + (n + (8 - j - n))) in E by lia.
    rewrite bytes_at_app, (bytes_at_app (a + j)) in E by lia.
    destruct (bytes_at tracee a j) as [b1|] eqn:E1; simpl in E; [|done].
    destruct (bytes_at tracee (a + j) n) as [b2|] eqn:E2; simpl in E; [|done].
    destruct (bytes_at tracee (a + j + n) (8 - j - n)) as [b3|] eqn:E3; simplify_eq/=.
    apply bytes_at_length in E1, E2; [|lia..]. unfold slice, lengthZ in *.
    rewrite drop_app_length' by lia. rewrite take_app_length' by lia. done.
  - apply bytes_at_None in E as (x & Hx & HN). symmetry. apply (bytes_at_hole _ _ (a + j)); [lia|].
    destruct (tracee (a + j)) eqn:E; [|done].
    destruct (tracee_words (a + j) x) as [? ?]; [|by eauto|congruence].
    pose proof (Z.div_mod a 8). rewrite Hal in *.
    rewrite <- (Z.div_unique (a + j) 8 (a / 8) j) by lia.
    apply (Z.div_unique x 8 (a / 8) (x - a)); lia.
Qed.

Lemma MemoryRemote_words_spec n a : 0 <= a -> a mod 8 = 0 -> a + 8 * Z.of_nat n < 2 ^ 64 ->
  MemoryRemote_words ptrace n a = bytes_at tracee a (8 * Z.of_nat n).
Proof.
  revert a. induction n as [|n IH]; intros a Ha Hal Hb; [done|].
  replace (8 * Z.of_nat (S n)) with (8 + 8 * Z.of_nat n) by lia.
  rewrite bytes_at_app by lia. simpl. rewrite <- PtraceRead_word by done.
  destruct (PtraceRead ptrace a); simpl; [|done].
  rewrite uwrap_small by (unfold in_unsigned; lia).
  rewrite IH; [by destruct (bytes_at _ _ _)|lia| |lia].
  by rewrite <- Z.add_mod_idemp_r, Z_mod_same_full, Z.add_0_r by lia.
Qed.

Lemma MemoryRemote_aligned_spec a n : 0 <= a -> a mod 8 = 0 -> 0 <= n -> a + n < 2 ^ 64 ->
  MemoryRemote_aligned ptrace a n = bytes_at tracee a n.
Proof.
  intros Ha Hal Hn Hb. unfold MemoryRemote_aligned.
  change (Z.land n 7) with (Z.land n (2 ^ 3 - 1)). rewrite land_low by lia. change (2 ^ 3) with 8.
  pose proof (Z.div_mod n 8 ltac:(lia)). pose proof (Z.mod_pos_bound n 8 ltac:(lia)).
  pose proof (Z.div_pos n 8 ltac:(lia) ltac:(lia)).
  rewrite MemoryRemote_words_spec by (rewrite ?Z2Nat.id; lia). rewrite Z2Nat.id by lia.
  replace (bytes_at tracee a n) with (bytes_at tracee a (8 * (n / 8) + n mod 8)) by (f_equal; lia).
  rewrite bytes_at_app by lia. destruct (bytes_at tracee a (8 * (n / 8))) as [bs|]; simpl; [|done].
  destruct (n mod 8 =? 0) eqn:E.
  - replace (n mod 8) with 0 by lia. simpl. by rewrite app_nil_r.
  - rewrite uwrap_small by (unfold in_unsigned; lia).
    rewrite <- (Z.add_0_r (a + 8 * (n / 8))) at 2. rewrite <- PtraceRead_part; try lia.
    + by destruct (PtraceRead _ _).
    + rewrite Z.mul_comm, Z_mod_plus_full. done.
Qed.

Lemma MemoryRemote_Read_spec a n : 0 <= a -> 0 < n -> a + n < 2 ^ 64 ->
  MemoryRemote_Read ptrace a n = bytes_at tracee a n.
Proof.
  intros Ha Hn Hb. unfold MemoryRemote_Read, add_overflow.
  rewrite (proj2 (Z.leb_gt _ _)) by lia.
  change (Z.land a 7) with (Z.land a (2 ^ 3 - 1)). change (Z.lnot 7) with (Z.lnot (2 ^ 3 - 1)).
  rewrite land_low, land_high by (unfold in_unsigned; lia). change (2 ^ 3) with 8.
  pose proof (Z.div_mod a 8 ltac:(lia)). pose proof (Z.mod_pos_bound a 8 ltac:(lia)).
  pose proof (Z.div_pos a 8 ltac:(lia) ltac:(lia)).
  destruct (a mod 8 =? 0) eqn:E; [apply MemoryRemote_aligned_spec; lia|].
  remember (Z.min (8 - a mod 8) n) as c eqn:Hc.
  replace (bytes_at tracee a n) with (bytes_at tracee (a - a mod 8 + a mod 8) (c + (n - c)))
    by (f_equal; lia).
  assert ((a - a mod 8) mod 8 = 0) by (by rewrite Zminus_mod_idemp_r, Z.sub_diag).
  rewrite bytes_at_app, <- (PtraceRead_part (a - a mod 8) (a mod 8) c) by lia.
  destruct (PtraceRead ptrace _); simpl; [|done].
  rewrite uwrap_small by (unfold in_unsigned; lia).
  replace (a - a mod 8 + a mod 8) with a by lia.
  destruct (decide (n <= 8 - a mod 8)).
  - replace (n - c) with 0 by lia. unfold MemoryRemote_aligned. simpl. done.
  - rewrite MemoryRemote_aligned_spec by (try lia;
      replace (a + c) with (0 + (a / 8 + 1) * 8) by lia; by rewrite Z_mod_plus_full).
    by destruct (bytes_at _ _ _).
Qed.

End RemoteFacts.

(** Reading another process word by word through ptrace is reading its
    bytes: for every address and positive length, aligned or not,
    [MemoryRemote::Read] returns exactly the tracee's bytes, and fails exactly
    when one of them is not mapped. *)
Theorem MemoryRemote_Read_bytes (tracee : Z -> option Z) (ptrace : Z -> Z * bool) :
  (forall a b, tracee a = Some b -> is_byte b) ->
  (forall a b, a / 8 = b / 8 -> is_Some (tracee a) -> is_Some (tracee b)) ->
  (forall a, 0 <= a -> a mod 8 = 0 ->
     ptrace a = match bytes_at tracee a 8 with
                | Some bs => (s64 (le_combine bs), false)
                | None => (-1, true)
                end) ->
  forall addr n, 0 <= addr -> 0 < n ->
    MemoryRemote_Read ptrace addr n =
      if addr + n <? 2 ^ 64 then bytes_at tracee addr n else None.
Proof.
  intros Hb Hw Hp addr n Ha Hn. case_match.
  - apply MemoryRemote_Read_spec; auto with lia.
  - unfold MemoryRemote_Read, add_overflow. by rewrite (proj2 (Z.leb_le _ _)) by lia.
Qed.

Definition sample_tracee (a : Z) : option Z :=
  if (8 <=? a) && (a <? 32) then Some (200 + a) else None.

Definition sample_ptrace (a : Z) : Z * bool :=
  match bytes_at sample_tracee a 8 with
  | Some bs => (s64 (le_combine bs), false)
  | None => (-1, true)
  end.

Lemma MemoryRemote_Read_bytes_witness :
  MemoryRemote_Read sample_ptrace 11 15 = bytes_at sample_tracee 11 15 /\
  MemoryRemote_Read sample_ptrace 30 4 = None.
Proof.
  assert (forall a b, sample_tracee a = Some b -> is_byte b) as Hb.
  { unfold sample_tracee, is_byte. intros a b. case_match; intros; simplify_eq. lia. }
  assert (forall a b, a / 8 = b / 8 -> is_Some (sample_tracee a) -> is_Some (sample_tracee b)) as Hw.
  { unfold sample_tracee. intros a b Hab. repeat case_match; try done.
    intros _. pose proof (Z.div_mod a 8). pose proof (Z.div_mod b 8).
    pose proof (Z.mod_pos_bound a 8). pose proof (Z.mod_pos_bound b 8). lia. }
  pose proof (MemoryRemote_Read_bytes sample_tracee sample_ptrace Hb Hw ltac:(done)) as E.
  split; rewrite E; done.
Defined.
