(* ===== verification/DwarfMemory.v ===== *)
(** * DwarfMemory: reading DWARF data (libunwindstack/DwarfMemory.cpp)

    A cursor over a [Memory] with the base offsets of the relative pointer
    encodings.  The theorems show that the two LEB128 readers invert the DWARF
    encodings, which encodings they cannot read, and what an encoded value of
    fixed size decodes to. *)

From S2P Require Import Prelude Memory.

(** ** DwarfEncoding.h *)

Definition DW_EH_PE_omit : Z := 255.
Definition DW_EH_PE_absptr : Z := 0.
Definition DW_EH_PE_uleb128 : Z := 1.
Definition DW_EH_PE_udata2 : Z := 2.
Definition DW_EH_PE_udata4 : Z := 3.
Definition DW_EH_PE_udata8 : Z := 4.
Definition DW_EH_PE_sleb128 : Z := 9.
Definition DW_EH_PE_sdata2 : Z := 10.
Definition DW_EH_PE_sdata4 : Z := 11.
Definition DW_EH_PE_sdata8 : Z := 12.
Definition DW_EH_PE_pcrel : Z := 16.
Definition DW_EH_PE_textrel : Z := 32.
Definition DW_EH_PE_datarel : Z := 48.
Definition DW_EH_PE_funcrel : Z := 64.
Definition DW_EH_PE_aligned : Z := 80.
Definition DW_EH_PE_udata1 : Z := 13.
Definition DW_EH_PE_sdata1 : Z := 14.
Definition DW_EH_PE_block : Z := 15.

(** ** DwarfError.h *)

Inductive DwarfError :=
| DWARF_ERROR_NONE
| DWARF_ERROR_MEMORY_INVALID
| DWARF_ERROR_ILLEGAL_VALUE
| DWARF_ERROR_ILLEGAL_STATE
| DWARF_ERROR_STACK_INDEX_NOT_VALID
| DWARF_ERROR_NOT_IMPLEMENTED
| DWARF_ERROR_TOO_MANY_ITERATIONS
| DWARF_ERROR_CFA_NOT_DEFINED
| DWARF_ERROR_UNSUPPORTED_VERSION.

#[global] Instance DwarfError_eq_dec : EqDecision DwarfError.
Proof. solve_decision. Defined.

(** ** The state *)

Record DwarfMemory := mkDwarfMemory {
  cur_offset_ : Z;
  pc_offset_ : Z;
  data_offset_ : Z;
  func_offset_ : Z;
  text_offset_ : Z
}.

Definition new_DwarfMemory : DwarfMemory :=
  mkDwarfMemory 0 UINT64_MAX UINT64_MAX UINT64_MAX UINT64_MAX.

Definition set_cur_offset (cur_offset : Z) (d : DwarfMemory) : DwarfMemory :=
  mkDwarfMemory cur_offset (pc_offset_ d) (data_offset_ d) (func_offset_ d) (text_offset_ d).

Definition set_pc_offset (offset : Z) (d : DwarfMemory) : DwarfMemory :=
  mkDwarfMemory (cur_offset_ d) offset (data_offset_ d) (func_offset_ d) (text_offset_ d).

Definition clear_pc_offset (d : DwarfMemory) : DwarfMemory := set_pc_offset UINT64_MAX d.

Definition set_data_offset (offset : Z) (d : DwarfMemory) : DwarfMemory :=
  mkDwarfMemory (cur_offset_ d) (pc_offset_ d) offset (func_offset_ d) (text_offset_ d).

Definition clear_data_offset (d : DwarfMemory) : DwarfMemory := set_data_offset UINT64_MAX d.

Definition set_func_offset (offset : Z) (d : DwarfMemory) : DwarfMemory :=
  mkDwarfMemory (cur_offset_ d) (pc_offset_ d) (data_offset_ d) offset (text_offset_ d).

Definition clear_func_offset (d : DwarfMemory) : DwarfMemory := set_func_offset UINT64_MAX d.

Definition set_text_offset (offset : Z) (d : DwarfMemory) : DwarfMemory :=
  mkDwarfMemory (cur_offset_ d) (pc_offset_ d) (data_offset_ d) (func_offset_ d) offset.

Definition clear_text_offset (d : DwarfMemory) : DwarfMemory := set_text_offset UINT64_MAX d.

(** [GetEncodedSize<AddressType>] *)
Definition GetEncodedSize (AT : AddressType) (encoding : Z) : Z :=
  let e := Z.land encoding 15 in
  if e =? DW_EH_PE_absptr then sizeof AT
  else if (e =? DW_EH_PE_udata1) || (e =? DW_EH_PE_sdata1) then 1
  else if (e =? DW_EH_PE_udata2) || (e =? DW_EH_PE_sdata2) then 2
  else if (e =? DW_EH_PE_udata4) || (e =? DW_EH_PE_sdata4) then 4
  else if (e =? DW_EH_PE_udata8) || (e =? DW_EH_PE_sdata8) then 8
  else 0.

(** ** The operations *)
Section DwarfMemoryOps.
Context (mem : Memory).

Definition ReadBytes (num_bytes : Z) : M DwarfMemory (option (list Z)) := fun d =>
  match Read mem (cur_offset_ d) num_bytes with
  | None => Ok (None, d)
  | Some bs => Ok (Some bs, set_cur_offset (u64 (cur_offset_ d + num_bytes)) d)
  end.

(** [ReadBytes] into an unsigned integer of [n] bytes. *)
Definition ReadUnsigned (n : Z) : M DwarfMemory (option Z) :=
  let? bs := ReadBytes n else ret None in
  ret (Some (le_combine bs)).

(** [ReadSigned<SignedType>] for a SignedType of [n] bytes: the value is sign
    extended to 64 bits. *)
Definition ReadSigned (n : Z) : M DwarfMemory (option Z) :=
  let? bs := ReadBytes n else ret None in
  ret (Some (u64 (swrap (8 * n) (le_combine bs)))).

(** One round of the do-while loop of both LEB128 readers, over [cur_value] and
    [shift].  Shifting a uint64_t by 64 or more is undefined.  The loop leaves
    with [cur_value], [shift] and the last [byte]. *)
Definition leb128_round (l : Z * Z) : M DwarfMemory (Z * Z + option (Z * Z * Z)) :=
  let '(cur_value, shift) := l in
  let? byte := ReadUnsigned 1 else ret (inr None) in
  require (shift <? 64) ;;
  let cur_value := u64 (cur_value + u64 (Z.shiftl (Z.land byte 127) shift)) in
  let shift := shift + 7 in
  if bits_set byte 128 then ret (inl (cur_value, shift))
  else ret (inr (Some (cur_value, shift, byte))).

(** The eleventh round shifts by 70: eleven rounds are enough. *)
Definition leb128_loop : M DwarfMemory (option (Z * Z * Z)) :=
  iter 11 leb128_round (0, 0).

Definition ReadULEB128 : M DwarfMemory (option Z) :=
  let? r := leb128_loop else ret None in
  let '(cur_value, _, _) := r in
  ret (Some cur_value).

(** The int64_t result. *)
Definition ReadSLEB128 : M DwarfMemory (option Z) :=
  let? r := leb128_loop else ret None in
  let '(cur_value, shift, byte) := r in
  if bits_set byte 64 then
    require (shift <? 64) ;;
    ret (Some (s64 (Z.lor cur_value (u64 (Z.shiftl UINT64_MAX shift)))))
  else ret (Some (s64 cur_value)).

(** [None] is the false of an unsupported encoding. *)
Definition AdjustEncodedValue (encoding value : Z) : M DwarfMemory (option Z) :=
  let relative (f : DwarfMemory -> Z) : M DwarfMemory (option Z) :=
    o <- get f ;;
    if o =? UINT64_MAX then ret None else ret (Some (u64 (value + o))) in
  CHECK (Z.land encoding 15 =? 0) ;;
  CHECK (negb (encoding =? DW_EH_PE_aligned)) ;;
  if encoding =? DW_EH_PE_absptr then ret (Some value)
  else if encoding =? DW_EH_PE_pcrel then relative pc_offset_
  else if encoding =? DW_EH_PE_textrel then relative text_offset_
  else if encoding =? DW_EH_PE_datarel then relative data_offset_
  else if encoding =? DW_EH_PE_funcrel then relative func_offset_
  else ret None.

(** The switch of [ReadEncodedValue] on the format nibble. *)
Definition ReadEncodedData (AT : AddressType) (encoding : Z) : M DwarfMemory (option Z) :=
  let e := Z.land encoding 15 in
  if e =? DW_EH_PE_absptr then ReadUnsigned (sizeof AT)
  else if e =? DW_EH_PE_uleb128 then ReadULEB128
  else if e =? DW_EH_PE_sleb128 then
    let? signed_value := ReadSLEB128 else ret None in
    ret (Some (u64 signed_value))
  else if e =? DW_EH_PE_udata1 then ReadUnsigned 1
  else if e =? DW_EH_PE_sdata1 then ReadSigned 1
  else if e =? DW_EH_PE_udata2 then ReadUnsigned 2
  else if e =? DW_EH_PE_sdata2 then ReadSigned 2
  else if e =? DW_EH_PE_udata4 then ReadUnsigned 4
  else if e =? DW_EH_PE_sdata4 then ReadSigned 4
  else if e =? DW_EH_PE_udata8 then ReadUnsigned 8
  else if e =? DW_EH_PE_sdata8 then ReadSigned 8
  else ret None.

(** [ReadEncodedValue<AddressType>].  On overflow [__builtin_add_overflow] has
    stored the wrapped sum. *)
Definition ReadEncodedValue (AT : AddressType) (encoding : Z) : M DwarfMemory (option Z) :=
  if encoding =? DW_EH_PE_omit then ret (Some 0)
  else if encoding =? DW_EH_PE_aligned then
    cur <- get cur_offset_ ;;
    modify (set_cur_offset (u64 (cur + (sizeof AT - 1)))) ;;
    if 2 ^ 64 <=? cur + (sizeof AT - 1) then ret None
    else
      modify (fun d => set_cur_offset (Z.land (cur_offset_ d) (u64 (- sizeof AT))) d) ;;
      ReadUnsigned (sizeof AT)
  else
    let? value := ReadEncodedData AT encoding else ret None in
    AdjustEncodedValue (Z.land encoding 112) value.

End DwarfMemoryOps.

(** ** The LEB128 encodings *)

(** A LEB128 encoding: every byte but the last has its top bit set. *)
Inductive leb128 : list Z -> Prop :=
| leb128_last b : 0 <= b < 128 -> leb128 [b]
| leb128_more b bs : 128 <= b < 256 -> leb128 bs -> leb128 (b :: bs).

(** What it denotes, unsigned and signed. *)
Fixpoint uleb128_value (bs : list Z) : Z :=
  match bs with
  | [] => 0
  | b :: t => b mod 128 + 128 * uleb128_value t
  end.

Definition leb128_negative (bs : list Z) : bool := 64 <=? List.last bs 0.

Definition sleb128_value (bs : list Z) : Z :=
  uleb128_value bs - (if leb128_negative bs then 2 ^ (7 * lengthZ bs) else 0).

(** The encoders of the DWARF standard (section 7.6); [n] bounds the number of
    bytes. *)
Fixpoint uleb128_encode (n : nat) (v : Z) : list Z :=
  match n with
  | O => []
  | S n => if v <? 128 then [v] else (128 + v mod 128) :: uleb128_encode n (v / 128)
  end.

Fixpoint sleb128_encode (n : nat) (v : Z) : list Z :=
  match n with
  | O => []
  | S n => if (-64 <=? v) && (v <? 64) then [v mod 128]
           else (128 + v mod 128) :: sleb128_encode n (v / 128)
  end.

Definition advance (n : Z) (d : DwarfMemory) : DwarfMemory :=
  set_cur_offset (cur_offset_ d + n) d.

Lemma advance_advance a b d : advance b (advance a d) = advance (a + b) d.
Proof. unfold advance, set_cur_offset. simpl. f_equal. lia. Qed.

Lemma byte_low b : Z.land b 127 = b mod 128.
Proof. apply (Z.land_ones b 7). lia. Qed.

Lemma bits_set_top b k : 0 <= k -> 0 <= b < 2 ^ (k + 1) -> bits_set b (2 ^ k) = (2 ^ k <=? b).
Proof.
  intros Hk Hb. unfold bits_set.
  assert (Z.land b (2 ^ k) = if Z.testbit b k then 2 ^ k else 0) as ->.
  { apply Z.bits_inj'. intros n Hn. rewrite Z.land_spec, Z.pow2_bits_eqb by lia.
    destruct (Z.eqb_spec k n) as [->|].
    - destruct (Z.testbit b n); [by rewrite Z.pow2_bits_true|by rewrite Z.bits_0].
    - rewrite andb_false_r. destruct (Z.testbit b k); [|by rewrite Z.bits_0].
      by rewrite Z.pow2_bits_false. }
  rewrite Z.pow_add_r in Hb by lia.
  destruct (Z.leb_spec (2 ^ k) b).
  - assert (Z.testbit b k = true) as ->; [|pose proof (Z.pow_pos_nonneg 2 k); lia].
    apply Z.testbit_true; [lia|]. by rewrite <- (Z.div_unique b (2 ^ k) 1 (b - 2 ^ k)) by lia.
  - assert (Z.testbit b k = false) as ->; [|done].
    apply Z.testbit_false; [lia|]. by rewrite Z.div_small by lia.
Qed.

Section Leb128.
Context (mem : Memory) {OK : MemoryOk mem}.

Lemma ReadBytes_holds d bs : 0 <= cur_offset_ d -> holds mem (cur_offset_ d) bs ->
  ReadBytes mem (lengthZ bs) d = Ok (Some bs, advance (lengthZ bs) d).
Proof.
  intros Hd H. pose proof (holds_bound _ _ bs Hd H). unfold ReadBytes. rewrite H.
  unfold advance. rewrite uwrap_small; [done|]. unfold in_unsigned, lengthZ in *. lia.
Qed.

Lemma ReadUnsigned_holds d n bs : 0 <= cur_offset_ d -> holds mem (cur_offset_ d) bs ->
  lengthZ bs = n -> ReadUnsigned mem n d = Ok (Some (le_combine bs), advance n d).
Proof. intros Hd H <-. unfold ReadUnsigned, bind. by rewrite ReadBytes_holds. Qed.

Lemma ReadSigned_holds d n bs : 0 <= cur_offset_ d -> holds mem (cur_offset_ d) bs ->
  lengthZ bs = n ->
  ReadSigned mem n d = Ok (Some (u64 (swrap (8 * n) (le_combine bs))), advance n d).
Proof. intros Hd H <-. unfold ReadSigned, bind. by rewrite ReadBytes_holds. Qed.

(** One round on a byte the memory holds. *)
Lemma leb128_round_holds d acc shift b :
  0 <= cur_offset_ d -> holds mem (cur_offset_ d) [b] -> is_byte b ->
  0 <= shift -> leb128_round mem (acc, shift) d =
    if shift <? 64 then
      let acc' := u64 (acc + b mod 128 * 2 ^ shift) in
      Ok (if 128 <=? b then inl (acc', shift + 7) else inr (Some (acc', shift + 7, b)), advance 1 d)
    else Undef.
Proof.
  intros Hd H Hb Hs. unfold leb128_round, bind. rewrite (ReadUnsigned_holds d 1 [b]) by done.
  simpl. rewrite Z.add_0_r. unfold require. destruct (shift <? 64); [|done]. simpl.
  change 128 with (2 ^ 7) at 1. rewrite byte_low, uwrap_add_r.
  rewrite (bits_set_top b 7) by (unfold is_byte in Hb; lia). change (2 ^ 7) with 128.
  rewrite Z.shiftl_mul_pow2 by done. by destruct (128 <=? b).
Qed.

Lemma leb128_loop_spec bs : leb128 bs -> forall fuel acc shift d,
  0 <= cur_offset_ d -> holds mem (cur_offset_ d) bs -> 0 <= shift -> (0 < fuel)%nat ->
  (length bs <= fuel)%nat \/ 64 <= shift + 7 * (Z.of_nat fuel - 1) ->
  iter fuel (leb128_round mem) (acc, shift) d =
    if shift + 7 * (lengthZ bs - 1) <? 64 then
      Ok (Some (u64 (acc + uleb128_value bs * 2 ^ shift), shift + 7 * lengthZ bs, List.last bs 0),
          advance (lengthZ bs) d)
    else Undef.
Proof.
  induction 1 as [b Hb|b bs Hb Hbs IH]; intros [|fuel] acc shift d Hd H Hs Hf0 Hf; cbn [length] in Hf; try lia.
  - cbn [iter]. unfold bind at 1. rewrite (leb128_round_holds d acc shift b) by (unfold is_byte; auto with lia).
    unfold lengthZ. simpl. rewrite !Z.add_0_r, (proj2 (Z.leb_gt 128 b)) by lia.
    by destruct (shift <? 64).
  - apply holds_cons in H as [H1 H]; [|done|done]. cbn [iter]. unfold bind at 1.
    rewrite (leb128_round_holds d acc shift b) by (unfold is_byte; auto with lia).
    rewrite (proj2 (Z.leb_le 128 b)) by lia.
    assert (0 < lengthZ bs) by (destruct Hbs; unfold lengthZ; simpl; lia).
    assert (lengthZ (b :: bs) = 1 + lengthZ bs) as Hl by (unfold lengthZ; simpl; lia).
    assert (List.last (b :: bs) 0 = List.last bs 0) as -> by (by destruct Hbs).
    rewrite Hl. destruct (Z.ltb_spec shift 64); [|by rewrite (proj2 (Z.ltb_ge _ _)) by lia].
    cbn zeta beta iota. rewrite IH by (simpl; unfold lengthZ in *; auto with lia).
    replace (shift + 7 + 7 * (lengthZ bs - 1)) with (shift + 7 * (1 + lengthZ bs - 1)) by lia.
    case_match; [|done]. rewrite advance_advance, uwrap_add_l, Z.pow_add_r by lia.
    cbn [uleb128_value]. change (2 ^ 7) with 128.
    replace (shift + 7 + 7 * lengthZ bs) with (shift + 7 * (1 + lengthZ bs)) by lia.
    do 6 f_equal. ring.
Qed.

Lemma leb128_length bs : leb128 bs -> 0 < lengthZ bs.
Proof. destruct 1; unfold lengthZ; simpl; lia. Qed.

Lemma uleb128_value_range bs : 0 <= uleb128_value bs < 2 ^ (7 * lengthZ bs).
Proof.
  induction bs as [|b bs IH]; [done|]. pose proof (Z.mod_pos_bound b 128 ltac:(lia)).
  assert (lengthZ (b :: bs) = 1 + lengthZ bs) as -> by (unfold lengthZ; simpl; lia).
  cbn [uleb128_value]. rewrite Z.mul_add_distr_l, Z.pow_add_r by (unfold lengthZ; lia).
  change (2 ^ (7 * 1)) with 128. nia.
Qed.

(** Both readers on an encoding that is in memory: ten bytes are the most
    [ReadULEB128] can take, and a negative encoding of ten bytes is one too
    long for [ReadSLEB128]. *)
Lemma ReadULEB128_spec d bs :
  0 <= cur_offset_ d -> leb128 bs -> lengthZ bs <= 10 -> holds mem (cur_offset_ d) bs ->
  ReadULEB128 mem d = Ok (Some (u64 (uleb128_value bs)), advance (lengthZ bs) d).
Proof.
  intros Hd Hbs Hl H. unfold ReadULEB128, leb128_loop, bind.
  rewrite (leb128_loop_spec bs) by (auto with lia).
  rewrite (proj2 (Z.ltb_lt _ _)) by lia. by rewrite Z.mul_1_r.
Qed.

Lemma sign_extension v n : 0 <= n <= 64 -> 0 <= v < 2 ^ n ->
  s64 (Z.lor v (u64 (Z.shiftl UINT64_MAX n))) = s64 (v - 2 ^ n).
Proof.
  intros Hn Hv. assert (u64 (Z.shiftl UINT64_MAX n) = 2 ^ 64 - 2 ^ n) as ->.
  { rewrite Z.shiftl_mul_pow2 by lia. unfold UINT64_MAX, uwrap.
    pose proof (Z.pow_le_mono_r 2 n 64).
    symmetry. apply Z.mod_unique_pos with (q := 2 ^ n - 1); lia. }
  assert (Z.land v (2 ^ 64 - 2 ^ n) = 0) as Hland.
  { replace (2 ^ 64 - 2 ^ n) with (Z.shiftl (Z.ones (64 - n)) n).
    - apply Z.bits_inj'. intros i Hi. rewrite Z.land_spec, Z.bits_0.
      destruct (Z.ltb_spec i n); [by rewrite Z.shiftl_spec_low, andb_false_r by lia|].
      destruct (Z.eq_dec v 0) as [->|]; [by rewrite Z.bits_0|].
      rewrite (Z.bits_above_log2 v i); [done|lia|]. 
      apply (Z.lt_le_trans _ n); [apply Z.log2_lt_pow2; lia|lia].
    - rewrite Z.shiftl_mul_pow2, Z.ones_equiv, Z.mul_pred_l, <- Z.pow_add_r by lia.
      f_equal. f_equal. lia. }
  pose proof (Z.add_lor_land v (2 ^ 64 - 2 ^ n)) as E. rewrite Hland, Z.add_0_r in E. rewrite E.
  rewrite <- (swrap_uwrap 64 (v - 2 ^ n)), <- swrap_uwrap. f_equal.
  unfold uwrap. rewrite <- (Z_mod_plus_full (v - 2 ^ n) 1). f_equal. lia.
Qed.

Lemma ReadSLEB128_spec d bs :
  0 <= cur_offset_ d -> leb128 bs -> lengthZ bs <= 10 -> holds mem (cur_offset_ d) bs ->
  ReadSLEB128 mem d =
    if leb128_negative bs && (lengthZ bs =? 10) then Undef
    else Ok (Some (s64 (sleb128_value bs)), advance (lengthZ bs) d).
Proof.
  intros Hd Hbs Hl H. unfold ReadSLEB128, leb128_loop, bind.
  rewrite (leb128_loop_spec bs) by (auto with lia).
  rewrite (proj2 (Z.ltb_lt _ _)) by lia. rewrite Z.mul_1_r, !Z.add_0_l.
  pose proof (leb128_length bs Hbs). pose proof (uleb128_value_range bs).
  assert (bits_set (List.last bs 0) 64 = leb128_negative bs) as ->.
  { apply (bits_set_top _ 6); [lia|]. clear -Hbs. induction Hbs as [|b bs' Hb Hbs IH]; [simpl; lia|].
    by destruct Hbs. }
  unfold sleb128_value. destruct (leb128_negative bs); simpl.
  - destruct (Z.eqb_spec (lengthZ bs) 10) as [->|]; [done|].
    unfold require. rewrite (proj2 (Z.ltb_lt _ _)) by lia. simpl.
    pose proof (Z.pow_le_mono_r 2 (7 * lengthZ bs) 64).
    rewrite uwrap_small by (unfold in_unsigned; lia). rewrite sign_extension by lia. done.
  - by rewrite Z.sub_0_r, swrap_uwrap.
Qed.

End Leb128.

(** The encoders produce encodings of what they are given. *)

Lemma uleb128_encode_spec n v : (0 < n)%nat -> 0 <= v < 2 ^ (7 * Z.of_nat n) ->
  leb128 (uleb128_encode n v) /\ uleb128_value (uleb128_encode n v) = v /\
  lengthZ (uleb128_encode n v) <= Z.of_nat n.
Proof.
  revert v. induction n as [|n IH]; intros v Hn Hv; [lia|]. cbn [uleb128_encode].
  destruct (Z.ltb_spec v 128).
  - unfold lengthZ. cbn [uleb128_value length]. rewrite Z.mod_small by lia.
    split; [constructor; lia|lia].
  - replace (7 * Z.of_nat (S n)) with (7 + 7 * Z.of_nat n) in Hv by lia.
    rewrite Z.pow_add_r in Hv by lia. change (2 ^ 7) with 128 in Hv.
    pose proof (Z.mod_pos_bound v 128 ltac:(lia)).
    destruct n as [|n]; [simpl in Hv; lia|].
    destruct (IH (v / 128)) as (H1 & H2 & H3); [lia| |].
    { split; [apply Z.div_pos; lia|apply Z.div_lt_upper_bound; lia]. }
    unfold lengthZ in *. cbn [uleb128_value length]. rewrite H2.
    split; [by constructor; [lia|]|]. split; [|lia].
    replace (128 + v mod 128) with (v mod 128 + 1 * 128) by lia.
    rewrite Z_mod_plus_full, Z.mod_mod by lia. pose proof (Z.div_mod v 128). lia.
Qed.

Lemma sleb128_value_cons b bs : leb128 bs ->
  sleb128_value (b :: bs) = b mod 128 + 128 * sleb128_value bs.
Proof.
  intros H. unfold sleb128_value, leb128_negative.
  assert (List.last (b :: bs) 0 = List.last bs 0) as -> by (by destruct H).
  assert (lengthZ (b :: bs) = 1 + lengthZ bs) as -> by (unfold lengthZ; simpl; lia).
  rewrite Z.mul_add_distr_l, Z.pow_add_r by (unfold lengthZ; lia).
  change (2 ^ (7 * 1)) with 128. cbn [uleb128_value]. case_match; lia.
Qed.

Lemma sleb128_value_one b : 0 <= b < 128 -> sleb128_value [b] = if 64 <=? b then b - 128 else b.
Proof.
  intros. unfold sleb128_value, leb128_negative. simpl. rewrite Z.mod_small by lia.
  case_match; unfold lengthZ; simpl; lia.
Qed.

Lemma sleb128_value_range bs : leb128 bs ->
  - 2 ^ (7 * lengthZ bs - 1) <= sleb128_value bs < 2 ^ (7 * lengthZ bs - 1).
Proof.
  induction 1 as [b Hb|b bs Hb Hbs IH].
  - rewrite sleb128_value_one by lia. unfold lengthZ. simpl. case_match; lia.
  - rewrite sleb128_value_cons by done. pose proof (leb128_length bs Hbs).
    assert (7 * lengthZ (b :: bs) - 1 = 7 + (7 * lengthZ bs - 1)) as ->
      by (unfold lengthZ; simpl; lia).
    rewrite Z.pow_add_r by lia. change (2 ^ 7) with 128.
    pose proof (Z.mod_pos_bound b 128 ltac:(lia)). lia.
Qed.

Lemma leb128_negative_spec bs : leb128_negative bs = (sleb128_value bs <? 0).
Proof.
  unfold sleb128_value. pose proof (uleb128_value_range bs). case_match; lia.
Qed.

Lemma sleb128_encode_spec n v : (0 < n)%nat ->
  - 2 ^ (7 * Z.of_nat n - 1) <= v < 2 ^ (7 * Z.of_nat n - 1) ->
  leb128 (sleb128_encode n v) /\ sleb128_value (sleb128_encode n v) = v /\
  lengthZ (sleb128_encode n v) <= Z.of_nat n.
Proof.
  revert v. induction n as [|n IH]; intros v Hn Hv; [lia|]. cbn [sleb128_encode].
  pose proof (Z.mod_pos_bound v 128 ltac:(lia)). pose proof (Z.div_mod v 128 ltac:(lia)).
  destruct ((-64 <=? v) && (v <? 64)) eqn:E.
  - split; [constructor; lia|]. split; [|unfold lengthZ; simpl; lia].
    rewrite sleb128_value_one by lia. assert (v / 128 = -1 \/ v / 128 = 0) by lia.
    case_match; lia.
  - destruct n as [|n]; [simpl in Hv; lia|].
    replace (7 * Z.of_nat (S (S n)) - 1) with (7 + (7 * Z.of_nat (S n) - 1)) in Hv by lia.
    rewrite Z.pow_add_r in Hv by lia. change (2 ^ 7) with 128 in Hv.
    destruct (IH (v / 128)) as (H1 & H2 & H3); [lia|lia|].
    split; [by constructor; [lia|]|]. rewrite sleb128_value_cons, H2 by done.
    split; [|unfold lengthZ in *; cbn [length]; lia].
    replace (128 + v mod 128) with (v mod 128 + 1 * 128) by lia.
    rewrite Z_mod_plus_full, Z.mod_mod by lia. lia.
Qed.

Lemma sleb128_encode_fuel n v : (0 < n)%nat ->
  - 2 ^ (7 * Z.of_nat n - 1) <= v < 2 ^ (7 * Z.of_nat n - 1) ->
  sleb128_encode (S n) v = sleb128_encode n v.
Proof.
  revert v. induction n as [|n IH]; intros v Hn Hv; [lia|].
  remember (S n) as m eqn:Hm. cbn [sleb128_encode]. subst m. cbn [sleb128_encode].
  destruct ((-64 <=? v) && (v <? 64)) eqn:E; [done|]. f_equal.
  destruct n as [|n]; [simpl in Hv; lia|]. apply IH; [lia|].
  replace (7 * Z.of_nat (S (S n)) - 1) with (7 + (7 * Z.of_nat (S n) - 1)) in Hv by lia.
  rewrite Z.pow_add_r in Hv by lia. change (2 ^ 7) with 128 in Hv.
  pose proof (Z.mod_pos_bound v 128 ltac:(lia)). pose proof (Z.div_mod v 128 ltac:(lia)). lia.
Qed.

Section Roundtrip.
Context (mem : Memory) {OK : MemoryOk mem}.

Lemma ReadULEB128_encode d v : 0 <= cur_offset_ d -> in_unsigned 64 v ->
  holds mem (cur_offset_ d) (uleb128_encode 10 v) ->
  ReadULEB128 mem d = Ok (Some v, advance (lengthZ (uleb128_encode 10 v)) d).
Proof.
  intros Hd Hv H.
  destruct (uleb128_encode_spec 10 v) as (H1 & H2 & H3); [lia|unfold in_unsigned in Hv; lia|].
  rewrite (ReadULEB128_spec mem d _ Hd H1 H3 H), H2. by rewrite uwrap_small.
Qed.

Lemma ReadSLEB128_encode d v : 0 <= cur_offset_ d -> - 2 ^ 62 <= v < 2 ^ 63 ->
  holds mem (cur_offset_ d) (sleb128_encode 10 v) ->
  ReadSLEB128 mem d = Ok (Some v, advance (lengthZ (sleb128_encode 10 v)) d).
Proof.
  intros Hd Hv H. destruct (sleb128_encode_spec 10 v) as (H1 & H2 & H3); [lia..|].
  rewrite (ReadSLEB128_spec mem d _ Hd H1 H3 H), leb128_negative_spec, H2.
  rewrite swrap_small by (unfold in_signed; lia).
  destruct (Z.ltb_spec v 0) as [Hneg|]; [|done]. rewrite sleb128_encode_fuel in * by lia.
  destruct (sleb128_encode_spec 9 v) as (_ & _ & H9); [lia..|].
  by rewrite andb_true_l, (proj2 (Z.eqb_neq _ _)) by lia.
Qed.

End Roundtrip.

(** The LEB128 readers invert the DWARF encoders on a lawful memory: every
    uint64_t comes back from its unsigned encoding, every int64_t not below
    -2^62 from its signed one, and the cursor is left behind the encoding. *)
Theorem LEB128_roundtrip mem (OK : MemoryOk mem) d v :
  0 <= cur_offset_ d ->
  (in_unsigned 64 v -> holds mem (cur_offset_ d) (uleb128_encode 10 v) ->
     ReadULEB128 mem d = Ok (Some v, advance (lengthZ (uleb128_encode 10 v)) d)) /\
  (- 2 ^ 62 <= v < 2 ^ 63 -> holds mem (cur_offset_ d) (sleb128_encode 10 v) ->
     ReadSLEB128 mem d = Ok (Some v, advance (lengthZ (sleb128_encode 10 v)) d)).
Proof.
  intros Hd. split; intros Hv H; [by apply ReadULEB128_encode|by apply ReadSLEB128_encode].
Qed.

Lemma LEB128_roundtrip_witness :
  ReadULEB128 (bytes_memory [1; 229; 142; 38; 2]) (set_cur_offset 1 new_DwarfMemory)
    = Ok (Some 624485, set_cur_offset 4 new_DwarfMemory) /\
  ReadSLEB128 (bytes_memory [192; 187; 120]) new_DwarfMemory
    = Ok (Some (-123456), set_cur_offset 3 new_DwarfMemory).
Proof.
  split.
  - apply (LEB128_roundtrip (bytes_memory [1; 229; 142; 38; 2])
             (bytes_memory_ok _ eq_refl)
             (set_cur_offset 1 new_DwarfMemory) 624485); by vm_compute.
  - apply (LEB128_roundtrip (bytes_memory [192; 187; 120])
             (bytes_memory_ok _ eq_refl)
             new_DwarfMemory (-123456)); by vm_compute.
Defined.

(** Which encodings the readers cannot take: [ReadULEB128] shifts by 64 or
    more exactly on encodings longer than ten bytes, [ReadSLEB128] on those and
    on every negative encoding of ten bytes, such as the canonical encoding of
    any value below -2^62. *)
Theorem LEB128_undefined mem (OK : MemoryOk mem) d bs :
  0 <= cur_offset_ d -> leb128 bs -> holds mem (cur_offset_ d) bs ->
  (ReadULEB128 mem d = Undef <-> 10 < lengthZ bs) /\
  (ReadSLEB128 mem d = Undef <-> 10 < lengthZ bs \/ (lengthZ bs = 10 /\ sleb128_value bs < 0)).
Proof.
  intros Hd Hbs H. destruct (decide (lengthZ bs <= 10)) as [Hl|Hl].
  - rewrite (ReadULEB128_spec mem d bs), (ReadSLEB128_spec mem d bs) by done.
    rewrite leb128_negative_spec. split; [by split; [|lia]|].
    destruct (Z.ltb_spec (sleb128_value bs) 0), (Z.eqb_spec (lengthZ bs) 10); simpl;
      (split; [try done; try lia|by try lia]).
  - unfold ReadULEB128, ReadSLEB128, leb128_loop, bind.
    rewrite (leb128_loop_spec mem bs) by (auto with lia).
    rewrite (proj2 (Z.ltb_ge _ _)) by lia. split; split; auto with lia.
Qed.

Lemma LEB128_undefined_witness :
  sleb128_encode 10 (- 2 ^ 63) = [128; 128; 128; 128; 128; 128; 128; 128; 128; 127] /\
  ReadSLEB128 (bytes_memory (sleb128_encode 10 (- 2 ^ 63))) new_DwarfMemory = Undef.
Proof.
  split; [done|].
  apply (LEB128_undefined (bytes_memory (sleb128_encode 10 (- 2 ^ 63)))
           (bytes_memory_ok _ eq_refl) new_DwarfMemory
           (sleb128_encode 10 (- 2 ^ 63))); [done| |done|right; done].
  by apply sleb128_encode_spec; [lia|].
Defined.

(** ** What every read preserves

    The cursor stays a uint64_t and never moves back, and the base offsets are
    untouched. *)
Definition dwarf_ok (d : DwarfMemory) : Prop := in_unsigned 64 (cur_offset_ d).

Record moves (d d' : DwarfMemory) : Prop := {
  moves_cur : cur_offset_ d <= cur_offset_ d' < 2 ^ 64;
  moves_bases : d' = set_cur_offset (cur_offset_ d') d
}.

Lemma moves_refl d : dwarf_ok d -> moves d d.
Proof. intros H. split; [unfold dwarf_ok, in_unsigned in H; lia|]. by destruct d. Qed.

Lemma moves_trans d1 d2 d3 : moves d1 d2 -> moves d2 d3 -> moves d1 d3.
Proof. intros [H1 E1] [H2 E2]. split; [lia|]. rewrite E2 at 1. by rewrite E1. Qed.

Lemma moves_advance d n : 0 <= n -> cur_offset_ d + n < 2 ^ 64 -> moves d (advance n d).
Proof. intros. by split; [simpl; lia|]. Qed.

Lemma moves_ok d d' : dwarf_ok d -> moves d d' -> dwarf_ok d'.
Proof. intros H [H1 _]. unfold dwarf_ok, in_unsigned in *. lia. Qed.

#[export] Hint Resolve moves_refl moves_trans moves_advance moves_ok : cpp.

(** The postcondition of the readers: a value that satisfies [P], the cursor
    strictly further; or a failure, the cursor not before where it was. *)
Definition reads {A} (P : A -> Prop) (d : DwarfMemory) (r : option A) (d' : DwarfMemory) : Prop :=
  moves d d' /\ match r with Some v => P v /\ cur_offset_ d < cur_offset_ d' | None => True end.

Section Reads.
Context (mem : Memory) {OK : MemoryOk mem}.
Implicit Types (b : bad) (d : DwarfMemory).

Lemma wp_ReadBytes b n d : dwarf_ok d -> 0 < n ->
  wp b (ReadBytes mem n) (reads (fun bs => lengthZ bs = n /\ Forall is_byte bs /\
                                           Read mem (cur_offset_ d) n = Some bs) d) d.
Proof.
  intros Hd Hn. assert (Hd' := Hd). destruct Hd'. unfold wp, ReadBytes.
  destruct (Read mem (cur_offset_ d) n) as [bs|] eqn:E; [|by split; auto with cpp].
  assert (cur_offset_ d + n < 2 ^ 64) by (eapply Read_no_overflow; [..|exact E]; lia).
  rewrite uwrap_small by (unfold in_unsigned; lia). split; [by apply moves_advance; lia|].
  simpl. split; [|lia]. split_and!; [|eapply Read_bytes; [..|exact E]; lia|done].
  eapply Read_length; [..|exact E]; lia.
Qed.

Lemma le_combine_width bs n w : Forall is_byte bs -> lengthZ bs = n -> 8 * n <= w ->
  in_unsigned w (le_combine bs).
Proof.
  intros H Hl Hw. pose proof (le_combine_range bs H) as R. fold (lengthZ bs) in R.
  rewrite Hl, pow256 in R by (unfold lengthZ in Hl; lia).
  apply (in_unsigned_mono (8 * n)); [unfold lengthZ in Hl; lia|done].
Qed.

Lemma wp_ReadUnsigned b n d : dwarf_ok d -> 0 < n ->
  wp b (ReadUnsigned mem n) (reads (in_unsigned (8 * n)) d) d.
Proof.
  intros Hd Hn. unfold ReadUnsigned. apply wp_bind. eapply wp_mono; [by apply wp_ReadBytes|].
  intros [bs|] d' [Hm H]; [|by split]. destruct H as [(H1 & H2 & _) H3].
  split; [done|]. split; [|done]. by apply (le_combine_width bs n).
Qed.

Lemma wp_ReadSigned b n d : dwarf_ok d -> 0 < n ->
  wp b (ReadSigned mem n) (reads (in_unsigned 64) d) d.
Proof.
  intros Hd Hn. unfold ReadSigned. apply wp_bind. eapply wp_mono; [by apply wp_ReadBytes|].
  intros [bs|] d' [Hm H]; [|by split]. destruct H as [(H1 & H2 & _) H3].
  split; [done|]. split; [by apply uwrap_range|done].
Qed.

Lemma wp_leb128_loop b d : dwarf_ok d -> on_undef b ->
  wp b (leb128_loop mem) (reads (fun '(v, s, _) => in_unsigned 64 v) d) d.
Proof.
  intros Hd Hb. unfold leb128_loop.
  apply (wp_iter b (leb128_round mem)
    (fun l d' => moves d d' /\ dwarf_ok d' /\ 0 <= l.2 < 71 /\ 0 <= fst l)
    (fun l _ => Z.to_nat ((70 - l.2) / 7))); [|by simpl; auto with cpp lia|by apply Nat.ltb_lt].
  intros [acc shift] d1 (Hm & Hd1 & Hs & Ha). simpl in *. apply wp_bind.
  eapply wp_mono; [by apply wp_ReadUnsigned|]. intros [byte|] d2 [Hm2 H2].
  - wp_go; try done; (destruct H2 as [H2 H3]; assert (moves d d2) by eauto with cpp).
    + split_and!; eauto with cpp; try lia; [apply uwrap_range; lia|].
      replace (70 - (shift + 7)) with (70 - shift + (-1) * 7) by lia. rewrite Z.div_add by lia.
      assert (1 <= (70 - shift) / 7) by (apply Z.div_le_lower_bound; lia). lia.
    + split; [done|]. split; [apply uwrap_range; lia|]. destruct Hm. lia.
  - wp_go. split; [eauto with cpp|done].
Qed.

Lemma wp_ReadULEB128 b d : dwarf_ok d -> on_undef b ->
  wp b (ReadULEB128 mem) (reads (in_unsigned 64) d) d.
Proof.
  intros Hd Hb. unfold ReadULEB128. apply wp_bind. eapply wp_mono; [by apply wp_leb128_loop|].
  by intros [[[v s] l]|] d' H.
Qed.

Lemma wp_ReadSLEB128 b d : dwarf_ok d -> on_undef b ->
  wp b (ReadSLEB128 mem) (reads (in_signed 64) d) d.
Proof.
  intros Hd Hb. unfold ReadSLEB128. apply wp_bind. eapply wp_mono; [by apply wp_leb128_loop|].
  intros [[[v s] l]|] d' [H1 H2]; wp_go; try done;
    (split; [done|split; [by apply swrap_range|by apply H2]]).
Qed.

Lemma reads_mono {A} (P P' : A -> Prop) d r d' :
  (forall v, P v -> P' v) -> reads P d r d' -> reads P' d r d'.
Proof. intros HP [H1 H2]. split; [done|]. destruct r; [|done]. by split; [apply HP, H2|apply H2]. Qed.

Lemma wp_ReadUnsigned64 b n d : dwarf_ok d -> 0 < n <= 8 ->
  wp b (ReadUnsigned mem n) (reads (in_unsigned 64) d) d.
Proof.
  intros Hd Hn. eapply wp_mono; [apply wp_ReadUnsigned; [done|lia]|].
  intros r d'. apply reads_mono. intros v. apply in_unsigned_mono. lia.
Qed.

Lemma wp_ReadEncodedData b AT e d : dwarf_ok d -> on_undef b ->
  wp b (ReadEncodedData mem AT e) (reads (in_unsigned 64) d) d.
Proof.
  intros Hd Hb. unfold ReadEncodedData.
  repeat case_match; try (by apply wp_ReadUnsigned64; [done|destruct AT; simpl; lia]);
    try (by apply wp_ReadSigned); try by apply wp_ReadULEB128.
  - apply wp_bind. eapply wp_mono; [by apply wp_ReadSLEB128|].
    intros [v|] d' [Hm Hv]; (split; [done|]); [|done]. split; [by apply uwrap_range|apply Hv].
  - by wp_go; split; [apply moves_refl|].
Qed.

Lemma wp_AdjustEncodedValue b e v d : in_unsigned 64 v -> on_abort b ->
  wp b (AdjustEncodedValue e v)
     (fun r d' => d' = d /\ forall v, r = Some v -> in_unsigned 64 v) d.
Proof.
  intros Hv Hb. unfold AdjustEncodedValue.
  wp_go; try done; (split; [done|]; intros; simplify_eq; auto with cpp lia).
Qed.

Lemma land_sizeof AT x : in_unsigned 64 x ->
  Z.land x (u64 (- sizeof AT)) = x - x mod sizeof AT.
Proof.
  intros Hx. destruct AT; [apply (land_high x 2)|apply (land_high x 3)]; done.
Qed.

(** An encoding with no application: nothing is added and nothing aborts. *)
Definition plain_encoding (e : Z) : bool :=
  (Z.land e 112 =? 0) && negb (e =? DW_EH_PE_omit) && negb (e =? DW_EH_PE_aligned).

Lemma ReadEncodedValue_plain AT e d : plain_encoding e = true ->
  ReadEncodedValue mem AT e d = ReadEncodedData mem AT e d.
Proof.
  unfold plain_encoding. intros [[H1 H2]%andb_prop H3]%andb_prop. unfold ReadEncodedValue.
  rewrite (negb_true_iff _) in H2. rewrite (negb_true_iff _) in H3. rewrite H2, H3.
  apply Z.eqb_eq in H1. rewrite H1. unfold bind.
  by destruct (ReadEncodedData mem AT e d) as [[[v|] d']| | |].
Qed.

Lemma wp_ReadEncodedValue_plain b AT e d : dwarf_ok d -> on_undef b -> plain_encoding e = true ->
  wp b (ReadEncodedValue mem AT e) (reads (in_unsigned 64) d) d.
Proof.
  intros Hd Hb He. unfold wp. rewrite ReadEncodedValue_plain by done. by apply wp_ReadEncodedData.
Qed.

Definition encoded (d : DwarfMemory) (r : option Z) (d' : DwarfMemory) : Prop :=
  forall v, r = Some v -> moves d d' /\ in_unsigned 64 v.

Lemma wp_ReadEncodedValue b AT e d : dwarf_ok d -> on_undef b -> on_abort b ->
  wp b (ReadEncodedValue mem AT e) (encoded d) d.
Proof.
  intros Hd Hu Ha. unfold ReadEncodedValue.
  destruct (e =? DW_EH_PE_omit).
  { wp_go. intros v ?. simplify_eq. split; [by apply moves_refl|done]. }
  destruct (e =? DW_EH_PE_aligned).
  - wp_go; [done|]. destruct Hd as [Hd1 Hd2].
    assert (cur_offset_ d + (sizeof AT - 1) < 2 ^ 64) by (by apply Z.leb_gt).
    rewrite uwrap_small by (destruct AT; unfold in_unsigned; simpl in *; lia).
    rewrite land_sizeof by (destruct AT; unfold in_unsigned; simpl in *; lia).
    set (cur := _ - _ mod _). assert (cur_offset_ d <= cur < 2 ^ 64) as Hcur.
    { subst cur. pose proof (Z.mod_pos_bound (cur_offset_ d + (sizeof AT - 1)) (sizeof AT)).
      destruct AT; simpl in *; lia. }
    eapply wp_mono; [apply wp_ReadUnsigned64; [unfold dwarf_ok, in_unsigned; simpl; lia|]|].
    { destruct AT; simpl; lia. }
    intros r d' [Hm Hr] v ->. split; [|by apply Hr].
    eapply moves_trans; [|exact Hm]. by split; [simpl; lia|].
  - apply wp_bind. eapply wp_mono; [by apply wp_ReadEncodedData|].
    intros [v|] d' [H1 H2]; [|by wp_go].
    eapply wp_mono; [apply wp_AdjustEncodedValue; [apply H2|done]|].
    intros r d'' [-> Hr] v' E. by split; [|apply Hr].
Qed.

End Reads.

(** ** Pointers of fixed size *)

(** What the application part of an encoding adds: [None] when the base is not
    known or the application is not a supported one. *)
Definition encoding_base (encoding : Z) (d : DwarfMemory) : option Z :=
  let known o := if o =? UINT64_MAX then None else Some o in
  match Z.land encoding 112 with
  | 0 => Some 0
  | 16 => known (pc_offset_ d)
  | 32 => known (text_offset_ d)
  | 48 => known (data_offset_ d)
  | 64 => known (func_offset_ d)
  | _ => None
  end.

(** What the format part makes of the bytes. *)
Definition encoding_data (encoding : Z) (bs : list Z) : Z :=
  if existsb (Z.eqb (Z.land encoding 15))
       [DW_EH_PE_sdata1; DW_EH_PE_sdata2; DW_EH_PE_sdata4; DW_EH_PE_sdata8]
  then swrap (8 * lengthZ bs) (le_combine bs) else le_combine bs.

Lemma land_112 x : in_unsigned 8 x -> Z.land x 112 ∈ [0; 16; 32; 48; 64; 80; 96; 112].
Proof.
  intros Hx. assert (forallb (fun n => bool_decide (Z.land n 112 ∈ [0; 16; 32; 48; 64; 80; 96; 112]))
    (seqZ 0 256) = true) as H by (vm_compute; done).
  rewrite forallb_forall in H. apply (bool_decide_eq_true_1 _), H, list_elem_of_In, elem_of_seqZ.
  unfold in_unsigned in Hx. lia.
Qed.

Lemma AdjustEncodedValue_spec encoding v d :
  in_unsigned 8 encoding -> in_unsigned 64 v ->
  AdjustEncodedValue (Z.land encoding 112) v d =
    if Z.land encoding 112 =? DW_EH_PE_aligned then Abort
    else Ok ((fun o => u64 (v + o)) <$> encoding_base encoding d, d).
Proof.
  intros He Hv. apply land_112 in He. unfold encoding_base, AdjustEncodedValue.
  assert (u64 (v + 0) = v) by (by rewrite Z.add_0_r, uwrap_small).
  rewrite !elem_of_cons in He. set (app := Z.land encoding 112) in *. clearbody app.
  destruct_or! He; subst; try (by set_solver);
    unfold bind, CHECK, get, ret, fmap; simpl; try done; try by destruct (_ =? UINT64_MAX).
  by rewrite H.
Qed.

Lemma ReadEncodedData_fixed mem (OK : MemoryOk mem) AT encoding d bs :
  0 <= cur_offset_ d -> 0 < lengthZ bs -> GetEncodedSize AT encoding = lengthZ bs ->
  holds mem (cur_offset_ d) bs ->
  ReadEncodedData mem AT encoding d =
    Ok (Some (u64 (encoding_data encoding bs)), advance (lengthZ bs) d).
Proof.
  intros Hd Hl Hs H. pose proof (holds_bytes mem _ _ Hd H) as Hb.
  assert (lengthZ bs <= 8) by (revert Hs; unfold GetEncodedSize; destruct AT; split_cases).
  assert (u64 (le_combine bs) = le_combine bs) as Hu
    by (apply uwrap_small, (le_combine_width bs (lengthZ bs)); [done..|lia]).
  revert Hs. unfold GetEncodedSize, ReadEncodedData, encoding_data.
  assert (in_unsigned 4 (Z.land encoding 15)) as He
    by (change 15 with (Z.ones 4); rewrite Z.land_ones by lia; by apply uwrap_range).
  generalize dependent (Z.land encoding 15). intros e He Hs.
  assert (e = 0 \/ e = 1 \/ e = 2 \/ e = 3 \/ e = 4 \/ e = 5 \/ e = 6 \/ e = 7 \/ e = 8 \/ e = 9 \/
          e = 10 \/ e = 11 \/ e = 12 \/ e = 13 \/ e = 14 \/ e = 15) as Hin
    by (unfold in_unsigned in He; lia).
  destruct_or! Hin; subst e; cbn in Hs; try lia; cbn -[swrap Z.mul];
    rewrite <- ?Hs; try (by rewrite Hu; apply ReadUnsigned_holds);
    by apply ReadSigned_holds.
Qed.

Lemma ReadEncodedValue_fixed_size mem (OK : MemoryOk mem) AT encoding d bs :
  in_unsigned 8 encoding -> 0 <= cur_offset_ d -> encoding <> DW_EH_PE_aligned ->
  0 < lengthZ bs -> GetEncodedSize AT encoding = lengthZ bs -> holds mem (cur_offset_ d) bs ->
  ReadEncodedValue mem AT encoding d =
    if Z.land encoding 112 =? DW_EH_PE_aligned then Abort
    else Ok ((fun base => u64 (encoding_data encoding bs + base)) <$> encoding_base encoding d,
             advance (lengthZ bs) d).
Proof.
  intros He Hd Hal Hl Hs H. unfold ReadEncodedValue.
  destruct (Z.eqb_spec encoding DW_EH_PE_omit) as [->|_]; [change (0 = lengthZ bs) in Hs; lia|].
  rewrite (proj2 (Z.eqb_neq _ _)) by done. unfold bind.
  rewrite (ReadEncodedData_fixed mem OK AT encoding d bs) by done.
  rewrite AdjustEncodedValue_spec by (auto with cpp lia). case_match; [done|].
  change (encoding_base encoding (advance (lengthZ bs) d)) with (encoding_base encoding d).
  destruct (encoding_base encoding d); simpl; [|done]. by rewrite uwrap_add_l.
Qed.

(** A pointer encoding of fixed size takes exactly [GetEncodedSize] bytes;
    the value is the little-endian integer they hold, sign extended for the
    sdata formats, plus the base its application names, modulo 2^64; it fails
    when that base is unset; and the application DW_EH_PE_aligned combined with
    any format but absptr fails the CHECK and aborts. *)
Theorem ReadEncodedValue_fixed mem (OK : MemoryOk mem) AT encoding d bs :
  in_unsigned 8 encoding -> 0 <= cur_offset_ d -> encoding <> DW_EH_PE_aligned ->
  0 < lengthZ bs -> GetEncodedSize AT encoding = lengthZ bs -> holds mem (cur_offset_ d) bs ->
  ReadEncodedValue mem AT encoding d =
    if Z.land encoding 112 =? DW_EH_PE_aligned then Abort
    else Ok ((fun base => u64 (encoding_data encoding bs + base)) <$> encoding_base encoding d,
             advance (lengthZ bs) d).
Proof. intros. by apply ReadEncodedValue_fixed_size. Qed.

Lemma ReadEncodedValue_fixed_witness :
  let d := set_pc_offset 4096 new_DwarfMemory in
  ReadEncodedValue (bytes_memory [252; 255; 255; 255]) uint64_t 27 d =
    Ok (Some 4092, advance 4 d) /\
  ReadEncodedValue (bytes_memory [252; 255; 255; 255]) uint64_t 59 d = Ok (None, advance 4 d) /\
  ReadEncodedValue (bytes_memory [252; 255; 255; 255]) uint64_t 91 d = Abort.
Proof.
  pose (mem := bytes_memory [252; 255; 255; 255]).
  pose proof (fun e => ReadEncodedValue_fixed mem (bytes_memory_ok _ eq_refl) uint64_t e
                (set_pc_offset 4096 new_DwarfMemory) [252; 255; 255; 255]) as E.
  intros d. split_and!; by rewrite E.
Defined.
