(* ===== verification/Regs.v ===== *)
(** * Regs: the register sets of the four machines (libunwindstack/Regs.cpp,
    Regs.h, Machine.h, User.h, Ucontext.h)

    [Regs] is the state of a [RegsImpl]; the virtual methods are functions that
    branch on the machine.  The theorems show that a register set keeps its
    shape, that adjusting a pc never leaves the address space, and that
    stepping out of a signal handler restores the registers the kernel saved. *)

From S2P Require Import Prelude Memory.

(** ** Machine.h *)

Inductive Machine := Arm | Arm64 | X86 | X86_64.

#[global] Instance Machine_eq_dec : EqDecision Machine.
Proof. solve_decision. Defined.

(** ArmReg *)
Definition ARM_REG_SP : Z := 13.
Definition ARM_REG_LR : Z := 14.
Definition ARM_REG_PC : Z := 15.
Definition ARM_REG_LAST : Z := 16.

(** Arm64Reg *)
Definition ARM64_REG_LR : Z := 30.
Definition ARM64_REG_SP : Z := 31.
Definition ARM64_REG_PC : Z := 32.
Definition ARM64_REG_LAST : Z := 33.

(** X86Reg *)
Definition X86_REG_EAX : Z := 0.
Definition X86_REG_ECX : Z := 1.
Definition X86_REG_EDX : Z := 2.
Definition X86_REG_EBX : Z := 3.
Definition X86_REG_ESP : Z := 4.
Definition X86_REG_EBP : Z := 5.
Definition X86_REG_ESI : Z := 6.
Definition X86_REG_EDI : Z := 7.
Definition X86_REG_EIP : Z := 8.
Definition X86_REG_LAST : Z := 16.

(** X86_64Reg *)
Definition X86_64_REG_RAX : Z := 0.
Definition X86_64_REG_RDX : Z := 1.
Definition X86_64_REG_RCX : Z := 2.
Definition X86_64_REG_RBX : Z := 3.
Definition X86_64_REG_RSI : Z := 4.
Definition X86_64_REG_RDI : Z := 5.
Definition X86_64_REG_RBP : Z := 6.
Definition X86_64_REG_RSP : Z := 7.
Definition X86_64_REG_R8 : Z := 8.
Definition X86_64_REG_RIP : Z := 16.
Definition X86_64_REG_LAST : Z := 17.

(** The machine numbers of elf.h. *)
Definition EM_386 : Z := 3.
Definition EM_ARM : Z := 40.
Definition EM_X86_64 : Z := 62.
Definition EM_AARCH64 : Z := 183.

Definition RegsArm_MachineType : Z := EM_ARM.
Definition RegsArm64_MachineType : Z := EM_AARCH64.
Definition RegsX86_MachineType : Z := EM_386.
Definition RegsX86_64_MachineType : Z := EM_X86_64.

(** The virtual [MachineType]. *)
Definition MachineType (m : Machine) : Z :=
  match m with
  | Arm => RegsArm_MachineType
  | Arm64 => RegsArm64_MachineType
  | X86 => RegsX86_MachineType
  | X86_64 => RegsX86_64_MachineType
  end.

(** ** Regs and RegsImpl *)

Inductive LocationEnum := LOCATION_UNKNOWN | LOCATION_REGISTER | LOCATION_SP_OFFSET.

Record Location := mkLocation { loc_type : LocationEnum; loc_value : Z }.

(** The template argument of each machine's RegsImpl. *)
Definition address_type (m : Machine) : AddressType :=
  match m with Arm | X86 => uint32_t | Arm64 | X86_64 => uint64_t end.

(** What a machine's constructor passes to its base class. *)
Record RegsInit := mkInit { init_total_regs : Z; init_sp_reg : Z; init_return_loc : Location }.

Definition RegsArm_init : RegsInit :=
  mkInit ARM_REG_LAST ARM_REG_SP (mkLocation LOCATION_REGISTER ARM_REG_LR).
Definition RegsArm64_init : RegsInit :=
  mkInit ARM64_REG_LAST ARM64_REG_SP (mkLocation LOCATION_REGISTER ARM64_REG_LR).
Definition RegsX86_init : RegsInit :=
  mkInit X86_REG_LAST X86_REG_ESP (mkLocation LOCATION_SP_OFFSET (-4)).
Definition RegsX86_64_init : RegsInit :=
  mkInit X86_64_REG_LAST X86_64_REG_RSP (mkLocation LOCATION_SP_OFFSET (-8)).

Definition regs_init (m : Machine) : RegsInit :=
  match m with
  | Arm => RegsArm_init
  | Arm64 => RegsArm64_init
  | X86 => RegsX86_init
  | X86_64 => RegsX86_64_init
  end.

Definition machine_total_regs (m : Machine) : Z := init_total_regs (regs_init m).
Definition machine_sp_reg (m : Machine) : Z := init_sp_reg (regs_init m).

Record Regs := mkRegs { machine : Machine; regs_ : list Z; pc_ : Z; sp_ : Z }.

(** The constructors leave [pc_] and [sp_] indeterminate. *)
Definition new_Regs (m : Machine) (pc sp : Z) : Regs :=
  mkRegs m (replicate (Z.to_nat (machine_total_regs m)) 0) pc sp.

Definition total_regs (r : Regs) : Z := machine_total_regs (machine r).
Definition sp_reg (r : Regs) : Z := machine_sp_reg (machine r).

Definition set_pc (pc : Z) (r : Regs) : Regs := mkRegs (machine r) (regs_ r) pc (sp_ r).
Definition set_sp (sp : Z) (r : Regs) : Regs := mkRegs (machine r) (regs_ r) (pc_ r) sp.

(** [operator[]] as a value and as the target of an assignment.  The index is
    below [total_regs] at every use below. *)
Definition reg (r : Regs) (i : Z) : Z := regs_ r !!! Z.to_nat i.

Definition set_reg (i v : Z) (r : Regs) : Regs :=
  mkRegs (machine r) (<[Z.to_nat i := v]> (regs_ r)) (pc_ r) (sp_ r).

(** memcpy of whole words to [regs_] from index [i] on. *)
Fixpoint set_raw (i : Z) (words : list Z) (r : Regs) : Regs :=
  match words with
  | [] => r
  | w :: ws => set_raw (i + 1) ws (set_reg i w r)
  end.

Definition RegsArm_SetFromRaw (r : Regs) : Regs :=
  set_sp (reg r ARM_REG_SP) (set_pc (reg r ARM_REG_PC) r).
Definition RegsArm64_SetFromRaw (r : Regs) : Regs :=
  set_sp (reg r ARM64_REG_SP) (set_pc (reg r ARM64_REG_PC) r).
Definition RegsX86_SetFromRaw (r : Regs) : Regs :=
  set_sp (reg r X86_REG_ESP) (set_pc (reg r X86_REG_EIP) r).
Definition RegsX86_64_SetFromRaw (r : Regs) : Regs :=
  set_sp (reg r X86_64_REG_RSP) (set_pc (reg r X86_64_REG_RIP) r).

(** The virtual [SetFromRaw]. *)
Definition SetFromRaw (r : Regs) : Regs :=
  match machine r with
  | Arm => RegsArm_SetFromRaw r
  | Arm64 => RegsArm64_SetFromRaw r
  | X86 => RegsX86_SetFromRaw r
  | X86_64 => RegsX86_64_SetFromRaw r
  end.

(** [GetAdjustedPc].  Of the Elf it uses [valid()], [GetLoadBias()] and
    [memory()]. *)
Definition RegsArm_GetAdjustedPc (rel_pc : Z) (valid : bool) (load_bias : Z) (memory : Memory) : Z :=
  if negb valid then rel_pc
  else if rel_pc <? load_bias then rel_pc
  else
    let adjusted_rel_pc := u64 (rel_pc - load_bias) in
    if adjusted_rel_pc <? 5 then rel_pc
    else if bits_set adjusted_rel_pc 1 then
      if (rel_pc <? 5) ||
         match Read32 memory (u64 (adjusted_rel_pc - 5)) with
         | None => true
         | Some value => negb (Z.land value 0xe000f000 =? 0xe000f000)
         end
      then u64 (rel_pc - 2)
      else u64 (rel_pc - 4)
    else u64 (rel_pc - 4).

Definition RegsArm64_GetAdjustedPc (rel_pc : Z) (valid : bool) : Z :=
  if negb valid then rel_pc else if rel_pc <? 4 then rel_pc else u64 (rel_pc - 4).

Definition RegsX86_GetAdjustedPc (rel_pc : Z) (valid : bool) : Z :=
  if negb valid then rel_pc else if rel_pc =? 0 then 0 else u64 (rel_pc - 1).

Definition RegsX86_64_GetAdjustedPc (rel_pc : Z) (valid : bool) : Z :=
  if negb valid then rel_pc else if rel_pc =? 0 then 0 else u64 (rel_pc - 1).

(** The virtual [GetAdjustedPc]. *)
Definition GetAdjustedPc (m : Machine) (rel_pc : Z) (valid : bool) (load_bias : Z) (memory : Memory)
    : Z :=
  match m with
  | Arm => RegsArm_GetAdjustedPc rel_pc valid load_bias memory
  | Arm64 => RegsArm64_GetAdjustedPc rel_pc valid
  | X86 => RegsX86_GetAdjustedPc rel_pc valid
  | X86_64 => RegsX86_64_GetAdjustedPc rel_pc valid
  end.

(** [SetPcFromReturnAddress].  [None] is false: the registers are unchanged. *)
Definition RegsArm_SetPcFromReturnAddress (r : Regs) : option Regs :=
  if pc_ r =? reg r ARM_REG_LR then None else Some (set_pc (reg r ARM_REG_LR) r).

Definition RegsArm64_SetPcFromReturnAddress (r : Regs) : option Regs :=
  if pc_ r =? reg r ARM64_REG_LR then None else Some (set_pc (reg r ARM64_REG_LR) r).

Definition RegsX86_SetPcFromReturnAddress (process_memory : Memory) (r : Regs) : option Regs :=
  match Read process_memory (sp_ r) 4 with
  | None => None
  | Some bs => let new_pc := le_combine bs in
               if new_pc =? pc_ r then None else Some (set_pc new_pc r)
  end.

Definition RegsX86_64_SetPcFromReturnAddress (process_memory : Memory) (r : Regs) : option Regs :=
  match Read process_memory (sp_ r) 8 with
  | None => None
  | Some bs => let new_pc := le_combine bs in
               if new_pc =? pc_ r then None else Some (set_pc new_pc r)
  end.

(** The virtual [SetPcFromReturnAddress]. *)
Definition SetPcFromReturnAddress (process_memory : Memory) (r : Regs) : option Regs :=
  match machine r with
  | Arm => RegsArm_SetPcFromReturnAddress r
  | Arm64 => RegsArm64_SetPcFromReturnAddress r
  | X86 => RegsX86_SetPcFromReturnAddress process_memory r
  | X86_64 => RegsX86_64_SetPcFromReturnAddress process_memory r
  end.

(** [IterateRegisters]: the names and register numbers of the calls of the
    callback, in order. *)
Definition RegsArm_names : list (string * Z) :=
  [("r0", 0); ("r1", 1); ("r2", 2); ("r3", 3); ("r4", 4); ("r5", 5); ("r6", 6); ("r7", 7);
   ("r8", 8); ("r9", 9); ("r10", 10); ("r11", 11); ("ip", 12); ("sp", ARM_REG_SP);
   ("lr", ARM_REG_LR); ("pc", ARM_REG_PC)]%string.

Definition RegsArm64_names : list (string * Z) :=
  [("x0", 0); ("x1", 1); ("x2", 2); ("x3", 3); ("x4", 4); ("x5", 5); ("x6", 6); ("x7", 7);
   ("x8", 8); ("x9", 9); ("x10", 10); ("x11", 11); ("x12", 12); ("x13", 13); ("x14", 14);
   ("x15", 15); ("x16", 16); ("x17", 17); ("x18", 18); ("x19", 19); ("x20", 20); ("x21", 21);
   ("x22", 22); ("x23", 23); ("x24", 24); ("x25", 25); ("x26", 26); ("x27", 27); ("x28", 28);
   ("x29", 29); ("sp", ARM64_REG_SP); ("lr", ARM64_REG_LR); ("pc", ARM64_REG_PC)]%string.

Definition RegsX86_names : list (string * Z) :=
  [("eax", X86_REG_EAX); ("ebx", X86_REG_EBX); ("ecx", X86_REG_ECX); ("edx", X86_REG_EDX);
   ("ebp", X86_REG_EBP); ("edi", X86_REG_EDI); ("esi", X86_REG_ESI); ("esp", X86_REG_ESP);
   ("eip", X86_REG_EIP)]%string.

Definition RegsX86_64_names : list (string * Z) :=
  [("rax", X86_64_REG_RAX); ("rbx", X86_64_REG_RBX); ("rcx", X86_64_REG_RCX);
   ("rdx", X86_64_REG_RDX); ("r8", 8); ("r9", 9); ("r10", 10); ("r11", 11); ("r12", 12);
   ("r13", 13); ("r14", 14); ("r15", 15); ("rdi", X86_64_REG_RDI); ("rsi", X86_64_REG_RSI);
   ("rbp", X86_64_REG_RBP); ("rsp", X86_64_REG_RSP); ("rip", X86_64_REG_RIP)]%string.

Definition IterateRegisters (r : Regs) : list (string * Z) :=
  map (fun '(name, i) => (name, reg r i))
    match machine r with
    | Arm => RegsArm_names
    | Arm64 => RegsArm64_names
    | X86 => RegsX86_names
    | X86_64 => RegsX86_64_names
    end.

(** ** Structures the kernel fills in *)

(** A structure of [count] n-byte words. *)
Fixpoint words (n : nat) (count : nat) (bs : list Z) : list Z :=
  match count with
  | O => []
  | S c => le_combine (take n bs) :: words n c (drop n bs)
  end.

(** User.h: the position of each field of the user structures, in words. *)
Definition x86_user_regs : list (Z * Z) :=
  [(X86_REG_EAX, 6); (X86_REG_EBX, 0); (X86_REG_ECX, 1); (X86_REG_EDX, 2); (X86_REG_EBP, 5);
   (X86_REG_EDI, 4); (X86_REG_ESI, 3); (X86_REG_ESP, 15); (X86_REG_EIP, 12)].

Definition x86_64_user_regs : list (Z * Z) :=
  [(X86_64_REG_RAX, 10); (X86_64_REG_RBX, 5); (X86_64_REG_RCX, 11); (X86_64_REG_RDX, 12);
   (8, 9); (9, 8); (10, 7); (11, 6); (12, 3); (13, 2); (14, 1); (15, 0);
   (X86_64_REG_RDI, 14); (X86_64_REG_RSI, 13); (X86_64_REG_RBP, 4); (X86_64_REG_RSP, 19);
   (X86_64_REG_RIP, 16)].

(** Ucontext.h: the same for the mcontext structures. *)
Definition x86_mcontext_t : list (Z * Z) :=
  [(X86_REG_EDI, 4); (X86_REG_ESI, 5); (X86_REG_EBP, 6); (X86_REG_ESP, 7); (X86_REG_EBX, 8);
   (X86_REG_EDX, 9); (X86_REG_ECX, 10); (X86_REG_EAX, 11); (X86_REG_EIP, 14)].

Definition x86_64_mcontext_t : list (Z * Z) :=
  [(8, 0); (9, 1); (10, 2); (11, 3); (12, 4); (13, 5); (14, 6); (15, 7);
   (X86_64_REG_RDI, 8); (X86_64_REG_RSI, 9); (X86_64_REG_RBP, 10); (X86_64_REG_RBX, 11);
   (X86_64_REG_RDX, 12); (X86_64_REG_RAX, 13); (X86_64_REG_RCX, 14); (X86_64_REG_RSP, 15);
   (X86_64_REG_RIP, 16)].

Definition sizeof_x86_mcontext_t : Z := 4 * 19.
Definition sizeof_x86_64_mcontext_t : Z := 8 * 23.

(** A run of assignments [regs_[i] = structure.field]. *)
Definition assign_fields (fields : list (Z * Z)) (ws : list Z) (r : Regs) : Regs :=
  foldl (fun r '(i, f) => set_reg i (ws !!! Z.to_nat f) r) r fields.

(** [RegsX86::SetFromUcontext] and [RegsX86_64::SetFromUcontext], given the
    words of [uc_mcontext]. *)
Definition RegsX86_SetFromUcontext (mcontext : list Z) (r : Regs) : Regs :=
  SetFromRaw (assign_fields x86_mcontext_t mcontext r).

Definition RegsX86_64_SetFromUcontext (mcontext : list Z) (r : Regs) : Regs :=
  SetFromRaw (assign_fields x86_64_mcontext_t mcontext r).

(** ReadArm, ReadArm64, ReadX86 and ReadX86_64: [buffer] is the remote data.
    [user->regs[31]] of arm64 is followed by [sp] and [pc], so the copy of 32
    words already takes [sp]. *)
Definition ReadArm (pc sp : Z) (buffer : list Z) : Regs :=
  SetFromRaw (set_raw 0 (words 4 (Z.to_nat ARM_REG_LAST) buffer) (new_Regs Arm pc sp)).

Definition ReadArm64 (pc sp : Z) (buffer : list Z) : Regs :=
  let user := words 8 34 buffer in
  let r := set_raw 0 (take 32 user) (new_Regs Arm64 pc sp) in
  SetFromRaw (set_reg ARM64_REG_SP (user !!! 31%nat) (set_reg ARM64_REG_PC (user !!! 32%nat) r)).

Definition ReadX86 (pc sp : Z) (buffer : list Z) : Regs :=
  SetFromRaw (assign_fields x86_user_regs (words 4 17 buffer) (new_Regs X86 pc sp)).

Definition ReadX86_64 (pc sp : Z) (buffer : list Z) : Regs :=
  SetFromRaw (assign_fields x86_64_user_regs (words 8 27 buffer) (new_Regs X86_64 pc sp)).

(** [Regs::RemoteGet]: the buffer and the length PTRACE_GETREGSET delivered,
    [None] for a failed ptrace. *)
Definition RemoteGet (pc sp : Z) (ptrace : option (list Z * Z)) : option Regs :=
  match ptrace with
  | None => None
  | Some (buffer, iov_len) =>
      if iov_len =? 68 then Some (ReadX86 pc sp buffer)
      else if iov_len =? 216 then Some (ReadX86_64 pc sp buffer)
      else if iov_len =? 72 then Some (ReadArm pc sp buffer)
      else if iov_len =? 272 then Some (ReadArm64 pc sp buffer)
      else None
  end.

(** [ucontext] is the structure, byte by byte.  The offsets of the registers in
    it: 8 + 12 + 12 for arm; 16 + 24 + 128, rounded up to 176, + 8 for arm64; 20
    for x86; 40 for x86_64. *)
Definition CreateFromArmUcontext (pc sp : Z) (ucontext : list Z) : Regs :=
  SetFromRaw (set_raw 0 (words 4 16 (drop 32 ucontext)) (new_Regs Arm pc sp)).

Definition CreateFromArm64Ucontext (pc sp : Z) (ucontext : list Z) : Regs :=
  SetFromRaw (set_raw 0 (words 8 33 (drop 184 ucontext)) (new_Regs Arm64 pc sp)).

Definition CreateFromX86Ucontext (pc sp : Z) (ucontext : list Z) : Regs :=
  RegsX86_SetFromUcontext (words 4 19 (drop 20 ucontext)) (new_Regs X86 pc sp).

Definition CreateFromX86_64Ucontext (pc sp : Z) (ucontext : list Z) : Regs :=
  RegsX86_64_SetFromUcontext (words 8 23 (drop 40 ucontext)) (new_Regs X86_64 pc sp).

Definition CreateFromUcontext (pc sp machine_type : Z) (ucontext : list Z) : option Regs :=
  if machine_type =? EM_386 then Some (CreateFromX86Ucontext pc sp ucontext)
  else if machine_type =? EM_X86_64 then Some (CreateFromX86_64Ucontext pc sp ucontext)
  else if machine_type =? EM_ARM then Some (CreateFromArmUcontext pc sp ucontext)
  else if machine_type =? EM_AARCH64 then Some (CreateFromArm64Ucontext pc sp ucontext)
  else None.

(** ** StepIfSignalHandler *)

Section Signal.
Context (elf_memory process_memory : Memory).
(** What a [Read] that fails leaves in its destination. *)
Context (torn : list Z -> list Z).

(** [process_memory->Read(offset, regs_.data(), ...)] of all registers, then
    [SetFromRaw]. *)
Definition ReadAllRegs (offset : Z) (r : Regs) : bool * Regs :=
  let n := sizeof (address_type (machine r)) in
  match Read process_memory offset (n * total_regs r) with
  | None => (false, mkRegs (machine r) (torn (regs_ r)) (pc_ r) (sp_ r))
  | Some bs =>
      (true, SetFromRaw (set_raw 0 (words (Z.to_nat n) (Z.to_nat (total_regs r)) bs) r))
  end.

Definition RegsArm_StepIfSignalHandler (rel_pc : Z) (r : Regs) : bool * Regs :=
  match Read32 elf_memory rel_pc with
  | None => (false, r)
  | Some data =>
      if existsb (Z.eqb data) [0xe3a07077; 0xef900077; 0xdf002777] then
        match Read32 process_memory (sp_ r) with
        | None => (false, r)
        | Some data =>
            let offset := if data =? 0x5ac3c35a then u64 (sp_ r + 0x14 + 0xc) else u64 (sp_ r + 0xc) in
            if offset =? 0 then (false, r) else ReadAllRegs offset r
        end
      else if existsb (Z.eqb data) [0xe3a070ad; 0xef9000ad; 0xdf0027ad] then
        match Read32 process_memory (sp_ r) with
        | None => (false, r)
        | Some data =>
            let offset := if data =? u64 (sp_ r + 8) then u64 (sp_ r + 8 + 0x80 + 0x14 + 0xc)
                          else u64 (sp_ r + 0x80 + 0x14 + 0xc) in
            if offset =? 0 then (false, r) else ReadAllRegs offset r
        end
      else (false, r)
  end.

Definition RegsArm64_StepIfSignalHandler (rel_pc : Z) (r : Regs) : bool * Regs :=
  match Read64 elf_memory rel_pc with
  | None => (false, r)
  | Some data =>
      if negb (data =? 0xd4000001d2801168) then (false, r)
      else ReadAllRegs (u64 (sp_ r + 0x80 + 0xb0 + 0x08)) r
  end.

(** The fields the frame without SA_SIGINFO is read into: not edi and esi. *)
Definition x86_restore_fields : list (Z * Z) :=
  [(X86_REG_EBP, 6); (X86_REG_ESP, 7); (X86_REG_EBX, 8); (X86_REG_EDX, 9); (X86_REG_ECX, 10);
   (X86_REG_EAX, 11); (X86_REG_EIP, 14)].

Definition RegsX86_StepIfSignalHandler (rel_pc : Z) (r : Regs) : bool * Regs :=
  match Read64 elf_memory rel_pc with
  | None => (false, r)
  | Some data =>
      if data =? 0x80cd00000077b858 then
        match Read process_memory (u64 (sp_ r + 4)) sizeof_x86_mcontext_t with
        | None => (false, r)
        | Some context => (true, SetFromRaw (assign_fields x86_restore_fields (words 4 19 context) r))
        end
      else if Z.land data 0x00ffffffffffffff =? 0x0080cd000000adb8 then
        match Read32 process_memory (u64 (sp_ r + 8)) with
        | None => (false, r)
        | Some ptr =>
            match Read process_memory (u32 (ptr + 0x14)) sizeof_x86_mcontext_t with
            | None => (false, r)
            | Some context => (true, RegsX86_SetFromUcontext (words 4 19 context) r)
            end
        end
      else (false, r)
  end.

Definition RegsX86_64_StepIfSignalHandler (rel_pc : Z) (r : Regs) : bool * Regs :=
  match Read64 elf_memory rel_pc with
  | None => (false, r)
  | Some data =>
      if negb (data =? 0x0f0000000fc0c748) then (false, r)
      else
        match le_combine <$> Read elf_memory (u64 (rel_pc + 8)) 2 with
        | None => (false, r)
        | Some data2 =>
            if negb (data2 =? 0x0f05) then (false, r)
            else
              match Read process_memory (u64 (sp_ r + 0x28)) sizeof_x86_64_mcontext_t with
              | None => (false, r)
              | Some context => (true, RegsX86_64_SetFromUcontext (words 8 23 context) r)
              end
        end
  end.

(** The virtual dispatch. *)
Definition StepIfSignalHandler (rel_pc : Z) (r : Regs) : bool * Regs :=
  match machine r with
  | Arm => RegsArm_StepIfSignalHandler rel_pc r
  | Arm64 => RegsArm64_StepIfSignalHandler rel_pc r
  | X86 => RegsX86_StepIfSignalHandler rel_pc r
  | X86_64 => RegsX86_64_StepIfSignalHandler rel_pc r
  end.

End Signal.

(** The register [SetFromRaw] takes the pc from. *)
Definition machine_pc_reg (m : Machine) : Z :=
  match m with
  | Arm => ARM_REG_PC
  | Arm64 => ARM64_REG_PC
  | X86 => X86_REG_EIP
  | X86_64 => X86_64_REG_RIP
  end.

Lemma SetFromRaw_eq r : SetFromRaw r =
  set_sp (reg r (machine_sp_reg (machine r))) (set_pc (reg r (machine_pc_reg (machine r))) r).
Proof. unfold SetFromRaw. by destruct (machine r). Qed.

(** ** The shape of a register set *)

(** As many registers as the machine has, each of its width. *)
Record regs_ok (r : Regs) : Prop := {
  regs_ok_length : lengthZ (regs_ r) = total_regs r;
  regs_ok_regs : Forall (in_unsigned (bits (address_type (machine r)))) (regs_ r);
  regs_ok_pc : in_unsigned (bits (address_type (machine r))) (pc_ r);
  regs_ok_sp : in_unsigned (bits (address_type (machine r))) (sp_ r)
}.

Lemma reg_range r i : regs_ok r -> 0 <= i < total_regs r ->
  in_unsigned (bits (address_type (machine r))) (reg r i).
Proof.
  intros [Hl Hr _ _] Hi. unfold reg. rewrite Forall_lookup in Hr. unfold lengthZ in Hl.
  destruct (lookup_lt_is_Some_2 (regs_ r) (Z.to_nat i)) as [x Hx]; [lia|].
  rewrite (list_lookup_total_correct _ _ _ Hx). eauto.
Qed.

Lemma set_reg_ok i v r : regs_ok r -> in_unsigned (bits (address_type (machine r))) v ->
  regs_ok (set_reg i v r).
Proof.
  intros [Hl Hr Hp Hs] Hv. split; simpl; auto.
  - unfold lengthZ, total_regs in *. simpl. by rewrite length_insert.
  - by apply Forall_insert.
Qed.

Lemma set_pc_ok v r : regs_ok r -> in_unsigned (bits (address_type (machine r))) v ->
  regs_ok (set_pc v r).
Proof. by intros [Hl Hr Hp Hs] Hv; split. Qed.

Lemma set_sp_ok v r : regs_ok r -> in_unsigned (bits (address_type (machine r))) v ->
  regs_ok (set_sp v r).
Proof. by intros [Hl Hr Hp Hs] Hv; split. Qed.

Lemma SetFromRaw_ok r : regs_ok r -> regs_ok (SetFromRaw r).
Proof.
  intros H. rewrite SetFromRaw_eq. assert (forall i, 0 <= i < total_regs r ->
    in_unsigned (bits (address_type (machine r))) (reg r i)) as Hi by (intros; by apply reg_range).
  apply set_sp_ok; [apply set_pc_ok; [done|]|]; apply Hi; unfold total_regs; by destruct (machine r).
Qed.

Lemma set_raw_machine i ws r : machine (set_raw i ws r) = machine r.
Proof. revert i r. induction ws as [|w ws IH]; intros; simpl; [done|]. by rewrite IH. Qed.

Lemma set_raw_ok i ws r : regs_ok r -> Forall (in_unsigned (bits (address_type (machine r)))) ws ->
  regs_ok (set_raw i ws r).
Proof.
  revert i r. induction ws as [|w ws IH]; intros i r Hr Hw; simpl; [done|].
  inversion Hw; subst. by apply IH; [apply set_reg_ok|].
Qed.

Lemma assign_fields_machine fields ws r : machine (assign_fields fields ws r) = machine r.
Proof.
  unfold assign_fields. revert r. induction fields as [|[i f] fs IH]; intros; simpl; [done|].
  by rewrite IH.
Qed.

Lemma words_total_range n count bs k : (0 < n)%nat -> Forall is_byte bs ->
  in_unsigned (8 * Z.of_nat n) (words n count bs !!! k).
Proof.
  intros Hn. revert bs k. induction count as [|c IH]; intros bs k Hb.
  - change (words n 0 bs) with (@nil Z). unfold in_unsigned. rewrite lookup_total_nil.
    unfold inhabitant, Z.inhabited. pose proof (Z.pow_le_mono_r 2 1 (8 * Z.of_nat n)). lia.
  - destruct k as [|k]; [|apply IH; by apply Forall_drop].
    cbn [words]. change (in_unsigned (8 * Z.of_nat n) (le_combine (take n bs))).
    pose proof (le_combine_range (take n bs) (Forall_take _ _ _ Hb)) as H.
    rewrite pow256 in H by lia. rewrite length_take in H.
    apply (in_unsigned_mono (8 * Z.of_nat (n `min` length bs))); [lia|done].
Qed.

Lemma words_range n count bs : (0 < n)%nat -> Forall is_byte bs ->
  Forall (in_unsigned (8 * Z.of_nat n)) (words n count bs).
Proof.
  intros Hn Hb. apply Forall_lookup. intros k x Hx.
  rewrite <- (list_lookup_total_correct _ _ _ Hx). by apply words_total_range.
Qed.

Lemma assign_fields_ok fields ws r : regs_ok r ->
  (forall k, in_unsigned (bits (address_type (machine r))) (ws !!! k)) ->
  regs_ok (assign_fields fields ws r).
Proof.
  unfold assign_fields. revert r. induction fields as [|[i f] fs IH]; intros r Hr Hw; simpl; [done|].
  apply IH; [by apply set_reg_ok|by apply Hw].
Qed.

Lemma new_Regs_ok m pc sp : in_unsigned (bits (address_type m)) pc ->
  in_unsigned (bits (address_type m)) sp -> regs_ok (new_Regs m pc sp).
Proof.
  intros Hp Hs. split; simpl; auto.
  - unfold lengthZ, total_regs. simpl. rewrite length_replicate. by destruct m.
  - apply Forall_replicate. by destruct m.
Qed.

#[export] Hint Resolve set_reg_ok set_pc_ok set_sp_ok SetFromRaw_ok set_raw_ok assign_fields_ok
  new_Regs_ok : cpp.

(** The registers after a run of assignments. *)
Lemma set_reg_same i v r : 0 <= i < lengthZ (regs_ r) -> reg (set_reg i v r) i = v.
Proof. intros H. unfold reg, set_reg, lengthZ in *. simpl. apply list_lookup_total_insert_eq. lia. Qed.

Lemma set_reg_other i j v r : 0 <= i -> 0 <= j -> i <> j -> reg (set_reg i v r) j = reg r j.
Proof. intros Hi Hj H. unfold reg, set_reg. simpl. apply list_lookup_total_insert_ne. lia. Qed.

Lemma set_reg_length i v r : lengthZ (regs_ (set_reg i v r)) = lengthZ (regs_ r).
Proof. unfold lengthZ. simpl. by rewrite length_insert. Qed.

Lemma assign_fields_other fields ws r i : 0 <= i ->
  Forall (fun p => 0 <= p.1 /\ p.1 <> i) fields -> reg (assign_fields fields ws r) i = reg r i.
Proof.
  intros Hi. unfold assign_fields. revert r. induction fields as [|[j f] fs IH]; intros r H; [done|].
  inversion H as [|? ? [Hj Hne] Hfs]; subst. simpl in *. rewrite IH by done.
  by apply set_reg_other.
Qed.

Lemma assign_fields_same fields ws r i f :
  Forall (fun p => 0 <= p.1 < lengthZ (regs_ r)) fields -> NoDup fields.*1 -> (i, f) ∈ fields ->
  reg (assign_fields fields ws r) i = ws !!! Z.to_nat f.
Proof.
  unfold assign_fields. revert r. induction fields as [|[j g] fs IH]; intros r H Hnd Hin.
  - by apply not_elem_of_nil in Hin.
  - inversion H as [|? ? Hj Hfs]; subst. inversion Hnd as [|? ? Hnin Hnd']; subst. simpl in *.
    apply elem_of_cons in Hin as [[= -> ->]|Hin].
    + fold (assign_fields fs ws (set_reg j (ws !!! Z.to_nat g) r)).
      rewrite assign_fields_other; [by apply set_reg_same|lia|].
      rewrite Forall_forall in *. intros p Hp. specialize (Hfs p Hp). split; [lia|].
      intros <-. apply Hnin. by apply list_elem_of_fmap_2.
    + apply IH; [|done|done]. by rewrite set_reg_length.
Qed.

Lemma ReadAllRegs_ok process_memory (OK : MemoryOk process_memory) torn offset r :
  (regs_ok r -> regs_ok (mkRegs (machine r) (torn (regs_ r)) (pc_ r) (sp_ r))) ->
  0 <= offset -> regs_ok r -> regs_ok (ReadAllRegs process_memory torn offset r).2.
Proof.
  intros Ht Ho Hr. unfold ReadAllRegs. case_match; [|by apply Ht].
  apply SetFromRaw_ok, set_raw_ok; [done|].
  assert (Forall is_byte l) as Hb.
  { eapply Read_bytes; [exact Ho| |eassumption]. unfold total_regs. by destruct (machine r). }
  assert (forall AT, bits AT = 8 * Z.of_nat (Z.to_nat (sizeof AT))) as -> by (by intros []).
  apply words_range; [|done]. by destruct (machine r); apply Nat.ltb_lt.
Qed.

Lemma Read_words_ok (m : Memory) (OK : MemoryOk m) a n count size bs k :
  0 <= a -> 0 <= size -> (0 < n)%nat -> Read m a size = Some bs ->
  in_unsigned (8 * Z.of_nat n) (words n count bs !!! k).
Proof. intros Ha Hs Hn H. apply words_total_range; [done|]. by eapply Read_bytes; [..|exact H]. Qed.

Lemma Read_word_range (m : Memory) (OK : MemoryOk m) a n bs :
  0 <= a -> 0 <= n -> Read m a n = Some bs -> in_unsigned (8 * n) (le_combine bs).
Proof.
  intros Ha Hn H. pose proof (le_combine_range bs) as R. fold (lengthZ bs) in R.
  pose proof (Read_length a n bs Ha Hn H) as L. fold (lengthZ bs) in L.
  rewrite L, pow256 in R by lia. apply R. by eapply Read_bytes; [..|exact H].
Qed.

Lemma StepIfSignalHandler_ok elf_memory process_memory torn rel_pc r :
  MemoryOk process_memory ->
  (regs_ok r -> regs_ok (mkRegs (machine r) (torn (regs_ r)) (pc_ r) (sp_ r))) ->
  regs_ok r -> regs_ok (StepIfSignalHandler elf_memory process_memory torn rel_pc r).2.
Proof.
  intros OK Ht Hr. assert (forall x, 0 <= u64 x) as Hu by (intros; by apply uwrap_range).
  assert (forall x, 0 <= u32 x) as Hu32 by (intros; by apply uwrap_range).
  unfold StepIfSignalHandler. destruct (machine r) eqn:Em.
  - unfold RegsArm_StepIfSignalHandler. cbv zeta.
    repeat case_match; try done; apply ReadAllRegs_ok; rewrite ?Em; auto.
  - unfold RegsArm64_StepIfSignalHandler. cbv zeta.
    repeat case_match; try done; apply ReadAllRegs_ok; rewrite ?Em; auto.
  - unfold RegsX86_StepIfSignalHandler. repeat case_match; try done;
      (apply SetFromRaw_ok, assign_fields_ok; [done|]; rewrite Em; intros k;
       eapply (Read_words_ok process_memory OK _ 4 _ sizeof_x86_mcontext_t); [..|eassumption];
       auto; lia || done).
  - unfold RegsX86_64_StepIfSignalHandler. repeat case_match; try done;
      (apply SetFromRaw_ok, assign_fields_ok; [done|]; rewrite Em; intros k;
       eapply (Read_words_ok process_memory OK _ 8 _ sizeof_x86_64_mcontext_t); [..|eassumption];
       auto; lia || done).
Qed.

Lemma SetPcFromReturnAddress_ok process_memory r r' : MemoryOk process_memory ->
  regs_ok r -> SetPcFromReturnAddress process_memory r = Some r' ->
  regs_ok r' /\ pc_ r' <> pc_ r /\ regs_ r' = regs_ r /\ sp_ r' = sp_ r.
Proof.
  intros OK Hr. pose proof (regs_ok_sp r Hr) as [Hsp _].
  assert (forall v, v <> pc_ r -> in_unsigned (bits (address_type (machine r))) v ->
    Some (set_pc v r) = Some r' ->
    regs_ok r' /\ pc_ r' <> pc_ r /\ regs_ r' = regs_ r /\ sp_ r' = sp_ r) as Hset.
  { intros v Hne Hv [= <-]. split_and!; try done. by apply set_pc_ok. }
  unfold SetPcFromReturnAddress, RegsArm_SetPcFromReturnAddress, RegsArm64_SetPcFromReturnAddress,
    RegsX86_SetPcFromReturnAddress, RegsX86_64_SetPcFromReturnAddress.
  destruct (machine r) eqn:Em; simpl.
  - case_match; [done|]. apply Hset; [lia|]. rewrite <- Em. apply reg_range; [done|].
    unfold total_regs. by rewrite Em.
  - case_match; [done|]. apply Hset; [lia|]. rewrite <- Em. apply reg_range; [done|].
    unfold total_regs. by rewrite Em.
  - destruct (Read process_memory (sp_ r) 4) as [bs|] eqn:E; simpl; [|done].
    case_match; [done|]. apply Hset; [lia|]. by eapply (Read_word_range process_memory OK _ 4).
  - destruct (Read process_memory (sp_ r) 8) as [bs|] eqn:E; simpl; [|done].
    case_match; [done|]. apply Hset; [lia|]. by eapply (Read_word_range process_memory OK _ 8).
Qed.

Lemma RemoteGet_ok pc sp buffer n r :
  in_unsigned 32 pc -> in_unsigned 32 sp -> Forall is_byte buffer ->
  RemoteGet pc sp (Some (buffer, n)) = Some r -> regs_ok r.
Proof.
  intros Hp Hs Hb. assert (forall m, regs_ok (new_Regs m pc sp)) as Hn.
  { intros m. apply new_Regs_ok; apply (in_unsigned_mono 32); try done; by destruct m. }
  assert (forall c k, in_unsigned 64 (words 8 c buffer !!! k)) as H8
    by (intros; by apply (words_total_range 8); [lia|]).
  unfold RemoteGet. repeat case_match; intros; simplify_eq.
  - apply SetFromRaw_ok, assign_fields_ok; [done|]. intros. by apply (words_total_range 4); [lia|].
  - apply SetFromRaw_ok, assign_fields_ok; [done|]. intros. by apply H8.
  - apply SetFromRaw_ok, set_raw_ok; [done|]. by apply (words_range 4); [lia|].
  - apply SetFromRaw_ok. apply set_reg_ok; [apply set_reg_ok|];
      [|change (machine _) with (machine (set_raw 0 (take 32 (words 8 34 buffer)) (new_Regs Arm64 pc sp)));
        rewrite set_raw_machine; apply H8..]. apply set_raw_ok; [done|].
    apply Forall_take. by apply (words_range 8); [lia|].
Qed.

(** The shape of a register set is an invariant: RemoteGet builds a
    well-formed set from whatever bytes the kernel delivers, and both ways of
    moving to the caller that Regs itself has, out of a signal handler and by
    the return address, keep it, the latter always changing the pc. *)
Theorem Regs_invariant elf_memory process_memory torn :
  MemoryOk process_memory ->
  (forall r, regs_ok r -> regs_ok (mkRegs (machine r) (torn (regs_ r)) (pc_ r) (sp_ r))) ->
  (forall pc sp buffer n r, in_unsigned 32 pc -> in_unsigned 32 sp -> Forall is_byte buffer ->
     RemoteGet pc sp (Some (buffer, n)) = Some r -> regs_ok r) /\
  (forall rel_pc r, regs_ok r ->
     regs_ok (StepIfSignalHandler elf_memory process_memory torn rel_pc r).2) /\
  (forall r r', regs_ok r -> SetPcFromReturnAddress process_memory r = Some r' ->
     regs_ok r' /\ pc_ r' <> pc_ r /\ regs_ r' = regs_ r /\ sp_ r' = sp_ r).
Proof.
  intros OK Ht. split_and!; intros.
  - by eapply RemoteGet_ok.
  - by apply StepIfSignalHandler_ok; auto.
  - by eapply SetPcFromReturnAddress_ok.
Qed.

Lemma Regs_invariant_witness :
  exists r, RemoteGet 0 0 (Some (replicate 68 7, 68)) = Some r /\ regs_ok r /\
            reg r X86_REG_EIP = 0x07070707.
Proof.
  eexists. split; [vm_compute; done|]. split; [|done].
  eapply (proj1 (Regs_invariant (bytes_memory []) (bytes_memory []) (fun l => l)
                   (bytes_memory_ok [] eq_refl) ltac:(by intros [])) 0 0 (replicate 68 7) 68); try done.
  by apply Forall_replicate.
Defined.

(** Adjusting a relative pc to the instruction before it never wraps: the
    result is at most four below the pc and stays non-negative, on every
    machine and for every load bias. *)
Theorem GetAdjustedPc_bounds m rel_pc valid load_bias memory :
  in_unsigned 64 rel_pc -> in_unsigned 64 load_bias ->
  0 <= GetAdjustedPc m rel_pc valid load_bias memory /\
  rel_pc - 4 <= GetAdjustedPc m rel_pc valid load_bias memory <= rel_pc.
Proof.
  unfold in_unsigned. intros Hpc Hlb. unfold GetAdjustedPc, RegsArm_GetAdjustedPc,
    RegsArm64_GetAdjustedPc, RegsX86_GetAdjustedPc, RegsX86_64_GetAdjustedPc. cbv zeta.
  assert (forall k, 0 <= k <= rel_pc -> u64 (rel_pc - k) = rel_pc - k) as Hsub
    by (intros; apply uwrap_small; unfold in_unsigned; lia).
  destruct valid; simpl; [|destruct m; lia]. destruct m.
  - destruct (Z.ltb_spec rel_pc load_bias); [lia|]. rewrite !(Hsub load_bias) by lia.
    destruct (Z.ltb_spec (rel_pc - load_bias) 5); [lia|].
    rewrite !(Hsub 2), !(Hsub 4) by lia. repeat case_match; lia.
  - destruct (Z.ltb_spec rel_pc 4); rewrite ?Hsub; lia.
  - destruct (Z.eqb_spec rel_pc 0); rewrite ?Hsub; lia.
  - destruct (Z.eqb_spec rel_pc 0); rewrite ?Hsub; lia.
Qed.

Lemma GetAdjustedPc_bounds_witness :
  GetAdjustedPc Arm 0x1009 true 0x1000 (bytes_memory [0; 0; 0; 0; 0; 0xf0; 0; 0xf0]) = 0x1005 /\
  0 <= GetAdjustedPc Arm 0x1009 true 0x1000 (bytes_memory [0; 0; 0; 0; 0; 0xf0; 0; 0xf0]).
Proof. split; [done|]. apply (GetAdjustedPc_bounds Arm 0x1009 true 0x1000); done. Defined.

(** ** Signal frames *)

(** The bytes of a structure of n-byte words. *)
Definition of_words (n : nat) (ws : list Z) : list Z := flat_map (le_split n) ws.

Lemma words_of_words n ws : Forall (in_unsigned (8 * Z.of_nat n)) ws ->
  words n (length ws) (of_words n ws) = ws.
Proof.
  induction 1 as [|w ws Hw _ IH]; [done|]. unfold of_words in *. cbn [length words flat_map].
  rewrite take_app_length', drop_app_length' by (by rewrite le_split_length).
  rewrite IH, le_combine_split, pow256, Z.mod_small by (try done; lia). done.
Qed.

(** What the kernel's signal frame at the top of the stack of [r] saves, as
    pairs of register and value, for each return trampoline: the two ARM
    layouts of each kind, arm64, x86 with SA_SIGINFO and x86_64.  [ws] are the
    words of the saved context. *)
Inductive signal_frame (elf proc : Memory) (rel_pc : Z) (r : Regs) : list (Z * Z) -> Prop :=
| frame_arm code magic ws :
    machine r = Arm -> Read32 elf rel_pc = Some code ->
    code ∈ [0xe3a07077; 0xef900077; 0xdf002777] ->
    Read32 proc (sp_ r) = Some magic ->
    length ws = 16%nat -> Forall (in_unsigned 32) ws ->
    holds proc (sp_ r + (if magic =? 0x5ac3c35a then 0x20 else 0xc)) (of_words 4 ws) ->
    signal_frame elf proc rel_pc r (zip (seqZ 0 16) ws)
| frame_arm_rt code siginfo ws :
    machine r = Arm -> Read32 elf rel_pc = Some code ->
    code ∈ [0xe3a070ad; 0xef9000ad; 0xdf0027ad] ->
    Read32 proc (sp_ r) = Some siginfo ->
    length ws = 16%nat -> Forall (in_unsigned 32) ws ->
    holds proc (sp_ r + (if siginfo =? sp_ r + 8 then 0xa8 else 0xa0)) (of_words 4 ws) ->
    signal_frame elf proc rel_pc r (zip (seqZ 0 16) ws)
| frame_arm64 ws :
    machine r = Arm64 -> Read64 elf rel_pc = Some 0xd4000001d2801168 ->
    length ws = 33%nat -> Forall (in_unsigned 64) ws ->
    holds proc (sp_ r + 0x138) (of_words 8 ws) -> sp_ r + 0x138 < 2 ^ 64 ->
    signal_frame elf proc rel_pc r (zip (seqZ 0 33) ws)
| frame_x86_rt next ptr ws :
    machine r = X86 -> is_byte next ->
    Read elf rel_pc 8 = Some [0xb8; 0xad; 0; 0; 0; 0xcd; 0x80; next] ->
    Read32 proc (sp_ r + 8) = Some ptr -> 0 <= ptr + 0x14 < 2 ^ 32 ->
    length ws = 19%nat -> Forall (in_unsigned 32) ws ->
    holds proc (ptr + 0x14) (of_words 4 ws) ->
    signal_frame elf proc rel_pc r (map (fun '(i, f) => (i, ws !!! Z.to_nat f)) x86_mcontext_t)
| frame_x86_64 ws :
    machine r = X86_64 ->
    Read elf rel_pc 8 = Some [0x48; 0xc7; 0xc0; 0x0f; 0; 0; 0; 0x0f] ->
    Read elf (rel_pc + 8) 2 = Some [0x05; 0x0f] -> rel_pc + 8 < 2 ^ 64 ->
    length ws = 23%nat -> Forall (in_unsigned 64) ws ->
    holds proc (sp_ r + 0x28) (of_words 8 ws) -> sp_ r + 0x28 < 2 ^ 64 ->
    signal_frame elf proc rel_pc r (map (fun '(i, f) => (i, ws !!! Z.to_nat f)) x86_64_mcontext_t).

Lemma set_raw_regs ws i r : 0 <= i -> i + lengthZ ws <= lengthZ (regs_ r) ->
  regs_ (set_raw i ws r) = take (Z.to_nat i) (regs_ r) ++ ws ++ drop (Z.to_nat (i + lengthZ ws)) (regs_ r).
Proof.
  revert i r. induction ws as [|w ws IH]; intros i r Hi Hl; unfold lengthZ in *; simpl in *.
  - rewrite Z.add_0_r. by rewrite take_drop.
  - rewrite IH by (simpl; rewrite ?length_insert; lia). simpl.
    replace (Z.to_nat (i + 1)) with (S (Z.to_nat i)) by lia.
    rewrite drop_insert_lt by lia. replace (i + 1 + Z.of_nat (length ws)) with (i + Z.of_nat (S (length ws))) by lia.
    rewrite (take_S_r _ _ w) by (apply list_lookup_insert_eq; lia).
    rewrite take_insert_ge by lia. by rewrite <- app_assoc.
Qed.

Lemma set_raw_all ws r : lengthZ ws = lengthZ (regs_ r) -> regs_ (set_raw 0 ws r) = ws.
Proof.
  intros H. rewrite set_raw_regs by lia. rewrite Z.add_0_l. unfold lengthZ in *.
  rewrite Nat2Z.id, drop_ge by lia. by rewrite app_nil_r.
Qed.

Lemma elem_of_zip_seqZ (ws : list Z) n i v : (i, v) ∈ zip (seqZ 0 n) ws -> 0 <= i /\ ws !!! Z.to_nat i = v.
Proof.
  intros H. apply list_elem_of_lookup in H as [k H]. apply lookup_zip_Some in H as [H1 H2].
  apply lookup_seqZ in H1 as [-> ?]. split; [lia|]. rewrite Z.add_0_l, Nat2Z.id.
  by apply list_lookup_total_correct.
Qed.

(** Reading all registers of a frame in one go. *)
Lemma ReadAllRegs_frame proc torn offset r ws n :
  regs_ok r -> n = sizeof (address_type (machine r)) -> lengthZ ws = total_regs r ->
  Forall (in_unsigned (bits (address_type (machine r)))) ws ->
  holds proc offset (of_words (Z.to_nat n) ws) ->
  exists r', ReadAllRegs proc torn offset r = (true, SetFromRaw r') /\ machine r' = machine r /\
    regs_ r' = ws.
Proof.
  intros Hr -> Hl Hw H. unfold ReadAllRegs.
  assert (lengthZ (of_words (Z.to_nat (sizeof (address_type (machine r)))) ws)
          = sizeof (address_type (machine r)) * total_regs r) as E.
  { rewrite <- Hl. unfold of_words, lengthZ. clear -ws.
    induction ws as [|w ws IH]; [simpl; lia|]. cbn [flat_map length].
    rewrite length_app, le_split_length. destruct (machine r); simpl in *; lia. }
  unfold holds in H. rewrite E in H. rewrite H. eexists. split; [done|].
  split; [apply set_raw_machine|].
  assert (words (Z.to_nat (sizeof (address_type (machine r)))) (Z.to_nat (total_regs r))
            (of_words (Z.to_nat (sizeof (address_type (machine r)))) ws) = ws) as ->.
  { replace (Z.to_nat (total_regs r)) with (length ws) by (unfold lengthZ in Hl; lia).
    apply words_of_words. by destruct (machine r). }
  apply set_raw_all. by rewrite (regs_ok_length r Hr).
Qed.

(** What a step out of a handler achieves. *)
Definition restores (saved : list (Z * Z)) (r : Regs) (o : bool * Regs) : Prop :=
  o.1 = true /\ machine o.2 = machine r /\
  (forall i v, (i, v) ∈ saved -> reg o.2 i = v) /\
  (forall i, 0 <= i < total_regs r -> i ∉ saved.*1 -> reg o.2 i = reg r i) /\
  pc_ o.2 = reg o.2 (machine_pc_reg (machine r)) /\ sp_ o.2 = reg o.2 (machine_sp_reg (machine r)).

Lemma restores_all proc torn offset r ws :
  regs_ok r -> lengthZ ws = total_regs r ->
  Forall (in_unsigned (bits (address_type (machine r)))) ws ->
  holds proc offset (of_words (Z.to_nat (sizeof (address_type (machine r)))) ws) ->
  restores (zip (seqZ 0 (total_regs r)) ws) r (ReadAllRegs proc torn offset r).
Proof.
  intros Hr Hl Hw H.
  destruct (ReadAllRegs_frame proc torn offset r ws _ Hr eq_refl Hl Hw H) as (r' & -> & Hm & Hws).
  unfold restores. simpl. rewrite SetFromRaw_eq. rewrite <- Hm. split_and!; try done.
  - intros i v [Hi Hv]%elem_of_zip_seqZ. unfold reg. simpl. by rewrite Hws.
  - intros i Hi Hn. destruct Hn. rewrite fst_zip.
    + apply elem_of_seqZ. lia.
    + rewrite length_seqZ. unfold lengthZ in Hl. lia.
Qed.

Lemma restores_fields fields ws r :
  regs_ok r -> Forall (fun p => 0 <= p.1 < total_regs r) fields -> NoDup fields.*1 ->
  restores (map (fun '(i, f) => (i, ws !!! Z.to_nat f)) fields) r
    (true, SetFromRaw (assign_fields fields ws r)).
Proof.
  intros Hr Hf Hnd. pose proof (regs_ok_length r Hr) as Hl. unfold restores. simpl.
  rewrite SetFromRaw_eq. simpl.
  rewrite assign_fields_machine. split_and!; try done.
  - intros i v Hin. apply list_elem_of_fmap in Hin as ([j f] & [= -> ->] & Hin).
    change (reg (assign_fields fields ws r) j = ws !!! Z.to_nat f).
    apply assign_fields_same; [by rewrite Hl|done|done].
  - intros i Hi Hnin. change (reg (assign_fields fields ws r) i = reg r i).
    apply assign_fields_other; [lia|]. rewrite Forall_forall in *. intros [j f] Hp.
    split; [by apply (Hf (j, f))|]. intros <-. apply Hnin. apply list_elem_of_fmap.
    exists (j, ws !!! Z.to_nat f). split; [done|]. apply list_elem_of_fmap. by exists (j, f).
Qed.

Lemma existsb_elem x l : x ∈ l -> existsb (Z.eqb x) l = true.
Proof.
  intros H. apply existsb_exists. exists x. split; [by apply list_elem_of_In|apply Z.eqb_refl].
Qed.

Lemma restores_arm proc torn r ws k offset :
  regs_ok r -> machine r = Arm -> length ws = 16%nat -> Forall (in_unsigned 32) ws ->
  0 < k < 2 ^ 32 -> offset = u64 (sp_ r + k) -> holds proc (sp_ r + k) (of_words 4 ws) ->
  restores (zip (seqZ 0 16) ws) r
    (if offset =? 0 then (false, r) else ReadAllRegs proc torn offset r).
Proof.
  intros Hr Em Hl Hw Hk -> H. pose proof (regs_ok_sp r Hr) as [H1 H2]. rewrite Em in H2.
  change (bits (address_type Arm)) with 32 in H2.
  rewrite uwrap_small, (proj2 (Z.eqb_neq _ 0)) by (unfold in_unsigned; lia).
  assert (16 = total_regs r) as E16 by (unfold total_regs; by rewrite Em).
  rewrite E16. apply restores_all; unfold lengthZ; rewrite ?Em; [done|lia|done|done].
Qed.

Lemma x86_rt_code next : is_byte next ->
  (le_combine [0xb8; 0xad; 0; 0; 0; 0xcd; 0x80; next] =? 0x80cd00000077b858) = false /\
  Z.land (le_combine [0xb8; 0xad; 0; 0; 0; 0xcd; 0x80; next]) 0x00ffffffffffffff = 0x0080cd000000adb8.
Proof.
  unfold is_byte. intros H. change 0x00ffffffffffffff with (Z.ones 56). rewrite Z.land_ones by lia.
  cbn [le_combine]. split; [lia|].
  symmetry. apply (Z.mod_unique_pos _ _ next); lia.
Qed.

(** The five frames, each against the code that reads it. *)
Lemma words_frame proc n ws size a k : k = length ws -> (0 < n)%nat ->
  Forall (in_unsigned (8 * Z.of_nat n)) ws -> size = Z.of_nat n * lengthZ ws ->
  holds proc a (of_words n ws) -> exists bs, Read proc a size = Some bs /\ words n k bs = ws.
Proof.
  intros -> Hn Hw -> H. exists (of_words n ws). split; [|by apply words_of_words].
  replace (Z.of_nat n * lengthZ ws) with (lengthZ (of_words n ws)); [done|].
  unfold lengthZ, of_words. clear. induction ws as [|w ws IH]; [simpl; lia|]. cbn [flat_map length].
  rewrite length_app, le_split_length. lia.
Qed.

(** Stepping out of a signal handler: when the pc is at one of the kernel's
    return trampolines and the stack holds the frame that belongs to it, the
    step succeeds, every register the frame saves gets the saved value, every
    other register is untouched, and pc and sp are the saved ones. *)
Theorem StepIfSignalHandler_restores elf proc torn rel_pc r saved :
  regs_ok r -> 0 <= rel_pc -> signal_frame elf proc rel_pc r saved ->
  restores saved r (StepIfSignalHandler elf proc torn rel_pc r).
Proof.
  intros Hr Hrel Hf. pose proof (regs_ok_sp r Hr) as [Hs1 Hs2].
  unfold StepIfSignalHandler. destruct Hf as
    [code magic ws Em Hc Hin Hm Hl Hw H|code info ws Em Hc Hin Hm Hl Hw H|ws Em Hc Hl Hw H Hb
    |next ptr ws Em Hn Hc Hp Hb Hl Hw H|ws Em Hc Hc2 Hb Hl Hw H Hb2];
    rewrite Em in *; simpl in Hs2.
  - unfold RegsArm_StepIfSignalHandler. rewrite Hc, (existsb_elem code), Hm by done.
    eapply restores_arm; [done|done|done|done| | |exact H]; case_match; try lia; f_equal; lia.
  - unfold RegsArm_StepIfSignalHandler. rewrite Hc.
    assert (existsb (Z.eqb code) [0xe3a07077; 0xef900077; 0xdf002777] = false) as ->.
    { rewrite !elem_of_cons in Hin. by destruct_or! Hin; subst; [..|set_solver]. }
    rewrite (existsb_elem code), Hm by done.
    rewrite (uwrap_small 64 (sp_ r + 8)) by (unfold in_unsigned, bits in *; simpl in *; lia).
    eapply restores_arm; [done|done|done|done| | |exact H]; case_match; try lia; f_equal; lia.
  - unfold RegsArm64_StepIfSignalHandler. rewrite Hc. simpl negb. cbv iota.
    replace (sp_ r + 0x80 + 0xb0 + 0x08) with (sp_ r + 0x138) by lia.
    rewrite uwrap_small by (unfold in_unsigned; lia).
    assert (33 = total_regs r) as E by (unfold total_regs; by rewrite Em).
    rewrite E. apply restores_all; unfold lengthZ; rewrite ?Em; [done|lia|done|done].
  - unfold RegsX86_StepIfSignalHandler. unfold Read64 at 1. rewrite Hc.
    destruct (x86_rt_code next Hn) as [E1 E2]. cbn [fmap option_fmap option_map].
    rewrite E1, E2, Z.eqb_refl. change (bits uint32_t) with 32 in Hs2.
    rewrite (uwrap_small 64) by (unfold in_unsigned; lia). rewrite Hp.
    destruct (words_frame proc 4 ws sizeof_x86_mcontext_t (ptr + 0x14) 19) as (bs & Hread & Hbs);
      [done|lia|done|unfold lengthZ; by rewrite Hl|done|].
    rewrite (uwrap_small 32) by done. rewrite Hread, Hbs.
    apply restores_fields; [done|unfold total_regs; rewrite Em; by repeat constructor|].
    by_decide.
  - unfold RegsX86_64_StepIfSignalHandler, Read64. rewrite Hc, uwrap_small by (unfold in_unsigned; lia).
    rewrite Hc2. cbn [fmap option_fmap option_map].
    destruct (words_frame proc 8 ws sizeof_x86_64_mcontext_t (sp_ r + 0x28) 23) as (bs & Hread & Hbs);
      [done|lia|done|unfold lengthZ; by rewrite Hl|done|].
    rewrite uwrap_small by (unfold in_unsigned; lia). 
    change (le_combine [0x48; 0xc7; 0xc0; 0x0f; 0; 0; 0; 0x0f] =? 0x0f0000000fc0c748) with true.
    change (le_combine [0x05; 0x0f] =? 0x0f05) with true. cbn [negb]. rewrite Hread, Hbs.
    apply restores_fields; [done|unfold total_regs; rewrite Em; by repeat constructor|].
    by_decide.
Qed.

(** An x86_64 process stopped in __restore_rt, the saved context 40 bytes above
    the stack pointer. *)
Definition restore_rt_code : list Z := [0x48; 0xc7; 0xc0; 0x0f; 0; 0; 0; 0x0f; 0x05; 0x0f].
Definition restore_rt_frame : list Z := replicate 40 0 ++ of_words 8 (seqZ 100 23).

Lemma StepIfSignalHandler_restores_witness :
  let o := StepIfSignalHandler (bytes_memory restore_rt_code) (bytes_memory restore_rt_frame)
             (fun l => l) 0 (new_Regs X86_64 0 0) in
  o.1 = true /\ reg o.2 X86_64_REG_RBX = 111 /\ sp_ o.2 = 115 /\ pc_ o.2 = 116.
Proof.
  intros o. assert (restores (map (fun '(i, f) => (i, seqZ 100 23 !!! Z.to_nat f)) x86_64_mcontext_t)
                      (new_Regs X86_64 0 0) o) as (H1 & H2 & H3 & H4 & H5 & H6).
  { apply StepIfSignalHandler_restores; [by apply new_Regs_ok|done|].
    apply frame_x86_64; try done. by repeat constructor. }
  split_and!; [done|apply H3; by_decide|rewrite H6|rewrite H5]; apply H3; by_decide.
Defined.

(** Out of an x86 handler installed without SA_SIGINFO the step restores
    the other registers of the frame but leaves edi and esi, which the frame
    holds too, at the handler's values. *)
Theorem StepIfSignalHandler_X86_edi_esi elf proc torn rel_pc r context :
  regs_ok r -> machine r = X86 -> Read64 elf rel_pc = Some 0x80cd00000077b858 ->
  sp_ r + 4 < 2 ^ 64 -> Read proc (sp_ r + 4) sizeof_x86_mcontext_t = Some context ->
  let o := StepIfSignalHandler elf proc torn rel_pc r in
  restores (map (fun '(i, f) => (i, words 4 19 context !!! Z.to_nat f)) x86_restore_fields) r o /\
  reg o.2 X86_REG_EDI = reg r X86_REG_EDI /\ reg o.2 X86_REG_ESI = reg r X86_REG_ESI.
Proof.
  intros Hr Em Hc Hs H o. pose proof (regs_ok_sp r Hr) as [Hs1 _].
  assert (restores (map (fun '(i, f) => (i, words 4 19 context !!! Z.to_nat f)) x86_restore_fields) r o)
    as Ho.
  { subst o. unfold StepIfSignalHandler, RegsX86_StepIfSignalHandler. rewrite Em, Hc, Z.eqb_refl.
    rewrite uwrap_small by (unfold in_unsigned; lia). rewrite H.
    apply restores_fields; [done|unfold total_regs; rewrite Em; by repeat constructor|].
    by_decide. }
  split; [done|]. destruct Ho as (_ & _ & _ & Hother & _).
  split; (apply Hother; [unfold total_regs; by rewrite Em|by_decide]).
Qed.

Lemma StepIfSignalHandler_X86_edi_esi_witness :
  let o := StepIfSignalHandler (bytes_memory [0x58; 0xb8; 0x77; 0; 0; 0; 0xcd; 0x80])
             (bytes_memory (replicate 4 0 ++ of_words 4 (seqZ 100 19))) (fun l => l) 0
             (new_Regs X86 0 0) in
  restores (map (fun '(i, f) => (i, words 4 19 (of_words 4 (seqZ 100 19)) !!! Z.to_nat f))
              x86_restore_fields) (new_Regs X86 0 0) o /\
  reg o.2 X86_REG_EDI = 0 /\ reg o.2 X86_REG_ESI = 0.
Proof.
  apply (StepIfSignalHandler_X86_edi_esi (bytes_memory [0x58; 0xb8; 0x77; 0; 0; 0; 0xcd; 0x80])
           (bytes_memory (replicate 4 0 ++ of_words 4 (seqZ 100 19))) (fun l => l) 0
           (new_Regs X86 0 0) (of_words 4 (seqZ 100 19))); try done.
  by apply new_Regs_ok.
Defined.
