(* ===== verification/DwarfOpTable.v ===== *)
(** * DwarfOpTable: the opcode table of the DWARF expression evaluator
    (libunwindstack/DwarfOp.h, [kCallbackTable])

    One row definition per sixteen opcodes, entry by entry as in the header. *)

From S2P Require Import Prelude DwarfMemory.

(** DwarfVersion *)
Definition DWARF_VERSION_2 : Z := 2.
Definition DWARF_VERSION_3 : Z := 3.
Definition DWARF_VERSION_4 : Z := 4.
Definition DWARF_VERSION_MAX : Z := DWARF_VERSION_4.

(** The member functions [handle_func] points to. *)
Inductive OpHandler :=
| Op_deref | Op_deref_size | Op_push | Op_dup | Op_drop | Op_over | Op_pick | Op_swap | Op_rot
| Op_abs | Op_and | Op_div | Op_minus | Op_mod | Op_mul | Op_neg | Op_not | Op_or | Op_plus
| Op_plus_uconst | Op_shl | Op_shr | Op_shra | Op_xor | Op_bra | Op_eq | Op_ge | Op_gt | Op_le
| Op_lt | Op_ne | Op_skip | Op_lit | Op_reg | Op_regx | Op_breg | Op_bregx | Op_nop
| Op_not_implemented.

#[global] Instance OpHandler_eq_dec : EqDecision OpHandler.
Proof. solve_decision. Defined.

Record OpCallback := mkOpCallback {
  name : option string;
  handle_func : option OpHandler;
  supported_version : Z;
  num_required_stack_values : Z;
  num_operands : Z;
  operands : list Z
}.

(** [{nullptr, nullptr, 0, 0, 0, {}}] *)
Definition illegal : OpCallback := mkOpCallback None None 0 0 0 [].

Definition callback (name : string) (f : OpHandler) (version required num : Z) (ops : list Z)
    : OpCallback := mkOpCallback (Some name) (Some f) version required num ops.

Open Scope string_scope.

Definition kCallbackTable_0 : list OpCallback :=
  [illegal; illegal; illegal;
   callback "DW_OP_addr" Op_push DWARF_VERSION_2 0 1 [DW_EH_PE_absptr];
   illegal; illegal;
   callback "DW_OP_deref" Op_deref DWARF_VERSION_2 1 0 [];
   illegal;
   callback "DW_OP_const1u" Op_push DWARF_VERSION_2 0 1 [DW_EH_PE_udata1];
   callback "DW_OP_const1s" Op_push DWARF_VERSION_2 0 1 [DW_EH_PE_sdata1];
   callback "DW_OP_const2u" Op_push DWARF_VERSION_2 0 1 [DW_EH_PE_udata2];
   callback "DW_OP_const2s" Op_push DWARF_VERSION_2 0 1 [DW_EH_PE_sdata2];
   callback "DW_OP_const4u" Op_push DWARF_VERSION_2 0 1 [DW_EH_PE_udata4];
   callback "DW_OP_const4s" Op_push DWARF_VERSION_2 0 1 [DW_EH_PE_sdata4];
   callback "DW_OP_const8u" Op_push DWARF_VERSION_2 0 1 [DW_EH_PE_udata8];
   callback "DW_OP_const8s" Op_push DWARF_VERSION_2 0 1 [DW_EH_PE_sdata8]].

Definition kCallbackTable_1 : list OpCallback :=
  [callback "DW_OP_constu" Op_push DWARF_VERSION_2 0 1 [DW_EH_PE_uleb128];
   callback "DW_OP_consts" Op_push DWARF_VERSION_2 0 1 [DW_EH_PE_sleb128];
   callback "DW_OP_dup" Op_dup DWARF_VERSION_2 1 0 [];
   callback "DW_OP_drop" Op_drop DWARF_VERSION_2 1 0 [];
   callback "DW_OP_over" Op_over DWARF_VERSION_2 2 0 [];
   callback "DW_OP_pick" Op_pick DWARF_VERSION_2 0 1 [DW_EH_PE_udata1];
   callback "DW_OP_swap" Op_swap DWARF_VERSION_2 2 0 [];
   callback "DW_OP_rot" Op_rot DWARF_VERSION_2 3 0 [];
   callback "DW_OP_xderef" Op_not_implemented DWARF_VERSION_2 2 0 [];
   callback "DW_OP_abs" Op_abs DWARF_VERSION_2 1 0 [];
   callback "DW_OP_and" Op_and DWARF_VERSION_2 2 0 [];
   callback "DW_OP_div" Op_div DWARF_VERSION_2 2 0 [];
   callback "DW_OP_minus" Op_minus DWARF_VERSION_2 2 0 [];
   callback "DW_OP_mod" Op_mod DWARF_VERSION_2 2 0 [];
   callback "DW_OP_mul" Op_mul DWARF_VERSION_2 2 0 [];
   callback "DW_OP_neg" Op_neg DWARF_VERSION_2 1 0 []].

Definition kCallbackTable_2 : list OpCallback :=
  [callback "DW_OP_not" Op_not DWARF_VERSION_2 1 0 [];
   callback "DW_OP_or" Op_or DWARF_VERSION_2 2 0 [];
   callback "DW_OP_plus" Op_plus DWARF_VERSION_2 2 0 [];
   callback "DW_OP_plus_uconst" Op_plus_uconst DWARF_VERSION_2 1 1 [DW_EH_PE_uleb128];
   callback "DW_OP_shl" Op_shl DWARF_VERSION_2 2 0 [];
   callback "DW_OP_shr" Op_shr DWARF_VERSION_2 2 0 [];
   callback "DW_OP_shra" Op_shra DWARF_VERSION_2 2 0 [];
   callback "DW_OP_xor" Op_xor DWARF_VERSION_2 2 0 [];
   callback "DW_OP_bra" Op_bra DWARF_VERSION_2 1 1 [DW_EH_PE_sdata2];
   callback "DW_OP_eq" Op_eq DWARF_VERSION_2 2 0 [];
   callback "DW_OP_ge" Op_ge DWARF_VERSION_2 2 0 [];
   callback "DW_OP_gt" Op_gt DWARF_VERSION_2 2 0 [];
   callback "DW_OP_le" Op_le DWARF_VERSION_2 2 0 [];
   callback "DW_OP_lt" Op_lt DWARF_VERSION_2 2 0 [];
   callback "DW_OP_ne" Op_ne DWARF_VERSION_2 2 0 [];
   callback "DW_OP_skip" Op_skip DWARF_VERSION_2 0 1 [DW_EH_PE_sdata2]].

Definition kCallbackTable_3 : list OpCallback :=
  [callback "DW_OP_lit0" Op_lit DWARF_VERSION_2 0 0 [];
   callback "DW_OP_lit1" Op_lit DWARF_VERSION_2 0 0 [];
   callback "DW_OP_lit2" Op_lit DWARF_VERSION_2 0 0 [];
   callback "DW_OP_lit3" Op_lit DWARF_VERSION_2 0 0 [];
   callback "DW_OP_lit4" Op_lit DWARF_VERSION_2 0 0 [];
   callback "DW_OP_lit5" Op_lit DWARF_VERSION_2 0 0 [];
   callback "DW_OP_lit6" Op_lit DWARF_VERSION_2 0 0 [];
   callback "DW_OP_lit7" Op_lit DWARF_VERSION_2 0 0 [];
   callback "DW_OP_lit8" Op_lit DWARF_VERSION_2 0 0 [];
   callback "DW_OP_lit9" Op_lit DWARF_VERSION_2 0 0 [];
   callback "DW_OP_lit10" Op_lit DWARF_VERSION_2 0 0 [];
   callback "DW_OP_lit11" Op_lit DWARF_VERSION_2 0 0 [];
   callback "DW_OP_lit12" Op_lit DWARF_VERSION_2 0 0 [];
   callback "DW_OP_lit13" Op_lit DWARF_VERSION_2 0 0 [];
   callback "DW_OP_lit14" Op_lit DWARF_VERSION_2 0 0 [];
   callback "DW_OP_lit15" Op_lit DWARF_VERSION_2 0 0 []].

Definition kCallbackTable_4 : list OpCallback :=
  [callback "DW_OP_lit16" Op_lit DWARF_VERSION_2 0 0 [];
   callback "DW_OP_lit17" Op_lit DWARF_VERSION_2 0 0 [];
   callback "DW_OP_lit18" Op_lit DWARF_VERSION_2 0 0 [];
   callback "DW_OP_lit19" Op_lit DWARF_VERSION_2 0 0 [];
   callback "DW_OP_lit20" Op_lit DWARF_VERSION_2 0 0 [];
   callback "DW_OP_lit21" Op_lit DWARF_VERSION_2 0 0 [];
   callback "DW_OP_lit22" Op_lit DWARF_VERSION_2 0 0 [];
   callback "DW_OP_lit23" Op_lit DWARF_VERSION_2 0 0 [];
   callback "DW_OP_lit24" Op_lit DWARF_VERSION_2 0 0 [];
   callback "DW_OP_lit25" Op_lit DWARF_VERSION_2 0 0 [];
   callback "DW_OP_lit26" Op_lit DWARF_VERSION_2 0 0 [];
   callback "DW_OP_lit27" Op_lit DWARF_VERSION_2 0 0 [];
   callback "DW_OP_lit28" Op_lit DWARF_VERSION_2 0 0 [];
   callback "DW_OP_lit29" Op_lit DWARF_VERSION_2 0 0 [];
   callback "DW_OP_lit30" Op_lit DWARF_VERSION_2 0 0 [];
   callback "DW_OP_lit31" Op_lit DWARF_VERSION_2 0 0 []].

Definition kCallbackTable_5 : list OpCallback :=
  [callback "DW_OP_reg0" Op_reg DWARF_VERSION_2 0 0 [];
   callback "DW_OP_reg1" Op_reg DWARF_VERSION_2 0 0 [];
   callback "DW_OP_reg2" Op_reg DWARF_VERSION_2 0 0 [];
   callback "DW_OP_reg3" Op_reg DWARF_VERSION_2 0 0 [];
   callback "DW_OP_reg4" Op_reg DWARF_VERSION_2 0 0 [];
   callback "DW_OP_reg5" Op_reg DWARF_VERSION_2 0 0 [];
   callback "DW_OP_reg6" Op_reg DWARF_VERSION_2 0 0 [];
   callback "DW_OP_reg7" Op_reg DWARF_VERSION_2 0 0 [];
   callback "DW_OP_reg8" Op_reg DWARF_VERSION_2 0 0 [];
   callback "DW_OP_reg9" Op_reg DWARF_VERSION_2 0 0 [];
   callback "DW_OP_reg10" Op_reg DWARF_VERSION_2 0 0 [];
   callback "DW_OP_reg11" Op_reg DWARF_VERSION_2 0 0 [];
   callback "DW_OP_reg12" Op_reg DWARF_VERSION_2 0 0 [];
   callback "DW_OP_reg13" Op_reg DWARF_VERSION_2 0 0 [];
   callback "DW_OP_reg14" Op_reg DWARF_VERSION_2 0 0 [];
   callback "DW_OP_reg15" Op_reg DWARF_VERSION_2 0 0 []].

Definition kCallbackTable_6 : list OpCallback :=
  [callback "DW_OP_reg16" Op_reg DWARF_VERSION_2 0 0 [];
   callback "DW_OP_reg17" Op_reg DWARF_VERSION_2 0 0 [];
   callback "DW_OP_reg18" Op_reg DWARF_VERSION_2 0 0 [];
   callback "DW_OP_reg19" Op_reg DWARF_VERSION_2 0 0 [];
   callback "DW_OP_reg20" Op_reg DWARF_VERSION_2 0 0 [];
   callback "DW_OP_reg21" Op_reg DWARF_VERSION_2 0 0 [];
   callback "DW_OP_reg22" Op_reg DWARF_VERSION_2 0 0 [];
   callback "DW_OP_reg23" Op_reg DWARF_VERSION_2 0 0 [];
   callback "DW_OP_reg24" Op_reg DWARF_VERSION_2 0 0 [];
   callback "DW_OP_reg25" Op_reg DWARF_VERSION_2 0 0 [];
   callback "DW_OP_reg26" Op_reg DWARF_VERSION_2 0 0 [];
   callback "DW_OP_reg27" Op_reg DWARF_VERSION_2 0 0 [];
   callback "DW_OP_reg28" Op_reg DWARF_VERSION_2 0 0 [];
   callback "DW_OP_reg29" Op_reg DWARF_VERSION_2 0 0 [];
   callback "DW_OP_reg30" Op_reg DWARF_VERSION_2 0 0 [];
   callback "DW_OP_reg31" Op_reg DWARF_VERSION_2 0 0 []].

Definition kCallbackTable_7 : list OpCallback :=
  [callback "DW_OP_breg0" Op_breg DWARF_VERSION_2 0 1 [DW_EH_PE_sleb128];
   callback "DW_OP_breg1" Op_breg DWARF_VERSION_2 0 1 [DW_EH_PE_sleb128];
   callback "DW_OP_breg2" Op_breg DWARF_VERSION_2 0 1 [DW_EH_PE_sleb128];
   callback "DW_OP_breg3" Op_breg DWARF_VERSION_2 0 1 [DW_EH_PE_sleb128];
   callback "DW_OP_breg4" Op_breg DWARF_VERSION_2 0 1 [DW_EH_PE_sleb128];
   callback "DW_OP_breg5" Op_breg DWARF_VERSION_2 0 1 [DW_EH_PE_sleb128];
   callback "DW_OP_breg6" Op_breg DWARF_VERSION_2 0 1 [DW_EH_PE_sleb128];
   callback "DW_OP_breg7" Op_breg DWARF_VERSION_2 0 1 [DW_EH_PE_sleb128];
   callback "DW_OP_breg8" Op_breg DWARF_VERSION_2 0 1 [DW_EH_PE_sleb128];
   callback "DW_OP_breg9" Op_breg DWARF_VERSION_2 0 1 [DW_EH_PE_sleb128];
   callback "DW_OP_breg10" Op_breg DWARF_VERSION_2 0 1 [DW_EH_PE_sleb128];
   callback "DW_OP_breg11" Op_breg DWARF_VERSION_2 0 1 [DW_EH_PE_sleb128];
   callback "DW_OP_breg12" Op_breg DWARF_VERSION_2 0 1 [DW_EH_PE_sleb128];
   callback "DW_OP_breg13" Op_breg DWARF_VERSION_2 0 1 [DW_EH_PE_sleb128];
   callback "DW_OP_breg14" Op_breg DWARF_VERSION_2 0 1 [DW_EH_PE_sleb128];
   callback "DW_OP_breg15" Op_breg DWARF_VERSION_2 0 1 [DW_EH_PE_sleb128]].

Definition kCallbackTable_8 : list OpCallback :=
  [callback "DW_OP_breg16" Op_breg DWARF_VERSION_2 0 1 [DW_EH_PE_sleb128];
   callback "DW_OP_breg17" Op_breg DWARF_VERSION_2 0 1 [DW_EH_PE_sleb128];
   callback "DW_OP_breg18" Op_breg DWARF_VERSION_2 0 1 [DW_EH_PE_sleb128];
   callback "DW_OP_breg19" Op_breg DWARF_VERSION_2 0 1 [DW_EH_PE_sleb128];
   callback "DW_OP_breg20" Op_breg DWARF_VERSION_2 0 1 [DW_EH_PE_sleb128];
   callback "DW_OP_breg21" Op_breg DWARF_VERSION_2 0 1 [DW_EH_PE_sleb128];
   callback "DW_OP_breg22" Op_breg DWARF_VERSION_2 0 1 [DW_EH_PE_sleb128];
   callback "DW_OP_breg23" Op_breg DWARF_VERSION_2 0 1 [DW_EH_PE_sleb128];
   callback "DW_OP_breg24" Op_breg DWARF_VERSION_2 0 1 [DW_EH_PE_sleb128];
   callback "DW_OP_breg25" Op_breg DWARF_VERSION_2 0 1 [DW_EH_PE_sleb128];
   callback "DW_OP_breg26" Op_breg DWARF_VERSION_2 0 1 [DW_EH_PE_sleb128];
   callback "DW_OP_breg27" Op_breg DWARF_VERSION_2 0 1 [DW_EH_PE_sleb128];
   callback "DW_OP_breg28" Op_breg DWARF_VERSION_2 0 1 [DW_EH_PE_sleb128];
   callback "DW_OP_breg29" Op_breg DWARF_VERSION_2 0 1 [DW_EH_PE_sleb128];
   callback "DW_OP_breg30" Op_breg DWARF_VERSION_2 0 1 [DW_EH_PE_sleb128];
   callback "DW_OP_breg31" Op_breg DWARF_VERSION_2 0 1 [DW_EH_PE_sleb128]].

Definition kCallbackTable_9 : list OpCallback :=
  [callback "DW_OP_regx" Op_regx DWARF_VERSION_2 0 1 [DW_EH_PE_uleb128];
   callback "DW_OP_fbreg" Op_not_implemented DWARF_VERSION_2 0 1 [DW_EH_PE_sleb128];
   callback "DW_OP_bregx" Op_bregx DWARF_VERSION_2 0 2 [DW_EH_PE_uleb128; DW_EH_PE_sleb128];
   callback "DW_OP_piece" Op_not_implemented DWARF_VERSION_2 0 1 [DW_EH_PE_uleb128];
   callback "DW_OP_deref_size" Op_deref_size DWARF_VERSION_2 1 1 [DW_EH_PE_udata1];
   callback "DW_OP_xderef_size" Op_not_implemented DWARF_VERSION_2 0 1 [DW_EH_PE_udata1];
   callback "DW_OP_nop" Op_nop DWARF_VERSION_2 0 0 [];
   callback "DW_OP_push_object_address" Op_not_implemented DWARF_VERSION_3 0 0 [];
   callback "DW_OP_call2" Op_not_implemented DWARF_VERSION_3 0 1 [DW_EH_PE_udata2];
   callback "DW_OP_call4" Op_not_implemented DWARF_VERSION_3 0 1 [DW_EH_PE_udata4];
   callback "DW_OP_call_ref" Op_not_implemented DWARF_VERSION_3 0 0 [];
   callback "DW_OP_form_tls_address" Op_not_implemented DWARF_VERSION_3 0 0 [];
   callback "DW_OP_call_frame_cfa" Op_not_implemented DWARF_VERSION_3 0 0 [];
   callback "DW_OP_bit_piece" Op_not_implemented DWARF_VERSION_3 0 2
     [DW_EH_PE_uleb128; DW_EH_PE_uleb128];
   callback "DW_OP_implicit_value" Op_not_implemented DWARF_VERSION_4 0 1 [DW_EH_PE_uleb128];
   callback "DW_OP_stack_value" Op_not_implemented DWARF_VERSION_4 1 0 []].

Definition kCallbackTable_a : list OpCallback :=
  replicate 16 illegal.

Definition kCallbackTable_b : list OpCallback :=
  replicate 16 illegal.

Definition kCallbackTable_c : list OpCallback :=
  replicate 16 illegal.

Definition kCallbackTable_d : list OpCallback :=
  replicate 16 illegal.

Definition kCallbackTable_e : list OpCallback :=
  replicate 16 illegal.

Definition kCallbackTable_f : list OpCallback :=
  replicate 16 illegal.

Close Scope string_scope.

Definition kCallbackTable : list OpCallback :=
  kCallbackTable_0 ++ kCallbackTable_1 ++ kCallbackTable_2 ++ kCallbackTable_3 ++
  kCallbackTable_4 ++ kCallbackTable_5 ++ kCallbackTable_6 ++ kCallbackTable_7 ++
  kCallbackTable_8 ++ kCallbackTable_9 ++ kCallbackTable_a ++ kCallbackTable_b ++
  kCallbackTable_c ++ kCallbackTable_d ++ kCallbackTable_e ++ kCallbackTable_f.

(** [kCallbackTable[cur_op]] for a uint8_t. *)
Definition op_callback (cur_op : Z) : OpCallback := nth (Z.to_nat cur_op) kCallbackTable illegal.

Lemma kCallbackTable_length : length kCallbackTable = 256%nat.
Proof. done. Qed.
