(* ===== verification/DwarfOp.v ===== *)
(** * DwarfOp: the DWARF expression evaluator (libunwindstack/DwarfOp.cpp,
    DwarfOp.h)

    A stack machine over [AddressType] values.  The opcode table is in
    DwarfOpTable.  [Undef] marks the operations the C++ code leaves undefined:
    an index outside the stack, an over-wide shift, the signed overflows, and a
    register read through [regs_] when [set_regs] was never called. *)

From S2P Require Import Prelude Memory DwarfMemory Regs DwarfOpTable.

Record DwarfOp := mkDwarfOp {
  memory_ : DwarfMemory;
  regs_ptr_ : option Regs;
  is_register_ : bool;
  last_error_ : DwarfError;
  cur_op_ : Z;
  operands_ : list Z;
  stack_ : list Z
}.

Definition new_DwarfOp (memory : DwarfMemory) : DwarfOp :=
  mkDwarfOp memory None false DWARF_ERROR_NONE 0 [] [].

Definition set_memory (x : DwarfMemory) (s : DwarfOp) : DwarfOp :=
  mkDwarfOp x (regs_ptr_ s) (is_register_ s) (last_error_ s) (cur_op_ s) (operands_ s) (stack_ s).
Definition set_regs (x : Regs) (s : DwarfOp) : DwarfOp :=
  mkDwarfOp (memory_ s) (Some x) (is_register_ s) (last_error_ s) (cur_op_ s) (operands_ s) (stack_ s).
Definition set_is_register (x : bool) (s : DwarfOp) : DwarfOp :=
  mkDwarfOp (memory_ s) (regs_ptr_ s) x (last_error_ s) (cur_op_ s) (operands_ s) (stack_ s).
Definition set_last_error (x : DwarfError) (s : DwarfOp) : DwarfOp :=
  mkDwarfOp (memory_ s) (regs_ptr_ s) (is_register_ s) x (cur_op_ s) (operands_ s) (stack_ s).
Definition set_cur_op (x : Z) (s : DwarfOp) : DwarfOp :=
  mkDwarfOp (memory_ s) (regs_ptr_ s) (is_register_ s) (last_error_ s) x (operands_ s) (stack_ s).
Definition set_operands (x : list Z) (s : DwarfOp) : DwarfOp :=
  mkDwarfOp (memory_ s) (regs_ptr_ s) (is_register_ s) (last_error_ s) (cur_op_ s) x (stack_ s).
Definition set_stack (x : list Z) (s : DwarfOp) : DwarfOp :=
  mkDwarfOp (memory_ s) (regs_ptr_ s) (is_register_ s) (last_error_ s) (cur_op_ s) (operands_ s) x.

(** [last_error_ = e; return false;] *)
Definition fail (e : DwarfError) : M DwarfOp bool := modify (set_last_error e) ;; ret false.

(** A method of the DwarfMemory the evaluator reads from. *)
Definition on_memory {A} (m : M DwarfMemory A) : M DwarfOp A := lift memory_ set_memory m.

Definition StackSize (s : DwarfOp) : Z := lengthZ (stack_ s).

(** [stack_[index]], [stack_[index] = v] and [stack_.push_front(v)]. *)
Definition StackAt (index : nat) : M DwarfOp Z :=
  st <- get stack_ ;;
  match st !! index with
  | Some v => ret v
  | None => undef
  end.

Definition StackSet (index : nat) (v : Z) : M DwarfOp unit :=
  st <- get stack_ ;;
  match st !! index with
  | Some _ => modify (set_stack (<[index := v]> st))
  | None => undef
  end.

Definition push_front (v : Z) : M DwarfOp unit :=
  st <- get stack_ ;; modify (set_stack (v :: st)).

Definition StackPop : M DwarfOp Z :=
  st <- get stack_ ;;
  match st with
  | [] => undef
  | v :: t => modify (set_stack t) ;; ret v
  end.

Definition OperandAt (index : nat) : M DwarfOp Z :=
  ops <- get operands_ ;;
  match ops !! index with
  | Some v => ret v
  | None => undef
  end.

Definition bool_to_dwarf_bool (value : bool) : Z := if value then 1 else 0.

(** [AddressType top = StackPop(); stack_[0] = f(stack_[0], top);] *)
Definition combine_top (f : Z -> Z -> Z) : M DwarfOp bool :=
  top <- StackPop ;;
  v <- StackAt 0 ;;
  StackSet 0 (f v top) ;;
  ret true.

Section Handlers.
Context (AT : AddressType) (mem regular_memory : Memory).

Local Abbreviation uA := (uwrap (bits AT)).
Local Abbreviation sA := (swrap (bits AT)).

Definition op_deref : M DwarfOp bool :=
  addr <- StackPop ;;
  match Read regular_memory addr (sizeof AT) with
  | None => fail DWARF_ERROR_MEMORY_INVALID
  | Some bs => push_front (le_combine bs) ;; ret true
  end.

Definition op_deref_size : M DwarfOp bool :=
  bytes_to_read <- OperandAt 0 ;;
  if (sizeof AT <? bytes_to_read) || (bytes_to_read =? 0) then fail DWARF_ERROR_ILLEGAL_VALUE
  else
    addr <- StackPop ;;
    match Read regular_memory addr bytes_to_read with
    | None => fail DWARF_ERROR_MEMORY_INVALID
    | Some bs => push_front (le_combine bs) ;; ret true
    end.

Definition op_push : M DwarfOp bool :=
  ops <- get operands_ ;;
  st <- get stack_ ;;
  modify (set_stack (rev ops ++ st)) ;;
  ret true.

Definition op_dup : M DwarfOp bool := v <- StackAt 0 ;; push_front v ;; ret true.

Definition op_drop : M DwarfOp bool := StackPop ;; ret true.

Definition op_over : M DwarfOp bool := v <- StackAt 1 ;; push_front v ;; ret true.

Definition op_pick : M DwarfOp bool :=
  index <- OperandAt 0 ;;
  size <- get StackSize ;;
  if size <? index then fail DWARF_ERROR_STACK_INDEX_NOT_VALID
  else v <- StackAt (Z.to_nat index) ;; push_front v ;; ret true.

Definition op_swap : M DwarfOp bool :=
  old_value <- StackAt 0 ;;
  v1 <- StackAt 1 ;;
  StackSet 0 v1 ;;
  StackSet 1 old_value ;;
  ret true.

Definition op_rot : M DwarfOp bool :=
  top <- StackAt 0 ;;
  v1 <- StackAt 1 ;;
  StackSet 0 v1 ;;
  v2 <- StackAt 2 ;;
  StackSet 1 v2 ;;
  StackSet 2 top ;;
  ret true.

(** [-signed_value] is undefined for the least value of SignedType. *)
Definition op_abs : M DwarfOp bool :=
  v <- StackAt 0 ;;
  let signed_value := sA v in
  if signed_value <? 0 then
    require (fits_signed (bits AT) (- signed_value)) ;;
    StackSet 0 (uA (- signed_value)) ;; ret true
  else StackSet 0 (uA signed_value) ;; ret true.

Definition op_and : M DwarfOp bool := combine_top Z.land.

Definition op_div : M DwarfOp bool :=
  top <- StackPop ;;
  if top =? 0 then fail DWARF_ERROR_ILLEGAL_VALUE
  else
    v <- StackAt 0 ;;
    let signed_divisor := sA top in
    let signed_dividend := sA v in
    require (fits_signed (bits AT) (Z.quot signed_dividend signed_divisor)) ;;
    StackSet 0 (uA (Z.quot signed_dividend signed_divisor)) ;;
    ret true.

Definition op_minus : M DwarfOp bool := combine_top (fun v top => uA (v - top)).

Definition op_mod : M DwarfOp bool :=
  top <- StackPop ;;
  if top =? 0 then fail DWARF_ERROR_ILLEGAL_VALUE
  else v <- StackAt 0 ;; StackSet 0 (v mod top) ;; ret true.

Definition op_mul : M DwarfOp bool := combine_top (fun v top => uA (v * top)).

Definition op_neg : M DwarfOp bool :=
  v <- StackAt 0 ;;
  require (fits_signed (bits AT) (- sA v)) ;;
  StackSet 0 (uA (- sA v)) ;;
  ret true.

Definition op_not : M DwarfOp bool :=
  v <- StackAt 0 ;; StackSet 0 (uA (Z.lnot v)) ;; ret true.

Definition op_or : M DwarfOp bool := combine_top Z.lor.

Definition op_plus : M DwarfOp bool := combine_top (fun v top => uA (v + top)).

Definition op_plus_uconst : M DwarfOp bool :=
  v <- StackAt 0 ;;
  operand <- OperandAt 0 ;;
  StackSet 0 (uA (v + operand)) ;;
  ret true.

(** A shift by the width of the type or more is undefined. *)
Definition shift_top (f : Z -> Z -> Z) : M DwarfOp bool :=
  top <- StackPop ;;
  v <- StackAt 0 ;;
  require (top <? bits AT) ;;
  StackSet 0 (f v top) ;;
  ret true.

Definition op_shl : M DwarfOp bool := shift_top (fun v top => uA (Z.shiftl v top)).

Definition op_shr : M DwarfOp bool := shift_top (fun v top => Z.shiftr v top).

Definition op_shra : M DwarfOp bool := shift_top (fun v top => uA (Z.shiftr (sA v) top)).

Definition op_xor : M DwarfOp bool := combine_top Z.lxor.

Definition op_bra : M DwarfOp bool :=
  top <- StackPop ;;
  operand <- OperandAt 0 ;;
  let offset := s16 operand in
  cur <- get (fun s => cur_offset_ (memory_ s)) ;;
  let cur_offset := if negb (top =? 0) then u64 (cur + offset) else u64 (cur - offset) in
  on_memory (modify (set_cur_offset cur_offset)) ;;
  ret true.

Definition op_eq : M DwarfOp bool := combine_top (fun v top => bool_to_dwarf_bool (v =? top)).
Definition op_ge : M DwarfOp bool := combine_top (fun v top => bool_to_dwarf_bool (top <=? v)).
Definition op_gt : M DwarfOp bool := combine_top (fun v top => bool_to_dwarf_bool (top <? v)).
Definition op_le : M DwarfOp bool := combine_top (fun v top => bool_to_dwarf_bool (v <=? top)).
Definition op_lt : M DwarfOp bool := combine_top (fun v top => bool_to_dwarf_bool (v <? top)).
Definition op_ne : M DwarfOp bool := combine_top (fun v top => bool_to_dwarf_bool (negb (v =? top))).

Definition op_skip : M DwarfOp bool :=
  operand <- OperandAt 0 ;;
  cur <- get (fun s => cur_offset_ (memory_ s)) ;;
  on_memory (modify (set_cur_offset (u64 (cur + s16 operand)))) ;;
  ret true.

Definition op_lit : M DwarfOp bool :=
  op <- get cur_op_ ;; push_front (uA (op - 0x30)) ;; ret true.

Definition op_reg : M DwarfOp bool :=
  modify (set_is_register true) ;;
  op <- get cur_op_ ;; push_front (uA (op - 0x50)) ;; ret true.

Definition op_regx : M DwarfOp bool :=
  modify (set_is_register true) ;;
  operand <- OperandAt 0 ;; push_front operand ;; ret true.

(** Pushes register [reg] plus the operand, behind the bound check. *)
Definition push_register (reg : Z) (operand : M DwarfOp Z) : M DwarfOp bool :=
  p <- get regs_ptr_ ;;
  match p with
  | None => undef
  | Some regs =>
      if total_regs regs <=? reg then fail DWARF_ERROR_ILLEGAL_VALUE
      else
        match regs_ regs !! Z.to_nat reg with
        | None => undef
        | Some v => o <- operand ;; push_front (uA (v + o)) ;; ret true
        end
  end.

Definition op_breg : M DwarfOp bool :=
  op <- get cur_op_ ;; push_register (u16 (op - 0x70)) (OperandAt 0).

Definition op_bregx : M DwarfOp bool :=
  reg <- OperandAt 0 ;; push_register reg (OperandAt 1).

Definition op_nop : M DwarfOp bool := ret true.

Definition op_not_implemented : M DwarfOp bool := fail DWARF_ERROR_NOT_IMPLEMENTED.

(** The call through [handle_func]. *)
Definition handle (h : OpHandler) : M DwarfOp bool :=
  match h with
  | Op_deref => op_deref | Op_deref_size => op_deref_size | Op_push => op_push
  | Op_dup => op_dup | Op_drop => op_drop | Op_over => op_over | Op_pick => op_pick
  | Op_swap => op_swap | Op_rot => op_rot | Op_abs => op_abs | Op_and => op_and
  | Op_div => op_div | Op_minus => op_minus | Op_mod => op_mod | Op_mul => op_mul
  | Op_neg => op_neg | Op_not => op_not | Op_or => op_or | Op_plus => op_plus
  | Op_plus_uconst => op_plus_uconst | Op_shl => op_shl | Op_shr => op_shr
  | Op_shra => op_shra | Op_xor => op_xor | Op_bra => op_bra | Op_eq => op_eq
  | Op_ge => op_ge | Op_gt => op_gt | Op_le => op_le | Op_lt => op_lt | Op_ne => op_ne
  | Op_skip => op_skip | Op_lit => op_lit | Op_reg => op_reg | Op_regx => op_regx
  | Op_breg => op_breg | Op_bregx => op_bregx | Op_nop => op_nop
  | Op_not_implemented => op_not_implemented
  end.

(** The loop of [Decode] over the operands of an opcode; the vector holds
    AddressType values. *)
Fixpoint read_operands (encodings : list Z) : M DwarfOp bool :=
  match encodings with
  | [] => ret true
  | e :: es =>
      let? value := on_memory (ReadEncodedValue mem AT e)
        else fail DWARF_ERROR_MEMORY_INVALID in
      ops <- get operands_ ;;
      modify (set_operands (ops ++ [uA value])) ;;
      read_operands es
  end.

Definition Decode (dwarf_version : Z) : M DwarfOp bool :=
  modify (set_last_error DWARF_ERROR_NONE) ;;
  let? cur_op := on_memory (ReadUnsigned mem 1) else fail DWARF_ERROR_MEMORY_INVALID in
  modify (set_cur_op cur_op) ;;
  let op := op_callback cur_op in
  match handle_func op with
  | None => fail DWARF_ERROR_ILLEGAL_VALUE
  | Some h =>
      if dwarf_version <? supported_version op then fail DWARF_ERROR_ILLEGAL_VALUE
      else
        size <- get StackSize ;;
        if size <? num_required_stack_values op then fail DWARF_ERROR_STACK_INDEX_NOT_VALID
        else
          modify (set_operands []) ;;
          call? read_operands (take (Z.to_nat (num_operands op)) (operands op)) else ret false in
          handle h
  end.

(** The loop of [Eval]: [iterations] is its counter.  1001 rounds that return
    are followed by the 1000 check, so 1002 rounds always suffice. *)
Definition Eval_round (end_ dwarf_version iterations : Z) : M DwarfOp (Z + bool) :=
  cur <- get (fun s => cur_offset_ (memory_ s)) ;;
  if cur <? end_ then
    call? Decode dwarf_version else ret (inr false) in
    if iterations =? 1000 then
      modify (set_last_error DWARF_ERROR_TOO_MANY_ITERATIONS) ;; ret (inr false)
    else ret (inl (u32 (iterations + 1)))
  else ret (inr true).

Definition Eval (start end_ dwarf_version : Z) : M DwarfOp bool :=
  modify (set_is_register false) ;;
  modify (set_stack []) ;;
  on_memory (modify (set_cur_offset start)) ;;
  iter 1002 (Eval_round end_ dwarf_version) 0.

End Handlers.

(** ** The invariant *)

(** Every value on the stack and among the operands is an AddressType, the
    cursor a uint64_t, and the registers, when set, are well formed. *)
Record op_ok (AT : AddressType) (s : DwarfOp) : Prop := {
  op_ok_memory : dwarf_ok (memory_ s);
  op_ok_regs : forall r, regs_ptr_ s = Some r -> regs_ok r;
  op_ok_cur : 0 <= cur_op_ s < 256;
  op_ok_operands : Forall (in_unsigned (bits AT)) (operands_ s);
  op_ok_stack : Forall (in_unsigned (bits AT)) (stack_ s)
}.

(** What a handler may touch. *)
Definition same_code (s s' : DwarfOp) : Prop :=
  regs_ptr_ s' = regs_ptr_ s /\ cur_op_ s' = cur_op_ s /\ operands_ s' = operands_ s.

Section Invariant.
Context (AT : AddressType).
Implicit Types (s : DwarfOp) (v : Z).

Lemma op_ok_set_stack s st : op_ok AT s -> Forall (in_unsigned (bits AT)) st ->
  op_ok AT (set_stack st s).
Proof. by intros [H1 H2 H3 H4 H5] H; split. Qed.

Lemma op_ok_set_operands s l : op_ok AT s -> Forall (in_unsigned (bits AT)) l ->
  op_ok AT (set_operands l s).
Proof. by intros [H1 H2 H3 H4 H5] H; split. Qed.

Lemma op_ok_set_error s e : op_ok AT s -> op_ok AT (set_last_error e s).
Proof. by intros [H1 H2 H3 H4 H5]; split. Qed.

Lemma op_ok_set_is_register s x : op_ok AT s -> op_ok AT (set_is_register x s).
Proof. by intros [H1 H2 H3 H4 H5]; split. Qed.

Lemma op_ok_set_cur_op s x : 0 <= x < 256 -> op_ok AT s -> op_ok AT (set_cur_op x s).
Proof. by intros ? [H1 H2 H3 H4 H5]; split. Qed.

Lemma op_ok_set_memory s d : dwarf_ok d -> op_ok AT s -> op_ok AT (set_memory d s).
Proof. by intros ? [H1 H2 H3 H4 H5]; split. Qed.

Lemma in_AT_wrap x : in_unsigned (bits AT) (uwrap (bits AT) x).
Proof. apply uwrap_range. by destruct AT. Qed.

Lemma in_AT_bool b : in_unsigned (bits AT) (bool_to_dwarf_bool b).
Proof. by destruct AT, b. Qed.

Lemma in_AT_bitop f x y (b : bool -> bool -> bool) :
  (forall n, Z.testbit (f x y) n = b (Z.testbit x n) (Z.testbit y n)) -> b false false = false ->
  0 <= f x y ->
  in_unsigned (bits AT) x -> in_unsigned (bits AT) y -> in_unsigned (bits AT) (f x y).
Proof.
  intros Hf Hb Hpos [Hx1 Hx2] [Hy1 Hy2]. split; [done|]. pose proof (bits_pos AT) as HAT.
  destruct (Z.eq_dec (f x y) 0) as [->|Hne]; [apply Z.pow_pos_nonneg; lia|].
  assert (forall z, 0 <= z < 2 ^ bits AT -> forall n, bits AT <= n -> Z.testbit z n = false) as Hhi.
  { intros z Hz n Hn. destruct (Z.eq_dec z 0) as [->|]; [apply Z.bits_0|].
    apply Z.bits_above_log2; [lia|]. apply (Z.lt_le_trans _ (bits AT)); [apply Z.log2_lt_pow2; lia|done]. }
  apply Z.log2_lt_pow2; [lia|]. destruct (Z.lt_ge_cases (Z.log2 (f x y)) (bits AT)) as [|Hge]; [done|].
  pose proof (Z.bit_log2 (f x y) ltac:(lia)) as Hbit.
  rewrite Hf, (Hhi x), (Hhi y), Hb in Hbit by lia. done.
Qed.

Lemma in_AT_land x y : in_unsigned (bits AT) x -> in_unsigned (bits AT) y ->
  in_unsigned (bits AT) (Z.land x y).
Proof.
  intros Hx Hy. apply (in_AT_bitop Z.land x y andb); try done; [intros; apply Z.land_spec|].
  apply Z.land_nonneg. left. apply Hx.
Qed.

Lemma in_AT_lor x y : in_unsigned (bits AT) x -> in_unsigned (bits AT) y ->
  in_unsigned (bits AT) (Z.lor x y).
Proof.
  intros Hx Hy. apply (in_AT_bitop Z.lor x y orb); try done; [intros; apply Z.lor_spec|].
  apply Z.lor_nonneg. split; [apply Hx|apply Hy].
Qed.

Lemma in_AT_lxor x y : in_unsigned (bits AT) x -> in_unsigned (bits AT) y ->
  in_unsigned (bits AT) (Z.lxor x y).
Proof.
  intros Hx Hy. apply (in_AT_bitop Z.lxor x y xorb); try done; [intros; apply Z.lxor_spec|].
  apply Z.lxor_nonneg. destruct Hx, Hy. done.
Qed.

Lemma in_AT_mod x y : in_unsigned (bits AT) x -> in_unsigned (bits AT) y -> y <> 0 ->
  in_unsigned (bits AT) (x mod y).
Proof.
  intros [Hx1 Hx2] [Hy1 Hy2] Hy. pose proof (Z.mod_pos_bound x y). split; lia.
Qed.

Lemma in_AT_shiftr x y : in_unsigned (bits AT) x -> 0 <= y -> in_unsigned (bits AT) (Z.shiftr x y).
Proof.
  intros [Hx1 Hx2] Hy. rewrite Z.shiftr_div_pow2 by done. split.
  - apply Z.div_pos; [done|]. apply Z.pow_pos_nonneg; lia.
  - apply Z.div_lt_upper_bound; [apply Z.pow_pos_nonneg; lia|].
    assert (1 <= 2 ^ y) by (apply Z.lt_pred_le, Z.pow_pos_nonneg; lia). nia.
Qed.

End Invariant.

#[export] Hint Resolve op_ok_set_stack op_ok_set_operands op_ok_set_error op_ok_set_is_register
  op_ok_set_cur_op op_ok_set_memory in_AT_wrap in_AT_bool in_AT_land in_AT_lor in_AT_lxor : cpp.

(** ** The guards of the table *)

(** How many stack elements and operands each handler indexes. *)
Definition stack_use (h : OpHandler) : Z :=
  match h with
  | Op_push | Op_pick | Op_skip | Op_lit | Op_reg | Op_regx | Op_breg | Op_bregx | Op_nop
  | Op_not_implemented => 0
  | Op_deref | Op_deref_size | Op_dup | Op_drop | Op_abs | Op_neg | Op_not | Op_plus_uconst
  | Op_bra => 1
  | Op_rot => 3
  | _ => 2
  end.

Definition operand_use (h : OpHandler) : Z :=
  match h with
  | Op_deref_size | Op_pick | Op_plus_uconst | Op_bra | Op_skip | Op_regx | Op_breg => 1
  | Op_bregx => 2
  | _ => 0
  end.

(** The states in which a handler's C++ code is undefined. *)
Definition hazard (AT : AddressType) (h : OpHandler) (s : DwarfOp) : bool :=
  let least v := swrap (bits AT) v =? - 2 ^ (bits AT - 1) in
  match h, stack_ s, operands_ s with
  | Op_pick, st, index :: _ => index =? lengthZ st
  | Op_abs, v :: _, _ | Op_neg, v :: _, _ => least v
  | Op_div, top :: v :: _, _ => (swrap (bits AT) top =? -1) && least v
  | Op_shl, top :: _, _ | Op_shr, top :: _, _ | Op_shra, top :: _, _ => bits AT <=? top
  | Op_breg, _, _ | Op_bregx, _, _ => match regs_ptr_ s with Some _ => false | None => true end
  | _, _, _ => false
  end.

Lemma fits_neg AT x : in_signed (bits AT) x ->
  fits_signed (bits AT) (- x) = negb (x =? - 2 ^ (bits AT - 1)).
Proof. unfold fits_signed, in_signed. intros H. pose proof (bits_pos AT). destruct AT; simpl in *; lia. Qed.

Lemma fits_quot AT x y : in_signed (bits AT) x -> in_signed (bits AT) y -> y <> 0 ->
  fits_signed (bits AT) (Z.quot x y) = negb ((y =? -1) && (x =? - 2 ^ (bits AT - 1))).
Proof.
  intros Hx Hy Hne. destruct (Z.eqb_spec y (-1)) as [->|Hy1]; simpl.
  - rewrite <- fits_neg by done. f_equal. rewrite <- (Z.quot_opp_opp x (-1)) by lia. apply Z.quot_1_r.
  - apply fits_signed_spec. unfold in_signed in *. 
    assert (Z.abs (Z.quot x y) <= Z.abs x) as Hle.
    { rewrite <- Z.quot_abs by lia. apply Z.quot_le_upper_bound; nia. }
    destruct (Z.eq_dec x (- 2 ^ (bits AT - 1))) as [->|]; [|lia].
    destruct (Z.eq_dec y 1) as [->|]; [rewrite Z.quot_1_r; lia|].
    assert (Z.abs (Z.quot (- 2 ^ (bits AT - 1)) y) * 2 <= 2 ^ (bits AT - 1)) as H2; [|destruct AT; simpl in *; lia].
    rewrite <- Z.quot_abs by lia. 
    pose proof (Z.mul_quot_le (Z.abs (- 2 ^ (bits AT - 1))) (Z.abs y) ltac:(lia) ltac:(lia)). 
    assert (Z.abs (- 2 ^ (bits AT - 1)) = 2 ^ (bits AT - 1)) as E by (destruct AT; simpl; lia).
    rewrite E in *. assert (0 <= Z.quot (2 ^ (bits AT - 1)) (Z.abs y)) by (apply Z.quot_pos; [destruct AT; simpl; lia|lia]).
    nia.
Qed.

#[local] Arguments uwrap : simpl never.
#[local] Arguments swrap : simpl never.
#[local] Arguments bits : simpl never.
#[local] Arguments fits_signed : simpl never.

Ltac run_op :=
  unfold wp, handle, fail, op_deref, op_deref_size, op_push, op_dup, op_drop, op_over, op_pick,
    op_swap, op_rot, op_abs, op_and, op_div, op_minus, op_mod, op_mul, op_neg, op_not, op_or,
    op_plus, op_plus_uconst, op_shl, op_shr, op_shra, op_xor, op_bra, op_eq, op_ge, op_gt, op_le,
    op_lt, op_ne, op_skip, op_lit, op_reg, op_regx, op_breg, op_bregx, op_nop, op_not_implemented,
    shift_top, combine_top, push_register, StackPop, StackSet, StackAt, OperandAt, push_front,
    on_memory, lift, StackSize, get, modify, ret, undef, require, bind in *.

Section Handle.
Context (AT : AddressType) (regular_memory : Memory) {OK : MemoryOk regular_memory}.

(** The outcome of a handler behind the guards of the table. *)
Definition handled (h : OpHandler) (s : DwarfOp) (o : outcome (bool * DwarfOp)) : Prop :=
  match o with
  | Ok (_, s') => hazard AT h s = false /\ op_ok AT s' /\ same_code s s'
  | Undef => hazard AT h s = true
  | _ => False
  end.

Lemma Read_value addr n bs : 0 <= addr -> 0 <= n <= sizeof AT ->
  Read regular_memory addr n = Some bs -> in_unsigned (bits AT) (le_combine bs).
Proof.
  intros Ha Hn H. apply (in_unsigned_mono (8 * n)); [unfold bits; lia|].
  apply (Read_word_range regular_memory OK addr n); [done|lia|done].
Qed.

Lemma push_register_outcome h s reg operand o : op_ok AT s -> h = Op_breg \/ h = Op_bregx ->
  0 <= reg -> operand s = Ok (o, s) -> in_unsigned (bits AT) o ->
  handled h s (push_register AT reg operand s).
Proof.
  intros Hok Hh Hreg Ho Hin. unfold push_register, bind, get.
  assert (hazard AT h s = match regs_ptr_ s with Some _ => false | None => true end) as Hz
    by (destruct Hh as [-> | ->]; by destruct (stack_ s), (operands_ s)).
  unfold handled. rewrite Hz. destruct (regs_ptr_ s) as [r|] eqn:Er; [|done].
  pose proof (op_ok_regs AT s Hok r Er) as Hr. destruct (Z.leb_spec (total_regs r) reg).
  - split_and!; [done|by apply op_ok_set_error|done].
  - destruct (lookup_lt_is_Some_2 (regs_ r) (Z.to_nat reg)) as [v Hv].
    { pose proof (regs_ok_length r Hr). unfold lengthZ in *. lia. }
    rewrite Hv, Ho. cbn. split_and!; [done| |done]. apply op_ok_set_stack; [done|].
    constructor; [apply in_AT_wrap|apply Hok].
Qed.

(** Destructs stack and operands as far as the handlers index them. *)
Ltac open_stack ops st :=
  unfold lengthZ in *;
  destruct ops as [|? [|? ?]]; simpl in *; try lia;
  destruct st as [|? [|? [|? ?]]]; simpl in *; try lia;
  repeat match goal with H : Forall _ (_ :: _) |- _ => inversion H; clear H; subst end.

Ltac simple_handler ops st :=
  open_stack ops st;
  (run_op; cbn; unfold handled, hazard; cbn; split_and!; [done| |done]; split; cbn; auto 8 with cpp).

Lemma dwarf_ok_set x d : dwarf_ok (set_cur_offset (u64 x) d).
Proof. by apply uwrap_range. Qed.

Lemma swrap_AT x : in_signed (bits AT) (swrap (bits AT) x).
Proof. apply swrap_range. apply bits_pos. Qed.

Lemma swrap_zero x : in_unsigned (bits AT) x -> swrap (bits AT) x = 0 -> x = 0.
Proof.
  intros Hx H. rewrite <- (uwrap_small (bits AT) x Hx), <- (uwrap_swrap (bits AT) x), H by apply bits_pos.
  by destruct AT.
Qed.

#[local] Hint Resolve dwarf_ok_set in_AT_mod in_AT_shiftr : cpp.

(** Closes a branch that returns. *)
Ltac close_handler :=
  unfold handled, hazard; cbn;
  split_and!; [try done; unfold lengthZ in *; try lia|split; cbn; auto 8 with cpp|done].

Ltac run_handler := run_op; cbn.

Section Hazards.
Context (d : DwarfMemory) (rp : option Regs) (ir : bool) (le : DwarfError) (op : Z) (ops st : list Z).
Let s := mkDwarfOp d rp ir le op ops st.
Hypothesis Hok : op_ok AT s.

Lemma op_deref_outcome a st' : st = a :: st' -> handled Op_deref s (op_deref AT regular_memory s).
Proof.
  subst s. intros ->. destruct Hok as [H1 H2 H3 H4 H5]; simpl in *. inversion H5 as [|? ? Ha Hst]; subst.
  run_handler. destruct (Read regular_memory a (sizeof AT)) as [bs|] eqn:E; [|close_handler].
  apply Read_value in E; [close_handler|by apply Ha|by destruct AT].
Qed.

Lemma op_deref_size_outcome o ops' a st' : ops = o :: ops' -> st = a :: st' ->
  handled Op_deref_size s (op_deref_size AT regular_memory s).
Proof.
  subst s. intros -> ->. destruct Hok as [H1 H2 H3 H4 H5]; simpl in *. inversion H5 as [|? ? Ha Hst]; subst.
  inversion H4 as [|? ? Ho _]; subst.
  run_handler. destruct ((sizeof AT <? o) || (o =? 0)) eqn:Eo; [close_handler|]. cbn.
  destruct (Read regular_memory a o) as [bs|] eqn:E; [|close_handler].
  apply Read_value in E; [close_handler|by apply Ha|]. destruct Ho. lia.
Qed.

Lemma op_pick_outcome o ops' : ops = o :: ops' -> handled Op_pick s (op_pick s).
Proof.
  subst s. intros ->. destruct Hok as [H1 H2 H3 H4 H5]; simpl in *.
  inversion H4 as [|? ? [Ho _] _]; subst. run_handler.
  destruct (Z.ltb_spec (lengthZ st) o); [close_handler|]. cbn. unfold lengthZ in *.
  destruct (st !! Z.to_nat o) as [v|] eqn:E.
  - pose proof (lookup_lt_Some _ _ _ E). cbn. close_handler. constructor; [|done]. by eapply Forall_lookup_1.
  - apply lookup_ge_None in E. unfold handled, hazard. cbn. unfold lengthZ. lia.
Qed.

Lemma op_neg_outcome a st' : st = a :: st' ->
  handled Op_neg s (op_neg AT s) /\ handled Op_abs s (op_abs AT s).
Proof.
  subst s. intros ->. destruct Hok as [H1 H2 H3 H4 H5]; simpl in *. inversion H5 as [|? ? Ha Hst]; subst.
  pose proof (swrap_AT a). pose proof (fits_neg AT (swrap (bits AT) a)) as Hf.
  pose proof (Z.pow_pos_nonneg 2 (bits AT - 1)). pose proof (bits_pos AT).
  split; run_handler; rewrite Hf by done;
    destruct (Z.eqb_spec (swrap (bits AT) a) (- 2 ^ (bits AT - 1))) as [E|E]; cbn;
    try (destruct (Z.ltb_spec (swrap (bits AT) a) 0); [|try lia]; cbn);
    try close_handler; unfold handled, hazard; cbn; lia.
Qed.

Lemma op_div_outcome a b st' : st = a :: b :: st' -> handled Op_div s (op_div AT s).
Proof.
  subst s. intros ->. destruct Hok as [H1 H2 H3 H4 H5]; simpl in *. inversion H5 as [|? ? Ha Hst]; subst.
  run_handler. destruct (Z.eqb_spec a 0) as [->|Hne].
  - cbn. close_handler. rewrite swrap_small; [done|apply bits_pos|by destruct AT].
  - cbn. rewrite fits_quot by (auto using swrap_AT; intros ?%swrap_zero; done).
    destruct (_ && _) eqn:E; [unfold handled, hazard; by cbn|]. cbn. close_handler.
    inversion Hst; auto with cpp.
Qed.

Lemma op_mod_outcome a b st' : st = a :: b :: st' -> handled Op_mod s (op_mod s).
Proof.
  subst s. intros ->. destruct Hok as [H1 H2 H3 H4 H5]; simpl in *. inversion H5 as [|? ? Ha Hst]; subst.
  inversion Hst; subst. run_handler. destruct (Z.eqb_spec a 0); cbn; close_handler.
Qed.

Lemma shift_outcome a b st' h f : st = a :: b :: st' -> h = Op_shl \/ h = Op_shr \/ h = Op_shra ->
  (0 <= a < bits AT -> in_unsigned (bits AT) (f b a)) -> handled h s (shift_top AT f s).
Proof.
  subst s. intros -> Hh Hf. destruct Hok as [H1 H2 H3 H4 H5]; simpl in *. inversion H5 as [|? ? [? ?] Hst]; subst.
  inversion Hst; subst. run_handler.
  assert (hazard AT h (mkDwarfOp d rp ir le op ops (a :: b :: st')) = (bits AT <=? a)) as Hz
    by (by destruct_or! Hh; subst).
  unfold handled. rewrite Hz. destruct (Z.ltb_spec a (bits AT)); cbn; [|lia].
  split_and!; [lia| |done]. split; cbn; auto with cpp.
Qed.

End Hazards.

Lemma lengthZ_S {A} (l : list A) n : 0 <= n -> n + 1 <= lengthZ l ->
  exists a l', l = a :: l' /\ n <= lengthZ l'.
Proof. unfold lengthZ. intros. destruct l as [|a l']; simpl in *; [lia|]. exists a, l'. split; [done|lia]. Qed.

Lemma handle_outcome h s : op_ok AT s -> stack_use h <= lengthZ (stack_ s) ->
  operand_use h <= lengthZ (operands_ s) -> handled h s (handle AT regular_memory h s).
Proof.
  destruct s as [d rp ir le op ops st]. intros Hok Hst Hops.
  assert (1 <= stack_use h -> exists a st', st = a :: st') as Hst1.
  { intros. destruct (lengthZ_S st 0) as (a & st' & -> & _); eauto; simpl in *; lia. }
  assert (2 <= stack_use h -> exists a b st', st = a :: b :: st') as Hst2.
  { intros. destruct (lengthZ_S st 1) as (a & st1 & -> & H1); simpl in *; [lia..|].
    destruct (lengthZ_S st1 0) as (b & st2 & -> & _); eauto; lia. }
  assert (1 <= operand_use h -> exists o ops', ops = o :: ops') as Hops1.
  { intros. simpl in *. destruct (lengthZ_S ops 0) as (o & l & -> & _); eauto; lia. }
  pose proof Hok as [H1 H2 H3 H4 H5].
  destruct h; simpl in *; try (by simple_handler ops st).
  - destruct Hst1 as (a & st' & Est); [lia|]. by eapply op_deref_outcome.
  - destruct Hst1 as (a & st' & Est); [lia|]. destruct Hops1 as (o & ops' & ->); [done|].
    by eapply op_deref_size_outcome.
  - run_handler. close_handler. apply Forall_app. split; [by apply Forall_rev|done].
  - destruct Hops1 as (o & ops' & ->); [done|]. by eapply op_pick_outcome.
  - destruct Hst1 as (a & st' & Est); [lia|]. by eapply op_neg_outcome.
  - destruct Hst2 as (a & b & st' & Est); [lia|]. by eapply op_div_outcome.
  - destruct Hst2 as (a & b & st' & Est); [lia|]. by eapply op_mod_outcome.
  - destruct Hst1 as (a & st' & Est); [lia|]. by eapply op_neg_outcome.
  - destruct Hst2 as (a & b & st' & Est); [lia|]. eapply shift_outcome; eauto with cpp.
  - destruct Hst2 as (a & b & st' & Est); [lia|]. eapply shift_outcome; [done..|eauto|].
    intros [Ha _]. subst st. inversion H5 as [|? ? _ Hb]; inversion Hb; subst. by apply in_AT_shiftr.
  - destruct Hst2 as (a & b & st' & Est); [lia|]. eapply shift_outcome; eauto with cpp.
  - destruct Hst1 as (a & st' & ->); [lia|]. destruct Hops1 as (o & ops' & ->); [done|].
    inversion H5; subst. run_handler. by case_match; close_handler.
  - destruct Hops1 as (o & ops' & ->); [done|]. inversion H4; subst. unfold op_breg, bind, get. simpl.
    eapply push_register_outcome; [done|by left|by apply uwrap_range|done|done].
  - destruct (lengthZ_S ops 1) as (o & l & -> & _); [lia..|].
    destruct l as [|o2 l]; unfold lengthZ in Hops; simpl in Hops; try lia.
    inversion H4 as [|? ? [Ho _] H4']; inversion H4'; subst. unfold op_bregx, bind, get. simpl.
    eapply push_register_outcome; [done|by right|done|done|done].
Qed.

End Handle.

(** ** Decode and Eval *)

(** An entry of the table reserves the stack and reads the operands its handler
    indexes, and reads them with encodings that cannot abort. *)
Definition entry_ok (op : OpCallback) : bool :=
  match handle_func op with
  | None => true
  | Some h =>
      (stack_use h <=? num_required_stack_values op) && (operand_use h <=? num_operands op) &&
      (num_operands op =? lengthZ (operands op)) && forallb plain_encoding (operands op)
  end.

Lemma table_guards c : entry_ok (op_callback c) = true.
Proof.
  assert (forallb entry_ok kCallbackTable = true) as H by (by vm_compute).
  rewrite forallb_forall in H. unfold op_callback.
  destruct (nth_in_or_default (Z.to_nat c) kCallbackTable illegal) as [Hin| ->]; [by apply H|done].
Qed.

(** What holds after any part of [Decode]: the invariant, and the registers
    are the same. *)
Definition op_next (AT : AddressType) (s s' : DwarfOp) : Prop :=
  op_ok AT s' /\ regs_ptr_ s' = regs_ptr_ s.

Section Decode.
Context (AT : AddressType) (mem regular_memory : Memory).
Context {OKm : MemoryOk mem} {OKr : MemoryOk regular_memory}.

Lemma wp_fail b e s0 s : op_next AT s0 s -> wp b (fail e) (fun _ s' => op_next AT s0 s') s.
Proof. intros [H E]. unfold fail. wp_go. split; [by apply op_ok_set_error|done]. Qed.

Lemma wp_read_operands b es s : op_ok AT s -> on_undef b -> forallb plain_encoding es = true ->
  wp b (read_operands AT mem es) (fun ok s' => op_next AT s s' /\ stack_ s' = stack_ s /\
    (ok = true -> lengthZ (operands_ s') = lengthZ (operands_ s) + lengthZ es)) s.
Proof.
  intros Hs Hb. revert s Hs. induction es as [|e es IH]; intros s Hs Hes; cbn [read_operands].
  - wp_go. split_and!; [by split|done|]. unfold lengthZ. simpl. lia.
  - cbn [forallb] in Hes. apply andb_prop in Hes as [He Hes]. wp_step. unfold on_memory. wp_step.
    eapply wp_mono; [apply (wp_ReadEncodedValue_plain mem (OK := OKm)); [apply Hs|done|done]|].
    intros [v|] d [Hm Hv]; pose proof (moves_ok _ _ (op_ok_memory AT s Hs) Hm) as Hd.
    + wp_step. wp_step. wp_step. wp_step. eapply wp_mono.
      { apply IH; [|done]. apply op_ok_set_operands; [by apply op_ok_set_memory|].
        apply Forall_app. split; [apply Hs|]. constructor; [apply in_AT_wrap|done]. }
      intros ok s' ([H1 H2] & H3 & H4). split_and!; [by split|done|]. intros E. rewrite H4 by done.
      cbn. rewrite lengthZ_app. unfold lengthZ. simpl. lia.
    + unfold fail. wp_go. split_and!; [split; [|done]|done|done].
      by apply op_ok_set_error, op_ok_set_memory.
Qed.

Lemma wp_handle b h s : op_ok AT s -> on_undef b ->
  stack_use h <= lengthZ (stack_ s) -> operand_use h <= lengthZ (operands_ s) ->
  wp b (handle AT regular_memory h) (fun _ s' => op_next AT s s') s.
Proof.
  intros Hs Hb H1 H2. pose proof (handle_outcome AT regular_memory h s Hs H1 H2) as H.
  unfold wp. unfold handled in H. destruct (handle _ _ _ _) as [[ok s']| | |]; try done.
  destruct H as (_ & Hok & (Hr & _)). by split.
Qed.

Lemma op_next_trans s1 s2 s3 : op_next AT s1 s2 -> op_next AT s2 s3 -> op_next AT s1 s3.
Proof. intros [H1 E1] [H2 E2]. split; [done|]. by rewrite E2. Qed.

Lemma wp_Decode b version s : op_ok AT s -> on_undef b ->
  wp b (Decode AT mem regular_memory version) (fun _ s' => op_next AT s s') s.
Proof.
  intros Hs Hb. unfold Decode. wp_step. wp_step. wp_step. unfold on_memory at 1. wp_step.
  eapply wp_mono; [apply (wp_ReadUnsigned mem (OK := OKm)); [apply Hs|lia]|].
  intros [c|] d [Hm Hc]; simpl in Hm;
    pose proof (moves_ok _ _ (op_ok_memory AT s Hs) Hm) as Hd;
    assert (op_ok AT (set_memory d (set_last_error DWARF_ERROR_NONE s))) as Hs1
      by (by apply op_ok_set_memory; [|apply op_ok_set_error]); [|by apply wp_fail].
  destruct Hc as [Hc _]. wp_step. wp_step. set (s2 := set_cur_op c _).
  assert (op_ok AT s2) as Hs2 by (by apply op_ok_set_cur_op).
  assert (op_next AT s s2) as Hn2 by done.
  pose proof (table_guards c) as Ht. unfold entry_ok in Ht.
  destruct (handle_func (op_callback c)) as [h|]; [|by apply wp_fail].
  destruct (version <? _); [by apply wp_fail|]. wp_step. wp_step.
  destruct (Z.ltb_spec (StackSize s2) (num_required_stack_values (op_callback c))) as [|Hsize];
    [by apply wp_fail|].
  wp_step. wp_step. wp_step. rewrite take_ge by (unfold lengthZ in Ht; lia).
  eapply wp_mono; [apply wp_read_operands; [by apply op_ok_set_operands|done|]|].
  { destruct (forallb plain_encoding (operands (op_callback c))); [done|lia]. }
  intros ok s3 (Hn & Hst & Hops).
  assert (op_next AT s s3) as Hn3 by (split; [apply Hn|apply (proj2 Hn)]).
  destruct ok; [|by wp_go].
  eapply wp_mono; [apply wp_handle; [apply Hn|done|..]|].
  - rewrite Hst. unfold StackSize in Hsize. simpl in *. lia.
  - rewrite Hops by done. unfold lengthZ at 1. simpl. lia.
  - intros ok' s4 H4. by eapply op_next_trans.
Qed.

Lemma wp_Eval b start end_ version s : op_ok AT s -> in_unsigned 64 start -> on_undef b ->
  wp b (Eval AT mem regular_memory start end_ version) (fun _ s' => op_next AT s s') s.
Proof.
  intros Hs Hst Hb. unfold Eval, on_memory. do 7 wp_step.
  apply (wp_iter b (Eval_round AT mem regular_memory end_ version)
    (fun i s' => op_next AT s s' /\ 0 <= i <= 1000) (fun i _ => Z.to_nat (1000 - i))).
  - intros i s1 [H1 Hi]. unfold Eval_round. wp_step. wp_step. destruct (_ <? end_); [|by wp_go].
    wp_step. eapply wp_mono; [apply wp_Decode; [apply H1|done]|]. intros ok s2 H2.
    destruct ok; [|wp_go; by eapply op_next_trans].
    destruct (Z.eqb_spec i 1000).
    + wp_go. destruct H1, H2. split; [by apply op_ok_set_error|]. simpl. congruence.
    + wp_go. rewrite uwrap_small by (unfold in_unsigned; lia).
      split_and!; [by eapply op_next_trans|lia|lia|lia].
  - split; [|lia]. split; [|done]. apply op_ok_set_memory; [done|].
    apply op_ok_set_stack; [|done]. by apply op_ok_set_is_register.
  - by apply Nat.ltb_lt.
Qed.

End Decode.

(** C27: evaluating any byte sequence at any position ends: [Eval] returns, in
    a state whose stack holds AddressType values only and whose cursor is a
    uint64_t, or it reaches undefined behaviour; it never aborts, and a branch
    cannot make it loop for ever. *)
Theorem Eval_total AT mem regular_memory start end_ version s :
  MemoryOk mem -> MemoryOk regular_memory -> op_ok AT s -> in_unsigned 64 start ->
  (exists ok s', Eval AT mem regular_memory start end_ version s = Ok (ok, s') /\ op_ok AT s') \/
  Eval AT mem regular_memory start end_ version s = Undef.
Proof.
  intros OKm OKr Hs Hst.
  pose proof (wp_Eval AT mem regular_memory unless_undef start end_ version s Hs Hst I) as H.
  unfold wp in H. destruct (Eval _ _ _ _ _ _ _) as [[ok s']| | |]; try done; [|by right].
  left. exists ok, s'. split; [done|]. apply H.
Qed.

(** A loop of DW_OP_skip back to itself. *)
Lemma Eval_total_witness :
  exists s', Eval uint64_t (bytes_memory [0x2f; 0xfd; 0xff]) (bytes_memory []) 0 3 4
               (new_DwarfOp new_DwarfMemory) = Ok (false, s') /\
             last_error_ s' = DWARF_ERROR_TOO_MANY_ITERATIONS /\ op_ok uint64_t s'.
Proof.
  assert (op_ok uint64_t (new_DwarfOp new_DwarfMemory)) as Hok by (by split).
  destruct (Eval_total uint64_t (bytes_memory [0x2f; 0xfd; 0xff]) (bytes_memory []) 0 3 4
              (new_DwarfOp new_DwarfMemory) (bytes_memory_ok _ eq_refl) (bytes_memory_ok _ eq_refl)
              Hok ltac:(done)) as [(ok & s' & E & Hs')|E].
  - exists s'. pose proof E as E'. vm_compute in E'. injection E' as <- <-. by split_and!.
  - exfalso. by vm_compute in E.
Defined.

(** Behind the checks [Decode] makes with the table (enough stack, all
    operands read), a handler is undefined exactly in the states [hazard]
    names: DW_OP_pick of the element just past the stack (the check is
    [index > size]), a shift by the width or more, the negation or absolute
    value of the least value, its division by -1, and a register operation
    without [set_regs]; in every other state it returns and keeps the
    invariant. *)
Theorem handle_undefined AT regular_memory c h s :
  MemoryOk regular_memory -> op_ok AT s -> handle_func (op_callback c) = Some h ->
  num_required_stack_values (op_callback c) <= StackSize s ->
  lengthZ (operands_ s) = num_operands (op_callback c) ->
  if hazard AT h s then handle AT regular_memory h s = Undef
  else exists ok s', handle AT regular_memory h s = Ok (ok, s') /\ op_ok AT s'.
Proof.
  intros OKr Hs Hh Hst Hops. pose proof (table_guards c) as Ht. unfold entry_ok in Ht. rewrite Hh in Ht.
  pose proof (handle_outcome AT regular_memory h s Hs) as H. unfold StackSize in Hst.
  unfold handled in H. destruct (handle AT regular_memory h s) as [[ok s']| | |].
  - destruct H as (-> & H & _); [lia..|]. by exists ok, s'.
  - destruct H; lia.
  - rewrite H; [done|lia..].
  - destruct H; lia.
Qed.

Lemma handle_undefined_witness :
  let s := set_operands [1] (set_stack [7] (new_DwarfOp new_DwarfMemory)) in
  hazard uint64_t Op_pick s = true /\ handle uint64_t (bytes_memory []) Op_pick s = Undef.
Proof.
  split; [done|].
  apply (handle_undefined uint64_t (bytes_memory []) 0x15 Op_pick
           (set_operands [1] (set_stack [7] (new_DwarfOp new_DwarfMemory)))
           (bytes_memory_ok _ eq_refl)); try done.
  split; try done; by repeat constructor.
Defined.

(** A conditional branch that is not taken does not fall through:
    DW_OP_bra with a zero on top moves back by its operand.  Evaluating
    [lit5, lit0, bra +1, nop, nop] therefore runs into the operand of the
    branch and fails, while with [lit1] in place of [lit0] it yields 5. *)
Theorem op_bra_not_taken :
  outcome_map fst (Eval uint64_t (bytes_memory [0x35; 0x30; 0x28; 1; 0; 0x96; 0x96]) (bytes_memory [])
    0 7 4 (new_DwarfOp new_DwarfMemory)) = Ok false /\
  outcome_map (fun p => (p.1, stack_ p.2))
    (Eval uint64_t (bytes_memory [0x35; 0x31; 0x28; 1; 0; 0x96; 0x96]) (bytes_memory [])
       0 7 4 (new_DwarfOp new_DwarfMemory)) = Ok (true, [5]).
Proof. by vm_compute. Qed.
