(* ===== verification/DwarfExpr.v ===== *)
(** * DwarfExpr: the expression evaluator against a semantics of expressions

    Arithmetic expressions over constants, registers and memory, with a
    semantics on machine integers and the usual translation to DWARF postfix
    code.  The theorem is that [DwarfOp::Eval] of the translation computes the
    value of the expression. *)

From S2P Require Import Prelude Memory DwarfMemory Regs DwarfOpTable DwarfOp.

Inductive unop := Abs | Neg | Not.

Inductive binop :=
| And | Div | Minus | Mod | Mul | Or | Plus | Shl | Shr | Shra | Xor | Eq | Ge | Gt | Le | Lt | Ne.

Inductive expr :=
| Lit (k : Z)
| Constu (v : Z)
| Consts (v : Z)
| Breg (r offset : Z)
| Un (o : unop) (e : expr)
| Plus_uconst (e : expr) (v : Z)
| Deref (e : expr)
| Bin (o : binop) (e1 e2 : expr).

Definition unop_code (o : unop) : Z := match o with Abs => 0x19 | Neg => 0x1f | Not => 0x20 end.

Definition binop_code (o : binop) : Z :=
  match o with
  | And => 0x1a | Div => 0x1b | Minus => 0x1c | Mod => 0x1d | Mul => 0x1e | Or => 0x21
  | Plus => 0x22 | Shl => 0x24 | Shr => 0x25 | Shra => 0x26 | Xor => 0x27 | Eq => 0x29
  | Ge => 0x2a | Gt => 0x2b | Le => 0x2c | Lt => 0x2d | Ne => 0x2e
  end.

Fixpoint compile (e : expr) : list Z :=
  match e with
  | Lit k => [0x30 + k]
  | Constu v => 0x10 :: uleb128_encode 10 v
  | Consts v => 0x11 :: sleb128_encode 10 v
  | Breg r offset => (0x70 + r) :: sleb128_encode 10 offset
  | Un o e => compile e ++ [unop_code o]
  | Plus_uconst e v => compile e ++ 0x23 :: uleb128_encode 10 v
  | Deref e => compile e ++ [0x06]
  | Bin o e1 e2 => compile e1 ++ compile e2 ++ [binop_code o]
  end.

(** The number of operations. *)
Fixpoint ops_count (e : expr) : nat :=
  match e with
  | Lit _ | Constu _ | Consts _ | Breg _ _ => 1
  | Un _ e | Plus_uconst e _ | Deref e => S (ops_count e)
  | Bin _ e1 e2 => S (ops_count e1 + ops_count e2)
  end.

Section Expr.
Context (AT : AddressType) (regular_memory : Memory) (regs : Regs).

Local Abbreviation w := (bits AT).

(** The value of an expression: arithmetic modulo 2^w, division and the
    arithmetic shift on the signed reading, comparisons on the unsigned one.
    [None] where the operation has no value. *)
Definition unop_value (o : unop) (x : Z) : option Z :=
  match o with
  | Not => Some (uwrap w (Z.lnot x))
  | Neg => if swrap w x =? - 2 ^ (w - 1) then None else Some (uwrap w (- x))
  | Abs => if swrap w x =? - 2 ^ (w - 1) then None else Some (uwrap w (Z.abs (swrap w x)))
  end.

Definition truth (b : bool) : option Z := Some (if b then 1 else 0).

Definition binop_value (o : binop) (x y : Z) : option Z :=
  match o with
  | And => Some (Z.land x y)
  | Or => Some (Z.lor x y)
  | Xor => Some (Z.lxor x y)
  | Plus => Some (uwrap w (x + y))
  | Minus => Some (uwrap w (x - y))
  | Mul => Some (uwrap w (x * y))
  | Div => if y =? 0 then None
           else if (swrap w y =? -1) && (swrap w x =? - 2 ^ (w - 1)) then None
           else Some (uwrap w (Z.quot (swrap w x) (swrap w y)))
  | Mod => if y =? 0 then None else Some (x mod y)
  | Shl => if y <? w then Some (uwrap w (x * 2 ^ y)) else None
  | Shr => if y <? w then Some (x / 2 ^ y) else None
  | Shra => if y <? w then Some (uwrap w (swrap w x / 2 ^ y)) else None
  | Eq => truth (x =? y)
  | Ne => truth (negb (x =? y))
  | Ge => truth (y <=? x)
  | Gt => truth (y <? x)
  | Le => truth (x <=? y)
  | Lt => truth (x <? y)
  end.

Fixpoint value (e : expr) : option Z :=
  match e with
  | Lit k => if (0 <=? k) && (k <? 32) then Some k else None
  | Constu v => if (0 <=? v) && (v <? 2 ^ w) then Some v else None
  | Consts v => if (- 2 ^ 62 <=? v) && (v <? 2 ^ 63) then Some (uwrap w v) else None
  | Breg r offset =>
      if (0 <=? r) && (r <? 32) && (r <? total_regs regs) && (- 2 ^ 62 <=? offset) && (offset <? 2 ^ 63)
      then Some (uwrap w (reg regs r + offset)) else None
  | Un o e => value e ≫= unop_value o
  | Plus_uconst e v =>
      if (0 <=? v) && (v <? 2 ^ 64) then value e ≫= fun x => Some (uwrap w (x + v)) else None
  | Deref e => value e ≫= fun x => le_combine <$> Read regular_memory x (sizeof AT)
  | Bin o e1 e2 => x ← value e1; y ← value e2; binop_value o x y
  end.

End Expr.

(** ** One operation *)

(** What the table says of opcode [c]. *)
Definition entry (c : Z) (h : OpHandler) (required : Z) (es : list Z) : Prop :=
  handle_func (op_callback c) = Some h /\ supported_version (op_callback c) = 2 /\
  num_required_stack_values (op_callback c) = required /\
  num_operands (op_callback c) = lengthZ es /\ operands (op_callback c) = es.

#[global] Instance entry_dec c h required es : Decision (entry c h required es).
Proof. unfold entry. apply _. Defined.

Lemma lit_entry k : 0 <= k < 32 -> entry (0x30 + k) Op_lit 0 [].
Proof.
  intros Hk. assert (Forall (fun k => entry (0x30 + k) Op_lit 0 []) (seqZ 0 32)) as H by by_decide.
  rewrite Forall_forall in H. apply H, elem_of_seqZ. lia.
Qed.

Lemma breg_entry r : 0 <= r < 32 -> entry (0x70 + r) Op_breg 0 [DW_EH_PE_sleb128].
Proof.
  intros Hr. assert (Forall (fun r => entry (0x70 + r) Op_breg 0 [DW_EH_PE_sleb128]) (seqZ 0 32)) as H
    by by_decide.
  rewrite Forall_forall in H. apply H, elem_of_seqZ. lia.
Qed.

(** The state in which [Decode] calls the handler of [c], [n] bytes on and with
    operands [ops]. *)
Definition fetched (c : Z) (ops : list Z) (n : Z) (s : DwarfOp) : DwarfOp :=
  set_operands ops (set_cur_op c (set_memory (advance n (memory_ s))
    (set_last_error DWARF_ERROR_NONE s))).

Section Run.
Context (AT : AddressType) (mem regular_memory : Memory) {OK : MemoryOk mem}.
Context (version : Z) (Hversion : 2 <= version).

Lemma Decode_fetch s c h required es bs ops :
  entry c h required es -> required <= StackSize s ->
  0 <= cur_offset_ (memory_ s) -> holds mem (cur_offset_ (memory_ s)) (c :: bs) ->
  (es = [] /\ bs = [] /\ ops = [] \/
   exists e v, es = [e] /\ ops = [uwrap (bits AT) v] /\
   ReadEncodedValue mem AT e (advance 1 (memory_ s)) =
     Ok (Some v, advance (1 + lengthZ bs) (memory_ s))) ->
  Decode AT mem regular_memory version s =
    handle AT regular_memory h (fetched c ops (1 + lengthZ bs) s).
Proof.
  intros (Hh & Hv & Hreq & Hn & He) Hst Hc H Hops. apply holds_cons in H as [H1 H2]; [|done|done].
  unfold Decode. unfold bind at 1. unfold modify at 1. unfold bind at 1, on_memory at 1, lift.
  rewrite (ReadUnsigned_holds mem _ 1 [c]) by done. cbn [outcome_map le_combine].
  replace (c + 256 * 0) with c by lia. unfold bind at 1, modify at 1. rewrite Hh.
  rewrite (proj2 (Z.ltb_ge version _)) by lia. unfold bind at 1, get at 1.
  change (StackSize (set_cur_op _ _)) with (StackSize s).
  rewrite (proj2 (Z.ltb_ge (StackSize s) _)) by lia. unfold bind at 1, modify at 1.
  rewrite He, take_ge by (unfold lengthZ in Hn; lia).
  destruct Hops as [(-> & -> & ->)|(e & v & -> & -> & Hread)]; [by destruct s|].
  cbn [read_operands]. unfold bind, on_memory, lift.
  change (memory_ (set_operands _ _)) with (advance 1 (memory_ s)). rewrite Hread.
  by destruct s.
Qed.

(** An opcode without operand, and one with a LEB128 operand. *)
Lemma Decode_plain s c h required : entry c h required [] -> required <= StackSize s ->
  0 <= cur_offset_ (memory_ s) -> holds mem (cur_offset_ (memory_ s)) [c] ->
  Decode AT mem regular_memory version s = handle AT regular_memory h (fetched c [] 1 s).
Proof. intros He Hst Hc H. rewrite (Decode_fetch s c h required [] [] []); auto. Qed.

Lemma Decode_uleb s c h required v : entry c h required [DW_EH_PE_uleb128] ->
  required <= StackSize s -> in_unsigned 64 v -> 0 <= cur_offset_ (memory_ s) ->
  holds mem (cur_offset_ (memory_ s)) (c :: uleb128_encode 10 v) ->
  Decode AT mem regular_memory version s =
    handle AT regular_memory h
      (fetched c [uwrap (bits AT) v] (1 + lengthZ (uleb128_encode 10 v)) s).
Proof.
  intros He Hst Hin Hc H. pose proof H as H'. apply holds_cons in H' as [_ H2]; [|done|done].
  apply (Decode_fetch s c h required [DW_EH_PE_uleb128] (uleb128_encode 10 v)); try done.
  right. exists DW_EH_PE_uleb128, v. split_and!; [done..|]. rewrite ReadEncodedValue_plain by done.
  change (ReadEncodedData mem AT DW_EH_PE_uleb128) with (ReadULEB128 mem).
  rewrite (ReadULEB128_encode mem _ v); [by rewrite advance_advance|simpl; lia|done|done].
Qed.

Lemma Decode_sleb s c h required v : entry c h required [DW_EH_PE_sleb128] ->
  required <= StackSize s -> - 2 ^ 62 <= v < 2 ^ 63 -> 0 <= cur_offset_ (memory_ s) ->
  holds mem (cur_offset_ (memory_ s)) (c :: sleb128_encode 10 v) ->
  Decode AT mem regular_memory version s =
    handle AT regular_memory h
      (fetched c [uwrap (bits AT) v] (1 + lengthZ (sleb128_encode 10 v)) s).
Proof.
  intros He Hst Hin Hc H. pose proof H as H'. apply holds_cons in H' as [_ H2]; [|done|done].
  rewrite <- (uwrap_uwrap (bits AT) 64 v) by (by destruct AT).
  apply (Decode_fetch s c h required [DW_EH_PE_sleb128] (sleb128_encode 10 v)); try done.
  right. exists DW_EH_PE_sleb128, (u64 v). split_and!; [done..|]. rewrite ReadEncodedValue_plain by done.
  change (ReadEncodedData mem AT DW_EH_PE_sleb128) with
    (let? signed_value := ReadSLEB128 mem else ret None in ret (Some (u64 signed_value))).
  unfold bind. rewrite (ReadSLEB128_encode mem _ v); [by rewrite advance_advance|simpl; lia|done|done].
Qed.

End Run.

(** ** The operators *)

Definition unop_handler (o : unop) : OpHandler :=
  match o with Abs => Op_abs | Neg => Op_neg | Not => Op_not end.

Definition binop_handler (o : binop) : OpHandler :=
  match o with
  | And => Op_and | Div => Op_div | Minus => Op_minus | Mod => Op_mod | Mul => Op_mul | Or => Op_or
  | Plus => Op_plus | Shl => Op_shl | Shr => Op_shr | Shra => Op_shra | Xor => Op_xor | Eq => Op_eq
  | Ge => Op_ge | Gt => Op_gt | Le => Op_le | Lt => Op_lt | Ne => Op_ne
  end.

#[local] Arguments uwrap : simpl never.
#[local] Arguments swrap : simpl never.
#[local] Arguments bits : simpl never.
#[local] Arguments fits_signed : simpl never.

Section Operators.
Context (AT : AddressType) (regular_memory : Memory).

Lemma uwrap_opp_swrap x : uwrap (bits AT) (- swrap (bits AT) x) = uwrap (bits AT) (- x).
Proof.
  unfold uwrap, swrap. rewrite <- (Zminus_mod_idemp_r 0 x), <- (Zminus_mod_idemp_r 0 (_ - _)), !Z.sub_0_l.
  f_equal. f_equal. rewrite Zminus_mod_idemp_l. f_equal. lia.
Qed.

Lemma handle_unop o x v st s : stack_ s = x :: st -> unop_value AT o x = Some v ->
  handle AT regular_memory (unop_handler o) s = Ok (true, set_stack (v :: st) s).
Proof.
  destruct s as [d rp ir le op ops st0]. simpl. intros -> Hv. pose proof (swrap_AT AT x) as Hs.
  pose proof (fits_neg AT (swrap (bits AT) x) Hs) as Hf.
  destruct o; simpl in Hv; [destruct (_ =? _) eqn:E in Hv; [done|]..|]; simplify_eq; run_op; cbn.
  - rewrite Hf, E. destruct (Z.ltb_spec (swrap (bits AT) x) 0); cbn.
    + by rewrite Z.abs_neq by lia.
    + by rewrite Z.abs_eq by lia.
  - rewrite Hf, E. cbn. by rewrite uwrap_opp_swrap.
  - done.
Qed.

Lemma handle_binop o x y v st s : in_unsigned (bits AT) y -> stack_ s = y :: x :: st ->
  binop_value AT o x y = Some v ->
  handle AT regular_memory (binop_handler o) s = Ok (true, set_stack (v :: st) s).
Proof.
  destruct s as [d rp ir le op ops st0]. simpl. intros Hy -> Hv.
  pose proof (swrap_AT AT x) as Hs. pose proof (swrap_AT AT y) as Hsy.
  pose proof (fits_quot AT _ _ Hs Hsy) as Hf.
  destruct o; simpl in Hv; unfold truth in Hv; simplify_eq; try done; run_op; cbn.
  - destruct (y =? 0) eqn:E0; [done|]. cbn. rewrite Hf by (intros ?%swrap_zero; [lia|done]).
    destruct (_ && _) eqn:E1; [done|]. cbn. by simplify_eq.
  - destruct (y =? 0) eqn:E0; [done|]. cbn. by simplify_eq.
  - destruct (y <? bits AT) eqn:E0; [|done]. cbn. simplify_eq.
    by rewrite Z.shiftl_mul_pow2 by apply Hy.
  - destruct (y <? bits AT) eqn:E0; [|done]. cbn. simplify_eq.
    by rewrite Z.shiftr_div_pow2 by apply Hy.
  - destruct (y <? bits AT) eqn:E0; [|done]. cbn. simplify_eq.
    by rewrite Z.shiftr_div_pow2 by apply Hy.
Qed.

End Operators.

(** ** Running a compiled expression *)

Section Simulation.
Context (AT : AddressType) (mem regular_memory : Memory) {OK : MemoryOk mem} {OKr : MemoryOk regular_memory}.
Context (regs : Regs) (regs_wf : regs_ok regs).
Context (end_ version : Z) (Hversion : 2 <= version).

(** [n] rounds of the loop of [Eval] that all decode successfully. *)
Inductive steps : nat -> DwarfOp -> DwarfOp -> Prop :=
| steps_O s : steps 0 s s
| steps_S n s s1 s2 : cur_offset_ (memory_ s) < end_ ->
    Decode AT mem regular_memory version s = Ok (true, s1) -> steps n s1 s2 -> steps (S n) s s2.

Lemma steps_app n m s1 s2 s3 : steps n s1 s2 -> steps m s2 s3 -> steps (n + m) s1 s3.
Proof. induction 1; intros H3; simpl; [done|]. econstructor; eauto. Qed.

Lemma steps_one s s1 : cur_offset_ (memory_ s) < end_ ->
  Decode AT mem regular_memory version s = Ok (true, s1) -> steps 1 s s1.
Proof. intros. econstructor; [done|done|constructor]. Qed.

Lemma iter_steps n s s' m i : steps n s s' -> 0 <= i -> i + Z.of_nat n <= 1000 ->
  iter (n + m) (Eval_round AT mem regular_memory end_ version) i s =
  iter m (Eval_round AT mem regular_memory end_ version) (i + Z.of_nat n) s'.
Proof.
  intros H. revert i. induction H as [s|n s s1 s2 Hlt HD Hsteps IH]; intros i Hi Hn.
  - simpl. by rewrite Z.add_0_r.
  - cbn [iter Nat.add]. unfold bind at 1. unfold Eval_round at 1, bind at 1, get at 1.
    rewrite (proj2 (Z.ltb_lt _ _)) by done. unfold bind at 1. rewrite HD.
    rewrite (proj2 (Z.eqb_neq i 1000)) by lia. unfold ret.
    rewrite uwrap_small by (unfold in_unsigned; lia). rewrite IH by lia. f_equal. lia.
Qed.

(** What execution has done so far: [n] bytes consumed, registers and the
    register flag untouched. *)
Record reached (n : Z) (s s' : DwarfOp) : Prop := {
  reached_memory : memory_ s' = advance n (memory_ s);
  reached_regs : regs_ptr_ s' = regs_ptr_ s;
  reached_flag : is_register_ s' = is_register_ s
}.

Lemma reached_refl s : reached 0 s s.
Proof. split; try done. destruct (memory_ s). unfold advance, set_cur_offset. simpl. f_equal. lia. Qed.

Lemma reached_trans n m s1 s2 s3 : reached n s1 s2 -> reached m s2 s3 -> reached (n + m) s1 s3.
Proof.
  intros [E1 E2 E3] [F1 F2 F3]. split; [|congruence..]. by rewrite F1, E1, advance_advance.
Qed.

(** The effect of a compiled expression: its value on the stack. *)
Definition pushes (v n : Z) (s s' : DwarfOp) : Prop := stack_ s' = v :: stack_ s /\ reached n s s'.

(** Where [n] bytes of code may start. *)
Record ready (n : Z) (s : DwarfOp) : Prop := {
  ready_cur : 0 <= cur_offset_ (memory_ s);
  ready_end : cur_offset_ (memory_ s) + n <= end_;
  ready_regs : regs_ptr_ s = Some regs
}.

Lemma ready_reached n k s s' : 0 <= k -> ready (k + n) s -> reached k s s' -> ready n s'.
Proof. intros Hk [H1 H2 H3] [E2 E3 E4]. split; rewrite ?E2, ?E3; simpl; lia || done. Qed.

Lemma ready_le n k s : 0 <= k -> ready (n + k) s -> ready n s.
Proof. intros Hk [H1 H2 H3]. split; lia || done. Qed.

Lemma value_range e v : value AT regular_memory regs e = Some v -> in_unsigned (bits AT) v.
Proof.
  revert v. induction e as [k|c|c|r o|o e IH|e IH c|e IH|o e1 IH1 e2 IH2]; intros v Hv; cbn [value] in Hv.
  - split_cases. destruct AT; unfold in_unsigned, bits; simpl in *; lia.
  - split_cases. unfold in_unsigned. lia.
  - split_cases. apply in_AT_wrap.
  - split_cases. apply in_AT_wrap.
  - destruct (value AT regular_memory regs e) as [x|]; [|done]. simpl in Hv.
    destruct o; simpl in Hv; split_cases; apply in_AT_wrap.
  - split_cases. destruct (value AT regular_memory regs e) as [x|]; [|done]. simplify_eq/=.
    apply in_AT_wrap.
  - destruct (value AT regular_memory regs e) as [x|]; [|done]. simpl in Hv.
    destruct (Read regular_memory x (sizeof AT)) as [bs|] eqn:E; [|done]. simplify_eq/=.
    apply (Read_value AT regular_memory (OK := OKr) x (sizeof AT)); [by apply (IH x)|by destruct AT|done].
  - destruct (value AT regular_memory regs e1) as [x|]; [|done].
    destruct (value AT regular_memory regs e2) as [y|]; [|done]. simpl in Hv.
    specialize (IH1 _ eq_refl). specialize (IH2 _ eq_refl).
    destruct o; cbn [binop_value] in Hv; unfold truth in Hv; split_cases; auto with cpp;
      try (by destruct AT, (_ =? _) || destruct AT, (_ <=? _) || destruct AT, (_ <? _)).
    + apply in_AT_mod; [done|done|lia].
    + rewrite <- Z.shiftr_div_pow2 by apply IH2. apply in_AT_shiftr; [done|apply IH2].
Qed.

(** One operation of [n] bytes, from the state its operands have led to. *)
Lemma instr_pushes s0 s1 c ops n h v k :
  reached k s0 s1 -> 0 <= k -> 0 < n -> ready (k + n) s0 ->
  Decode AT mem regular_memory version s1 = handle AT regular_memory h (fetched c ops n s1) ->
  handle AT regular_memory h (fetched c ops n s1)
    = Ok (true, set_stack (v :: stack_ s0) (fetched c ops n s1)) ->
  exists s', steps 1 s1 s' /\ pushes v (k + n) s0 s'.
Proof.
  intros [E2 E3 E4] Hk Hn [H1 H2 _] HD Hrun. eexists. split.
  - apply steps_one; [rewrite E2; simpl; lia|]. by rewrite HD.
  - split; [done|]. split; simpl; [|done|done]. rewrite E2. apply advance_advance.
Qed.

Lemma first_pushes s c ops n h v : 0 < n -> ready n s ->
  Decode AT mem regular_memory version s = handle AT regular_memory h (fetched c ops n s) ->
  handle AT regular_memory h (fetched c ops n s)
    = Ok (true, set_stack (v :: stack_ s) (fetched c ops n s)) ->
  exists s', steps 1 s s' /\ pushes v n s s'.
Proof.
  intros Hn Hr HD Hrun. apply (instr_pushes s s c ops n h v 0 (reached_refl s)); try done.
Qed.

Lemma lengthZ_pos {A} (l : list A) : 0 <= lengthZ l.
Proof. unfold lengthZ. lia. Qed.

(** The leaves. *)
Lemma compile_leaf e v s :
  match e with Lit _ | Constu _ | Consts _ | Breg _ _ => True | _ => False end ->
  value AT regular_memory regs e = Some v ->
  ready (lengthZ (compile e)) s -> holds mem (cur_offset_ (memory_ s)) (compile e) ->
  exists s', steps 1 s s' /\ pushes v (lengthZ (compile e)) s s'.
Proof.
  intros Hleaf Hv Hr H. pose proof (ready_cur _ _ Hr) as Hcur.
  assert (0 <= StackSize s) as Hst by apply lengthZ_pos.
  destruct e as [k|c|c|r o| | | |]; try done; cbn [value compile] in *; rewrite ?lengthZ_cons in *;
    match goal with |- context [lengthZ ?l] => pose proof (lengthZ_pos l) end.
  - destruct (_ && _) eqn:Hk in Hv; [|done]. simplify_eq.
    eapply first_pushes; [unfold lengthZ; simpl; lia|done|..].
    + apply (Decode_plain AT mem regular_memory version Hversion s _ _ _ (lit_entry v ltac:(lia))); done.
    + destruct s. run_op. cbn. replace (0x30 + v - 0x30) with v by lia.
      by rewrite uwrap_small by (destruct AT; unfold in_unsigned, bits; simpl; lia).
  - destruct (_ && _) eqn:Hk in Hv; [|done]. simplify_eq.
    assert (in_unsigned (bits AT) v) as Hin by (unfold in_unsigned; lia).
    eapply first_pushes; [lia|done|..].
    + apply (Decode_uleb AT mem regular_memory version Hversion s 0x10 Op_push 0 v);
        [by_decide|done| |done|done]. by apply (in_unsigned_mono (bits AT)); [destruct AT|].
    + destruct s. run_op. cbn. by rewrite uwrap_small.
  - destruct (_ && _) eqn:Hk in Hv; [|done]. simplify_eq. eapply first_pushes; [lia|done|..].
    + apply (Decode_sleb AT mem regular_memory version Hversion s 0x11 Op_push 0 c);
        [by_decide|done|lia|done|done].
    + by destruct s.
  - destruct (_ && _) eqn:Hk in Hv; [|done]. simplify_eq. eapply first_pushes; [lia|done|..].
    + apply (Decode_sleb AT mem regular_memory version Hversion s (0x70 + r) Op_breg 0 o);
        [apply breg_entry; lia|done|lia|done|done].
    + pose proof (ready_regs _ _ Hr) as Hregs. pose proof (regs_ok_length regs regs_wf) as Hlen.
      destruct s. simpl in Hregs. subst. run_op. cbn.
      replace (0x70 + r - 0x70) with r by lia. rewrite uwrap_small by (unfold in_unsigned; lia).
      rewrite (proj2 (Z.leb_gt _ _)) by lia. unfold reg.
      rewrite (list_lookup_lookup_total_lt (regs_ regs) (Z.to_nat r)) by (unfold lengthZ in Hlen; lia).
      cbn. by rewrite uwrap_add_r.
Qed.

(** An operator after code that has left its operands on the stack. *)
Lemma operator_steps n k s s1 c v args h required :
  steps n s s1 -> reached k s s1 -> 0 <= k -> ready (k + 1) s ->
  stack_ s1 = args ++ stack_ s -> entry c h required [] -> required <= lengthZ args ->
  holds mem (cur_offset_ (memory_ s) + k) [c] ->
  (forall s2, stack_ s2 = args ++ stack_ s ->
     handle AT regular_memory h s2 = Ok (true, set_stack (v :: stack_ s) s2)) ->
  exists s', steps (S n) s s' /\ pushes v (k + 1) s s'.
Proof.
  intros Hs Hre Hk Hr Hst He Hreq H Hrun. pose proof (ready_cur _ _ Hr) as Hcur.
  destruct (instr_pushes s s1 c [] 1 h v k) as (s' & Hs' & Hp); try done.
  - apply (Decode_plain AT mem regular_memory version Hversion s1 c h required); [done| | |].
    + unfold StackSize. rewrite Hst, lengthZ_app. pose proof (lengthZ_pos (stack_ s)). lia.
    + rewrite (reached_memory _ _ _ Hre). simpl. lia.
    + by rewrite (reached_memory _ _ _ Hre).
  - by apply Hrun.
  - exists s'. split; [|done]. replace (S n) with (n + 1)%nat by lia. by eapply steps_app.
Qed.

Lemma handle_deref x bs st s : stack_ s = x :: st ->
  Read regular_memory x (sizeof AT) = Some bs ->
  handle AT regular_memory Op_deref s = Ok (true, set_stack (le_combine bs :: st) s).
Proof. destruct s. simpl. intros -> H. run_op. cbn. by rewrite H. Qed.

Lemma plus_uconst_steps n k s s1 x c :
  steps n s s1 -> reached k s s1 -> 0 <= k -> in_unsigned 64 c ->
  ready (k + lengthZ (0x23 :: uleb128_encode 10 c)) s -> stack_ s1 = x :: stack_ s ->
  holds mem (cur_offset_ (memory_ s) + k) (0x23 :: uleb128_encode 10 c) ->
  exists s', steps (S n) s s' /\
    pushes (uwrap (bits AT) (x + c)) (k + lengthZ (0x23 :: uleb128_encode 10 c)) s s'.
Proof.
  intros Hs Hre Hk Hc Hr Hst H. pose proof (ready_cur _ _ Hr) as Hcur. rewrite lengthZ_cons in *.
  pose proof (lengthZ_pos (uleb128_encode 10 c)).
  destruct (instr_pushes s s1 0x23 [uwrap (bits AT) c] (1 + lengthZ (uleb128_encode 10 c))
              Op_plus_uconst (uwrap (bits AT) (x + c)) k) as (s' & Hs' & Hp); try done; [lia|..].
  - apply (Decode_uleb AT mem regular_memory version Hversion s1 0x23 Op_plus_uconst 1 c);
      [by_decide| |done| |].
    + unfold StackSize. rewrite Hst, lengthZ_cons. pose proof (lengthZ_pos (stack_ s)). lia.
    + rewrite (reached_memory _ _ _ Hre). simpl. lia.
    + by rewrite (reached_memory _ _ _ Hre).
  - destruct s1. simpl in Hst. subst. run_op. cbn. by rewrite uwrap_add_r.
  - exists s'. split; [|done]. replace (S n) with (n + 1)%nat by lia. by eapply steps_app.
Qed.

Ltac split_code H Hr :=
  rewrite ?lengthZ_app in *; apply holds_app in H as [?Ha ?Hb]; [|done|apply Hr].

Ltac sub_ready Hr := eapply ready_le; [|exact Hr]; apply lengthZ_pos.

Lemma compile_steps e : forall v s, value AT regular_memory regs e = Some v ->
  ready (lengthZ (compile e)) s -> holds mem (cur_offset_ (memory_ s)) (compile e) ->
  exists s', steps (ops_count e) s s' /\ pushes v (lengthZ (compile e)) s s'.
Proof.
  induction e as [k|c|c|r o|o e IH|e IH c|e IH|o e1 IH1 e2 IH2]; intros v s Hv Hr H;
    try (by apply compile_leaf); cbn [value compile ops_count] in *.
  - destruct (value AT regular_memory regs e) as [x|]; [|done]. simpl in Hv. split_code H Hr.
    destruct (IH x s eq_refl) as (s1 & Hs1 & Hst & Hp); [sub_ready Hr|done|].
    eapply (operator_steps _ _ s s1 (unop_code o) v [x] (unop_handler o) 1);
      [done|done|apply lengthZ_pos|done|done|by destruct o; by_decide|done|done|].
    intros s2 E. by eapply handle_unop.
  - destruct (_ && _) eqn:Hc in Hv; [|done].
    destruct (value AT regular_memory regs e) as [x|]; [|done]. simplify_eq/=. split_code H Hr.
    destruct (IH x s eq_refl) as (s1 & Hs1 & Hst & Hp); [sub_ready Hr|done|].
    eapply plus_uconst_steps; [done|done|apply lengthZ_pos|unfold in_unsigned; lia|done|done|done].
  - destruct (value AT regular_memory regs e) as [x|]; [|done]. simpl in Hv. split_code H Hr.
    destruct (IH x s eq_refl) as (s1 & Hs1 & Hst & Hp); [sub_ready Hr|done|].
    destruct (Read regular_memory x (sizeof AT)) as [bs|] eqn:E; simplify_eq/=.
    eapply (operator_steps _ _ s s1 0x06 _ [x] Op_deref 1);
      [done|done|apply lengthZ_pos|done|done|by_decide|done|done|].
    intros s2 E2. by eapply handle_deref.
  - destruct (value AT regular_memory regs e1) as [x|]; [|done].
    destruct (value AT regular_memory regs e2) as [y|] eqn:Ey; [|done]. simpl in Hv.
    pose proof (value_range e2 y Ey) as Hy. pose proof (ready_cur _ _ Hr) as Hcur.
    pose proof (lengthZ_pos (compile e1)). pose proof (lengthZ_pos (compile e2)).
    split_code H Hr. apply holds_app in Hb as [Hb Hc]; [|done|lia]. rewrite Z.add_assoc in *.
    pose proof (ready_le _ _ _ (lengthZ_pos [binop_code o]) Hr) as Hr12.
    destruct (IH1 x s eq_refl) as (s1 & Hs1 & Hst1 & Hp1); [sub_ready Hr12|done|].
    destruct (IH2 y s1 eq_refl) as (s2 & Hs2 & Hst2 & Hp2).
    { eapply ready_reached; [|exact Hr12|exact Hp1]. lia. }
    { by rewrite (reached_memory _ _ _ Hp1). }
    eapply (operator_steps _ _ s s2 (binop_code o) v [y; x] (binop_handler o) 2);
      [by eapply steps_app|by eapply reached_trans|lia|done|by rewrite Hst2, Hst1
      |by destruct o; by_decide|done|by rewrite Z.add_assoc|].
    intros s3 E. by apply (handle_binop AT regular_memory o x y).
Qed.

End Simulation.

(** C16: evaluating the translation of an expression computes its value: when
    the code is in memory, the expression has a value and at most 1000
    operations, [Eval] returns true with that value as the only stack element,
    not flagged as a register, and leaves the registers alone. *)
Theorem Eval_compile AT mem regular_memory regs version e v start s :
  MemoryOk mem -> MemoryOk regular_memory -> regs_ok regs -> 2 <= version ->
  0 <= start -> holds mem start (compile e) -> (ops_count e <= 1000)%nat ->
  regs_ptr_ s = Some regs -> value AT regular_memory regs e = Some v ->
  exists s', Eval AT mem regular_memory start (start + lengthZ (compile e)) version s = Ok (true, s') /\
    stack_ s' = [v] /\ is_register_ s' = false /\ regs_ptr_ s' = Some regs.
Proof.
  intros OKm OKr Hregs Hver Hstart H Hn Hr Hv.
  set (s0 := set_memory (set_cur_offset start (memory_ s)) (set_stack [] (set_is_register false s))).
  destruct (compile_steps AT mem regular_memory regs Hregs (start + lengthZ (compile e)) version Hver
              e v s0 Hv) as (s' & Hs & Hst & Hre); [|done|].
  { split; simpl; lia || done. }
  exists s'. split_and!; [|done|apply (reached_flag _ _ _ Hre)|by rewrite (reached_regs _ _ _ Hre)].
  unfold Eval. change (iter 1002 (Eval_round AT mem regular_memory (start + lengthZ (compile e)) version) 0 s0
    = Ok (true, s')).
  replace 1002%nat with (ops_count e + (1002 - ops_count e))%nat by lia.
  erewrite iter_steps; [|done|lia|lia].
  destruct (1002 - ops_count e)%nat as [|m] eqn:E; [lia|]. cbn [iter]. unfold bind at 1.
  unfold Eval_round, bind at 1, get. rewrite (reached_memory _ _ _ Hre). simpl.
  by rewrite (proj2 (Z.ltb_ge _ _)) by lia.
Qed.

(** ((r5 + 8) dereferenced) - 3 < 0x100 on a 32-bit machine whose r5 is 4. *)
Definition sample_expr : expr :=
  Bin Lt (Bin Minus (Deref (Plus_uconst (Breg 5 0) 8)) (Lit 3)) (Constu 0x100).

Lemma Eval_compile_witness :
  exists s', Eval uint32_t (bytes_memory (compile sample_expr)) (bytes_memory (seqZ 0 32)) 0
               (lengthZ (compile sample_expr)) 2
               (set_regs (set_reg 5 4 (new_Regs Arm 0 0)) (new_DwarfOp new_DwarfMemory)) = Ok (true, s') /\
    stack_ s' = [0] /\ is_register_ s' = false /\
    regs_ptr_ s' = Some (set_reg 5 4 (new_Regs Arm 0 0)).
Proof.
  apply (Eval_compile uint32_t (bytes_memory (compile sample_expr)) (bytes_memory (seqZ 0 32))
           (set_reg 5 4 (new_Regs Arm 0 0)) 2 sample_expr 0 0
           (set_regs (set_reg 5 4 (new_Regs Arm 0 0)) (new_DwarfOp new_DwarfMemory)));
    try done; try (by apply bytes_memory_ok).
  - by apply set_reg_ok; [apply new_Regs_ok|].
  - simpl. lia.
Defined.
