(* ===== verification/DwarfCfa.v ===== *)
(** * DwarfCfa: the call frame instructions (libunwindstack/DwarfCfa.cpp,
    DwarfCfa.h, DwarfLocation.h, DwarfStructs.h)

    [GetLocationInfo] interprets the instructions of a CIE or an FDE and builds
    the map from registers to their locations.  The logging half of the class
    is not modelled. *)

From S2P Require Import Prelude Memory DwarfMemory.

(** ** DwarfLocation.h and DwarfStructs.h *)

Inductive DwarfLocationEnum :=
| DWARF_LOCATION_INVALID
| DWARF_LOCATION_UNDEFINED
| DWARF_LOCATION_OFFSET
| DWARF_LOCATION_VAL_OFFSET
| DWARF_LOCATION_REGISTER
| DWARF_LOCATION_EXPRESSION
| DWARF_LOCATION_VAL_EXPRESSION.

#[global] Instance DwarfLocationEnum_eq_dec : EqDecision DwarfLocationEnum.
Proof. solve_decision. Defined.

(** [values[0]] and [values[1]]; an aggregate initialiser leaves what it does
    not name at zero. *)
Record DwarfLocation := mkLoc { type : DwarfLocationEnum; values0 : Z; values1 : Z }.

#[global] Instance DwarfLocation_eq_dec : EqDecision DwarfLocation.
Proof. solve_decision. Defined.

(** std::unordered_map<uint16_t, DwarfLocation> *)
Abbreviation dwarf_loc_regs_t := (gmap Z DwarfLocation).

Record DwarfCie := mkCie {
  version : Z;
  fde_address_encoding : Z;
  lsda_encoding : Z;
  segment_size : Z;
  augmentation_string : list Z;
  personality_handler : Z;
  cie_cfa_instructions_offset : Z;
  cie_cfa_instructions_end : Z;
  code_alignment_factor : Z;
  data_alignment_factor : Z;
  return_address_register : Z
}.

Definition new_DwarfCie : DwarfCie := mkCie 0 0 0 0 [] 0 0 0 0 0 0.

Record DwarfFde := mkFde {
  cie_offset : Z;
  cfa_instructions_offset : Z;
  cfa_instructions_end : Z;
  pc_start : Z;
  pc_end : Z;
  lsda_address : Z;
  cie : option DwarfCie
}.

Definition new_DwarfFde : DwarfFde := mkFde 0 0 0 0 0 0 None.

Definition CFA_REG : Z := 2 ^ 16 - 1.

(** ** The tables *)

Inductive CfaHandler :=
| Cfa_nop | Cfa_set_loc | Cfa_advance_loc | Cfa_offset | Cfa_restore | Cfa_undefined
| Cfa_same_value | Cfa_register | Cfa_remember_state | Cfa_restore_state | Cfa_def_cfa
| Cfa_def_cfa_register | Cfa_def_cfa_offset | Cfa_def_cfa_expression | Cfa_expression
| Cfa_offset_extended_sf | Cfa_def_cfa_sf | Cfa_def_cfa_offset_sf | Cfa_val_offset
| Cfa_val_offset_sf | Cfa_val_expression | Cfa_gnu_negative_offset_extended.

#[global] Instance CfaHandler_eq_dec : EqDecision CfaHandler.
Proof. solve_decision. Defined.

(** [DwarfCfa::kCallbackTable[64]] *)
Definition kCallbackTable : list (option CfaHandler) :=
  map Some
    [Cfa_nop; Cfa_set_loc; Cfa_advance_loc; Cfa_advance_loc; Cfa_advance_loc; Cfa_offset;
     Cfa_restore; Cfa_undefined; Cfa_same_value; Cfa_register; Cfa_remember_state;
     Cfa_restore_state; Cfa_def_cfa; Cfa_def_cfa_register; Cfa_def_cfa_offset;
     Cfa_def_cfa_expression; Cfa_expression; Cfa_offset_extended_sf; Cfa_def_cfa_sf;
     Cfa_def_cfa_offset_sf; Cfa_val_offset; Cfa_val_offset_sf; Cfa_val_expression]
  ++ replicate 23 None (* 0x17 .. 0x2d *)
  ++ [Some Cfa_nop; Some Cfa_gnu_negative_offset_extended]
  ++ replicate 16 None. (* 0x30 .. 0x3f *)

Inductive DisplayType :=
| DWARF_DISPLAY_NONE
| DWARF_DISPLAY_REGISTER
| DWARF_DISPLAY_NUMBER
| DWARF_DISPLAY_SIGNED_NUMBER
| DWARF_DISPLAY_EVAL_BLOCK
| DWARF_DISPLAY_ADDRESS
| DWARF_DISPLAY_SET_LOC
| DWARF_DISPLAY_ADVANCE_LOC.

(** [DwarfCfaInfo::Info] *)
Record Info := mkInfo {
  info_name : option string;
  info_supported_version : Z;
  info_num_operands : Z;
  info_operands : list Z;
  info_display_operands : list DisplayType
}.

Definition illegal_cfa : Info := mkInfo None 0 0 [] [].

Open Scope string_scope.

(** [DwarfCfaInfo::kTable], 0x00 to 0x0e and from 0x0f on. *)
Definition kTable_low : list Info :=
  [mkInfo (Some "DW_CFA_nop") 2 0 [] [];
   mkInfo (Some "DW_CFA_set_loc") 2 1 [DW_EH_PE_absptr] [DWARF_DISPLAY_SET_LOC];
   mkInfo (Some "DW_CFA_advance_loc1") 2 1 [DW_EH_PE_udata1] [DWARF_DISPLAY_ADVANCE_LOC];
   mkInfo (Some "DW_CFA_advance_loc2") 2 1 [DW_EH_PE_udata2] [DWARF_DISPLAY_ADVANCE_LOC];
   mkInfo (Some "DW_CFA_advance_loc4") 2 1 [DW_EH_PE_udata4] [DWARF_DISPLAY_ADVANCE_LOC];
   mkInfo (Some "DW_CFA_offset_extended") 2 2 [DW_EH_PE_uleb128; DW_EH_PE_uleb128]
     [DWARF_DISPLAY_REGISTER; DWARF_DISPLAY_NUMBER];
   mkInfo (Some "DW_CFA_restore_extended") 2 1 [DW_EH_PE_uleb128] [DWARF_DISPLAY_REGISTER];
   mkInfo (Some "DW_CFA_undefined") 2 1 [DW_EH_PE_uleb128] [DWARF_DISPLAY_REGISTER];
   mkInfo (Some "DW_CFA_same_value") 2 1 [DW_EH_PE_uleb128] [DWARF_DISPLAY_REGISTER];
   mkInfo (Some "DW_CFA_register") 2 2 [DW_EH_PE_uleb128; DW_EH_PE_uleb128]
     [DWARF_DISPLAY_REGISTER; DWARF_DISPLAY_REGISTER];
   mkInfo (Some "DW_CFA_remember_state") 2 0 [] [];
   mkInfo (Some "DW_CFA_restore_state") 2 0 [] [];
   mkInfo (Some "DW_CFA_def_cfa") 2 2 [DW_EH_PE_uleb128; DW_EH_PE_uleb128]
     [DWARF_DISPLAY_REGISTER; DWARF_DISPLAY_NUMBER];
   mkInfo (Some "DW_CFA_def_cfa_register") 2 1 [DW_EH_PE_uleb128] [DWARF_DISPLAY_REGISTER];
   mkInfo (Some "DW_CFA_def_cfa_offset") 2 1 [DW_EH_PE_uleb128] [DWARF_DISPLAY_NUMBER]].

Definition kTable_high : list Info :=
  [mkInfo (Some "DW_CFA_def_cfa_expression") 2 1 [DW_EH_PE_block] [DWARF_DISPLAY_EVAL_BLOCK];
   mkInfo (Some "DW_CFA_expression") 2 2 [DW_EH_PE_uleb128; DW_EH_PE_block]
     [DWARF_DISPLAY_REGISTER; DWARF_DISPLAY_EVAL_BLOCK];
   mkInfo (Some "DW_CFA_offset_extended_sf") 2 2 [DW_EH_PE_uleb128; DW_EH_PE_sleb128]
     [DWARF_DISPLAY_REGISTER; DWARF_DISPLAY_SIGNED_NUMBER];
   mkInfo (Some "DW_CFA_def_cfa_sf") 2 2 [DW_EH_PE_uleb128; DW_EH_PE_sleb128]
     [DWARF_DISPLAY_REGISTER; DWARF_DISPLAY_SIGNED_NUMBER];
   mkInfo (Some "DW_CFA_def_cfa_offset_sf") 2 1 [DW_EH_PE_sleb128] [DWARF_DISPLAY_SIGNED_NUMBER];
   mkInfo (Some "DW_CFA_val_offset") 2 2 [DW_EH_PE_uleb128; DW_EH_PE_uleb128]
     [DWARF_DISPLAY_REGISTER; DWARF_DISPLAY_NUMBER];
   mkInfo (Some "DW_CFA_val_offset_sf") 2 2 [DW_EH_PE_uleb128; DW_EH_PE_sleb128]
     [DWARF_DISPLAY_REGISTER; DWARF_DISPLAY_SIGNED_NUMBER];
   mkInfo (Some "DW_CFA_val_expression") 2 2 [DW_EH_PE_uleb128; DW_EH_PE_block]
     [DWARF_DISPLAY_REGISTER; DWARF_DISPLAY_EVAL_BLOCK]]
  ++ replicate 23 illegal_cfa
  ++ [mkInfo (Some "DW_CFA_GNU_args_size") 2 1 [DW_EH_PE_uleb128] [DWARF_DISPLAY_NUMBER];
      mkInfo (Some "DW_CFA_GNU_negative_offset_extended") 2 2 [DW_EH_PE_uleb128; DW_EH_PE_uleb128]
        [DWARF_DISPLAY_REGISTER; DWARF_DISPLAY_NUMBER]]
  ++ replicate 16 illegal_cfa.

Close Scope string_scope.

Definition kTable : list Info := kTable_low ++ kTable_high.

(** The source lists fifteen illegal entries for the sixteen opcodes 0x30 to
    0x3f (its labels start at 0x31): the array of 64 gets its last entry from
    zero initialisation. *)
Lemma tables_length : length kCallbackTable = 64%nat /\ length kTable = 64%nat.
Proof. done. Qed.

(** ** The interpreter *)

(** [loc_regs_] is the map the out-parameter of [GetLocationInfo] points to. *)
Record DwarfCfa := mkDwarfCfa {
  cfa_last_error_ : DwarfError;
  cfa_memory_ : DwarfMemory;
  cur_pc_ : Z;
  cfa_operands_ : list Z;
  loc_reg_state_ : list dwarf_loc_regs_t;
  loc_regs_ : dwarf_loc_regs_t
}.

Definition new_DwarfCfa (memory : DwarfMemory) (loc_regs : dwarf_loc_regs_t) : DwarfCfa :=
  mkDwarfCfa DWARF_ERROR_NONE memory 0 [] [] loc_regs.

Definition set_cfa_error (x : DwarfError) (c : DwarfCfa) : DwarfCfa :=
  mkDwarfCfa x (cfa_memory_ c) (cur_pc_ c) (cfa_operands_ c) (loc_reg_state_ c) (loc_regs_ c).
Definition set_cfa_memory (x : DwarfMemory) (c : DwarfCfa) : DwarfCfa :=
  mkDwarfCfa (cfa_last_error_ c) x (cur_pc_ c) (cfa_operands_ c) (loc_reg_state_ c) (loc_regs_ c).
Definition set_cur_pc (x : Z) (c : DwarfCfa) : DwarfCfa :=
  mkDwarfCfa (cfa_last_error_ c) (cfa_memory_ c) x (cfa_operands_ c) (loc_reg_state_ c) (loc_regs_ c).
Definition set_cfa_operands (x : list Z) (c : DwarfCfa) : DwarfCfa :=
  mkDwarfCfa (cfa_last_error_ c) (cfa_memory_ c) (cur_pc_ c) x (loc_reg_state_ c) (loc_regs_ c).
Definition set_loc_reg_state (x : list dwarf_loc_regs_t) (c : DwarfCfa) : DwarfCfa :=
  mkDwarfCfa (cfa_last_error_ c) (cfa_memory_ c) (cur_pc_ c) (cfa_operands_ c) x (loc_regs_ c).
Definition set_loc_regs (x : dwarf_loc_regs_t) (c : DwarfCfa) : DwarfCfa :=
  mkDwarfCfa (cfa_last_error_ c) (cfa_memory_ c) (cur_pc_ c) (cfa_operands_ c) (loc_reg_state_ c) x.

Definition on_cfa_memory {A} (m : M DwarfMemory A) : M DwarfCfa A :=
  lift cfa_memory_ set_cfa_memory m.

(** [last_error_ = e; return false;] *)
Definition cfa_fail (e : DwarfError) : M DwarfCfa bool := modify (set_cfa_error e) ;; ret false.

(** [operands_[i]] *)
Definition operand (i : nat) : M DwarfCfa Z :=
  ops <- get cfa_operands_ ;;
  match ops !! i with
  | Some v => ret v
  | None => undef
  end.

(** [loc_regs[reg] = loc;] and [loc_regs->erase(reg);].  The key is a
    uint16_t. *)
Definition set_location (reg : Z) (loc : DwarfLocation) : M DwarfCfa unit :=
  modify (fun c => set_loc_regs (<[u16 reg := loc]> (loc_regs_ c)) c).

Definition erase_location (reg : Z) : M DwarfCfa unit :=
  modify (fun c => set_loc_regs (delete (u16 reg) (loc_regs_ c)) c).

Section Cfa.
Context (AT : AddressType) (mem : Memory) (fde : DwarfFde) (cie_loc_regs : option dwarf_loc_regs_t).

Local Abbreviation uA := (uwrap (bits AT)).
Local Abbreviation sA := (swrap (bits AT)).

(** [fde_->cie->...] *)
Definition with_cie {A} (f : DwarfCie -> A) : M DwarfCfa A :=
  match cie fde with
  | Some c => ret (f c)
  | None => undef
  end.

(** [SignedType x = static_cast<SignedType>(v) * data_alignment_factor;
    static_cast<uint64_t>(x)]: the product is an int64_t and undefined when it
    overflows. *)
Definition factored_offset (v : Z) : M DwarfCfa Z :=
  factor <- with_cie data_alignment_factor ;;
  require (fits_signed 64 (sA v * factor)) ;;
  ret (u64 (sA (sA v * factor))).

Definition cfa_nop : M DwarfCfa bool := ret true.

Definition cfa_set_loc : M DwarfCfa bool :=
  new_pc <- operand 0 ;; modify (set_cur_pc new_pc) ;; ret true.

(** [cur_pc_ += delta * code_alignment_factor] *)
Definition advance_pc (delta : Z) : M DwarfCfa unit :=
  factor <- with_cie code_alignment_factor ;;
  modify (fun c => set_cur_pc (uA (cur_pc_ c + u64 (delta * factor))) c).

Definition cfa_advance_loc : M DwarfCfa bool :=
  delta <- operand 0 ;; advance_pc delta ;; ret true.

Definition cfa_offset : M DwarfCfa bool :=
  reg <- operand 0 ;;
  value <- operand 1 ;;
  set_location reg (mkLoc DWARF_LOCATION_OFFSET value 0) ;;
  ret true.

(** The common tail of [cfa_restore] and of DW_CFA_restore. *)
Definition restore_register (reg : Z) : M DwarfCfa bool :=
  match cie_loc_regs with
  | None => cfa_fail DWARF_ERROR_ILLEGAL_STATE
  | Some regs =>
      match regs !! u16 reg with
      | None => erase_location reg ;; ret true
      | Some loc => set_location reg loc ;; ret true
      end
  end.

Definition cfa_restore : M DwarfCfa bool := reg <- operand 0 ;; restore_register reg.

Definition cfa_undefined : M DwarfCfa bool :=
  reg <- operand 0 ;; set_location reg (mkLoc DWARF_LOCATION_UNDEFINED 0 0) ;; ret true.

Definition cfa_same_value : M DwarfCfa bool := reg <- operand 0 ;; erase_location reg ;; ret true.

Definition cfa_register : M DwarfCfa bool :=
  reg <- operand 0 ;;
  reg_dst <- operand 1 ;;
  set_location reg (mkLoc DWARF_LOCATION_REGISTER reg_dst 0) ;;
  ret true.

Definition cfa_remember_state : M DwarfCfa bool :=
  modify (fun c => set_loc_reg_state (loc_regs_ c :: loc_reg_state_ c) c) ;; ret true.

Definition cfa_restore_state : M DwarfCfa bool :=
  saved <- get loc_reg_state_ ;;
  match saved with
  | [] => ret true
  | top :: rest => modify (set_loc_regs top) ;; modify (set_loc_reg_state rest) ;; ret true
  end.

Definition cfa_def_cfa : M DwarfCfa bool :=
  v0 <- operand 0 ;;
  v1 <- operand 1 ;;
  set_location CFA_REG (mkLoc DWARF_LOCATION_REGISTER v0 v1) ;;
  ret true.

(** [find(CFA_REG)] and the check that it is a register, then an update of the
    location in place. *)
Definition update_cfa (f : DwarfLocation -> DwarfLocation) : M DwarfCfa bool :=
  regs <- get loc_regs_ ;;
  match regs !! CFA_REG with
  | Some loc =>
      if decide (type loc = DWARF_LOCATION_REGISTER) then set_location CFA_REG (f loc) ;; ret true
      else cfa_fail DWARF_ERROR_ILLEGAL_STATE
  | None => cfa_fail DWARF_ERROR_ILLEGAL_STATE
  end.

Definition cfa_def_cfa_register : M DwarfCfa bool :=
  v0 <- operand 0 ;; update_cfa (fun loc => mkLoc (type loc) v0 (values1 loc)).

Definition cfa_def_cfa_offset : M DwarfCfa bool :=
  v0 <- operand 0 ;; update_cfa (fun loc => mkLoc (type loc) (values0 loc) v0).

Definition cfa_def_cfa_expression : M DwarfCfa bool :=
  v0 <- operand 0 ;;
  cur <- get (fun c => cur_offset_ (cfa_memory_ c)) ;;
  set_location CFA_REG (mkLoc DWARF_LOCATION_EXPRESSION v0 cur) ;;
  ret true.

Definition cfa_expression : M DwarfCfa bool :=
  reg <- operand 0 ;;
  v1 <- operand 1 ;;
  cur <- get (fun c => cur_offset_ (cfa_memory_ c)) ;;
  set_location reg (mkLoc DWARF_LOCATION_EXPRESSION v1 cur) ;;
  ret true.

Definition cfa_offset_extended_sf : M DwarfCfa bool :=
  reg <- operand 0 ;;
  v1 <- operand 1 ;;
  value <- factored_offset v1 ;;
  set_location reg (mkLoc DWARF_LOCATION_OFFSET value 0) ;;
  ret true.

Definition cfa_def_cfa_sf : M DwarfCfa bool :=
  v1 <- operand 1 ;;
  offset <- factored_offset v1 ;;
  v0 <- operand 0 ;;
  set_location CFA_REG (mkLoc DWARF_LOCATION_REGISTER v0 offset) ;;
  ret true.

Definition cfa_def_cfa_offset_sf : M DwarfCfa bool :=
  regs <- get loc_regs_ ;;
  match regs !! CFA_REG with
  | Some loc =>
      if decide (type loc = DWARF_LOCATION_REGISTER) then
        v0 <- operand 0 ;;
        offset <- factored_offset v0 ;;
        set_location CFA_REG (mkLoc (type loc) (values0 loc) offset) ;;
        ret true
      else cfa_fail DWARF_ERROR_ILLEGAL_STATE
  | None => cfa_fail DWARF_ERROR_ILLEGAL_STATE
  end.

Definition cfa_val_offset : M DwarfCfa bool :=
  reg <- operand 0 ;;
  v1 <- operand 1 ;;
  offset <- factored_offset v1 ;;
  set_location reg (mkLoc DWARF_LOCATION_VAL_OFFSET offset 0) ;;
  ret true.

Definition cfa_val_offset_sf : M DwarfCfa bool :=
  reg <- operand 0 ;;
  v1 <- operand 1 ;;
  offset <- factored_offset v1 ;;
  set_location reg (mkLoc DWARF_LOCATION_VAL_OFFSET offset 0) ;;
  ret true.

Definition cfa_val_expression : M DwarfCfa bool :=
  reg <- operand 0 ;;
  v1 <- operand 1 ;;
  cur <- get (fun c => cur_offset_ (cfa_memory_ c)) ;;
  set_location reg (mkLoc DWARF_LOCATION_VAL_EXPRESSION v1 cur) ;;
  ret true.

Definition cfa_gnu_negative_offset_extended : M DwarfCfa bool :=
  reg <- operand 0 ;;
  v1 <- operand 1 ;;
  require (fits_signed (bits AT) (- sA v1)) ;;
  set_location reg (mkLoc DWARF_LOCATION_OFFSET (u64 (- sA v1)) 0) ;;
  ret true.

(** The call through [handle_func]. *)
Definition cfa_handle (h : CfaHandler) : M DwarfCfa bool :=
  match h with
  | Cfa_nop => cfa_nop | Cfa_set_loc => cfa_set_loc | Cfa_advance_loc => cfa_advance_loc
  | Cfa_offset => cfa_offset | Cfa_restore => cfa_restore | Cfa_undefined => cfa_undefined
  | Cfa_same_value => cfa_same_value | Cfa_register => cfa_register
  | Cfa_remember_state => cfa_remember_state | Cfa_restore_state => cfa_restore_state
  | Cfa_def_cfa => cfa_def_cfa | Cfa_def_cfa_register => cfa_def_cfa_register
  | Cfa_def_cfa_offset => cfa_def_cfa_offset
  | Cfa_def_cfa_expression => cfa_def_cfa_expression | Cfa_expression => cfa_expression
  | Cfa_offset_extended_sf => cfa_offset_extended_sf | Cfa_def_cfa_sf => cfa_def_cfa_sf
  | Cfa_def_cfa_offset_sf => cfa_def_cfa_offset_sf | Cfa_val_offset => cfa_val_offset
  | Cfa_val_offset_sf => cfa_val_offset_sf | Cfa_val_expression => cfa_val_expression
  | Cfa_gnu_negative_offset_extended => cfa_gnu_negative_offset_extended
  end.

Definition push_operand (v : Z) : M DwarfCfa unit :=
  modify (fun c => set_cfa_operands (cfa_operands_ c ++ [uA v]) c).

(** The loop over the operands of an instruction. *)
Fixpoint read_cfa_operands (encodings : list Z) : M DwarfCfa bool :=
  match encodings with
  | [] => ret true
  | e :: es =>
      if e =? DW_EH_PE_block then
        let? block_length := on_cfa_memory (ReadULEB128 mem)
          else cfa_fail DWARF_ERROR_MEMORY_INVALID in
        push_operand block_length ;;
        on_cfa_memory (modify (fun d => set_cur_offset (u64 (cur_offset_ d + block_length)) d)) ;;
        read_cfa_operands es
      else
        let? value := on_cfa_memory (ReadEncodedValue mem AT e)
          else cfa_fail DWARF_ERROR_MEMORY_INVALID in
        push_operand value ;;
        read_cfa_operands es
  end.

(** The body of the loop, for the byte [cfa_value]: the switch on its two high
    bits. *)
Definition cfa_instruction (cfa_value : Z) : M DwarfCfa bool :=
  let cfa_low := Z.land cfa_value 63 in
  match Z.shiftr cfa_value 6 with
  | 1 => advance_pc cfa_low ;; ret true
  | 2 =>
      let? offset := on_cfa_memory (ReadULEB128 mem) else cfa_fail DWARF_ERROR_MEMORY_INVALID in
      signed_offset <- factored_offset offset ;;
      set_location cfa_low (mkLoc DWARF_LOCATION_OFFSET signed_offset 0) ;;
      ret true
  | 3 => restore_register cfa_low
  | 0 =>
      match nth (Z.to_nat cfa_low) kCallbackTable None with
      | None => cfa_fail DWARF_ERROR_ILLEGAL_VALUE
      | Some h =>
          let cfa := nth (Z.to_nat cfa_low) kTable illegal_cfa in
          call? read_cfa_operands (take (Z.to_nat (info_num_operands cfa)) (info_operands cfa))
            else ret false in
          cfa_handle h
      end
  | _ => ret true
  end.

Definition GetLocationInfo_round (pc end_offset : Z) (_ : unit) : M DwarfCfa (unit + bool) :=
  cfa_offset <- get (fun c => cur_offset_ (cfa_memory_ c)) ;;
  cur_pc <- get cur_pc_ ;;
  if (cfa_offset <? end_offset) && (cur_pc <=? pc) then
    modify (set_cfa_operands []) ;;
    let? cfa_value := on_cfa_memory (ReadUnsigned mem 1)
      else (cfa_fail DWARF_ERROR_MEMORY_INVALID ;; ret (inr false)) in
    call? cfa_instruction cfa_value else ret (inr false) in
    ret (inl tt)
  else ret (inr true).

(** [fuel] bounds the number of instructions: the source has no bound. *)
Definition GetLocationInfo (fuel : nat) (pc start_offset end_offset : Z) : M DwarfCfa bool :=
  modify (fun c => match cie_loc_regs with
                   | Some regs => set_loc_regs (regs ∪ loc_regs_ c) c
                   | None => c
                   end) ;;
  modify (set_cfa_error DWARF_ERROR_NONE) ;;
  on_cfa_memory (modify (set_cur_offset start_offset)) ;;
  modify (set_cur_pc (uA (pc_start fde))) ;;
  iter fuel (GetLocationInfo_round pc end_offset) tt.

End Cfa.

(** ** What holds on every input *)

(** Keys are uint16_t and values uint64_t. *)
Definition loc_ok (reg : Z) (loc : DwarfLocation) : Prop :=
  in_unsigned 16 reg /\ in_unsigned 64 (values0 loc) /\ in_unsigned 64 (values1 loc).

Definition locs_ok (m : dwarf_loc_regs_t) : Prop := map_Forall loc_ok m.

Record cfa_ok (AT : AddressType) (c : DwarfCfa) : Prop := {
  cfa_ok_memory : dwarf_ok (cfa_memory_ c);
  cfa_ok_regs : locs_ok (loc_regs_ c);
  cfa_ok_state : Forall locs_ok (loc_reg_state_ c);
  cfa_ok_operands : Forall (in_unsigned (bits AT)) (cfa_operands_ c)
}.

(** The errors the interpreter reports. *)
Definition cfa_errors : list DwarfError :=
  [DWARF_ERROR_MEMORY_INVALID; DWARF_ERROR_ILLEGAL_VALUE; DWARF_ERROR_ILLEGAL_STATE].

(** What every part of the interpreter leaves behind: success and no error, or
    failure and one of the three. *)
Definition cfa_post (AT : AddressType) (b : bool) (c : DwarfCfa) : Prop :=
  cfa_ok AT c /\ if b then cfa_last_error_ c = DWARF_ERROR_NONE else cfa_last_error_ c ∈ cfa_errors.

(** Undefined operations and endless loops remain possible, aborts do not. *)
Definition no_abort : bad := Bad False True True.

Lemma locs_ok_insert m reg loc : locs_ok m -> in_unsigned 64 (values0 loc) ->
  in_unsigned 64 (values1 loc) -> locs_ok (<[u16 reg:=loc]> m).
Proof. intros Hm H0 H1. apply map_Forall_insert_2; [|done]. split_and!; auto with cpp lia. Qed.

Lemma locs_ok_delete m reg : locs_ok m -> locs_ok (delete reg m).
Proof. apply map_Forall_delete. Qed.

Section Safe.
Context (AT : AddressType) (mem : Memory) {OK : MemoryOk mem} (fde : DwarfFde).
Context (cie_loc_regs : option dwarf_loc_regs_t) (Hcie : forall m, cie_loc_regs = Some m -> locs_ok m).

Local Abbreviation safe m Q := (wp no_abort m Q).
Implicit Types c : DwarfCfa.

Lemma in_AT_64 v : in_unsigned (bits AT) v -> in_unsigned 64 v.
Proof. apply in_unsigned_mono. destruct AT; unfold bits; simpl; lia. Qed.

Lemma safe_operand i (Q : Z -> DwarfCfa -> Prop) c : cfa_ok AT c ->
  (forall v, in_unsigned 64 v -> Q v c) -> safe (operand i) Q c.
Proof.
  intros Hc HQ. unfold wp, operand, bind, get. destruct (cfa_operands_ c !! i) as [v|] eqn:E; [|done].
  apply HQ, in_AT_64. eapply (Forall_lookup_1 _ _ i v); [|exact E]. apply Hc.
Qed.

Lemma safe_set_location reg loc c : cfa_ok AT c -> cfa_last_error_ c = DWARF_ERROR_NONE ->
  in_unsigned 64 (values0 loc) -> in_unsigned 64 (values1 loc) ->
  safe (set_location reg loc ;; ret true) (cfa_post AT) c.
Proof. intros [] He H0 H1. split; [|done]. split; simpl; try done. by apply locs_ok_insert. Qed.

Lemma safe_erase_location reg c : cfa_ok AT c -> cfa_last_error_ c = DWARF_ERROR_NONE ->
  safe (erase_location reg ;; ret true) (cfa_post AT) c.
Proof. intros [] He. split; [|done]. split; simpl; try done. by apply locs_ok_delete. Qed.

Lemma safe_fail e c : cfa_ok AT c -> e ∈ cfa_errors -> safe (cfa_fail e) (cfa_post AT) c.
Proof. intros [] He. split; [|done]. by split. Qed.

Lemma safe_factored v (Q : Z -> DwarfCfa -> Prop) c :
  (forall v', in_unsigned 64 v' -> Q v' c) -> safe (factored_offset AT fde v) Q c.
Proof.
  intros HQ. unfold wp, factored_offset, with_cie, bind, require, ret, undef. destruct (cie fde); [|done].
  destruct (fits_signed _ _); [|done]. apply HQ. auto with cpp lia.
Qed.

Lemma safe_advance delta c : cfa_ok AT c -> cfa_last_error_ c = DWARF_ERROR_NONE ->
  safe (advance_pc AT fde delta ;; ret true) (cfa_post AT) c.
Proof.
  intros [] He. unfold wp, advance_pc, with_cie, bind, ret, modify, undef. by destruct (cie fde).
Qed.

Lemma safe_restore reg c : cfa_ok AT c -> cfa_last_error_ c = DWARF_ERROR_NONE ->
  safe (restore_register cie_loc_regs reg) (cfa_post AT) c.
Proof.
  intros Hc He. unfold restore_register. destruct cie_loc_regs as [m|] eqn:E.
  - destruct (m !! u16 reg) as [loc|] eqn:El; [|by apply safe_erase_location].
    destruct (Hcie m eq_refl _ _ El) as (_ & H0 & H1). by apply safe_set_location.
  - apply safe_fail; [done|]. by_decide.
Qed.

Lemma safe_update_cfa f c : cfa_ok AT c -> cfa_last_error_ c = DWARF_ERROR_NONE ->
  (forall loc, loc_ok CFA_REG loc -> loc_ok CFA_REG (f loc)) -> safe (update_cfa f) (cfa_post AT) c.
Proof.
  intros Hc He Hf. unfold update_cfa. wp_step. wp_step.
  assert (DWARF_ERROR_ILLEGAL_STATE ∈ cfa_errors) by by_decide.
  destruct (loc_regs_ c !! CFA_REG) as [loc|] eqn:El; [|by apply safe_fail].
  case_match; [|by apply safe_fail].
  destruct (Hf loc) as (_ & Hv0 & Hv1); [by apply Hc|]. by apply safe_set_location.
Qed.

Lemma safe_negative v (Q : unit -> DwarfCfa -> Prop) c : Q tt c ->
  safe (require (fits_signed (bits AT) v)) Q c.
Proof. intros HQ. by apply wp_require. Qed.

Lemma safe_handle h c : cfa_ok AT c -> cfa_last_error_ c = DWARF_ERROR_NONE ->
  safe (cfa_handle AT fde cie_loc_regs h) (cfa_post AT) c.
Proof.
  intros Hc He. assert (in_unsigned 64 (cur_offset_ (cfa_memory_ c))) as Hcur by apply Hc.
  assert (in_unsigned 64 0) by done.
  destruct h; unfold cfa_handle, cfa_nop, cfa_set_loc, cfa_advance_loc, cfa_offset, cfa_restore, cfa_undefined,
      cfa_same_value, cfa_register, cfa_remember_state, cfa_restore_state, cfa_def_cfa, cfa_def_cfa_register,
      cfa_def_cfa_offset, cfa_def_cfa_offset_sf,
      cfa_def_cfa_expression, cfa_expression, cfa_offset_extended_sf, cfa_def_cfa_sf, cfa_val_offset,
      cfa_val_offset_sf, cfa_val_expression, cfa_gnu_negative_offset_extended;
    repeat lazymatch goal with
    | |- wp _ (bind (operand _) _) _ _ => apply wp_bind, safe_operand; [exact Hc|intros ? ?]
    | |- wp _ (bind (factored_offset _ _ _) _) _ _ => apply wp_bind, safe_factored; intros ? ?
    | |- wp _ (bind (get _) _) _ _ => apply wp_bind, wp_get
    | |- wp _ (bind (require _) _) _ _ => apply wp_bind, safe_negative
    end;
    try (by apply safe_set_location; simpl; auto with cpp lia); try (by apply safe_erase_location);
    try (by apply safe_advance); try (by apply safe_restore);
    try (by apply safe_update_cfa; [..|intros ? (? & ? & ?); split_and!]).
  - done.
  - by destruct Hc.
  - destruct Hc. split; [|done]. split; simpl; auto.
  - destruct Hc as [? ? Hst ?]. destruct (loc_reg_state_ c) as [|top rest] eqn:E; [by split; [split; rewrite ?E|]|].
    inversion Hst; subst. by split; [split|].
  - destruct (loc_regs_ c !! CFA_REG) as [loc|] eqn:El; [|apply safe_fail; [done|by_decide]].
    destruct (decide _); [|apply safe_fail; [done|by_decide]].
    apply wp_bind, safe_operand; [exact Hc|intros v _]. apply wp_bind, safe_factored. intros v' Hv'.
    apply safe_set_location; try done. by apply (cfa_ok_regs _ _ Hc _ _ El).
Qed.

Lemma cfa_ok_set_memory c d : cfa_ok AT c -> dwarf_ok d -> cfa_ok AT (set_cfa_memory d c).
Proof. by intros [] Hd; split. Qed.

Lemma cfa_ok_push c v : cfa_ok AT c ->
  cfa_ok AT (set_cfa_operands (cfa_operands_ c ++ [uwrap (bits AT) v]) c).
Proof.
  intros []. split; simpl; try done. apply Forall_app. split; [done|]. constructor; [|done].
  apply uwrap_range. auto with cpp.
Qed.

Lemma safe_read {A} (m : M DwarfMemory (option A)) P (k : A -> M DwarfCfa bool) c :
  cfa_ok AT c -> cfa_last_error_ c = DWARF_ERROR_NONE ->
  (forall d, dwarf_ok d -> wp no_abort m (reads P d) d) ->
  (forall v d, P v -> dwarf_ok d -> safe (k v) (cfa_post AT) (set_cfa_memory d c)) ->
  safe (let? v := on_cfa_memory m else cfa_fail DWARF_ERROR_MEMORY_INVALID in k v) (cfa_post AT) c.
Proof.
  intros Hc He Hm Hk. apply wp_bind, wp_lift. eapply wp_mono; [apply Hm, Hc|].
  intros [v|] d [Hmv Hv]; assert (dwarf_ok d) by (eapply moves_ok; [apply Hc|exact Hmv]).
  - apply Hk; [apply Hv|done].
  - apply safe_fail; [by apply cfa_ok_set_memory|by_decide].
Qed.

Lemma safe_read_operands es : Forall (fun e => e = DW_EH_PE_block \/ plain_encoding e = true) es -> forall c,
  cfa_ok AT c -> cfa_last_error_ c = DWARF_ERROR_NONE ->
  safe (read_cfa_operands AT mem es) (cfa_post AT) c.
Proof.
  induction 1 as [|e es He _ IH]; intros c Hc Hn; [done|]. cbn [read_cfa_operands].
  destruct (Z.eqb_spec e DW_EH_PE_block) as [->|Hb].
  - apply (safe_read _ (in_unsigned 64)); [done|done|by intros; apply wp_ReadULEB128|]. intros v d Hv Hd.
    apply wp_bind, wp_modify, wp_bind, wp_lift, wp_modify. apply IH; [|done].
    apply cfa_ok_set_memory; [|by apply uwrap_range]. apply cfa_ok_push, cfa_ok_set_memory; done.
  - destruct He as [?|He]; [done|].
    apply (safe_read _ (in_unsigned 64)); [done|done|by intros; apply wp_ReadEncodedValue_plain|]. intros v d Hv Hd.
    apply wp_bind, wp_modify. apply IH; [|done]. apply cfa_ok_push, cfa_ok_set_memory; done.
Qed.

Lemma table_encodings_plain op : Forall (fun e => e = DW_EH_PE_block \/ plain_encoding e = true)
  (take (Z.to_nat (info_num_operands (nth op kTable illegal_cfa))) (info_operands (nth op kTable illegal_cfa))).
Proof.
  apply Forall_take. destruct (decide (op < 64)%nat) as [H|H]; [|rewrite nth_overflow; [done|simpl; lia]].
  assert (Forall (fun i => Forall (fun e => e = DW_EH_PE_block \/ plain_encoding e = true) (info_operands i)) kTable)
    as Ht by by_decide.
  rewrite Forall_forall in Ht. apply Ht, list_elem_of_In, nth_In. simpl. lia.
Qed.

Lemma safe_instruction cfa_value c : cfa_ok AT c -> cfa_last_error_ c = DWARF_ERROR_NONE ->
  safe (cfa_instruction AT mem fde cie_loc_regs cfa_value) (cfa_post AT) c.
Proof.
  intros Hc He. unfold cfa_instruction. assert (safe (ret true) (cfa_post AT) c) by done.
  destruct (Z.shiftr cfa_value 6) as [|[[p|p|]|[p|p|]|]|p]; try done;
    [|by apply safe_restore| |by apply safe_advance].
  - destruct (nth _ kCallbackTable None) as [h|]; [|apply safe_fail; [done|by_decide]].
    apply wp_bind. eapply wp_mono; [apply safe_read_operands; try done; apply table_encodings_plain|].
    intros [|] c' [Hc' He']; [by apply safe_handle|by split].
  - apply (safe_read _ (in_unsigned 64)); [done|done|by intros; apply wp_ReadULEB128|]. intros v d Hv Hd.
    apply wp_bind, safe_factored. intros v' Hv'. apply safe_set_location; try done. by apply cfa_ok_set_memory.
Qed.

Lemma safe_GetLocationInfo fuel pc start_offset end_offset c : cfa_ok AT c -> in_unsigned 64 start_offset ->
  safe (GetLocationInfo AT mem fde cie_loc_regs fuel pc start_offset end_offset) (cfa_post AT) c.
Proof.
  intros Hc Hs. unfold GetLocationInfo. do 4 apply wp_bind, wp_modify.
  apply (wp_iter_partial no_abort _ (fun _ c => cfa_ok AT c /\ cfa_last_error_ c = DWARF_ERROR_NONE)); [done|..].
  - intros [] c' [Hc' He]. unfold GetLocationInfo_round. do 4 wp_step. case_match; [|by wp_step].
    apply wp_bind, wp_modify, wp_bind, wp_lift. eapply wp_mono; [apply (wp_ReadUnsigned mem (OK := OK)); [apply Hc'|lia]|].
    intros [v|] d [Hm _]; assert (cfa_ok AT (set_cfa_memory d (set_cfa_operands [] c'))) as Hd
      by (apply cfa_ok_set_memory; [destruct Hc'; by split|eapply moves_ok; [apply Hc'|exact Hm]]).
    + apply wp_bind. eapply wp_mono; [by apply safe_instruction|]. by intros [|] c'' Hp.
    + split; [|by_decide]. by destruct Hd.
  - split; [|done]. destruct Hc. destruct cie_loc_regs as [m|] eqn:E; split; simpl; try done.
    by apply map_Forall_union_2; [apply Hcie|].
Qed.

End Safe.

(** Whatever bytes the memory holds, [GetLocationInfo] never fails a CHECK;
    when it returns true no error is set, when it returns false the error is
    one of three; and the location map it leaves has uint16_t keys and uint64_t
    values, in every state of the remember stack too. *)
Theorem GetLocationInfo_errors AT mem (OK : MemoryOk mem) fde cie_loc_regs fuel pc start_offset end_offset c :
  (forall m, cie_loc_regs = Some m -> locs_ok m) -> cfa_ok AT c -> in_unsigned 64 start_offset ->
  match GetLocationInfo AT mem fde cie_loc_regs fuel pc start_offset end_offset c with
  | Ok (b, c') => cfa_ok AT c' /\
      if b then cfa_last_error_ c' = DWARF_ERROR_NONE
      else cfa_last_error_ c' ∈ [DWARF_ERROR_MEMORY_INVALID; DWARF_ERROR_ILLEGAL_VALUE; DWARF_ERROR_ILLEGAL_STATE]
  | Abort => False
  | Undef | NoFuel => True
  end.
Proof. intros Hcie Hc Hs. by apply (safe_GetLocationInfo AT mem fde cie_loc_regs Hcie). Qed.

Lemma GetLocationInfo_errors_witness :
  exists c', GetLocationInfo uint64_t (bytes_memory [0x0c; 7; 8; 0xc1; 0]) new_DwarfFde None 10 0 0 5
               (new_DwarfCfa new_DwarfMemory ∅) = Ok (false, c') /\
             locs_ok (loc_regs_ c') /\ cfa_last_error_ c' = DWARF_ERROR_ILLEGAL_STATE.
Proof.
  pose proof (GetLocationInfo_errors uint64_t (bytes_memory [0x0c; 7; 8; 0xc1; 0]) (bytes_memory_ok _ eq_refl)
    new_DwarfFde None 10 0 0 5 (new_DwarfCfa new_DwarfMemory ∅)) as H.
  destruct (GetLocationInfo _ _ _ _ _ _ _ _ _) as [[b c']| | |] eqn:E in H; vm_compute in E; simplify_eq.
  eexists. split; [vm_compute; reflexivity|].
  destruct H as [[_ H _ _] _]; [done|by split; [..|constructor|constructor]|done|]. by split.
Defined.
