(* ===== verification/DwarfCfaSpec.v ===== *)
(** * DwarfCfaSpec: the call frame interpreter against the rules of DWARF

    The call frame instructions as a data type with their encoding, and the
    meaning the DWARF standard gives them: a row of the unwind table with a
    rule for the CFA and for each register.  The theorem is that
    [DwarfCfa::GetLocationInfo] on the encoding of a program computes the row
    of that program; around it, the cases in which the code departs from the
    standard or does not return. *)

From S2P Require Import Prelude Memory DwarfMemory DwarfCfa.

(** ** Instructions and their encoding *)

Inductive instr :=
| I_advance_loc (delta : Z)
| I_offset (r n : Z)
| I_restore (r : Z)
| I_nop
| I_set_loc (a : Z)
| I_advance_loc1 (delta : Z)
| I_advance_loc2 (delta : Z)
| I_advance_loc4 (delta : Z)
| I_offset_extended (r n : Z)
| I_restore_extended (r : Z)
| I_undefined (r : Z)
| I_same_value (r : Z)
| I_register (r r' : Z)
| I_remember_state
| I_restore_state
| I_def_cfa (r off : Z)
| I_def_cfa_register (r : Z)
| I_def_cfa_offset (off : Z)
| I_def_cfa_expression (block : list Z)
| I_expression (r : Z) (block : list Z)
| I_offset_extended_sf (r n : Z)
| I_def_cfa_sf (r n : Z)
| I_def_cfa_offset_sf (n : Z)
| I_val_offset (r n : Z)
| I_val_offset_sf (r n : Z)
| I_val_expression (r : Z) (block : list Z)
| I_GNU_args_size (n : Z)
| I_GNU_negative_offset_extended (r n : Z).

(** The operands after the opcode byte. *)
Inductive field :=
| F_addr (v : Z)
| F_data (size v : Z)
| F_uleb (v : Z)
| F_sleb (v : Z)
| F_block (bs : list Z).

Definition instr_opcode (i : instr) : Z :=
  match i with
  | I_advance_loc delta => 0x40 + delta
  | I_offset r _ => 0x80 + r
  | I_restore r => 0xc0 + r
  | I_nop => 0x00 | I_set_loc _ => 0x01 | I_advance_loc1 _ => 0x02 | I_advance_loc2 _ => 0x03
  | I_advance_loc4 _ => 0x04 | I_offset_extended _ _ => 0x05 | I_restore_extended _ => 0x06
  | I_undefined _ => 0x07 | I_same_value _ => 0x08 | I_register _ _ => 0x09
  | I_remember_state => 0x0a | I_restore_state => 0x0b | I_def_cfa _ _ => 0x0c
  | I_def_cfa_register _ => 0x0d | I_def_cfa_offset _ => 0x0e | I_def_cfa_expression _ => 0x0f
  | I_expression _ _ => 0x10 | I_offset_extended_sf _ _ => 0x11 | I_def_cfa_sf _ _ => 0x12
  | I_def_cfa_offset_sf _ => 0x13 | I_val_offset _ _ => 0x14 | I_val_offset_sf _ _ => 0x15
  | I_val_expression _ _ => 0x16 | I_GNU_args_size _ => 0x2e
  | I_GNU_negative_offset_extended _ _ => 0x2f
  end.

Definition instr_fields (i : instr) : list field :=
  match i with
  | I_advance_loc _ | I_restore _ | I_nop | I_remember_state | I_restore_state => []
  | I_offset _ n | I_def_cfa_offset n | I_GNU_args_size n => [F_uleb n]
  | I_set_loc a => [F_addr a]
  | I_advance_loc1 delta => [F_data 1 delta]
  | I_advance_loc2 delta => [F_data 2 delta]
  | I_advance_loc4 delta => [F_data 4 delta]
  | I_restore_extended r | I_undefined r | I_same_value r | I_def_cfa_register r => [F_uleb r]
  | I_offset_extended r n | I_register r n | I_def_cfa r n | I_val_offset r n
  | I_GNU_negative_offset_extended r n => [F_uleb r; F_uleb n]
  | I_def_cfa_expression bs => [F_block bs]
  | I_expression r bs | I_val_expression r bs => [F_uleb r; F_block bs]
  | I_offset_extended_sf r n | I_def_cfa_sf r n | I_val_offset_sf r n => [F_uleb r; F_sleb n]
  | I_def_cfa_offset_sf n => [F_sleb n]
  end.

Definition field_encode (AT : AddressType) (f : field) : list Z :=
  match f with
  | F_addr v => le_split (Z.to_nat (sizeof AT)) v
  | F_data size v => le_split (Z.to_nat size) v
  | F_uleb v => uleb128_encode 10 v
  | F_sleb v => sleb128_encode 10 v
  | F_block bs => uleb128_encode 10 (lengthZ bs) ++ bs
  end.

Definition fields_encode (AT : AddressType) (fs : list field) : list Z :=
  flat_map (field_encode AT) fs.

Definition instr_encode (AT : AddressType) (i : instr) : list Z :=
  instr_opcode i :: fields_encode AT (instr_fields i).

Definition program_encode (AT : AddressType) (p : list instr) : list Z :=
  flat_map (instr_encode AT) p.

(** ** Rows of the unwind table *)

(** An absent rule is "same value". *)
Inductive rule :=
| R_undefined
| R_offset (off : Z)
| R_val_offset (off : Z)
| R_register (r : Z)
| R_expression (block : list Z)
| R_val_expression (block : list Z).

Inductive cfa_rule :=
| C_register (r off : Z)
| C_expression (block : list Z).

#[global] Instance rule_eq_dec : EqDecision rule.
Proof. solve_decision. Defined.

#[global] Instance cfa_rule_eq_dec : EqDecision cfa_rule.
Proof. solve_decision. Defined.

Record table := mkTable { t_cfa : option cfa_rule; t_rules : gmap Z rule }.

Record row := mkRow { r_loc : Z; r_table : table; r_stack : list table }.

Definition set_rule (r : Z) (x : rule) (t : table) : table := mkTable (t_cfa t) (<[r:=x]> (t_rules t)).
Definition drop_rule (r : Z) (t : table) : table := mkTable (t_cfa t) (delete r (t_rules t)).
Definition set_cfa (c : cfa_rule) (t : table) : table := mkTable (Some c) (t_rules t).
Definition empty_table : table := mkTable None ∅.

Section Rows.
Context (AT : AddressType) (caf daf : Z) (init : option table).

Definition advance_row (delta : Z) (s : row) : row :=
  mkRow (uwrap (bits AT) (r_loc s + delta * caf)) (r_table s) (r_stack s).

Definition on_table (f : table -> table) (s : row) : row := mkRow (r_loc s) (f (r_table s)) (r_stack s).

(** The rule the CIE's instructions gave the register; there is none while the
    CIE itself is processed. *)
Definition restore_rule (r : Z) (s : row) : option row :=
  t ← init;
  Some (on_table (match t_rules t !! r with Some x => set_rule r x | None => drop_rule r end) s).

(** DW_CFA_def_cfa_register and the like are valid only while the CFA rule is a
    register and an offset. *)
Definition update_cfa_rule (f : Z -> Z -> cfa_rule) (s : row) : option row :=
  match t_cfa (r_table s) with
  | Some (C_register r off) => Some (on_table (set_cfa (f r off)) s)
  | _ => None
  end.

Definition step_instr (i : instr) (s : row) : option row :=
  match i with
  | I_advance_loc d | I_advance_loc1 d | I_advance_loc2 d | I_advance_loc4 d => Some (advance_row d s)
  | I_set_loc a => Some (mkRow a (r_table s) (r_stack s))
  | I_nop | I_GNU_args_size _ => Some s
  | I_offset r n | I_offset_extended r n | I_offset_extended_sf r n =>
      Some (on_table (set_rule r (R_offset (n * daf))) s)
  | I_GNU_negative_offset_extended r n => Some (on_table (set_rule r (R_offset (- (n * daf)))) s)
  | I_val_offset r n | I_val_offset_sf r n => Some (on_table (set_rule r (R_val_offset (n * daf))) s)
  | I_restore r | I_restore_extended r => restore_rule r s
  | I_undefined r => Some (on_table (set_rule r R_undefined) s)
  | I_same_value r => Some (on_table (drop_rule r) s)
  | I_register r r' => Some (on_table (set_rule r (R_register r')) s)
  | I_expression r bs => Some (on_table (set_rule r (R_expression bs)) s)
  | I_val_expression r bs => Some (on_table (set_rule r (R_val_expression bs)) s)
  | I_remember_state => Some (mkRow (r_loc s) (r_table s) (r_table s :: r_stack s))
  | I_restore_state =>
      Some (match r_stack s with [] => s | t :: st => mkRow (r_loc s) t st end)
  | I_def_cfa r off => Some (on_table (set_cfa (C_register r off)) s)
  | I_def_cfa_sf r n => Some (on_table (set_cfa (C_register r (n * daf))) s)
  | I_def_cfa_register r => update_cfa_rule (fun _ off => C_register r off) s
  | I_def_cfa_offset off => update_cfa_rule (fun r _ => C_register r off) s
  | I_def_cfa_offset_sf n => update_cfa_rule (fun r _ => C_register r (n * daf)) s
  | I_def_cfa_expression bs => Some (on_table (set_cfa (C_expression bs)) s)
  end.

(** The row in force at [pc]: instructions apply until the location passes it.
    [None] for an invalid program. *)
Fixpoint run_program (pc : Z) (p : list instr) (s : row) : option row :=
  match p with
  | [] => Some s
  | i :: p => if r_loc s <=? pc then step_instr i s ≫= run_program pc p else Some s
  end.

(** ** Well-formed instructions *)

Definition field_ok (f : field) : bool :=
  match f with
  | F_addr v => (0 <=? v) && (v <? 2 ^ bits AT)
  | F_data size v => (0 <=? v) && (v <? 2 ^ (8 * size))
  | F_uleb v => (0 <=? v) && (v <? 2 ^ bits AT)
  | F_sleb v => (- 2 ^ 62 <=? v) && fits_signed (bits AT) v
  | F_block bs => lengthZ bs <? 2 ^ bits AT
  end.

(** A register number is below the pseudo register that stands for the CFA. *)
Definition register_ok (r : Z) : bool := (0 <=? r) && (r <? CFA_REG).

(** An offset and its product with the data alignment factor are signed words. *)
Definition factored_ok (n : Z) : bool := fits_signed (bits AT) n && fits_signed (bits AT) (n * daf).

(** The operands fit their encoding.  The two instructions whose offset the
    code leaves unfactored are included where the factor does not matter. *)
Definition instr_ok (i : instr) : bool :=
  forallb field_ok (instr_fields i) &&
  match i with
  | I_advance_loc d => (0 <=? d) && (d <? 64)
  | I_offset r n => (0 <=? r) && (r <? 64) && factored_ok n
  | I_restore r => (0 <=? r) && (r <? 64)
  | I_restore_extended r | I_undefined r | I_same_value r | I_register r _ | I_expression r _
  | I_val_expression r _ => register_ok r
  | I_offset_extended r n => register_ok r && (n * daf =? n)
  | I_GNU_negative_offset_extended r n => register_ok r && (n * daf =? n) && (n <? 2 ^ (bits AT - 1))
  | I_offset_extended_sf r n | I_val_offset r n | I_val_offset_sf r n => register_ok r && factored_ok n
  | I_def_cfa_sf _ n | I_def_cfa_offset_sf n => factored_ok n
  | _ => true
  end.

End Rows.

(** ** The correspondence *)

#[local] Arguments uleb128_encode : simpl never.
#[local] Arguments sleb128_encode : simpl never.
#[local] Arguments uwrap : simpl never.
#[local] Arguments swrap : simpl never.
#[local] Arguments bits : simpl never.
#[local] Arguments fits_signed : simpl never.

Section Refinement.
Context (mem : Memory) {OK : MemoryOk mem}.

(** A block is stored as its length and the offset of its end. *)
Definition block_rel (ty : DwarfLocationEnum) (bs : list Z) (l : DwarfLocation) : Prop :=
  l = mkLoc ty (lengthZ bs) (values1 l) /\ lengthZ bs <= values1 l < 2 ^ 64 /\
  holds mem (values1 l - lengthZ bs) bs.

Definition rule_rel (x : rule) (l : DwarfLocation) : Prop :=
  match x with
  | R_undefined => l = mkLoc DWARF_LOCATION_UNDEFINED 0 0
  | R_offset off => l = mkLoc DWARF_LOCATION_OFFSET (u64 off) 0
  | R_val_offset off => l = mkLoc DWARF_LOCATION_VAL_OFFSET (u64 off) 0
  | R_register r => l = mkLoc DWARF_LOCATION_REGISTER r 0
  | R_expression bs => block_rel DWARF_LOCATION_EXPRESSION bs l
  | R_val_expression bs => block_rel DWARF_LOCATION_VAL_EXPRESSION bs l
  end.

Definition cfa_rel (x : cfa_rule) (l : DwarfLocation) : Prop :=
  match x with
  | C_register r off => l = mkLoc DWARF_LOCATION_REGISTER r (u64 off)
  | C_expression bs => block_rel DWARF_LOCATION_EXPRESSION bs l
  end.

Definition table_rel (t : table) (m : dwarf_loc_regs_t) : Prop :=
  option_Forall2 cfa_rel (t_cfa t) (m !! CFA_REG) /\
  forall r, r <> CFA_REG -> option_Forall2 rule_rel (t_rules t !! r) (m !! r).

Record row_rel (s : row) (c : DwarfCfa) : Prop := {
  rel_loc : r_loc s = cur_pc_ c;
  rel_table : table_rel (r_table s) (loc_regs_ c);
  rel_stack : Forall2 table_rel (r_stack s) (loc_reg_state_ c);
  rel_error : cfa_last_error_ c = DWARF_ERROR_NONE
}.

Lemma table_rel_empty : table_rel empty_table ∅.
Proof. split; [|intros r _]; simpl; rewrite ?lookup_empty; constructor. Qed.

Lemma table_rel_set_rule t m r x l : table_rel t m -> r <> CFA_REG -> rule_rel x l ->
  table_rel (set_rule r x t) (<[r:=l]> m).
Proof.
  intros [H1 H2] Hr Hx. split; simpl; [by rewrite lookup_insert_ne|].
  intros r' Hr'. destruct (decide (r = r')) as [->|]; [rewrite !lookup_insert_eq; by constructor|].
  rewrite !lookup_insert_ne by done. by apply H2.
Qed.

Lemma table_rel_drop_rule t m r : table_rel t m -> r <> CFA_REG ->
  table_rel (drop_rule r t) (delete r m).
Proof.
  intros [H1 H2] Hr. split; simpl; [by rewrite lookup_delete_ne|].
  intros r' Hr'. destruct (decide (r = r')) as [->|]; [rewrite !lookup_delete_eq; by constructor|].
  rewrite !lookup_delete_ne by done. by apply H2.
Qed.

Lemma table_rel_set_cfa t m x l : table_rel t m -> cfa_rel x l ->
  table_rel (set_cfa x t) (<[CFA_REG:=l]> m).
Proof.
  intros [H1 H2] Hx. split; simpl; [rewrite lookup_insert_eq; by constructor|].
  intros r Hr. rewrite lookup_insert_ne by done. by apply H2.
Qed.

(** ** Operands *)

Context (AT : AddressType).

Definition field_encoding (f : field) : Z :=
  match f with
  | F_addr _ => DW_EH_PE_absptr
  | F_data 1 _ => DW_EH_PE_udata1
  | F_data 2 _ => DW_EH_PE_udata2
  | F_data _ _ => DW_EH_PE_udata4
  | F_uleb _ => DW_EH_PE_uleb128
  | F_sleb _ => DW_EH_PE_sleb128
  | F_block _ => DW_EH_PE_block
  end.

Definition field_value (f : field) : Z :=
  match f with
  | F_addr v | F_data _ v | F_uleb v => v
  | F_sleb v => uwrap (bits AT) v
  | F_block bs => lengthZ bs
  end.

(** The sizes the instructions use. *)
Definition field_sized (f : field) : bool :=
  match f with F_data size _ => existsb (Z.eqb size) [1; 2; 4] | _ => true end.

Lemma instr_fields_sized i : forallb field_sized (instr_fields i) = true.
Proof. by destruct i. Qed.

Lemma ReadUnsigned_split d n v : 0 <= cur_offset_ d -> 0 < n -> in_unsigned (8 * n) v ->
  holds mem (cur_offset_ d) (le_split (Z.to_nat n) v) ->
  ReadUnsigned mem n d = Ok (Some v, advance n d).
Proof.
  intros Hd Hn Hv H. rewrite (ReadUnsigned_holds mem d n (le_split (Z.to_nat n) v)); [|done..|].
  - rewrite le_combine_split, Z2Nat.id, pow256 by lia. do 3 f_equal. by apply uwrap_small.
  - unfold lengthZ. rewrite le_split_length. lia.
Qed.

(** An operand that is not a block. *)
Lemma ReadEncodedValue_field f d : 0 <= cur_offset_ d -> field_ok AT f = true ->
  field_sized f = true -> (forall bs, f <> F_block bs) ->
  holds mem (cur_offset_ d) (field_encode AT f) ->
  exists v, ReadEncodedValue mem AT (field_encoding f) d =
              Ok (Some v, advance (lengthZ (field_encode AT f)) d) /\
            uwrap (bits AT) v = field_value f.
Proof.
  intros Hd Hf Hs Hb H. pose proof (bits_le_64 AT). pose proof (bits_pos AT).
  assert (forall v, in_unsigned (bits AT) v -> in_unsigned 64 v) as Hw
    by (intros v; apply in_unsigned_mono; lia).
  rewrite ReadEncodedValue_plain by (destruct f as [|size v| | |bs]; try done; cbn [field_encoding]; by repeat case_match).
  destruct f as [v|size v|v|v|bs]; simpl in Hf, Hs; cbn [field_encoding field_encode field_value] in *.
  - exists v. assert (in_unsigned (bits AT) v) by (unfold in_unsigned; lia).
    split; [|by apply uwrap_small]. unfold lengthZ. rewrite le_split_length, Z2Nat.id by (by destruct AT).
    apply ReadUnsigned_split; try done; by destruct AT.
  - exists v. assert (size = 1 \/ size = 2 \/ size = 4) as Hs' by lia. clear Hs.
    assert (in_unsigned (8 * size) v) by (unfold in_unsigned; lia).
    split; [|apply uwrap_small, (in_unsigned_mono (8 * size)); destruct AT; unfold bits; simpl; lia || done].
    unfold lengthZ. rewrite le_split_length, Z2Nat.id by lia.
    destruct_or! Hs'; subst size; by apply ReadUnsigned_split.
  - exists v. assert (in_unsigned (bits AT) v) by (unfold in_unsigned; lia).
    split; [|by apply uwrap_small]. apply ReadULEB128_encode; auto.
  - exists (u64 v). split; [|apply uwrap_uwrap; lia]. apply andb_prop in Hf as [Hl [Hs1 Hs2]%fits_signed_spec].
    change (ReadEncodedData mem AT DW_EH_PE_sleb128) with
      (let? signed_value := ReadSLEB128 mem else ret None in ret (Some (u64 signed_value))).
    unfold bind. rewrite (ReadSLEB128_encode mem d v); [done|done| |done].
    pose proof (Z.pow_le_mono_r 2 (bits AT - 1) 63). lia.
  - by destruct (Hb bs).
Qed.

Definition cfa_after (ops : list Z) (n : Z) (c : DwarfCfa) : DwarfCfa :=
  set_cfa_operands (cfa_operands_ c ++ ops) (set_cfa_memory (advance n (cfa_memory_ c)) c).

Lemma cfa_after_nil c : cfa_after [] 0 c = c.
Proof.
  destruct c as [e [] pc ops st m]. unfold cfa_after, advance. simpl.
  by rewrite app_nil_r, Z.add_0_r.
Qed.

Lemma cfa_after_after ops n ops' n' c :
  cfa_after ops' n' (cfa_after ops n c) = cfa_after (ops ++ ops') (n + n') c.
Proof.
  destruct c as [e [] pc ops0 st m]. unfold cfa_after, advance. simpl.
  by rewrite <- app_assoc, <- Z.add_assoc.
Qed.

(** A block is skipped and its length pushed. *)
Lemma read_cfa_operands_block bs es c :
  0 <= cur_offset_ (cfa_memory_ c) -> lengthZ bs < 2 ^ bits AT ->
  holds mem (cur_offset_ (cfa_memory_ c)) (field_encode AT (F_block bs)) ->
  read_cfa_operands AT mem (DW_EH_PE_block :: es) c =
  read_cfa_operands AT mem es
    (cfa_after [lengthZ bs] (lengthZ (field_encode AT (F_block bs))) c).
Proof.
  intros Hd Hl H. cbn [field_encode] in *. apply holds_bound in H as Hb; [|done|done].
  apply holds_app in H as [H1 H2]; [|done|done]. rewrite lengthZ_app in *.
  assert (0 <= lengthZ bs) by (unfold lengthZ; lia).
  assert (0 <= lengthZ (uleb128_encode 10 (lengthZ bs))) by (unfold lengthZ; lia).
  cbn [read_cfa_operands]. rewrite Z.eqb_refl. unfold bind at 1, on_cfa_memory at 1, lift.
  rewrite (ReadULEB128_encode mem _ (lengthZ bs)); [|done|unfold in_unsigned; lia|done].
  cbn [outcome_map]. unfold bind, push_operand, modify, on_cfa_memory, lift. cbn [outcome_map]. f_equal.
  destruct c as [e [] pc ops st m]. unfold cfa_after, advance. cbn in *.
  rewrite (uwrap_small (bits AT)), (uwrap_small 64) by (unfold in_unsigned; lia).
  by rewrite Z.add_assoc.
Qed.

Lemma read_cfa_operands_field f es c :
  0 <= cur_offset_ (cfa_memory_ c) -> field_ok AT f = true -> field_sized f = true ->
  holds mem (cur_offset_ (cfa_memory_ c)) (field_encode AT f) ->
  read_cfa_operands AT mem (field_encoding f :: es) c =
  read_cfa_operands AT mem es (cfa_after [field_value f] (lengthZ (field_encode AT f)) c).
Proof.
  intros Hd Hf Hs H. destruct (decide (field_encoding f = DW_EH_PE_block)) as [Hb|Hb].
  - destruct f as [|size v| | |bs]; simpl in Hb; try (by repeat case_match).
    apply read_cfa_operands_block; [done| |done]. simpl in Hf. lia.
  - cbn [read_cfa_operands]. rewrite (proj2 (Z.eqb_neq _ _)) by done.
    destruct (ReadEncodedValue_field f (cfa_memory_ c)) as (v & Hv & <-); try done; [by intros bs ->|].
    unfold bind, push_operand, modify, on_cfa_memory, lift. by rewrite Hv.
Qed.

Lemma read_cfa_operands_fields fs : forall c,
  0 <= cur_offset_ (cfa_memory_ c) -> forallb (field_ok AT) fs = true ->
  forallb field_sized fs = true ->
  holds mem (cur_offset_ (cfa_memory_ c)) (fields_encode AT fs) ->
  read_cfa_operands AT mem (map field_encoding fs) c =
    Ok (true, cfa_after (map field_value fs) (lengthZ (fields_encode AT fs)) c).
Proof.
  induction fs as [|f fs IH]; intros c Hd Hf Hs H; [by rewrite cfa_after_nil|].
  simpl in Hf, Hs. apply andb_prop in Hf as [Hf Hfs], Hs as [Hs Hss].
  change (fields_encode AT (f :: fs)) with (field_encode AT f ++ fields_encode AT fs) in *.
  apply holds_app in H as [H1 H2]; [|done|done]. cbn [map].
  rewrite read_cfa_operands_field by done.
  rewrite IH; [|cbn; unfold lengthZ; lia|done..]. by rewrite cfa_after_after, lengthZ_app.
Qed.

(** ** Instructions *)

Definition low_handler (i : instr) : option CfaHandler :=
  match i with
  | I_advance_loc _ | I_offset _ _ | I_restore _ => None
  | I_nop | I_GNU_args_size _ => Some Cfa_nop
  | I_set_loc _ => Some Cfa_set_loc
  | I_advance_loc1 _ | I_advance_loc2 _ | I_advance_loc4 _ => Some Cfa_advance_loc
  | I_offset_extended _ _ => Some Cfa_offset
  | I_restore_extended _ => Some Cfa_restore
  | I_undefined _ => Some Cfa_undefined
  | I_same_value _ => Some Cfa_same_value
  | I_register _ _ => Some Cfa_register
  | I_remember_state => Some Cfa_remember_state
  | I_restore_state => Some Cfa_restore_state
  | I_def_cfa _ _ => Some Cfa_def_cfa
  | I_def_cfa_register _ => Some Cfa_def_cfa_register
  | I_def_cfa_offset _ => Some Cfa_def_cfa_offset
  | I_def_cfa_expression _ => Some Cfa_def_cfa_expression
  | I_expression _ _ => Some Cfa_expression
  | I_offset_extended_sf _ _ => Some Cfa_offset_extended_sf
  | I_def_cfa_sf _ _ => Some Cfa_def_cfa_sf
  | I_def_cfa_offset_sf _ => Some Cfa_def_cfa_offset_sf
  | I_val_offset _ _ => Some Cfa_val_offset
  | I_val_offset_sf _ _ => Some Cfa_val_offset_sf
  | I_val_expression _ _ => Some Cfa_val_expression
  | I_GNU_negative_offset_extended _ _ => Some Cfa_gnu_negative_offset_extended
  end.

(** The two tables agree with the formats of the standard. *)
Lemma low_entry i h : low_handler i = Some h ->
  let op := Z.to_nat (Z.land (instr_opcode i) 63) in
  Z.shiftr (instr_opcode i) 6 = 0 /\ nth op kCallbackTable None = Some h /\
  take (Z.to_nat (info_num_operands (nth op kTable illegal_cfa))) (info_operands (nth op kTable illegal_cfa))
    = map field_encoding (instr_fields i).
Proof. destruct i; intros [= <-]; done. Qed.

Context (fde : DwarfFde) (ci : DwarfCie) (Hcie : cie fde = Some ci).
Context (cie_loc_regs : option dwarf_loc_regs_t) (init : option table).
Context (Hinit : option_Forall2 table_rel init cie_loc_regs).

Local Abbreviation caf := (code_alignment_factor ci).
Local Abbreviation daf := (data_alignment_factor ci).

Lemma cfa_instruction_low i h c : low_handler i = Some h -> cfa_operands_ c = [] ->
  0 <= cur_offset_ (cfa_memory_ c) -> forallb (field_ok AT) (instr_fields i) = true ->
  holds mem (cur_offset_ (cfa_memory_ c)) (fields_encode AT (instr_fields i)) ->
  cfa_instruction AT mem fde cie_loc_regs (instr_opcode i) c =
    cfa_handle AT fde cie_loc_regs h
      (cfa_after (map field_value (instr_fields i)) (lengthZ (fields_encode AT (instr_fields i))) c).
Proof.
  intros Hh Hops Hd Hf H. destruct (low_entry i h Hh) as (E1 & E2 & E3).
  unfold cfa_instruction. rewrite E1, E2, E3. unfold bind.
  by rewrite (read_cfa_operands_fields _ c Hd Hf (instr_fields_sized i) H).
Qed.

Lemma factored_offset_spec v n c : factored_ok AT daf n = true -> swrap (bits AT) v = n ->
  factored_offset AT fde v c = Ok (u64 (n * daf), c).
Proof.
  unfold factored_ok. intros [_ Hp%fits_signed_spec]%andb_prop Hv.
  unfold factored_offset, with_cie, bind. rewrite Hcie, Hv. simpl.
  assert (in_signed 64 (n * daf)) as H64.
  { pose proof (bits_le_64 AT). pose proof (bits_pos AT).
    pose proof (Z.pow_le_mono_r 2 (bits AT - 1) 63). unfold in_signed in *. simpl Z.sub. lia. }
  rewrite (proj2 (fits_signed_spec 64 _) H64). simpl.
  rewrite swrap_small by (auto with cpp). done.
Qed.

Lemma factored_swrap n : factored_ok AT daf n = true -> swrap (bits AT) n = n.
Proof.
  unfold factored_ok. intros [H%fits_signed_spec _]%andb_prop. apply swrap_small; [apply bits_pos|done].
Qed.

Lemma advance_pc_spec delta c :
  advance_pc AT fde delta c = Ok (tt, set_cur_pc (uwrap (bits AT) (cur_pc_ c + delta * caf)) c).
Proof.
  unfold advance_pc, with_cie, bind, modify. rewrite Hcie. simpl. do 3 f_equal.
  rewrite <- uwrap_add_r, uwrap_uwrap, uwrap_add_r; [done|]. destruct AT; unfold bits; simpl; lia.
Qed.

(** What a handler achieves [n] bytes behind the opcode of [i]. *)
Definition stepped (i : instr) (s : row) (n : Z) (c : DwarfCfa) (b : bool) (c' : DwarfCfa) : Prop :=
  match step_instr AT caf daf init i s with
  | Some s' => b = true /\ row_rel s' c' /\ cfa_memory_ c' = advance n (cfa_memory_ c)
  | None => b = false /\ cfa_last_error_ c' = DWARF_ERROR_ILLEGAL_STATE
  end.

Lemma register_ok_key r : register_ok r = true -> u16 r = r /\ r <> CFA_REG.
Proof.
  unfold register_ok, CFA_REG. intros H. split; [apply uwrap_small; unfold in_unsigned; lia|lia].
Qed.

(** The two kinds of step that only set a location. *)
Lemma set_location_rule i s c r x l : row_rel s c -> register_ok r = true ->
  step_instr AT caf daf init i s = Some (on_table (set_rule r x) s) -> rule_rel x l ->
  forall ops n, wp nothing (set_location r l ;; ret true) (stepped i s n c) (cfa_after ops n c).
Proof.
  intros [H1 H2 H3 H4] [Hk Hr]%register_ok_key E Hx ops n. unfold stepped. rewrite E.
  unfold wp. cbn. rewrite Hk. split_and!; [done| |done]. split; cbn; auto. by apply table_rel_set_rule.
Qed.

Lemma set_location_cfa i s c x l : row_rel s c ->
  step_instr AT caf daf init i s = Some (on_table (set_cfa x) s) -> cfa_rel x l ->
  forall ops n, wp nothing (set_location CFA_REG l ;; ret true) (stepped i s n c) (cfa_after ops n c).
Proof.
  intros [H1 H2 H3 H4] E Hx ops n. unfold stepped. rewrite E.
  split_and!; [done| |done]. split; cbn; auto. by apply table_rel_set_cfa.
Qed.

Lemma restore_register_step i s c r : row_rel s c -> register_ok r = true ->
  step_instr AT caf daf init i s = restore_rule init r s ->
  forall ops n, wp nothing (restore_register cie_loc_regs r) (stepped i s n c) (cfa_after ops n c).
Proof.
  intros [H1 H2 H3 H4] [Hk Hr]%register_ok_key E ops n. unfold restore_register, stepped.
  rewrite E. unfold restore_rule. destruct Hinit as [t m [_ Ht]|]; [|done]. rewrite Hk. simpl.
  destruct (Ht r Hr); (split_and!; [done| |done]); (split; cbn; auto); rewrite Hk.
  - by apply table_rel_set_rule.
  - by apply table_rel_drop_rule.
Qed.

Lemma update_cfa_step i s c f g : row_rel s c ->
  step_instr AT caf daf init i s = update_cfa_rule f s ->
  (forall r off, cfa_rel (f r off) (g (mkLoc DWARF_LOCATION_REGISTER r (u64 off)))) ->
  forall ops n, wp nothing (update_cfa g) (stepped i s n c) (cfa_after ops n c).
Proof.
  intros Hrow E Hfg ops n. unfold update_cfa. apply wp_bind, wp_get.
  change (loc_regs_ (cfa_after ops n c)) with (loc_regs_ c).
  pose proof (rel_table _ _ Hrow) as [Hc _].
  destruct (t_cfa (r_table s)) as [x|] eqn:Hx, (loc_regs_ c !! CFA_REG) as [l|]; inversion Hc as [? ? Hl|]; subst.
  - destruct x as [r off|bs]; cbn in Hl.
    + rewrite Hl. rewrite decide_True by done.
      apply (set_location_cfa i s c (f r off)); auto. rewrite E. unfold update_cfa_rule. by rewrite Hx.
    + destruct Hl as (-> & _). rewrite decide_False by done. unfold wp, stepped. simpl.
      rewrite E. unfold update_cfa_rule. by rewrite Hx.
  - unfold wp, stepped. simpl. rewrite E. unfold update_cfa_rule. by rewrite Hx.
Qed.

(** The block of an instruction ends where its encoding ends. *)
Lemma fields_block_rel ty fs bs d : 0 <= cur_offset_ d ->
  holds mem (cur_offset_ d) (fields_encode AT (fs ++ [F_block bs])) ->
  block_rel ty bs (mkLoc ty (lengthZ bs)
    (cur_offset_ (advance (lengthZ (fields_encode AT (fs ++ [F_block bs]))) d))).
Proof.
  intros Hd H. apply holds_bound in H as Hb; [|done|done]. unfold fields_encode in *.
  rewrite flat_map_app in *. cbn [flat_map field_encode] in *. rewrite app_nil_r, !lengthZ_app in *.
  rewrite app_assoc in H. apply holds_app in H as [_ H]; [|done|done]. rewrite lengthZ_app in H.
  unfold block_rel. cbn [values1 advance set_cur_offset cur_offset_]. 
  pose proof (lengthZ_nonneg (flat_map (field_encode AT) fs)).
  pose proof (lengthZ_nonneg (uleb128_encode 10 (lengthZ bs))).
  split_and!; [done|lia|lia|].
  by replace (_ - lengthZ bs) with
    (cur_offset_ d + (lengthZ (flat_map (field_encode AT) fs) + lengthZ (uleb128_encode 10 (lengthZ bs)))) by lia.
Qed.

Lemma wp_operand b i ops n c v Q : cfa_operands_ c = [] -> ops !! i = Some v ->
  Q v (cfa_after ops n c) -> wp b (operand i) Q (cfa_after ops n c).
Proof. intros Hops Hi HQ. unfold wp, operand, bind, get. simpl. by rewrite Hops, app_nil_l, Hi. Qed.

Lemma wp_factored b v m Q c : factored_ok AT daf m = true -> swrap (bits AT) v = m ->
  Q (u64 (m * daf)) c -> wp b (factored_offset AT fde v) Q c.
Proof. intros Hm Hv HQ. unfold wp. by rewrite (factored_offset_spec v m). Qed.

Lemma wp_advance b delta Q c : Q tt (set_cur_pc (uwrap (bits AT) (cur_pc_ c + delta * caf)) c) ->
  wp b (advance_pc AT fde delta) Q c.
Proof. intros HQ. unfold wp. by rewrite advance_pc_spec. Qed.

Lemma u64_small v : in_unsigned (bits AT) v -> u64 v = v.
Proof. intros H. apply uwrap_small, (in_unsigned_mono (bits AT)); [destruct AT; unfold bits; simpl; lia|done]. Qed.

(** [cfa_def_cfa_offset_sf] is the update of the offset. *)
Lemma cfa_def_cfa_offset_sf_update m n c : factored_ok AT daf m = true -> cfa_operands_ c = [] ->
  cfa_def_cfa_offset_sf AT fde (cfa_after [uwrap (bits AT) m] n c) =
  update_cfa (fun loc => mkLoc (type loc) (values0 loc) (u64 (m * daf))) (cfa_after [uwrap (bits AT) m] n c).
Proof.
  intros Hm Hops. unfold cfa_def_cfa_offset_sf, update_cfa, bind at 1 5, get.
  destruct (loc_regs_ _ !! CFA_REG) as [l|]; [|done]. case_match; [|done].
  unfold bind at 1, operand, bind at 1, get. simpl. rewrite Hops. simpl. unfold bind at 1.
  rewrite (factored_offset_spec _ m); [done|done|]. rewrite swrap_uwrap. by apply factored_swrap.
Qed.

End Refinement.

Section Step.
Context (mem : Memory) {OK : MemoryOk mem} (AT : AddressType).
Context (fde : DwarfFde) (ci : DwarfCie) (Hcie : cie fde = Some ci).
Context (cie_loc_regs : option dwarf_loc_regs_t) (init : option table).
Context (Hinit : option_Forall2 (table_rel mem) init cie_loc_regs).

Local Abbreviation caf := (code_alignment_factor ci).
Local Abbreviation daf := (data_alignment_factor ci).

Lemma stepped_ok i s s' n c c' : step_instr AT caf daf init i s = Some s' -> row_rel mem s' c' ->
  cfa_memory_ c' = advance n (cfa_memory_ c) -> stepped mem AT ci init i s n c true c'.
Proof. intros E H1 H2. unfold stepped. by rewrite E. Qed.

Lemma remember_restore_step i h s c : row_rel mem s c ->
  (i, h) ∈ [(I_remember_state, Cfa_remember_state); (I_restore_state, Cfa_restore_state)] ->
  forall ops n, wp nothing (cfa_handle AT fde cie_loc_regs h) (stepped mem AT ci init i s n c) (cfa_after ops n c).
Proof.
  intros [H1 H2 H3 H4] Hin ops n. rewrite !elem_of_cons in Hin. destruct_or! Hin; simplify_eq; [..|by inversion Hin].
  - apply (stepped_ok _ _ (mkRow (r_loc s) (r_table s) (r_table s :: r_stack s))); [done| |done].
    split; simpl; auto.
  - unfold wp, cfa_handle, cfa_restore_state, bind, get. simpl.
    destruct s as [loc tab stk]. simpl in *. inversion H3 as [Hs Hs'|t m st st' Ht Hst Hs Hs']; subst.
    + by eapply stepped_ok; [done|split; simpl; rewrite <- ?Hs'|].
    + by eapply stepped_ok; [done|split|].
Qed.

Lemma cfa_handle_step i h s c : low_handler i = Some h -> row_rel mem s c -> cfa_operands_ c = [] ->
  0 <= cur_offset_ (cfa_memory_ c) -> instr_ok AT daf i = true ->
  holds mem (cur_offset_ (cfa_memory_ c)) (fields_encode AT (instr_fields i)) ->
  let n := lengthZ (fields_encode AT (instr_fields i)) in
  wp nothing (cfa_handle AT fde cie_loc_regs h) (stepped mem AT ci init i s n c)
     (cfa_after (map (field_value AT) (instr_fields i)) n c).
Proof.
  intros Hh Hrow Hops Hd Hok Hmem n. unfold instr_ok in Hok. apply andb_prop in Hok as [Hf Hok].
  destruct i; try discriminate Hh; injection Hh as <-; 
    try (by apply remember_restore_step; [|rewrite !elem_of_cons; auto]);
    unfold cfa_handle, cfa_nop, cfa_set_loc, cfa_advance_loc, cfa_offset, cfa_restore, cfa_undefined,
      cfa_same_value, cfa_register, cfa_def_cfa, cfa_def_cfa_register, cfa_def_cfa_offset,
      cfa_def_cfa_expression, cfa_expression, cfa_offset_extended_sf, cfa_def_cfa_sf, cfa_val_offset,
      cfa_val_offset_sf, cfa_val_expression, cfa_gnu_negative_offset_extended;
    cbn [instr_fields map field_value forallb field_ok] in *;
    rewrite ?andb_true_iff in Hok, Hf; destruct_and? Hok; destruct_and? Hf;
    repeat lazymatch goal with
    | |- wp _ (bind (operand _) _) _ _ => apply wp_bind; eapply wp_operand; [exact Hops|reflexivity|]
    | |- wp _ (bind (advance_pc _ _ _) _) _ _ => apply wp_bind, (wp_advance _ _ _ Hcie), wp_ret
    | |- wp _ (bind (get _) _) _ _ => apply wp_bind, wp_get
    | |- wp _ (bind (modify _) _) _ _ => apply wp_bind, wp_modify
    | |- wp _ (ret _) _ _ => apply wp_ret
    | |- wp _ (bind (factored_offset _ _ _) _) _ _ =>
        apply wp_bind; eapply wp_factored; [exact Hcie|done|by rewrite ?swrap_uwrap; eapply factored_swrap|]
    end;
    try (by eapply set_location_cfa); try (by eapply set_location_rule);
    try (eapply stepped_ok; [reflexivity|by destruct Hrow; split; simpl; congruence|reflexivity]).
  - apply (set_location_rule mem AT ci init _ s c r (R_offset (n0 * daf))); [done..|].
    simpl. replace (n0 * daf) with n0 by lia. f_equal. symmetry. apply (u64_small AT). unfold in_unsigned. lia.
  - by apply (restore_register_step mem AT ci cie_loc_regs init Hinit).
  - destruct Hrow as [H1 H2 H3 H4]. eapply stepped_ok; [reflexivity| |reflexivity].
    split; simpl; auto. destruct (register_ok_key r) as [-> Hr]; [done|]. by apply table_rel_drop_rule.
  - apply (set_location_cfa mem AT ci init _ s c (C_register r off)); [done..|].
    simpl. f_equal. symmetry. apply (u64_small AT). unfold in_unsigned. lia.
  - by eapply update_cfa_step.
  - eapply update_cfa_step; [done..|]. intros r off'. simpl. f_equal.
    symmetry. apply (u64_small AT). unfold in_unsigned. lia.
  - apply (set_location_cfa mem AT ci init _ s c (C_expression block)); [done..|].
    by apply (fields_block_rel mem AT _ []).
  - apply (set_location_rule mem AT ci init _ s c r (R_expression block)); [done..|].
    by apply (fields_block_rel mem AT _ [F_uleb r]).
  - unfold wp. rewrite (cfa_def_cfa_offset_sf_update AT fde ci Hcie) by done. by eapply update_cfa_step.
  - apply (set_location_rule mem AT ci init _ s c r (R_val_expression block)); [done..|].
    by apply (fields_block_rel mem AT _ [F_uleb r]).
  - assert (in_signed (bits AT) n0 /\ in_signed (bits AT) (- n0)) as [Hs Hn].
    { pose proof (pow_half (bits AT) (bits_pos AT)). unfold in_signed. lia. }
    rewrite swrap_small by (auto with cpp). apply wp_bind, wp_require; [intros _|by rewrite (proj2 (fits_signed_spec _ _) Hn)].
    apply (set_location_rule mem AT ci init _ s c r (R_offset (- (n0 * daf)))); [done..|].
    by replace (n0 * daf) with n0 by lia.
Qed.

Lemma primary_opcode k v : 0 <= v < 64 -> In k [1; 2; 3] ->
  Z.shiftr (64 * k + v) 6 = k /\ Z.land (64 * k + v) 63 = v.
Proof.
  intros Hv Hk. split.
  - rewrite Z.shiftr_div_pow2 by done. change (2 ^ 6) with 64. rewrite Z.add_comm, Z.mul_comm, Z.div_add by done.
    by rewrite Z.div_small.
  - change 63 with (Z.ones 6). rewrite Z.land_ones by done. change (2 ^ 6) with 64.
    rewrite Z.add_comm, Z.mul_comm, Z_mod_plus_full. by apply Z.mod_small.
Qed.

Lemma cfa_instruction_step i s c : row_rel mem s c -> cfa_operands_ c = [] ->
  0 <= cur_offset_ (cfa_memory_ c) -> instr_ok AT daf i = true ->
  holds mem (cur_offset_ (cfa_memory_ c)) (fields_encode AT (instr_fields i)) ->
  let n := lengthZ (fields_encode AT (instr_fields i)) in
  wp nothing (cfa_instruction AT mem fde cie_loc_regs (instr_opcode i)) (stepped mem AT ci init i s n c) c.
Proof.
  intros Hrow Hops Hd Hok Hmem n. destruct (low_handler i) as [h|] eqn:Hh.
  { pose proof (cfa_handle_step i h s c Hh Hrow Hops Hd Hok Hmem) as W. unfold wp.
    rewrite (cfa_instruction_low mem AT fde cie_loc_regs i h c); try done.
    by apply andb_prop in Hok as [Hok _]. }
  apply andb_prop in Hok as [Hf Hok]. unfold cfa_instruction.
  destruct i; try discriminate Hh; cbn [instr_opcode]; [rename delta into d|rename n0 into m|].
  - destruct (primary_opcode 1 d) as [E1 E2]; [lia|simpl; auto|].
    change (64 * 1) with 0x40 in E1, E2. rewrite E1, E2.
    apply wp_bind, (wp_advance _ _ _ Hcie), wp_ret. eapply stepped_ok; [reflexivity| |].
    + destruct Hrow. split; simpl; congruence.
    + symmetry. destruct c as [? [] ? ? ? ?]. unfold advance. simpl. by rewrite Z.add_0_r.
  - destruct (primary_opcode 2 r) as [E1 E2]; [lia|simpl; auto|].
    change (64 * 2) with 0x80 in E1, E2. rewrite E1, E2. apply wp_bind.
    subst n. cbn [instr_fields fields_encode flat_map field_encode forallb field_ok] in *.
    rewrite app_nil_r, andb_true_r in *. pose proof (bits_le_64 AT). pose proof (Z.pow_le_mono_r 2 (bits AT) 64).
    apply wp_lift. unfold wp at 1. rewrite (ReadULEB128_encode mem _ m); [|done|unfold in_unsigned; lia|done].
    apply andb_prop in Hok as [Hr Hm].
    apply wp_bind. eapply wp_factored; [exact Hcie|exact Hm|by eapply factored_swrap|].
    set (n := lengthZ _).
    assert (set_cfa_memory (advance n (cfa_memory_ c)) c = cfa_after [] n c) as ->
      by (destruct c; unfold cfa_after; simpl; by rewrite app_nil_r).
    apply (set_location_rule mem AT ci init _ s c r (R_offset (m * daf))); try done.
    unfold register_ok, CFA_REG. lia.
  - destruct (primary_opcode 3 r) as [E1 E2]; [lia|simpl; auto|].
    change (64 * 3) with 0xc0 in E1, E2. rewrite E1, E2.
    rewrite <- (cfa_after_nil c) at 2.
    apply (restore_register_step mem AT ci cie_loc_regs init Hinit); try done.
    unfold register_ok, CFA_REG. lia.
Qed.

(** ** Programs *)

Lemma GetLocationInfo_loop pc end_offset p : forall fuel s c,
  row_rel mem s c -> 0 <= cur_offset_ (cfa_memory_ c) -> forallb (instr_ok AT daf) p = true ->
  holds mem (cur_offset_ (cfa_memory_ c)) (program_encode AT p) ->
  end_offset = cur_offset_ (cfa_memory_ c) + lengthZ (program_encode AT p) ->
  (length p < fuel)%nat ->
  wp nothing (iter fuel (GetLocationInfo_round AT mem fde cie_loc_regs pc end_offset) tt)
    (fun b c' => match run_program AT caf daf init pc p s with
                 | Some s' => b = true /\ row_rel mem s' c'
                 | None => b = false /\ cfa_last_error_ c' = DWARF_ERROR_ILLEGAL_STATE
                 end) c.
Proof.
  induction p as [|i p IH]; intros [|fuel] s c Hrow Hd Hok Hmem Hend Hfuel; cbn [length] in Hfuel; try lia;
    cbn [iter]; apply wp_bind; unfold GetLocationInfo_round at 1; do 4 wp_step.
  { rewrite (proj2 (Z.ltb_ge _ _)) by (unfold lengthZ in Hend; simpl in Hend; lia). by do 2 apply wp_ret. }
  cbn [run_program]. rewrite (rel_loc _ _ _ Hrow).
  change (program_encode AT (i :: p)) with (instr_encode AT i ++ program_encode AT p) in *.
  simpl in Hok. apply andb_prop in Hok as [Hi Hp]. rewrite lengthZ_app in Hend.
  apply holds_app in Hmem as [H1 H2]; [|done|done].
  assert (lengthZ (instr_encode AT i) = 1 + lengthZ (fields_encode AT (instr_fields i))) as Hlen
    by (unfold instr_encode, lengthZ; simpl; lia).
  unfold instr_encode in H1. apply holds_cons in H1 as [H0 H1]; [|done|done].
  pose proof (lengthZ_nonneg (program_encode AT p)).
  pose proof (lengthZ_nonneg (fields_encode AT (instr_fields i))).
  rewrite (proj2 (Z.ltb_lt _ end_offset)) by lia. simpl andb. case_match; [|by do 2 apply wp_ret].
  apply wp_bind, wp_modify, wp_bind, wp_lift. unfold wp at 1.
  rewrite (ReadUnsigned_holds mem _ 1 [instr_opcode i]) by done. cbn [le_combine].
  replace (instr_opcode i + 256 * 0) with (instr_opcode i) by lia. apply wp_bind.
  eapply wp_mono; [apply (cfa_instruction_step i s); try done|]; [by destruct Hrow|simpl; lia|].
  intros b c' Hst. unfold stepped in Hst. destruct (step_instr AT caf daf init i s) as [s'|]; simpl.
  - destruct Hst as (-> & Hrow' & Hm). simpl in Hm. apply wp_ret, IH; try done; rewrite ?Hm; simpl; try lia.
    rewrite <- Z.add_assoc, <- Hlen. done.
  - destruct Hst as (-> & He). by do 2 apply wp_ret.
Qed.

End Step.



(** DW_CFA_offset_extended stores its offset as it is read and
    DW_CFA_GNU_negative_offset_extended its negation, whatever the data
    alignment factor; DW_CFA_offset_extended_sf, the same instruction for signed
    offsets, stores the product with the factor. *)
Theorem offset_extended_unfactored mem (OK : MemoryOk mem) AT fde ci cie_loc_regs c r n i off :
  cie fde = Some ci -> cfa_operands_ c = [] -> 0 <= cur_offset_ (cfa_memory_ c) ->
  register_ok r = true -> 0 <= n < 2 ^ (bits AT - 1) -> factored_ok AT (data_alignment_factor ci) n = true ->
  In (i, off) [(I_offset_extended r n, n); (I_GNU_negative_offset_extended r n, - n);
               (I_offset_extended_sf r n, n * data_alignment_factor ci)] ->
  holds mem (cur_offset_ (cfa_memory_ c)) (fields_encode AT (instr_fields i)) ->
  exists c', cfa_instruction AT mem fde cie_loc_regs (instr_opcode i) c = Ok (true, c') /\
             loc_regs_ c' = <[r := mkLoc DWARF_LOCATION_OFFSET (u64 off) 0]> (loc_regs_ c).
Proof.
  intros Hcie Hops Hd Hreg Hn Hf Hi Hmem. destruct (register_ok_key r Hreg) as [Hk _].
  pose proof (pow_half (bits AT) (bits_pos AT)).
  assert (0 <= r < 2 ^ bits AT) by (unfold register_ok, CFA_REG in Hreg; destruct AT; unfold bits; simpl; lia).
  assert (in_signed (bits AT) n /\ in_signed (bits AT) (- n)) as [Hs Hs'] by (unfold in_signed; lia).
  assert (exists h, low_handler i = Some h) as [h Hh] by (destruct Hi as [|[|[|[]]]]; simplify_eq; eauto).
  rewrite (cfa_instruction_low mem AT fde cie_loc_regs i h c Hh Hops Hd); [|..|done].
  - destruct Hi as [|[|[|[]]]]; simplify_eq/=; unfold cfa_handle,
      cfa_offset, cfa_gnu_negative_offset_extended, cfa_offset_extended_sf, operand, bind, get; simpl; repeat (rewrite Hops; simpl).
    + rewrite Hk, (u64_small AT) by (unfold in_unsigned; lia). eauto.
    + rewrite swrap_small, (proj2 (fits_signed_spec _ _) Hs') by (auto with cpp). simpl. rewrite Hk. eauto.
    + rewrite (factored_offset_spec AT fde ci Hcie _ n); [|done|by rewrite swrap_uwrap; apply swrap_small, Hs; auto with cpp].
      simpl. rewrite Hk. eauto.
  - destruct Hi as [|[|[|[]]]]; simplify_eq; simpl; rewrite ?(proj2 (fits_signed_spec _ _) Hs); lia.
Qed.

Lemma offset_extended_unfactored_witness :
  let fde := mkFde 0 0 0 4096 8192 0 (Some (mkCie 1 0 0 0 [] 0 0 0 1 (-8) 16)) in
  exists c', cfa_instruction uint64_t (bytes_memory [6; 2]) fde None 5 (new_DwarfCfa new_DwarfMemory ∅) = Ok (true, c') /\
             loc_regs_ c' = <[6 := mkLoc DWARF_LOCATION_OFFSET 2 0]> ∅.
Proof.
  intros fde.
  apply (offset_extended_unfactored (bytes_memory [6; 2]) (bytes_memory_ok _ eq_refl) uint64_t fde
           (mkCie 1 0 0 0 [] 0 0 0 1 (-8) 16) None (new_DwarfCfa new_DwarfMemory ∅) 6 2 (I_offset_extended 6 2) 2);
    try done. by left.
Defined.

(** ** A program that does not end *)

(** DW_CFA_def_cfa_expression with a block of 2^64 - 11 bytes: behind its
    eleven bytes the cursor wraps around to the opcode. *)
Definition looping : list Z := instr_opcode (I_def_cfa_expression []) :: uleb128_encode 10 (2 ^ 64 - 11).

Lemma looping_round AT fde cie_loc_regs pc c : cur_offset_ (cfa_memory_ c) = 0 -> cur_pc_ c <= pc ->
  exists c', GetLocationInfo_round AT (bytes_memory looping) fde cie_loc_regs pc 11 tt c = Ok (inl tt, c') /\
             cur_offset_ (cfa_memory_ c') = 0 /\ cur_pc_ c' = cur_pc_ c.
Proof.
  intros Hc Hpc. unfold GetLocationInfo_round. unfold bind at 1, get at 1. unfold bind at 1, get at 1.
  rewrite Hc, (proj2 (Z.leb_le _ _) Hpc). simpl andb. cbn match. destruct c as [e [] p ops st m]. simpl in *. subst.
  eexists. split; [vm_compute; reflexivity|]. by vm_compute.
Qed.

(** Nothing bounds the interpreter: on the eleven bytes of a
    DW_CFA_def_cfa_expression whose block length is 2^64 - 11 the cursor comes
    back to the opcode, the location never moves, and [GetLocationInfo] does
    not return, however long it runs. *)
Theorem GetLocationInfo_diverges AT fde cie_loc_regs pc memory loc_regs :
  uwrap (bits AT) (pc_start fde) <= pc ->
  forall fuel, GetLocationInfo AT (bytes_memory looping) fde cie_loc_regs fuel pc 0 11
                 (new_DwarfCfa memory loc_regs) = NoFuel.
Proof.
  intros Hpc fuel. unfold GetLocationInfo, bind, modify, on_cfa_memory, lift. simpl.
  set (c := set_cur_pc _ _). assert (cur_offset_ (cfa_memory_ c) = 0 /\ cur_pc_ c <= pc) as Hc by done.
  clearbody c. revert c Hc. induction fuel as [|fuel IH]; intros c [H1 H2]; [done|]. cbn [iter]. unfold bind at 1.
  destruct (looping_round AT fde cie_loc_regs pc c H1 H2) as (c' & -> & H3 & H4). apply IH. split; [done|lia].
Qed.

Lemma GetLocationInfo_diverges_witness :
  GetLocationInfo uint64_t (bytes_memory looping) (mkFde 0 0 0 4096 8192 0 None) None 1000 4096 0 11
    (new_DwarfCfa new_DwarfMemory ∅) = NoFuel.
Proof. by apply (GetLocationInfo_diverges uint64_t (mkFde 0 0 0 4096 8192 0 None)). Defined.
