(* ===== verification/DwarfSection.v ===== *)
(** * DwarfSection: unwinding with a .eh_frame or .debug_frame section
    (libunwindstack/DwarfSection.cpp, DwarfSection.h)

    A section reads the CIEs and FDEs it is asked for and keeps them in maps,
    runs the call frame instructions of the one that covers a pc, and computes
    the registers of the calling frame.  What the two kinds of section differ
    in, the virtual methods, is the class [VirtualSection]; [X] is the state a
    derived class adds.  A [const DwarfCie*] points at an entry of
    [cie_entries_] that no longer changes, and is the value of that entry here.
    Logging is not modelled. *)

From S2P Require Import Prelude Memory DwarfMemory Regs DwarfOpTable DwarfOp DwarfCfa.

Record DwarfSection (X : Type) := mkSection {
  section_memory_ : DwarfMemory;
  section_last_error_ : DwarfError;
  fde_count_ : Z;
  fde_entries_ : gmap Z DwarfFde;
  cie_entries_ : gmap Z DwarfCie;
  cie_loc_regs_ : gmap Z dwarf_loc_regs_t;
  derived : X
}.
Arguments mkSection {X} _ _ _ _ _ _ _.
Arguments section_memory_ {X} _.
Arguments section_last_error_ {X} _.
Arguments fde_count_ {X} _.
Arguments fde_entries_ {X} _.
Arguments cie_entries_ {X} _.
Arguments cie_loc_regs_ {X} _.
Arguments derived {X} _.

Definition new_DwarfSection {X} (x : X) : DwarfSection X :=
  mkSection new_DwarfMemory DWARF_ERROR_NONE 0 ∅ ∅ ∅ x.

Section Fields.
Context {X : Type}.
Implicit Types s : DwarfSection X.

Definition set_section_memory (x : DwarfMemory) s : DwarfSection X :=
  mkSection x (section_last_error_ s) (fde_count_ s) (fde_entries_ s) (cie_entries_ s) (cie_loc_regs_ s) (derived s).
Definition set_section_error (x : DwarfError) s : DwarfSection X :=
  mkSection (section_memory_ s) x (fde_count_ s) (fde_entries_ s) (cie_entries_ s) (cie_loc_regs_ s) (derived s).
Definition set_fde_count (x : Z) s : DwarfSection X :=
  mkSection (section_memory_ s) (section_last_error_ s) x (fde_entries_ s) (cie_entries_ s) (cie_loc_regs_ s) (derived s).
Definition set_fde_entries (x : gmap Z DwarfFde) s : DwarfSection X :=
  mkSection (section_memory_ s) (section_last_error_ s) (fde_count_ s) x (cie_entries_ s) (cie_loc_regs_ s) (derived s).
Definition set_cie_entries (x : gmap Z DwarfCie) s : DwarfSection X :=
  mkSection (section_memory_ s) (section_last_error_ s) (fde_count_ s) (fde_entries_ s) x (cie_loc_regs_ s) (derived s).
Definition set_section_cie_loc_regs (x : gmap Z dwarf_loc_regs_t) s : DwarfSection X :=
  mkSection (section_memory_ s) (section_last_error_ s) (fde_count_ s) (fde_entries_ s) (cie_entries_ s) x (derived s).
Definition set_derived (x : X) s : DwarfSection X :=
  mkSection (section_memory_ s) (section_last_error_ s) (fde_count_ s) (fde_entries_ s) (cie_entries_ s) (cie_loc_regs_ s) x.

(** A method of [memory_]. *)
Definition on_section {A} (m : M DwarfMemory A) : M (DwarfSection X) A :=
  lift section_memory_ set_section_memory m.

Definition section_cur_offset : M (DwarfSection X) Z := get (fun s => cur_offset_ (section_memory_ s)).

(** [last_error_ = e; return false] or [return nullptr]. *)
Definition section_fail {A} (e : DwarfError) : M (DwarfSection X) (option A) :=
  modify (set_section_error e) ;; ret None.

(** Runs a method of a DwarfCfa, or of a DwarfOp, that reads through [memory_]. *)
Definition run_cfa {A} (c : DwarfCfa) (m : M DwarfCfa A) : M (DwarfSection X) (A * DwarfCfa) := fun s =>
  outcome_map (fun '(a, c') => ((a, c'), set_section_memory (cfa_memory_ c') s))
    (m (set_cfa_memory (section_memory_ s) c)).

Definition run_op {A} (m : M DwarfOp A) : M (DwarfSection X) (A * DwarfOp) := fun s =>
  outcome_map (fun '(a, o) => ((a, o), set_section_memory (memory_ o) s))
    (m (new_DwarfOp (section_memory_ s))).

End Fields.

(** The virtual methods that the code of this file calls. *)
Class VirtualSection (X : Type) := {
  IsCie32 : Z -> bool;
  IsCie64 : Z -> bool;
  GetCieOffsetFromFde32 : Z -> DwarfSection X -> Z;
  GetCieOffsetFromFde64 : Z -> DwarfSection X -> Z;
  AdjustPcFromFde : Z -> DwarfSection X -> Z;
  GetFdeOffsetFromPc : Z -> M (DwarfSection X) (option Z)
}.

Section Impl.
Context {X : Type} {V : VirtualSection X}.
Context (AT : AddressType) (mem : Memory).

Local Abbreviation uA := (uwrap (bits AT)).
Local Abbreviation S := (DwarfSection X).

(** [if (!memory_.ReadBytes(&x, n)) { last_error_ = ...; return false; }] and
    the same for the other readers. *)
Definition read_or_fail {A B} (m : M DwarfMemory (option A)) (k : A -> M S (option B)) : M S (option B) :=
  let? v := on_section m else section_fail DWARF_ERROR_MEMORY_INVALID in k v.

(** ** CIEs *)

(** The length and the identification: the end of the entry and the default
    encoding of its addresses. *)
Definition read_cie_header : M S (option (Z * Z)) :=
  read_or_fail (ReadUnsigned mem 4) (fun length32 =>
    if length32 =? 2 ^ 32 - 1 then
      read_or_fail (ReadUnsigned mem 8) (fun length64 =>
        cur <- section_cur_offset ;;
        read_or_fail (ReadUnsigned mem 8) (fun cie_id =>
          if IsCie64 cie_id then ret (Some (u64 (cur + length64), DW_EH_PE_sdata8))
          else section_fail DWARF_ERROR_ILLEGAL_VALUE))
    else
      cur <- section_cur_offset ;;
      read_or_fail (ReadUnsigned mem 4) (fun cie_id =>
        if IsCie32 cie_id then ret (Some (u64 (cur + length32), DW_EH_PE_sdata4))
        else section_fail DWARF_ERROR_ILLEGAL_VALUE)).

(** One round of the loop that reads the augmentation string, its NUL included. *)
Definition read_augmentation_round (aug : list Z) : M S (list Z + option (list Z)) :=
  let? aug_value := on_section (ReadUnsigned mem 1)
    else (x <- section_fail DWARF_ERROR_MEMORY_INVALID ;; ret (inr x)) in
  let aug := aug ++ [aug_value] in
  if aug_value =? 0 then ret (inr (Some aug)) else ret (inl aug).

Definition read_augmentation (fuel : nat) : M S (option (list Z)) := iter fuel read_augmentation_round [].

(** The augmentation data: [lsda_encoding], [personality_handler] and
    [fde_address_encoding], for the characters behind the 'z'. *)
Fixpoint read_augmentation_data (aug : list Z) (lsda personality encoding : Z) : M S (option (Z * Z * Z)) :=
  match aug with
  | [] => ret (Some (lsda, personality, encoding))
  | a :: aug =>
      if a =? 76 (* 'L' *) then
        read_or_fail (ReadUnsigned mem 1) (fun lsda => read_augmentation_data aug lsda personality encoding)
      else if a =? 80 (* 'P' *) then
        read_or_fail (ReadUnsigned mem 1) (fun e =>
          read_or_fail (ReadEncodedValue mem AT e) (fun personality =>
            read_augmentation_data aug lsda personality encoding))
      else if a =? 82 (* 'R' *) then
        read_or_fail (ReadUnsigned mem 1) (fun encoding => read_augmentation_data aug lsda personality encoding)
      else read_augmentation_data aug lsda personality encoding
  end.

(** [FillInCie] of a new DwarfCie.  [fuel] bounds the augmentation string. *)
Definition FillInCie (fuel : nat) : M S (option DwarfCie) :=
  let? header := read_cie_header else ret None in
  let '(end_, encoding) := header in
  read_or_fail (ReadUnsigned mem 1) (fun version =>
    if negb ((version =? 1) || (version =? 3) || (version =? 4)) then
      section_fail DWARF_ERROR_UNSUPPORTED_VERSION
    else
      let? aug := read_augmentation fuel else ret None in
      let? segment_size :=
        (if version =? 4 then
           on_section (modify (fun d => set_cur_offset (u64 (cur_offset_ d + 1)) d)) ;;
           read_or_fail (ReadUnsigned mem 1) (fun v => ret (Some v))
         else ret (Some 0)) else ret None in
      read_or_fail (ReadULEB128 mem) (fun code_alignment_factor =>
        read_or_fail (ReadSLEB128 mem) (fun data_alignment_factor =>
          read_or_fail (if version =? 1 then ReadUnsigned mem 1 else ReadULEB128 mem) (fun return_address_register =>
            let cie encoding lsda personality offset :=
              mkCie version encoding lsda segment_size aug personality offset end_
                code_alignment_factor data_alignment_factor return_address_register in
            if negb (hd 0 aug =? 122 (* 'z' *)) then
              cur <- section_cur_offset ;;
              ret (Some (cie encoding DW_EH_PE_omit 0 cur))
            else
              read_or_fail (ReadULEB128 mem) (fun aug_length =>
                cur <- section_cur_offset ;;
                let? data := read_augmentation_data (tl aug) DW_EH_PE_omit 0 encoding else ret None in
                let '(lsda, personality, encoding) := data in
                ret (Some (cie encoding lsda personality (u64 (cur + aug_length))))))))).

(** The entry the source inserts first and erases on failure is not visible to
    [FillInCie]. *)
Definition GetCie (fuel : nat) (offset : Z) : M S (option DwarfCie) :=
  entries <- get cie_entries_ ;;
  match entries !! offset with
  | Some cie => ret (Some cie)
  | None =>
      on_section (modify (set_cur_offset offset)) ;;
      let? cie := FillInCie fuel else ret None in
      modify (fun s => set_cie_entries (<[offset := cie]> (cie_entries_ s)) s) ;;
      ret (Some cie)
  end.

(** ** FDEs *)

(** The end of the instructions and the offset of the CIE. *)
Definition read_fde_header : M S (option (Z * Z)) :=
  read_or_fail (ReadUnsigned mem 4) (fun length32 =>
    if length32 =? 2 ^ 32 - 1 then
      read_or_fail (ReadUnsigned mem 8) (fun length64 =>
        cur <- section_cur_offset ;;
        read_or_fail (ReadUnsigned mem 8) (fun value64 =>
          if IsCie64 value64 then section_fail DWARF_ERROR_ILLEGAL_VALUE
          else
            cie_offset <- get (GetCieOffsetFromFde64 value64) ;;
            ret (Some (u64 (cur + length64), cie_offset))))
    else
      cur <- section_cur_offset ;;
      read_or_fail (ReadUnsigned mem 4) (fun value32 =>
        if IsCie32 value32 then section_fail DWARF_ERROR_ILLEGAL_VALUE
        else
          cie_offset <- get (GetCieOffsetFromFde32 value32) ;;
          ret (Some (u64 (cur + length32), cie_offset)))).

(** The augmentation of an FDE whose CIE has a 'z': the lsda, then on to the
    end of the augmentation data. *)
Definition read_fde_augmentation (cie : DwarfCie) : M S (option Z) :=
  if (0 <? lengthZ (augmentation_string cie)) && (hd 0 (augmentation_string cie) =? 122) then
    read_or_fail (ReadULEB128 mem) (fun aug_length =>
      cur <- section_cur_offset ;;
      read_or_fail (ReadEncodedValue mem AT (lsda_encoding cie)) (fun lsda =>
        on_section (modify (set_cur_offset (u64 (cur + aug_length)))) ;;
        ret (Some lsda)))
  else ret (Some 0).

(** [FillInFde] of a new DwarfFde. *)
Definition FillInFde (fuel : nat) : M S (option DwarfFde) :=
  let? header := read_fde_header else ret None in
  let '(end_, cie_offset) := header in
  cur <- section_cur_offset ;;
  let? cie := GetCie fuel cie_offset else ret None in
  let cur := if negb (segment_size cie =? 0) then u64 (cur + segment_size cie) else cur in
  on_section (modify (set_cur_offset cur)) ;;
  read_or_fail (ReadEncodedValue mem AT (Z.land (fde_address_encoding cie) 15)) (fun start =>
    pc_start <- get (AdjustPcFromFde start) ;;
    read_or_fail (ReadEncodedValue mem AT (Z.land (fde_address_encoding cie) 15)) (fun length =>
      let pc_end := u64 (length + pc_start) in
      let? lsda := read_fde_augmentation cie else ret None in
      offset <- section_cur_offset ;;
      ret (Some (mkFde cie_offset offset end_ pc_start pc_end lsda (Some cie))))).

Definition GetFdeFromOffset (fuel : nat) (offset : Z) : M S (option DwarfFde) :=
  entries <- get fde_entries_ ;;
  match entries !! offset with
  | Some fde => ret (Some fde)
  | None =>
      on_section (modify (set_cur_offset offset)) ;;
      let? fde := FillInFde fuel else ret None in
      modify (fun s => set_fde_entries (<[offset := fde]> (fde_entries_ s)) s) ;;
      ret (Some fde)
  end.

Definition GetFdeFromPc (fuel : nat) (pc : Z) : M S (option DwarfFde) :=
  let? fde_offset := GetFdeOffsetFromPc pc else ret None in
  let? fde := GetFdeFromOffset fuel fde_offset else ret None in
  if pc <? pc_end fde then ret (Some fde) else section_fail DWARF_ERROR_ILLEGAL_STATE.

(** ** The location of the registers *)

(** One run of the interpreter [c]; its error becomes the section's. *)
Definition location_info (fuel : nat) (pc : Z) (fde : DwarfFde) (c : DwarfCfa)
    (cie_regs : option dwarf_loc_regs_t) (start end_ : Z) : M S (option DwarfCfa) :=
  r <- run_cfa c (GetLocationInfo AT mem fde cie_regs fuel pc start end_) ;;
  if (r.1 : bool) then ret (Some r.2) else section_fail (cfa_last_error_ r.2).

(** [loc_regs] is the map the caller passes in.  The same interpreter runs the
    instructions of the CIE, unless their result is cached, and those of the
    FDE. *)
Definition GetCfaLocationInfo (fuel : nat) (pc : Z) (fde : DwarfFde) (loc_regs : dwarf_loc_regs_t) :
    M S (option dwarf_loc_regs_t) :=
  cached <- get (fun s => cie_loc_regs_ s !! cie_offset fde) ;;
  let cfa := new_DwarfCfa new_DwarfMemory loc_regs in
  let? regs_cfa :=
    (match cached, cie fde with
     | Some regs, _ => ret (Some (regs, cfa))
     | None, None => undef
     | None, Some ci =>
         let? cfa := location_info fuel pc fde cfa None (cie_cfa_instructions_offset ci)
                       (cie_cfa_instructions_end ci) else ret None in
         modify (fun s => set_section_cie_loc_regs (<[cie_offset fde := loc_regs_ cfa]> (cie_loc_regs_ s)) s) ;;
         ret (Some (loc_regs_ cfa, cfa))
     end) else ret None in
  let '(regs, cfa) := regs_cfa in
  let? cfa := location_info fuel pc fde cfa (Some regs) (cfa_instructions_offset fde)
                (cfa_instructions_end fde) else ret None in
  ret (Some (loc_regs_ cfa)).

(** ** The registers of the caller *)

Definition EvalExpression (loc : DwarfLocation) (version : Z) (regular_memory : Memory) : M S (option Z) :=
  let start := values1 loc in
  let end_ := u64 (start + values0 loc) in
  r <- run_op (DwarfOp.Eval AT mem regular_memory start end_ version) ;;
  let '(ok, op) := r in
  if (ok : bool) then
    if StackSize op =? 0 then section_fail DWARF_ERROR_ILLEGAL_STATE
    else if is_register_ op then section_fail DWARF_ERROR_NOT_IMPLEMENTED
    else match stack_ op with
         | v :: _ => ret (Some v)
         | [] => undef
         end
  else section_fail (last_error_ op).

(** [regular_memory->Read(a, &v, sizeof(AddressType))] *)
Definition read_word (regular_memory : Memory) (a : Z) : M S (option Z) :=
  match Read regular_memory a (sizeof AT) with
  | Some bs => ret (Some (le_combine bs))
  | None => section_fail DWARF_ERROR_MEMORY_INVALID
  end.

(** An expression as the CFA: the value, or the word at the value. *)
Definition eval_location (loc : DwarfLocation) (version : Z) (regular_memory : Memory) : M S (option Z) :=
  let? value := EvalExpression loc version regular_memory else ret None in
  if decide (type loc = DWARF_LOCATION_EXPRESSION) then read_word regular_memory value
  else ret (Some value).

(** The CFA. *)
Definition eval_cfa (cie : DwarfCie) (regular_memory : Memory) (loc_regs : dwarf_loc_regs_t) (regs : Regs) :
    M S (option Z) :=
  match loc_regs !! CFA_REG with
  | None => section_fail DWARF_ERROR_CFA_NOT_DEFINED
  | Some loc =>
      match type loc with
      | DWARF_LOCATION_REGISTER =>
          if total_regs regs <=? values0 loc then section_fail DWARF_ERROR_ILLEGAL_VALUE
          else
            let prev := if (sp_reg regs =? values0 loc) && bool_decide (loc_regs !! sp_reg regs = None)
                        then sp_ regs else reg regs (values0 loc) in
            ret (Some (uA (prev + values1 loc)))
      | DWARF_LOCATION_EXPRESSION | DWARF_LOCATION_VAL_EXPRESSION =>
          eval_location loc (version cie) regular_memory
      | _ => section_fail DWARF_ERROR_ILLEGAL_VALUE
      end
  end.

(** What one entry of the map makes of its register. *)
Inductive reg_result :=
| Value (v : Z)
| Keep
| Failed
| FailedRead.

(** A Read into the register, an evaluation of an expression. *)
Definition read_register (regular_memory : Memory) (a : Z) : M S reg_result :=
  let? v := read_word regular_memory a else ret FailedRead in ret (Value v).

Definition fail_register (e : DwarfError) : M S reg_result := modify (set_section_error e) ;; ret Failed.

Definition eval_register (cie : DwarfCie) (regular_memory : Memory) (loc_regs : dwarf_loc_regs_t) (cfa : Z)
    (loc : DwarfLocation) (regs : Regs) : M S reg_result :=
  match type loc with
  | DWARF_LOCATION_OFFSET => read_register regular_memory (u64 (cfa + values0 loc))
  | DWARF_LOCATION_VAL_OFFSET => ret (Value (uA (cfa + values0 loc)))
  | DWARF_LOCATION_REGISTER =>
      let cur_reg := u16 (values0 loc) in
      if total_regs regs <=? cur_reg then fail_register DWARF_ERROR_ILLEGAL_VALUE
      else match loc_regs !! cur_reg with
           | Some _ => fail_register DWARF_ERROR_ILLEGAL_STATE
           | None => ret (Value (uA (reg regs cur_reg + values1 loc)))
           end
  | DWARF_LOCATION_EXPRESSION =>
      let? value := EvalExpression loc (version cie) regular_memory else ret Failed in
      read_register regular_memory value
  | DWARF_LOCATION_VAL_EXPRESSION =>
      let? value := EvalExpression loc (version cie) regular_memory else ret Failed in
      ret (Value value)
  | DWARF_LOCATION_UNDEFINED | DWARF_LOCATION_INVALID => ret Keep
  end.

(** The loop over the map, in the order [entries] in which the unordered_map
    yields them; [undefined] is [return_address_undefined].  [torn] is what a
    failed Read leaves of its register. *)
Fixpoint eval_registers (torn : Z) (cie : DwarfCie) (regular_memory : Memory)
    (loc_regs : dwarf_loc_regs_t) (cfa : Z)
    (entries : list (Z * DwarfLocation)) (undefined : bool) (regs : Regs) : M S (option bool * Regs) :=
  match entries with
  | [] => ret (Some undefined, regs)
  | (r, loc) :: entries =>
      if (r =? CFA_REG) || (total_regs regs <=? r) then
        eval_registers torn cie regular_memory loc_regs cfa entries undefined regs
      else
        v <- eval_register cie regular_memory loc_regs cfa loc regs ;;
        match v with
        | Failed => ret (None, regs)
        | FailedRead => ret (None, set_reg r torn regs)
        | Value v => eval_registers torn cie regular_memory loc_regs cfa entries undefined (set_reg r v regs)
        | Keep =>
            let undefined := undefined || (bool_decide (type loc = DWARF_LOCATION_UNDEFINED) &&
                                           (r =? return_address_register cie)) in
            eval_registers torn cie regular_memory loc_regs cfa entries undefined regs
        end
  end.

(** [Eval]: [*finished], or [None] for the false return, and the registers. *)
Definition Eval (torn : Z) (cie : DwarfCie) (regular_memory : Memory) (loc_regs : dwarf_loc_regs_t)
    (entries : list (Z * DwarfLocation)) (regs : Regs) : M S (option bool * Regs) :=
  if total_regs regs <=? return_address_register cie then
    modify (set_section_error DWARF_ERROR_ILLEGAL_VALUE) ;; ret (None, regs)
  else
    let? cfa := eval_cfa cie regular_memory loc_regs regs else ret (None, regs) in
    r <- eval_registers torn cie regular_memory loc_regs cfa entries false regs ;;
    match r with
    | (None, regs) => ret (None, regs)
    | (Some return_address_undefined, regs) =>
        let pc := if (return_address_undefined : bool) then 0 else reg regs (return_address_register cie) in
        ret (Some (pc =? 0), set_sp cfa (set_pc pc regs))
    end.

(** [Step].  [order] is the order in which a map is iterated. *)
Definition Step (torn : Z) (order : dwarf_loc_regs_t -> list (Z * DwarfLocation)) (fuel : nat)
    (pc : Z) (process_memory : Memory) (regs : Regs) : M S (option bool * Regs) :=
  let illegal_state := modify (set_section_error DWARF_ERROR_ILLEGAL_STATE) ;; ret (None, regs) in
  modify (set_section_error DWARF_ERROR_NONE) ;;
  let? fde := GetFdeFromPc fuel pc else illegal_state in
  match cie fde with
  | None => illegal_state
  | Some ci =>
      let? loc_regs := GetCfaLocationInfo fuel pc fde ∅ else ret (None, regs) in
      Eval torn ci process_memory loc_regs (order loc_regs) regs
  end.

End Impl.

(** ** Stepping through the readers *)

Section Steps.
Context {X : Type}.
Implicit Types s : DwarfSection X.

Lemma read_or_fail_ok {A B} (m : M DwarfMemory (option A)) (k : A -> M (DwarfSection X) (option B)) s v d :
  m (section_memory_ s) = Ok (Some v, d) -> read_or_fail m k s = k v (set_section_memory d s).
Proof. intros E. unfold read_or_fail, bind, on_section, lift. by rewrite E. Qed.

Lemma on_section_ok {A B} (m : M DwarfMemory A) (k : A -> M (DwarfSection X) B) s v d :
  m (section_memory_ s) = Ok (v, d) -> bind (on_section m) k s = k v (set_section_memory d s).
Proof. intros E. unfold bind, on_section, lift. by rewrite E. Qed.

End Steps.
