(* ===== verification/DwarfEntries.v ===== *)
(** * DwarfEntries: the readers of CIEs and FDEs against their encoding

    The layout of a Common Information Entry and of a Frame Description Entry
    as the DWARF standard and the eh_frame extensions give it, in the 32-bit
    and the 64-bit format, and the theorems that [FillInCie] and [FillInFde]
    read back what was laid out. *)

From S2P Require Import Prelude Memory DwarfMemory Regs DwarfOpTable DwarfOp DwarfCfa DwarfSection.

(** ** Bytes at the cursor *)

Section Cursor.
Context {X : Type} (mem : Memory) {OK : MemoryOk mem}.
Implicit Types s : DwarfSection X.

Definition section_at s (bs : list Z) : Prop :=
  0 <= cur_offset_ (section_memory_ s) /\ holds mem (cur_offset_ (section_memory_ s)) bs.

(** The section with the cursor [n] bytes on. *)
Definition adv (n : Z) s : DwarfSection X := set_section_memory (advance n (section_memory_ s)) s.

Lemma adv_adv n m s : adv m (adv n s) = adv (n + m) s.
Proof. unfold adv. simpl. by rewrite advance_advance. Qed.

Lemma section_at_app s bs bs' : section_at s (bs ++ bs') <-> section_at s bs /\ section_at (adv (lengthZ bs) s) bs'.
Proof.
  unfold section_at. simpl. pose proof (lengthZ_nonneg bs) as Hn. split.
  - intros [H0 H]. apply holds_app in H as [H1 H2]; [|done|done]. split_and!; [done|done|lia|done].
  - intros [[H0 H1] [_ H2]]. split; [done|]. by apply holds_app.
Qed.

Section Read.
Context {B : Type}.
Implicit Types k : Z -> M (DwarfSection X) (option B).

Lemma at_unsigned n v rest s k : section_at s (le_split (Z.to_nat n) v ++ rest) -> 0 < n -> in_unsigned (8 * n) v ->
  read_or_fail (ReadUnsigned mem n) k s = k v (adv n s) /\ section_at (adv n s) rest.
Proof.
  intros H Hn Hv. apply section_at_app in H as [[H0 H1] H2].
  assert (lengthZ (le_split (Z.to_nat n) v) = n) as Hl by (unfold lengthZ; rewrite le_split_length; lia).
  rewrite Hl in H2. split; [|done]. apply read_or_fail_ok.
  rewrite (ReadUnsigned_holds mem _ n (le_split (Z.to_nat n) v)) by done.
  rewrite le_combine_split, Z2Nat.id, pow256 by lia. do 3 f_equal. by apply uwrap_small.
Qed.

Lemma at_byte v rest s k : section_at s (v :: rest) -> is_byte v ->
  read_or_fail (ReadUnsigned mem 1) k s = k v (adv 1 s) /\ section_at (adv 1 s) rest.
Proof.
  intros H Hv. apply (at_unsigned 1 v rest); [|done|done]. simpl. by rewrite Z.mod_small.
Qed.

Lemma at_uleb v rest s k : section_at s (uleb128_encode 10 v ++ rest) -> in_unsigned 64 v ->
  let n := lengthZ (uleb128_encode 10 v) in
  read_or_fail (ReadULEB128 mem) k s = k v (adv n s) /\ section_at (adv n s) rest.
Proof.
  intros H Hv n. apply section_at_app in H as [[H0 H1] H2]. split; [|done].
  apply read_or_fail_ok. by apply ReadULEB128_encode.
Qed.

Lemma at_sleb v rest s k : section_at s (sleb128_encode 10 v ++ rest) -> - 2 ^ 62 <= v < 2 ^ 63 ->
  let n := lengthZ (sleb128_encode 10 v) in
  read_or_fail (ReadSLEB128 mem) k s = k v (adv n s) /\ section_at (adv n s) rest.
Proof.
  intros H Hv n. apply section_at_app in H as [[H0 H1] H2]. split; [|done].
  apply read_or_fail_ok. by apply ReadSLEB128_encode.
Qed.

(** An encoded pointer of fixed size and no application. *)
Lemma at_encoded AT e bs rest s k : section_at s (bs ++ rest) -> in_unsigned 8 e -> Z.land e 112 = 0 ->
  e <> DW_EH_PE_omit -> 0 < lengthZ bs -> GetEncodedSize AT e = lengthZ bs ->
  read_or_fail (ReadEncodedValue mem AT e) k s = k (u64 (encoding_data e bs)) (adv (lengthZ bs) s) /\
  section_at (adv (lengthZ bs) s) rest.
Proof.
  intros H He Happ Hom Hl Hs. apply section_at_app in H as [[H0 H1] H2]. split; [|done].
  apply read_or_fail_ok. rewrite (ReadEncodedValue_fixed_size mem OK AT e _ bs); try done.
  - rewrite Happ. unfold encoding_base. rewrite Happ. simpl. by rewrite Z.add_0_r.
  - by intros ->.
Qed.

End Read.

(** The augmentation string. *)
Lemma read_augmentation_spec aug : Forall (fun c => is_byte c /\ c <> 0) aug -> forall fuel acc rest s,
  section_at s (aug ++ 0 :: rest) -> (length aug < fuel)%nat ->
  iter fuel (read_augmentation_round mem) acc s = Ok (Some (acc ++ aug ++ [0]), adv (lengthZ aug + 1) s) /\
  section_at (adv (lengthZ aug + 1) s) rest.
Proof.
  induction 1 as [|c aug [Hc Hnz] _ IH]; intros [|fuel] acc rest s H Hf; simpl in Hf; try lia.
  - destruct (at_byte 0 rest s (fun v => ret (Some v)) H) as [E H']; [done|]. split; [|done].
    cbn [iter]. unfold read_augmentation_round at 1, bind, on_section, lift.
    destruct H as [H0 H1]. apply (holds_app mem _ [0] rest H0) in H1 as [H1 _].
    by rewrite (ReadUnsigned_holds mem _ 1 [0]).
  - destruct (at_byte c (aug ++ 0 :: rest) s (fun v => ret (Some v)) H Hc) as [_ H'].
    destruct (IH fuel (acc ++ [c]) rest (adv 1 s) H' ltac:(lia)) as [E E'].
    rewrite adv_adv in E, E'. replace (1 + (lengthZ aug + 1)) with (lengthZ (c :: aug) + 1) in E, E'
      by (unfold lengthZ; simpl; lia).
    split; [|done]. rewrite <- app_assoc in E.
    change ((c :: aug) ++ [0]) with ([c] ++ aug ++ [0]). rewrite <- E. cbn [iter]. unfold bind at 1.
    unfold read_augmentation_round at 1, bind, on_section, lift.
    destruct H as [H0 H1]. apply (holds_app mem _ [c] (aug ++ 0 :: rest) H0) in H1 as [H1 _].
    rewrite (ReadUnsigned_holds mem _ 1 [c]) by done. cbn [outcome_map le_combine].
    replace (c + 256 * 0) with c by lia. by rewrite (proj2 (Z.eqb_neq c 0)).
Qed.

End Cursor.

(** ** The layout of a CIE *)

(** The items of an augmentation that starts with 'z': the encoding of the lsda
    pointers, the personality routine, the encoding of the FDE addresses, and
    characters without data. *)
Inductive aug_item :=
| A_lsda (encoding : Z)
| A_personality (encoding : Z) (pointer : list Z)
| A_fde (encoding : Z)
| A_other (c : Z).

Definition aug_char (a : aug_item) : Z :=
  match a with A_lsda _ => 76 | A_personality _ _ => 80 | A_fde _ => 82 | A_other c => c end.

Definition aug_data (a : aug_item) : list Z :=
  match a with
  | A_lsda e | A_fde e => [e]
  | A_personality e p => e :: p
  | A_other _ => []
  end.

Record cie_layout := mkCieLayout {
  l_format64 : bool;
  l_id : Z;
  l_version : Z;
  l_augmentation : option (list aug_item);
  l_address_size : Z;
  l_segment_size : Z;
  l_code_align : Z;
  l_data_align : Z;
  l_return_register : Z;
  l_instructions : list Z
}.

Definition aug_string (c : cie_layout) : list Z :=
  match l_augmentation c with Some items => 122 :: map aug_char items | None => [] end.

Definition aug_bytes (items : list aug_item) : list Z := flat_map aug_data items.

(** Everything behind the CIE id and before the instructions. *)
Definition cie_body (c : cie_layout) : list Z :=
  [l_version c] ++ aug_string c ++ [0] ++
  (if l_version c =? 4 then [l_address_size c; l_segment_size c] else []) ++
  uleb128_encode 10 (l_code_align c) ++ sleb128_encode 10 (l_data_align c) ++
  (if l_version c =? 1 then [l_return_register c] else uleb128_encode 10 (l_return_register c)) ++
  match l_augmentation c with
  | Some items => uleb128_encode 10 (lengthZ (aug_bytes items)) ++ aug_bytes items
  | None => []
  end.

(** The length field counts what follows it. *)
Definition entry_header (format64 : bool) (id : Z) (size : Z) : list Z :=
  if format64 then le_split 4 (2 ^ 32 - 1) ++ le_split 8 (8 + size) ++ le_split 8 id
  else le_split 4 (4 + size) ++ le_split 4 id.

Definition cie_bytes (c : cie_layout) : list Z :=
  entry_header (l_format64 c) (l_id c) (lengthZ (cie_body c ++ l_instructions c)) ++
  cie_body c ++ l_instructions c.

(** What the items say, later ones overriding earlier ones. *)
Fixpoint aug_values (items : list aug_item) (v : Z * Z * Z) : Z * Z * Z :=
  match items with
  | [] => v
  | a :: items =>
      let '(lsda, personality, encoding) := v in
      aug_values items
        (match a with
         | A_lsda e => (e, personality, encoding)
         | A_personality e p => (lsda, u64 (encoding_data e p), encoding)
         | A_fde e => (lsda, personality, e)
         | A_other _ => v
         end)
  end.

Definition default_encoding (format64 : bool) : Z := if format64 then DW_EH_PE_sdata8 else DW_EH_PE_sdata4.

Section Layout.
Context (AT : AddressType).

Definition aug_item_ok (a : aug_item) : bool :=
  match a with
  | A_lsda e | A_fde e => (0 <=? e) && (e <? 256)
  | A_personality e p =>
      (0 <=? e) && (e <? 256) && (Z.land e 112 =? 0) && negb (e =? DW_EH_PE_omit) && (0 <? lengthZ p) &&
      (GetEncodedSize AT e =? lengthZ p)
  | A_other c => (0 <? c) && (c <? 256) && negb (existsb (Z.eqb c) [76; 80; 82])
  end.

Record cie_ok (c : cie_layout) : Prop := {
  ok_version : In (l_version c) [1; 3; 4];
  ok_id : in_unsigned (if l_format64 c then 64 else 32) (l_id c);
  ok_augmentation : forallb aug_item_ok (default [] (l_augmentation c)) = true;
  ok_segment_size : is_byte (l_segment_size c);
  ok_code_align : in_unsigned 64 (l_code_align c);
  ok_data_align : - 2 ^ 62 <= l_data_align c < 2 ^ 63;
  ok_return_register : in_unsigned (if l_version c =? 1 then 8 else 64) (l_return_register c);
  ok_size : lengthZ (cie_bytes c) < 2 ^ 32 - 1
}.

(** The CIE the layout stands for, when it is at [start]. *)
Definition cie_of (start : Z) (c : cie_layout) : DwarfCie :=
  let end_ := start + lengthZ (cie_bytes c) in
  let '(lsda, personality, encoding) :=
    aug_values (default [] (l_augmentation c)) (DW_EH_PE_omit, 0, default_encoding (l_format64 c)) in
  mkCie (l_version c) encoding lsda (if l_version c =? 4 then l_segment_size c else 0) (aug_string c ++ [0])
    personality (end_ - lengthZ (l_instructions c)) end_ (l_code_align c) (l_data_align c) (l_return_register c).

End Layout.

(** ** Reading a CIE *)

Section ReadCie.
Context {X : Type} {V : VirtualSection X} (AT : AddressType) (mem : Memory) {OK : MemoryOk mem}.
Implicit Types s : DwarfSection X.

Definition is_cie (format64 : bool) (id : Z) : bool := if format64 then IsCie64 id else IsCie32 id.

Lemma entry_header_length f id size : lengthZ (entry_header f id size) = if f : bool then 20 else 8.
Proof. unfold entry_header. destruct f; by rewrite !lengthZ_app, !lengthZ_le_split. Qed.

Local Abbreviation cur s := (cur_offset_ (section_memory_ s)).

Lemma read_cie_header_spec f id size rest s : section_at mem s (entry_header f id size ++ rest) ->
  0 <= size < 2 ^ 32 - 5 -> in_unsigned (if f : bool then 64 else 32) id -> is_cie f id = true ->
  let n := lengthZ (entry_header f id size) in
  cur s + n + size < 2 ^ 64 ->
  read_cie_header mem s = Ok (Some (cur s + n + size, default_encoding f), adv n s) /\ section_at mem (adv n s) rest.
Proof.
  intros H Hs Hid Hcie n Hend. subst n. rewrite entry_header_length in *.
  assert (0 <= cur s) by apply H. unfold entry_header in H. unfold read_cie_header, is_cie in *.
  destruct f; rewrite <- !app_assoc in H.
  - eapply (at_unsigned mem 4) in H as [-> H]; [|done|done]. rewrite Z.eqb_refl.
    eapply (at_unsigned mem 8) in H as [-> H]; [|done|unfold in_unsigned; lia]. unfold bind at 1, section_cur_offset, get.
    eapply (at_unsigned mem 8) in H as [-> H]; [|done|done]. rewrite Hcie, !adv_adv in *. split; [|done].
    cbn [adv section_memory_ set_section_memory advance set_cur_offset cur_offset_].
    rewrite uwrap_small by (unfold in_unsigned; lia). unfold ret. do 4 f_equal. lia.
  - eapply (at_unsigned mem 4) in H as [-> H]; [|done|unfold in_unsigned; lia].
    rewrite (proj2 (Z.eqb_neq _ _)) by lia. unfold bind at 1, section_cur_offset, get.
    eapply (at_unsigned mem 4) in H as [-> H]; [|done|done]. rewrite Hcie, !adv_adv in *. split; [|done].
    cbn [adv section_memory_ set_section_memory advance set_cur_offset cur_offset_].
    rewrite uwrap_small by (unfold in_unsigned; lia). unfold ret. do 4 f_equal. lia.
Qed.

Lemma read_augmentation_data_spec items : forallb (aug_item_ok AT) items = true -> forall lsda p e rest s,
  section_at mem s (aug_bytes items ++ rest) ->
  read_augmentation_data AT mem (map aug_char items ++ [0]) lsda p e s =
    Ok (Some (aug_values items (lsda, p, e)), adv (lengthZ (aug_bytes items)) s) /\
  section_at mem (adv (lengthZ (aug_bytes items)) s) rest.
Proof.
  induction items as [|a items IH]; intros Hok lsda p e rest s H.
  { assert (adv 0 s = s) as E by (destruct s as [[] ? ? ? ? ? ?]; unfold adv, advance; simpl; by rewrite Z.add_0_r).
    unfold aug_bytes. simpl. change (lengthZ (@nil Z)) with 0. by rewrite E. }
  simpl in Hok. apply andb_prop in Hok as [Ha Hok]. specialize (IH Hok).
  change (aug_bytes (a :: items)) with (aug_data a ++ aug_bytes items) in *. rewrite lengthZ_app, <- app_assoc in *.
  destruct a as [x|x ptr|x|ch]; simpl in Ha; cbn [map app aug_char aug_data read_augmentation_data aug_values Z.eqb Pos.eqb] in *.
  - eapply (at_byte mem) in H as [-> H]; [|unfold is_byte; lia]. rewrite <- adv_adv. by apply IH.
  - change ((x :: ptr) ++ aug_bytes items ++ rest) with (x :: (ptr ++ aug_bytes items ++ rest)) in H.
    eapply (at_byte mem) in H as [-> H]; [|unfold is_byte; lia].
    eapply (at_encoded mem AT x ptr) in H as [-> H]; [|unfold in_unsigned; lia..].
    rewrite adv_adv in *. replace (1 + lengthZ ptr) with (lengthZ (x :: ptr)) in * by (unfold lengthZ; simpl; lia).
    rewrite <- adv_adv. by apply IH.
  - eapply (at_byte mem) in H as [-> H]; [|unfold is_byte; lia]. rewrite <- adv_adv. by apply IH.
  - rewrite (proj2 (Z.eqb_neq ch 76)), (proj2 (Z.eqb_neq ch 80)), (proj2 (Z.eqb_neq ch 82)) by lia.
    apply IH. done.
Qed.

(** The fields between the augmentation string and the augmentation data. *)
Lemma read_segment_size_spec c rest s k :
  section_at mem s ((if l_version c =? 4 then [l_address_size c; l_segment_size c] else []) ++ rest) ->
  is_byte (l_segment_size c) ->
  let n := if l_version c =? 4 then 2 else 0 in
  (let? segment_size :=
     (if l_version c =? 4 then
        on_section (modify (fun d => set_cur_offset (u64 (cur_offset_ d + 1)) d)) ;;
        read_or_fail (ReadUnsigned mem 1) (fun v => ret (Some v))
      else ret (Some 0)) else ret None in k segment_size) s
  = (k (if l_version c =? 4 then l_segment_size c else 0) : M (DwarfSection X) (option DwarfCie)) (adv n s) /\
  section_at mem (adv n s) rest.
Proof.
  intros H Hb n. subst n. destruct (l_version c =? 4).
  - apply (section_at_app mem s [l_address_size c] (l_segment_size c :: rest)) in H as [[H0 H1] H].
    apply holds_bound in H1; [|done|done]. unfold lengthZ in H1. simpl in H1.
    assert (bind (on_section (modify (fun d => set_cur_offset (u64 (cur_offset_ d + 1)) d)))
              (fun _ => read_or_fail (ReadUnsigned mem 1) (fun v => ret (Some v))) s =
            read_or_fail (ReadUnsigned mem 1) (fun v => ret (Some v)) (adv 1 s)) as E.
    { erewrite on_section_ok by reflexivity. rewrite uwrap_small by (unfold in_unsigned; lia). done. }
    eapply (at_byte mem) in H as [E' H]; [|done]. rewrite adv_adv in H.
    split; [|done]. unfold bind at 1. rewrite E. change (lengthZ [l_address_size c]) with 1 in E'. rewrite E'.
    by rewrite adv_adv.
  - split; [|by destruct s as [[] ? ? ? ? ? ?]; unfold adv, advance, section_at in *; simpl in *; rewrite Z.add_0_r].
    destruct s as [[] ? ? ? ? ? ?]. unfold adv, advance, bind. simpl. by rewrite Z.add_0_r.
Qed.

Lemma aug_string_ok c : cie_ok AT c -> Forall (fun ch => is_byte ch /\ ch <> 0) (aug_string c).
Proof.
  intros Hok. pose proof (ok_augmentation _ _ Hok) as H. unfold aug_string.
  destruct (l_augmentation c) as [items|]; [|constructor]. simpl in H. constructor; [by split|].
  rewrite forallb_forall in H. apply Forall_forall. intros ch Hin.
  apply list_elem_of_fmap in Hin as (a & -> & Ha). specialize (H a). rewrite <- list_elem_of_In in H.
  specialize (H Ha). destruct a as [x|x ptr|x|x]; simpl in *; try (by split); unfold is_byte; lia.
Qed.

(** The return address register, one byte or a ULEB128. *)
Lemma at_return_register c rest s k : cie_ok AT c ->
  section_at mem s ((if l_version c =? 1 then [l_return_register c] else uleb128_encode 10 (l_return_register c)) ++ rest) ->
  let n := lengthZ (if l_version c =? 1 then [l_return_register c] else uleb128_encode 10 (l_return_register c)) in
  read_or_fail (if l_version c =? 1 then ReadUnsigned mem 1 else ReadULEB128 mem) k s =
    (k (l_return_register c) : M (DwarfSection X) (option DwarfCie)) (adv n s) /\ section_at mem (adv n s) rest.
Proof.
  intros Hok H n. subst n. pose proof (ok_return_register _ _ Hok) as Hr. destruct (l_version c =? 1).
  - by apply (at_byte mem).
  - by apply (at_uleb mem).
Qed.

Lemma cie_bytes_length c : lengthZ (cie_bytes c) =
  (if l_format64 c then 20 else 8) + lengthZ (cie_body c) + lengthZ (l_instructions c).
Proof. unfold cie_bytes. rewrite !lengthZ_app, entry_header_length. lia. Qed.

Lemma FillInCie_layout fuel c rest s : cie_ok AT c -> is_cie (l_format64 c) (l_id c) = true ->
  section_at mem s (cie_bytes c ++ rest) -> (length (aug_string c) < fuel)%nat ->
  FillInCie AT mem fuel s =
    Ok (Some (cie_of (cur s) c), adv (lengthZ (cie_bytes c) - lengthZ (l_instructions c)) s).
Proof.
  intros Hok Hcie Hat Hfuel.
  assert (cur s + lengthZ (cie_bytes c) < 2 ^ 64) as Hbound.
  { apply (section_at_app mem) in Hat as [[H0 H1] _]. by apply (holds_bound mem) in H1. }
  pose proof (ok_size _ _ Hok) as Hsize. pose proof (cie_bytes_length c) as Hlen.
  pose proof (lengthZ_nonneg (cie_body c)) as Hbody. pose proof (lengthZ_nonneg (l_instructions c)) as Hins.
  unfold cie_of. unfold cie_bytes in Hat. rewrite <- !app_assoc in Hat.
  assert (lengthZ (cie_body c ++ l_instructions c) = lengthZ (cie_body c) + lengthZ (l_instructions c)) as Hsz
    by apply lengthZ_app.
  pose proof Hat as [Hat0 _].
  apply (read_cie_header_spec (l_format64 c) (l_id c)) in Hat as [Eh Hat];
    [|destruct (l_format64 c); lia|apply Hok|done|rewrite entry_header_length; lia].
  rewrite entry_header_length, Hsz in Eh. rewrite entry_header_length in Hat.
  unfold FillInCie. unfold bind at 1. rewrite Eh. cbn match beta.
  unfold cie_body in Hat. rewrite <- !app_assoc in Hat.
  pose proof (ok_version _ _ Hok) as Hv.
  eapply (at_byte mem) in Hat as [-> Hat]; [|unfold is_byte; simpl in Hv; lia].
  assert (negb ((l_version c =? 1) || (l_version c =? 3) || (l_version c =? 4)) = false) as ->
    by (simpl in Hv; lia).
  eapply (read_augmentation_spec mem) in Hat as [Ea Hat]; [|by apply aug_string_ok|exact Hfuel].
  unfold bind at 1, read_augmentation at 1. rewrite Ea. cbn [app]. rewrite !adv_adv in *.
  eapply (read_segment_size_spec c) in Hat as [-> Hat]; [|apply Hok]. rewrite !adv_adv in *.
  eapply (at_uleb mem) in Hat as [-> Hat]; [|apply Hok]. rewrite !adv_adv in *.
  eapply (at_sleb mem) in Hat as [-> Hat]; [|apply Hok]. rewrite !adv_adv in *.
  eapply (at_return_register c) in Hat as [-> Hat]; [|done]. rewrite !adv_adv in *.
  match type of Hat with section_at _ (adv ?q s) _ => set (pos := q) in * end.
  assert (pos + lengthZ (match l_augmentation c with
     | Some items => uleb128_encode 10 (lengthZ (aug_bytes items)) ++ aug_bytes items
     | None => [] end) = lengthZ (cie_bytes c) - lengthZ (l_instructions c)) as Hp.
  { rewrite Hlen. unfold cie_body, pos. rewrite !lengthZ_app.
    change (lengthZ [l_version c]) with 1. change (lengthZ [0]) with 1. destruct (l_version c =? 4); unfold lengthZ; simpl; lia. }
  assert (lengthZ (cie_bytes c) = (if l_format64 c then 20 else 8) + (lengthZ (cie_body c) + lengthZ (l_instructions c)))
    as Hlen' by lia.
  assert (0 <= pos) as Hpos by (unfold pos, lengthZ; destruct (l_version c =? 4), (l_format64 c); lia).
  clearbody pos. clear Hlen Eh Ea Hsz. unfold aug_string in *.
  destruct (l_augmentation c) as [items|] eqn:El; cbn [app hd tl Z.eqb Pos.eqb negb].
  - pose proof (lengthZ_nonneg (aug_bytes items)). rewrite lengthZ_app in Hp.
    pose proof (lengthZ_nonneg (uleb128_encode 10 (lengthZ (aug_bytes items)))).
    rewrite <- app_assoc in Hat. eapply (at_uleb mem) in Hat as [-> Hat]; [|unfold in_unsigned; lia].
    rewrite adv_adv in *. unfold bind at 1, section_cur_offset, get. unfold bind at 1. cbn [app tl].
    eapply (read_augmentation_data_spec items) in Hat as [E Hat]; [|pose proof (ok_augmentation _ _ Hok) as Ha; by rewrite El in Ha].
    rewrite E, adv_adv. change (default [] (Some items)) with items. destruct (aug_values items _) as [[lsda pers] enc].
    unfold ret. cbn [adv section_memory_ set_section_memory advance set_cur_offset cur_offset_].
    rewrite uwrap_small by (unfold in_unsigned; lia). do 3 f_equal; [f_equal; lia|]. f_equal. lia.
  - unfold bind, section_cur_offset, get, ret. change (lengthZ (@nil Z)) with 0 in Hp.
    cbn [adv section_memory_ set_section_memory advance set_cur_offset cur_offset_ default from_option aug_values].
    do 3 f_equal; [f_equal; lia|]. f_equal. lia.
Qed.

End ReadCie.

(** ** The cache of CIEs *)

Lemma GetCie_layout {X} {V : VirtualSection X} AT mem {OK : MemoryOk mem} fuel c offset rest (s : DwarfSection X) :
  cie_ok AT c -> is_cie (l_format64 c) (l_id c) = true -> 0 <= offset ->
  holds mem offset (cie_bytes c ++ rest) -> (length (aug_string c) < fuel)%nat ->
  (cie_entries_ s !! offset = None \/ cie_entries_ s !! offset = Some (cie_of offset c)) ->
  exists d, GetCie AT mem fuel offset s =
    Ok (Some (cie_of offset c),
        set_cie_entries (<[offset := cie_of offset c]> (cie_entries_ s)) (set_section_memory d s)) /\
    d = set_cur_offset (cur_offset_ d) (section_memory_ s).
Proof.
  intros Hok Hcie Hoff Hmem Hfuel Hcache. unfold GetCie, bind at 1, get. destruct Hcache as [E|E]; rewrite E.
  - exists (set_cur_offset (offset + (lengthZ (cie_bytes c) - lengthZ (l_instructions c))) (section_memory_ s)).
    split; [|done]. erewrite on_section_ok by reflexivity. unfold bind at 1.
    by rewrite (FillInCie_layout AT mem fuel c rest).
  - exists (section_memory_ s). split; [|by destruct (section_memory_ s)].
    unfold ret. rewrite insert_id by done. by destruct s.
Qed.


(** ** The interface of the two kinds of section

    What their virtual methods compute from the cursor and the pointer they
    are given. *)
Class EntryFormat (X : Type) {V : VirtualSection X} := {
  entry_cie_offset : bool -> X -> Z -> Z -> Z;
  entry_pc : Z -> Z -> Z;
  entry_cie_offset32 p (s : DwarfSection X) :
    GetCieOffsetFromFde32 p s = entry_cie_offset false (derived s) (cur_offset_ (section_memory_ s)) p;
  entry_cie_offset64 p (s : DwarfSection X) :
    GetCieOffsetFromFde64 p s = entry_cie_offset true (derived s) (cur_offset_ (section_memory_ s)) p;
  entry_pc_adjust v (s : DwarfSection X) : AdjustPcFromFde v s = entry_pc v (cur_offset_ (section_memory_ s))
}.

(** ** The layout of an FDE *)

Record fde_layout := mkFdeLayout {
  f_format64 : bool;
  f_pointer : Z;
  f_segment : list Z;
  f_start : list Z;
  f_length : list Z;
  f_augmentation : list Z;
  f_lsda : list Z;
  f_instructions : list Z
}.

(** Whether the CIE has augmentation data, and so its FDEs. *)
Definition has_augmentation (ci : DwarfCie) : bool := hd 0 (augmentation_string ci) =? 122.

Definition fde_body (ci : DwarfCie) (f : fde_layout) : list Z :=
  f_segment f ++ f_start f ++ f_length f ++
  (if has_augmentation ci then
     uleb128_encode 10 (lengthZ (f_lsda f ++ f_augmentation f)) ++ f_lsda f ++ f_augmentation f
   else []).

Definition fde_bytes (ci : DwarfCie) (f : fde_layout) : list Z :=
  entry_header (f_format64 f) (f_pointer f) (lengthZ (fde_body ci f ++ f_instructions f)) ++
  fde_body ci f ++ f_instructions f.

Section FdeLayout.
Context {X : Type} {V : VirtualSection X} {F : EntryFormat X} (AT : AddressType) (x : X).

Local Abbreviation encoding ci := (Z.land (fde_address_encoding ci) 15).

(** The field sizes follow from the CIE: the segment selector has the size it
    gives, the addresses the size of its encoding; the lsda pointer is absent,
    or of a fixed size and without application. *)
Record fde_ok (ci : DwarfCie) (f : fde_layout) : Prop := {
  fok_pointer : in_unsigned (if f_format64 f then 64 else 32) (f_pointer f);
  fok_segment : lengthZ (f_segment f) = segment_size ci;
  fok_start : GetEncodedSize AT (encoding ci) = lengthZ (f_start f) /\ 0 < lengthZ (f_start f);
  fok_length : lengthZ (f_length f) = lengthZ (f_start f);
  fok_lsda : has_augmentation ci = true ->
    (lsda_encoding ci = DW_EH_PE_omit /\ f_lsda f = []) \/
    (in_unsigned 8 (lsda_encoding ci) /\ Z.land (lsda_encoding ci) 112 = 0 /\ lsda_encoding ci <> DW_EH_PE_omit /\
     0 < lengthZ (f_lsda f) /\ GetEncodedSize AT (lsda_encoding ci) = lengthZ (f_lsda f));
  fok_size : lengthZ (fde_bytes ci f) < 2 ^ 32 - 1
}.

(** Where the field behind the header is, and where the address ends. *)
Definition fde_header_end (start : Z) (f : fde_layout) : Z := start + (if f_format64 f then 20 else 8).

Definition fde_cie_offset (start : Z) (f : fde_layout) : Z :=
  entry_cie_offset (f_format64 f) x (fde_header_end start f) (f_pointer f).

Definition fde_of (ci : DwarfCie) (start : Z) (f : fde_layout) : DwarfFde :=
  let end_ := start + lengthZ (fde_bytes ci f) in
  let pc := entry_pc (u64 (encoding_data (encoding ci) (f_start f)))
              (fde_header_end start f + lengthZ (f_segment f ++ f_start f)) in
  mkFde (fde_cie_offset start f) (end_ - lengthZ (f_instructions f)) end_ pc
    (u64 (u64 (encoding_data (encoding ci) (f_length f)) + pc))
    (if has_augmentation ci && negb (lsda_encoding ci =? DW_EH_PE_omit)
     then u64 (encoding_data (lsda_encoding ci) (f_lsda f)) else 0)
    (Some ci).

End FdeLayout.

(** ** Reading an FDE *)

Section ReadFde.
Context {X : Type} {V : VirtualSection X} {F : EntryFormat X} (AT : AddressType) (mem : Memory) {OK : MemoryOk mem}.
Implicit Types s : DwarfSection X.

Local Abbreviation cur s := (cur_offset_ (section_memory_ s)).

Lemma read_fde_header_spec f p size rest s : section_at mem s (entry_header f p size ++ rest) ->
  0 <= size < 2 ^ 32 - 5 -> in_unsigned (if f : bool then 64 else 32) p -> is_cie f p = false ->
  let n := lengthZ (entry_header f p size) in
  cur s + n + size < 2 ^ 64 ->
  read_fde_header mem s = Ok (Some (cur s + n + size, entry_cie_offset f (derived s) (cur s + n) p), adv n s) /\
  section_at mem (adv n s) rest.
Proof.
  intros H Hs Hid Hcie n Hend. subst n. rewrite entry_header_length in *.
  assert (0 <= cur s) by apply H. unfold entry_header in H. unfold read_fde_header, is_cie in *.
  destruct f; rewrite <- !app_assoc in H.
  - eapply (at_unsigned mem 4) in H as [-> H]; [|done|done]. rewrite Z.eqb_refl.
    eapply (at_unsigned mem 8) in H as [-> H]; [|done|unfold in_unsigned; lia]. unfold bind at 1, section_cur_offset, get.
    eapply (at_unsigned mem 8) in H as [-> H]; [|done|done]. rewrite Hcie, !adv_adv in *. split; [|done].
    unfold bind, get. rewrite entry_cie_offset64.
    cbn [adv section_memory_ set_section_memory advance set_cur_offset cur_offset_ derived].
    rewrite uwrap_small by (unfold in_unsigned; lia). unfold ret. do 4 f_equal. lia.
  - eapply (at_unsigned mem 4) in H as [-> H]; [|done|unfold in_unsigned; lia].
    rewrite (proj2 (Z.eqb_neq _ _)) by lia. unfold bind at 1, section_cur_offset, get.
    eapply (at_unsigned mem 4) in H as [-> H]; [|done|done]. rewrite Hcie, !adv_adv in *. split; [|done].
    unfold bind, get. rewrite entry_cie_offset32.
    cbn [adv section_memory_ set_section_memory advance set_cur_offset cur_offset_ derived].
    rewrite uwrap_small by (unfold in_unsigned; lia). unfold ret. do 4 f_equal. lia.
Qed.

(** The augmentation of an FDE: the lsda, then the cursor behind the data. *)
Lemma read_fde_augmentation_spec ci f rest s : fde_ok AT ci f ->
  section_at mem s ((if has_augmentation ci then
    uleb128_encode 10 (lengthZ (f_lsda f ++ f_augmentation f)) ++ f_lsda f ++ f_augmentation f else []) ++ rest) ->
  let n := lengthZ (if has_augmentation ci then
    uleb128_encode 10 (lengthZ (f_lsda f ++ f_augmentation f)) ++ f_lsda f ++ f_augmentation f else []) in
  read_fde_augmentation AT mem ci s =
    Ok (Some (if has_augmentation ci && negb (lsda_encoding ci =? DW_EH_PE_omit)
              then u64 (encoding_data (lsda_encoding ci) (f_lsda f)) else 0), adv n s).
Proof.
  intros Hok H n. subst n. unfold read_fde_augmentation.
  assert ((0 <? lengthZ (augmentation_string ci)) && (hd 0 (augmentation_string ci) =? 122) = has_augmentation ci) as ->.
  { unfold has_augmentation. destruct (augmentation_string ci); [done|]. unfold lengthZ. simpl. lia. }
  destruct (has_augmentation ci) eqn:Ha; cbn [andb]; cycle 1.
  { destruct s as [[] ? ? ? ? ? ?]. unfold adv, advance, ret, lengthZ. simpl. by rewrite Z.add_0_r. }
  pose proof (fok_size _ _ _ Hok) as Hsize. unfold fde_bytes, fde_body in Hsize. rewrite Ha in Hsize.
  rewrite !lengthZ_app in *. rewrite entry_header_length in Hsize.
  pose proof (lengthZ_nonneg (f_segment f)). pose proof (lengthZ_nonneg (f_start f)). pose proof (lengthZ_nonneg (f_length f)).
  pose proof (lengthZ_nonneg (f_instructions f)). pose proof (lengthZ_nonneg (f_lsda f)). pose proof (lengthZ_nonneg (f_augmentation f)).
  set (u := lengthZ (uleb128_encode _ _)) in *. assert (0 <= u) by apply lengthZ_nonneg.
  rewrite <- !app_assoc in H. eapply (at_uleb mem) in H as [-> H]; [|unfold in_unsigned; destruct (f_format64 f); lia].
  unfold bind at 1, section_cur_offset, get. fold u in H |- *.
  assert (section_at mem (adv u s) (f_lsda f ++ f_augmentation f)) as Hb
    by (rewrite app_assoc in H; by apply (section_at_app mem) in H as [H _]).
  destruct Hb as [Hb0 Hb%(holds_bound mem)]; [|done]. rewrite lengthZ_app in Hb. 
  assert (u64 (cur (adv u s) + (lengthZ (f_lsda f) + lengthZ (f_augmentation f))) =
          cur s + (u + (lengthZ (f_lsda f) + lengthZ (f_augmentation f)))) as ->
    by (simpl in *; rewrite uwrap_small; unfold in_unsigned; lia).
  destruct (fok_lsda _ _ _ Hok Ha) as [[Ho Hl]|(He & Happ & Hno & Hpos & Hsz)].
  - rewrite Ho. cbn [negb Z.eqb]. erewrite read_or_fail_ok; [|reflexivity]. erewrite on_section_ok by reflexivity.
    unfold ret. done.
  - eapply (at_encoded mem AT) in H as [-> _]; try done. rewrite (proj2 (Z.eqb_neq _ _)) by done.
    erewrite on_section_ok by reflexivity. done.
Qed.

Lemma fde_bytes_length ci f : lengthZ (fde_bytes ci f) =
  (if f_format64 f then 20 else 8) + lengthZ (fde_body ci f) + lengthZ (f_instructions f).
Proof. unfold fde_bytes. rewrite !lengthZ_app, entry_header_length. lia. Qed.

(** The encoding of the addresses has no application left. *)
Lemma land15_plain e : in_unsigned 8 (Z.land e 15) /\ Z.land (Z.land e 15) 112 = 0 /\ Z.land e 15 <> DW_EH_PE_omit.
Proof.
  change 15 with (Z.ones 4). rewrite Z.land_ones by done. pose proof (Z.mod_pos_bound e (2 ^ 4)) as H.
  split_and!; [unfold in_unsigned; lia..| |unfold DW_EH_PE_omit; lia].
  rewrite <- Z.land_ones by done. rewrite <- Z.land_assoc. change (Z.land (Z.ones 4) 112) with 0. apply Z.land_0_r.
Qed.

Lemma adv_set_cie_entries n m s : adv n (set_cie_entries m s) = set_cie_entries m (adv n s).
Proof. done. Qed.

Lemma section_at_set_cie_entries m s bs : section_at mem (set_cie_entries m s) bs <-> section_at mem s bs.
Proof. done. Qed.

(** Back behind the header of the FDE, and over the segment selector. *)
Lemma seek_segment h g ci m d s : d = set_cur_offset (cur_offset_ d) (section_memory_ (adv h s)) ->
  0 <= cur s -> 0 <= h -> 0 <= g -> cur s + (h + g) < 2 ^ 64 -> g = segment_size ci ->
  set_section_memory
    (set_cur_offset (if negb (segment_size ci =? 0) then u64 (cur (adv h s) + segment_size ci) else cur (adv h s))
       (section_memory_ (set_cie_entries m (set_section_memory d (adv h s)))))
    (set_cie_entries m (set_section_memory d (adv h s))) = set_cie_entries m (adv (h + g) s).
Proof.
  intros Hd Hc Hh Hg Hb <-.
  assert ((if negb (g =? 0) then u64 (cur (adv h s) + g) else cur (adv h s)) = cur s + (h + g)) as ->.
  { simpl. destruct (Z.eqb_spec g 0) as [->|]; simpl; [lia|]. rewrite uwrap_small; unfold in_unsigned; lia. }
  rewrite Hd. by destruct s as [[] ? ? ? ? ? ?].
Qed.

Lemma FillInFde_layout fuel ci m f rest s : fde_ok AT ci f -> is_cie (f_format64 f) (f_pointer f) = false ->
  section_at mem s (fde_bytes ci f ++ rest) ->
  (forall s1, cie_entries_ s1 = cie_entries_ s -> exists d,
     GetCie AT mem fuel (fde_cie_offset (derived s) (cur s) f) s1 =
       Ok (Some ci, set_cie_entries m (set_section_memory d s1)) /\
     d = set_cur_offset (cur_offset_ d) (section_memory_ s1)) ->
  FillInFde AT mem fuel s = Ok (Some (fde_of (derived s) ci (cur s) f),
    set_cie_entries m (adv (lengthZ (fde_bytes ci f) - lengthZ (f_instructions f)) s)).
Proof.
  intros Hok Hcie Hat Hget. pose proof (fde_bytes_length ci f) as Hlen. pose proof (fok_size _ _ _ Hok) as Hsize.
  assert (cur s + lengthZ (fde_bytes ci f) < 2 ^ 64) as Hbound.
  { apply (section_at_app mem) in Hat as [[H0 H1] _]. by apply (holds_bound mem) in H1. }
  pose proof (lengthZ_nonneg (fde_body ci f)). pose proof (lengthZ_nonneg (f_instructions f)).
  unfold fde_bytes in Hat. rewrite <- !app_assoc in Hat.
  assert (lengthZ (fde_body ci f ++ f_instructions f) = lengthZ (fde_body ci f) + lengthZ (f_instructions f)) as Hsz
    by apply lengthZ_app.
  pose proof Hat as [Hat0 _].
  apply (read_fde_header_spec (f_format64 f) (f_pointer f)) in Hat as [Eh Hat];
    [|destruct (f_format64 f); lia|apply Hok|done|rewrite entry_header_length; lia].
  rewrite entry_header_length, Hsz in Eh. rewrite entry_header_length in Hat.
  set (h := if f_format64 f then 20 else 8) in *.
  unfold FillInFde. unfold bind at 1. rewrite Eh. cbn match beta. unfold bind at 1, section_cur_offset, get at 1.
  destruct (Hget (adv h s)) as (d & Ed & Hd); [done|]. unfold fde_cie_offset, fde_header_end in Ed. fold h in Ed.
  unfold bind at 1. rewrite Ed. erewrite on_section_ok by reflexivity.
  pose proof (land15_plain (fde_address_encoding ci)) as (He1 & He2 & He3).
  destruct (fok_start _ _ _ Hok) as [Hst1 Hst2]. pose proof (fok_length _ _ _ Hok) as Hln.
  pose proof (fok_segment _ _ _ Hok) as Hseg. set (g := lengthZ (f_segment f)) in *.
  assert (0 <= g) by apply lengthZ_nonneg. assert (g <= lengthZ (fde_body ci f)).
  { unfold fde_body. rewrite lengthZ_app. fold g. pose proof (lengthZ_nonneg (f_start f ++ f_length f ++
      (if has_augmentation ci then uleb128_encode 10 (lengthZ (f_lsda f ++ f_augmentation f)) ++ f_lsda f ++ f_augmentation f else []))). lia. }
  rewrite (seek_segment h g ci m d s Hd) by (unfold h in *; try destruct (f_format64 f); lia).
  unfold fde_body in Hat. rewrite <- !app_assoc in Hat. apply (section_at_app mem) in Hat as [_ Hat]. rewrite adv_adv in Hat. fold g in Hat.
  rewrite <- (section_at_set_cie_entries m) in Hat.
  eapply (at_encoded mem AT) in Hat as [-> Hat]; try done. unfold bind at 1, get at 1. rewrite entry_pc_adjust.
  eapply (at_encoded mem AT) in Hat as [-> Hat]; try done; [|lia..].
  unfold bind at 1. rewrite (read_fde_augmentation_spec ci f (f_instructions f ++ rest)) by done.
  unfold bind, get, ret. rewrite !adv_set_cie_entries, !adv_adv. unfold fde_of, fde_cie_offset, fde_header_end. fold h.
  assert (lengthZ (fde_body ci f) = g + lengthZ (f_start f) + lengthZ (f_length f) +
    lengthZ (if has_augmentation ci then uleb128_encode 10 (lengthZ (f_lsda f ++ f_augmentation f)) ++ f_lsda f ++ f_augmentation f else []))
    as Hbody by (unfold fde_body; rewrite !lengthZ_app; fold g; lia).
  rewrite (lengthZ_app (f_segment f)). fold g.
  cbn [adv section_memory_ set_section_memory advance set_cur_offset cur_offset_ set_cie_entries].
  replace (cur s + (h + g + lengthZ (f_start f))) with (cur s + h + (g + lengthZ (f_start f))) by lia.
  do 3 f_equal; [f_equal; lia|f_equal; f_equal; lia].
Qed.

(** What reading an entry may change. *)
Record entry_frame s s' : Prop := {
  entry_frame_derived : derived s' = derived s;
  entry_frame_memory : section_memory_ s' = set_cur_offset (cur s') (section_memory_ s);
  entry_frame_loc_regs : cie_loc_regs_ s' = cie_loc_regs_ s;
  entry_frame_count : fde_count_ s' = fde_count_ s;
  entry_frame_error : section_last_error_ s' = section_last_error_ s
}.

Lemma GetFdeFromOffset_layout fuel c f off s :
  let coff := fde_cie_offset (derived s) off f in
  let ci := cie_of coff c in
  cie_ok AT c -> is_cie (l_format64 c) (l_id c) = true -> 0 <= coff -> holds mem coff (cie_bytes c) ->
  (length (aug_string c) < fuel)%nat -> cie_entries_ s !! coff = None \/ cie_entries_ s !! coff = Some ci ->
  fde_ok AT ci f -> is_cie (f_format64 f) (f_pointer f) = false -> 0 <= off -> holds mem off (fde_bytes ci f) ->
  fde_entries_ s !! off = None ->
  exists s', GetFdeFromOffset AT mem fuel off s = Ok (Some (fde_of (derived s) ci off f), s') /\ entry_frame s s' /\
    fde_entries_ s' = <[off := fde_of (derived s) ci off f]> (fde_entries_ s) /\
    cie_entries_ s' = <[coff := ci]> (cie_entries_ s) /\
    cur s' = off + (lengthZ (fde_bytes ci f) - lengthZ (f_instructions f)).
Proof.
  intros coff ci Hc Hid Hcoff Hcm Hfuel Hcache Hf Hp Hoff Hfm Hnone. unfold GetFdeFromOffset, bind at 1, get at 1.
  rewrite Hnone. erewrite on_section_ok by reflexivity. set (s0 := set_section_memory _ s).
  assert (section_at mem s0 (fde_bytes ci f ++ [])) as Hat by (rewrite app_nil_r; by split).
  unfold bind at 1. rewrite (FillInFde_layout fuel ci (<[coff := ci]> (cie_entries_ s)) f [] s0); try done.
  - eexists. split; [reflexivity|]. by split_and!.
  - intros s1 E. change (fde_cie_offset (derived s0) (cur s0) f) with coff.
    destruct (GetCie_layout AT mem fuel c coff [] s1) as (d & Ed & Hd); try done; rewrite ?app_nil_r; try done;
      [by rewrite E|]. exists d. by rewrite Ed, E.
Qed.

End ReadFde.

