(* ===== verification/DwarfEhFrame.v ===== *)
(** * DwarfEhFrame: .eh_frame with its search table
    (libunwindstack/DwarfEhFrame.cpp, DwarfEhFrame.h)

    [Init] reads the header of .eh_frame_hdr; the lookups read entries of the
    table on demand and keep them in [fde_info_].  A table whose entries have a
    fixed size is searched by bisection, any other one from its start. *)

From stdpp Require Import sorting.
From S2P Require Import Prelude Memory DwarfMemory DwarfCfa DwarfSection DwarfEntries.

Record FdeInfo := mkFdeInfo { info_pc : Z; info_offset : Z }.

#[global] Instance FdeInfo_eq_dec : EqDecision FdeInfo.
Proof. solve_decision. Defined.

Record EhFrame := mkEhFrame {
  version_ : Z;
  ptr_encoding_ : Z;
  table_encoding_ : Z;
  table_entry_size_ : Z;
  ptr_offset_ : Z;
  entries_offset_ : Z;
  entries_end_ : Z;
  entries_data_offset_ : Z;
  cur_entries_offset_ : Z;
  fde_info_ : gmap Z FdeInfo
}.

(** The members without an initialiser are indeterminate until [Init] writes
    them; [Init] is the first call. *)
Definition new_EhFrame : EhFrame := mkEhFrame 0 0 0 0 0 0 0 0 0 ∅.

Definition set_fde_info (x : gmap Z FdeInfo) (e : EhFrame) : EhFrame :=
  mkEhFrame (version_ e) (ptr_encoding_ e) (table_encoding_ e) (table_entry_size_ e) (ptr_offset_ e)
    (entries_offset_ e) (entries_end_ e) (entries_data_offset_ e) (cur_entries_offset_ e) x.
Definition set_cur_entries_offset (x : Z) (e : EhFrame) : EhFrame :=
  mkEhFrame (version_ e) (ptr_encoding_ e) (table_encoding_ e) (table_entry_size_ e) (ptr_offset_ e)
    (entries_offset_ e) (entries_end_ e) (entries_data_offset_ e) x (fde_info_ e).

Section EhFrame.
Context (AT : AddressType) (mem : Memory).

Local Abbreviation uA := (uwrap (bits AT)).
Local Abbreviation S := (DwarfSection EhFrame).

Definition eh {A} (f : EhFrame -> A) : M S A := get (fun s => f (derived s)).
Definition modify_eh (f : EhFrame -> EhFrame) : M S unit := modify (fun s => set_derived (f (derived s)) s).

(** [last_error_ = e; return false;] *)
Definition eh_fail (e : DwarfError) : M S bool := modify (set_section_error e) ;; ret false.

(** [memory_.set_pc_offset(memory_.cur_offset())] *)
Definition set_pc_here : M S unit := on_section (modify (fun d => set_pc_offset (cur_offset_ d) d)).

(** [Init]; the section's members keep what they had where the code returns
    early. *)
Definition EhFrame_Init (offset size : Z) : M S bool :=
  on_section (modify clear_func_offset) ;;
  on_section (modify clear_text_offset) ;;
  on_section (modify (set_data_offset offset)) ;;
  on_section (modify (set_cur_offset offset)) ;;
  let? data := on_section (ReadBytes mem 4) else eh_fail DWARF_ERROR_MEMORY_INVALID in
  match data with
  | [version; ptr_encoding; fde_count_encoding; table_encoding] =>
      modify_eh (fun e => mkEhFrame version (ptr_encoding_ e) (table_encoding_ e) (table_entry_size_ e) (ptr_offset_ e)
        (entries_offset_ e) (entries_end_ e) (entries_data_offset_ e) (cur_entries_offset_ e) (fde_info_ e)) ;;
      if negb (version =? 1) then eh_fail DWARF_ERROR_UNSUPPORTED_VERSION
      else
        modify_eh (fun e => mkEhFrame version ptr_encoding table_encoding (GetEncodedSize AT table_encoding)
          (ptr_offset_ e) (entries_offset_ e) (entries_end_ e) (entries_data_offset_ e) (cur_entries_offset_ e)
          (fde_info_ e)) ;;
        set_pc_here ;;
        let? ptr_offset := on_section (ReadEncodedValue mem AT ptr_encoding)
          else eh_fail DWARF_ERROR_MEMORY_INVALID in
        modify_eh (fun e => mkEhFrame version ptr_encoding table_encoding (table_entry_size_ e) ptr_offset
          (entries_offset_ e) (entries_end_ e) (entries_data_offset_ e) (cur_entries_offset_ e) (fde_info_ e)) ;;
        set_pc_here ;;
        let? fde_count := on_section (ReadEncodedValue mem AT fde_count_encoding)
          else eh_fail DWARF_ERROR_MEMORY_INVALID in
        modify (set_fde_count fde_count) ;;
        cur <- section_cur_offset ;;
        modify_eh (fun e => mkEhFrame version ptr_encoding table_encoding (table_entry_size_ e) ptr_offset
          cur (u64 (offset + size)) offset cur (fde_info_ e)) ;;
        ret true
  | _ => undef
  end.

(** [None] is the null pointer. *)
Definition GetFdeInfoFromIndex (index : Z) : M S (option FdeInfo) :=
  infos <- eh fde_info_ ;;
  match infos !! index with
  | Some info => ret (Some info)
  | None =>
      e <- eh id ;;
      on_section (modify (set_data_offset (entries_data_offset_ e))) ;;
      on_section (modify (set_cur_offset (u64 (entries_offset_ e + u64 (u64 (2 * index) * table_entry_size_ e))))) ;;
      set_pc_here ;;
      read_or_fail (ReadEncodedValue mem AT (table_encoding_ e)) (fun value =>
        read_or_fail (ReadEncodedValue mem AT (table_encoding_ e)) (fun offset =>
          let info := mkFdeInfo (uA (value + 4)) offset in
          modify_eh (fun e => set_fde_info (<[index := info]> (fde_info_ e)) e) ;;
          ret (Some info)))
  end.

Definition EhFrame_GetFdeFromIndex {V : VirtualSection EhFrame} (fuel : nat) (index : Z) : M S (option DwarfFde) :=
  let? info := GetFdeInfoFromIndex index else ret None in
  GetFdeFromOffset AT mem fuel (info_offset info).

(** One round of the bisection, over [first] and [last]; a null [info] is
    dereferenced. *)
Definition GetFdeOffsetBinary_round (pc : Z) (l : Z * Z) : M S (Z * Z + (Z * Z + Z)) :=
  let '(first, last) := l in
  if first <? last then
    let current := u64 (first + last) / 2 in
    let? info := GetFdeInfoFromIndex current else undef in
    if pc =? info_pc info then ret (inr (inr (info_offset info)))
    else if pc <? info_pc info then ret (inl (first, current))
    else ret (inl (u64 (current + 1), last))
  else ret (inr (inl (first, last))).

Definition GetFdeOffsetBinary (fuel : nat) (pc total_entries : Z) : M S (option Z) :=
  fde_count <- get fde_count_ ;;
  CHECK (0 <? fde_count) ;;
  CHECK (total_entries <=? fde_count) ;;
  r <- iter fuel (GetFdeOffsetBinary_round pc) (0, total_entries) ;;
  match r with
  | inr offset => ret (Some offset)
  | inl (_, last) =>
      if negb (last =? 0) then
        let? info := GetFdeInfoFromIndex (last - 1) else undef in
        ret (Some (info_offset info))
      else ret None
  end.

(** The loop over the entries not read yet, from index [current]; [prev] is
    [*prev_info].  It leaves with the result, or with [prev] at its end. *)
Definition GetFdeOffsetSequential_round (pc : Z) (l : Z * option FdeInfo) :
    M S (Z * option FdeInfo + (option FdeInfo + option Z)) :=
  let '(current, prev) := l in
  fde_count <- get fde_count_ ;;
  cur <- section_cur_offset ;;
  e <- eh id ;;
  let failed := modify (set_section_error DWARF_ERROR_MEMORY_INVALID) ;; ret (inr (inr None)) in
  if (current <? fde_count) && (cur <? entries_end_ e) then
    set_pc_here ;;
    let? value := on_section (ReadEncodedValue mem AT (table_encoding_ e)) else failed in
    let? offset := on_section (ReadEncodedValue mem AT (table_encoding_ e)) else failed in
    let info := mkFdeInfo (uA (value + 4)) offset in
    modify_eh (fun e => set_fde_info (<[current := info]> (fde_info_ e)) e) ;;
    if pc <? info_pc info then
      match prev with
      | None => ret (inr (inr None))
      | Some prev =>
          cur <- section_cur_offset ;;
          modify_eh (set_cur_entries_offset cur) ;;
          ret (inr (inr (Some (info_offset prev))))
      end
    else ret (inl (current + 1, Some info))
  else ret (inr (inl prev)).

(** [fde_info_[index]], which inserts a zero entry when there is none. *)
Definition fde_info_at (index : Z) : M S FdeInfo :=
  infos <- eh fde_info_ ;;
  match infos !! index with
  | Some info => ret info
  | None =>
      modify_eh (fun e => set_fde_info (<[index := mkFdeInfo 0 0]> (fde_info_ e)) e) ;;
      ret (mkFdeInfo 0 0)
  end.

(** The part of [GetFdeOffsetSequential] that reads the table. *)
Definition read_entries (fuel : nat) (pc : Z) : M S (option Z) :=
  cur_entries_offset <- eh cur_entries_offset_ ;;
  if cur_entries_offset =? 0 then ret None
  else
    data_offset <- eh entries_data_offset_ ;;
    on_section (modify (set_data_offset data_offset)) ;;
    on_section (modify (set_cur_offset cur_entries_offset)) ;;
    modify_eh (set_cur_entries_offset 0) ;;
    size <- eh (fun e => Z.of_nat (size (fde_info_ e))) ;;
    r <- iter fuel (GetFdeOffsetSequential_round pc) (size, None) ;;
    match r with
    | inr result => ret result
    | inl prev =>
        fde_count <- get fde_count_ ;;
        infos <- eh fde_info_ ;;
        if fde_count =? Z.of_nat (base.size infos) then
          match prev with
          | None => undef
          | Some prev => if info_pc prev <=? pc then ret (Some (info_offset prev)) else ret None
          end
        else ret None
    end.

Definition GetFdeOffsetSequential (fuel : nat) (pc : Z) : M S (option Z) :=
  fde_count <- get fde_count_ ;;
  CHECK (negb (fde_count =? 0)) ;;
  modify (set_section_error DWARF_ERROR_NONE) ;;
  size <- eh (fun e => Z.of_nat (base.size (fde_info_ e))) ;;
  if negb (size =? 0) then
    info <- fde_info_at (size - 1) ;;
    if info_pc info <=? pc then ret (Some (info_offset info))
    else
      size <- eh (fun e => Z.of_nat (base.size (fde_info_ e))) ;;
      GetFdeOffsetBinary fuel pc size
  else read_entries fuel pc.

Definition EhFrame_GetFdeOffsetFromPc (fuel : nat) (pc : Z) : M S (option Z) :=
  fde_count <- get fde_count_ ;;
  if fde_count =? 0 then ret None
  else
    entry_size <- eh table_entry_size_ ;;
    if 0 <? entry_size then GetFdeOffsetBinary fuel pc fde_count
    else GetFdeOffsetSequential fuel pc.

(** The virtual methods; [fuel] bounds the loops of the lookup. *)
Definition EhFrame_section (fuel : nat) : VirtualSection EhFrame := {|
  IsCie32 value32 := value32 =? 0;
  IsCie64 value64 := value64 =? 0;
  GetCieOffsetFromFde32 pointer s := u64 (cur_offset_ (section_memory_ s) - pointer - 4);
  GetCieOffsetFromFde64 pointer s := u64 (cur_offset_ (section_memory_ s) - pointer - 8);
  AdjustPcFromFde pc s := u64 (pc + cur_offset_ (section_memory_ s));
  GetFdeOffsetFromPc pc := EhFrame_GetFdeOffsetFromPc fuel pc
|}.

End EhFrame.

(** ** The format of the entries

    The pointer of an FDE is a distance back from where it is read; its address
    is relative. *)
#[global] Instance EhFrame_format AT mem fuel : @EntryFormat EhFrame (EhFrame_section AT mem fuel).
Proof.
  by exists (fun (format64 : bool) _ cur pointer => u64 (cur - pointer - (if format64 then 8 else 4)))
            (fun v cur => u64 (v + cur)).
Defined.

(** ** The bisection *)

Section Binary.
Context (AT : AddressType) (mem : Memory) {OK : MemoryOk mem}.

Local Abbreviation uA := (uwrap (bits AT)).
Local Abbreviation S := (DwarfSection EhFrame).
Implicit Types s : S.

(** The entry of index [i] as the section's memory holds it: the little-endian
    values of its two fields, plus the base of the encoding; the code adds 4 to
    the address. *)
Definition entry_address s (i : Z) : Z := entries_offset_ (derived s) + 2 * i * table_entry_size_ (derived s).

Definition table_entry s (i : Z) : option FdeInfo :=
  let e := derived s in
  let n := table_entry_size_ e in
  let a := entry_address s i in
  base ← encoding_base (table_encoding_ e)
           (set_pc_offset a (set_data_offset (entries_data_offset_ e) (section_memory_ s)));
  pc ← Read mem a n;
  offset ← Read mem (a + n) n;
  Some (mkFdeInfo (uA (u64 (encoding_data (table_encoding_ e) pc + base) + 4))
          (u64 (encoding_data (table_encoding_ e) offset + base))).

(** What a lookup changes: the cursor, the bases it sets itself, the cache. *)
Record lookup_frame s s' : Prop := {
  frame_derived : derived s' = set_fde_info (fde_info_ (derived s')) (derived s);
  frame_text : text_offset_ (section_memory_ s') = text_offset_ (section_memory_ s);
  frame_func : func_offset_ (section_memory_ s') = func_offset_ (section_memory_ s);
  frame_count : fde_count_ s' = fde_count_ s;
  frame_entries : fde_entries_ s' = fde_entries_ s /\ cie_entries_ s' = cie_entries_ s /\
                  cie_loc_regs_ s' = cie_loc_regs_ s /\ section_last_error_ s' = section_last_error_ s
}.

Lemma lookup_frame_refl s : lookup_frame s s.
Proof. split; try done. by destruct (derived s). Qed.

Lemma lookup_frame_trans s1 s2 s3 : lookup_frame s1 s2 -> lookup_frame s2 s3 -> lookup_frame s1 s3.
Proof.
  intros [H1 H2 H3 H4 H5] [K1 K2 K3 K4 K5]. split; [rewrite K1 at 1; by rewrite H1|congruence..|].
  destruct_and! H5. destruct_and! K5. split_and!; congruence.
Qed.

Lemma table_entry_frame s s' i : lookup_frame s s' -> table_entry s' i = table_entry s i.
Proof.
  intros [H1 H2 H3 H4 H5]. unfold table_entry, entry_address. rewrite H1. simpl.
  unfold encoding_base. simpl. by rewrite H2, H3.
Qed.

(** The table has fields of a fixed size that are not of the aligned kind, and
    the cache agrees with it. *)
Record table_ok s : Prop := {
  table_ok_encoding : in_unsigned 8 (table_encoding_ (derived s)) /\
    Z.land (table_encoding_ (derived s)) 112 <> DW_EH_PE_aligned;
  table_ok_size : table_entry_size_ (derived s) = GetEncodedSize AT (table_encoding_ (derived s)) /\
    0 < table_entry_size_ (derived s);
  table_ok_offset : 0 <= entries_offset_ (derived s);
  table_ok_cache i info : fde_info_ (derived s) !! i = Some info -> table_entry s i = Some info
}.

Lemma table_ok_frame s s' : table_ok s -> lookup_frame s s' ->
  (forall i info, fde_info_ (derived s') !! i = Some info -> table_entry s i = Some info) -> table_ok s'.
Proof.
  intros [H1 H2 H3 H4] Hf Hc. pose proof (frame_derived _ _ Hf) as E.
  split; [rewrite E; done..|]. intros i info Hi. rewrite (table_entry_frame s s' i Hf). by apply Hc.
Qed.

Lemma GetFdeInfoFromIndex_spec s i info : table_ok s -> 0 <= i -> table_entry s i = Some info ->
  exists s', GetFdeInfoFromIndex AT mem i s = Ok (Some info, s') /\ lookup_frame s s' /\ table_ok s'.
Proof.
  intros Hok Hi He. unfold GetFdeInfoFromIndex, eh. unfold bind at 1, get at 1.
  destruct (fde_info_ (derived s) !! i) as [info'|] eqn:Ec.
  { exists s. apply (table_ok_cache _ Hok) in Ec. rewrite He in Ec. injection Ec as ->.
    split_and!; [done|apply lookup_frame_refl|done]. }
  destruct Hok as [[Hu8 Hal] [Hsz Hpos] Hoff Hc]. unfold table_entry in He.
  destruct (encoding_base _ _) as [base|] eqn:Hb; [|done]. simpl in He.
  destruct (Read mem (entry_address s i) _) as [bs|] eqn:Hr1; [|done]. simpl in He.
  destruct (Read mem (entry_address s i + _) _) as [bs'|] eqn:Hr2; [|done]. injection He as <-.
  set (n := table_entry_size_ (derived s)) in *. set (a := entry_address s i) in *.
  assert (0 <= a) as Ha by (unfold a, entry_address; fold n; nia).
  pose proof (Read_length a n bs Ha ltac:(lia) Hr1) as Hl1.
  pose proof (Read_length (a + n) n bs' ltac:(lia) ltac:(lia) Hr2) as Hl2.
  pose proof (Read_no_overflow a n bs Ha ltac:(lia) Hr1) as Hov.
  assert (holds mem a bs) as Hh1 by (unfold holds, lengthZ; by rewrite Hl1).
  assert (holds mem (a + n) bs') as Hh2 by (unfold holds, lengthZ; by rewrite Hl2).
  unfold bind at 1, get at 1, id. do 2 (erewrite on_section_ok by reflexivity). unfold set_pc_here.
  erewrite on_section_ok by reflexivity. cbn [section_memory_ set_section_memory]. fold n.
  assert (u64 (entries_offset_ (derived s) + u64 (u64 (2 * i) * n)) = a) as ->.
  { rewrite uwrap_add_r. unfold uwrap at 2. rewrite <- uwrap_add_r. unfold uwrap at 2. rewrite Zmult_mod_idemp_l.
    fold (u64 (2 * i * n)). rewrite uwrap_add_r. apply uwrap_small. unfold in_unsigned. fold a. lia. }
  set (d := set_pc_offset _ _).
  assert (encoding_base (table_encoding_ (derived s)) d = Some base) as Hbd by done.
  assert (table_encoding_ (derived s) <> DW_EH_PE_aligned) by (by intros E; rewrite E in Hal).
  assert (forall d' bs, 0 <= cur_offset_ d' -> encoding_base (table_encoding_ (derived s)) d' = Some base ->
    lengthZ bs = n -> holds mem (cur_offset_ d') bs ->
    ReadEncodedValue mem AT (table_encoding_ (derived s)) d' =
      Ok (Some (u64 (encoding_data (table_encoding_ (derived s)) bs + base)), advance n d')) as Hread.
  { intros d' bs0 Hd' Hb' Hl Hh. rewrite (ReadEncodedValue_fixed_size mem OK AT _ d' bs0); try done; [|lia..].
    rewrite (proj2 (Z.eqb_neq _ _)) by done. by rewrite Hb', Hl. }
  erewrite read_or_fail_ok by (apply (Hread d bs); done).
  erewrite read_or_fail_ok by (apply (Hread (advance n d) bs'); [simpl; lia|done..]).
  set (info := mkFdeInfo _ _). eexists. split; [reflexivity|].
  match goal with |- lookup_frame s ?s' /\ _ => assert (lookup_frame s s') as Hf by (by split; [destruct s as [? ? ? ? ? ? []]|..]) end.
  split; [done|]. apply (table_ok_frame s); [done..|]. intros j info' Hj. simpl in Hj.
  destruct (decide (i = j)) as [<-|Hne]; [|rewrite lookup_insert_ne in Hj by done; by apply Hc].
  rewrite lookup_insert_eq in Hj. injection Hj as <-. unfold table_entry. fold n a. by rewrite Hb, Hr1, Hr2.
Qed.

(** The entry a search for [pc] is to find: the last that does not start
    behind it. *)
Definition last_before (pc : Z) (entries : list FdeInfo) : option FdeInfo :=
  last (filter (fun e => info_pc e <= pc) entries).

Lemma filter_split pc entries k : (forall i e, (i < k)%nat -> entries !! i = Some e -> info_pc e <= pc) ->
  (forall i e, (k <= i)%nat -> entries !! i = Some e -> pc < info_pc e) ->
  filter (fun e => info_pc e <= pc) entries = take k entries.
Proof.
  intros Hlow Hhigh. rewrite <- (take_drop k entries) at 1. rewrite filter_app.
  assert (filter (fun e => info_pc e <= pc) (drop k entries) = []) as ->.
  { apply filter_none, Forall_lookup. intros i e. rewrite lookup_drop. intros He.
    pose proof (Hhigh (k + i)%nat e ltac:(lia) He). lia. }
  rewrite app_nil_r. apply filter_all, Forall_lookup. intros i e He.
  apply lookup_take_Some in He as [He Hi]. by eapply Hlow.
Qed.

Lemma last_before_split pc entries k : (k <= length entries)%nat ->
  (forall i e, (i < k)%nat -> entries !! i = Some e -> info_pc e <= pc) ->
  (forall i e, (k <= i)%nat -> entries !! i = Some e -> pc < info_pc e) ->
  last_before pc entries = if decide (k = 0%nat) then None else entries !! pred k.
Proof.
  intros Hk Hlow Hhigh. unfold last_before. rewrite (filter_split pc entries k) by done.
  rewrite last_lookup, length_take_le by done. destruct k as [|k]; [done|]. simpl.
  rewrite lookup_take_lt by lia. done.
Qed.

Context (s0 : S) (entries : list FdeInfo) (pc : Z).
Context (Htable : forall i e, entries !! i = Some e -> table_entry s0 (Z.of_nat i) = Some e).
Context (Hsorted : StronglySorted (fun a b => info_pc a < info_pc b) entries).
Context (Hlen : lengthZ entries < 2 ^ 63).

Lemma sorted_lookup i j a b : (i < j)%nat -> entries !! i = Some a -> entries !! j = Some b -> info_pc a < info_pc b.
Proof.
  clear Htable Hlen. revert i j. induction Hsorted as [|x l Hl IH Hx]; intros [|i] [|j] Hij Ha Hb; simplify_eq/=; try lia.
  - by apply (Forall_lookup_1 _ _ _ _ Hx Hb).
  - eapply (IH ltac:(done) i j); [lia|done|done].
Qed.

(** Every entry before [first] starts before the pc, every one from [last] on
    behind it. *)
Record bisecting (fl : Z * Z) s : Prop := {
  bisecting_frame : lookup_frame s0 s /\ table_ok s;
  bisecting_range : 0 <= fl.1 <= fl.2 /\ fl.2 <= lengthZ entries;
  bisecting_low i e : Z.of_nat i < fl.1 -> entries !! i = Some e -> info_pc e < pc;
  bisecting_high i e : fl.2 <= Z.of_nat i -> entries !! i = Some e -> pc < info_pc e
}.

Definition bisected (r : Z * Z + Z) s : Prop :=
  match r with
  | inr offset => lookup_frame s0 s /\ table_ok s /\ info_offset <$> last_before pc entries = Some offset
  | inl fl => bisecting fl s /\ fl.1 = fl.2
  end.

Lemma wp_binary_round fl s : bisecting fl s ->
  wp nothing (GetFdeOffsetBinary_round AT mem pc fl) (fun r s' => match r with
    | inl fl' => bisecting fl' s' /\ (halvings (fl'.2 - fl'.1) < halvings (fl.2 - fl.1))%nat
    | inr r => bisected r s' end) s.
Proof.
  intros [[Hf Hok] Hr Hlow Hhigh]. destruct fl as [first last]. simpl in *. unfold GetFdeOffsetBinary_round.
  destruct (Z.ltb_spec first last) as [Hlt|Hge]; [|by wp_step; split; [|simpl; lia]].
  destruct (bisect first last) as (Hc & Hc1 & Hm1 & Hm2); [lia|lia|].
  set (current := u64 (first + last) / 2) in *. clearbody current.
  destruct (entries !! Z.to_nat current) as [e|] eqn:Ee; [|apply lookup_ge_None in Ee; unfold lengthZ in *; lia].
  pose proof (Htable _ _ Ee) as Ht. rewrite Z2Nat.id in Ht by lia. rewrite <- (table_entry_frame s0 s) in Ht by done.
  destruct (GetFdeInfoFromIndex_spec s current e Hok ltac:(lia) Ht) as (s' & E & Hf' & Hok').
  assert (lookup_frame s0 s') as Hf0 by (by eapply lookup_frame_trans).
  apply wp_bind. unfold wp at 1. rewrite E.
  destruct (Z.eqb_spec pc (info_pc e)) as [Heq|Hne].
  - wp_step. split_and!; [done|done|]. rewrite (last_before_split _ entries (Datatypes.S (Z.to_nat current))).
    + by rewrite decide_False, Nat.pred_succ, Ee by done.
    + apply lookup_lt_Some in Ee. lia.
    + intros i a Hi Ha. destruct (decide (i = Z.to_nat current)) as [->|]; [simplify_eq; lia|].
      pose proof (sorted_lookup i (Z.to_nat current) a e ltac:(lia) Ha Ee). lia.
    + intros i a Hi Ha. rewrite Heq. apply (sorted_lookup (Z.to_nat current) i e a); [lia|done|done].
  - destruct (Z.ltb_spec pc (info_pc e)); wp_step; rewrite ?Hc1; (split; [|done]); split; simpl; try done; try lia.
    + intros i a Hi Ha. destruct (decide (i = Z.to_nat current)) as [->|]; [by simplify_eq|].
      pose proof (sorted_lookup (Z.to_nat current) i e a ltac:(lia) Ee Ha). lia.
    + intros i a Hi Ha. destruct (decide (i = Z.to_nat current)) as [->|]; [simplify_eq; lia|].
      pose proof (sorted_lookup i (Z.to_nat current) a e ltac:(lia) Ha Ee). lia.
Qed.

Lemma GetFdeOffsetBinary_spec fuel : table_ok s0 -> fde_count_ s0 = lengthZ entries -> 0 < lengthZ entries ->
  (64 < fuel)%nat -> exists s', GetFdeOffsetBinary AT mem fuel pc (lengthZ entries) s0 =
    Ok (info_offset <$> last_before pc entries, s') /\ lookup_frame s0 s' /\ table_ok s'.
Proof.
  intros Hok Hcount Hpos Hfuel. unfold GetFdeOffsetBinary. unfold bind at 1, get at 1. rewrite Hcount.
  unfold bind at 1, CHECK at 1. rewrite (proj2 (Z.ltb_lt _ _)) by done. cbn [ret].
  unfold bind at 1, CHECK at 1. rewrite Z.leb_refl. cbn [ret]. unfold bind at 1.
  destruct (wp_total (iter fuel (GetFdeOffsetBinary_round AT mem pc) (0, lengthZ entries)) bisected s0)
    as (r & s1 & -> & Hb).
  { apply (wp_iter nothing _ bisecting (fun fl _ => halvings (fl.2 - fl.1))).
    - intros fl s Hfl. by apply wp_binary_round.
    - split; simpl; [split; [apply lookup_frame_refl|done]|lia|lia|].
      intros i e Hi He%lookup_lt_Some. unfold lengthZ in *. lia.
    - simpl. pose proof (halvings_bound (lengthZ entries - 0) ltac:(lia)). lia. }
  destruct r as [[first last]|offset]; [|destruct Hb as (H1 & H2 & ->); by exists s1].
  destruct Hb as [[[Hf1 Hok1] Hr Hlow Hhigh] Heq]. simpl in *. subst first.
  rewrite (last_before_split pc entries (Z.to_nat last)).
  - destruct (Z.eqb_spec last 0) as [->|Hne]; [by exists s1|]. rewrite decide_False by lia.
    destruct (entries !! pred (Z.to_nat last)) as [e|] eqn:Ee; [|apply lookup_ge_None in Ee; unfold lengthZ in *; lia].
    pose proof (Htable _ _ Ee) as Ht. replace (Z.of_nat (pred (Z.to_nat last))) with (last - 1) in Ht by lia.
    rewrite <- (table_entry_frame s0 s1) in Ht by done.
    destruct (GetFdeInfoFromIndex_spec s1 (last - 1) e Hok1 ltac:(lia) Ht) as (s2 & E & Hf2 & Hok2).
    exists s2. cbn [negb]. unfold bind. rewrite E. split_and!; [done|by eapply lookup_frame_trans|done].
  - unfold lengthZ in *. lia.
  - intros i e Hi He. pose proof (Hlow i e ltac:(lia) He). lia.
  - intros i e Hi He. apply (Hhigh i e); [lia|done].
Qed.

End Binary.

(** C40: for a table of fixed-size entries in ascending order,
    [GetFdeOffsetFromPc] bisects to the entry it should: the last one whose
    address, plus the 4 the code adds, is not behind the pc, and false when
    there is none.  It reads through a cache, which keeps agreeing with the
    table, and changes nothing else. *)
Theorem EhFrame_lookup AT mem (OK : MemoryOk mem) fuel pc (s : DwarfSection EhFrame) entries :
  table_ok AT mem s -> fde_count_ s = lengthZ entries -> lengthZ entries < 2 ^ 63 -> (64 < fuel)%nat ->
  (forall i e, entries !! i = Some e -> table_entry AT mem s (Z.of_nat i) = Some e) ->
  StronglySorted (fun a b => info_pc a < info_pc b) entries ->
  exists s', EhFrame_GetFdeOffsetFromPc AT mem fuel pc s = Ok (info_offset <$> last_before pc entries, s') /\
             lookup_frame s s' /\ table_ok AT mem s'.
Proof.
  intros Hok Hcount Hlen Hfuel Htable Hsorted. unfold EhFrame_GetFdeOffsetFromPc.
  unfold bind at 1, get at 1. rewrite Hcount. destruct (Z.eqb_spec (lengthZ entries) 0) as [E|E].
  { exists s. destruct entries; [|unfold lengthZ in E; simpl in E; lia].
    split_and!; [done|apply lookup_frame_refl|done]. }
  unfold bind at 1, eh, get at 1. rewrite (proj2 (Z.ltb_lt _ _)) by (apply Hok).
  apply GetFdeOffsetBinary_spec; try done. pose proof (lengthZ_nonneg entries). lia.
Qed.

Lemma EhFrame_lookup_witness :
  let mem := bytes_memory (le_split 4 0x1000 ++ le_split 4 0x10 ++ le_split 4 0x2000 ++ le_split 4 0x20) in
  let s := mkSection new_DwarfMemory DWARF_ERROR_NONE 2 ∅ ∅ ∅ (mkEhFrame 1 0 0x3b 4 0 0 16 0 0 ∅) in
  exists s', EhFrame_GetFdeOffsetFromPc uint64_t mem 65 0x2003 s = Ok (Some 0x10, s') /\ table_ok uint64_t mem s'.
Proof.
  intros mem s. edestruct (EhFrame_lookup uint64_t mem (bytes_memory_ok _ eq_refl) 65 0x2003 s
    [mkFdeInfo 0x1004 0x10; mkFdeInfo 0x2004 0x20]) as (s' & E & _ & Hok); [by split|done|done|lia|..].
  - by intros [|[|i]] e; simplify_eq/=; intros [= <-].
  - repeat constructor; simpl; lia.
  - by exists s'.
Defined.

(** ** Relative addresses *)

(** The address of an FDE is relative to the field that holds it, but the
    code adds the position behind the field: an FDE for the function of [len]
    bytes at [addr], its start encoded as the 4-byte distance from the field,
    is read as the range from [addr + 4] to [addr + 4 + len].  The first bytes
    of every function are thus taken for the one in front of it. *)
Theorem EhFrame_pc_shifted AT mem (OK : MemoryOk mem) tfuel fuel c f off addr len (s : DwarfSection EhFrame) :
  let V := EhFrame_section AT mem tfuel in
  let F := EhFrame_format AT mem tfuel in
  let coff := fde_cie_offset (derived s) off f in
  let ci := cie_of coff c in
  let field := fde_header_end off f + lengthZ (f_segment f) in
  cie_ok AT c -> is_cie (l_format64 c) (l_id c) = true -> 0 <= coff -> holds mem coff (cie_bytes c) ->
  (length (aug_string c) < fuel)%nat -> cie_entries_ s !! coff = None ->
  fde_ok AT ci f -> is_cie (f_format64 f) (f_pointer f) = false -> 0 <= off -> holds mem off (fde_bytes ci f) ->
  fde_entries_ s !! off = None ->
  Z.land (fde_address_encoding ci) 15 = DW_EH_PE_sdata4 ->
  f_start f = le_split 4 (addr - field) -> in_signed 32 (addr - field) ->
  f_length f = le_split 4 len -> 0 <= len < 2 ^ 31 -> 0 <= addr < 2 ^ 63 ->
  exists fde s', GetFdeFromOffset AT mem fuel off s = Ok (Some fde, s') /\
                 pc_start fde = addr + 4 /\ pc_end fde = addr + 4 + len.
Proof.
  intros V F coff ci field Hc Hid Hcoff Hcm Hfuel Hcache Hf Hp Hoff Hfm Hnone He Hs Hrange Hl Hlen Haddr.
  destruct (GetFdeFromOffset_layout AT mem fuel c f off s) as (s' & E & _); try done; [by left|].
  eexists _, s'. split; [exact E|]. unfold fde_of. fold coff ci. cbn [pc_start pc_end]. rewrite He, Hs, Hl.
  assert (forall v, in_signed 32 v -> encoding_data DW_EH_PE_sdata4 (le_split 4 v) = v) as Hdata.
  { intros v Hv. unfold encoding_data. simpl existsb. cbn match. rewrite lengthZ_le_split, le_combine_split.
    change (8 * Z.of_nat 4) with 32. change (256 ^ Z.of_nat 4) with (2 ^ 32).
    change (v mod 2 ^ 32) with (uwrap 32 v). rewrite swrap_uwrap. by apply swrap_small. }
  rewrite !Hdata by (unfold in_signed in *; lia). rewrite lengthZ_app, lengthZ_le_split. simpl entry_pc.
  rewrite uwrap_add_l.
  replace (addr - field + (fde_header_end off f + (lengthZ (f_segment f) + Z.of_nat 4))) with (addr + 4)
    by (unfold field; simpl; lia).
  rewrite (uwrap_small 64 (addr + 4)), (uwrap_small 64 len) by (unfold in_unsigned; lia).
  rewrite uwrap_small by (unfold in_unsigned; lia). split; [done|lia].
Qed.

(** A function of 0x40 bytes at 0x2000, described by an FDE at 17. *)
Definition near_cie : cie_layout := mkCieLayout false 0 1 (Some [A_fde 0x1b]) 8 0 1 (-8) 16 [].
Definition near_fde : fde_layout := mkFdeLayout false 21 [] (le_split 4 (0x2000 - 25)) (le_split 4 0x40) [] [] [].

Lemma EhFrame_pc_shifted_witness :
  let mem := bytes_memory (cie_bytes near_cie ++ fde_bytes (cie_of 0 near_cie) near_fde) in
  exists fde s', GetFdeFromOffset (V := EhFrame_section uint64_t mem 10) uint64_t mem 10 17 (new_DwarfSection new_EhFrame) =
                   Ok (Some fde, s') /\ pc_start fde = 0x2004 /\ pc_end fde = 0x2044.
Proof.
  intros mem.
  apply (EhFrame_pc_shifted uint64_t mem (bytes_memory_ok _ eq_refl) 10 10 near_cie near_fde 17 0x2000 0x40);
    try (by vm_compute); try (simpl; lia).
  - split; try done; vm_compute; auto.
  - split; try done. intros _. by left.
Defined.

(** ** The sequential search *)

(** A table of ULEB128 entries: functions at 10, 20, 30 and 40, with FDEs at 1,
    2, 3 and 4. *)
Definition uleb_table : list Z := [10; 1; 20; 2; 30; 3; 40; 4].

Definition uleb_section : DwarfSection EhFrame :=
  mkSection new_DwarfMemory DWARF_ERROR_NONE 4 ∅ ∅ ∅ (mkEhFrame 1 0 DW_EH_PE_uleb128 0 0 8 16 0 8 ∅).

(** The sequential search stops reading the table after the first lookup
    that finds something: later it answers every pc behind the entries read so
    far with the last of them.  In this table a lookup of 35 finds the FDE at 3,
    but the one at 2 when 15 was looked up before. *)
Theorem GetFdeOffsetSequential_stale :
  let mem := bytes_memory (replicate 8 0 ++ uleb_table) in
  let lookup pc s := EhFrame_GetFdeOffsetFromPc uint64_t mem 100 pc s in
  outcome_map fst (lookup 35 uleb_section) = Ok (Some 3) /\
  outcome_map fst (lookup 15 uleb_section) = Ok (Some 1) /\
  outcome_map fst ((lookup 15 ;; lookup 35) uleb_section) = Ok (Some 2).
Proof. by vm_compute. Qed.
