(* ===== verification/DwarfDebugFrame.v ===== *)
(** * DwarfDebugFrame: .debug_frame, which has no search table
    (libunwindstack/DwarfDebugFrame.cpp, DwarfDebugFrame.h)

    [Init] walks over all entries once and builds a sorted list of the code
    ranges; the lookups bisect that list.  std::sort is a parameter of the
    model: any function that yields a sorted permutation. *)

From stdpp Require Import sorting.
From S2P Require Import Prelude Memory DwarfMemory DwarfCfa DwarfSection DwarfEntries.

Record FdeInfo := mkFdeInfo { fde_offset : Z; fde_start : Z; fde_end : Z }.

#[global] Instance FdeInfo_eq_dec : EqDecision FdeInfo.
Proof. solve_decision. Defined.

Record DebugFrame := mkDebugFrame { offset_ : Z; end_offset_ : Z; fdes_ : list FdeInfo }.

Definition new_DebugFrame : DebugFrame := mkDebugFrame 0 0 [].

(** The comparison [CreateSortedFdeList] sorts by. *)
Definition fde_before (a b : FdeInfo) : bool :=
  if fde_start a =? fde_start b then fde_end a <? fde_end b else fde_start a <? fde_start b.

Section DebugFrame.
Context (AT : AddressType) (mem : Memory) (sort : list FdeInfo -> list FdeInfo).

Local Abbreviation uA := (uwrap (bits AT)).
Local Abbreviation S := (DwarfSection DebugFrame).

(** [FdeInfo(offset, start, length)] *)
Definition new_FdeInfo (offset start length : Z) : FdeInfo := mkFdeInfo offset (uA start) (uA (start + length)).

Definition debug {A} (f : DebugFrame -> A) : M S A := get (fun s => f (derived s)).
Definition set_fdes (x : list FdeInfo) : M S unit :=
  modify (fun s => set_derived (mkDebugFrame (offset_ (derived s)) (end_offset_ (derived s)) x) s).

(** [memory_.set_cur_offset(memory_.cur_offset() + n)] *)
Definition skip (n : Z) : M S unit := on_section (modify (fun d => set_cur_offset (u64 (cur_offset_ d + n)) d)).

(** One of the loops [do { ReadBytes(&value, 1) } while (value & 0x80)]. *)
Definition skip_leb128_round (_ : unit) : M S (unit + option unit) :=
  let? value := on_section (ReadUnsigned mem 1)
    else (x <- section_fail DWARF_ERROR_MEMORY_INVALID ;; ret (inr x)) in
  if bits_set value 128 then ret (inl tt) else ret (inr (Some tt)).

Definition skip_leb128 (fuel : nat) : M S (option unit) := iter fuel skip_leb128_round tt.

(** The loop over the augmentation data, until the encoding is found. *)
Fixpoint find_encoding (aug : list Z) : M S (option Z) :=
  match aug with
  | [] => abort
  | a :: aug =>
      if a =? 82 (* 'R' *) then read_or_fail (ReadUnsigned mem 1) (fun encoding => ret (Some encoding))
      else if a =? 76 (* 'L' *) then skip 1 ;; find_encoding aug
      else if a =? 80 (* 'P' *) then
        read_or_fail (ReadUnsigned mem 1) (fun encoding =>
          read_or_fail (ReadEncodedValue mem AT encoding) (fun _ => find_encoding aug))
      else find_encoding aug
  end.

(** [GetCieInfo(&segment_size, &encoding)]: the two values, [encoding] what it
    was when the CIE names none. *)
Definition GetCieInfo (fuel : nat) (encoding : Z) : M S (option (Z * Z)) :=
  read_or_fail (ReadUnsigned mem 1) (fun version =>
    let? aug_string := read_augmentation mem fuel else ret None in
    let? segment_size :=
      (if version =? 4 then skip 1 ;; read_or_fail (ReadUnsigned mem 1) (fun v => ret (Some v))
       else ret (Some 0)) else ret None in
    if negb (hd 0 aug_string =? 122) || negb (existsb (Z.eqb 82) aug_string) then ret (Some (segment_size, encoding))
    else
      let? _x := skip_leb128 fuel else ret None in
      let? _x := skip_leb128 fuel else ret None in
      let? _x := (if version =? 1 then skip 1 ;; ret (Some tt) else skip_leb128 fuel) else ret None in
      let? _x := skip_leb128 fuel else ret None in
      let? encoding := find_encoding (tl aug_string) else ret None in
      ret (Some (segment_size, encoding))).

Definition AddFdeInfo (entry_offset segment_size encoding : Z) : M S (option unit) :=
  (if negb (segment_size =? 0) then skip 1 else ret tt) ;;
  read_or_fail (ReadEncodedValue mem AT (Z.land encoding 15)) (fun start =>
    read_or_fail (ReadEncodedValue mem AT (Z.land encoding 15)) (fun length =>
      (if negb (length =? 0) then
         fdes <- debug fdes_ ;; set_fdes (fdes ++ [new_FdeInfo entry_offset start length])
       else ret tt) ;;
      ret (Some tt))).

(** The local variables of the walk: [cie_offset], and [segment_size] and
    [address_encoding], which have no value before the first CIE. *)
Definition walk_locals : Type := Z * option (Z * Z).

(** The entry at [cur_entry_offset], once its length, its [next_entry_offset]
    and its CIE id or pointer [value] are read.  [is_cie] tells them apart,
    [encoding] is the default of the format. *)
Definition read_entry (fuel : nat) (cur_entry_offset value encoding : Z) (is_cie : bool) (l : walk_locals) :
    M S (option walk_locals) :=
  if is_cie then
    let? info := GetCieInfo fuel encoding else ret None in
    ret (Some (cur_entry_offset, Some info))
  else
    offset <- debug offset_ ;;
    if negb (u64 (offset + value) =? l.1) then section_fail DWARF_ERROR_ILLEGAL_VALUE
    else
      match l.2 with
      | None => undef
      | Some (segment_size, address_encoding) =>
          let? _x := AddFdeInfo cur_entry_offset segment_size address_encoding else ret None in
          ret (Some l)
      end.

(** The length of the entry at the cursor and its CIE id or pointer: the offset
    of the next entry, the id, the default encoding and whether it is a CIE. *)
Definition read_entry_header : M S (option (Z * Z * Z * bool)) :=
  read_or_fail (ReadUnsigned mem 4) (fun value32 =>
    if value32 =? 2 ^ 32 - 1 then
      read_or_fail (ReadUnsigned mem 8) (fun length64 =>
        cur <- section_cur_offset ;;
        read_or_fail (ReadUnsigned mem 8) (fun value64 =>
          ret (Some (u64 (cur + length64), value64, DW_EH_PE_sdata8, value64 =? 2 ^ 64 - 1))))
    else
      cur <- section_cur_offset ;;
      read_or_fail (ReadUnsigned mem 4) (fun id32 =>
        ret (Some (u64 (cur + value32), id32, DW_EH_PE_sdata4, id32 =? 2 ^ 32 - 1)))).

Definition walk_round (fuel : nat) (l : walk_locals) : M S (walk_locals + option unit) :=
  cur_entry_offset <- section_cur_offset ;;
  end_offset <- debug end_offset_ ;;
  if cur_entry_offset <? end_offset then
    let? header := read_entry_header else ret (inr None) in
    let '(next_entry_offset, value, encoding, is_cie) := header in
    let? l := read_entry fuel cur_entry_offset value encoding is_cie l else ret (inr None) in
    cur <- section_cur_offset ;;
    if next_entry_offset <? cur then
      modify (set_section_error DWARF_ERROR_ILLEGAL_VALUE) ;; ret (inr None)
    else
      on_section (modify (set_cur_offset next_entry_offset)) ;;
      ret (inl l)
  else ret (inr (Some tt)).

(** [fuel] bounds the number of entries and the length of their strings. *)
Definition CreateSortedFdeList (fuel : nat) : M S bool :=
  offset <- debug offset_ ;;
  on_section (modify (set_cur_offset offset)) ;;
  let? _x := iter fuel (walk_round fuel) (0, None) else ret false in
  fdes <- debug fdes_ ;;
  set_fdes (sort fdes) ;;
  modify (set_fde_count (lengthZ (sort fdes))) ;;
  ret true.

Definition DebugFrame_Init (fuel : nat) (offset size : Z) : M S bool :=
  modify (fun s => set_derived (mkDebugFrame offset (u64 (offset + size)) (fdes_ (derived s))) s) ;;
  on_section (modify clear_func_offset) ;;
  on_section (modify clear_text_offset) ;;
  on_section (modify (set_data_offset offset)) ;;
  on_section (modify (set_cur_offset offset)) ;;
  CreateSortedFdeList fuel.

(** One round of the bisection; [fdes_[current]] is undefined out of range. *)
Definition lookup_round (pc : Z) (l : Z * Z) : M S (Z * Z + option Z) :=
  let '(first, last) := l in
  if first <? last then
    let current := u64 (first + last) / 2 in
    fdes <- debug fdes_ ;;
    match fdes !! Z.to_nat current with
    | None => undef
    | Some info =>
        if (fde_start info <=? pc) && (pc <=? fde_end info) then ret (inr (Some (fde_offset info)))
        else if pc <? fde_start info then ret (inl (first, current))
        else ret (inl (u64 (current + 1), last))
    end
  else ret (inr None).

(** A list of fewer than 2^63 entries is halved at most 64 times. *)
Definition DebugFrame_GetFdeOffsetFromPc (pc : Z) : M S (option Z) :=
  fde_count <- get fde_count_ ;;
  if fde_count =? 0 then ret None else iter 65 (lookup_round pc) (0, fde_count).

Definition DebugFrame_GetFdeFromIndex {V : VirtualSection DebugFrame} (fuel : nat) (index : Z) : M S (option DwarfFde) :=
  fdes <- debug fdes_ ;;
  match fdes !! Z.to_nat index with
  | None => ret None
  | Some info => GetFdeFromOffset AT mem fuel (fde_offset info)
  end.

Definition DebugFrame_section : VirtualSection DebugFrame := {|
  IsCie32 value32 := value32 =? 2 ^ 32 - 1;
  IsCie64 value64 := value64 =? 2 ^ 64 - 1;
  GetCieOffsetFromFde32 pointer s := u64 (offset_ (derived s) + pointer);
  GetCieOffsetFromFde64 pointer s := u64 (offset_ (derived s) + pointer);
  AdjustPcFromFde pc s := pc;
  GetFdeOffsetFromPc pc := DebugFrame_GetFdeOffsetFromPc pc
|}.

End DebugFrame.

(** ** The format of the entries

    The pointer of an FDE is an offset into the section, its address absolute. *)
#[global] Instance DebugFrame_format : @EntryFormat DebugFrame DebugFrame_section.
Proof. by exists (fun _ x _ pointer => u64 (offset_ x + pointer)) (fun v _ => v). Defined.

(** ** A section with one CIE and one FDE

    Used to show that the hypotheses of the theorems on the readers can hold. *)

Definition sample_cie : cie_layout :=
  mkCieLayout false (2 ^ 32 - 1) 3 (Some [A_lsda 3; A_personality 4 [1; 2; 3; 4; 5; 6; 7; 8]; A_fde 0x1b]) 8 0 1 (-8) 16
    [0x0c; 7; 8; 0x90; 1].

Definition sample_fde : fde_layout :=
  mkFdeLayout false 0 [] (le_split 4 0x1000) (le_split 4 0x100) [9; 9] (le_split 4 0x77) [0x44; 0x0e; 16].

Definition sample_section : list Z := cie_bytes sample_cie ++ fde_bytes (cie_of 0 sample_cie) sample_fde.

Definition sample_state : DwarfSection DebugFrame := new_DwarfSection (mkDebugFrame 0 (lengthZ sample_section) []).

Lemma sample_cie_ok : cie_ok uint64_t sample_cie.
Proof. split; try done; vm_compute; auto. Qed.

Lemma sample_fde_ok : fde_ok uint64_t (cie_of 0 sample_cie) sample_fde.
Proof. split; try done. intros _. by right. Qed.



(** ** The lookup *)

(** Ranges in order, none reaching into the next. *)
Definition disjoint_ranges (l : list FdeInfo) : Prop :=
  Forall (fun i => fde_start i <= fde_end i) l /\
  StronglySorted (fun a b => fde_end a <= fde_start b) l.

Lemma disjoint_lookup l i j a b : disjoint_ranges l -> (i < j)%nat -> l !! i = Some a -> l !! j = Some b ->
  fde_start a <= fde_end a <= fde_start b.
Proof.
  intros [H1 H2] Hij Ha Hb. split; [by apply (Forall_lookup_1 _ _ _ _ H1 Ha)|].
  revert i j Hij Ha Hb. induction H2 as [|x l Hl IH Hx]; intros [|i] [|j] Hij Ha Hb; simplify_eq/=; try lia.
  - by apply (Forall_lookup_1 _ _ _ _ Hx Hb).
  - inversion H1; subst. eapply (IH ltac:(done) i j); [lia|done|done].
Qed.

Section Lookup.
Context (pc : Z) (s : DwarfSection DebugFrame).
Local Abbreviation l := (fdes_ (derived s)).
Context (Hl : disjoint_ranges l) (Hlen : lengthZ l < 2 ^ 63).

Definition covers (i : FdeInfo) : Prop := fde_start i <= pc <= fde_end i.

(** No entry outside of [first, last) covers the pc. *)
Record searching (fl : Z * Z) : Prop := {
  searching_range : 0 <= fst fl <= snd fl /\ snd fl <= lengthZ l;
  searching_low i a : Z.of_nat i < fst fl -> l !! i = Some a -> fde_end a < pc;
  searching_high i a : snd fl <= Z.of_nat i -> l !! i = Some a -> pc < fde_start a
}.

Definition found (r : option Z) : Prop :=
  match r with
  | Some offset => exists a, a ∈ l /\ fde_offset a = offset /\ covers a
  | None => forall a, a ∈ l -> ~ covers a
  end.

Lemma wp_lookup_round fl : searching fl ->
  wp nothing (lookup_round pc fl) (fun r s' => s' = s /\ match r with
    | inl fl' => searching fl' /\ (halvings (fl'.2 - fl'.1) < halvings (fl.2 - fl.1))%nat
    | inr r => found r end) s.
Proof.
  intros [Hr Hlow Hhigh]. destruct fl as [first last]. simpl in *. unfold lookup_round.
  destruct (Z.ltb_spec first last) as [Hlt|Hge].
  - destruct (bisect first last) as (Hc & Hc1 & Hm1 & Hm2); [lia|lia|].
    set (current := u64 (first + last) / 2) in *. clearbody current. unfold debug. do 2 wp_step.
    assert (0 <= current) by lia.
    destruct (l !! Z.to_nat current) as [a|] eqn:Ea;
      [|apply lookup_ge_None in Ea; unfold lengthZ in *; lia].
    assert (fde_start a <= fde_end a) by (exact (Forall_lookup_1 _ _ _ _ (proj1 Hl) Ea)).
    destruct ((fde_start a <=? pc) && (pc <=? fde_end a)) eqn:Hcov.
    { wp_step. split; [done|]. exists a. split_and!; [by eapply list_elem_of_lookup_2|done|unfold covers; lia..]. }
    destruct (Z.ltb_spec pc (fde_start a)); wp_step; (split; [done|]); (split; [split; simpl|done || by rewrite Hc1]).
    + lia.
    + done.
    + intros i b Hi Hb. destruct (decide (Z.to_nat current = i)) as [<-|]; [congruence|].
      assert (Z.to_nat current < i)%nat as Hi' by lia.
      pose proof (disjoint_lookup _ _ _ _ _ Hl Hi' Ea Hb). lia.
    + lia.
    + rewrite Hc1. intros i b Hi Hb. destruct (decide (i = Z.to_nat current)) as [->|]; [simplify_eq; lia|].
      assert (i < Z.to_nat current)%nat as Hi' by lia.
      pose proof (disjoint_lookup _ _ _ _ _ Hl Hi' Hb Ea). lia.
    + done.
  - wp_step. split; [done|]. intros a [i Hi]%list_elem_of_lookup [Hs He].
    destruct (decide (Z.of_nat i < first)); [pose proof (Hlow i a ltac:(lia) Hi)|pose proof (Hhigh i a ltac:(lia) Hi)]; lia.
Qed.

End Lookup.

(** On a list of ranges none of which reaches into the next, the bisection
    of [GetFdeOffsetFromPc] returns, without touching the section, the offset
    of an entry whose range contains the pc, its end included, and false only
    when there is none. *)
Theorem DebugFrame_lookup pc (s : DwarfSection DebugFrame) :
  disjoint_ranges (fdes_ (derived s)) -> lengthZ (fdes_ (derived s)) < 2 ^ 63 ->
  fde_count_ s = lengthZ (fdes_ (derived s)) ->
  exists r, DebugFrame_GetFdeOffsetFromPc pc s = Ok (r, s) /\
  match r with
  | Some offset => exists a, a ∈ fdes_ (derived s) /\ fde_offset a = offset /\ fde_start a <= pc <= fde_end a
  | None => forall a, a ∈ fdes_ (derived s) -> ~ (fde_start a <= pc <= fde_end a)
  end.
Proof.
  intros Hl Hlen Hcount. unfold DebugFrame_GetFdeOffsetFromPc. unfold bind at 1, get. rewrite Hcount.
  destruct (Z.eqb_spec (lengthZ (fdes_ (derived s))) 0) as [E|E].
  { exists None. split; [done|]. intros a Ha. destruct (fdes_ (derived s)); [by inversion Ha|].
    unfold lengthZ in E. simpl in E. lia. }
  destruct (wp_total (iter 65 (lookup_round pc) (0, lengthZ (fdes_ (derived s)))) (fun r s' => s' = s /\ found pc s r) s)
    as (r & s' & -> & -> & Hf); [|by exists r].
  apply (wp_iter nothing (lookup_round pc) (fun fl s' => s' = s /\ searching pc s fl)
           (fun fl _ => halvings (fl.2 - fl.1))).
  - intros fl s' [-> Hsr]. eapply wp_mono; [by apply wp_lookup_round|]. intros [fl'|r] s' [-> H]; [|done].
    by destruct H.
  - split; [done|]. split; simpl; [unfold lengthZ; lia|lia|].
    intros i a Hi Ha%lookup_lt_Some. unfold lengthZ in *. lia.
  - simpl. pose proof (halvings_bound (lengthZ (fdes_ (derived s)) - 0) ltac:(lia)). lia.
Qed.

Lemma DebugFrame_lookup_witness :
  let s := mkSection new_DwarfMemory DWARF_ERROR_NONE 3 ∅ ∅ ∅
             (mkDebugFrame 0 400 [mkFdeInfo 100 0x1000 0x2000; mkFdeInfo 200 0x2800 0x3000; mkFdeInfo 300 0x3000 0x4000]) in
  exists r, DebugFrame_GetFdeOffsetFromPc 0x2400 s = Ok (r, s) /\ r = None.
Proof.
  intros s. destruct (DebugFrame_lookup 0x2400 s) as (r & E & Hr).
  - split; [by repeat constructor|]. repeat constructor; simpl; lia.
  - done.
  - done.
  - exists r. split; [done|]. vm_compute in E. by simplify_eq.
Defined.

(** A section with three adjacent functions, their FDEs already read. *)
Definition adjacent_functions : DwarfSection DebugFrame :=
  let fde start := mkFde 0 0 0 start (start + 0x1000) 0 (Some new_DwarfCie) in
  mkSection new_DwarfMemory DWARF_ERROR_NONE 3
    {[100 := fde 0x1000; 200 := fde 0x2000; 300 := fde 0x3000]} ∅ ∅
    (mkDebugFrame 0 400 [mkFdeInfo 100 0x1000 0x2000; mkFdeInfo 200 0x2000 0x3000; mkFdeInfo 300 0x3000 0x4000]).

(** The lookup takes the end of a range for part of it: with three adjacent
    functions the bisection finds the second for the first address of the
    third, and [GetFdeFromPc] then gives up with DWARF_ERROR_ILLEGAL_STATE,
    although the third FDE covers the pc, as it does one byte further on. *)
Theorem GetFdeFromPc_adjacent :
  let find pc := outcome_map (fun p => (pc_start <$> p.1, section_last_error_ p.2))
    (GetFdeFromPc (V := DebugFrame_section) uint64_t (bytes_memory []) 10 pc adjacent_functions) in
  find 0x3000 = Ok (None, DWARF_ERROR_ILLEGAL_STATE) /\
  find 0x3001 = Ok (Some 0x3000, DWARF_ERROR_NONE).
Proof. by vm_compute. Qed.

(** ** Segment selectors *)

(** A CIE of version 4 with a segment selector of four bytes, and an FDE for
    the addresses from 0x1000 to 0x1100. *)
Definition segmented_section : list Z :=
  le_split 4 11 ++ le_split 4 (2 ^ 32 - 1) ++ [4; 0; 8; 4; 1; 0x7c; 8] ++
  le_split 4 16 ++ le_split 4 0 ++ [1; 2; 3; 4] ++ le_split 4 0x1000 ++ le_split 4 0x100.

(** [AddFdeInfo] skips one byte for a segment selector of any size, the
    reader of FDEs its size: for a selector of four bytes the list of ranges
    gets a start that is not the one of the FDE it points to. *)
Theorem AddFdeInfo_segment_selector :
  let mem := bytes_memory segmented_section in
  let s := DebugFrame_Init uint64_t mem id 50 0 35 (new_DwarfSection new_DebugFrame) in
  outcome_map (fun p => (p.1, fde_start <$> fdes_ (derived p.2))) s = Ok (true, [0x040302]) /\
  outcome_map (fun p => pc_start <$> p.1)
    (match s with
     | Ok (_, s) => DebugFrame_GetFdeFromIndex (V := DebugFrame_section) uint64_t mem 50 0 s
     | _ => Undef
     end) = Ok (Some 0x1000).
Proof. by vm_compute. Qed.
