(* ===== verification/DwarfSectionSpec.v ===== *)
(** * DwarfSectionSpec: what a DWARF section promises the unwinder

    The calling frame a row of the unwind table describes, and the theorem that
    [DwarfSectionImpl::Eval] computes it in whatever order the map of locations
    is iterated; the readers of CIEs and FDEs against their encodings; the
    location map of an FDE; and [Step] as a whole. *)

From S2P Require Import Prelude Memory DwarfMemory Regs DwarfOpTable DwarfOp DwarfExpr DwarfCfa DwarfCfaSpec DwarfSection DwarfEntries DwarfDebugFrame.

(** ** The calling frame *)

Section Caller.
Context (AT : AddressType) (stack : Memory).

Local Abbreviation uA := (uwrap (bits AT)).

(** The CFA of a register and an offset.  The stack pointer is current in
    [sp_] unless it has a rule of its own. *)
Definition frame_cfa (t : table) (regs : Regs) : option Z :=
  match t_cfa t with
  | Some (C_register r off) =>
      if (0 <=? r) && (r <? total_regs regs) then
        let base := if (sp_reg regs =? r) && bool_decide (t_rules t !! r = None) then sp_ regs else reg regs r in
        Some (uA (base + off))
      else None
  | _ => None
  end.

(** The value of register [r] in the calling frame, from the registers of the
    frame at hand.  Expressions have none here. *)
Definition frame_register (t : table) (cfa : Z) (regs : Regs) (r : Z) : option Z :=
  match t_rules t !! r with
  | None | Some R_undefined => Some (reg regs r)
  | Some (R_offset off) => le_combine <$> Read stack (u64 (cfa + off)) (sizeof AT)
  | Some (R_val_offset off) => Some (uA (cfa + off))
  | Some (R_register r') =>
      if (0 <=? r') && (r' <? total_regs regs) && bool_decide (t_rules t !! r' = None)
      then Some (reg regs r') else None
  | Some _ => None
  end.

Definition frame_pc (t : table) (ra : Z) (regs : Regs) : Z :=
  match t_rules t !! ra with
  | Some R_undefined => 0
  | _ => reg regs ra
  end.

Definition caller (t : table) (ra : Z) (regs : Regs) : option Regs :=
  cfa ← frame_cfa t regs;
  values ← mapM (frame_register t cfa regs) (seqZ 0 (total_regs regs));
  let regs' := mkRegs (machine regs) values (pc_ regs) (sp_ regs) in
  Some (set_sp cfa (set_pc (frame_pc t ra regs') regs')).

End Caller.

(** ** Eval *)

Section EvalSpec.
Context {X : Type}.
Context (AT : AddressType) (mem stack : Memory) {OK : MemoryOk stack}.
Context (torn : Z) (ci : DwarfCie) (t : table) (m : dwarf_loc_regs_t).
Context (Hrel : table_rel mem t m) (Hkeys : locs_ok m).

Local Abbreviation ra := (return_address_register ci).
Implicit Types (regs cur : Regs) (s : DwarfSection X).

Lemma total_regs_u16 regs : 0 <= total_regs regs < CFA_REG.
Proof. unfold total_regs, machine_total_regs. by destruct (machine regs). Qed.

Lemma eval_cfa_spec regs cfa s : frame_cfa AT t regs = Some cfa ->
  eval_cfa AT mem ci stack m regs s = Ok (Some cfa, s).
Proof.
  intros H. unfold frame_cfa in H. destruct Hrel as [Hc Hr]. unfold eval_cfa.
  destruct (t_cfa t) as [[r off|]|]; try done.
  inversion Hc as [? l Hl E1 E2|]. simpl in Hl. subst l. simpl.
  destruct ((0 <=? r) && (r <? total_regs regs)) eqn:Hb; [|done]. apply andb_prop in Hb as [Hb1 Hb2].
  rewrite (proj2 (Z.leb_gt _ _)) by lia. injection H as <-.
  pose proof (total_regs_u16 regs).
  replace (bool_decide (m !! sp_reg regs = None)) with (bool_decide (t_rules t !! sp_reg regs = None)).
  - destruct (Z.eqb_spec (sp_reg regs) r) as [->|]; unfold ret; do 3 f_equal; simpl;
      (rewrite <- uwrap_add_r, uwrap_uwrap, uwrap_add_r; [done|]; destruct AT; unfold bits; simpl; lia).
  - apply bool_decide_ext. assert (sp_reg regs <> CFA_REG) as Hne
      by (unfold sp_reg, machine_sp_reg; by destruct (machine regs)).
    by destruct (Hr _ Hne).
Qed.

Lemma rule_rel_undefined x l : rule_rel mem x l -> type l = DWARF_LOCATION_UNDEFINED <-> x = R_undefined.
Proof. destruct x; simpl; [by intros ->..| |]; intros [E _]; by rewrite E. Qed.

(** [cur] is on its way from the registers [regs] to those of the caller: the
    registers in [todo] are still the old ones. *)
Record progress (regs : Regs) (cfa : Z) (todo : list Z) cur : Prop := {
  progress_machine : machine cur = machine regs;
  progress_pc : pc_ cur = pc_ regs;
  progress_sp : sp_ cur = sp_ regs;
  progress_length : length (regs_ cur) = length (regs_ regs);
  progress_todo i : 0 <= i < total_regs regs -> i ∈ todo -> reg cur i = reg regs i;
  progress_done i : 0 <= i < total_regs regs -> i ∉ todo ->
    frame_register AT stack t cfa regs i = Some (reg cur i)
}.

Context (regs : Regs) (Hregs : regs_ok regs) (HAT : address_type (machine regs) = AT).

Lemma eval_register_spec cfa cur todo r l x v s :
  0 <= r < total_regs regs -> m !! r = Some l -> t_rules t !! r = Some x -> rule_rel mem x l ->
  frame_register AT stack t cfa regs r = Some v -> progress regs cfa todo cur ->
  (forall i, i ∈ todo -> i <> CFA_REG -> t_rules t !! i <> None) ->
  eval_register AT mem ci stack m cfa l cur s =
    Ok (if decide (x = R_undefined) then Keep else Value v, s).
Proof.
  intros Hr Hl Hx Hxl Hv Hp Htodo. unfold frame_register in Hv. rewrite Hx in Hv.
  pose proof (total_regs_u16 regs) as Htot.
  assert (total_regs cur = total_regs regs) as Ht by (unfold total_regs; by rewrite (progress_machine _ _ _ _ Hp)).
  destruct x as [|off|off|r'|bs|bs]; simpl in Hxl; subst; unfold eval_register; simpl; try done.
  - rewrite uwrap_add_r. unfold read_register, read_word, bind.
    destruct (Read stack _ _) as [bs|]; [|done]. by injection Hv as <-.
  - injection Hv as <-. unfold ret. do 3 f_equal.
    rewrite <- uwrap_add_r, uwrap_uwrap, uwrap_add_r; [done|]. destruct AT; unfold bits; simpl; lia.
  - destruct ((0 <=? r') && (r' <? total_regs regs)) eqn:Hb; simpl in Hv; [|done].
    case_bool_decide as Hnone; [|done]. injection Hv as <-. apply andb_prop in Hb as [Hb1 Hb2].
    rewrite (uwrap_small 16) by (unfold in_unsigned, CFA_REG in *; lia).
    rewrite Ht, (proj2 (Z.leb_gt _ _)) by lia.
    assert (m !! r' = None) as ->.
    { destruct Hrel as [_ Hrules]. assert (r' <> CFA_REG) as Hne by lia. specialize (Hrules r' Hne).
      rewrite Hnone in Hrules. by inversion Hrules. }
    unfold ret. do 3 f_equal.
    assert (reg cur r' = reg regs r') as ->.
    { pose proof (progress_done _ _ _ _ Hp r' ltac:(lia)) as Hd. unfold frame_register in Hd.
      rewrite Hnone in Hd. apply (inj Some). symmetry. apply Hd. intros Hin. apply (Htodo r' Hin); [lia|done]. }
    rewrite Z.add_0_r. rewrite <- HAT. apply uwrap_small, reg_range; [done|lia].
Qed.

Lemma progress_step cfa cur todo r v : progress regs cfa (r :: todo) cur -> r ∉ todo ->
  0 <= r < total_regs regs -> frame_register AT stack t cfa regs r = Some v ->
  progress regs cfa todo (set_reg r v cur).
Proof.
  intros [H1 H2 H3 H4 H5 H6] Hr Hrange Hv. split; simpl; try done.
  - by rewrite length_insert.
  - intros i Hi Hin. assert (i <> r) by (by intros ->). rewrite <- (H5 i Hi) by (by right).
    unfold reg, set_reg. simpl. rewrite list_lookup_total_insert_ne; [done|lia].
  - intros i Hi Hin. unfold reg, set_reg. simpl. destruct (decide (i = r)) as [->|Hne].
    + rewrite list_lookup_total_insert_eq; [done|]. rewrite H4. pose proof (regs_ok_length _ Hregs). unfold lengthZ in *. lia.
    + rewrite list_lookup_total_insert_ne by lia. apply H6; [done|]. by intros [?|?]%elem_of_cons.
Qed.

Lemma progress_skip cfa cur todo r : progress regs cfa (r :: todo) cur ->
  (0 <= r < total_regs regs -> frame_register AT stack t cfa regs r = Some (reg cur r)) ->
  progress regs cfa todo cur.
Proof.
  intros [H1 H2 H3 H4 H5 H6] Hr. split; try done.
  - intros i Hi Hin. apply H5; [done|by right].
  - intros i Hi Hin. destruct (decide (i = r)) as [->|Hne]; [by apply Hr|].
    apply H6; [done|]. by intros [?|?]%elem_of_cons.
Qed.

(** The entry that makes the return address undefined. *)
Definition undefines (e : Z * DwarfLocation) : bool :=
  (e.1 =? ra) && bool_decide (type e.2 = DWARF_LOCATION_UNDEFINED).

Lemma eval_registers_spec cfa s : (forall i, 0 <= i < total_regs regs -> frame_register AT stack t cfa regs i <> None) ->
  0 <= ra < total_regs regs ->
  forall entries u cur, NoDup entries.*1 -> (forall e, e ∈ entries -> m !! e.1 = Some e.2) ->
  progress regs cfa entries.*1 cur ->
  exists cur', eval_registers AT mem torn ci stack m cfa entries u cur s =
    Ok ((Some (u || existsb undefines entries), cur'), s) /\ progress regs cfa [] cur'.
Proof.
  intros Hdef Hra entries. induction entries as [|[r l] entries IH]; intros u cur Hnd Hin Hp.
  { exists cur. by rewrite orb_false_r. }
  apply NoDup_cons in Hnd as [Hr Hnd]. pose proof (Hin (r, l) ltac:(by left)) as Hl. simpl in Hl.
  assert (forall e, e ∈ entries -> m !! e.1 = Some e.2) as Hin' by (intros; apply Hin; by right).
  destruct (Hkeys r l Hl) as ([Hk _] & _). pose proof (total_regs_u16 regs) as Htot.
  assert (total_regs cur = total_regs regs) as Ht by (unfold total_regs; by rewrite (progress_machine _ _ _ _ Hp)).
  cbn [eval_registers existsb]. rewrite Ht.
  destruct ((r =? CFA_REG) || (total_regs regs <=? r)) eqn:Hskip.
  - assert (undefines (r, l) = false) as -> by (unfold undefines; simpl; apply andb_false_intro1; lia).
    apply IH; [done|done|]. apply (progress_skip cfa cur _ r Hp). lia.
  - apply orb_false_iff in Hskip as [Hr1 Hr2]. assert (0 <= r < total_regs regs) as Hrange by lia.
    pose proof (proj2 Hrel) as Hrules. assert (r <> CFA_REG) as Hne by lia. specialize (Hrules r Hne). rewrite Hl in Hrules.
    inversion Hrules as [x l' Hx E1 E2|]; subst l'. symmetry in E1.
    destruct (frame_register AT stack t cfa regs r) as [v|] eqn:Ev; [|by destruct (Hdef r Hrange)].
    unfold bind. rewrite (eval_register_spec cfa cur (r :: entries.*1) r l x v); try done; cycle 1.
    { intros i Hi Hcfa. assert (exists l, m !! i = Some l) as [l' Hl'].
      { apply elem_of_cons in Hi as [->|Hi]; [eauto|]. apply list_elem_of_fmap in Hi as (e & -> & He). eauto. }
      destruct Hrel as [_ Hrules']. specialize (Hrules' i Hcfa). rewrite Hl' in Hrules'. by inversion Hrules'. }
    destruct (decide (x = R_undefined)) as [->|Hxu].
    + simpl in Hx. subst l. unfold undefines at 1. simpl.
      rewrite andb_true_r, orb_assoc. apply IH; [done|done|]. apply (progress_skip cfa cur _ r Hp). intros _.
      rewrite Ev. unfold frame_register in Ev. rewrite E1 in Ev. injection Ev as <-. f_equal.
      symmetry. apply (progress_todo _ _ _ _ Hp); [done|by left].
    + assert (undefines (r, l) = false) as ->.
      { unfold undefines. simpl. apply andb_false_intro2, bool_decide_false. intros E.
        by apply Hxu, (rule_rel_undefined x l). }
      apply IH; [done|done|]. by apply progress_step.
Qed.

Lemma progress_values cfa values cur : progress regs cfa [] cur ->
  mapM (frame_register AT stack t cfa regs) (seqZ 0 (total_regs regs)) = Some values ->
  cur = mkRegs (machine regs) values (pc_ regs) (sp_ regs).
Proof.
  intros [H1 H2 H3 H4 _ H6] Hv. destruct cur as [mc rc pc sp]. simpl in *. subst. f_equal.
  pose proof (regs_ok_length _ Hregs) as Hl. unfold lengthZ in Hl.
  apply mapM_Some in Hv. apply list_eq_same_length with (n := length rc); [|done|].
  { rewrite <- (Forall2_length _ _ _ Hv), length_seqZ. lia. }
  intros i x y Hi Hx Hy. rewrite Forall2_lookup in Hv. specialize (Hv i).
  rewrite Hy, lookup_seqZ_lt in Hv by lia. inversion Hv as [? ? Hf|]; subst.
  rewrite H6 in Hf by (lia || apply not_elem_of_nil). injection Hf as Hf.
  unfold reg in Hf. simpl in Hf. rewrite Z.add_0_l, Nat2Z.id in Hf.
  by rewrite (list_lookup_total_correct _ _ _ Hx) in Hf.
Qed.

Lemma undefined_entries entries : entries ≡ₚ map_to_list m -> 0 <= ra < total_regs regs ->
  existsb undefines entries = bool_decide (t_rules t !! ra = Some R_undefined).
Proof.
  intros Hperm Hra. pose proof (total_regs_u16 regs). assert (ra <> CFA_REG) as Hne by lia.
  pose proof (proj2 Hrel ra Hne) as Hr. apply eq_true_iff_eq. rewrite bool_decide_eq_true, existsb_exists. split.
  - intros ([r l] & Hin & [Hu1%Z.eqb_eq Hu2%bool_decide_eq_true]%andb_prop). simpl in *. subst r.
    rewrite <- list_elem_of_In, Hperm, elem_of_map_to_list in Hin. rewrite Hin in Hr.
    inversion Hr as [x ? Hx|]; subst. f_equal. by apply (rule_rel_undefined x l).
  - intros Hu. rewrite Hu in Hr. inversion Hr as [? l Hl E1 E2|]; subst.
    exists (ra, l). split; [by rewrite <- list_elem_of_In, Hperm, elem_of_map_to_list|].
    unfold undefines. rewrite Z.eqb_refl. simpl. by apply bool_decide_true, (rule_rel_undefined R_undefined l).
Qed.

Lemma Eval_caller entries regs' s : entries ≡ₚ map_to_list m -> 0 <= ra ->
  ra < total_regs regs -> caller AT stack t ra regs = Some regs' ->
  Eval AT mem torn ci stack m entries regs s = Ok ((Some (pc_ regs' =? 0), regs'), s).
Proof.
  intros Hperm Hra0 Hra Hc. unfold caller in Hc.
  destruct (frame_cfa AT t regs) as [cfa|] eqn:Hcfa; [|done]. simpl in Hc.
  destruct (mapM _ _) as [values|] eqn:Hv; [|done]. injection Hc as <-.
  unfold Eval. rewrite (proj2 (Z.leb_gt _ _)) by lia. unfold bind at 1. rewrite (eval_cfa_spec regs cfa) by done.
  destruct (eval_registers_spec cfa s) with (entries := entries) (u := false) (cur := regs) as (cur' & E & Hp); try done.
  - intros i Hi. apply mapM_Some in Hv. rewrite Forall2_lookup in Hv. specialize (Hv (Z.to_nat i)).
    rewrite lookup_seqZ_lt in Hv by lia. rewrite Z.add_0_l, Z2Nat.id in Hv by lia. inversion Hv. congruence.
  - rewrite Hperm. apply NoDup_fst_map_to_list.
  - intros [r l] He. rewrite Hperm in He. by apply elem_of_map_to_list.
  - split; try done. intros i Hi Hin.
    assert (m !! i = None) as Hnone.
    { destruct (m !! i) as [l|] eqn:E; [|done]. destruct Hin. apply list_elem_of_fmap. exists (i, l).
      by rewrite Hperm, elem_of_map_to_list. }
    pose proof (total_regs_u16 regs). assert (i <> CFA_REG) as Hne by lia.
    pose proof (proj2 Hrel i Hne) as Hr. rewrite Hnone in Hr.
    unfold frame_register. by inversion Hr.
  - unfold bind. rewrite E. rewrite (undefined_entries entries Hperm) by done.
    rewrite (progress_values cfa values cur' Hp Hv). unfold frame_pc. simpl. case_bool_decide as Hu.
    + by rewrite Hu.
    + destruct (t_rules t !! ra) as [[]|]; done.
Qed.

End EvalSpec.



(** [Eval] of a block of one operation, by what its handler does. *)
Section Single.
Context (AT : AddressType) (mem regular_memory : Memory) (version start end_ : Z) (s : DwarfOp).
Local Abbreviation s0 := (set_memory (set_cur_offset start (memory_ s)) (set_stack [] (set_is_register false s))).

Lemma Eval_single s' : start < end_ -> Decode AT mem regular_memory version s0 = Ok (true, s') ->
  end_ <= cur_offset_ (memory_ s') -> DwarfOp.Eval AT mem regular_memory start end_ version s = Ok (true, s').
Proof.
  intros Hlt HD Hend.
  change (iter (1 + 1001) (Eval_round AT mem regular_memory end_ version) 0 s0 = Ok (true, s')).
  rewrite (iter_steps AT mem regular_memory end_ version 1 s0 s'); [|by apply steps_one|lia|lia].
  change 1001%nat with (S 1000). cbn [iter]. unfold bind at 1, Eval_round at 1, bind at 1, get.
  by rewrite (proj2 (Z.ltb_ge _ _)) by lia.
Qed.

Lemma Eval_single_undef : start < end_ -> Decode AT mem regular_memory version s0 = Undef ->
  DwarfOp.Eval AT mem regular_memory start end_ version s = Undef.
Proof.
  intros Hlt HD. change (iter (S 1001) (Eval_round AT mem regular_memory end_ version) 0 s0 = Undef).
  cbn [iter]. unfold bind at 1, Eval_round at 1, bind at 1, get.
  rewrite (proj2 (Z.ltb_lt _ _)) by (simpl; lia). unfold bind. by rewrite HD.
Qed.

End Single.

(** A location expression is evaluated at the wrong place and without
    registers.  The interpreter of the call frame instructions records a block
    by its length and the offset of its end; [EvalExpression] takes that offset
    for the start.  With a DW_OP_lit<k> behind a block of one byte the result
    is k, whatever the block says; with a DW_OP_breg there, the registers,
    which are never set, are read through a null pointer. *)
Theorem EvalExpression_past_block {X} AT mem regular_memory version ty bs l k r off (s : DwarfSection X) :
  MemoryOk mem -> 2 <= version -> block_rel mem ty bs l -> 0 <= k < 32 -> 0 <= r < 32 -> - 2 ^ 62 <= off < 2 ^ 63 ->
  (lengthZ bs = 1 -> holds mem (values1 l) [0x30 + k] ->
   exists s', EvalExpression AT mem l version regular_memory s = Ok (Some k, s')) /\
  (lengthZ bs = 1 + lengthZ (sleb128_encode 10 off) ->
   holds mem (values1 l) ((0x70 + r) :: sleb128_encode 10 off) ->
   EvalExpression AT mem l version regular_memory s = Undef).
Proof.
  intros OK Hv (El & Hl & _) Hk Hr Hoff. rewrite El. unfold EvalExpression, run_op.
  set (start := values1 l) in *. clearbody start. cbn [values0 values1]. clear El.
  pose proof (lengthZ_nonneg bs). set (d := new_DwarfOp (section_memory_ s)). split; intros El Hm; rewrite El.
  - pose proof (holds_bound mem start _ ltac:(lia) Hm) as Hb. change (lengthZ [0x30 + k]) with 1 in Hb.
    rewrite uwrap_small by (unfold in_unsigned; lia). unfold bind at 1. fold d.
    rewrite (Eval_single AT mem regular_memory version start (start + 1) d
      (set_stack [k] (fetched (0x30 + k) [] 1
         (set_memory (set_cur_offset start (memory_ d)) (set_stack [] (set_is_register false d)))))); try lia.
    + eexists. reflexivity.
    + rewrite (Decode_plain AT mem regular_memory version Hv _ _ _ _ (lit_entry k Hk)); try (simpl; done || lia).
      run_op. cbn. replace (0x30 + k - 0x30) with k by lia.
      by rewrite uwrap_small by (destruct AT; unfold in_unsigned, bits; simpl; lia).
    + simpl. lia.
  - pose proof (holds_bound mem start _ ltac:(lia) Hm) as Hb. rewrite lengthZ_cons in Hb.
    pose proof (lengthZ_nonneg (sleb128_encode 10 off)).
    rewrite uwrap_small by (unfold in_unsigned; lia). unfold bind at 1.
    rewrite Eval_single_undef; [done|lia|].
    rewrite (Decode_sleb AT mem regular_memory version Hv _ _ _ _ off (breg_entry r Hr)); try (simpl; done || lia).
Qed.

Lemma EvalExpression_past_block_witness :
  exists s', EvalExpression uint64_t (bytes_memory [0x31; 0x35]) (mkLoc DWARF_LOCATION_VAL_EXPRESSION 1 1) 3
               (bytes_memory []) (new_DwarfSection tt) = Ok (Some 5, s').
Proof.
  apply (EvalExpression_past_block uint64_t (bytes_memory [0x31; 0x35]) (bytes_memory []) 3 DWARF_LOCATION_VAL_EXPRESSION
           [0x31] (mkLoc DWARF_LOCATION_VAL_EXPRESSION 1 1) 5 0 0 (new_DwarfSection tt)); try done.
  by apply bytes_memory_ok.
Defined.
