(* ===== verification/DwarfStep.v ===== *)
(** * DwarfStep: one step of the unwinder through a DWARF section

    [DwarfSection::Step] from the bytes of a section to the registers of the
    calling frame: the lookup, the readers of the entries, the call frame
    instructions of the CIE and of the FDE and the evaluation of the row,
    composed. *)

From S2P Require Import Prelude Memory DwarfMemory Regs DwarfOpTable DwarfOp DwarfExpr DwarfCfa DwarfCfaSpec DwarfSection DwarfEntries DwarfDebugFrame DwarfSectionSpec.

(** ** What a step should do *)

(** The registers of the calling frame of a function that starts at [start],
    when its CIE has the program [p1] and its FDE the program [p2]: the rules of
    the CIE are the initial row of the FDE. *)
Definition unwind_frame (AT : AddressType) (stack : Memory) (caf daf : Z) (p1 p2 : list instr) (start ra pc : Z)
    (regs : Regs) : option Regs :=
  initial ← run_program AT caf daf None pc p1 (mkRow start empty_table []);
  final ← run_program AT caf daf (Some (r_table initial)) pc p2 (mkRow start (r_table initial) (r_stack initial));
  caller AT stack (r_table final) ra regs.

(** ** One run of the interpreter *)

Section Run.
Context {X : Type} (AT : AddressType) (mem : Memory) {OK : MemoryOk mem}.
Implicit Types s : DwarfSection X.

Local Abbreviation uA := (uwrap (bits AT)).

Lemma location_info_spec fuel pc fde ci cie_regs init p start c row0 row1 s :
  cie fde = Some ci -> option_Forall2 (table_rel mem) init cie_regs ->
  (forall m, cie_regs = Some m -> locs_ok m /\ loc_regs_ c = m) -> cfa_ok AT c -> dwarf_ok (section_memory_ s) ->
  table_rel mem (r_table row0) (loc_regs_ c) -> Forall2 (table_rel mem) (r_stack row0) (loc_reg_state_ c) ->
  r_loc row0 = uA (pc_start fde) -> 0 <= start ->
  forallb (instr_ok AT (data_alignment_factor ci)) p = true -> holds mem start (program_encode AT p) ->
  (length p < fuel)%nat ->
  run_program AT (code_alignment_factor ci) (data_alignment_factor ci) init pc p row0 = Some row1 ->
  exists c' s', location_info AT mem fuel pc fde c cie_regs start (start + lengthZ (program_encode AT p)) s =
    Ok (Some c', s') /\ row_rel mem row1 c' /\ cfa_ok AT c' /\ dwarf_ok (section_memory_ s') /\
    s' = set_section_memory (section_memory_ s') s.
Proof.
  intros Hcie Hinit Hregs Hc Hd Ht Hst Hloc Hs Hok Hmem Hfuel Hrun.
  set (c0 := set_cfa_memory (section_memory_ s) c). assert (cfa_ok AT c0) as Hc0 by (destruct Hc; by split).
  pose proof (holds_bound mem start _ Hs Hmem). pose proof (lengthZ_nonneg (program_encode AT p)).
  set (m := GetLocationInfo AT mem fde cie_regs fuel pc start (start + lengthZ (program_encode AT p))).
  assert (wp nothing m (fun b c' => b = true /\ row_rel mem row1 c') c0) as Hw.
  { unfold m, GetLocationInfo. do 5 wp_step. unfold on_cfa_memory. do 4 wp_step.
    eapply wp_mono; [eapply (GetLocationInfo_loop mem AT fde ci Hcie cie_regs init Hinit); try done|].
    - split; [done|..]; destruct cie_regs as [r|]; simpl; try done.
      destruct (Hregs r eq_refl) as [_ E]. rewrite E, map_union_idemp. by rewrite <- E.
    - simpl. by rewrite Hrun. }
  pose proof (safe_GetLocationInfo AT mem fde cie_regs (fun m E => proj1 (Hregs m E)) fuel pc start
                (start + lengthZ (program_encode AT p)) c0 Hc0) as Hsafe.
  destruct (wp_total _ _ _ Hw) as (b & c' & E & -> & Hrow). fold m in Hsafe.
  destruct (wp_run _ _ _ _ _ _ (Hsafe ltac:(unfold in_unsigned; lia)) E) as [Hc' _].
  exists c', (set_section_memory (cfa_memory_ c') s). unfold location_info, run_cfa, bind. fold m c0. rewrite E.
  split_and!; try done. apply Hc'.
Qed.

End Run.

(** ** The description of a frame *)

Section Described.
Context {X : Type} {V : VirtualSection X} {F : EntryFormat X} (AT : AddressType) (mem : Memory).

(** At [off] the section has the FDE [f] of the CIE [c], with the programs [p2]
    and [p1], and neither is cached. *)
Record described (fuel : nat) (off : Z) (c : cie_layout) (f : fde_layout) (p1 p2 : list instr)
    (s : DwarfSection X) : Prop := {
  described_cie : cie_ok AT c /\ is_cie (l_format64 c) (l_id c) = true /\ (length (aug_string c) < fuel)%nat;
  described_cie_at : 0 <= fde_cie_offset (derived s) off f /\ holds mem (fde_cie_offset (derived s) off f) (cie_bytes c);
  described_fde : fde_ok AT (cie_of (fde_cie_offset (derived s) off f) c) f /\
                  is_cie (f_format64 f) (f_pointer f) = false;
  described_fde_at : 0 <= off /\ holds mem off (fde_bytes (cie_of (fde_cie_offset (derived s) off f) c) f);
  described_cie_program : l_instructions c = program_encode AT p1 /\ (length p1 < fuel)%nat /\
                          forallb (instr_ok AT (l_data_align c)) p1 = true;
  described_fde_program : f_instructions f = program_encode AT p2 /\ (length p2 < fuel)%nat /\
                          forallb (instr_ok AT (l_data_align c)) p2 = true;
  described_new : cie_entries_ s !! fde_cie_offset (derived s) off f = None /\ fde_entries_ s !! off = None /\
                  cie_loc_regs_ s !! fde_cie_offset (derived s) off f = None
}.

Definition fde_found (off : Z) (c : cie_layout) (f : fde_layout) (s : DwarfSection X) : DwarfFde :=
  fde_of (derived s) (cie_of (fde_cie_offset (derived s) off f) c) off f.

Context {OK : MemoryOk mem}.

Lemma cie_of_fields start c : let ci := cie_of start c in
  code_alignment_factor ci = l_code_align c /\ data_alignment_factor ci = l_data_align c /\
  return_address_register ci = l_return_register c /\
  cie_cfa_instructions_end ci = start + lengthZ (cie_bytes c) /\
  cie_cfa_instructions_offset ci = start + lengthZ (cie_bytes c) - lengthZ (l_instructions c).
Proof. unfold cie_of. by destruct (aug_values _ _) as [[lsda personality] encoding]. Qed.

Lemma cie_instructions_at start c : 0 <= start -> holds mem start (cie_bytes c) ->
  let a := start + lengthZ (cie_bytes c) - lengthZ (l_instructions c) in 0 <= a /\ holds mem a (l_instructions c).
Proof.
  intros Hs H a. unfold cie_bytes in H. rewrite app_assoc in H. apply holds_app in H as [_ H]; [|done|done].
  assert (a = start + lengthZ (entry_header (l_format64 c) (l_id c) (lengthZ (cie_body c ++ l_instructions c)) ++
    cie_body c)) as -> by (unfold a, cie_bytes; rewrite !lengthZ_app; lia).
  split; [|done]. pose proof (lengthZ_nonneg (entry_header (l_format64 c) (l_id c)
    (lengthZ (cie_body c ++ l_instructions c)) ++ cie_body c)). lia.
Qed.

Lemma fde_instructions_at start ci f : 0 <= start -> holds mem start (fde_bytes ci f) ->
  let a := start + lengthZ (fde_bytes ci f) - lengthZ (f_instructions f) in 0 <= a /\ holds mem a (f_instructions f).
Proof.
  intros Hs H a. unfold fde_bytes in H. rewrite app_assoc in H. apply holds_app in H as [_ H]; [|done|done].
  assert (a = start + lengthZ (entry_header (f_format64 f) (f_pointer f) (lengthZ (fde_body ci f ++ f_instructions f)) ++
    fde_body ci f)) as -> by (unfold a, fde_bytes; rewrite !lengthZ_app; lia).
  split; [|done]. pose proof (lengthZ_nonneg (entry_header (f_format64 f) (f_pointer f)
    (lengthZ (fde_body ci f ++ f_instructions f)) ++ fde_body ci f)). lia.
Qed.

(** The location map of the FDE, when that of its CIE is not cached. *)
Lemma GetCfaLocationInfo_described fuel pc off c f p1 p2 row1 row2 (s s' : DwarfSection X) :
  described fuel off c f p1 p2 s -> dwarf_ok (section_memory_ s') -> cie_loc_regs_ s' = cie_loc_regs_ s ->
  let start := uwrap (bits AT) (pc_start (fde_found off c f s)) in
  run_program AT (l_code_align c) (l_data_align c) None pc p1 (mkRow start empty_table []) = Some row1 ->
  run_program AT (l_code_align c) (l_data_align c) (Some (r_table row1)) pc p2
    (mkRow start (r_table row1) (r_stack row1)) = Some row2 ->
  exists m s'', GetCfaLocationInfo AT mem fuel pc (fde_found off c f s) ∅ s' = Ok (Some m, s'') /\
    table_rel mem (r_table row2) m /\ locs_ok m.
Proof.
  intros [(Hc & Hid & _) [Hcoff Hcm] [Hf _] [Hoff Hfm] (E1 & Hn1 & Hp1) (E2 & Hn2 & Hp2) (_ & _ & Hnew)] Hd Ecache start R1 R2.
  set (fde := fde_found off c f s) in *. set (ci := cie_of (fde_cie_offset (derived s) off f) c) in *.
  destruct (cie_of_fields (fde_cie_offset (derived s) off f) c) as (Ecaf & Edaf & _ & Eend & Eoff). fold ci in Ecaf, Edaf, Eend, Eoff.
  destruct (cie_instructions_at _ c Hcoff Hcm) as [Ha1 Hi1]. destruct (fde_instructions_at off ci f Hoff Hfm) as [Ha2 Hi2].
  rewrite <- Eoff in Ha1, Hi1. rewrite E1 in Hi1, Eoff. rewrite E2 in Hi2, Ha2.
  assert (cfa_ok AT (new_DwarfCfa new_DwarfMemory ∅)) as Hc0 by (by split; [..|constructor|constructor]).
  rewrite <- Ecaf, <- Edaf in R1, R2. rewrite <- Edaf in Hp1, Hp2.
  destruct (location_info_spec AT mem fuel pc fde ci None None p1 (cie_cfa_instructions_offset ci)
    (new_DwarfCfa new_DwarfMemory ∅) (mkRow start empty_table []) row1 s') as (c1 & s1 & L1 & Hr1 & Hc1 & Hd1 & Es1);
    try done; [constructor|apply table_rel_empty|].
  destruct Hr1 as [_ Ht1 Hst1 _].
  set (s2 := set_section_cie_loc_regs (<[fde_cie_offset (derived s) off f := loc_regs_ c1]> (cie_loc_regs_ s1)) s1).
  destruct (location_info_spec AT mem fuel pc fde ci (Some (loc_regs_ c1)) (Some (r_table row1)) p2
    (cfa_instructions_offset fde) c1 (mkRow start (r_table row1) (r_stack row1)) row2 s2)
    as (c2 & s3 & L2 & Hr2 & Hc2 & _); try done.
  { by constructor. }
  { intros m E. injection E as <-. split; [apply Hc1|done]. }
  { unfold fde, fde_found, fde_of. simpl. by rewrite E2. }
  { unfold fde, fde_found, fde_of. simpl. by rewrite E2. }
  exists (loc_regs_ c2), s3. split_and!; [|apply Hr2|apply Hc2].
  unfold GetCfaLocationInfo, bind at 1, get. rewrite Ecache. change (cie_offset fde) with (fde_cie_offset (derived s) off f).
  rewrite Hnew. change (cie fde) with (Some ci). unfold bind at 1 2.
  replace (cie_cfa_instructions_end ci) with (cie_cfa_instructions_offset ci + lengthZ (program_encode AT p1)) by lia.
  rewrite L1. unfold bind at 1, modify. cbn [ret]. fold s2. unfold bind at 1, ret at 1.
  replace (cfa_instructions_end fde) with (cfa_instructions_offset fde + lengthZ (program_encode AT p2))
    by (unfold fde, fde_found, fde_of; simpl; rewrite E2; lia).
  unfold bind. by rewrite L2.
Qed.

End Described.


(** The section of [DwarfDebugFrame.sample_section] after [Init]; the pc is
    behind the advance of the FDE, so that the CFA is rsp + 16. *)
Definition sample_initialized : DwarfSection DebugFrame :=
  mkSection new_DwarfMemory DWARF_ERROR_NONE 1 ∅ ∅ ∅
    (mkDebugFrame 0 (lengthZ sample_section) [mkFdeInfo 34 0x1000 0x1100]).

