(* ===== verification/ArmExidx.v ===== *)
(** * ArmExidx: the ARM exception tables
    (libunwindstack/ArmExidx.cpp, ArmExidx.h)

    [ExtractEntryData] collects the bytes of the unwinding instructions of an
    entry of .ARM.exidx, [Eval] runs them.  The messages of the logging mode are
    not modelled, its switch to skip the execution is. *)

From S2P Require Import Prelude Memory Regs.

Inductive ArmStatus :=
| ARM_STATUS_NONE
| ARM_STATUS_NO_UNWIND
| ARM_STATUS_FINISH
| ARM_STATUS_RESERVED
| ARM_STATUS_SPARE
| ARM_STATUS_TRUNCATED
| ARM_STATUS_READ_FAILED
| ARM_STATUS_MALFORMED
| ARM_STATUS_INVALID_ALIGNMENT
| ARM_STATUS_INVALID_PERSONALITY.

#[global] Instance ArmStatus_eq_dec : EqDecision ArmStatus.
Proof. solve_decision. Defined.

Definition ARM_OP_FINISH : Z := 0xb0.

Record ArmExidx := mkArmExidx {
  arm_regs_ : Regs;
  cfa_ : Z;
  arm_data_ : list Z;
  status_ : ArmStatus;
  log_ : bool;
  log_skip_execution_ : bool;
  pc_set_ : bool
}.

Definition new_ArmExidx (regs : Regs) : ArmExidx := mkArmExidx regs 0 [] ARM_STATUS_NONE false false false.

Definition set_arm_regs (x : Regs) (s : ArmExidx) : ArmExidx :=
  mkArmExidx x (cfa_ s) (arm_data_ s) (status_ s) (log_ s) (log_skip_execution_ s) (pc_set_ s).
Definition set_cfa_ (x : Z) (s : ArmExidx) : ArmExidx :=
  mkArmExidx (arm_regs_ s) x (arm_data_ s) (status_ s) (log_ s) (log_skip_execution_ s) (pc_set_ s).
Definition set_arm_data (x : list Z) (s : ArmExidx) : ArmExidx :=
  mkArmExidx (arm_regs_ s) (cfa_ s) x (status_ s) (log_ s) (log_skip_execution_ s) (pc_set_ s).
Definition set_status (x : ArmStatus) (s : ArmExidx) : ArmExidx :=
  mkArmExidx (arm_regs_ s) (cfa_ s) (arm_data_ s) x (log_ s) (log_skip_execution_ s) (pc_set_ s).
Definition set_pc_set (x : bool) (s : ArmExidx) : ArmExidx :=
  mkArmExidx (arm_regs_ s) (cfa_ s) (arm_data_ s) (status_ s) (log_ s) (log_skip_execution_ s) x.

(** [status_ = e; return false;] *)
Definition arm_fail (e : ArmStatus) : M ArmExidx bool := modify (set_status e) ;; ret false.

(** [if (log_) { ...; if (log_skip_execution_) return true; } k] *)
Definition unless_skipped (k : M ArmExidx bool) : M ArmExidx bool :=
  skip <- get (fun s => log_ s && log_skip_execution_ s) ;;
  if skip : bool then ret true else k.

(** [cfa_ += n] *)
Definition add_cfa (n : Z) : M ArmExidx unit := modify (fun s => set_cfa_ (u32 (cfa_ s + n)) s).

(** [data_.push_back] *)
Definition push_data (bs : list Z) : M ArmExidx unit := modify (fun s => set_arm_data (arm_data_ s ++ bs) s).

(** Bits [8 * i] to [8 * i + 7] of a word. *)
Definition byte_of (i data : Z) : Z := Z.land (Z.shiftr data (8 * i)) 255.

Section ArmExidx.
Context (elf_memory process_memory : Memory).

(** ** ExtractEntryData *)

(** The words of the table that follow; [addr] is a uint32_t. *)
Fixpoint read_table_words (n : nat) (addr : Z) : M ArmExidx bool :=
  match n with
  | O => ret true
  | S n =>
      match Read32 elf_memory addr with
      | None => arm_fail ARM_STATUS_READ_FAILED
      | Some data =>
          push_data [byte_of 3 data; byte_of 2 data; byte_of 1 data; byte_of 0 data] ;;
          read_table_words n (u32 (addr + 4))
      end
  end.

(** [if (data_.back() != ARM_OP_FINISH) data_.push_back(ARM_OP_FINISH);] *)
Definition finish_data : M ArmExidx bool :=
  data <- get arm_data_ ;;
  match last data with
  | None => undef
  | Some back => if back =? ARM_OP_FINISH then ret true else push_data [ARM_OP_FINISH] ;; ret true
  end.

(** [num_table_words] and the address of the table, from its first word. *)
Definition extract_header (addr data : Z) : M ArmExidx (option (Z * Z)) :=
  let fail e := modify (set_status e) ;; ret None in
  if bits_set data (2 ^ 31) then
    let personality := Z.land (Z.shiftr data 24) 15 in
    if personality =? 0 then
      push_data [byte_of 2 data] ;; push_data [byte_of 1 data] ;; push_data [byte_of 0 data] ;;
      ret (Some (0, addr))
    else if (personality =? 1) || (personality =? 2) then
      push_data [byte_of 1 data] ;; push_data [byte_of 0 data] ;;
      ret (Some (byte_of 2 data, u32 (addr + 4)))
    else fail ARM_STATUS_INVALID_PERSONALITY
  else
    let addr := u32 (addr + 4) in
    match Read32 elf_memory addr with
    | None => fail ARM_STATUS_READ_FAILED
    | Some data =>
        push_data [byte_of 2 data] ;; push_data [byte_of 1 data] ;; push_data [byte_of 0 data] ;;
        ret (Some (byte_of 3 data, u32 (addr + 4)))
    end.

(** [static_cast<int32_t>(data << 1) >> 1] *)
Definition prel31 (data : Z) : Z := Z.shiftr (s32 (Z.shiftl data 1)) 1.

Definition ExtractEntryData (entry_offset : Z) : M ArmExidx bool :=
  modify (set_arm_data []) ;;
  modify (set_status ARM_STATUS_NONE) ;;
  if bits_set entry_offset 1 then arm_fail ARM_STATUS_INVALID_ALIGNMENT
  else
    match Read32 elf_memory (u32 (entry_offset + 4)) with
    | None => arm_fail ARM_STATUS_READ_FAILED
    | Some data =>
        if data =? 1 then arm_fail ARM_STATUS_NO_UNWIND
        else if bits_set data (2 ^ 31) then
          if negb (Z.land (Z.shiftr data 24) 15 =? 0) then arm_fail ARM_STATUS_INVALID_PERSONALITY
          else
            push_data [byte_of 2 data] ;; push_data [byte_of 1 data] ;; push_data [byte_of 0 data] ;;
            finish_data
        else
          let addr := u32 (u32 (entry_offset + 4) + prel31 data) in
          match Read32 elf_memory addr with
          | None => arm_fail ARM_STATUS_READ_FAILED
          | Some data =>
              let? header := extract_header addr data else ret false in
              let '(num_table_words, addr) := header in
              if 5 <? num_table_words then arm_fail ARM_STATUS_MALFORMED
              else
                call? read_table_words (Z.to_nat num_table_words) addr else ret false in
                finish_data
          end
    end.

(** ** The instructions *)

Definition GetByte : M ArmExidx (option Z) :=
  data <- get arm_data_ ;;
  match data with
  | [] => modify (set_status ARM_STATUS_TRUNCATED) ;; ret None
  | byte :: data => modify (set_arm_data data) ;; ret (Some byte)
  end.

(** Reads the word at [cfa_] into a register and adds 4 to [cfa_]; [torn] is
    what a failed read leaves of the register. *)
Definition pop_register (torn r : Z) : M ArmExidx bool :=
  cfa <- get cfa_ ;;
  match Read32 process_memory cfa with
  | None => modify (fun s => set_arm_regs (set_reg r torn (arm_regs_ s)) s) ;; arm_fail ARM_STATUS_READ_FAILED
  | Some v => modify (fun s => set_arm_regs (set_reg r v (arm_regs_ s)) s) ;; add_cfa 4 ;; ret true
  end.

(** The registers of a loop that pops them one after the other. *)
Fixpoint pop_registers (torn : Z) (rs : list Z) : M ArmExidx bool :=
  match rs with
  | [] => ret true
  | r :: rs => call? pop_register torn r else ret false in pop_registers torn rs
  end.

(** The registers from [first] on below [limit] whose bit is set. *)
Definition registers_in (mask first limit : Z) : list Z :=
  filter (fun r => bits_set mask (Z.shiftl 1 r) = true) (seqZ first (limit - first)).

Definition DecodePrefix_10_00 (torn byte : Z) : M ArmExidx bool :=
  CHECK (Z.shiftr byte 4 =? 8) ;;
  let registers := Z.shiftl (Z.land byte 15) 8 in
  let? byte := GetByte else ret false in
  let registers := Z.lor registers byte in
  if registers =? 0 then arm_fail ARM_STATUS_NO_UNWIND
  else
    unless_skipped (
      let registers := u16 (Z.shiftl registers 4) in
      call? pop_registers torn (registers_in registers 4 16) else ret false in
      (if bits_set registers (Z.shiftl 1 ARM_REG_SP)
       then modify (fun s => set_cfa_ (reg (arm_regs_ s) ARM_REG_SP) s) else ret tt) ;;
      (if bits_set registers (Z.shiftl 1 ARM_REG_PC) then modify (set_pc_set true) else ret tt) ;;
      ret true).

Definition DecodePrefix_10_01 (byte : Z) : M ArmExidx bool :=
  CHECK (Z.shiftr byte 4 =? 9) ;;
  let bits := Z.land byte 15 in
  if (bits =? 13) || (bits =? 15) then arm_fail ARM_STATUS_RESERVED
  else unless_skipped (modify (fun s => set_cfa_ (reg (arm_regs_ s) bits) s) ;; ret true).

Definition DecodePrefix_10_10 (torn byte : Z) : M ArmExidx bool :=
  CHECK (Z.shiftr byte 4 =? 10) ;;
  unless_skipped (
    call? pop_registers torn (seqZ 4 (Z.land byte 7 + 1)) else ret false in
    if bits_set byte 8 then pop_register torn ARM_REG_LR else ret true).

Definition DecodePrefix_10_11_0000 : M ArmExidx bool := arm_fail ARM_STATUS_FINISH.

Definition DecodePrefix_10_11_0001 (torn : Z) : M ArmExidx bool :=
  let? byte := GetByte else ret false in
  if byte =? 0 then arm_fail ARM_STATUS_SPARE
  else if negb (Z.shiftr byte 4 =? 0) then arm_fail ARM_STATUS_SPARE
  else unless_skipped (pop_registers torn (registers_in byte 0 4)).

(** One byte of the operand.  [(byte & 0x7f) << shift] is an int: undefined for
    a shift of 32 or more and for a result beyond 32 bits. *)
Definition uleb_round (l : Z * Z) : M ArmExidx (Z * Z + option Z) :=
  let '(result, shift) := l in
  let? byte := GetByte else ret (inr None) in
  require (shift <? 32) ;;
  require (Z.shiftl (Z.land byte 127) shift <? 2 ^ 32) ;;
  let result := Z.lor result (Z.shiftl (Z.land byte 127) shift) in
  let shift := u32 (shift + 7) in
  if bits_set byte 128 then ret (inl (result, shift)) else ret (inr (Some result)).

(** Every round consumes a byte of [data_]. *)
Definition DecodePrefix_10_11_0010 : M ArmExidx bool :=
  fuel <- get (fun s => S (length (arm_data_ s))) ;;
  let? result := iter fuel uleb_round (0, 0) else ret false in
  let result := u32 (Z.shiftl result 2) in
  unless_skipped (add_cfa (u32 (0x204 + result)) ;; ret true).

Definition DecodePrefix_10_11_0011 : M ArmExidx bool :=
  let? byte := GetByte else ret false in
  unless_skipped (add_cfa (Z.land byte 15 * 8 + 12) ;; ret true).

Definition DecodePrefix_10_11_01nn : M ArmExidx bool := arm_fail ARM_STATUS_SPARE.

Definition DecodePrefix_10_11_1nnn (byte : Z) : M ArmExidx bool :=
  CHECK (Z.ldiff byte 7 =? 0xb8) ;;
  unless_skipped (add_cfa (Z.land byte 7 * 8 + 12) ;; ret true).

Definition DecodePrefix_10 (torn byte : Z) : M ArmExidx bool :=
  CHECK (Z.shiftr byte 6 =? 2) ;;
  match Z.land (Z.shiftr byte 4) 3 with
  | 0 => DecodePrefix_10_00 torn byte
  | 1 => DecodePrefix_10_01 byte
  | 2 => DecodePrefix_10_10 torn byte
  | _ =>
      match Z.land byte 15 with
      | 0 => DecodePrefix_10_11_0000
      | 1 => DecodePrefix_10_11_0001 torn
      | 2 => DecodePrefix_10_11_0010
      | 3 => DecodePrefix_10_11_0011
      | _ => if bits_set byte 8 then DecodePrefix_10_11_1nnn byte else DecodePrefix_10_11_01nn
      end
  end.

(** [__builtin_popcount] of a byte. *)
Definition popcount (byte : Z) : Z := lengthZ (registers_in byte 0 8).

(** The control registers ignore [log_skip_execution_]. *)
Definition DecodePrefix_11_000 (byte : Z) : M ArmExidx bool :=
  CHECK (Z.ldiff byte 7 =? 0xc0) ;;
  let bits := Z.land byte 7 in
  if bits =? 6 then
    let? byte := GetByte else ret false in
    unless_skipped (add_cfa (Z.land byte 15 * 8 + 8) ;; ret true)
  else if bits =? 7 then
    let? byte := GetByte else ret false in
    if byte =? 0 then arm_fail ARM_STATUS_SPARE
    else if Z.shiftr byte 4 =? 0 then add_cfa (popcount byte * 4) ;; ret true
    else arm_fail ARM_STATUS_SPARE
  else unless_skipped (add_cfa (Z.land byte 7 * 8 + 8) ;; ret true).

Definition DecodePrefix_11_001 (byte : Z) : M ArmExidx bool :=
  CHECK (Z.ldiff byte 7 =? 0xc8) ;;
  let bits := Z.land byte 7 in
  if (bits =? 0) || (bits =? 1) then
    let? byte := GetByte else ret false in
    unless_skipped (add_cfa (Z.land byte 15 * 8 + 8) ;; ret true)
  else arm_fail ARM_STATUS_SPARE.

Definition DecodePrefix_11_010 (byte : Z) : M ArmExidx bool :=
  CHECK (Z.ldiff byte 7 =? 0xd0) ;;
  unless_skipped (add_cfa (Z.land byte 7 * 8 + 8) ;; ret true).

Definition DecodePrefix_11 (byte : Z) : M ArmExidx bool :=
  CHECK (Z.shiftr byte 6 =? 3) ;;
  match Z.land (Z.shiftr byte 3) 7 with
  | 0 => DecodePrefix_11_000 byte
  | 1 => DecodePrefix_11_001 byte
  | 2 => DecodePrefix_11_010 byte
  | _ => arm_fail ARM_STATUS_SPARE
  end.

Definition Decode (torn : Z) : M ArmExidx bool :=
  modify (set_status ARM_STATUS_NONE) ;;
  let? byte := GetByte else ret false in
  match Z.shiftr byte 6 with
  | 0 => unless_skipped (add_cfa (Z.shiftl (Z.land byte 63) 2 + 4) ;; ret true)
  | 1 => unless_skipped (add_cfa (- (Z.shiftl (Z.land byte 63) 2 + 4)) ;; ret true)
  | 2 => DecodePrefix_10 torn byte
  | _ => DecodePrefix_11 byte
  end.

(** [while (Decode());] Every round consumes a byte of [data_]. *)
Definition Decode_round (torn : Z) (_ : unit) : M ArmExidx (unit + bool) :=
  call? Decode torn else (status <- get status_ ;; ret (inr (bool_decide (status = ARM_STATUS_FINISH)))) in
  ret (inl tt).

Definition Eval (torn : Z) : M ArmExidx bool :=
  modify (set_pc_set false) ;;
  fuel <- get (fun s => S (length (arm_data_ s))) ;;
  iter fuel (Decode_round torn) tt.

End ArmExidx.
