(* ===== verification/ArmExidxSpec.v ===== *)
(** * ArmExidxSpec: the unwinding instructions of the ARM EHABI

    The instructions of the exception handling ABI for the ARM architecture with
    their encoding and their meaning, the layouts of an entry of .ARM.exidx, and
    the theorems that [ArmExidx] reads the entries and runs the instructions. *)

From S2P Require Import Prelude Memory DwarfMemory Regs ArmExidx.

(** ** Every input ends *)

Lemma bits_set_shiftl mask r : 0 <= r -> bits_set mask (Z.shiftl 1 r) = Z.testbit mask r.
Proof.
  intros Hr. unfold bits_set. rewrite Z.shiftl_1_l. destruct (Z.testbit mask r) eqn:E.
  - apply negb_true_iff, Z.eqb_neq. intros H. assert (Z.testbit (Z.land mask (2 ^ r)) r = false) as Hf by (by rewrite H, Z.bits_0).
    by rewrite Z.land_spec, E, Z.pow2_bits_true in Hf by done.
  - apply negb_false_iff, Z.eqb_eq. apply Z.bits_inj_iff'. intros i Hi. rewrite Z.bits_0, Z.land_spec, Z.pow2_bits_eqb by done.
    destruct (Z.eqb_spec r i) as [<-|]; [by rewrite E|by rewrite andb_false_r].
Qed.

(** What the checks of the decoder rely on. *)
Definition prefix_ok (b : Z) : bool :=
  match Z.shiftr b 6 with
  | 0 | 1 => true
  | 2 =>
      match Z.land (Z.shiftr b 4) 3 with
      | 0 => Z.shiftr b 4 =? 8
      | 1 => Z.shiftr b 4 =? 9
      | 2 => Z.shiftr b 4 =? 10
      | _ => match Z.land b 15 with
             | 0 | 1 | 2 | 3 => true
             | _ => if bits_set b 8 then Z.ldiff b 7 =? 0xb8 else true
             end
      end
  | 3 =>
      match Z.land (Z.shiftr b 3) 7 with
      | 0 => Z.ldiff b 7 =? 0xc0
      | 1 => Z.ldiff b 7 =? 0xc8
      | 2 => Z.ldiff b 7 =? 0xd0
      | _ => true
      end
  | _ => false
  end.

Lemma byte_prefix b : is_byte b -> prefix_ok b = true.
Proof.
  intros Hb. assert (forallb prefix_ok (seqZ 0 256) = true) as H by by vm_compute.
  rewrite forallb_forall in H. apply H, list_elem_of_In, elem_of_seqZ. unfold is_byte in Hb. lia.
Qed.

(** The statuses a decoder that returns false leaves. *)
Definition decode_statuses : list ArmStatus :=
  [ARM_STATUS_NO_UNWIND; ARM_STATUS_FINISH; ARM_STATUS_RESERVED; ARM_STATUS_SPARE; ARM_STATUS_TRUNCATED;
   ARM_STATUS_READ_FAILED].

Section Total.
Context (process_memory : Memory) (torn : Z).
Implicit Types s : ArmExidx.

(** What a part of the decoder leaves: bytes are only taken from the front. *)
Definition decoded s (b : bool) s' : Prop :=
  arm_data_ s' `suffix_of` arm_data_ s /\
  if b then status_ s' = status_ s else status_ s' ∈ decode_statuses.

Local Abbreviation safe m Q := (wp unless_undef m Q).

Lemma decoded_trans s s1 s2 b : arm_data_ s1 `suffix_of` arm_data_ s -> status_ s1 = status_ s -> decoded s1 b s2 -> decoded s b s2.
Proof. intros H1 E1 [H2 H3]. split; [by etrans|]. destruct b; congruence. Qed.

Lemma arm_fail_decoded e s : e ∈ decode_statuses -> safe (arm_fail e) (decoded s) s.
Proof. by split. Qed.

Lemma safe_skipped k s : safe k (decoded s) s -> safe (unless_skipped k) (decoded s) s.
Proof. intros H. unfold unless_skipped. wp_step. wp_step. by case_match; [by wp_step|]. Qed.

Lemma safe_add_cfa n s : safe (add_cfa n ;; ret true) (decoded s) s.
Proof. by split. Qed.

Lemma safe_GetByte (k : Z -> M ArmExidx bool) s : Forall is_byte (arm_data_ s) ->
  (forall b s', is_byte b -> Forall is_byte (arm_data_ s') -> arm_data_ s = b :: arm_data_ s' -> status_ s' = status_ s ->
     safe (k b) (decoded s') s') ->
  safe (let? b := GetByte else ret false in k b) (fun b s' => decoded s b s' /\
    (b = true -> (length (arm_data_ s') < length (arm_data_ s))%nat)) s.
Proof.
  intros Hb Hk. wp_step. unfold GetByte. wp_step. wp_step. destruct (arm_data_ s) as [|b data] eqn:E.
  - wp_go. split; [|done]. split; [done|]. simpl. by_decide.
  - wp_go. inversion Hb; subst. set (s' := set_arm_data data s). eapply wp_mono; [by apply (Hk b s')|].
    intros [] s'' Hd; (split; [eapply (decoded_trans s s'); [rewrite E; by exists [b]|done|done]|]); [|done].
    intros _. destruct Hd as [Hsuf _]. apply suffix_length in Hsuf. simpl in *. lia.
Qed.

Lemma decoded_only s m : safe m (fun b s' => decoded s b s' /\ (b = true -> (length (arm_data_ s') < length (arm_data_ s))%nat)) s ->
  safe m (decoded s) s.
Proof. intros H. eapply wp_mono; [exact H|]. by intros b s' [H' _]. Qed.

Lemma safe_pop_register r s : safe (pop_register process_memory torn r) (decoded s) s.
Proof.
  unfold pop_register. wp_step. wp_step. destruct (Read32 _ _); [by split|].
  apply wp_bind, wp_modify, wp_bind, wp_modify, wp_ret. split; [done|]. simpl. by_decide.
Qed.

Lemma safe_pop_registers rs s : safe (pop_registers process_memory torn rs) (decoded s) s.
Proof.
  revert s. induction rs as [|r rs IH]; intros s; simpl; [by split|].
  wp_step. eapply wp_mono; [apply safe_pop_register|]. intros [] s' Hd; [|done].
  destruct Hd as [H1 H2]. eapply wp_mono; [apply IH|]. intros b s'' H. by eapply decoded_trans.
Qed.

Lemma safe_uleb l s : Forall is_byte (arm_data_ s) ->
  forall fuel, (length (arm_data_ s) < fuel)%nat ->
  safe (iter fuel uleb_round l) (fun o s' => decoded s (bool_decide (is_Some o)) s') s.
Proof.
  intros Hb fuel Hf.
  eapply (wp_iter unless_undef uleb_round
    (fun _ s' => arm_data_ s' `suffix_of` arm_data_ s /\ status_ s' = status_ s) (fun _ s' => length (arm_data_ s'))); [|done|done].
  intros [result shift] s1 [H1 H2]. unfold uleb_round. wp_step. unfold GetByte. wp_step. wp_step.
  destruct (arm_data_ s1) as [|b data] eqn:E.
  - wp_go. split; [simpl; by rewrite E|]. simpl. by_decide.
  - assert (data `suffix_of` arm_data_ s) by (by eapply suffix_cons_l).
    wp_go; try done. split; [done|lia].
Qed.

Ltac decode_step :=
  lazymatch goal with
  | |- wp _ (unless_skipped _) (decoded _) _ => apply safe_skipped
  | |- wp _ (add_cfa _ ;; ret true) (decoded _) _ => apply safe_add_cfa
  | |- wp _ (arm_fail _) (decoded _) _ => apply arm_fail_decoded; by_decide
  | |- wp _ (pop_registers _ _ _) (decoded _) _ => apply safe_pop_registers
  | |- wp _ (let? b := GetByte else ret false in _) (decoded _) _ =>
      apply decoded_only, safe_GetByte; [done|intros ? ? ? ? ? ?]
  | |- wp _ (if ?c then _ else _) (decoded _) _ => destruct c eqn:?
  | |- wp _ (CHECK ?c ;; _) (decoded _) _ => wp_step; apply wp_CHECK; [intros _|congruence]
  end.

Lemma safe_10_00 b s : Forall is_byte (arm_data_ s) -> (Z.shiftr b 4 =? 8) = true ->
  safe (DecodePrefix_10_00 process_memory torn b) (decoded s) s.
Proof.
  intros Hd Hb. unfold DecodePrefix_10_00. repeat decode_step. wp_step.
  eapply wp_mono; [apply safe_pop_registers|]. intros [] s1 Hs1; [|done].
  repeat (apply wp_bind; case_match); by repeat wp_step.
Qed.

Lemma safe_10_10 b s : (Z.shiftr b 4 =? 10) = true -> safe (DecodePrefix_10_10 process_memory torn b) (decoded s) s.
Proof.
  intros Hb. unfold DecodePrefix_10_10. repeat decode_step. wp_step.
  eapply wp_mono; [apply safe_pop_registers|]. intros [] s1 Hs1; [|done]. case_match; [|by wp_step].
  eapply wp_mono; [apply safe_pop_register|]. intros b' s2 H2. destruct Hs1. by eapply decoded_trans.
Qed.

Lemma safe_10_11_0010 s : Forall is_byte (arm_data_ s) -> safe DecodePrefix_10_11_0010 (decoded s) s.
Proof.
  intros Hd. unfold DecodePrefix_10_11_0010. do 3 wp_step.
  eapply wp_mono; [apply safe_uleb; [done|lia]|]. intros [v|] s1 H1; [|done]. destruct H1 as [H1 H2].
  eapply wp_mono; [apply safe_skipped, safe_add_cfa|]. intros b s2 H3. by eapply decoded_trans.
Qed.

Lemma safe_prefix_10 b s : Forall is_byte (arm_data_ s) -> prefix_ok b = true -> Z.shiftr b 6 = 2 ->
  safe (DecodePrefix_10 process_memory torn b) (decoded s) s.
Proof.
  intros Hd Hb H6. unfold prefix_ok in Hb. unfold DecodePrefix_10. rewrite H6 in *. wp_step. apply wp_CHECK; [intros _|done].
  repeat case_match; try congruence; try (by apply safe_10_00); try (by apply safe_10_10); try (by apply safe_10_11_0010);
    unfold DecodePrefix_10_01, DecodePrefix_10_11_0000, DecodePrefix_10_11_0001, DecodePrefix_10_11_0011,
      DecodePrefix_10_11_1nnn, DecodePrefix_10_11_01nn; repeat decode_step.
  by split.
Qed.

Lemma safe_prefix_11 b s : Forall is_byte (arm_data_ s) -> prefix_ok b = true -> Z.shiftr b 6 = 3 ->
  safe (DecodePrefix_11 b) (decoded s) s.
Proof.
  intros Hd Hb H6. unfold prefix_ok in Hb. unfold DecodePrefix_11. rewrite H6 in *. wp_step. apply wp_CHECK; [intros _|done].
  repeat case_match; try congruence;
    unfold DecodePrefix_11_000, DecodePrefix_11_001, DecodePrefix_11_010; repeat decode_step.
Qed.

Lemma safe_Decode s : Forall is_byte (arm_data_ s) ->
  safe (Decode process_memory torn) (fun b s' => arm_data_ s' `suffix_of` arm_data_ s /\
    if b then (length (arm_data_ s') < length (arm_data_ s))%nat else status_ s' ∈ decode_statuses) s.
Proof.
  intros Hd. unfold Decode. wp_step. wp_step. eapply wp_mono; [apply safe_GetByte; [done|]|].
  - intros b s1 Hb Hd1 _ _. pose proof (byte_prefix b Hb) as Hp. destruct (Z.shiftr b 6) as [|[[]|[]|]|] eqn:E;
      try (by apply safe_prefix_10); try (by apply safe_prefix_11); try (unfold prefix_ok in Hp; rewrite E in Hp; done);
      repeat decode_step.
  - simpl. intros [] s' [[H1 H2] H3]; split; auto.
Qed.

End Total.



(** ** The instructions *)

Inductive uinstr :=
| U_vsp_add (n : Z)
| U_vsp_sub (n : Z)
| U_pop (mask : Z)
| U_set_vsp (r : Z)
| U_pop_r4 (n : Z) (lr : bool)
| U_pop_low (mask : Z)
| U_vsp_large (n : Z)
| U_fstmfdx (first count : Z)
| U_fstmfdx_d8 (n : Z)
| U_wmmx_data (first count : Z)
| U_wmmx_control (mask : Z)
| U_wmmx_data_10 (n : Z)
| U_vpush_d16 (first count : Z)
| U_vpush (first count : Z)
| U_vpush_d8 (n : Z).

Definition uinstr_encode (i : uinstr) : list Z :=
  match i with
  | U_vsp_add n => [n]
  | U_vsp_sub n => [0x40 + n]
  | U_pop mask => [0x80 + mask / 256; mask mod 256]
  | U_set_vsp r => [0x90 + r]
  | U_pop_r4 n lr => [0xa0 + (if lr then 8 else 0) + n]
  | U_pop_low mask => [0xb1; mask]
  | U_vsp_large n => 0xb2 :: uleb128_encode 5 n
  | U_fstmfdx first count => [0xb3; 16 * first + count]
  | U_fstmfdx_d8 n => [0xb8 + n]
  | U_wmmx_data first count => [0xc6; 16 * first + count]
  | U_wmmx_control mask => [0xc7; mask]
  | U_wmmx_data_10 n => [0xc0 + n]
  | U_vpush_d16 first count => [0xc8; 16 * first + count]
  | U_vpush first count => [0xc9; 16 * first + count]
  | U_vpush_d8 n => [0xd0 + n]
  end.

Definition below (limit n : Z) : bool := (0 <=? n) && (n <? limit).

Definition uinstr_ok (i : uinstr) : bool :=
  match i with
  | U_vsp_add n | U_vsp_sub n => below 64 n
  | U_pop mask => below 4096 mask && negb (mask =? 0)
  | U_set_vsp r => below 16 r && negb (r =? 13) && negb (r =? 15)
  | U_pop_r4 n _ | U_fstmfdx_d8 n | U_vpush_d8 n => below 8 n
  | U_pop_low mask | U_wmmx_control mask => below 16 mask && negb (mask =? 0)
  | U_vsp_large n => below (2 ^ 32) n
  | U_fstmfdx first count | U_wmmx_data first count | U_vpush_d16 first count | U_vpush first count =>
      below 16 first && below 16 count
  | U_wmmx_data_10 n => below 6 n
  end.

(** The virtual stack pointer, the registers, and whether the pc is among those
    restored. *)
Record ustate := mkU { u_vsp : Z; u_regs : Regs; u_pc : bool }.

Definition move_vsp (n : Z) (u : ustate) : ustate := mkU (u32 (u_vsp u + n)) (u_regs u) (u_pc u).

(** The registers that a mask whose lowest bit stands for [first] selects. *)
Definition selected (mask first : Z) (n : Z) : list Z := filter (fun r => Z.testbit mask (r - first) = true) (seqZ first n).

Section Ehabi.
Context (stack : Memory).

(** Words are popped into the registers in ascending order. *)
Fixpoint pop_all (rs : list Z) (u : ustate) : option ustate :=
  match rs with
  | [] => Some u
  | r :: rs =>
      v ← Read32 stack (u_vsp u);
      pop_all rs (mkU (u32 (u_vsp u + 4)) (set_reg r v (u_regs u)) (u_pc u))
  end.

(** A restored stack pointer becomes the virtual one. *)
Definition after_pop (rs : list Z) (u : ustate) : ustate :=
  mkU (if bool_decide (ARM_REG_SP ∈ rs) then reg (u_regs u) ARM_REG_SP else u_vsp u) (u_regs u)
      (u_pc u || bool_decide (ARM_REG_PC ∈ rs)).

(** A double precision register takes 8 bytes, FSTMFDX stores another word. *)
Definition ustep (i : uinstr) (u : ustate) : option ustate :=
  match i with
  | U_vsp_add n => Some (move_vsp (4 * n + 4) u)
  | U_vsp_sub n => Some (move_vsp (- (4 * n + 4)) u)
  | U_pop mask => let rs := selected mask 4 12 in after_pop rs <$> pop_all rs u
  | U_set_vsp r => Some (mkU (reg (u_regs u) r) (u_regs u) (u_pc u))
  | U_pop_r4 n lr => pop_all (seqZ 4 (n + 1) ++ (if lr : bool then [ARM_REG_LR] else [])) u
  | U_pop_low mask => pop_all (selected mask 0 4) u
  | U_vsp_large n => Some (move_vsp (0x204 + 4 * n) u)
  | U_fstmfdx _ count => Some (move_vsp (8 * (count + 1) + 4) u)
  | U_fstmfdx_d8 n => Some (move_vsp (8 * (n + 1) + 4) u)
  | U_wmmx_control mask => Some (move_vsp (4 * lengthZ (selected mask 0 4)) u)
  | U_wmmx_data _ count | U_vpush_d16 _ count | U_vpush _ count => Some (move_vsp (8 * (count + 1)) u)
  | U_wmmx_data_10 n | U_vpush_d8 n => Some (move_vsp (8 * (n + 1)) u)
  end.

Fixpoint urun (p : list uinstr) (u : ustate) : option ustate :=
  match p with
  | [] => Some u
  | i :: p => ustep i u ≫= urun p
  end.

End Ehabi.

(** ** One instruction *)

(** What a state of the decoder says of the frame, and the state that says [u]. *)
Definition view (s : ArmExidx) : ustate := mkU (cfa_ s) (arm_regs_ s) (pc_set_ s).

Definition put (u : ustate) (s : ArmExidx) : ArmExidx :=
  mkArmExidx (u_regs u) (u_vsp u) (arm_data_ s) (status_ s) (log_ s) (log_skip_execution_ s) (u_pc u).

Definition executing (s : ArmExidx) : Prop := log_ s && log_skip_execution_ s = false.

(** The state behind the first bytes of an instruction. *)
Definition behind (rest : list Z) (s : ArmExidx) : ArmExidx := set_arm_data rest (set_status ARM_STATUS_NONE s).

Lemma below_all limit n (P : Z -> bool) : below limit n = true -> forallb P (seqZ 0 limit) = true -> P n = true.
Proof. intros Hn H. rewrite forallb_forall in H. apply H, list_elem_of_In, elem_of_seqZ. unfold below in Hn. lia. Qed.

Lemma lor_shiftl x y k : 0 <= k -> 0 <= x < 2 ^ k -> Z.lor x (Z.shiftl y k) = x + y * 2 ^ k.
Proof.
  intros Hk Hx. rewrite <- Z.shiftl_mul_pow2 by done. rewrite <- Z.add_lor_land.
  replace (Z.land x (Z.shiftl y k)) with 0; [lia|]. symmetry. apply Z.bits_inj_iff'. intros i Hi.
  rewrite Z.bits_0, Z.land_spec, Z.shiftl_spec by done. destruct (decide (i < k)).
  - by rewrite (Z.testbit_neg_r y) by lia; rewrite andb_false_r.
  - rewrite <- (Z.mod_small x (2 ^ k)) by done. by rewrite Z.mod_pow2_bits_high by lia.
Qed.

Lemma filter_ext_elem {A} (P Q : A -> Prop) `{!forall x, Decision (P x), !forall x, Decision (Q x)} (l : list A) :
  (forall x, x ∈ l -> P x <-> Q x) -> filter P l = filter Q l.
Proof.
  induction l as [|x l IH]; intros Heq; [done|]. rewrite !filter_cons.
  rewrite IH by (intros y Hy; apply Heq; by right). specialize (Heq x ltac:(by left)).
  repeat case_decide; tauto.
Qed.

Section Instr.
Context (stack : Memory) (torn : Z).
Implicit Types s : ArmExidx.

Lemma pop_register_spec r s :
  match Read32 stack (cfa_ s) with
  | Some v => pop_register stack torn r s =
                Ok (true, put (mkU (u32 (cfa_ s + 4)) (set_reg r v (arm_regs_ s)) (pc_set_ s)) s)
  | None => exists s', pop_register stack torn r s = Ok (false, s') /\ status_ s' = ARM_STATUS_READ_FAILED
  end.
Proof. unfold pop_register, bind, get. destruct (Read32 stack (cfa_ s)); [done|]. eexists. by split. Qed.

Lemma pop_registers_spec rs s :
  match pop_all stack rs (view s) with
  | Some u => pop_registers stack torn rs s = Ok (true, put u s)
  | None => exists s', pop_registers stack torn rs s = Ok (false, s') /\ status_ s' = ARM_STATUS_READ_FAILED
  end.
Proof.
  revert s. induction rs as [|r rs IH]; intros s; cbn [pop_all pop_registers]; [by destruct s|].
  cbn [view u_vsp u_regs u_pc]. pose proof (pop_register_spec r s) as Hp.
  destruct (Read32 stack (cfa_ s)) as [v|]; simpl.
  - specialize (IH (put (mkU (u32 (cfa_ s + 4)) (set_reg r v (arm_regs_ s)) (pc_set_ s)) s)).
    unfold bind. rewrite Hp. exact IH.
  - destruct Hp as (s' & E & Hs). exists s'. unfold bind. by rewrite E.
Qed.

Lemma pop_all_pc rs u u' : pop_all stack rs u = Some u' -> u_pc u' = u_pc u.
Proof.
  revert u. induction rs as [|r rs IH]; intros u H; simpl in H; [by simplify_eq|].
  destruct (Read32 _ _); [|done]. simpl in H. by apply IH in H.
Qed.

(** What [Decode] does with the first byte. *)
Lemma Decode_byte b rest s : arm_data_ s = b :: rest ->
  Decode stack torn s =
    match Z.shiftr b 6 with
    | 0 => unless_skipped (add_cfa (Z.shiftl (Z.land b 63) 2 + 4) ;; ret true)
    | 1 => unless_skipped (add_cfa (- (Z.shiftl (Z.land b 63) 2 + 4)) ;; ret true)
    | 2 => DecodePrefix_10 stack torn b
    | _ => DecodePrefix_11 b
    end (behind rest s).
Proof. intros E. unfold Decode, bind at 1, modify, bind at 1, GetByte, bind at 1, get. simpl. by rewrite E. Qed.

Lemma executed k s : executing s -> unless_skipped k s = k s.
Proof. intros E. unfold unless_skipped, bind, get. by rewrite E. Qed.

Lemma checked c (k : M ArmExidx bool) s : c = true -> (CHECK c ;; k) s = k s.
Proof. by intros ->. Qed.

Lemma next_byte (k : Z -> M ArmExidx bool) b rest s :
  (let? b := GetByte else ret false in k b) (behind (b :: rest) s) = k b (behind rest s).
Proof. done. Qed.

Definition moved (i : uinstr) (rest : list Z) s : Prop :=
  match ustep stack i (view s) with
  | Some u => Decode stack torn s = Ok (true, put u (behind rest s))
  | None => exists s', Decode stack torn s = Ok (false, s') /\ status_ s' = ARM_STATUS_READ_FAILED
  end.

Context (rest : list Z) (s : ArmExidx) (Hexec : executing s).

(** The facts [P] states of every value of a field, by computation. *)
Tactic Notation "field_facts" constr(H) constr(P) "as" simple_intropattern(pat) :=
  let F := fresh in
  pose proof (below_all _ _ P H ltac:(by vm_compute)) as F; cbv beta in F;
  rewrite ?andb_true_iff, ?Z.eqb_eq, ?eqb_true_iff in F; revert F; intros pat.

Ltac first_byte E F := unfold moved; cbn [ustep]; rewrite (Decode_byte _ _ _ E), F.

Lemma vsp_add_step n : below 64 n = true -> arm_data_ s = n :: rest -> moved (U_vsp_add n) rest s.
Proof.
  intros Hn E. field_facts Hn (fun n => (Z.shiftr n 6 =? 0) && (Z.shiftl (Z.land n 63) 2 + 4 =? 4 * n + 4)) as [F1 F2].
  first_byte E F1. rewrite executed by done. by rewrite F2.
Qed.

Lemma vsp_sub_step n : below 64 n = true -> arm_data_ s = (0x40 + n) :: rest -> moved (U_vsp_sub n) rest s.
Proof.
  intros Hn E.
  field_facts Hn (fun n => (Z.shiftr (0x40 + n) 6 =? 1) && (Z.shiftl (Z.land (0x40 + n) 63) 2 + 4 =? 4 * n + 4)) as [F1 F2].
  first_byte E F1. rewrite executed by done. by rewrite F2.
Qed.

Lemma selected_pop mask : below 4096 mask = true ->
  registers_in (u16 (Z.shiftl mask 4)) 4 16 = selected mask 4 12 /\
  bits_set (u16 (Z.shiftl mask 4)) (Z.shiftl 1 ARM_REG_SP) = bool_decide (ARM_REG_SP ∈ selected mask 4 12) /\
  bits_set (u16 (Z.shiftl mask 4)) (Z.shiftl 1 ARM_REG_PC) = bool_decide (ARM_REG_PC ∈ selected mask 4 12).
Proof.
  intros Hm. assert (forall r, 4 <= r < 16 -> bits_set (u16 (Z.shiftl mask 4)) (Z.shiftl 1 r) = Z.testbit mask (r - 4)) as Hbit.
  { intros r Hr. rewrite bits_set_shiftl by lia. unfold uwrap. rewrite Z.mod_pow2_bits_low by lia. apply Z.shiftl_spec. lia. }
  assert (forall r, 4 <= r < 16 -> Z.testbit mask (r - 4) = bool_decide (r ∈ selected mask 4 12)) as Hsel.
  { intros r Hr. apply eq_true_iff_eq. rewrite bool_decide_eq_true. unfold selected. rewrite list_elem_of_filter, elem_of_seqZ.
    split; [split; [done|lia]|tauto]. }
  split_and!; [|by rewrite Hbit, Hsel..].
  apply filter_ext_elem. intros r Hr%elem_of_seqZ. by rewrite Hbit by lia.
Qed.

(** The loop of [DecodePrefix_10_00] and what follows it. *)
Definition pop_mask (rs : list Z) : M ArmExidx bool :=
  call? pop_registers stack torn rs else ret false in
  (if bool_decide (ARM_REG_SP ∈ rs) then modify (fun s => set_cfa_ (reg (arm_regs_ s) ARM_REG_SP) s) else ret tt) ;;
  (if bool_decide (ARM_REG_PC ∈ rs) then modify (set_pc_set true) else ret tt) ;;
  ret true.

Lemma pop_step mask : below 4096 mask = true -> mask <> 0 -> arm_data_ s = [0x80 + mask / 256; mask mod 256] ++ rest ->
  moved (U_pop mask) rest s.
Proof.
  intros Hm Hnz E. destruct (selected_pop mask Hm) as (Hin & Hsp & Hpc). unfold below in Hm.
  assert (below 16 (mask / 256) = true) as Hhi.
  { unfold below. pose proof (Z.div_pos mask 256 ltac:(lia) ltac:(lia)).
    pose proof (Z.div_lt_upper_bound mask 256 16 ltac:(lia) ltac:(lia)). lia. }
  field_facts Hhi (fun n => (Z.shiftr (0x80 + n) 6 =? 2) && (Z.land (Z.shiftr (0x80 + n) 4) 3 =? 0) &&
    (Z.shiftr (0x80 + n) 4 =? 8) && (Z.land (0x80 + n) 15 =? n)) as [[[F1 F2] F3] F4].
  pose proof (Z.mod_pos_bound mask 256 ltac:(lia)).
  assert (Z.lor (Z.shiftl (mask / 256) 8) (mask mod 256) = mask) as Hmask
    by (rewrite Z.lor_comm, lor_shiftl by lia; pose proof (Z.div_mod mask 256); lia).
  assert (Decode stack torn s = pop_mask (selected mask 4 12) (behind rest s)) as ED.
  { rewrite (Decode_byte _ _ _ E), F1. unfold DecodePrefix_10. rewrite F1, F2.
    unfold DecodePrefix_10_00. rewrite F3, F4, !checked, next_byte, Hmask by done.
    rewrite (proj2 (Z.eqb_neq mask 0)), executed by done. by rewrite Hin, Hsp, Hpc. }
  unfold moved. rewrite ED. cbn [ustep].
  pose proof (pop_registers_spec (selected mask 4 12) (behind rest s)) as Hpop.
  change (view (behind rest s)) with (view s) in Hpop. unfold pop_mask.
  destruct (pop_all stack (selected mask 4 12) (view s)) as [u|] eqn:Eu; simpl.
  - unfold bind. rewrite Hpop. unfold after_pop. apply pop_all_pc in Eu. simpl in Eu.
    repeat case_bool_decide; unfold modify, ret, put; simpl; by rewrite ?orb_true_r, ?orb_false_r.
  - destruct Hpop as (s' & Hpop & Hs). exists s'. unfold bind. by rewrite Hpop.
Qed.

Lemma set_vsp_step r : below 16 r = true -> r <> 13 -> r <> 15 -> arm_data_ s = (0x90 + r) :: rest ->
  moved (U_set_vsp r) rest s.
Proof.
  intros Hr H13 H15 E.
  field_facts Hr (fun n => (Z.shiftr (0x90 + n) 6 =? 2) && (Z.land (Z.shiftr (0x90 + n) 4) 3 =? 1) &&
    (Z.shiftr (0x90 + n) 4 =? 9) && (Z.land (0x90 + n) 15 =? n)) as [[[F1 F2] F3] F4].
  first_byte E F1. unfold DecodePrefix_10. rewrite F1, F2. unfold DecodePrefix_10_01. rewrite F3, F4.
  rewrite (proj2 (Z.eqb_neq r 13)), (proj2 (Z.eqb_neq r 15)) by done. rewrite !checked by done. cbn [orb]. by rewrite executed.
Qed.

(** The pops without a mask of their own. *)
Lemma pops_moved i rs : ustep stack i (view s) = pop_all stack rs (view s) ->
  Decode stack torn s = pop_registers stack torn rs (behind rest s) -> moved i rest s.
Proof.
  intros Ei ED. unfold moved. rewrite Ei, ED. exact (pop_registers_spec rs (behind rest s)).
Qed.

Lemma pop_registers_app rs1 rs2 s1 : pop_registers stack torn (rs1 ++ rs2) s1 =
  (call? pop_registers stack torn rs1 else ret false in pop_registers stack torn rs2) s1.
Proof.
  revert s1. induction rs1 as [|r rs1 IH]; intros s1; [done|]. cbn [pop_registers app]. unfold bind at 1 2 3.
  destruct (pop_register stack torn r s1) as [[[] s2]| | |]; done.
Qed.

Lemma pop_r4_step n lr : below 8 n = true -> arm_data_ s = (0xa0 + (if lr : bool then 8 else 0) + n) :: rest ->
  moved (U_pop_r4 n lr) rest s.
Proof.
  intros Hn E. set (b := 0xa0 + (if lr then 8 else 0) + n) in *.
  assert (Z.shiftr b 6 = 2 /\ Z.land (Z.shiftr b 4) 3 = 2 /\ Z.shiftr b 4 = 10 /\ Z.land b 7 = n /\ bits_set b 8 = lr)
    as (F1 & F2 & F3 & F4 & F5).
  { subst b. destruct lr;
      [field_facts Hn (fun n => (Z.shiftr (0xa0 + 8 + n) 6 =? 2) && (Z.land (Z.shiftr (0xa0 + 8 + n) 4) 3 =? 2) &&
         (Z.shiftr (0xa0 + 8 + n) 4 =? 10) && (Z.land (0xa0 + 8 + n) 7 =? n) && bits_set (0xa0 + 8 + n) 8)
         as [[[[F1 F2] F3] F4] F5]
      |field_facts Hn (fun n => (Z.shiftr (0xa0 + 0 + n) 6 =? 2) && (Z.land (Z.shiftr (0xa0 + 0 + n) 4) 3 =? 2) &&
         (Z.shiftr (0xa0 + 0 + n) 4 =? 10) && (Z.land (0xa0 + 0 + n) 7 =? n) && Bool.eqb (bits_set (0xa0 + 0 + n) 8) false)
         as [[[[F1 F2] F3] F4] F5]]; done. }
  apply (pops_moved _ (seqZ 4 (n + 1) ++ (if lr then [ARM_REG_LR] else []))); [done|].
  rewrite (Decode_byte _ _ _ E), F1. unfold DecodePrefix_10. rewrite F1, F2. unfold DecodePrefix_10_10. rewrite F3, F4, F5.
  rewrite !checked, executed, pop_registers_app by done. unfold bind at 1 2.
  destruct (pop_registers _ _ _ _) as [[[] s1]| | |]; try done. destruct lr; [|done].
  cbn [pop_registers]. unfold bind. by destruct (pop_register _ _ _ _) as [[[] s2]| | |].
Qed.

Lemma pop_low_step mask : below 16 mask = true -> mask <> 0 -> arm_data_ s = [0xb1; mask] ++ rest ->
  moved (U_pop_low mask) rest s.
Proof.
  intros Hm Hnz E. field_facts Hm (fun n => (Z.shiftr n 4 =? 0)) as F1.
  apply (pops_moved _ (selected mask 0 4)); [done|]. rewrite (Decode_byte _ _ _ E).
  change (DecodePrefix_10_11_0001 stack torn (behind (mask :: rest) s) = pop_registers stack torn (selected mask 0 4) (behind rest s)).
  unfold DecodePrefix_10_11_0001. rewrite next_byte, F1, (proj2 (Z.eqb_neq mask 0)) by done. cbn [negb Z.eqb].
  rewrite executed by done. f_equal. apply filter_ext_elem. intros r Hr%elem_of_seqZ.
  by rewrite bits_set_shiftl, Z.sub_0_r by lia.
Qed.

(** The instructions that only move the vsp. *)
Lemma move_moved i n n' : ustep stack i (view s) = Some (move_vsp n (view s)) -> n' = n ->
  Decode stack torn s = (add_cfa n' ;; ret true) (behind rest s) -> moved i rest s.
Proof. intros Ei -> ED. unfold moved. by rewrite Ei, ED. Qed.

(** An operand of a count in the low half of a byte. *)
Lemma low_half first count : below 16 first = true -> below 16 count = true -> Z.land (16 * first + count) 15 = count.
Proof.
  intros H1 H2. unfold below in *. change 15 with (Z.ones 4). rewrite Z.land_ones by done. change (2 ^ 4) with 16.
  rewrite Z.add_comm, Z.mul_comm, Z.mod_add by done. apply Z.mod_small. lia.
Qed.

Lemma count_step i c first count extra : In (i, c, extra)
    [(U_fstmfdx first count, 0xb3, 12); (U_wmmx_data first count, 0xc6, 8); (U_vpush_d16 first count, 0xc8, 8);
     (U_vpush first count, 0xc9, 8)] ->
  below 16 first = true -> below 16 count = true -> arm_data_ s = [c; 16 * first + count] ++ rest -> moved i rest s.
Proof.
  intros Hi H1 H2 E. apply (move_moved i (8 * (count + 1) + (extra - 8)) (count * 8 + extra)); [|lia|].
  - destruct Hi as [|[|[|[|[]]]]]; simplify_eq; cbn [ustep]; do 2 f_equal; lia.
  - rewrite (Decode_byte _ _ _ E). destruct Hi as [|[|[|[|[]]]]]; simplify_eq; cbn [app].
    + change (DecodePrefix_10_11_0011 (behind (16 * first + count :: rest) s) =
              (add_cfa (count * 8 + 12) ;; ret true) (behind rest s)).
      unfold DecodePrefix_10_11_0011. by rewrite next_byte, executed, low_half.
    + change ((let? byte := GetByte else ret false in unless_skipped (add_cfa (Z.land byte 15 * 8 + 8) ;; ret true))
        (behind (16 * first + count :: rest) s) = (add_cfa (count * 8 + 8) ;; ret true) (behind rest s)).
      by rewrite next_byte, executed, low_half.
    + change ((let? byte := GetByte else ret false in unless_skipped (add_cfa (Z.land byte 15 * 8 + 8) ;; ret true))
        (behind (16 * first + count :: rest) s) = (add_cfa (count * 8 + 8) ;; ret true) (behind rest s)).
      by rewrite next_byte, executed, low_half.
    + change ((let? byte := GetByte else ret false in unless_skipped (add_cfa (Z.land byte 15 * 8 + 8) ;; ret true))
        (behind (16 * first + count :: rest) s) = (add_cfa (count * 8 + 8) ;; ret true) (behind rest s)).
      by rewrite next_byte, executed, low_half.
Qed.

Lemma fstmfdx_d8_step n : below 8 n = true -> arm_data_ s = (0xb8 + n) :: rest -> moved (U_fstmfdx_d8 n) rest s.
Proof.
  intros Hn E. apply (move_moved _ (8 * (n + 1) + 4) (n * 8 + 12)); [done|lia|].
  field_facts Hn (fun n => (Z.shiftr (0xb8 + n) 6 =? 2) && (Z.land (Z.shiftr (0xb8 + n) 4) 3 =? 3) &&
    (8 <=? Z.land (0xb8 + n) 15) && bits_set (0xb8 + n) 8 && (Z.ldiff (0xb8 + n) 7 =? 0xb8) &&
    (Z.land (0xb8 + n) 7 =? n)) as [[[[[F1 F2] F3] F4] F5] F6].
  rewrite (Decode_byte _ _ _ E), F1. unfold DecodePrefix_10. rewrite F1, F2, F4, checked by done.
  destruct (Z.land (0xb8 + n) 15) as [|[[[]|[]|]|[[]|[]|]|]|] eqn:E15; try done;
    unfold DecodePrefix_10_11_1nnn; by rewrite F5, F6, checked, executed by done.
Qed.

Lemma vpush_d8_step n : below 8 n = true -> arm_data_ s = (0xd0 + n) :: rest -> moved (U_vpush_d8 n) rest s.
Proof.
  intros Hn E. apply (move_moved _ (8 * (n + 1)) (n * 8 + 8)); [done|lia|].
  field_facts Hn (fun n => (Z.shiftr (0xd0 + n) 6 =? 3) && (Z.land (Z.shiftr (0xd0 + n) 3) 7 =? 2) &&
    (Z.ldiff (0xd0 + n) 7 =? 0xd0) && (Z.land (0xd0 + n) 7 =? n)) as [[[F1 F2] F3] F4].
  rewrite (Decode_byte _ _ _ E), F1. unfold DecodePrefix_11. rewrite F1, F2.
  unfold DecodePrefix_11_010. by rewrite F3, F4, !checked, executed by done.
Qed.

Lemma wmmx_data_10_step n : below 6 n = true -> arm_data_ s = (0xc0 + n) :: rest -> moved (U_wmmx_data_10 n) rest s.
Proof.
  intros Hn E. apply (move_moved _ (8 * (n + 1)) (n * 8 + 8)); [done|lia|].
  field_facts Hn (fun n => (Z.shiftr (0xc0 + n) 6 =? 3) && (Z.land (Z.shiftr (0xc0 + n) 3) 7 =? 0) &&
    (Z.ldiff (0xc0 + n) 7 =? 0xc0) && (Z.land (0xc0 + n) 7 =? n)) as [[[F1 F2] F3] F4].
  unfold below in Hn. rewrite (Decode_byte _ _ _ E), F1. unfold DecodePrefix_11. rewrite F1, F2.
  unfold DecodePrefix_11_000. rewrite F3, F4, !checked by done.
  by rewrite (proj2 (Z.eqb_neq n 6)), (proj2 (Z.eqb_neq n 7)), executed by (done || lia).
Qed.

Lemma wmmx_control_step mask : below 16 mask = true -> mask <> 0 -> arm_data_ s = [0xc7; mask] ++ rest ->
  moved (U_wmmx_control mask) rest s.
Proof.
  intros Hm Hnz E.
  field_facts Hm (fun n => (Z.shiftr n 4 =? 0) && (popcount n * 4 =? 4 * lengthZ (selected n 0 4))) as [F1 F2].
  apply (move_moved _ (4 * lengthZ (selected mask 0 4)) (popcount mask * 4)); [done|done|].
  rewrite (Decode_byte _ _ _ E).
  change ((let? byte := GetByte else ret false in
      if byte =? 0 then arm_fail ARM_STATUS_SPARE
      else if Z.shiftr byte 4 =? 0 then add_cfa (popcount byte * 4) ;; ret true
      else arm_fail ARM_STATUS_SPARE) (behind (mask :: rest) s) = (add_cfa (popcount mask * 4) ;; ret true) (behind rest s)).
  by rewrite next_byte, F1, (proj2 (Z.eqb_neq mask 0)) by done.
Qed.

(** The operand of a large adjustment. *)
Lemma uleb_round_byte b data acc shift s1 : arm_data_ s1 = b :: data -> 0 <= shift < 32 -> 0 <= acc < 2 ^ shift ->
  Z.land b 127 * 2 ^ shift < 2 ^ 32 -> let acc' := acc + Z.land b 127 * 2 ^ shift in
  uleb_round (acc, shift) s1 =
    Ok (if bits_set b 128 then inl (acc', u32 (shift + 7)) else inr (Some acc'), set_arm_data data s1).
Proof.
  intros E Hs Ha Hb acc'. unfold uleb_round, bind at 1, GetByte, bind at 1, get. rewrite E. unfold bind, modify, ret.
  rewrite (proj2 (Z.ltb_lt shift 32)) by lia. rewrite lor_shiftl by lia. rewrite Z.shiftl_mul_pow2, (proj2 (Z.ltb_lt _ _)) by lia.
  simpl. by destruct (bits_set b 128).
Qed.

Lemma uleb_loop n : forall v acc shift s1 fuel, arm_data_ s1 = uleb128_encode (S n) v ++ rest ->
  0 <= v < 128 ^ (Z.of_nat n + 1) -> 0 <= shift < 32 -> 0 <= acc < 2 ^ shift -> v * 2 ^ shift < 2 ^ 32 ->
  (length (uleb128_encode (S n) v) <= fuel)%nat ->
  iter fuel uleb_round (acc, shift) s1 = Ok (Some (acc + v * 2 ^ shift), set_arm_data rest s1).
Proof.
  induction n as [|n IH]; intros v acc shift s1 fuel E Hv Hs Ha Hb Hf;
    change (uleb128_encode (S ?k) v) with (if v <? 128 then [v] else (128 + v mod 128) :: uleb128_encode k (v / 128)) in *;
    (destruct (Z.ltb_spec v 128) as [Hlt|Hge]; [clear IH || idtac|try lia]);
    (destruct fuel as [|fuel]; [simpl in Hf; lia|]); cbn [iter]; unfold bind at 1.
  1,2: assert (below 128 v = true) as Hbv by (unfold below; lia);
    field_facts Hbv (fun n => (Z.land n 127 =? n) && Bool.eqb (bits_set n 128) false) as [F1 F2];
    by rewrite (uleb_round_byte _ _ _ _ _ E), F1, F2 by (rewrite ?F1; lia).
  pose proof (Z.mod_pos_bound v 128 ltac:(lia)). assert (below 128 (v mod 128) = true) as Hbv by (unfold below; lia).
  field_facts Hbv (fun n => (Z.land (128 + n) 127 =? n) && Bool.eqb (bits_set (128 + n) 128) true) as [F1 F2].
  pose proof (Z.div_mod v 128 ltac:(lia)) as Hdm. pose proof (Z.pow_pos_nonneg 2 shift ltac:(lia) ltac:(lia)) as Hpow.
  assert (2 ^ (shift + 7) = 2 ^ shift * 128) as E7 by (rewrite Z.pow_add_r by lia; done).
  assert (shift + 7 < 32) as Hs7 by (apply (Z.pow_lt_mono_r_iff 2); [lia|lia|]; rewrite E7; nia).
  rewrite (uleb_round_byte _ _ _ _ _ E), F1, F2 by (rewrite ?F1; nia || lia).
  rewrite (uwrap_small 32 (shift + 7)) by (unfold in_unsigned; lia).
  rewrite Nat2Z.inj_succ, <- Z.add_1_r, (Z.pow_add_r 128 (Z.of_nat n + 1)) in Hv by lia.
  rewrite (IH (v / 128)); [|done|nia|lia|rewrite E7; nia|rewrite E7; nia|cbn [length] in Hf; lia].
  rewrite E7. cbn. do 3 f_equal. nia.
Qed.

Lemma vsp_large_step n : below (2 ^ 32) n = true -> arm_data_ s = 0xb2 :: uleb128_encode 5 n ++ rest ->
  moved (U_vsp_large n) rest s.
Proof.
  intros Hn E. unfold below in Hn. apply (move_moved _ (0x204 + 4 * n) (0x204 + 4 * n)); [done|done|].
  rewrite (Decode_byte _ _ _ E).
  change (DecodePrefix_10_11_0010 (behind (uleb128_encode 5 n ++ rest) s) = (add_cfa (0x204 + 4 * n) ;; ret true) (behind rest s)).
  unfold DecodePrefix_10_11_0010, bind at 1, get. unfold bind at 1.
  rewrite (uleb_loop 4 n 0 0); [|done|simpl; lia|lia|simpl; lia|simpl; lia|].
  - rewrite executed by done. change (set_arm_data rest (behind (uleb128_encode 5 n ++ rest) s)) with (behind rest s).
    rewrite Z.shiftl_mul_pow2, Z.add_0_l, Z.mul_1_r by lia. rewrite (uwrap_add_r 32 0x204).
    unfold add_cfa, bind, modify, ret. by rewrite uwrap_add_r, (Z.mul_comm n).
  - cbn [arm_data_ behind set_arm_data]. rewrite length_app. lia.
Qed.

Lemma Decode_step i : uinstr_ok i = true -> arm_data_ s = uinstr_encode i ++ rest -> moved i rest s.
Proof.
  intros Hok E. destruct i; cbn [uinstr_ok uinstr_encode] in *; rewrite ?andb_true_iff, ?negb_true_iff, ?Z.eqb_neq in Hok;
    destruct_and? Hok.
  - by apply vsp_add_step.
  - by apply vsp_sub_step.
  - by apply pop_step.
  - by apply set_vsp_step.
  - by apply pop_r4_step.
  - by apply pop_low_step.
  - by apply vsp_large_step.
  - eapply (count_step _ 0xb3 first count 12); [simpl; tauto|done..].
  - by apply fstmfdx_d8_step.
  - eapply (count_step _ 0xc6 first count 8); [simpl; tauto|done..].
  - by apply wmmx_control_step.
  - by apply wmmx_data_10_step.
  - eapply (count_step _ 0xc8 first count 8); [simpl; tauto|done..].
  - eapply (count_step _ 0xc9 first count 8); [simpl; tauto|done..].
  - by apply vpush_d8_step.
Qed.

End Instr.

(** ** Programs *)

Definition program_bytes (p : list uinstr) : list Z := flat_map uinstr_encode p.

Lemma uinstr_encode_length i : (0 < length (uinstr_encode i))%nat.
Proof. destruct i; simpl; lia. Qed.

Lemma Decode_rounds stack torn rest p : forallb uinstr_ok p = true -> forall fuel s, executing s ->
  arm_data_ s = program_bytes p ++ ARM_OP_FINISH :: rest -> (length p < fuel)%nat ->
  match urun stack p (view s) with
  | Some u => iter fuel (Decode_round stack torn) tt s =
                Ok (true, put u (set_status ARM_STATUS_FINISH (set_arm_data rest s)))
  | None => exists s', iter fuel (Decode_round stack torn) tt s = Ok (false, s') /\ status_ s' = ARM_STATUS_READ_FAILED
  end.
Proof.
  induction p as [|i p IH]; intros Hok [|fuel] s Hexec E Hf; cbn [length] in Hf; try lia; cbn [urun].
  - cbn [iter]. unfold bind at 1, Decode_round at 1, bind at 1. rewrite (Decode_byte stack torn _ _ _ E).
    change (Z.shiftr ARM_OP_FINISH 6) with 2. cbv iota.
    change (DecodePrefix_10 stack torn ARM_OP_FINISH (behind rest s)) with
      (Ok (false, set_status ARM_STATUS_FINISH (behind rest s))). by destruct s.
  - simpl in Hok. apply andb_prop in Hok as [Hi Hp]. unfold program_bytes in E. cbn [flat_map] in E. rewrite <- app_assoc in E.
    pose proof (Decode_step stack torn _ s Hexec i Hi E) as Hm. unfold moved in Hm.
    assert (forall b s1, Decode stack torn s = Ok (b, s1) -> iter (S fuel) (Decode_round stack torn) tt s =
      if b then iter fuel (Decode_round stack torn) tt s1 else Ok (bool_decide (status_ s1 = ARM_STATUS_FINISH), s1)) as Hround.
    { intros b s1 ED. cbn [iter]. unfold bind at 1, Decode_round at 1, bind at 1. rewrite ED. by destruct b. }
    destruct (ustep stack i (view s)) as [u|]; simpl option_bind; cbn [mbind option_bind].
    + rewrite (Hround _ _ Hm).
      specialize (IH Hp fuel (put u (behind (program_bytes p ++ ARM_OP_FINISH :: rest) s)) Hexec eq_refl ltac:(lia)).
      by replace (view _) with u in IH by (by destruct u).
    + destruct Hm as (s' & Hm & Hs). exists s'. rewrite (Hround _ _ Hm), Hs. done.
Qed.

(** A program that ends with the finish instruction. *)
Lemma Eval_program stack torn rest p s : forallb uinstr_ok p = true -> executing s ->
  arm_data_ s = program_bytes p ++ ARM_OP_FINISH :: rest ->
  match urun stack p (mkU (cfa_ s) (arm_regs_ s) false) with
  | Some u => exists s', Eval stack torn s = Ok (true, s') /\ cfa_ s' = u_vsp u /\ arm_regs_ s' = u_regs u /\
                pc_set_ s' = u_pc u /\ status_ s' = ARM_STATUS_FINISH
  | None => exists s', Eval stack torn s = Ok (false, s') /\ status_ s' = ARM_STATUS_READ_FAILED
  end.
Proof.
  intros Hp Hexec E. unfold Eval. unfold bind at 1 2 3 4, modify, get.
  pose proof (Decode_rounds stack torn rest p Hp (S (length (arm_data_ s))) (set_pc_set false s) Hexec E) as H.
  assert (length p <= length (program_bytes p))%nat.
  { clear. induction p as [|i p IH]; simpl; [lia|]. rewrite length_app. pose proof (uinstr_encode_length i). lia. }
  specialize (H ltac:(rewrite E, length_app; lia)). change (view (set_pc_set false s)) with (mkU (cfa_ s) (arm_regs_ s) false) in H.
  destruct (urun _ _ _) as [u|]; [|exact H]. eexists. split; [exact H|]. done.
Qed.

(** C17: [Eval] implements the unwinding instructions of the ARM EHABI: on the
    bytes of any program of them, closed by a finish, it returns true with
    exactly the virtual stack pointer and the registers the program computes
    from the stack, having noted whether the pc was restored; and false with
    ARM_STATUS_READ_FAILED when the program pops a word that cannot be read. *)
Theorem ArmEval_refines stack torn rest p s : forallb uinstr_ok p = true -> executing s ->
  arm_data_ s = program_bytes p ++ ARM_OP_FINISH :: rest ->
  match urun stack p (mkU (cfa_ s) (arm_regs_ s) false) with
  | Some u => exists s', Eval stack torn s = Ok (true, s') /\ cfa_ s' = u_vsp u /\ arm_regs_ s' = u_regs u /\
                pc_set_ s' = u_pc u /\ status_ s' = ARM_STATUS_FINISH
  | None => exists s', Eval stack torn s = Ok (false, s') /\ status_ s' = ARM_STATUS_READ_FAILED
  end.
Proof. apply Eval_program. Qed.

(** pop {r4-r6, r14}; vsp = vsp + 8; finish. *)
Lemma ArmEval_refines_witness :
  let stack := bytes_memory (of_words 4 (seqZ 50 8)) in
  exists s', Eval stack 0 (set_arm_data (program_bytes [U_pop_r4 2 true; U_vsp_add 1] ++ [ARM_OP_FINISH])
                             (set_cfa_ 8 (new_ArmExidx (new_Regs Arm 0 8)))) = Ok (true, s') /\
    cfa_ s' = 32 /\ reg (arm_regs_ s') 6 = 54 /\ reg (arm_regs_ s') ARM_REG_LR = 55.
Proof.
  intros stack.
  destruct (ArmEval_refines stack 0 [] [U_pop_r4 2 true; U_vsp_add 1]
    (set_arm_data (program_bytes [U_pop_r4 2 true; U_vsp_add 1] ++ [ARM_OP_FINISH])
       (set_cfa_ 8 (new_ArmExidx (new_Regs Arm 0 8)))) eq_refl eq_refl eq_refl) as (s' & E & Hc & Hr & _).
  exists s'. rewrite E, Hc, Hr. by vm_compute.
Defined.

(** ** The entries of .ARM.exidx *)

(** A word as the bytes of its value, the most significant first. *)
Definition word : Type := Z * Z * Z * Z.

Definition word_value (w : word) : Z := let '(b3, b2, b1, b0) := w in ((b3 * 256 + b2) * 256 + b1) * 256 + b0.
Definition word_bytes (w : word) : list Z := let '(b3, b2, b1, b0) := w in [b3; b2; b1; b0].
Definition word_ok (w : word) : bool := forallb (below 256) (word_bytes w).

(** The compact form in the entry itself, and the forms that the entry refers
    to by their distance: compact with personality 0, compact with personality
    1 or 2 and further words, and generic, behind the address of a personality
    routine. *)
Inductive entry :=
| E_inline (b2 b1 b0 : Z)
| E_compact (distance b2 b1 b0 : Z)
| E_compact_long (distance personality b1 b0 : Z) (words : list word)
| E_generic (distance : Z) (routine : word) (b2 b1 b0 : Z) (words : list word).

(** The words at the distance. *)
Definition entry_table (e : entry) : list word :=
  match e with
  | E_inline _ _ _ => []
  | E_compact _ b2 b1 b0 => [(0x80, b2, b1, b0)]
  | E_compact_long _ personality b1 b0 words => (0x80 + personality, lengthZ words, b1, b0) :: words
  | E_generic _ routine b2 b1 b0 words => routine :: (lengthZ words, b2, b1, b0) :: words
  end.

(** The instructions, up to the finish that is always there. *)
Definition entry_bytes (e : entry) : list Z :=
  match e with
  | E_inline b2 b1 b0 | E_compact _ b2 b1 b0 => [b2; b1; b0]
  | E_compact_long _ _ b1 b0 words => [b1; b0] ++ flat_map word_bytes words
  | E_generic _ _ b2 b1 b0 words => [b2; b1; b0] ++ flat_map word_bytes words
  end.

Definition with_finish (bs : list Z) : list Z :=
  if bool_decide (last bs = Some ARM_OP_FINISH) then bs else bs ++ [ARM_OP_FINISH].

Definition entry_ok (e : entry) : bool :=
  forallb word_ok (entry_table e) &&
  match e with
  | E_inline b2 b1 b0 => word_ok (0x80, b2, b1, b0)
  | E_compact d _ _ _ => fits_signed 31 d && negb (d =? 1)
  | E_compact_long d personality _ _ words =>
      fits_signed 31 d && negb (d =? 1) && ((personality =? 1) || (personality =? 2)) && (lengthZ words <=? 5)
  | E_generic d (b3, _, _, _) _ _ _ words => fits_signed 31 d && negb (d =? 1) && (b3 <? 0x80) && (lengthZ words <=? 5)
  end.

Section Entries.
Context (elf : Memory).

Fixpoint words_at (a : Z) (ws : list word) : Prop :=
  match ws with
  | [] => True
  | w :: ws => Read32 elf a = Some (word_value w) /\ words_at (u32 (a + 4)) ws
  end.

(** The second word of the entry at [offset]. *)
Definition entry_at (offset : Z) (e : entry) : Prop :=
  match e with
  | E_inline b2 b1 b0 => Read32 elf (u32 (offset + 4)) = Some (word_value (0x80, b2, b1, b0))
  | E_compact d _ _ _ | E_compact_long d _ _ _ _ | E_generic d _ _ _ _ _ =>
      Read32 elf (u32 (offset + 4)) = Some (uwrap 31 d) /\ words_at (u32 (offset + 4 + d)) (entry_table e)
  end.

Lemma byte_of_div i v : 0 <= i -> byte_of i v = v / 256 ^ i mod 256.
Proof.
  intros Hi. unfold byte_of. change 255 with (Z.ones 8). rewrite Z.land_ones, Z.shiftr_div_pow2 by lia.
  by rewrite Z.pow_mul_r by lia.
Qed.

Lemma word_ok_bytes b3 b2 b1 b0 : word_ok (b3, b2, b1, b0) = true ->
  0 <= b3 < 256 /\ 0 <= b2 < 256 /\ 0 <= b1 < 256 /\ 0 <= b0 < 256.
Proof. unfold word_ok, below. simpl. lia. Qed.

Lemma byte_of_word b3 b2 b1 b0 : word_ok (b3, b2, b1, b0) = true -> let v := word_value (b3, b2, b1, b0) in
  byte_of 3 v = b3 /\ byte_of 2 v = b2 /\ byte_of 1 v = b1 /\ byte_of 0 v = b0.
Proof.
  intros Hw v. destruct (word_ok_bytes _ _ _ _ Hw) as (H3 & H2 & H1 & H0). rewrite !byte_of_div by lia.
  unfold v, word_value. change (256 ^ 3) with 16777216. change (256 ^ 2) with 65536. change (256 ^ 1) with 256.
  change (256 ^ 0) with 1. split_and!; Z.to_euclidean_division_equations; lia.
Qed.

Lemma word_value_range b3 b2 b1 b0 : word_ok (b3, b2, b1, b0) = true ->
  b3 * 2 ^ 24 <= word_value (b3, b2, b1, b0) < (b3 + 1) * 2 ^ 24.
Proof. intros Hw. destruct (word_ok_bytes _ _ _ _ Hw) as (H3 & H2 & H1 & H0). unfold word_value. lia. Qed.

(** Bit 31 says whether a word is compact, the bits below it the personality. *)
Lemma word_compact b3 b2 b1 b0 : word_ok (b3, b2, b1, b0) = true ->
  bits_set (word_value (b3, b2, b1, b0)) (2 ^ 31) = (0x80 <=? b3).
Proof.
  intros Hw. pose proof (word_value_range _ _ _ _ Hw). destruct (word_ok_bytes _ _ _ _ Hw) as (H3 & _).
  change (2 ^ 31) with (Z.shiftl 1 31). rewrite bits_set_shiftl by done. apply eq_true_iff_eq.
  rewrite Z.testbit_true, Z.leb_le by done. Z.to_euclidean_division_equations. lia.
Qed.

Lemma word_personality b3 b2 b1 b0 : word_ok (b3, b2, b1, b0) = true ->
  Z.land (Z.shiftr (word_value (b3, b2, b1, b0)) 24) 15 = b3 mod 16.
Proof.
  intros Hw. pose proof (word_value_range _ _ _ _ Hw). change 15 with (Z.ones 4).
  rewrite Z.land_ones, Z.shiftr_div_pow2 by done. Z.to_euclidean_division_equations. lia.
Qed.

Lemma prel31_spec d : in_signed 31 d -> prel31 (uwrap 31 d) = d /\ bits_set (uwrap 31 d) (2 ^ 31) = false /\
  (uwrap 31 d = 1 <-> d = 1).
Proof.
  intros Hd. unfold in_signed in Hd. split_and!.
  - unfold prel31. rewrite Z.shiftl_mul_pow2, Z.shiftr_div_pow2 by done. unfold swrap, uwrap.
    Z.to_euclidean_division_equations. lia.
  - change (2 ^ 31) with (Z.shiftl 1 31). rewrite bits_set_shiftl by done. by apply Z.mod_pow2_bits_high.
  - unfold uwrap. Z.to_euclidean_division_equations. lia.
Qed.

Lemma read_table_words_spec ws : forallb word_ok ws = true -> forall a s, words_at a ws ->
  read_table_words elf (length ws) a s = Ok (true, set_arm_data (arm_data_ s ++ flat_map word_bytes ws) s).
Proof.
  induction ws as [|w ws IH]; intros Hok a s Hat; cbn [read_table_words length flat_map].
  - rewrite app_nil_r. by destruct s.
  - simpl in Hok. apply andb_prop in Hok as [Hw Hok]. destruct Hat as [-> Hat]. destruct w as [[[b3 b2] b1] b0].
    destruct (byte_of_word _ _ _ _ Hw) as (-> & -> & -> & ->). unfold bind, push_data, modify.
    rewrite (IH Hok _ _ Hat). cbn [arm_data_ set_arm_data]. by rewrite <- app_assoc.
Qed.

Lemma finish_data_spec s : arm_data_ s <> [] -> finish_data s = Ok (true, set_arm_data (with_finish (arm_data_ s)) s).
Proof.
  intros Hne. unfold finish_data, bind at 1, get, with_finish. destruct (last (arm_data_ s)) as [b|] eqn:E.
  - case_bool_decide as Hb; [injection Hb as ->; by destruct s|]. rewrite (proj2 (Z.eqb_neq b _)) by congruence. done.
  - by apply last_None in E.
Qed.

(** The forms in a table: their header, then their words. *)
Definition extract_table (addr : Z) : M ArmExidx bool :=
  match Read32 elf addr with
  | None => arm_fail ARM_STATUS_READ_FAILED
  | Some data =>
      let? header := extract_header elf addr data else ret false in
      let '(num_table_words, addr) := header in
      if 5 <? num_table_words then arm_fail ARM_STATUS_MALFORMED
      else call? read_table_words elf (Z.to_nat num_table_words) addr else ret false in finish_data
  end.

Lemma extract_words addr ws d s s' : forallb word_ok ws = true -> lengthZ ws <= 5 -> words_at addr ws ->
  s = set_arm_data d s' -> d <> [] ->
  (if 5 <? lengthZ ws then arm_fail ARM_STATUS_MALFORMED
   else call? read_table_words elf (Z.to_nat (lengthZ ws)) addr else ret false in finish_data) s =
  Ok (true, set_arm_data (with_finish (d ++ flat_map word_bytes ws)) s').
Proof.
  intros Hok Hlen Hat -> Hd. rewrite (proj2 (Z.ltb_ge _ _)) by lia. unfold lengthZ. rewrite Nat2Z.id. unfold bind.
  rewrite (read_table_words_spec ws Hok _ _ Hat). cbn [arm_data_ set_arm_data]. rewrite finish_data_spec; [done|]. by destruct d.
Qed.

Lemma extract_table_spec addr e s : entry_ok e = true -> words_at addr (entry_table e) -> entry_table e <> [] ->
  arm_data_ s = [] -> extract_table addr s = Ok (true, set_arm_data (with_finish (entry_bytes e)) s).
Proof.
  intros Hok Hat Hne Es. unfold entry_ok in Hok. apply andb_prop in Hok as [Hws Hok].
  destruct e as [b2 b1 b0|d b2 b1 b0|d q b1 b0 ws|d [[[r3 r2] r1] r0] b2 b1 b0 ws]; [done|..]; cbn [entry_table] in *;
    cbn [words_at forallb] in *; apply andb_prop in Hws as [Hw Hws]; destruct Hat as [Hr Hat]; unfold extract_table; rewrite Hr;
    unfold extract_header; rewrite word_compact by done.
  - rewrite word_personality by done. destruct (byte_of_word _ _ _ _ Hw) as (_ & -> & -> & ->). simpl Z.eqb. cbv iota.
    unfold bind, push_data, modify, ret.
    apply (extract_words addr [] [b2; b1; b0]); try done; by destruct s; simpl in *; subst.
  - rewrite word_personality by done. destruct (byte_of_word _ _ _ _ Hw) as (_ & E2 & -> & ->). rewrite E2.
    assert (q = 1 \/ q = 2) as Hq by lia. assert ((0x80 + q) mod 16 = q) as -> by (destruct Hq as [->| ->]; done).
    rewrite (proj2 (Z.leb_le _ _)), (proj2 (Z.eqb_neq q 0)) by lia.
    replace ((q =? 1) || (q =? 2)) with true by lia. unfold bind, push_data, modify, ret.
    apply (extract_words _ ws [b1; b0]); try done; [lia|by destruct s; simpl in *; subst].
  - rewrite (proj2 (Z.leb_gt _ _)) by lia. cbn [words_at forallb] in *. apply andb_prop in Hws as [Hw' Hws].
    destruct Hat as [Hr' Hat]. rewrite Hr'. destruct (byte_of_word _ _ _ _ Hw') as (E3 & -> & -> & ->). rewrite E3.
    unfold bind, push_data, modify, ret.
    apply (extract_words _ ws [b2; b1; b0]); try done; [lia|by destruct s; simpl in *; subst].
Qed.

End Entries.

(** The bytes of an entry. *)
Lemma ExtractEntryData_entry elf offset e s : offset mod 2 = 0 -> entry_ok e = true -> entry_at elf offset e ->
  ExtractEntryData elf offset s =
    Ok (true, set_arm_data (with_finish (entry_bytes e)) (set_status ARM_STATUS_NONE s)).
Proof.
  intros Heven Hok Hat. unfold ExtractEntryData, bind at 1 2, modify.
  assert (bits_set offset 1 = false) as ->.
  { change 1 with (Z.shiftl 1 0). rewrite bits_set_shiftl by done. apply not_true_iff_false. rewrite Z.testbit_true by done.
    change (2 ^ 0) with 1. rewrite Z.div_1_r. lia. }
  assert ((exists b2 b1 b0, e = E_inline b2 b1 b0) \/ entry_table e <> []) as [(b2 & b1 & b0 & ->)|Hne]
    by (destruct e; [left; by eauto|by right..]).
  - cbn [entry_at] in Hat. rewrite Hat. unfold entry_ok in Hok. simpl forallb in Hok. cbn [andb] in Hok.
    rewrite word_compact, word_personality by done. destruct (byte_of_word _ _ _ _ Hok) as (_ & -> & -> & ->).
    pose proof (word_value_range _ _ _ _ Hok). rewrite (proj2 (Z.eqb_neq _ 1)) by lia.
    change (0x80 mod 16) with 0. unfold bind, push_data, modify, ret. cbn -[finish_data with_finish]. by rewrite finish_data_spec.
  - assert (exists d, in_signed 31 d /\ d <> 1 /\ Read32 elf (u32 (offset + 4)) = Some (uwrap 31 d) /\
                      words_at elf (u32 (offset + 4 + d)) (entry_table e)) as (d & Hd & Hd1 & Hr & Hws).
    { unfold entry_ok in Hok. apply andb_prop in Hok as [_ Hok]. destruct e as [b2 b1 b0|d b2 b1 b0|d q b1 b0 ws|d [[[r3 r2] r1] r0] b2 b1 b0 ws];
        [done|..]; exists d; destruct Hat;
        rewrite ?andb_true_iff in Hok; destruct_and? Hok; (split_and!; [by apply fits_signed_spec|lia|done|done]). }
    destruct (prel31_spec d Hd) as (Ep & Eb & E1). rewrite Hr, Eb, (proj2 (Z.eqb_neq _ 1)), Ep, uwrap_add_l by tauto.
    exact (extract_table_spec elf _ e (set_status ARM_STATUS_NONE (set_arm_data [] s)) Hok Hws Hne eq_refl).
Qed.

(** C29: [ExtractEntryData] reads every form of an entry of .ARM.exidx that the
    ABI defines: compact in the entry itself, compact in a table with
    personality 0, 1 or 2, or generic behind a personality routine, with up to
    five further words: the bytes of the instructions in their order, closed by
    a finish. *)
Theorem ExtractEntryData_reads elf offset e s : offset mod 2 = 0 -> entry_ok e = true -> entry_at elf offset e ->
  ExtractEntryData elf offset s =
    Ok (true, set_arm_data (with_finish (entry_bytes e)) (set_status ARM_STATUS_NONE s)).
Proof. apply ExtractEntryData_entry. Qed.

(** An entry whose table has a personality routine and one further word. *)
Lemma ExtractEntryData_reads_witness :
  let elf := bytes_memory (replicate 4 0 ++ le_split 4 4 ++ le_split 4 0x1234 ++ le_split 4 0x01a8b0b0 ++ le_split 4 0xa9b0b0b0) in
  ExtractEntryData elf 0 (new_ArmExidx (new_Regs Arm 0 0)) =
    Ok (true, set_arm_data [0xa8; 0xb0; 0xb0; 0xa9; 0xb0; 0xb0; 0xb0] (new_ArmExidx (new_Regs Arm 0 0))).
Proof.
  intros elf. apply (ExtractEntryData_reads elf 0
    (E_generic 4 (0, 0, 0x12, 0x34) 0xa8 0xb0 0xb0 [(0xa9, 0xb0, 0xb0, 0xb0)]) (new_ArmExidx (new_Regs Arm 0 0))); done.
Defined.
