(* ===== verification/Symbols.v ===== *)
(** * Symbols: names of functions from an ELF symbol table
    (libunwindstack/Symbols.cpp, Symbols.h)

    [GetName] reads the table on demand and keeps the functions it has seen in
    [symbols_], sorted by address.  std::sort is a parameter. *)

From stdpp Require Import sorting.
From S2P Require Import Prelude Memory.

(** ** ELF symbols *)

(** Elf32_Sym and Elf64_Sym, the template arguments of [GetName]. *)
Inductive SymType := Elf32_Sym | Elf64_Sym.

Record Sym := mkSym { st_name : Z; st_value : Z; st_size : Z; st_info : Z; st_shndx : Z }.

Definition sizeof_Sym (T : SymType) : Z := match T with Elf32_Sym => 16 | Elf64_Sym => 24 end.

(** The fields of the two structures in their layouts. *)
Definition sym_of_bytes (T : SymType) (bs : list Z) : Sym :=
  let field a n := le_combine (slice bs a n) in
  match T with
  | Elf32_Sym => mkSym (field 0 4) (field 4 4) (field 8 4) (field 12 1) (field 14 2)
  | Elf64_Sym => mkSym (field 0 4) (field 8 8) (field 16 8) (field 4 1) (field 6 2)
  end.

Definition SHN_UNDEF : Z := 0.
Definition SHN_ABS : Z := 0xfff1.
Definition STT_FUNC : Z := 2.

(** ELF32_ST_TYPE *)
Definition ST_TYPE (info : Z) : Z := Z.land info 15.

Record Info := mkInfo { start_offset : Z; end_offset : Z; info_str_offset : Z }.

#[global] Instance Info_eq_dec : EqDecision Info.
Proof. solve_decision. Defined.

Record Symbols := mkSymbols {
  sym_cur_offset_ : Z;
  sym_offset_ : Z;
  sym_end_ : Z;
  entry_size_ : Z;
  str_offset_ : Z;
  str_end_ : Z;
  symbols_ : list Info
}.

Definition new_Symbols (offset size entry_size str_offset str_size : Z) : Symbols :=
  mkSymbols offset offset (u64 (offset + size)) entry_size str_offset (u64 (str_offset + str_size)) [].

Definition set_sym_cur_offset (x : Z) (s : Symbols) : Symbols :=
  mkSymbols x (sym_offset_ s) (sym_end_ s) (entry_size_ s) (str_offset_ s) (str_end_ s) (symbols_ s).
Definition set_symbols (x : list Info) (s : Symbols) : Symbols :=
  mkSymbols (sym_cur_offset_ s) (sym_offset_ s) (sym_end_ s) (entry_size_ s) (str_offset_ s) (str_end_ s) x.

Definition ClearCache (s : Symbols) : Symbols := set_sym_cur_offset (sym_offset_ s) (set_symbols [] s).

(** ** The lookup in the cache *)

Definition GetInfoFromCache_round (addr : Z) (l : Z * Z) : M Symbols (Z * Z + option Info) :=
  let '(first, last) := l in
  if first <? last then
    let current := u64 (first + (last - first) / 2) in
    symbols <- get symbols_ ;;
    match symbols !! Z.to_nat current with
    | None => undef
    | Some info =>
        if addr <? start_offset info then ret (inl (first, current))
        else if addr <? end_offset info then ret (inr (Some info))
        else ret (inl (u64 (current + 1), last))
    end
  else ret (inr None).

(** A list of fewer than 2^63 entries is halved at most 64 times. *)
Definition GetInfoFromCache (addr : Z) : M Symbols (option Info) :=
  size <- get (fun s => lengthZ (symbols_ s)) ;;
  iter 65 (GetInfoFromCache_round addr) (0, size).

(** ** GetName *)

(** What [GetName] returns, and what it writes through its two pointers. *)
Record name_result := mkName { name_found : bool; name_string : option (list Z); name_func_offset : option Z }.

Section GetName.
Context (T : SymType) (elf_memory : Memory) (sort : list Info -> list Info).

(** [elf_memory->ReadString(offset, name, str_end_ - offset)] *)
Definition read_name (fuel : nat) (offset func_offset : Z) : M Symbols name_result := fun s =>
  outcome_map (fun '(ok, string) => (mkName ok (Some string) (Some func_offset), s))
    (ReadString elf_memory fuel offset (u64 (str_end_ s - offset))).

(** The entry of a symbol in the cache. *)
Definition info_of (load_bias str_offset : Z) (entry : Sym) : Info :=
  let start := if st_shndx entry =? SHN_ABS then st_value entry else u64 (st_value entry + load_bias) in
  mkInfo start (u64 (start + st_size entry)) (u64 (str_offset + st_name entry)).

Definition is_function (entry : Sym) : bool :=
  negb (st_shndx entry =? SHN_UNDEF) && (ST_TYPE (st_info entry) =? STT_FUNC).

(** One round of the loop over the table; [added] is [symbol_added].  It ends
    with [inr None] for the early return and otherwise with [added] and the
    result. *)
Definition GetName_round (fuel : nat) (addr load_bias : Z) (added : bool) :
    M Symbols (bool + option (bool * name_result)) :=
  s <- get id ;;
  if u64 (sym_cur_offset_ s + entry_size_ s) <=? sym_end_ s then
    match Read elf_memory (sym_cur_offset_ s) (sizeof_Sym T) with
    | None => modify (set_sym_cur_offset UINT64_MAX) ;; ret (inr None)
    | Some bs =>
        let entry := sym_of_bytes T bs in
        modify (fun s => set_sym_cur_offset (u64 (sym_cur_offset_ s + entry_size_ s)) s) ;;
        if is_function entry then
          let info := info_of load_bias (str_offset_ s) entry in
          modify (fun s => set_symbols (symbols_ s ++ [info]) s) ;;
          if (start_offset info <=? addr) && (addr <? end_offset info) then
            let func_offset := u64 (addr - start_offset info) in
            if info_str_offset info <? str_end_ s then
              r <- read_name fuel (info_str_offset info) func_offset ;;
              ret (inr (Some (true, r)))
            else ret (inr (Some (true, mkName false None (Some func_offset))))
          else ret (inl true)
        else ret (inl added)
    end
  else ret (inr (Some (added, mkName false None None))).

(** [fuel] bounds the table and the names. *)
Definition GetName_scan (fuel : nat) (addr load_bias : Z) : M Symbols name_result :=
  r <- iter fuel (GetName_round fuel addr load_bias) false ;;
  match r with
  | None => ret (mkName false None None)
  | Some (added, result) =>
      (if added : bool then modify (fun s => set_symbols (sort (symbols_ s)) s) else ret tt) ;;
      ret result
  end.

Definition GetName (fuel : nat) (addr load_bias : Z) : M Symbols name_result :=
  let addr := u64 (addr + load_bias) in
  size <- get (fun s => lengthZ (symbols_ s)) ;;
  cached <- (if negb (size =? 0) then GetInfoFromCache addr else ret None) ;;
  match cached with
  | Some info =>
      CHECK ((start_offset info <=? addr) && (addr <=? end_offset info)) ;;
      read_name fuel (info_str_offset info) (u64 (addr - start_offset info))
  | None => GetName_scan fuel addr load_bias
  end.

End GetName.

(** ** What GetName promises *)

Section Spec.
Context (T : SymType) (mem : Memory) (sort : list Info -> list Info).
Context (sort_perm : forall l, sort l ≡ₚ l)
        (sort_sorted : forall l, StronglySorted (fun a b => start_offset a <= start_offset b) (sort l)).
Context (fuel : nat) (load_bias : Z) (entries : list Sym) (names : Info -> list Z).
Implicit Types s : Symbols.

Definition functions s (l : list Sym) : list Info := map (info_of load_bias (str_offset_ s)) (filter is_function l).

Definition in_range (addr : Z) (i : Info) : Prop := start_offset i <= addr < end_offset i.

(** The table holds [entries]; the functions among them have ranges that are
    not empty and do not overlap, and names that can be read. *)
Record table_at s : Prop := {
  at_size : 0 < entry_size_ s /\ 0 <= sym_offset_ s;
  at_end : sym_offset_ s + lengthZ entries * entry_size_ s <= sym_end_ s /\
           sym_end_ s < sym_offset_ s + (lengthZ entries + 1) * entry_size_ s /\
           sym_end_ s + entry_size_ s < 2 ^ 64;
  at_entries i e : entries !! i = Some e -> exists bs,
    Read mem (sym_offset_ s + Z.of_nat i * entry_size_ s) (sizeof_Sym T) = Some bs /\ sym_of_bytes T bs = e;
  at_nodup : NoDup (functions s entries);
  at_apart a b : a ∈ functions s entries -> b ∈ functions s entries -> a <> b ->
    end_offset a <= start_offset b \/ end_offset b <= start_offset a;
  at_ranges a : a ∈ functions s entries -> 0 <= start_offset a < end_offset a /\ end_offset a < 2 ^ 64;
  at_names a : a ∈ functions s entries -> info_str_offset a < str_end_ s /\
    ReadString mem fuel (info_str_offset a) (u64 (str_end_ s - info_str_offset a)) = Ok (true, names a)
}.

(** The first [k] entries have been read, their functions are in the cache. *)
Record scanned (k : nat) s : Prop := {
  scanned_le : (k <= length entries)%nat;
  scanned_cur : sym_cur_offset_ s = sym_offset_ s + Z.of_nat k * entry_size_ s;
  scanned_symbols : symbols_ s ≡ₚ functions s (take k entries)
}.

Definition cache_sorted s : Prop := StronglySorted (fun a b => start_offset a <= start_offset b) (symbols_ s).

Definition symbols_ok s : Prop := table_at s /\ cache_sorted s /\ exists k, scanned k s.

(** Everything but the cache. *)
Definition same_table s s' : Prop := s' = set_sym_cur_offset (sym_cur_offset_ s') (set_symbols (symbols_ s') s).

Lemma table_at_same s s' : table_at s -> same_table s s' -> table_at s'.
Proof. intros [H1 H2 H3 H4 H5 H6 H7] ->. by split. Qed.

Lemma functions_take s k a : a ∈ functions s (take k entries) -> a ∈ functions s entries.
Proof.
  unfold functions. rewrite !list_elem_of_fmap. intros (e & -> & He). exists e. split; [done|].
  apply list_elem_of_filter in He as [Hf He]. apply list_elem_of_filter. split; [done|].
  rewrite <- (take_drop k entries). apply elem_of_app. by left.
Qed.

Lemma functions_take_nodup s k : NoDup (functions s entries) -> NoDup (functions s (take k entries)).
Proof.
  rewrite <- (take_drop k entries) at 1. unfold functions. rewrite filter_app, map_app. by intros [H _]%NoDup_app.
Qed.

(** In a sorted cache a range ends before the next one starts. *)
Lemma cache_lookup k s i j a b : table_at s -> cache_sorted s -> scanned k s -> (i < j)%nat ->
  symbols_ s !! i = Some a -> symbols_ s !! j = Some b -> start_offset a < end_offset a /\ end_offset a <= start_offset b.
Proof.
  intros Ht Hs Hk Hij Ha Hb.
  assert (a ∈ functions s entries) as Ia.
  { apply (functions_take s k). rewrite <- (scanned_symbols _ _ Hk). by eapply list_elem_of_lookup_2. }
  assert (b ∈ functions s entries) as Ib.
  { apply (functions_take s k). rewrite <- (scanned_symbols _ _ Hk). by eapply list_elem_of_lookup_2. }
  destruct (at_ranges s Ht a Ia) as [Ra _]. destruct (at_ranges s Ht b Ib) as [Rb _]. split; [lia|].
  assert (a <> b) as Hne.
  { intros ->. assert (NoDup (symbols_ s)) as Hnd
      by (rewrite (scanned_symbols _ _ Hk); apply functions_take_nodup, Ht).
    pose proof (NoDup_lookup _ _ _ _ Hnd Ha Hb). lia. }
  assert (start_offset a <= start_offset b); [|by destruct (at_apart s Ht a b Ia Ib Hne); lia].
  clear -Hs Hij Ha Hb. unfold cache_sorted in Hs. revert i j Hij Ha Hb.
  induction Hs as [|x l _ IH Hx]; intros [|i] [|j] Hij Ha Hb; simplify_eq/=; try lia.
  - by apply (Forall_lookup_1 _ _ _ _ Hx Hb).
  - eapply (IH i j); [lia|done|done].
Qed.

(** No entry outside of [first, last) covers the address. *)
Record narrowing (addr : Z) s (fl : Z * Z) : Prop := {
  narrowing_range : 0 <= fst fl <= snd fl /\ snd fl <= lengthZ (symbols_ s);
  narrowing_low i a : Z.of_nat i < fst fl -> symbols_ s !! i = Some a -> end_offset a <= addr;
  narrowing_high i a : snd fl <= Z.of_nat i -> symbols_ s !! i = Some a -> addr < start_offset a
}.

Lemma wp_GetInfoFromCache_round addr k s fl : table_at s -> cache_sorted s -> scanned k s ->
  lengthZ (symbols_ s) < 2 ^ 63 -> narrowing addr s fl ->
  wp nothing (GetInfoFromCache_round addr fl) (fun r s' => s' = s /\ match r with
    | inl fl' => narrowing addr s fl' /\ (halvings (fl'.2 - fl'.1) < halvings (fl.2 - fl.1))%nat
    | inr (Some a) => a ∈ symbols_ s /\ in_range addr a
    | inr None => forall a, a ∈ symbols_ s -> ~ in_range addr a end) s.
Proof.
  intros Ht Hs Hk Hlen [Hr Hlow Hhigh]. destruct fl as [first last]. simpl in *. unfold GetInfoFromCache_round.
  destruct (Z.ltb_spec first last) as [Hlt|Hge].
  - destruct (bisect first last) as (Hc & Hc1 & Hm1 & Hm2); [lia|lia|].
    assert (u64 (first + (last - first) / 2) = u64 (first + last) / 2) as ->.
    { rewrite !uwrap_small by (unfold in_unsigned; Z.to_euclidean_division_equations; lia).
      Z.to_euclidean_division_equations; lia. }
    set (current := u64 (first + last) / 2) in *. clearbody current. do 2 wp_step.
    destruct (symbols_ s !! Z.to_nat current) as [a|] eqn:Ea; [|apply lookup_ge_None in Ea; unfold lengthZ in *; lia].
    destruct (Z.ltb_spec addr (start_offset a)); [|destruct (Z.ltb_spec addr (end_offset a))]; wp_step; (split; [done|]).
    + split; [split; simpl|done]; [lia|done|]. intros i b Hi Hb.
      destruct (decide (Z.to_nat current = i)) as [<-|]; [congruence|].
      pose proof (cache_lookup k s (Z.to_nat current) i a b Ht Hs Hk ltac:(lia) Ea Hb). lia.
    + split; [by eapply list_elem_of_lookup_2|by split].
    + rewrite Hc1. split; [split; simpl|done]; [lia| |done]. intros i b Hi Hb.
      destruct (decide (i = Z.to_nat current)) as [->|]; [congruence|].
      pose proof (cache_lookup k s i (Z.to_nat current) b a Ht Hs Hk ltac:(lia) Hb Ea). lia.
  - wp_step. split; [done|]. intros a [i Hi]%list_elem_of_lookup [Hs1 He].
    destruct (decide (Z.of_nat i < first)); [pose proof (Hlow i a ltac:(lia) Hi)|pose proof (Hhigh i a ltac:(lia) Hi)]; lia.
Qed.

Lemma GetInfoFromCache_spec addr k s : table_at s -> cache_sorted s -> scanned k s -> lengthZ (symbols_ s) < 2 ^ 63 ->
  exists r, GetInfoFromCache addr s = Ok (r, s) /\
  match r with
  | Some a => a ∈ symbols_ s /\ in_range addr a
  | None => forall a, a ∈ symbols_ s -> ~ in_range addr a
  end.
Proof.
  intros Ht Hs Hk Hlen. unfold GetInfoFromCache, bind at 1, get.
  destruct (wp_total (iter 65 (GetInfoFromCache_round addr) (0, lengthZ (symbols_ s))) (fun r s' => s' = s /\ match r with
    | Some a => a ∈ symbols_ s /\ in_range addr a
    | None => forall a, a ∈ symbols_ s -> ~ in_range addr a end) s) as (r & s' & E & -> & H); [|by exists r].
  apply (wp_iter nothing (GetInfoFromCache_round addr) (fun fl s' => s' = s /\ narrowing addr s fl)
           (fun fl _ => halvings (fl.2 - fl.1))).
  - intros fl s' [-> Hn]. eapply wp_mono; [by apply (wp_GetInfoFromCache_round addr k)|].
    intros [fl'|[a|]] s' [-> H]; [|done..]. by destruct H.
  - split; [done|]. split; simpl; [unfold lengthZ; lia|lia|].
    intros i a Hi Ha%lookup_lt_Some. unfold lengthZ in *. lia.
  - simpl. pose proof (halvings_bound (lengthZ (symbols_ s) - 0) ltac:(lia)). lia.
Qed.

(** The right answer for an address: the function whose range contains it. *)
Definition answers (addr : Z) s (r : name_result) : Prop :=
  (forall a, a ∈ functions s entries -> in_range addr a ->
     r = mkName true (Some (names a)) (Some (addr - start_offset a))) /\
  ((forall a, a ∈ functions s entries -> ~ in_range addr a) -> r = mkName false None None).

Lemma answers_found addr s a : table_at s -> a ∈ functions s entries -> in_range addr a ->
  answers addr s (mkName true (Some (names a)) (Some (u64 (addr - start_offset a)))).
Proof.
  intros Ht Ha Hin. pose proof (at_ranges s Ht a Ha). unfold in_range in Hin.
  rewrite uwrap_small by (unfold in_unsigned; lia). split; [|intros Hn; by destruct (Hn a Ha)].
  intros b Hb Hinb. unfold in_range in Hinb. destruct (decide (a = b)) as [->|Hne]; [done|].
  destruct (at_apart s Ht a b Ha Hb Hne); lia.
Qed.

Lemma functions_snoc s k e : entries !! k = Some e ->
  functions s (take (S k) entries) = functions s (take k entries) ++ (if is_function e then [info_of load_bias (str_offset_ s) e] else []).
Proof.
  intros He. rewrite (take_S_r _ _ e He). unfold functions. rewrite filter_app, map_app. f_equal.
  rewrite filter_cons, filter_nil. by destruct (is_function e).
Qed.

(** The state of the loop over the table. *)
Record scanning (addr : Z) s (added : bool) (k : nat) s' : Prop := {
  scanning_same : same_table s s';
  scanning_at : scanned k s';
  scanning_none a : a ∈ functions s (take k entries) -> ~ in_range addr a;
  scanning_added : added = false -> symbols_ s' = symbols_ s
}.

(** The loop's result. *)
Definition scan_post (addr : Z) s (r : option (bool * name_result)) s' : Prop :=
  exists added result k, r = Some (added, result) /\ same_table s s' /\ scanned k s' /\
    (added = false -> symbols_ s' = symbols_ s) /\ answers addr s result.

Lemma read_name_found a fo s : table_at s -> a ∈ functions s entries ->
  read_name mem fuel (info_str_offset a) fo s = Ok (mkName true (Some (names a)) (Some fo), s).
Proof. intros Ht Ha. unfold read_name. by rewrite (proj2 (at_names s Ht a Ha)). Qed.

Lemma same_table_trans s1 s2 s3 : same_table s1 s2 -> same_table s2 s3 -> same_table s1 s3.
Proof. unfold same_table. intros E1 E2. rewrite E2 at 1. by rewrite E1. Qed.

(** The next entry. *)
Lemma scanning_next addr s added k s' e : table_at s -> scanning addr s added k s' -> entries !! k = Some e ->
  let s1 := set_sym_cur_offset (u64 (sym_cur_offset_ s' + entry_size_ s')) s' in
  let s2 := set_symbols (symbols_ s1 ++ [info_of load_bias (str_offset_ s) e]) s1 in
  scanned (S k) (if is_function e then s2 else s1) /\ same_table s s1 /\ same_table s s2.
Proof.
  intros Ht [Hsame [Hle Hcur Hsym] Hno Hadd] He s1 s2.
  assert (same_table s s1) as Hs1 by (eapply same_table_trans; [exact Hsame|by destruct s']).
  assert (same_table s s2) as Hs2 by (eapply same_table_trans; [exact Hs1|by destruct s']).
  split; [|done]. pose proof (lookup_lt_Some _ _ _ He) as Hlt.
  destruct (table_at_same s s' Ht Hsame) as [[Hes Hoff] (Hend1 & Hend2 & Hend3) _ _ _ _ _].
  assert (sym_cur_offset_ s1 = sym_offset_ s' + Z.of_nat (S k) * entry_size_ s') as Hcur1.
  { unfold s1. simpl. rewrite Hcur, uwrap_small; unfold in_unsigned, lengthZ in *; nia. }
  assert (functions s' = functions s) as Hfs by (rewrite Hsame; done).
  assert (str_offset_ s = str_offset_ s') as Estr by (rewrite Hsame; done).
  pose proof (functions_snoc s' k e He) as Hsnoc.
  destruct (is_function e) eqn:Ef; (split; [lia|done|]); simpl.
  - change (functions s2) with (functions s'). rewrite Hsnoc, Hsym, Estr. done.
  - change (functions s1) with (functions s'). rewrite Hsnoc, app_nil_r. done.
Qed.

Lemma wp_GetName_round addr s added k s' : table_at s -> scanning addr s added k s' ->
  wp nothing (GetName_round T mem fuel addr load_bias added) (fun r s'' => match r with
    | inl added' => scanning addr s added' (S k) s'' /\ (k < length entries)%nat
    | inr r => scan_post addr s r s'' end) s'.
Proof.
  intros Ht Hsc. pose proof Hsc as [Hsame [Hle Hcur Hsym] Hno Hadd].
  pose proof (table_at_same s s' Ht Hsame) as Ht'. pose proof Ht' as [[Hes Hoff] (Hend1 & Hend2 & Hend3) Hent _ _ _ _].
  assert (functions s' = functions s) as Hfs by (rewrite Hsame; done).
  unfold GetName_round. wp_step. wp_step. cbn [id].
  rewrite uwrap_small by (unfold in_unsigned, lengthZ in *; nia).
  destruct (Z.leb_spec (sym_cur_offset_ s' + entry_size_ s') (sym_end_ s')) as [Hin|Hout].
  - assert (k < length entries)%nat as Hk by (unfold lengthZ in *; nia).
    destruct (lookup_lt_is_Some_2 entries k Hk) as [e He].
    destruct (Hent k e He) as (bs & Hread & Hbs). rewrite <- Hcur in Hread. rewrite Hread, Hbs. wp_step. wp_step.
    destruct (scanning_next addr s added k s' e Ht Hsc He) as (Hnext & Hs1 & Hs2).
    assert (str_offset_ s = str_offset_ s') as Estr by (rewrite Hsame; done).
    set (s1 := set_sym_cur_offset _ s') in *. destruct (is_function e) eqn:Ef.
    + set (a := info_of load_bias (str_offset_ s') e) in *. rewrite Estr in Hnext, Hs2. fold a in Hnext, Hs2.
      wp_step. wp_step. set (s2 := set_symbols (symbols_ s1 ++ [a]) s1) in *.
      assert (a ∈ functions s (take (S k) entries)) as Ha.
      { rewrite (functions_snoc s k e He), Ef. apply elem_of_app. right. rewrite Estr. by left. }
      pose proof (functions_take s _ _ Ha) as Ha'.
      destruct ((start_offset a <=? addr) && (addr <? end_offset a)) eqn:Hcov.
      * assert (in_range addr a) as Hr by (unfold in_range; lia).
        destruct (at_names s Ht a Ha') as [Hstr _]. rewrite (proj2 (Z.ltb_lt _ _)) by (by rewrite Hsame).
        wp_step. unfold wp at 1. rewrite read_name_found; [|by eapply table_at_same|change (a ∈ functions s' entries); by rewrite Hfs].
        wp_step. eexists true, _, (S k). split_and!; [done..|]. by apply answers_found.
      * wp_step. split; [|done]. split; [done|done| |done]. intros b Hb.
        rewrite (functions_snoc s k e He), Ef in Hb. apply elem_of_app in Hb as [Hb|Hb]; [by apply Hno|].
        rewrite Estr in Hb. apply list_elem_of_singleton in Hb as ->. unfold in_range. fold a. lia.
    + wp_step. split; [|done]. split; [done|done| |done]. intros b Hb.
      rewrite (functions_snoc s k e He), Ef, app_nil_r in Hb. by apply Hno.
  - wp_step. eexists added, _, k. split_and!; [done..|]. split; [|done].
    assert (k = length entries) as -> by (unfold lengthZ in *; nia). rewrite take_ge in Hno by lia.
    intros a Ha Hr. by destruct (Hno a Ha).
Qed.

Lemma GetName_scan_spec addr k s : table_at s -> cache_sorted s -> scanned k s -> (length entries < fuel)%nat ->
  (forall a, a ∈ functions s (take k entries) -> ~ in_range addr a) ->
  exists r s', GetName_scan T mem sort fuel addr load_bias s = Ok (r, s') /\ answers addr s r /\ same_table s s' /\ symbols_ok s'.
Proof.
  intros Ht Hs Hk Hfuel Hno.
  destruct (wp_total (iter fuel (GetName_round T mem fuel addr load_bias) false) (scan_post addr s) s)
    as (r & s' & E & (added & result & j & -> & Hsame & Hj & Hadd & Hans)).
  { set (mu := fun (_ : bool) s' => (length entries - Z.to_nat ((sym_cur_offset_ s' - sym_offset_ s') / entry_size_ s'))%nat).
    assert (forall j s', scanned j s' -> table_at s' -> forall b, mu b s' = (length entries - j)%nat) as Hmu.
    { intros j s' [_ Hcur _] Ht' b. unfold mu. rewrite Hcur, Z.add_simpl_l, Z.div_mul by (pose proof (at_size _ Ht'); lia). lia. }
    apply (wp_iter nothing _ (fun added s' => exists j, scanning addr s added j s') mu).
    - intros added s' [j Hsc]. eapply wp_mono; [by eapply wp_GetName_round|].
      intros [added'|r] s'' H; [|done]. destruct H as [Hsc' Hj]. split; [by eexists|].
      rewrite (Hmu (S j) s''), (Hmu j s'); [lia|apply Hsc|eapply table_at_same; [done|apply Hsc]|apply Hsc'|].
      eapply table_at_same; [done|apply Hsc'].
    - exists k. split; [by destruct s|done|done|done].
    - rewrite (Hmu k s); [lia|done|done]. }
  unfold GetName_scan, bind at 1. rewrite E.
  pose proof (table_at_same s s' Ht Hsame) as Ht'. destruct added; unfold bind, modify, ret.
  - eexists _, _. split; [reflexivity|]. split_and!; [done|by rewrite Hsame|..].
    split_and!; [|apply sort_sorted|].
    + eapply table_at_same; [exact Ht'|by destruct s'].
    + exists j. destruct Hj as [H1 H2 H3]. split; simpl; [done|done|]. etrans; [apply sort_perm|exact H3].
  - exists result, s'. split; [done|]. split; [done|]. split; [done|]. split; [done|]. split; [|by exists j].
    unfold cache_sorted. by rewrite Hadd.
Qed.

End Spec.


(** A table of two functions at 0x1000 and 0x2000, behind their names. *)
Definition sym64_bytes (name info shndx value size : Z) : list Z :=
  le_split 4 name ++ [info; 0] ++ le_split 2 shndx ++ le_split 8 value ++ le_split 8 size.

Definition sample_names : list Z := [102; 0; 103; 0; 0; 0; 0; 0].

Definition sample_symbols : Memory :=
  bytes_memory (sample_names ++ sym64_bytes 0 2 1 0x2000 0x10 ++ sym64_bytes 2 2 1 0x1000 0x20).

Definition by_start (a b : Info) : Prop := start_offset a <= start_offset b.

#[global] Instance by_start_dec : RelDecision by_start.
Proof. intros a b. unfold by_start. apply _. Defined.

#[global] Instance by_start_total : Total by_start.
Proof. intros a b. unfold by_start. lia. Qed.

#[global] Instance by_start_trans : Transitive by_start.
Proof. intros a b c. unfold by_start. lia. Qed.


(** What a lookup finds in the cache is not checked as it was when it was
    read.  The name of the only function starts behind the string table: the
    first lookup fails for that reason, the second, from the cache, reads the
    string anyway, with a length that has wrapped around.  And when a table
    ends in the middle of an entry the functions read up to there stay in the
    cache unsorted: of two functions, both read, the first is not found. *)
Theorem GetName_cache_unchecked :
  let sort := merge_sort by_start in
  let outside := bytes_memory (sample_names ++ sym64_bytes 5 2 1 0x1000 0x20) in
  let truncated := bytes_memory (sample_names ++ sym64_bytes 0 2 1 0x2000 0x10 ++ sym64_bytes 2 2 1 0x1000 0x20) in
  let ask mem s addr := outcome_map fst (GetName Elf64_Sym mem sort 50 addr 0 s) in
  let after mem s addr := match GetName Elf64_Sym mem sort 50 addr 0 s with Ok (_, s) => s | _ => s end in
  let s1 := new_Symbols 8 24 24 0 4 in
  let s2 := new_Symbols 8 72 24 0 4 in
  ask outside s1 0x1004 = Ok (mkName false None (Some 4)) /\
  ask outside (after outside s1 0x1004) 0x1004 = Ok (mkName true (Some []) (Some 4)) /\
  ask truncated (after truncated s2 0x500) 0x2004 = Ok (mkName false None None) /\
  ask truncated s2 0x2004 = Ok (mkName true (Some [102]) (Some 4)).
Proof. by vm_compute. Qed.
