(* ===== verification/Maps.v ===== *)
(** * Maps: the memory maps of a process
    (libunwindstack/Maps.cpp, Maps.h, MapInfo.h)

    The parsers of the three sources of maps, /proc/<pid>/maps read through a
    buffer, a string, and the binary format of offline unwinding, and the search
    for the map of a pc.  A C string is the list of its characters without the
    NUL.  [E] is the type of the ELF objects a map may have. *)

From stdpp Require Import sorting.
From S2P Require Import Prelude CLib Memory.

Definition PROT_READ : Z := 1.
Definition PROT_WRITE : Z := 2.
Definition PROT_EXEC : Z := 4.
Definition MAPS_FLAGS_DEVICE_MAP : Z := 0x8000.

Record MapInfo (E : Type) := mkMapInfo {
  map_start : Z;
  map_end : Z;
  map_offset : Z;
  map_flags : Z;
  map_name : list Z;
  map_elf : option E;
  map_elf_offset : Z
}.
Arguments mkMapInfo {E} _ _ _ _ _ _ _.
Arguments map_start {E} _.
Arguments map_end {E} _.
Arguments map_offset {E} _.
Arguments map_flags {E} _.
Arguments map_name {E} _.
Arguments map_elf {E} _.
Arguments map_elf_offset {E} _.

(** A map as the parsers build it.  [elf_offset] is indeterminate until the ELF
    object is created. *)
Definition new_MapInfo {E} (start end_ offset flags : Z) (name : list Z) : MapInfo E :=
  mkMapInfo start end_ offset flags name None 0.

(** ** InternalParseLine *)

(** [old_str = str; strtoul(old_str, &str, base)], failing when nothing was
    converted. *)
Definition parse_number (base : Z) (l : list Z) : option (Z * list Z) :=
  let '(v, rest) := strtoul l base in
  if (length rest =? length l)%nat then None else Some (v, rest).

(** The next character, which has to satisfy the predicate, and the rest. *)
Definition expect (p : Z -> bool) (l : list Z) : option (list Z) :=
  match l with
  | c :: l' => if p c then Some l' else None
  | [] => None
  end.

(** One permission: [yes] sets the flag, '-' does not, anything else fails. *)
Definition parse_flag (yes flag : Z) (l : list Z) : option (Z * list Z) :=
  match l with
  | c :: l' => if c =? yes then Some (flag, l') else if c =? 45 then Some (0, l') else None
  | [] => None
  end.

(** "/dev/" and "ashmem/" *)
Definition dev_prefix : list Z := [47; 100; 101; 118; 47].
Definition ashmem_prefix : list Z := [97; 115; 104; 109; 101; 109; 47].

Definition is_device (name : list Z) : bool :=
  bool_decide (take 5 name = dev_prefix) && negb (bool_decide (take 7 (drop 5 name) = ashmem_prefix)).

Definition InternalParseLine {E} (line : list Z) : option (MapInfo E) :=
  '(start, str) ← parse_number 16 line;
  str ← expect (Z.eqb 45) str;
  '(end_, str) ← parse_number 16 str;
  str ← expect isspace str;
  let str := skip_spaces str in
  '(r, str) ← parse_flag 114 PROT_READ str;
  '(w, str) ← parse_flag 119 PROT_WRITE str;
  '(x, str) ← parse_flag 120 PROT_EXEC str;
  str ← expect (fun c => (c =? 112) || (c =? 115)) str;
  str ← expect isspace str;
  '(offset, str) ← parse_number 16 str;
  _ ← expect isspace str;
  '(_, str) ← parse_number 16 str;
  str ← expect (Z.eqb 58) str;
  if match str with c :: _ => isspace c | [] => false end then None
  else
    '(_, str) ← parse_number 16 str;
    str ← expect isspace str;
    '(_, str) ← parse_number 10 str;
    if match str with c :: _ => negb (isspace c) | [] => false end then None
    else
      let name := skip_spaces str in
      let flags := Z.lor (Z.lor r w) x in
      Some (new_MapInfo start end_ offset (if is_device name then Z.lor flags MAPS_FLAGS_DEVICE_MAP else flags) name).

(** ** Find, Get and Total *)

Section Find.
Context {E : Type} (maps_ : list (MapInfo E)).

(** A map is returned by its index. *)
Definition Find_round (pc : Z) (l : Z * Z) : M unit (Z * Z + option nat) :=
  let '(first, last) := l in
  if first <? last then
    let index := u64 (first + last) / 2 in
    match maps_ !! Z.to_nat index with
    | None => undef
    | Some cur =>
        if (map_start cur <=? pc) && (pc <? map_end cur) then ret (inr (Some (Z.to_nat index)))
        else if pc <? map_start cur then ret (inl (first, index))
        else ret (inl (u64 (index + 1), last))
    end
  else ret (inr None).

(** Fewer than 2^63 maps are halved at most 64 times. *)
Definition Find (pc : Z) : outcome (option nat) :=
  if bool_decide (maps_ = []) then Ok None
  else outcome_map fst (iter 65 (Find_round pc) (0, lengthZ maps_) tt).

Definition Total : Z := lengthZ maps_.

Definition Get (index : Z) : option (MapInfo E) :=
  if Total <=? index then None else maps_ !! Z.to_nat index.

End Find.

(** ** Maps::Parse *)

(** The objects the loops work on: the list of maps, the array [buffer] and
    what is left of the file. *)
Record Parser (E : Type) := mkParser {
  parser_maps_ : list (MapInfo E);
  buffer : list Z;
  file_rest : list Z
}.
Arguments mkParser {E} _ _ _.
Arguments parser_maps_ {E} _.
Arguments buffer {E} _.
Arguments file_rest {E} _.

Definition newline_char : Z := 10.

(** memmove or read into the array at [at_]. *)
Definition store (at_ : Z) (bs : list Z) (buf : list Z) : list Z :=
  take (Z.to_nat at_) buf ++ bs ++ drop (Z.to_nat at_ + length bs) buf.

(** The string at the front of a list: the characters in front of the NUL. *)
Fixpoint c_string (l : list Z) : list Z :=
  match l with
  | c :: l' => if c =? 0 then [] else c :: c_string l'
  | [] => []
  end.

(** memchr: the distance to the first [c]. *)
Fixpoint memchr (c : Z) (l : list Z) : option Z :=
  match l with
  | x :: l' => if x =? c then Some 0 else Z.succ <$> memchr c l'
  | [] => None
  end.

Section Parse.
Context {E : Type}.
(** [read] with room for so many bytes, at a file with this rest: how many bytes
    it returns, [None] for -1. *)
Context (read_count : Z -> list Z -> option Z).

Definition set_buffer (b : list Z) (p : Parser E) : Parser E := mkParser (parser_maps_ p) b (file_rest p).
Definition push_map (m : MapInfo E) (p : Parser E) : Parser E :=
  mkParser (parser_maps_ p ++ [m]) (buffer p) (file_rest p).

(** The loop over the lines of the buffer.  [line] is an index; the result is
    what [bytes] is left at and whether no line failed. *)
Definition Parse_line_round (l : Z * Z) : M (Parser E) (Z * Z + Z * bool) :=
  let '(line, bytes) := l in
  if 0 <? bytes then
    buf <- get buffer ;;
    match memchr newline_char (slice buf line bytes) with
    | None => modify (set_buffer (store 0 (slice buf line bytes) buf)) ;; ret (inr (bytes, true))
    | Some distance =>
        let newline := line + distance in
        let buf := store newline [0] buf in
        modify (set_buffer buf) ;;
        match InternalParseLine (c_string (drop (Z.to_nat line) buf)) with
        | None => ret (inr (bytes, false))
        | Some map_info =>
            modify (push_map map_info) ;;
            ret (inl (newline + 1, bytes - (newline - line + 1)))
        end
    end
  else ret (inr (bytes, true)).

(** [read] into the buffer at [leftover]. *)
Definition read_buffer (leftover : Z) : M (Parser E) (option Z) :=
  p <- get id ;;
  match read_count (2048 - leftover) (file_rest p) with
  | None => ret None
  | Some bytes =>
      modify (fun p => mkParser (parser_maps_ p)
                         (store leftover (take (Z.to_nat bytes) (file_rest p)) (buffer p))
                         (drop (Z.to_nat bytes) (file_rest p))) ;;
      ret (Some bytes)
  end.

(** One round of the loop over the reads, with [leftover] and [return_value]. *)
Definition Parse_round (l : Z * bool) : M (Parser E) (Z * bool + bool) :=
  let '(leftover, return_value) := l in
  read <- read_buffer leftover ;;
  match read with
  | None => ret (inr false)
  | Some bytes =>
      if bytes =? 0 then ret (inr return_value)
      else
        lines <- iter 2050 Parse_line_round (0, bytes + leftover) ;;
        ret (inl (fst lines, return_value && snd lines))
  end.

(** [file] is the content of the maps file, [None] when it cannot be opened.  A
    line of the buffer has at least one character and there are 2048; every read
    but the last returns a byte of the file.  [garbage] is what is in the array
    in the beginning. *)
Definition Parse (file : option (list Z)) (garbage : list Z) (maps_ : list (MapInfo E)) :
    outcome (bool * list (MapInfo E)) :=
  match file with
  | None => Ok (false, maps_)
  | Some content =>
      outcome_map (fun '(r, p) => (r, parser_maps_ p))
        (iter (length content + 2) Parse_round (0, true) (mkParser maps_ garbage content))
  end.

End Parse.

(** ** BufferMaps::Parse *)

Definition BufferMaps_round {E} (start_of_line : list Z) : M (list (MapInfo E)) (list Z + bool) :=
  let '(line, end_of_line) :=
    match memchr newline_char start_of_line with
    | None => (start_of_line, None)
    | Some d => (take (Z.to_nat d) start_of_line, Some (drop (Z.to_nat d + 1) start_of_line))
    end in
  match InternalParseLine line with
  | None => ret (inr false)
  | Some map_info =>
      modify (fun maps => maps ++ [map_info]) ;;
      match end_of_line with
      | None | Some [] => ret (inr true)
      | Some l => ret (inl l)
      end
  end.

(** [buffer_] is a C string; every round but the last consumes a line. *)
Definition BufferMaps_Parse {E} (buffer_ : list Z) : M (list (MapInfo E)) bool :=
  iter (S (length buffer_)) BufferMaps_round buffer_.

(** ** OfflineMaps::Parse *)

(** The maps so far and the rest of the file. *)
Definition Offline (E : Type) : Type := list (MapInfo E) * list Z.

Section Offline.
Context {E : Type} (read_count : Z -> list Z -> option Z).

(** [TEMP_FAILURE_RETRY(read(fd, p, size))]: -1 or the bytes. *)
Definition read_bytes (size : Z) : M (Offline E) (option (list Z)) :=
  rest <- get snd ;;
  match read_count size rest with
  | None => ret None
  | Some n => modify (fun s => (fst s, drop (Z.to_nat n) (snd s))) ;; ret (Some (take (Z.to_nat n) rest))
  end.

(** A read that has to return [size] bytes. *)
Definition read_exactly (size : Z) : M (Offline E) (option (list Z)) :=
  bytes <- read_bytes size ;;
  ret (match bytes with
       | Some bs => if lengthZ bs =? size then Some bs else None
       | None => None
       end).

(** [inl tt] goes on with the next map. *)
Definition OfflineMaps_round (_ : unit) : M (Offline E) (unit + bool) :=
  bytes <- read_bytes 8 ;;
  match bytes with
  | None => ret (inr false)
  | Some start =>
      if lengthZ start =? 0 then ret (inr true)
      else if negb (lengthZ start =? 8) then ret (inr false)
      else
        let? end_ := read_exactly 8 else ret (inr false) in
        let? offset := read_exactly 8 else ret (inr false) in
        let? flags := read_exactly 2 else ret (inr false) in
        let? len := read_exactly 2 else ret (inr false) in
        let? name := (if 0 <? le_combine len then read_exactly (le_combine len) else ret (Some []))
          else ret (inr false) in
        modify (fun s =>
          (fst s ++ [new_MapInfo (le_combine start) (le_combine end_) (le_combine offset) (le_combine flags) name],
           snd s)) ;;
        ret (inl tt)
  end.

(** [file] as for [Parse]; every round but the last reads from the file. *)
Definition OfflineMaps_Parse (file : option (list Z)) (maps_ : list (MapInfo E)) :
    outcome (bool * list (MapInfo E)) :=
  match file with
  | None => Ok (false, maps_)
  | Some content =>
      outcome_map (fun '(r, s) => (r, fst s)) (iter (length content + 1) OfflineMaps_round tt (maps_, content))
  end.

End Offline.

(** ** The file of the maps of a process *)

(** "/proc/" and "/maps" around the pid. *)
Definition RemoteMaps_GetMapsFile (pid : Z) : list Z :=
  [47; 112; 114; 111; 99; 47] ++ to_string pid ++ [47; 109; 97; 112; 115].

(** ** The search finds the map *)

(** The maps are in order and do not overlap. *)
Definition maps_sorted {E} (maps : list (MapInfo E)) : Prop :=
  Forall (fun m => map_start m <= map_end m) maps /\
  forall i j a b, maps !! i = Some a -> maps !! j = Some b -> (i < j)%nat -> map_end a <= map_start b.

(** The maps below [first] end in front of [pc], those from [last] on start
    behind it. *)
Definition between {E} (maps : list (MapInfo E)) (pc first last : Z) : Prop :=
  0 <= first <= last /\ last <= lengthZ maps /\
  forall i m, maps !! i = Some m ->
    (Z.of_nat i < first -> map_end m <= pc) /\ (last <= Z.of_nat i -> pc < map_start m).

Lemma between_left {E} (maps : list (MapInfo E)) pc first last i m : maps_sorted maps -> between maps pc first last ->
  maps !! i = Some m -> first <= Z.of_nat i < last -> pc < map_start m -> between maps pc first (Z.of_nat i).
Proof.
  intros [Hse Hs] (H1 & H2 & Hb) Hm Hi Hpc. split_and!; try lia. intros j m' Hj. split; [by apply Hb|].
  intros Hij. destruct (decide (i = j)) as [->|]; [by simplify_eq|].
  pose proof (Hs i j m m' Hm Hj ltac:(lia)). pose proof (proj1 (Forall_lookup _ _) Hse i m Hm). simpl in *. lia.
Qed.

Lemma between_right {E} (maps : list (MapInfo E)) pc first last i m : maps_sorted maps -> between maps pc first last ->
  maps !! i = Some m -> first <= Z.of_nat i < last -> map_end m <= pc -> between maps pc (Z.of_nat i + 1) last.
Proof.
  intros [Hse Hs] (H1 & H2 & Hb) Hm Hi Hpc. split_and!; try lia. intros j m' Hj. split; [|by apply Hb].
  intros Hij. destruct (decide (i = j)) as [->|]; [by simplify_eq|].
  pose proof (Hs j i m' m Hj Hm ltac:(lia)). pose proof (proj1 (Forall_lookup _ _) Hse i m Hm). simpl in *. lia.
Qed.

(** C37: for maps in order, the bisection returns what a search from the front
    finds: the one map that contains the pc, or nothing when no map does.  It
    terminates and stays inside the vector. *)
Theorem Find_correct {E} (maps : list (MapInfo E)) pc :
  maps_sorted maps -> lengthZ maps < 2 ^ 63 ->
  Find maps pc = Ok (fst <$> list_find (fun m => map_start m <= pc < map_end m) maps).
Proof.
  intros Hs Hlen. unfold Find. case_bool_decide as He; [by subst|].
  set (Q (r : option nat) (_ : unit) := r = fst <$> list_find (fun m => map_start m <= pc < map_end m) maps).
  assert (wp nothing (iter 65 (Find_round maps pc) (0, lengthZ maps)) Q tt) as Hwp.
  { apply wp_iter with (I := fun l _ => between maps pc (fst l) (snd l))
                       (mu := fun l _ => halvings (snd l - fst l)).
    2: { split_and!; simpl; try lia; [apply lengthZ_nonneg|]. intros i m Hi. split; [lia|].
         apply lookup_lt_Some in Hi. unfold lengthZ. lia. }
    2: { simpl. pose proof (halvings_bound (lengthZ maps - 0) ltac:(lia)). lia. }
    intros [first last] [] Hb. simpl in *. pose proof Hb as (H1 & H2 & Hi). unfold Find_round.
    case_match; [|apply wp_ret; symmetry].
    - destruct (bisect first last ltac:(lia) ltac:(lia)) as (Hc & Hw & Hl & Hr).
      set (current := u64 (first + last) / 2) in *. unfold lengthZ in *.
      destruct (lookup_lt_is_Some_2 maps (Z.to_nat current) ltac:(lia)) as [m Hm]. rewrite Hm.
      assert (current = Z.of_nat (Z.to_nat current)) as Ec by lia.
      destruct (_ && _) eqn:Ein; [|destruct (pc <? map_start m) eqn:Elt]; apply wp_ret.
      + unfold Q. rewrite (proj2 (list_find_Some _ _ (Z.to_nat current) m)); [done|]. split; [done|split; [lia|]].
        intros j m' Hj Hlt. pose proof (proj2 Hs j _ m' m Hj Hm Hlt). lia.
      + split; [|done]. simpl. rewrite Ec. by apply (between_left maps pc first last _ m); try lia.
      + rewrite Hw. split; [|done]. simpl. rewrite Ec. by apply (between_right maps pc first last _ m); try lia.
    - rewrite (proj2 (list_find_None _ _)); [done|]. apply Forall_lookup. intros i m Hm.
      pose proof (Hi i m Hm). lia. }
  unfold wp in Hwp. destruct (iter _ _ _ _) as [[r []]| | |]; try done. by rewrite Hwp.
Qed.

Definition sample_maps : list (MapInfo unit) :=
  [new_MapInfo 0x1000 0x2000 0 5 []; new_MapInfo 0x2000 0x3000 0 1 []; new_MapInfo 0x5000 0x6000 0 3 []].

Lemma Find_correct_witness : Find sample_maps 0x2fff = Ok (Some 1%nat) /\ Find sample_maps 0x4000 = Ok None.
Proof.
  assert (maps_sorted sample_maps) as Hs.
  { split; [repeat constructor; simpl; lia|].
    intros [|[|[|i]]] [|[|[|j]]] a b Ha Hb Hij; simplify_eq/=; lia. }
  split.
  - rewrite (Find_correct sample_maps 0x2fff Hs ltac:(done)). by vm_compute.
  - rewrite (Find_correct sample_maps 0x4000 Hs ltac:(done)). by vm_compute.
Defined.

(** ** A line of /proc/<pid>/maps is read back *)

(** A number and the digits it is printed with. *)
Definition fits (base : Z) (f : nat * Z) : Prop := (0 < fst f)%nat /\ 0 <= snd f < base ^ Z.of_nat (fst f).

(** What may follow a number. *)
Definition ends_number (base : Z) (rest : list Z) : Prop :=
  match rest with
  | c :: _ => digit_of base c = None /\ c <> 120 /\ c <> 88
  | [] => True
  end.

Lemma skip_prefix_id base l : (forall x, l !! 1%nat = Some x -> x <> 120 /\ x <> 88) -> skip_prefix base l = l.
Proof.
  intros H. destruct l as [|z [|x [|c l]]]; simpl; try done. destruct (H x eq_refl).
  by rewrite (proj2 (Z.eqb_neq x 120)), (proj2 (Z.eqb_neq x 88)), andb_false_r by done.
Qed.

Lemma skip_spaces_app sp l : Forall (fun c => isspace c = true) sp -> skip_spaces (sp ++ l) = skip_spaces l.
Proof. induction 1 as [|c sp Hc _ IH]; simpl; [done|]. by rewrite Hc. Qed.

(** A printed number is read back, saturated at 64 bits. *)
Lemma parse_number_numeral base sp f rest : 10 <= base <= 16 -> Forall (fun c => isspace c = true) sp ->
  fits base f -> ends_number base rest ->
  parse_number base (sp ++ numeral base (fst f) (snd f) ++ rest) = Some (Z.min (snd f) UINT64_MAX, rest).
Proof.
  destruct f as [k n]. intros Hb Hsp [Hk Hn] Hr. simpl in *. unfold parse_number, strtoul.
  rewrite skip_spaces_app by done. pose proof (numeral_chars base k n Hb) as Hc.
  pose proof (digits_numeral base k rest Hb n 0 0 Hn) as Hd. pose proof (numeral_length base k n) as Hl.
  assert (forall x, (numeral base k n ++ rest) !! 1%nat = Some x -> x <> 120 /\ x <> 88) as Hx.
  { intros x. rewrite lookup_app_Some. intros [Hx|[Hlt Hx]].
    - apply (proj1 (Forall_lookup _ _) Hc) in Hx. lia.
    - destruct k as [|[|k]]; simpl in *; try lia. destruct rest; simplify_eq/=. tauto. }
  destruct (numeral base k n) as [|a l] eqn:En; [simpl in *; lia|].
  apply Forall_cons in Hc as [Ha Hc]. simpl app in *. cbn [skip_spaces].
  assert (isspace a = false) as -> by (unfold isspace; lia).
  rewrite sign_none by lia. rewrite skip_prefix_id, Hd by done.
  assert (digits base rest (0 * base ^ Z.of_nat k + n) (0 + k) = (n, k, rest)) as ->.
  { destruct rest as [|c rest']; simpl in *; [by rewrite ?Z.mul_0_l|]. destruct Hr as [-> _]. done. }
  rewrite (proj2 (Nat.eqb_neq k 0)) by lia. unfold UINT64_MAX.
  destruct (2 ^ 64 <=? n) eqn:Eo; rewrite (proj2 (Nat.eqb_neq _ _)) by (rewrite length_app; simpl; rewrite ?length_app; lia);
    do 2 f_equal; lia.
Qed.

Lemma parse_number_0 base f rest : 10 <= base <= 16 -> fits base f -> ends_number base rest ->
  parse_number base (numeral base (fst f) (snd f) ++ rest) = Some (Z.min (snd f) UINT64_MAX, rest).
Proof. intros. by apply (parse_number_numeral base []). Qed.

Lemma parse_number_1 base f rest : 10 <= base <= 16 -> fits base f -> ends_number base rest ->
  parse_number base (32 :: numeral base (fst f) (snd f) ++ rest) = Some (Z.min (snd f) UINT64_MAX, rest).
Proof. intros. apply (parse_number_numeral base [32]); [done|by repeat constructor|done..]. Qed.

(** The fields of a line; the numbers come with their widths. *)
Record maps_line := mkLine {
  line_start : nat * Z;
  line_end : nat * Z;
  line_r : bool;
  line_w : bool;
  line_x : bool;
  line_shared : bool;
  line_offset : nat * Z;
  line_major : nat * Z;
  line_minor : nat * Z;
  line_inode : nat * Z;
  line_pad : list Z;
  line_name : list Z
}.

Definition hex (f : nat * Z) : list Z := numeral 16 (fst f) (snd f).

(** start-end rwxp offset major:minor inode     name *)
Definition line_text (l : maps_line) : list Z :=
  hex (line_start l) ++ 45 :: hex (line_end l) ++ 32 ::
  (if line_r l then 114 else 45) :: (if line_w l then 119 else 45) :: (if line_x l then 120 else 45) ::
  (if line_shared l then 115 else 112) :: 32 :: hex (line_offset l) ++ 32 ::
  hex (line_major l) ++ 58 :: hex (line_minor l) ++ 32 ::
  numeral 10 (fst (line_inode l)) (snd (line_inode l)) ++ line_pad l ++ line_name l.

Definition line_flags (l : maps_line) : Z :=
  (if line_r l then PROT_READ else 0) + (if line_w l then PROT_WRITE else 0) + (if line_x l then PROT_EXEC else 0) +
  (if is_device (line_name l) then MAPS_FLAGS_DEVICE_MAP else 0).

(** The addresses have 64 bits, the name does not start with a space and is
    separated from the inode. *)
Definition line_ok (l : maps_line) : Prop :=
  Forall (fun f => fits 16 f) [line_start l; line_end l; line_offset l; line_major l; line_minor l] /\
  fits 10 (line_inode l) /\
  Forall (fun f => snd f < 2 ^ 64) [line_start l; line_end l; line_offset l] /\
  Forall (fun c => isspace c = true) (line_pad l) /\
  match line_name l with c :: _ => isspace c = false /\ line_pad l <> [] | [] => True end.

Lemma parse_flag_bool (b : bool) yes flag l : yes <> 45 ->
  parse_flag yes flag ((if b then yes else 45) :: l) = Some (if b then flag else 0, l).
Proof.
  intros H. unfold parse_flag. destruct b; [by rewrite Z.eqb_refl|].
  by rewrite (proj2 (Z.eqb_neq 45 yes)) by done.
Qed.

Lemma hex_not_space f l : fits 16 f -> match hex f ++ l with c :: _ => isspace c | [] => false end = false.
Proof.
  intros [Hk _]. unfold hex. pose proof (numeral_chars 16 (fst f) (snd f) ltac:(lia)) as Hc.
  pose proof (numeral_length 16 (fst f) (snd f)). destruct (numeral _ _ _) as [|c t]; simpl in *; [lia|].
  apply Forall_cons in Hc as [Hc _]. unfold isspace. lia.
Qed.

Lemma isspace_ends c l : isspace c = true -> ends_number 10 (c :: l).
Proof. unfold isspace. intros H. simpl. unfold digit_of, digit_value. split_cases. split; [done|lia]. Qed.

(** What follows the inode. *)
Lemma line_rest pad name : Forall (fun c => isspace c = true) pad ->
  match name with c :: _ => isspace c = false /\ pad <> [] | [] => True end ->
  ends_number 10 (pad ++ name) /\
  match pad ++ name with c :: _ => negb (isspace c) | [] => false end = false /\
  skip_spaces (pad ++ name) = name.
Proof.
  intros Hpad Hname. rewrite skip_spaces_app by done. split_and!.
  - destruct Hpad; [|by apply isspace_ends]. destruct name; [done|]. by destruct Hname.
  - destruct Hpad as [|c pad' Hc]; simpl; [|by rewrite Hc]. destruct name; [done|]. by destruct Hname.
  - destruct name; simpl; [done|]. by destruct Hname as [-> _].
Qed.

#[local] Arguments parse_flag : simpl never.
#[local] Arguments parse_number : simpl never.

(** A line as the kernel prints it, with any widths of the numbers and any
    padding, is parsed to the map it describes; the flag of device maps is set
    exactly for the names below /dev/ that are not below /dev/ashmem/. *)
Theorem InternalParseLine_roundtrip {E} l : line_ok l ->
  InternalParseLine (E := E) (line_text l) =
  Some (new_MapInfo (snd (line_start l)) (snd (line_end l)) (snd (line_offset l)) (line_flags l) (line_name l)).
Proof.
  destruct l as [st en r w x sh off maj min ino pad name]. unfold line_ok, line_text, line_flags. simpl.
  intros (Hf & Hino & Hr & Hpad & Hname). repeat (apply Forall_cons in Hf as [? Hf]). repeat (apply Forall_cons in Hr as [? Hr]).
  unfold InternalParseLine. unfold hex at 1 2 3 4.
  rewrite parse_number_0 by (done || by repeat split). simpl.
  rewrite parse_number_0 by (done || by repeat split). simpl.
  assert (isspace (if r then 114 else 45) = false) as -> by (by destruct r).
  rewrite parse_flag_bool by done. simpl. rewrite parse_flag_bool by done. simpl. rewrite parse_flag_bool by done. simpl.
  assert (forall c : bool, ((if c then 115 else 112) =? 112) || ((if c then 115 else 112) =? 115) = true) as -> by (by intros []).
  simpl. rewrite parse_number_0 by (done || by repeat split). simpl.
  rewrite parse_number_1 by (done || by repeat split). simpl.
  rewrite hex_not_space by done. unfold hex. rewrite parse_number_0 by (done || by repeat split). simpl.
  destruct (line_rest pad name Hpad Hname) as (He & Hs & Hn).
  rewrite parse_number_0 by done. simpl. rewrite Hs, Hn. unfold UINT64_MAX. rewrite !Z.min_l by lia.
  do 2 f_equal. by destruct r, w, x, (is_device name).
Qed.

(** The example of the source. *)
Definition sample_line : maps_line :=
  mkLine (8%nat, 0x6f000000) (8%nat, 0x6f01e000) true true true false (8%nat, 0) (2%nat, 0) (2%nat, 12) (8%nat, 16389419)
    [32; 32; 32] [47; 100; 101; 118; 47; 120].

Lemma InternalParseLine_roundtrip_witness :
  InternalParseLine (E := unit) (line_text sample_line) =
  Some (new_MapInfo 0x6f000000 0x6f01e000 0 0x8007 [47; 100; 101; 118; 47; 120]).
Proof.
  rewrite (InternalParseLine_roundtrip sample_line); [done|].
  repeat split; repeat constructor; simpl; try lia; done.
Defined.
