(* ===== verification/MapsSpec.v ===== *)
(** * MapsSpec: the readers of maps against the lines and records of a file

    [Maps::Parse] reads through a buffer in pieces whose sizes the kernel
    chooses; the theorems say that the result only depends on the lines. *)

From S2P Require Import Prelude Memory Maps.

(** Arithmetic on the lengths of lists. *)
Ltac lengths := unfold lengthZ in *; repeat (rewrite ?length_app, ?length_take, ?length_drop in *; simpl length in * ); lia.

(** ** Lines *)

(** The text of the lines, each with its newline. *)
Definition joined (lines : list (list Z)) : list Z := concat (map (fun l => l ++ [newline_char]) lines).

(** The maps of the lines up to the first one that is malformed, and whether all
    are well formed. *)
Fixpoint parse_lines {E} (lines : list (list Z)) : list (MapInfo E) * bool :=
  match lines with
  | [] => ([], true)
  | l :: lines' =>
      match InternalParseLine l with
      | None => ([], false)
      | Some m => (m :: fst (parse_lines lines'), snd (parse_lines (E := E) lines'))
      end
  end.

Lemma joined_cons l ls tail : joined (l :: ls) ++ tail = l ++ newline_char :: (joined ls ++ tail).
Proof. unfold joined. simpl. by rewrite <- !app_assoc. Qed.

(** A line without newlines and NULs that fits into the buffer. *)
Definition plain (l : list Z) : Prop := (newline_char ∉ l) /\ (0 ∉ l) /\ lengthZ l < 2048.

(** What POSIX says of [read]: it returns some bytes, and none only at the end of
    the file or when there is no room. *)
Definition reads_file (read_count : Z -> list Z -> option Z) : Prop :=
  forall room rest, 0 <= room ->
    exists n, read_count room rest = Some n /\ 0 <= n <= room /\ n <= lengthZ rest /\
              (n = 0 -> room = 0 \/ rest = []).

Lemma memchr_app c l rest : c ∉ l -> memchr c (l ++ c :: rest) = Some (lengthZ l).
Proof.
  induction l as [|x l IH]; intros H; simpl; [by rewrite Z.eqb_refl|].
  apply not_elem_of_cons in H as [Hx Hl]. rewrite (proj2 (Z.eqb_neq x c)) by congruence.
  rewrite IH by done. unfold lengthZ. simpl. f_equal. lia.
Qed.

Lemma memchr_None c l : c ∉ l -> memchr c l = None.
Proof.
  induction l as [|x l IH]; intros H; simpl; [done|].
  apply not_elem_of_cons in H as [Hx Hl]. rewrite (proj2 (Z.eqb_neq x c)) by congruence. by rewrite IH.
Qed.

Lemma memchr_Some c l d : memchr c l = Some d -> 0 <= d < lengthZ l.
Proof.
  revert d. induction l as [|x l IH]; intros d H; simpl in *; [done|]. unfold lengthZ in *. simpl.
  destruct (x =? c); simplify_eq; [lia|]. apply fmap_Some in H as (d' & Hd & ->). apply IH in Hd. lia.
Qed.

Lemma c_string_app l rest : 0 ∉ l -> c_string (l ++ 0 :: rest) = l.
Proof.
  induction l as [|x l IH]; intros H; simpl; [done|].
  apply not_elem_of_cons in H as [Hx Hl]. rewrite (proj2 (Z.eqb_neq x 0)) by congruence. by rewrite IH.
Qed.

Lemma store_length at_ bs buf : 0 <= at_ -> at_ + lengthZ bs <= lengthZ buf -> lengthZ (store at_ bs buf) = lengthZ buf.
Proof. intros H1 H2. unfold store, lengthZ in *. rewrite !length_app, length_take, length_drop. lia. Qed.

Lemma parse_lines_app {E} a b : parse_lines (E := E) (a ++ b) =
  if snd (parse_lines (E := E) a) then (fst (parse_lines a) ++ fst (parse_lines b), snd (parse_lines (E := E) b))
  else parse_lines a.
Proof.
  induction a as [|l a IH]; simpl; [by destruct (parse_lines b)|].
  destruct (InternalParseLine l) as [m|]; simpl; [|done]. rewrite IH. destruct (snd (parse_lines (E := E) a)) eqn:Ea; simpl; by rewrite ?Ea.
Qed.

(** ** The loop over the lines in the buffer *)

(** The buffer at [line] holds [text]. *)
Definition text_at (buf : list Z) (line : Z) (text : list Z) : Prop :=
  0 <= line /\ lengthZ buf = 2048 /\ exists pre post, buf = pre ++ text ++ post /\ lengthZ pre = line.

Lemma text_at_slice buf line text : text_at buf line text -> slice buf line (lengthZ text) = text.
Proof.
  intros (H0 & _ & pre & post & -> & Hp). unfold slice, lengthZ in *. subst line.
  by rewrite !Nat2Z.id, drop_app_length, take_app_length.
Qed.

Section Lines.
Context {E : Type}.

(** A complete line is parsed and the loop goes on behind it. *)
Lemma Parse_line_round_line l text line (p : Parser E) : plain l ->
  text_at (buffer p) line (l ++ newline_char :: text) ->
  exists buf, text_at buf (line + lengthZ l + 1) text /\
    Parse_line_round (line, lengthZ (l ++ newline_char :: text)) p =
    match InternalParseLine l with
    | None => Ok (inr (lengthZ (l ++ newline_char :: text), false), mkParser (parser_maps_ p) buf (file_rest p))
    | Some m => Ok (inl (line + lengthZ l + 1, lengthZ text), mkParser (parser_maps_ p ++ [m]) buf (file_rest p))
    end.
Proof.
  intros (Hn & Hz & Hl) Ht. pose proof (text_at_slice _ _ _ Ht) as Hslice.
  destruct Ht as (H0 & Hlen & pre & post & Hbuf & Hpre).
  assert (store (line + lengthZ l) [0] (buffer p) = pre ++ l ++ 0 :: text ++ post) as Hst.
  { unfold store. rewrite Hbuf. unfold lengthZ in *. subst line. simpl.
    replace (Z.to_nat (Z.of_nat (length pre) + Z.of_nat (length l))) with (length (pre ++ l)) by (rewrite length_app; lia).
    replace (pre ++ (l ++ newline_char :: text) ++ post) with ((pre ++ l) ++ newline_char :: (text ++ post))
      by (by rewrite <- !app_assoc).
    rewrite take_app_length, <- drop_drop, drop_app_length. simpl. by rewrite drop_0, <- app_assoc. }
  exists (pre ++ l ++ 0 :: text ++ post). split.
  { split_and!; [lengths|rewrite Hbuf in Hlen; lengths|].
    exists (pre ++ l ++ [0]), post. split; [by rewrite <- !app_assoc|]. lengths. }
  unfold Parse_line_round. rewrite (proj2 (Z.ltb_lt 0 _)) by lengths.
  unfold bind, get, modify. rewrite Hslice, memchr_app, Hst by done.
  assert (drop (Z.to_nat line) (pre ++ l ++ 0 :: text ++ post) = l ++ 0 :: text ++ post) as ->.
  { subst line. unfold lengthZ. by rewrite Nat2Z.id, drop_app_length. }
  rewrite c_string_app by done. unfold set_buffer. simpl.
  destruct (InternalParseLine l); unfold ret, push_map; simpl; [|done].
  do 4 f_equal. rewrite lengthZ_app. unfold lengthZ. simpl. lia.
Qed.

(** The loop over a text of complete lines and the beginning of another one. *)
Lemma Parse_lines_text ls tail fuel line (p : Parser E) : Forall plain ls -> newline_char ∉ tail ->
  text_at (buffer p) line (joined ls ++ tail) -> (length ls < fuel)%nat ->
  exists bytes buf,
    iter fuel Parse_line_round (line, lengthZ (joined ls ++ tail)) p =
      Ok ((bytes, snd (parse_lines (E := E) ls)), mkParser (parser_maps_ p ++ fst (parse_lines ls)) buf (file_rest p)) /\
    lengthZ buf = 2048 /\ 0 <= bytes <= lengthZ (joined ls ++ tail) /\
    (snd (parse_lines (E := E) ls) = true -> bytes = lengthZ tail /\ take (length tail) buf = tail).
Proof.
  intros Hp Htail. revert fuel line p. induction Hp as [|l ls Hl _ IH]; intros fuel line p Ht Hfuel.
  - destruct fuel as [|fuel]; [lia|]. simpl in *. unfold Parse_line_round at 1. rewrite app_nil_r.
    pose proof (text_at_slice _ _ _ Ht) as Hslice. pose proof Ht as (H0 & Hlen & pre & post & Hbuf & Hpre).
    pose proof (lengthZ_nonneg tail) as Hnn.
    destruct (0 <? lengthZ tail) eqn:Epos.
    + exists (lengthZ tail), (store 0 tail (buffer p)). unfold bind, get, modify.
      rewrite Hslice, memchr_None by done. split; [done|].
      assert (0 + lengthZ tail <= lengthZ (buffer p)) as Hfit.
      { rewrite Hbuf, !lengthZ_app. pose proof (lengthZ_nonneg pre). pose proof (lengthZ_nonneg post). lia. }
      rewrite store_length by (done || lia). split_and!; try lia. intros _. split; [done|].
      unfold store. simpl. by rewrite take_app_length.
    + exists (lengthZ tail), (buffer p). unfold lengthZ in *. destruct tail; [|done].
      destruct p. by split_and!.
  - destruct fuel as [|fuel]; [simpl in *; lia|]. rewrite joined_cons in *.
    destruct (Parse_line_round_line l _ line p Hl Ht) as (buf & Hbuf & Hround). cbn [iter]. unfold bind at 1.
    rewrite Hround. cbn [parse_lines]. destruct (InternalParseLine l) as [m|] eqn:El; cbn [fst snd].
    + destruct (IH fuel (line + lengthZ l + 1) (mkParser (parser_maps_ p ++ [m]) buf (file_rest p)) Hbuf ltac:(simpl in *; lia))
        as (bytes & buf' & Hit & H1 & H2 & H3).
      exists bytes, buf'. rewrite Hit. simpl. rewrite <- app_assoc. split_and!; try done; lengths.
    + eexists _, buf. rewrite app_nil_r. split; [done|]. destruct Hbuf as (_ & Hb & _). split_and!; try done.
      unfold lengthZ. lia.
Qed.
(** The loop on any buffer: it ends, and only adds maps. *)
Lemma Parse_lines_any line bytes (p : Parser E) :
  0 <= line -> 0 <= bytes -> line + bytes <= 2048 -> lengthZ (buffer p) = 2048 ->
  wp nothing (iter 2050 Parse_line_round (line, bytes))
    (fun r p' => 0 <= fst r <= bytes /\ lengthZ (buffer p') = 2048 /\ file_rest p' = file_rest p /\
                 parser_maps_ p `prefix_of` parser_maps_ p') p.
Proof.
  intros H1 H2 H3 H4.
  apply wp_iter with (I := fun l p' => 0 <= fst l /\ 0 <= snd l <= bytes /\ fst l + snd l <= 2048 /\
    lengthZ (buffer p') = 2048 /\ file_rest p' = file_rest p /\ parser_maps_ p `prefix_of` parser_maps_ p')
    (mu := fun l _ => Z.to_nat (snd l)); [|simpl; split_and!; done || lia|simpl; lia].
  intros [line' bytes'] p' (Hl & Hb & Hs & Hbuf & Hf & Hm). simpl in *. unfold Parse_line_round.
  destruct (0 <? bytes') eqn:Epos; [|by apply wp_ret; split_and!; simpl; try lia].
  apply wp_bind, wp_get. destruct (memchr _ _) as [d|] eqn:Ed.
  - apply memchr_Some in Ed. rewrite slice_length in Ed by lia. apply wp_bind, wp_modify.
    destruct (InternalParseLine _) as [m|].
    + apply wp_bind, wp_modify, wp_ret. simpl. rewrite store_length by lengths.
      split_and!; try lia; try done. by apply prefix_app_r.
    + apply wp_ret. simpl. rewrite store_length by lengths. split_and!; done || lia.
  - apply wp_bind, wp_modify, wp_ret. simpl. rewrite store_length by (rewrite ?slice_length; lia).
    split_and!; done || lia.
Qed.

End Lines.

(** ** The loop over the reads *)

(** A piece of the text of the lines is complete lines and the beginning of
    another one. *)
Lemma split_text ls tail text rest : newline_char ∉ tail -> Forall plain ls -> text ++ rest = joined ls ++ tail ->
  exists a b t, ls = a ++ b /\ text = joined a ++ t /\ (newline_char ∉ t) /\ t ++ rest = joined b ++ tail.
Proof.
  intros Htail Hp. revert text. induction Hp as [|l ls Hl Hp IH]; intros text Heq.
  - exists [], [], text. split_and!; try done. simpl in Heq. rewrite <- Heq in Htail. set_solver.
  - rewrite joined_cons in Heq. destruct Hl as (Hn & _).
    apply app_eq_inv in Heq as [(k & -> & Hk)|(k & -> & Hk)].
    + destruct k as [|c k]; simpl in Hk; simplify_eq.
      * exists [], (l :: ls), l. rewrite app_nil_r in *. split_and!; try done. by rewrite joined_cons.
      * destruct (IH k) as (a & b & t & -> & -> & Ht & Heq); [by simplify_eq/=|].
        exists (l :: a), b, t. split_and!; try done. by rewrite joined_cons.
    + exists [], ((text ++ k) :: ls), text. split_and!; try done; [set_solver|].
      by rewrite joined_cons, Hk, <- app_assoc.
Qed.

(** The beginning of a line fits into the buffer. *)
Lemma partial_short ls tail t rest : newline_char ∉ t -> Forall plain ls -> lengthZ tail < 2048 ->
  t ++ rest = joined ls ++ tail -> lengthZ t < 2048.
Proof.
  intros Ht Hp Htail Heq. destruct Hp as [|l ls (_ & _ & Hl) _].
  - simpl in Heq. subst tail. lengths.
  - rewrite joined_cons in Heq. apply app_eq_inv in Heq as [(k & -> & Hk)|(k & -> & _)]; [|lengths].
    destruct k as [|c k]; simplify_eq/=; [by rewrite app_nil_r|]. exfalso. apply Ht. set_solver.
Qed.

Lemma no_line_left ls tail t : newline_char ∉ t -> t = joined ls ++ tail -> ls = [].
Proof. intros Ht ->. destruct ls as [|l ls]; [done|]. exfalso. apply Ht. rewrite joined_cons. set_solver. Qed.

Section Reads.
Context {E : Type} (read_count : Z -> list Z -> option Z) (Hread : reads_file read_count).
Context (lines : list (list Z)) (tail : list Z) (maps : list (MapInfo E)).
Context (Hlines : Forall plain lines) (Htail : newline_char ∉ tail) (Hshort : lengthZ tail < 2048).

(** Before every read either all complete lines so far were well formed and the
    buffer starts with the beginning of the next one, or a line was not. *)
Definition reading (l : Z * bool) (p : Parser E) : Prop :=
  let '(leftover, return_value) := l in
  lengthZ (buffer p) = 2048 /\ 0 <= leftover <= 2048 /\
  if return_value : bool then
    exists ls, Forall plain ls /\ leftover < 2048 /\
      take (Z.to_nat leftover) (buffer p) ++ file_rest p = joined ls ++ tail /\
      (newline_char ∉ take (Z.to_nat leftover) (buffer p)) /\
      parser_maps_ p ++ fst (parse_lines ls) = maps ++ fst (parse_lines lines) /\
      snd (parse_lines (E := E) ls) = snd (parse_lines (E := E) lines)
  else
    snd (parse_lines (E := E) lines) = false /\ (maps ++ fst (parse_lines lines)) `prefix_of` parser_maps_ p.

Definition all_read (r : bool) (p : Parser E) : Prop :=
  r = snd (parse_lines (E := E) lines) /\ (maps ++ fst (parse_lines lines)) `prefix_of` parser_maps_ p /\
  (r = true -> parser_maps_ p = maps ++ fst (parse_lines lines)).

(** The bytes of a read land behind those that are left over. *)
Lemma read_text leftover n (p : Parser E) :
  0 <= leftover -> 0 <= n -> leftover + n <= 2048 -> n <= lengthZ (file_rest p) -> lengthZ (buffer p) = 2048 ->
  text_at (store leftover (take (Z.to_nat n) (file_rest p)) (buffer p)) 0
    (take (Z.to_nat leftover) (buffer p) ++ take (Z.to_nat n) (file_rest p)) /\
  lengthZ (take (Z.to_nat leftover) (buffer p) ++ take (Z.to_nat n) (file_rest p)) = n + leftover.
Proof.
  intros. split; [|lengths]. split_and!; [done|rewrite store_length; lengths|].
  eexists [], _. split; [|done]. unfold store. simpl. by rewrite <- app_assoc.
Qed.

(** A round in which all lines so far were well formed. *)
Lemma Parse_round_good leftover n (p : Parser E) :
  reading (leftover, true) p -> 0 < n -> leftover + n <= 2048 -> n <= lengthZ (file_rest p) ->
  let p1 := mkParser (parser_maps_ p) (store leftover (take (Z.to_nat n) (file_rest p)) (buffer p))
              (drop (Z.to_nat n) (file_rest p)) in
  exists bytes ok p', iter 2050 Parse_line_round (0, n + leftover) p1 = Ok ((bytes, ok), p') /\
    reading (bytes, ok) p' /\ file_rest p' = file_rest p1.
Proof.
  intros (Hbuf & Hleft & ls & Hls & Hlt & Heq & Hnl & Hmaps & Hok) Hn Hroom Hrest p1.
  destruct (read_text leftover n p ltac:(lia) ltac:(lia) ltac:(lia) Hrest Hbuf) as [Htext Hlen].
  set (text := take (Z.to_nat leftover) (buffer p) ++ take (Z.to_nat n) (file_rest p)) in *.
  destruct (split_text ls tail text (drop (Z.to_nat n) (file_rest p)) Htail Hls) as (a & b & t & -> & Ht & Hnt & Hb).
  { unfold text. by rewrite <- app_assoc, take_drop. }
  apply Forall_app in Hls as [Ha Hbp]. rewrite Ht in Htext, Hlen.
  assert (length a <= length (joined a))%nat as Hla.
  { clear. induction a as [|l a IH]; [done|]. unfold joined in *. simpl. rewrite !length_app. simpl. lia. }
  destruct (Parse_lines_text a t 2050 0 p1 Ha Hnt Htext) as (bytes & buf & Hit & Hb1 & Hb2 & Hb3); [lengths|].
  rewrite Hlen in Hit, Hb2. do 3 eexists. split; [exact Hit|]. split; [|done].
  rewrite parse_lines_app in Hmaps, Hok. unfold reading.
  clear Hit. destruct (snd (parse_lines (E := E) a)) eqn:Eok; simpl in *.
  - destruct Hb3 as [-> Htake]; [done|]. replace (Z.to_nat (lengthZ t)) with (length t) by lengths. rewrite Htake.
    split_and!; try done; [lengths..|]. exists b. rewrite <- app_assoc.
    split_and!; try done. by eapply partial_short.
  - split_and!; try done; try lia; [congruence|]. by rewrite <- Hmaps.
Qed.

(** A round after a malformed line. *)
Lemma Parse_round_bad leftover n (p : Parser E) :
  reading (leftover, false) p -> 0 < n -> leftover + n <= 2048 -> n <= lengthZ (file_rest p) ->
  let p1 := mkParser (parser_maps_ p) (store leftover (take (Z.to_nat n) (file_rest p)) (buffer p))
              (drop (Z.to_nat n) (file_rest p)) in
  exists bytes ok p', iter 2050 Parse_line_round (0, n + leftover) p1 = Ok ((bytes, ok), p') /\
    reading (bytes, false) p' /\ file_rest p' = file_rest p1.
Proof.
  intros (Hbuf & Hleft & Hbad & Hpre) Hn Hroom Hrest p1.
  destruct (wp_total _ _ _ (Parse_lines_any 0 (n + leftover) p1 ltac:(lia) ltac:(lia) ltac:(lia)
    ltac:(simpl; rewrite store_length; lengths))) as ([bytes ok] & p' & Hit & Hb & Hb' & Hf & Hp).
  exists bytes, ok, p'. split; [exact Hit|]. split; [|exact Hf]. cbn [fst] in Hb. unfold reading.
  split_and!; try done; try lia. by etrans.
Qed.

Lemma Parse_round_reading l p : reading l p ->
  wp nothing (Parse_round read_count l)
    (fun r p' => match r with
                 | inl l' => reading l' p' /\ (length (file_rest p') < length (file_rest p))%nat
                 | inr a => all_read a p' end) p.
Proof.
  destruct l as [leftover rv]. intros HI. pose proof HI as (Hbuf & Hleft & Hrv). unfold Parse_round, read_buffer.
  destruct (Hread (2048 - leftover) (file_rest p) ltac:(lia)) as (n & Hn & H1 & H2 & H3).
  unfold wp, bind, get, modify, id. rewrite Hn. cbn [ret]. unfold ret.
  destruct (n =? 0) eqn:E0.
  - apply Z.eqb_eq in E0. subst n. unfold all_read. cbn [parser_maps_ file_rest]. destruct rv.
    + destruct Hrv as (ls & Hls & Hlt & Heq & Hnl & Hmaps & Hok). destruct H3 as [|Hnil]; [done|lia|].
      rewrite Hnil, app_nil_r in Heq. pose proof (no_line_left _ _ _ Hnl Heq) as ->. simpl in *.
      rewrite app_nil_r in Hmaps. by rewrite Hmaps.
    + by destruct Hrv as [-> Hp].
  - assert (0 < n) as Hpos by lia.
    destruct rv; [destruct (Parse_round_good leftover n p HI Hpos ltac:(lia) H2) as (bytes & ok & p' & Hit & HI' & Hf)
                 |destruct (Parse_round_bad leftover n p HI Hpos ltac:(lia) H2) as (bytes & ok & p' & Hit & HI' & Hf)];
      cbn [file_rest] in Hf; rewrite Hit; cbn [fst snd andb]; (split; [done|rewrite Hf; lengths]).
Qed.

Lemma Parse_reading garbage : lengthZ garbage = 2048 ->
  exists ms, Parse read_count (Some (joined lines ++ tail)) garbage maps = Ok (snd (parse_lines (E := E) lines), ms) /\
    (maps ++ fst (parse_lines lines)) `prefix_of` ms /\
    (snd (parse_lines (E := E) lines) = true -> ms = maps ++ fst (parse_lines lines)).
Proof.
  intros Hg. unfold Parse.
  assert (wp nothing (iter (length (joined lines ++ tail) + 2) (Parse_round read_count) (0, true)) all_read
            (mkParser maps garbage (joined lines ++ tail))) as Hwp.
  { apply wp_iter with (I := reading) (mu := fun _ p => length (file_rest p)); [apply Parse_round_reading| |simpl; lia].
    split_and!; simpl; try done. exists lines. split_and!; try done. apply not_elem_of_nil. }
  apply wp_total in Hwp as (r & p & -> & -> & Hp & Ht). simpl. eauto.
Qed.

End Reads.

(** ** The reader of a string *)

(** The lines of a text with the last one, when there is something behind the
    last newline. *)
Definition all_lines (lines : list (list Z)) (tail : list Z) : list (list Z) :=
  lines ++ match tail with [] => [] | _ => [tail] end.

Lemma BufferMaps_lines {E} lines tail fuel (maps : list (MapInfo E)) :
  Forall (fun l => newline_char ∉ l) lines -> newline_char ∉ tail -> all_lines lines tail <> [] ->
  (length lines < fuel)%nat ->
  iter fuel BufferMaps_round (joined lines ++ tail) maps =
  Ok (snd (parse_lines (E := E) (all_lines lines tail)), maps ++ fst (parse_lines (all_lines lines tail))).
Proof.
  intros Hls Htail. revert fuel maps. induction Hls as [|l lines Hl _ IH]; intros fuel maps Hne Hfuel;
    (destruct fuel as [|fuel]; [simpl in *; lia|]); cbn [iter]; unfold bind at 1; unfold BufferMaps_round at 1.
  - destruct tail as [|c tail]; [done|]. cbn [app joined map concat all_lines parse_lines] in *. unfold all_lines. cbn [app].
    rewrite memchr_None by done. cbn [parse_lines].
    destruct (InternalParseLine (c :: tail)) as [m|]; simpl; [done|by rewrite app_nil_r].
  - rewrite joined_cons, memchr_app by done. assert (Z.to_nat (lengthZ l) = length l) as -> by lengths. rewrite take_app_length.
    replace (length l + 1)%nat with (length (l ++ [newline_char])) by (by rewrite length_app).
    replace (l ++ newline_char :: joined lines ++ tail) with ((l ++ [newline_char]) ++ joined lines ++ tail)
      by (by rewrite <- app_assoc).
    rewrite drop_app_length. unfold all_lines. cbn [app parse_lines].
    destruct (InternalParseLine l) as [m|]; [|simpl; by rewrite app_nil_r].
    unfold bind, modify, ret. fold (all_lines lines tail).
    destruct (joined lines ++ tail) as [|c text] eqn:Etext.
    + apply app_eq_nil in Etext as [Hj ->]. destruct lines as [|l' lines]; [done|].
      rewrite <- (app_nil_r (joined _)), joined_cons in Hj. by destruct l'.
    + rewrite IH; [by rewrite <- app_assoc| |simpl in *; lia].
      unfold all_lines. destruct lines, tail; done.
Qed.


(** A kernel that returns at most seven bytes. *)
Definition sample_read (room : Z) (rest : list Z) : option Z := Some (Z.min 7 (Z.min room (lengthZ rest))).


(** ** The binary format of offline unwinding *)

Definition offline_bytes {E} (m : MapInfo E) : list Z :=
  le_split 8 (map_start m) ++ le_split 8 (map_end m) ++ le_split 8 (map_offset m) ++ le_split 2 (map_flags m) ++
  le_split 2 (lengthZ (map_name m)) ++ map_name m.

(** The fields of a map that the format holds, in their widths. *)
Definition offline_ok {E} (m : MapInfo E) : Prop :=
  m = new_MapInfo (map_start m) (map_end m) (map_offset m) (map_flags m) (map_name m) /\
  in_unsigned 64 (map_start m) /\ in_unsigned 64 (map_end m) /\ in_unsigned 64 (map_offset m) /\
  in_unsigned 16 (map_flags m) /\ lengthZ (map_name m) < 2 ^ 16.

(** A file that ends inside of [bs]. *)
Definition cut (t bs : list Z) : Prop := exists more, bs = t ++ more /\ more <> [].

Lemma cut_app t b r : cut t (b ++ r) -> (exists t', t = b ++ t' /\ cut t' r) \/ lengthZ t < lengthZ b.
Proof.
  intros (more & Heq & Hne). apply app_eq_inv in Heq as [(k & -> & ->)|(k & -> & ->)].
  - destruct k as [|c k]; [left; exists []; rewrite !app_nil_r; split; [done|by exists r]|right; lengths].
  - left. exists k. split; [done|by exists more].
Qed.

Section OfflineSpec.
Context {E : Type} (read_count : Z -> list Z -> option Z).
Context (Hread : forall room rest, read_count room rest = Some (Z.min room (lengthZ rest))).

Lemma read_bytes_app bs rest (maps : list (MapInfo E)) :
  read_bytes read_count (lengthZ bs) (maps, bs ++ rest) = Ok (Some bs, (maps, rest)).
Proof.
  unfold read_bytes, bind, get, modify, ret. simpl. rewrite Hread.
  replace (Z.to_nat (Z.min (lengthZ bs) (lengthZ (bs ++ rest)))) with (length bs) by lengths.
  simpl. by rewrite drop_app_length, take_app_length.
Qed.

Lemma read_bytes_short n rest (maps : list (MapInfo E)) : lengthZ rest <= n ->
  read_bytes read_count n (maps, rest) = Ok (Some rest, (maps, [])).
Proof.
  intros Hn. unfold read_bytes, bind, get, modify, ret. simpl. rewrite Hread.
  replace (Z.to_nat (Z.min n (lengthZ rest))) with (length rest) by lengths.
  simpl. by rewrite drop_all, take_ge.
Qed.

Lemma read_exactly_app n bs rest (maps : list (MapInfo E)) : lengthZ bs = n ->
  read_exactly read_count n (maps, bs ++ rest) = Ok (Some bs, (maps, rest)).
Proof. intros <-. unfold read_exactly, bind. by rewrite read_bytes_app, Z.eqb_refl. Qed.

Lemma read_exactly_short n rest (maps : list (MapInfo E)) : lengthZ rest < n ->
  read_exactly read_count n (maps, rest) = Ok (None, (maps, [])).
Proof.
  intros Hn. unfold read_exactly, bind. rewrite read_bytes_short by lia. unfold ret.
  by rewrite (proj2 (Z.eqb_neq _ _)) by lia.
Qed.

Lemma le_field n z : 0 <= z < 256 ^ Z.of_nat n -> le_combine (le_split n z) = z.
Proof. intros H. by rewrite le_combine_split, Z.mod_small. Qed.

Context (start end_ offset flags len name : list Z).
Context (Hs : lengthZ start = 8) (He : lengthZ end_ = 8) (Ho : lengthZ offset = 8) (Hf : lengthZ flags = 2).
Context (Hl : lengthZ len = 2) (Hn : lengthZ name = le_combine len).

Lemma name_empty : (0 <? le_combine len) = false -> name = [].
Proof. intros H. unfold lengthZ in *. destruct name; [done|simpl in *; lia]. Qed.

(** A complete record is added. *)
Lemma OfflineMaps_round_fields rest (maps : list (MapInfo E)) :
  OfflineMaps_round read_count tt (maps, start ++ end_ ++ offset ++ flags ++ len ++ name ++ rest) =
  Ok (inl tt, (maps ++ [new_MapInfo (le_combine start) (le_combine end_) (le_combine offset) (le_combine flags) name],
               rest)).
Proof.
  unfold OfflineMaps_round, bind. pose proof (read_bytes_app start) as Hr. rewrite Hs in Hr. rewrite Hr, Hs. simpl.
  do 4 (rewrite read_exactly_app by done; cbn [fst snd]).
  destruct (0 <? le_combine len) eqn:En; [by rewrite read_exactly_app|]. by rewrite name_empty by done.
Qed.

(** A record that is cut off fails without adding anything. *)
Lemma OfflineMaps_round_cut t (maps : list (MapInfo E)) : t <> [] ->
  cut t (start ++ end_ ++ offset ++ flags ++ len ++ name) ->
  exists rest, OfflineMaps_round read_count tt (maps, t) = Ok (inr false, (maps, rest)).
Proof.
  intros Hne Hc. unfold OfflineMaps_round, bind.
  apply cut_app in Hc as [(t1 & -> & Hc)|Hlt].
  2: { rewrite read_bytes_short by lia. rewrite (proj2 (Z.eqb_neq _ 0)), (proj2 (Z.eqb_neq _ 8)); [by eexists|lia|].
       unfold lengthZ. destruct t; simpl; [done|lia]. }
  pose proof (read_bytes_app start) as Hr. rewrite Hs in Hr. rewrite Hr, Hs. simpl.
  clear Hne. do 4 (apply cut_app in Hc as [(t & -> & Hc')|Hlt]; [|rewrite read_exactly_short by lia; by eexists];
        rewrite read_exactly_app by done; rename t into t1, Hc' into Hc).
  destruct Hc as (more & Hname & Hmore).
  assert (lengthZ t1 < le_combine len) as Hlt.
  { rewrite <- Hn, Hname. destruct more; [done|lengths]. }
  rewrite (proj2 (Z.ltb_lt 0 _)) by (pose proof (lengthZ_nonneg t1); lia).
  rewrite read_exactly_short by done. by eexists.
Qed.

End OfflineSpec.

(** The two lemmas for a map. *)
Lemma OfflineMaps_round_map {E} read_count m rest (maps : list (MapInfo E)) :
  (forall room rest, read_count room rest = Some (Z.min room (lengthZ rest))) -> offline_ok m ->
  OfflineMaps_round read_count tt (maps, offline_bytes m ++ rest) = Ok (inl tt, (maps ++ [m], rest)).
Proof.
  intros Hread (Hm & Hs & He & Ho & Hf & Hl). unfold offline_bytes. rewrite <- !app_assoc.
  pose proof (lengthZ_nonneg (map_name m)).
  rewrite OfflineMaps_round_fields; rewrite ?lengthZ_le_split, ?le_field by (unfold in_unsigned in *; simpl; lia); try done.
  by rewrite <- Hm.
Qed.

Lemma OfflineMaps_round_end {E} read_count t (maps : list (MapInfo E)) :
  (forall room rest, read_count room rest = Some (Z.min room (lengthZ rest))) ->
  t = [] \/ (exists m : MapInfo E, offline_ok m /\ cut t (offline_bytes m)) ->
  exists rest, OfflineMaps_round read_count tt (maps, t) = Ok (inr (bool_decide (t = [])), (maps, rest)).
Proof.
  intros Hread Ht. case_bool_decide as Hnil.
  - subst t. unfold OfflineMaps_round, bind. rewrite read_bytes_short by done. by eexists.
  - destruct Ht as [?|(m & (_ & _ & _ & _ & _ & Hl) & Hc)]; [done|].
    pose proof (lengthZ_nonneg (map_name m)). eapply OfflineMaps_round_cut; [done|..|done|exact Hc];
      rewrite ?lengthZ_le_split, ?le_field by (simpl; lia); done.
Qed.

Lemma OfflineMaps_rounds {E} read_count ms t fuel (maps : list (MapInfo E)) :
  (forall room rest, read_count room rest = Some (Z.min room (lengthZ rest))) ->
  Forall offline_ok ms -> t = [] \/ (exists m : MapInfo E, offline_ok m /\ cut t (offline_bytes m)) ->
  (length ms < fuel)%nat ->
  exists rest, iter fuel (OfflineMaps_round read_count) tt (maps, concat (map offline_bytes ms) ++ t) =
    Ok (bool_decide (t = []), (maps ++ ms, rest)).
Proof.
  intros Hread Hms Ht. revert fuel maps. induction Hms as [|m ms Hm _ IH]; intros fuel maps Hfuel;
    (destruct fuel as [|fuel]; [simpl in *; lia|]); cbn [iter]; unfold bind at 1; cbn [map concat app].
  - destruct (OfflineMaps_round_end read_count t maps Hread Ht) as [rest ->]. rewrite app_nil_r. by eexists.
  - rewrite <- app_assoc, OfflineMaps_round_map by done.
    destruct (IH fuel (maps ++ [m]) ltac:(simpl in *; lia)) as [rest ->]. rewrite <- app_assoc. by eexists.
Qed.

(** The binary format is read back: a file of records gives the maps that
    were written, in order; when the file ends inside of a record, the call
    returns false and has added the complete ones. *)
Theorem OfflineMaps_roundtrip {E} read_count ms t (maps : list (MapInfo E)) :
  (forall room rest, read_count room rest = Some (Z.min room (lengthZ rest))) ->
  Forall offline_ok ms -> t = [] \/ (exists m : MapInfo E, offline_ok m /\ cut t (offline_bytes m)) ->
  OfflineMaps_Parse read_count (Some (concat (map offline_bytes ms) ++ t)) maps =
  Ok (bool_decide (t = []), maps ++ ms).
Proof.
  intros Hread Hms Ht. unfold OfflineMaps_Parse.
  assert (length ms <= length (concat (map offline_bytes ms)))%nat as Hlen.
  { clear. induction ms as [|m ms IH]; simpl; [lia|]. rewrite length_app. lia. }
  destruct (OfflineMaps_rounds read_count ms t (length (concat (map offline_bytes ms) ++ t) + 1) maps Hread Hms Ht)
    as [rest ->]; [rewrite length_app; lia|done].
Qed.

Definition sample_map : MapInfo unit := new_MapInfo 0x7000 0x9000 0x1000 5 [97; 98].

Lemma OfflineMaps_roundtrip_witness :
  OfflineMaps_Parse (fun room rest => Some (Z.min room (lengthZ rest)))
    (Some (offline_bytes sample_map ++ [0; 112; 0])) [] = Ok (false, [sample_map]).
Proof.
  assert (offline_ok sample_map) as Hok by (repeat split; simpl; lia).
  apply (OfflineMaps_roundtrip (fun room rest => Some (Z.min room (lengthZ rest))) [sample_map] [0; 112; 0] []).
  - done.
  - by constructor.
  - right. exists sample_map. split; [done|]. by eexists.
Defined.
