(* ===== verification/ElfInterface.v ===== *)
(** * ElfInterface: what is read of an ELF file
    (libunwindstack/ElfInterface.cpp, ElfInterfaceArm.cpp and their headers)

    The readers of the program and section headers, the symbol tables, the
    shared object name, the compressed debug data and the three ways to step out
    of a frame: .eh_frame, .debug_frame and, on ARM, the exception tables.
    [AddressType] selects the instances of the templates. *)

From S2P Require Import Prelude Memory DwarfMemory Regs DwarfOpTable DwarfOp DwarfCfa DwarfSection DwarfEntries DwarfEhFrame DwarfDebugFrame ArmExidx Symbols.

(** ** What the code takes from outside

    [torn_word] and [torn_regs] are what a Read that fails leaves in its
    destination, [map_order] the order in which an unordered_map is iterated,
    the sorts are std::sort with the comparisons of their callers; [fuel] bounds
    the loops over file content.  The xz decoder is a state with the call that
    consumes input and produces output: the new state, whether it returned
    SZ_OK, whether its status is CODER_STATUS_NOT_FINISHED, the bytes it wrote
    and the number of bytes it consumed. *)
Class Environment := {
  torn_word : Z;
  torn_regs : list Z -> list Z;
  map_order : dwarf_loc_regs_t -> list (Z * DwarfLocation);
  sort_fdes : list DwarfDebugFrame.FdeInfo -> list DwarfDebugFrame.FdeInfo;
  sort_symbols : list Symbols.Info -> list Symbols.Info;
  fuel : nat;
  uninitialized : Z;
  xz_state : Type;
  XzUnpacker_Construct : xz_state;
  XzUnpacker_Code : xz_state -> Z -> list Z -> xz_state * bool * bool * list Z * Z;
  XzUnpacker_IsStreamWasFinished : xz_state -> bool
}.

(** ** The structures of elf.h *)

(** The distance of a field from the start of its structure, and its size. *)
Definition field : Type := Z * Z.

Section Layout.
Context (AT : AddressType).

Definition by_class {A} (a32 a64 : A) : A := match AT with uint32_t => a32 | uint64_t => a64 end.

Definition sizeof_Ehdr : Z := by_class 52 64.
Definition e_phoff : field := by_class (28, 4) (32, 8).
Definition e_shoff : field := by_class (32, 4) (40, 8).
Definition e_phentsize : field := by_class (42, 2) (54, 2).
Definition e_phnum : field := by_class (44, 2) (56, 2).
Definition e_shentsize : field := by_class (46, 2) (58, 2).
Definition e_shnum : field := by_class (48, 2) (60, 2).
Definition e_shstrndx : field := by_class (50, 2) (62, 2).

Definition p_type : field := (0, 4).
Definition p_flags : field := by_class (24, 4) (4, 4).
Definition p_offset : field := by_class (4, 4) (8, 8).
Definition p_vaddr : field := by_class (8, 4) (16, 8).
Definition p_memsz : field := by_class (20, 4) (40, 8).

Definition sizeof_Shdr : Z := by_class 40 64.
Definition sh_name : field := (0, 4).
Definition sh_type : field := (4, 4).
Definition sh_offset : field := by_class (16, 4) (24, 8).
Definition sh_size : field := by_class (20, 4) (32, 8).
Definition sh_link : field := by_class (24, 4) (40, 4).
Definition sh_entsize : field := by_class (36, 4) (56, 8).

Definition sizeof_Dyn : Z := by_class 8 16.
Definition d_tag : field := by_class (0, 4) (0, 8).
Definition d_un : field := by_class (4, 4) (8, 8).

Definition sym_type : SymType := by_class Elf32_Sym Elf64_Sym.

End Layout.

(** A field of a structure that was read as a whole. *)
Definition field_of (f : field) (bs : list Z) : Z := le_combine (slice bs (fst f) (snd f)).

(** [memory_->ReadField(offset, &structure, &structure.f, sizeof(structure.f))] *)
Definition read_field (m : Memory) (offset : Z) (f : field) : option Z := le_combine <$> ReadField m offset (fst f) (snd f).

Definition PT_LOAD : Z := 1.
Definition PT_DYNAMIC : Z := 2.
Definition PT_GNU_EH_FRAME : Z := 0x6474e550.
Definition PT_ARM_EXIDX : Z := 0x70000001.
Definition PF_X : Z := 1.
Definition SHT_PROGBITS : Z := 1.
Definition SHT_SYMTAB : Z := 2.
Definition SHT_STRTAB : Z := 3.
Definition SHT_DYNSYM : Z := 11.
Definition DT_NULL : Z := 0.
Definition DT_STRTAB : Z := 5.
Definition DT_STRSZ : Z := 10.
Definition DT_SONAME : Z := 14.

(** ** The state *)

Record LoadInfo := mkLoadInfo { load_offset : Z; table_offset : Z; table_size : Z }.

Inductive SonameType := SONAME_UNKNOWN | SONAME_VALID | SONAME_INVALID.

(** The class of the object. *)
Inductive InterfaceKind := ElfInterface32 | ElfInterface64 | ElfInterfaceArm.

#[global] Instance InterfaceKind_eq_dec : EqDecision InterfaceKind.
Proof. solve_decision. Defined.

(** The template arguments of its methods. *)
Definition kind_class (k : InterfaceKind) : AddressType :=
  match k with ElfInterface64 => uint64_t | _ => uint32_t end.

(** Pairs of an offset and a size. *)
Record Range := mkRangeOf { range_offset : Z; range_size : Z }.

(** The members [<x>_offset_] and [<x>_size_] are one range.  The last three
    members are those of ElfInterfaceArm. *)
Record ElfInterface := mkInterface {
  kind : InterfaceKind;
  elf_memory_ : Memory;
  pt_loads_ : gmap Z LoadInfo;
  dynamic_ : Range;
  eh_frame_range : Range;
  debug_frame_range : Range;
  gnu_debugdata_ : Range;
  soname_type_ : SonameType;
  soname_ : list Z;
  eh_frame_ : option (DwarfSection EhFrame);
  debug_frame_ : option (DwarfSection DebugFrame);
  elf_symbols_ : list Symbols;
  start_offset_ : Z;
  total_entries_ : Z;
  addrs_ : gmap Z Z
}.

Definition new_ElfInterface (k : InterfaceKind) (memory : Memory) : ElfInterface :=
  mkInterface k memory ∅ (mkRangeOf 0 0) (mkRangeOf 0 0) (mkRangeOf 0 0) (mkRangeOf 0 0) SONAME_UNKNOWN [] None None []
    0 0 ∅.

Definition set_pt_loads (x : gmap Z LoadInfo) (i : ElfInterface) : ElfInterface :=
  mkInterface (kind i) (elf_memory_ i) x (dynamic_ i) (eh_frame_range i) (debug_frame_range i) (gnu_debugdata_ i)
    (soname_type_ i) (soname_ i) (eh_frame_ i) (debug_frame_ i) (elf_symbols_ i) (start_offset_ i) (total_entries_ i)
    (addrs_ i).
Definition set_dynamic (x : Range) (i : ElfInterface) : ElfInterface :=
  mkInterface (kind i) (elf_memory_ i) (pt_loads_ i) x (eh_frame_range i) (debug_frame_range i) (gnu_debugdata_ i)
    (soname_type_ i) (soname_ i) (eh_frame_ i) (debug_frame_ i) (elf_symbols_ i) (start_offset_ i) (total_entries_ i)
    (addrs_ i).
Definition set_eh_frame_range (x : Range) (i : ElfInterface) : ElfInterface :=
  mkInterface (kind i) (elf_memory_ i) (pt_loads_ i) (dynamic_ i) x (debug_frame_range i) (gnu_debugdata_ i)
    (soname_type_ i) (soname_ i) (eh_frame_ i) (debug_frame_ i) (elf_symbols_ i) (start_offset_ i) (total_entries_ i)
    (addrs_ i).
Definition set_debug_frame_range (x : Range) (i : ElfInterface) : ElfInterface :=
  mkInterface (kind i) (elf_memory_ i) (pt_loads_ i) (dynamic_ i) (eh_frame_range i) x (gnu_debugdata_ i)
    (soname_type_ i) (soname_ i) (eh_frame_ i) (debug_frame_ i) (elf_symbols_ i) (start_offset_ i) (total_entries_ i)
    (addrs_ i).
Definition set_gnu_debugdata (x : Range) (i : ElfInterface) : ElfInterface :=
  mkInterface (kind i) (elf_memory_ i) (pt_loads_ i) (dynamic_ i) (eh_frame_range i) (debug_frame_range i) x
    (soname_type_ i) (soname_ i) (eh_frame_ i) (debug_frame_ i) (elf_symbols_ i) (start_offset_ i) (total_entries_ i)
    (addrs_ i).
Definition set_soname_type (x : SonameType) (i : ElfInterface) : ElfInterface :=
  mkInterface (kind i) (elf_memory_ i) (pt_loads_ i) (dynamic_ i) (eh_frame_range i) (debug_frame_range i)
    (gnu_debugdata_ i) x (soname_ i) (eh_frame_ i) (debug_frame_ i) (elf_symbols_ i) (start_offset_ i) (total_entries_
    i) (addrs_ i).
Definition set_soname (x : list Z) (i : ElfInterface) : ElfInterface :=
  mkInterface (kind i) (elf_memory_ i) (pt_loads_ i) (dynamic_ i) (eh_frame_range i) (debug_frame_range i)
    (gnu_debugdata_ i) (soname_type_ i) x (eh_frame_ i) (debug_frame_ i) (elf_symbols_ i) (start_offset_ i)
    (total_entries_ i) (addrs_ i).
Definition set_eh_frame (x : option (DwarfSection EhFrame)) (i : ElfInterface) : ElfInterface :=
  mkInterface (kind i) (elf_memory_ i) (pt_loads_ i) (dynamic_ i) (eh_frame_range i) (debug_frame_range i)
    (gnu_debugdata_ i) (soname_type_ i) (soname_ i) x (debug_frame_ i) (elf_symbols_ i) (start_offset_ i)
    (total_entries_ i) (addrs_ i).
Definition set_debug_frame (x : option (DwarfSection DebugFrame)) (i : ElfInterface) : ElfInterface :=
  mkInterface (kind i) (elf_memory_ i) (pt_loads_ i) (dynamic_ i) (eh_frame_range i) (debug_frame_range i)
    (gnu_debugdata_ i) (soname_type_ i) (soname_ i) (eh_frame_ i) x (elf_symbols_ i) (start_offset_ i) (total_entries_
    i) (addrs_ i).
Definition set_elf_symbols (x : list Symbols) (i : ElfInterface) : ElfInterface :=
  mkInterface (kind i) (elf_memory_ i) (pt_loads_ i) (dynamic_ i) (eh_frame_range i) (debug_frame_range i)
    (gnu_debugdata_ i) (soname_type_ i) (soname_ i) (eh_frame_ i) (debug_frame_ i) x (start_offset_ i) (total_entries_
    i) (addrs_ i).
Definition set_start_offset (x : Z) (i : ElfInterface) : ElfInterface :=
  mkInterface (kind i) (elf_memory_ i) (pt_loads_ i) (dynamic_ i) (eh_frame_range i) (debug_frame_range i)
    (gnu_debugdata_ i) (soname_type_ i) (soname_ i) (eh_frame_ i) (debug_frame_ i) (elf_symbols_ i) x (total_entries_
    i) (addrs_ i).
Definition set_total_entries (x : Z) (i : ElfInterface) : ElfInterface :=
  mkInterface (kind i) (elf_memory_ i) (pt_loads_ i) (dynamic_ i) (eh_frame_range i) (debug_frame_range i)
    (gnu_debugdata_ i) (soname_type_ i) (soname_ i) (eh_frame_ i) (debug_frame_ i) (elf_symbols_ i) (start_offset_ i)
    x (addrs_ i).
Definition set_addrs (x : gmap Z Z) (i : ElfInterface) : ElfInterface :=
  mkInterface (kind i) (elf_memory_ i) (pt_loads_ i) (dynamic_ i) (eh_frame_range i) (debug_frame_range i)
    (gnu_debugdata_ i) (soname_type_ i) (soname_ i) (eh_frame_ i) (debug_frame_ i) (elf_symbols_ i) (start_offset_ i)
    (total_entries_ i) x.

Section Interface.
Context {Env : Environment}.

Local Abbreviation I := ElfInterface.

(** ** Program headers *)

(** ElfInterfaceArm::HandleType *)
Definition HandleType_Arm (offset type load_bias : Z) : M I bool :=
  if negb (type =? PT_ARM_EXIDX) then ret false
  else
    mem <- get elf_memory_ ;;
    match read_field mem offset (p_vaddr uint32_t), read_field mem offset (p_memsz uint32_t) with
    | Some vaddr, Some memsz =>
        modify (set_start_offset (u64 (vaddr - load_bias))) ;;
        modify (set_total_entries (memsz / 8)) ;;
        ret true
    | _, _ => ret true
    end.

(** The virtual call. *)
Definition HandleType (offset type load_bias : Z) : M I bool :=
  k <- get kind ;;
  match k with
  | ElfInterfaceArm => HandleType_Arm offset type load_bias
  | _ => ret false
  end.

(** A reader of a field that makes the caller return false. *)
Definition read_header {A} (offset : Z) (f : field) (k : Z -> M I (option A)) : M I (option A) :=
  mem <- get elf_memory_ ;;
  match read_field mem offset f with
  | Some v => k v
  | None => ret None
  end.

(** One program header, and [*load_bias] behind it; [None] for the return of
    false, which leaves [*load_bias] as it was. *)
Definition ReadProgramHeader (AT : AddressType) (offset load_bias : Z) : M I (option Z) :=
  read_header offset p_type (fun type =>
    handled <- HandleType offset type load_bias ;;
    if handled : bool then ret (Some load_bias)
    else if type =? PT_LOAD then
      read_header offset (p_flags AT) (fun flags =>
        if Z.land flags PF_X =? 0 then ret (Some load_bias)
        else
          read_header offset (p_vaddr AT) (fun vaddr =>
            read_header offset (p_offset AT) (fun off =>
              read_header offset (p_memsz AT) (fun memsz =>
                modify (fun i => set_pt_loads (<[off := mkLoadInfo off vaddr memsz]> (pt_loads_ i)) i) ;;
                ret (Some (if off =? 0 then vaddr else load_bias))))))
    else if type =? PT_GNU_EH_FRAME then
      read_header offset (p_offset AT) (fun off =>
        modify (fun i => set_eh_frame_range (mkRangeOf off (range_size (eh_frame_range i))) i) ;;
        read_header offset (p_memsz AT) (fun memsz =>
          modify (set_eh_frame_range (mkRangeOf off memsz)) ;;
          ret (Some load_bias)))
    else if type =? PT_DYNAMIC then
      read_header offset (p_offset AT) (fun off =>
        modify (fun i => set_dynamic (mkRangeOf off (range_size (dynamic_ i))) i) ;;
        read_header offset (p_memsz AT) (fun memsz =>
          modify (set_dynamic (mkRangeOf off memsz)) ;;
          ret (Some load_bias)))
    else ret (Some load_bias)).

(** The loop, with the number of headers left; the result is the returned value
    and [*load_bias]. *)
Fixpoint ReadProgramHeaders_loop (AT : AddressType) (n : nat) (offset phentsize load_bias : Z) : M I (bool * Z) :=
  match n with
  | O => ret (true, load_bias)
  | S n =>
      let? load_bias' := ReadProgramHeader AT offset load_bias else ret (false, load_bias) in
      ReadProgramHeaders_loop AT n (u64 (offset + phentsize)) phentsize load_bias'
  end.

Definition ReadProgramHeaders (AT : AddressType) (ehdr : list Z) (load_bias : Z) : M I (bool * Z) :=
  ReadProgramHeaders_loop AT (Z.to_nat (field_of (e_phnum AT) ehdr)) (field_of (e_phoff AT) ehdr)
    (field_of (e_phentsize AT) ehdr) load_bias.

(** ** Section headers *)

(** ".debug_frame" and ".gnu_debugdata" *)
Definition debug_frame_name : list Z := [46; 100; 101; 98; 117; 103; 95; 102; 114; 97; 109; 101].
Definition gnu_debugdata_name : list Z := [46; 103; 110; 117; 95; 100; 101; 98; 117; 103; 100; 97; 116; 97].

(** [memory_->ReadString(addr, &string)]: [None] for false. *)
Definition read_string (addr : Z) : M I (option (list Z)) := fun i =>
  outcome_map (fun '(ok, string) => (if ok : bool then Some string else None, i))
    (ReadString (elf_memory_ i) fuel addr UINT64_MAX).

(** A symbol table and its strings. *)
Definition ReadSymbolTable (AT : AddressType) (ehdr : list Z) (offset : Z) : M I bool :=
  mem <- get elf_memory_ ;;
  match Read mem offset (sizeof_Shdr AT) with
  | None => ret false
  | Some shdr =>
      if field_of (e_shnum AT) ehdr <=? field_of (sh_link AT) shdr then ret false
      else
        let str_offset := uwrap (bits AT) (field_of (e_shoff AT) ehdr +
                            u32 (field_of (sh_link AT) shdr * field_of (e_shentsize AT) ehdr)) in
        match read_field mem str_offset sh_type with
        | None => ret false
        | Some str_type =>
            if negb (str_type =? SHT_STRTAB) then ret false
            else match read_field mem str_offset (sh_offset AT), read_field mem str_offset (sh_size AT) with
                 | Some str_table, Some str_size =>
                     modify (fun i => set_elf_symbols (elf_symbols_ i ++
                       [new_Symbols (field_of (sh_offset AT) shdr) (field_of (sh_size AT) shdr)
                          (field_of (sh_entsize AT) shdr) str_table str_size]) i) ;;
                     ret true
                 | _, _ => ret false
                 end
        end
  end.

(** A section that may be .debug_frame or .gnu_debugdata, by its name. *)
Definition ReadNamedSection (AT : AddressType) (offset sec_offset sec_size : Z) : M I bool :=
  mem <- get elf_memory_ ;;
  match read_field mem offset sh_name with
  | None => ret false
  | Some name_offset =>
      if name_offset <? sec_size then
        name <- read_string (u64 (sec_offset + name_offset)) ;;
        let range := match read_field mem offset (sh_offset AT), read_field mem offset (sh_size AT) with
                     | Some off, Some size => Some (mkRangeOf off size)
                     | _, _ => None
                     end in
        match name, range with
        | Some name, Some range =>
            (if bool_decide (name = debug_frame_name) then modify (set_debug_frame_range range)
             else if bool_decide (name = gnu_debugdata_name) then modify (set_gnu_debugdata range)
             else ret tt) ;;
            ret true
        | _, _ => ret true
        end
      else ret true
  end.

Definition ReadSectionHeader (AT : AddressType) (ehdr : list Z) (offset sec_offset sec_size : Z) : M I bool :=
  mem <- get elf_memory_ ;;
  match read_field mem offset sh_type with
  | None => ret false
  | Some type =>
      if (type =? SHT_SYMTAB) || (type =? SHT_DYNSYM) then ReadSymbolTable AT ehdr offset
      else if (type =? SHT_PROGBITS) && negb (sec_size =? 0) then ReadNamedSection AT offset sec_offset sec_size
      else ret true
  end.

Fixpoint ReadSectionHeaders_loop (AT : AddressType) (ehdr : list Z) (n : nat) (offset sec_offset sec_size : Z) :
    M I bool :=
  match n with
  | O => ret true
  | S n =>
      call? ReadSectionHeader AT ehdr offset sec_offset sec_size else ret false in
      ReadSectionHeaders_loop AT ehdr n (u64 (offset + field_of (e_shentsize AT) ehdr)) sec_offset sec_size
  end.

(** The section with the names of the sections; the product is an int. *)
Definition section_names (AT : AddressType) (ehdr : list Z) : M I Range :=
  mem <- get elf_memory_ ;;
  if field_of (e_shstrndx AT) ehdr <? field_of (e_shnum AT) ehdr then
    let product := field_of (e_shstrndx AT) ehdr * field_of (e_shentsize AT) ehdr in
    require (fits_signed 32 product) ;;
    let sh := u64 (field_of (e_shoff AT) ehdr + product) in
    match read_field mem sh (sh_offset AT), read_field mem sh (sh_size AT) with
    | Some off, Some size => ret (mkRangeOf off size)
    | _, _ => ret (mkRangeOf 0 0)
    end
  else ret (mkRangeOf 0 0).

Definition ReadSectionHeaders (AT : AddressType) (ehdr : list Z) : M I bool :=
  names <- section_names AT ehdr ;;
  ReadSectionHeaders_loop AT ehdr (Z.to_nat (field_of (e_shnum AT) ehdr - 1))
    (u64 (field_of (e_shoff AT) ehdr + field_of (e_shentsize AT) ehdr)) (range_offset names) (range_size names).

Definition ReadAllHeaders (AT : AddressType) (load_bias : Z) : M I (bool * Z) :=
  mem <- get elf_memory_ ;;
  match Read mem 0 (sizeof_Ehdr AT) with
  | None => ret (false, load_bias)
  | Some ehdr =>
      r <- ReadProgramHeaders AT ehdr load_bias ;;
      if fst r then
        _ <- ReadSectionHeaders AT ehdr ;;
        ret (true, snd r)
      else ret (false, snd r)
  end.

(** ** The unwinding sections *)

(** [eh_frame_.reset(new DwarfEhFrame(memory_)); if (!eh_frame_->Init(...)) ...] *)
Definition InitEhFrame (AT : AddressType) : M I unit :=
  range <- get eh_frame_range ;;
  if negb (range_offset range =? 0) then
    mem <- get elf_memory_ ;;
    r <- (fun i => outcome_map (fun r => (r, i))
           (EhFrame_Init AT mem (range_offset range) (range_size range) (new_DwarfSection new_EhFrame))) ;;
    if fst r then modify (set_eh_frame (Some (snd r)))
    else modify (set_eh_frame None) ;; modify (set_eh_frame_range (mkRangeOf 0 UINT64_MAX))
  else ret tt.

Definition InitDebugFrame (AT : AddressType) : M I unit :=
  range <- get debug_frame_range ;;
  if negb (range_offset range =? 0) then
    mem <- get elf_memory_ ;;
    r <- (fun i => outcome_map (fun r => (r, i))
           (DebugFrame_Init AT mem sort_fdes fuel (range_offset range) (range_size range)
              (new_DwarfSection new_DebugFrame))) ;;
    if fst r then modify (set_debug_frame (Some (snd r)))
    else modify (set_debug_frame None) ;; modify (set_debug_frame_range (mkRangeOf 0 UINT64_MAX))
  else ret tt.

(** InitHeadersWithTemplate *)
Definition InitHeaders (AT : AddressType) : M I unit := InitEhFrame AT ;; InitDebugFrame AT.

(** A call of a method of one of the sections: nothing happens when the pointer
    is null. *)
Definition step_section {X} (section : I -> option (DwarfSection X)) (store : option (DwarfSection X) -> I -> I)
    (step : Memory -> M (DwarfSection X) (option bool * Regs)) (regs : Regs) : M I (option bool * Regs) := fun i =>
  match section i with
  | None => Ok ((None, regs), i)
  | Some s => outcome_map (fun '(r, s') => (r, store (Some s') i)) (step (elf_memory_ i) s)
  end.

(** ElfInterface::Step: [*finished], or [None] for false, and the registers. *)
Definition DwarfInterface_Step (AT : AddressType) (pc : Z) (process_memory : Memory) (regs : Regs) :
    M I (option bool * Regs) :=
  r <- step_section eh_frame_ set_eh_frame
         (fun mem => Step (V := EhFrame_section AT mem fuel) AT mem torn_word map_order fuel pc process_memory regs) regs ;;
  match r with
  | (Some finished, regs) => ret (Some finished, regs)
  | (None, regs) =>
      step_section debug_frame_ set_debug_frame
        (fun mem => Step (V := DebugFrame_section) AT mem torn_word map_order fuel pc process_memory regs) regs
  end.

(** ** The exception tables of ARM *)

(** [addrs_[index]], which inserts a zero for an index it does not have. *)
Definition addr_at (index : Z) : M I Z :=
  a <- get (fun i => default 0 (addrs_ i !! index)) ;;
  modify (fun i => set_addrs (<[index := a]> (addrs_ i)) i) ;;
  ret a.

(** The shift of the source goes through a signed integer. *)
Definition GetPrel31Addr (offset : Z) : M I (option Z) :=
  mem <- get elf_memory_ ;;
  match Read32 mem offset with
  | None => ret None
  | Some data => ret (Some (u32 (offset + prel31 data)))
  end.

(** The address of an entry, from the cache or from the file. *)
Definition entry_addr (start_offset current : Z) : M I (option Z) :=
  addr <- addr_at current ;;
  if addr =? 0 then
    let? addr := GetPrel31Addr (u32 (start_offset + current * 8)) else ret None in
    modify (fun i => set_addrs (<[current := addr]> (addrs_ i)) i) ;;
    ret (Some addr)
  else ret (Some addr).

(** The dereference of an iterator over the addresses. *)
Definition iterator_value (index : Z) : M I Z :=
  start_offset <- get start_offset_ ;;
  let? addr := entry_addr start_offset index else ret 0 in
  ret addr.

(** One round of the bisection; it ends with the returned value, or with [last]
    for the code behind the loop. *)
Definition FindEntry_round (start_offset pc : Z) (l : Z * Z) : M I (Z * Z + (Z + option Z)) :=
  let '(first, last) := l in
  if first <? last then
    let current := u64 (first + last) / 2 in
    let? addr := entry_addr start_offset current else ret (inr (inr None)) in
    if pc =? addr then ret (inr (inr (Some (u64 (start_offset + current * 8)))))
    else if pc <? addr then ret (inl (first, current))
    else ret (inl (u64 (current + 1), last))
  else ret (inr (inl last)).

(** The number of entries comes from a 32-bit size; it is halved at most 64
    times. *)
Definition FindEntry (pc : Z) : M I (option Z) :=
  start_offset <- get start_offset_ ;;
  total_entries <- get total_entries_ ;;
  if (start_offset =? 0) || (total_entries =? 0) then ret None
  else
    r <- iter 65 (FindEntry_round start_offset pc) (0, total_entries) ;;
    match r with
    | inr result => ret result
    | inl last => if negb (last =? 0) then ret (Some (u64 (start_offset + (last - 1) * 8))) else ret None
    end.

(** [arm.ExtractEntryData(entry_offset) && arm.Eval()], and the object behind
    it. *)
Definition run_exidx (elf_memory process_memory : Memory) (entry_offset : Z) : M ArmExidx bool :=
  call? ExtractEntryData elf_memory (u32 entry_offset) else ret false in
  ArmExidx.Eval process_memory torn_word.

(** The registers behind a successful evaluation. *)
Definition exidx_regs (arm : ArmExidx) : Regs :=
  let regs := arm_regs_ arm in
  let regs := if pc_set_ arm then set_pc (reg regs ARM_REG_PC) regs
              else let regs := set_pc (reg regs ARM_REG_LR) regs in set_reg ARM_REG_PC (pc_ regs) regs in
  let regs := set_sp (cfa_ arm) regs in
  set_reg ARM_REG_SP (sp_ regs) regs.

(** The cast to RegsArm is undefined for the registers of another machine. *)
Definition StepExidx (pc : Z) (process_memory : Memory) (regs : Regs) : M I (option bool * Regs) :=
  require (bool_decide (machine regs = Arm)) ;;
  let? entry_offset := FindEntry (u32 pc) else ret (None, regs) in
  mem <- get elf_memory_ ;;
  r <- (fun i => outcome_map (fun r => (r, i))
         (run_exidx mem process_memory entry_offset (set_cfa_ (sp_ regs) (new_ArmExidx regs)))) ;;
  let '(ok, arm) := r in
  let regs := if ok : bool then exidx_regs arm else arm_regs_ arm in
  if bool_decide (status_ arm = ARM_STATUS_NO_UNWIND) then ret (Some true, regs)
  else if ok : bool then ret (Some (pc_ regs =? 0), regs)
  else ret (None, regs).

Definition ElfInterfaceArm_Step (pc : Z) (process_memory : Memory) (regs : Regs) : M I (option bool * Regs) :=
  r <- DwarfInterface_Step uint32_t pc process_memory regs ;;
  match r with
  | (Some finished, regs) => ret (Some finished, regs)
  | (None, regs) => StepExidx pc process_memory regs
  end.

(** The virtual call. *)
Definition Interface_Step (pc : Z) (process_memory : Memory) (regs : Regs) : M I (option bool * Regs) :=
  k <- get kind ;;
  match k with
  | ElfInterfaceArm => ElfInterfaceArm_Step pc process_memory regs
  | _ => DwarfInterface_Step (kind_class k) pc process_memory regs
  end.

(** ** The name of the shared object *)

(** What the dynamic section says so far: DT_SONAME, DT_STRTAB, DT_STRSZ. *)
Definition dynamic_info : Type := Z * Z * Z.

(** One round over the dynamic section; it ends with [None] when a Read fails. *)
Definition GetSoname_round (AT : AddressType) (mem : Memory) (max_offset : Z) (l : Z * dynamic_info) :
    M I (Z * dynamic_info + option dynamic_info) :=
  let '(offset, info) := l in
  let '(soname_offset, strtab_offset, strtab_size) := info in
  if offset <? max_offset then
    match Read mem offset (sizeof_Dyn AT) with
    | None => ret (inr None)
    | Some dyn =>
        let tag := field_of (d_tag AT) dyn in
        let value := field_of (d_un AT) dyn in
        let next := u64 (offset + sizeof_Dyn AT) in
        if tag =? DT_STRTAB then ret (inl (next, (soname_offset, value, strtab_size)))
        else if tag =? DT_STRSZ then ret (inl (next, (soname_offset, strtab_offset, value)))
        else if tag =? DT_SONAME then ret (inl (next, (value, strtab_offset, strtab_size)))
        else if tag =? DT_NULL then ret (inr (Some info))
        else ret (inl (next, info))
    end
  else ret (inr (Some info)).

(** GetSonameWithTemplate: the name, [None] for false. *)
Definition GetSoname (AT : AddressType) : M I (option (list Z)) :=
  type <- get soname_type_ ;;
  match type with
  | SONAME_INVALID => ret None
  | SONAME_VALID => soname <- get soname_ ;; ret (Some soname)
  | SONAME_UNKNOWN =>
      modify (set_soname_type SONAME_INVALID) ;;
      mem <- get elf_memory_ ;;
      dynamic <- get dynamic_ ;;
      let max_offset := u64 (range_offset dynamic + range_size dynamic) in
      let? info := iter fuel (GetSoname_round AT mem max_offset) (range_offset dynamic, (0, 0, 0)) else ret None in
      let '(soname_offset, strtab_offset, strtab_size) := info in
      let soname_offset := u64 (soname_offset + strtab_offset) in
      if u64 (strtab_offset + strtab_size) <=? soname_offset then ret None
      else
        name <- (fun i => outcome_map (fun '(ok, string) => (if ok : bool then Some string else None, set_soname string i))
                   (ReadString mem fuel soname_offset UINT64_MAX)) ;;
        match name with
        | None => ret None
        | Some name => modify (set_soname_type SONAME_VALID) ;; ret (Some name)
        end
  end.

(** ** Names of functions *)

(** The loop over the symbol tables: the tables with what they cached, and the
    name and the offset in the function. *)
Fixpoint GetFunctionName_loop (T : SymType) (mem : Memory) (addr load_bias : Z) (symbols : list Symbols) :
    outcome (option (list Z * Z) * list Symbols) :=
  match symbols with
  | [] => Ok (None, [])
  | s :: symbols' =>
      match GetName T mem sort_symbols fuel addr load_bias s with
      | Ok (mkName true (Some name) (Some func_offset), s') => Ok (Some (name, func_offset), s' :: symbols')
      | Ok (_, s') =>
          outcome_map (fun '(r, symbols'') => (r, s' :: symbols'')) (GetFunctionName_loop T mem addr load_bias symbols')
      | Abort => Abort
      | Undef => Undef
      | NoFuel => NoFuel
      end
  end.

(** GetFunctionNameWithTemplate *)
Definition GetFunctionName (AT : AddressType) (addr load_bias : Z) : M I (option (list Z * Z)) := fun i =>
  outcome_map (fun '(r, symbols) => (r, set_elf_symbols symbols i))
    (GetFunctionName_loop (sym_type AT) (elf_memory_ i) addr load_bias (elf_symbols_ i)).

(** ** The size of the file *)

(** GetMaxSizeWithTemplate: what [*size] becomes, [None] when it is not written.
    The product is an int, the sum has the type of [e_shoff]. *)
Definition GetMaxSize (AT : AddressType) (memory : Memory) : outcome (option Z) :=
  match Read memory 0 (sizeof_Ehdr AT) with
  | None => Ok None
  | Some ehdr =>
      if field_of (e_shnum AT) ehdr =? 0 then Ok None
      else
        let product := field_of (e_shentsize AT) ehdr * field_of (e_shnum AT) ehdr in
        if fits_signed 32 product then Ok (Some (uwrap (bits AT) (field_of (e_shoff AT) ehdr + product))) else Undef
  end.

(** ** .gnu_debugdata *)

(** The local variables of the loop: the decoder, the rest of the source, the
    destination and how much of it is written. *)
Definition unpack_locals : Type := xz_state * list Z * MemoryBuffer * Z.

(** One call of the decoder, which writes at [dst_offset]; the buffer grows
    first when little of it is left.  The loop ends with [return_val == SZ_OK]. *)
Definition unpack_round (size : Z) (l : unpack_locals) : M I (unpack_locals + bool * xz_state * MemoryBuffer * Z) :=
  let '(state, src, dst, dst_offset) := l in
  let dst_remaining := u64 (MemoryBuffer_Size dst - dst_offset) in
  let '(dst, dst_remaining) :=
    if dst_remaining <? u64 (2 * size)
    then (MemoryBuffer_Resize dst (u64 (MemoryBuffer_Size dst + 2 * size)), u64 (dst_remaining + 2 * size))
    else (dst, dst_remaining) in
  let '(state, sz_ok, not_finished, out, consumed) := XzUnpacker_Code state dst_remaining src in
  let dst := mkMemoryBuffer (take (Z.to_nat dst_offset) (raw_ dst) ++ out ++
                             drop (Z.to_nat dst_offset + length out) (raw_ dst)) in
  let dst_offset := u64 (dst_offset + lengthZ out) in
  let src := drop (Z.to_nat consumed) src in
  if sz_ok && not_finished then ret (inl (state, src, dst, dst_offset))
  else ret (inr (sz_ok, state, dst, dst_offset)).

Definition CreateGnuDebugdataMemory : M I (option Memory) :=
  range <- get gnu_debugdata_ ;;
  let failed := modify (set_gnu_debugdata (mkRangeOf 0 UINT64_MAX)) ;; ret None in
  if (range_offset range =? 0) || (range_size range =? 0) then ret None
  else
    mem <- get elf_memory_ ;;
    match Read mem (range_offset range) (range_size range) with
    | None => failed
    | Some src =>
        let dst := MemoryBuffer_Resize (mkMemoryBuffer []) (u64 (5 * range_size range)) in
        r <- iter fuel (unpack_round (range_size range)) (XzUnpacker_Construct, src, dst, 0) ;;
        let '(sz_ok, state, dst, dst_offset) := r in
        if negb sz_ok || negb (XzUnpacker_IsStreamWasFinished state) then failed
        else ret (Some (buffer_memory (MemoryBuffer_Resize dst dst_offset)))
    end.

End Interface.
