(* ===== verification/ElfInterfaceSpec.v ===== *)
(** * ElfInterfaceSpec: the readers of ELF files and the ARM step

    The bisection of the ARM exception table, one step out of a frame through
    it, and the program headers. *)

From S2P Require Import Prelude Memory DwarfMemory Regs DwarfCfa DwarfSection DwarfEhFrame DwarfDebugFrame ArmExidx ArmExidxSpec Symbols ElfInterface.

(** ** The index of exceptions *)

(** The number of the entries that do not start behind [pc]. *)
Definition entries_up_to (pc : Z) (addrs : list Z) : nat := length (filter (fun a => a <= pc) addrs).

Lemma entries_up_to_split pc addrs k : (k <= length addrs)%nat ->
  (forall i a, (i < k)%nat -> addrs !! i = Some a -> a <= pc) ->
  (forall i a, (k <= i)%nat -> addrs !! i = Some a -> pc < a) -> entries_up_to pc addrs = k.
Proof.
  intros Hk Hlow Hhigh. unfold entries_up_to. rewrite <- (take_drop k addrs), filter_app.
  rewrite filter_all, filter_none, app_nil_r, length_take_le; [done|done|..].
  - apply Forall_lookup. intros i a. rewrite lookup_drop. intros Ha. pose proof (Hhigh (k + i)%nat a ltac:(lia) Ha). lia.
  - apply Forall_lookup. intros i a Ha. apply lookup_take_Some in Ha as [Ha Hi]. by eapply Hlow.
Qed.

Section Index.
Context {Env : Environment} (start : Z) (addrs : list Z) (pc : Z).
Implicit Types i : ElfInterface.

(** The memory has the 31-bit distances to [addrs] in an index at [start]. *)
Definition index_at (mem : Memory) : Prop :=
  forall k a, addrs !! k = Some a ->
    exists data, Read32 mem (u32 (start + Z.of_nat k * 8)) = Some data /\
                 u32 (u32 (start + Z.of_nat k * 8) + prel31 data) = a.

(** The cache agrees with the index; a zero stands for no value. *)
Definition cache_ok i : Prop :=
  forall k v, addrs_ i !! Z.of_nat k = Some v -> v = 0 \/ addrs !! k = Some v.

Definition ascending : Prop := forall k l a b, (k < l)%nat -> addrs !! k = Some a -> addrs !! l = Some b -> a < b.

(** Only the cache changes. *)
Definition same_but_cache i i' : Prop := i' = set_addrs (addrs_ i') i.

Lemma entry_addr_spec k a i : index_at (elf_memory_ i) -> cache_ok i -> addrs !! k = Some a ->
  exists i', entry_addr start (Z.of_nat k) i = Ok (Some a, i') /\ same_but_cache i i' /\ cache_ok i'.
Proof.
  intros Hi Hc Ha. destruct (Hi k a Ha) as (data & Hr & Hd). unfold entry_addr, addr_at, bind at 1 2, get.
  assert (forall v, v = 0 \/ v = a -> cache_ok (set_addrs (<[Z.of_nat k := v]> (addrs_ i)) i)) as Hins.
  { intros v Hv k' v'. simpl. rewrite lookup_insert_Some. intros [[Hk ->]|[_ H']]; [|by apply Hc].
    apply Nat2Z.inj in Hk as ->. destruct Hv as [ | ->]; [by left|by right]. }
  assert (default 0 (addrs_ i !! Z.of_nat k) = 0 \/ default 0 (addrs_ i !! Z.of_nat k) = a) as Hv.
  { destruct (addrs_ i !! Z.of_nat k) as [v|] eqn:E; simpl; [|by left]. destruct (Hc k v E) as [|H']; [by left|].
    right. congruence. }
  unfold bind, modify, ret. destruct (default 0 _ =? 0) eqn:E0.
  - unfold GetPrel31Addr, bind, get. cbn [elf_memory_ set_addrs]. rewrite Hr, Hd. unfold ret. eexists. split; [done|].
    split; [by destruct i|]. cbn [addrs_ set_addrs]. rewrite insert_insert_eq. apply (Hins a). by right.
  - apply Z.eqb_neq in E0. destruct Hv as [|Hv]; [done|]. rewrite Hv. eexists. split; [done|].
    split; [by destruct i|]. rewrite <- Hv. by apply Hins; right.
Qed.

Context (Hasc : ascending) (Hlen : lengthZ addrs < 2 ^ 63).

(** Every entry before [first] starts before the pc, every one from [last] on
    behind it. *)
Record searching i0 (fl : Z * Z) i : Prop := {
  searching_frame : same_but_cache i0 i /\ cache_ok i;
  searching_range : 0 <= fl.1 <= fl.2 /\ fl.2 <= lengthZ addrs;
  searching_low k a : Z.of_nat k < fl.1 -> addrs !! k = Some a -> a < pc;
  searching_high k a : fl.2 <= Z.of_nat k -> addrs !! k = Some a -> pc < a
}.

(** The offset of the entry in front of index [k]. *)
Definition entry_before (k : nat) : option Z :=
  match k with O => None | S k' => Some (u64 (start + Z.of_nat k' * 8)) end.

Definition searched i0 (r : Z + option Z) i : Prop :=
  same_but_cache i0 i /\ cache_ok i /\
  match r with
  | inr result => result = entry_before (entries_up_to pc addrs)
  | inl last => last = Z.of_nat (entries_up_to pc addrs)
  end.

Lemma same_but_cache_trans i1 i2 i3 : same_but_cache i1 i2 -> same_but_cache i2 i3 -> same_but_cache i1 i3.
Proof. unfold same_but_cache. intros H1 H2. rewrite H2 at 1. by rewrite H1. Qed.

Lemma wp_FindEntry_round i0 fl i : index_at (elf_memory_ i0) -> searching i0 fl i ->
  wp nothing (FindEntry_round start pc fl) (fun r i' => match r with
    | inl fl' => searching i0 fl' i' /\ (halvings (fl'.2 - fl'.1) < halvings (fl.2 - fl.1))%nat
    | inr r => searched i0 r i' end) i.
Proof.
  intros Hindex [[Hf Hok] Hr Hlow Hhigh]. destruct fl as [first last]. simpl in *. unfold FindEntry_round.
  destruct (Z.ltb_spec first last) as [Hlt|Hge].
  2: { apply wp_ret. split_and!; [done|done|]. assert (first = last) as -> by lia.
       rewrite (entries_up_to_split pc addrs (Z.to_nat last)); [lia|unfold lengthZ in *; lia|..].
       - intros k a Hk Ha. pose proof (Hlow k a ltac:(lia) Ha). lia.
       - intros k a Hk Ha. apply (Hhigh k a); [lia|done]. }
  destruct (bisect first last) as (Hc & Hc1 & Hm1 & Hm2); [lia|lia|].
  set (current := u64 (first + last) / 2) in *. clearbody current.
  destruct (addrs !! Z.to_nat current) as [a|] eqn:Ea; [|apply lookup_ge_None in Ea; unfold lengthZ in *; lia].
  assert (index_at (elf_memory_ i)) as Hindex' by (by rewrite Hf).
  destruct (entry_addr_spec (Z.to_nat current) a i Hindex' Hok Ea) as (i' & E & Hf' & Hok').
  rewrite Z2Nat.id in E by lia. assert (same_but_cache i0 i') as Hf0 by (by eapply same_but_cache_trans).
  apply wp_bind. unfold wp at 1. rewrite E.
  destruct (Z.eqb_spec pc a) as [Heq|Hne].
  - apply wp_ret. split_and!; [done|done|]. rewrite (entries_up_to_split pc addrs (S (Z.to_nat current))).
    + simpl. by rewrite Z2Nat.id by lia.
    + apply lookup_lt_Some in Ea. lia.
    + intros k b Hk Hb. destruct (decide (k = Z.to_nat current)) as [->|]; [simplify_eq; lia|].
      pose proof (Hasc k (Z.to_nat current) b a ltac:(lia) Hb Ea). lia.
    + intros k b Hk Hb. rewrite Heq. by apply (Hasc (Z.to_nat current) k).
  - destruct (Z.ltb_spec pc a); apply wp_ret; rewrite ?Hc1; (split; [|done]); split; simpl; try done; try lia.
    + intros k b Hk Hb. destruct (decide (k = Z.to_nat current)) as [->|]; [by simplify_eq|].
      pose proof (Hasc (Z.to_nat current) k a b ltac:(lia) Ea Hb). lia.
    + intros k b Hk Hb. destruct (decide (k = Z.to_nat current)) as [->|]; [simplify_eq; lia|].
      pose proof (Hasc k (Z.to_nat current) b a ltac:(lia) Hb Ea). lia.
Qed.

Lemma FindEntry_spec i : start_offset_ i = start -> total_entries_ i = lengthZ addrs -> start <> 0 ->
  index_at (elf_memory_ i) -> cache_ok i ->
  exists i', FindEntry pc i = Ok (entry_before (entries_up_to pc addrs), i') /\ same_but_cache i i' /\ cache_ok i'.
Proof.
  intros Hs Ht Hne Hindex Hok. unfold FindEntry, bind at 1 2, get. rewrite Hs, Ht, (proj2 (Z.eqb_neq start 0)) by done.
  simpl orb. destruct (Z.eqb_spec (lengthZ addrs) 0) as [E|E].
  { destruct addrs; [|unfold lengthZ in *; simpl in *; lia]. exists i. split_and!; [done|by destruct i|done]. }
  destruct (wp_total (iter 65 (FindEntry_round start pc) (0, lengthZ addrs)) (searched i) i) as (r & i' & Hit & Hf & Hc & Hr).
  { apply (wp_iter nothing _ (searching i) (fun fl _ => halvings (fl.2 - fl.1))).
    - intros fl i' Hfl. by apply wp_FindEntry_round.
    - pose proof (lengthZ_nonneg addrs). split; simpl; [split; [by destruct i|done]|lia|lia|].
      intros k a Hk Ha%lookup_lt_Some. unfold lengthZ in *. lia.
    - simpl. pose proof (halvings_bound (lengthZ addrs - 0) ltac:(lia)). lia. }
  cbn [orb]. unfold bind. rewrite Hit. destruct r as [last|result]; [|subst result; by exists i'].
  subst last. destruct (entries_up_to pc addrs) as [|k]; [by exists i'|].
  rewrite (proj2 (Z.eqb_neq _ 0)) by lia. replace (Z.of_nat (S k) - 1) with (Z.of_nat k) by lia. by exists i'.
Qed.

End Index.

(** For an index in ascending order, [FindEntry] bisects to the last entry
    that does not start behind the pc, and finds nothing in front of the first
    one.  The addresses go through a cache that keeps agreeing with the index;
    nothing else changes. *)
Theorem FindEntry_correct {Env : Environment} start addrs pc i :
  ascending addrs -> lengthZ addrs < 2 ^ 63 -> start_offset_ i = start -> total_entries_ i = lengthZ addrs -> start <> 0 ->
  index_at start addrs (elf_memory_ i) -> cache_ok addrs i ->
  exists i', FindEntry pc i = Ok (entry_before start (entries_up_to pc addrs), i') /\
             same_but_cache i i' /\ cache_ok addrs i'.
Proof. intros. by apply FindEntry_spec. Qed.

(** Functions for the parameters; the decoder yields nothing. *)
#[local] Instance sample_environment : Environment := {|
  torn_word := 0;
  torn_regs l := l;
  map_order := map_to_list;
  sort_fdes l := l;
  sort_symbols l := l;
  fuel := 100;
  uninitialized := 0;
  xz_state := unit;
  XzUnpacker_Construct := tt;
  XzUnpacker_Code _ _ _ := (tt, true, false, [], 0);
  XzUnpacker_IsStreamWasFinished _ := true
|}.

(** Two functions at 0x100 and 0x200; the instructions of the first pop r4 to r6
    and r14 and add 8 to the vsp. *)
Definition sample_index : Memory :=
  bytes_memory (replicate 8 0 ++ le_split 4 (0x100 - 8) ++ le_split 4 0x80aa01b0 ++
                le_split 4 (0x200 - 16) ++ le_split 4 0x80b0b0b0).

Definition sample_arm : ElfInterface :=
  set_total_entries 2 (set_start_offset 8 (new_ElfInterface ElfInterfaceArm sample_index)).

Lemma sample_index_ok : ascending [0x100; 0x200] /\ index_at 8 [0x100; 0x200] sample_index /\
  cache_ok [0x100; 0x200] sample_arm.
Proof.
  split_and!.
  - intros [|[|k]] [|[|l]] a b Hkl Ha Hb; simplify_eq/=; lia.
  - intros [|[|k]] a Ha; simplify_eq/=; eexists; (split; [by vm_compute|done]).
  - by intros k v.
Qed.

Lemma FindEntry_correct_witness : exists i', FindEntry 0x1ff sample_arm = Ok (Some 8, i').
Proof.
  destruct sample_index_ok as (H1 & H2 & H3).
  destruct (FindEntry_correct 8 [0x100; 0x200] 0x1ff sample_arm H1) as (i' & E & _); try done.
  by exists i'.
Defined.

(** ** A step through the exception tables *)

(** The frame of the caller: the program runs with the vsp at the stack pointer
    and ends with it; the pc is r15 when the program sets it, and lr
    otherwise. *)
Definition arm_caller (stack : Memory) (p : list uinstr) (regs : Regs) : option Regs :=
  u ← urun stack p (mkU (sp_ regs) regs false);
  let regs := u_regs u in
  let pc := if u_pc u then reg regs ARM_REG_PC else reg regs ARM_REG_LR in
  Some (set_reg ARM_REG_SP (u_vsp u) (set_sp (u_vsp u)
          (if u_pc u then set_pc pc regs else set_reg ARM_REG_PC pc (set_pc pc regs)))).

(** The object behind the extraction and the evaluation. *)
Lemma run_exidx_spec {Env : Environment} mem stack off e p rest s :
  off mod 2 = 0 -> entry_ok e = true -> entry_at mem off e ->
  with_finish (entry_bytes e) = program_bytes p ++ ARM_OP_FINISH :: rest -> forallb uinstr_ok p = true -> executing s ->
  let run := bind (ExtractEntryData mem off) (fun b : bool => if b then ArmExidx.Eval stack torn_word else ret false) s in
  match urun stack p (mkU (cfa_ s) (arm_regs_ s) false) with
  | Some u => exists s', run = Ok (true, s') /\ cfa_ s' = u_vsp u /\ arm_regs_ s' = u_regs u /\
                pc_set_ s' = u_pc u /\ status_ s' = ARM_STATUS_FINISH
  | None => exists s', run = Ok (false, s') /\ status_ s' = ARM_STATUS_READ_FAILED
  end.
Proof.
  intros Hoff He Hat Hbytes Hp Hex run. unfold run, bind. rewrite (ExtractEntryData_entry mem off e s) by done.
  apply (Eval_program stack torn_word rest p (set_arm_data (with_finish (entry_bytes e)) (set_status ARM_STATUS_NONE s)));
    done.
Qed.

(** C18: one step through the exception tables, from the pc to the registers of
    the caller: when the last entry of the index that does not start behind the
    pc describes a program of unwinding instructions, [StepExidx] runs that
    program on the stack and returns the caller's registers, with [finished] set
    when the caller's pc is 0; when the program reads outside of the stack, it
    returns false. *)
Theorem StepExidx_refines {Env : Environment} start addrs pc k e p rest stack regs i :
  ascending addrs -> lengthZ addrs < 2 ^ 63 -> start_offset_ i = start -> total_entries_ i = lengthZ addrs -> start <> 0 ->
  index_at start addrs (elf_memory_ i) -> cache_ok addrs i -> machine regs = Arm ->
  entries_up_to (u32 pc) addrs = S k -> start mod 2 = 0 ->
  entry_ok e = true -> entry_at (elf_memory_ i) (u32 (start + Z.of_nat k * 8)) e ->
  with_finish (entry_bytes e) = program_bytes p ++ ARM_OP_FINISH :: rest -> forallb uinstr_ok p = true ->
  match arm_caller stack p regs with
  | Some regs' => exists i', StepExidx pc stack regs i = Ok ((Some (pc_ regs' =? 0), regs'), i')
  | None => exists regs' i', StepExidx pc stack regs i = Ok ((None, regs'), i')
  end.
Proof.
  intros Hasc Hlen Hs Ht Hne Hindex Hok Hm Hk Heven He Hat Hbytes Hp.
  destruct (FindEntry_spec start addrs (u32 pc) Hasc Hlen i Hs Ht Hne Hindex Hok) as (i' & Hfind & Hf & _).
  rewrite Hk in Hfind. cbn [entry_before] in Hfind.
  set (off := u32 (start + Z.of_nat k * 8)) in *.
  assert (u32 (u64 (start + Z.of_nat k * 8)) = off) as Hoff by (by rewrite uwrap_uwrap by lia).
  assert (off mod 2 = 0) as Hmod.
  { unfold off, uwrap. change (2 ^ 32) with (2 * 2147483648). rewrite Z.mod_mod_divide by (by exists 2147483648).
    rewrite Z.add_mod, Z.mul_mod, Heven by lia. change (8 mod 2) with 0. by rewrite Z.mul_0_r. }
  set (arm := set_cfa_ (sp_ regs) (new_ArmExidx regs)).
  pose proof (run_exidx_spec (elf_memory_ i) stack off e p rest arm Hmod He Hat Hbytes Hp eq_refl) as Hrun.
  assert (forall ok arm', run_exidx (elf_memory_ i) stack (u64 (start + Z.of_nat k * 8)) arm = Ok (ok, arm') ->
    status_ arm' <> ARM_STATUS_NO_UNWIND ->
    StepExidx pc stack regs i = Ok (if ok : bool then (Some (pc_ (exidx_regs arm') =? 0), exidx_regs arm')
                                    else (None, arm_regs_ arm'), i')) as Hstep.
  { intros ok arm' E Hst. unfold StepExidx, bind at 1, require. rewrite bool_decide_true by done. cbn [ret].
    unfold bind at 1. rewrite Hfind. unfold bind, get. assert (elf_memory_ i' = elf_memory_ i) as -> by (by rewrite Hf).
    fold arm. rewrite E. simpl. rewrite bool_decide_false by done. by destruct ok. }
  unfold run_exidx in Hstep. rewrite Hoff in Hstep.
  unfold arm_caller. change (mkU (sp_ regs) regs false) with (mkU (cfa_ arm) (arm_regs_ arm) false).
  destruct (urun stack p _) as [u|]; simpl.
  - destruct Hrun as (arm' & E & Hcfa & Hregs & Hpc & Hst). rewrite (Hstep true arm' E) by (by rewrite Hst).
    eexists. do 3 f_equal; unfold exidx_regs; rewrite ?Hcfa, Hregs, Hpc; by destruct (u_pc u).
  - destruct Hrun as (arm' & E & Hst). rewrite (Hstep false arm' E) by (by rewrite Hst). by eexists _, _.
Qed.

Lemma StepExidx_refines_witness :
  let stack := bytes_memory (of_words 4 (seqZ 50 8)) in
  exists regs' i', StepExidx 0x180 stack (new_Regs Arm 0x180 8) sample_arm = Ok ((Some false, regs'), i') /\
                   pc_ regs' = 55 /\ sp_ regs' = 32.
Proof.
  intros stack. destruct sample_index_ok as (H1 & H2 & H3).
  pose proof (StepExidx_refines 8 [0x100; 0x200] 0x180 0 (E_inline 0xaa 0x01 0xb0) [U_pop_r4 2 true; U_vsp_add 1] [] stack
    (new_Regs Arm 0x180 8) sample_arm H1) as H.
  destruct (arm_caller stack [U_pop_r4 2 true; U_vsp_add 1] (new_Regs Arm 0x180 8)) as [regs'|] eqn:E;
    [|by vm_compute in E].
  destruct H as [i' Hi']; try done; [by vm_compute..|].
  exists regs', i'. rewrite Hi'. vm_compute in E. injection E as <-. done.
Defined.

(** ** Program headers *)

Record phdr := mkPhdr { ph_type : Z; ph_flags : Z; ph_offset : Z; ph_vaddr : Z; ph_memsz : Z }.

(** The memory has the header at [a]. *)
Definition phdr_at (AT : AddressType) (mem : Memory) (a : Z) (h : phdr) : Prop :=
  read_field mem a p_type = Some (ph_type h) /\ read_field mem a (p_flags AT) = Some (ph_flags h) /\
  read_field mem a (p_offset AT) = Some (ph_offset h) /\ read_field mem a (p_vaddr AT) = Some (ph_vaddr h) /\
  read_field mem a (p_memsz AT) = Some (ph_memsz h).

Definition executable (h : phdr) : Prop := ph_type h = PT_LOAD /\ Z.land (ph_flags h) PF_X <> 0.
Definition has_type (t : Z) (h : phdr) : Prop := ph_type h = t.
Definition sets_bias (h : phdr) : Prop := executable h /\ ph_offset h = 0.

#[local] Instance executable_dec h : Decision (executable h).
Proof. unfold executable. apply _. Defined.
#[local] Instance has_type_dec t h : Decision (has_type t h).
Proof. unfold has_type. apply _. Defined.
#[local] Instance sets_bias_dec h : Decision (sets_bias h).
Proof. unfold sets_bias. apply _. Defined.

(** The load bias behind the headers. *)
Definition bias_after (hs : list phdr) (bias : Z) : Z := default bias (ph_vaddr <$> last (filter sets_bias hs)).

(** The last header of a type, as a range. *)
Definition last_range (t : Z) (hs : list phdr) (r : Range) : Range :=
  default r ((fun h => mkRangeOf (ph_offset h) (ph_memsz h)) <$> last (filter (has_type t) hs)).

Definition load_of (h : phdr) : LoadInfo := mkLoadInfo (ph_offset h) (ph_vaddr h) (ph_memsz h).

(** The executable segments by their offsets; the last one counts. *)
Definition loads_after (hs : list phdr) (m : gmap Z LoadInfo) : gmap Z LoadInfo :=
  foldl (fun m h => <[ph_offset h := load_of h]> m) m (filter executable hs).

(** What the headers make of an interface, except for the ARM index. *)
Definition headers_read (hs : list phdr) (i i' : ElfInterface) : Prop :=
  pt_loads_ i' = loads_after hs (pt_loads_ i) /\
  eh_frame_range i' = last_range PT_GNU_EH_FRAME hs (eh_frame_range i) /\
  dynamic_ i' = last_range PT_DYNAMIC hs (dynamic_ i) /\
  i' = set_total_entries (total_entries_ i') (set_start_offset (start_offset_ i')
         (set_pt_loads (pt_loads_ i') (set_eh_frame_range (eh_frame_range i') (set_dynamic (dynamic_ i') i)))).

(** The ARM index comes from the last header of its type, relative to the load
    bias of the headers in front of it. *)
Definition index_read (hs : list phdr) (bias : Z) (i i' : ElfInterface) : Prop :=
  (forall a h b, kind i = ElfInterfaceArm -> hs = a ++ h :: b -> has_type PT_ARM_EXIDX h ->
     Forall (fun h => ~ has_type PT_ARM_EXIDX h) b ->
     start_offset_ i' = u64 (ph_vaddr h - bias_after a bias) /\ total_entries_ i' = ph_memsz h / 8) /\
  (kind i <> ElfInterfaceArm \/ Forall (fun h => ~ has_type PT_ARM_EXIDX h) hs ->
     start_offset_ i' = start_offset_ i /\ total_entries_ i' = total_entries_ i).

Lemma bias_after_snoc hs h bias :
  bias_after (hs ++ [h]) bias = if decide (sets_bias h) then ph_vaddr h else bias_after hs bias.
Proof.
  unfold bias_after. rewrite filter_app. destruct (decide (sets_bias h)).
  - by rewrite filter_cons_True, filter_nil, last_snoc.
  - by rewrite filter_cons_False, filter_nil, app_nil_r.
Qed.

Lemma last_range_snoc t hs h r :
  last_range t (hs ++ [h]) r = if decide (has_type t h) then mkRangeOf (ph_offset h) (ph_memsz h) else last_range t hs r.
Proof.
  unfold last_range. rewrite filter_app. destruct (decide (has_type t h)).
  - by rewrite filter_cons_True, filter_nil, last_snoc.
  - by rewrite filter_cons_False, filter_nil, app_nil_r.
Qed.

Lemma loads_after_snoc hs h m :
  loads_after (hs ++ [h]) m = if decide (executable h) then <[ph_offset h := load_of h]> (loads_after hs m) else loads_after hs m.
Proof.
  unfold loads_after. rewrite filter_app. destruct (decide (executable h)).
  - by rewrite filter_cons_True, filter_nil, foldl_app.
  - by rewrite filter_cons_False, filter_nil, app_nil_r.
Qed.

(** A header that is not the ARM index. *)
Lemma index_read_other hs h bias i0 i i' : ~ (kind i0 = ElfInterfaceArm /\ has_type PT_ARM_EXIDX h) ->
  start_offset_ i' = start_offset_ i -> total_entries_ i' = total_entries_ i ->
  index_read hs bias i0 i -> index_read (hs ++ [h]) bias i0 i'.
Proof.
  intros Hno Hs Ht [H5 H6]. rewrite <- Hs, <- Ht in H6. split.
  - intros a h' b Hk Heq Hh Hb. rewrite Hs, Ht. destruct b as [|x b _] using rev_ind.
    + apply app_inj_tail in Heq as [_ <-]. by destruct Hno.
    + rewrite app_comm_cons, app_assoc in Heq. apply app_inj_tail in Heq as [Heq <-].
      apply Forall_app in Hb as [Hb _]. by eapply H5.
  - intros Hor. apply H6. destruct Hor as [|Hf]; [by left|]. apply Forall_app in Hf as [Hf _]. by right.
Qed.

Lemma index_read_exidx hs h bias i0 i' : has_type PT_ARM_EXIDX h -> kind i0 = ElfInterfaceArm ->
  start_offset_ i' = u64 (ph_vaddr h - bias_after hs bias) -> total_entries_ i' = ph_memsz h / 8 ->
  index_read (hs ++ [h]) bias i0 i'.
Proof.
  intros Hh Hk Hs Ht. split.
  - intros a h' b _ Heq Hh' Hb. destruct b as [|x b _] using rev_ind.
    + by apply app_inj_tail in Heq as [-> ->].
    + rewrite app_comm_cons, app_assoc in Heq. apply app_inj_tail in Heq as [Heq ->].
      apply Forall_app in Hb as [_ Hb]. by inversion_clear Hb.
  - intros [?|Hf]; [done|]. apply Forall_app in Hf as [_ Hf]. by inversion_clear Hf.
Qed.

(** Decisions on headers whose type is known. *)
Ltac header_type :=
  unfold sets_bias, executable, has_type, PT_LOAD, PT_DYNAMIC, PT_GNU_EH_FRAME, PT_ARM_EXIDX, PF_X in *; lia.
Ltac decide_headers := repeat first [rewrite decide_False by header_type | rewrite decide_True by header_type].

Section ProgramHeaders.
Context {Env : Environment}.

Lemma read_header_ok {A} offset f v (k : Z -> M ElfInterface (option A)) i : read_field (elf_memory_ i) offset f = Some v ->
  read_header offset f k i = k v i.
Proof. intros H. unfold read_header, bind, get. by rewrite H. Qed.

(** Whether the header is left to ElfInterfaceArm. *)
Lemma HandleType_spec AT offset h bias i : AT = kind_class (kind i) -> phdr_at AT (elf_memory_ i) offset h ->
  HandleType offset (ph_type h) bias i =
  if decide (kind i = ElfInterfaceArm /\ has_type PT_ARM_EXIDX h)
  then Ok (true, set_total_entries (ph_memsz h / 8) (set_start_offset (u64 (ph_vaddr h - bias)) i))
  else Ok (false, i).
Proof.
  intros -> (_ & _ & _ & Hv & Hm). unfold HandleType, bind at 1, get. destruct (kind i) eqn:Ek;
    try (by rewrite decide_False by (by intros [? _])). unfold HandleType_Arm, has_type.
  destruct (Z.eqb_spec (ph_type h) PT_ARM_EXIDX) as [E|E].
  - rewrite decide_True by done. cbn [negb kind_class] in *. unfold bind at 1, get. by rewrite Hv, Hm.
  - by rewrite decide_False by (by intros [_ ?]).
Qed.

(** One header behind [hs]. *)
Lemma ReadProgramHeader_spec AT offset hs h bias i0 i :
  AT = kind_class (kind i) -> kind i = kind i0 -> phdr_at AT (elf_memory_ i) offset h ->
  headers_read hs i0 i -> index_read hs bias i0 i ->
  exists i', ReadProgramHeader AT offset (bias_after hs bias) i = Ok (Some (bias_after (hs ++ [h]) bias), i') /\
    headers_read (hs ++ [h]) i0 i' /\ index_read (hs ++ [h]) bias i0 i'.
Proof.
  intros HAT Hkind Hat (H1 & H2 & H3 & H4) Hi. pose proof Hat as (Ht & Hf & Ho & Hv & Hm).
  unfold ReadProgramHeader, headers_read.
  rewrite (read_header_ok _ _ _ _ _ Ht), bias_after_snoc, loads_after_snoc, !last_range_snoc.
  unfold bind at 1. rewrite (HandleType_spec AT offset h _ i HAT Hat), Hkind. unfold has_type at 1.
  destruct (decide (_ /\ _)) as [[Hk He]|Hno].
  { decide_headers. eexists. split; [done|]. split; [|by apply index_read_exidx].
    split_and!; try done. by rewrite H4. }
  assert (forall i', start_offset_ i' = start_offset_ i -> total_entries_ i' = total_entries_ i ->
    index_read (hs ++ [h]) bias i0 i') as Hother by (intros i' E1 E2; by apply (index_read_other hs h bias i0 i)).
  destruct (Z.eqb_spec (ph_type h) PT_LOAD) as [E|E].
  { rewrite (read_header_ok _ _ _ _ _ Hf). destruct (Z.eqb_spec (Z.land (ph_flags h) PF_X) 0) as [Ex|Ex].
    - decide_headers. exists i. split; [done|]. split; [done|by apply Hother].
    - rewrite (read_header_ok _ _ _ _ _ Hv), (read_header_ok _ _ _ _ _ Ho), (read_header_ok _ _ _ _ _ Hm).
      unfold bind, modify, ret.
      destruct (Z.eqb_spec (ph_offset h) 0) as [E0|E0]; decide_headers; (eexists; split; [done|]; split; [|by apply Hother]);
        (split_and!; [simpl; by rewrite H1|done|done|by rewrite H4]). }
  destruct (Z.eqb_spec (ph_type h) PT_GNU_EH_FRAME) as [E1|E1].
  { rewrite (read_header_ok _ _ _ _ _ Ho). unfold bind at 1, modify. rewrite (read_header_ok _ _ (ph_memsz h)) by done.
    unfold bind, ret. decide_headers. eexists. split; [done|]. split; [|by apply Hother].
    split_and!; try done. by rewrite H4. }
  destruct (Z.eqb_spec (ph_type h) PT_DYNAMIC) as [E2|E2].
  { rewrite (read_header_ok _ _ _ _ _ Ho). unfold bind at 1, modify. rewrite (read_header_ok _ _ (ph_memsz h)) by done.
    unfold bind, ret. decide_headers. eexists. split; [done|]. split; [|by apply Hother].
    split_and!; try done. by rewrite H4. }
  decide_headers. exists i. split; [done|]. split; [done|by apply Hother].
Qed.

Lemma headers_read_kind hs i0 i : headers_read hs i0 i -> kind i = kind i0 /\ elf_memory_ i = elf_memory_ i0.
Proof. intros (_ & _ & _ & ->). done. Qed.

Lemma ReadProgramHeaders_loop_spec AT phentsize rest hs bias i0 i offset :
  AT = kind_class (kind i0) -> 0 <= offset -> 0 <= phentsize -> offset + lengthZ rest * phentsize < 2 ^ 64 ->
  (forall k h, rest !! k = Some h -> phdr_at AT (elf_memory_ i0) (offset + Z.of_nat k * phentsize) h) ->
  headers_read hs i0 i -> index_read hs bias i0 i ->
  exists i', ReadProgramHeaders_loop AT (length rest) offset phentsize (bias_after hs bias) i =
      Ok ((true, bias_after (hs ++ rest) bias), i') /\
    headers_read (hs ++ rest) i0 i' /\ index_read (hs ++ rest) bias i0 i'.
Proof.
  intros HAT. revert hs i offset. induction rest as [|h rest IH]; intros hs i offset Ho Hp Hlen Hat Hr Hi.
  - rewrite app_nil_r. exists i. by split_and!.
  - destruct (headers_read_kind _ _ _ Hr) as [Hk Hmem].
    destruct (ReadProgramHeader_spec AT offset hs h bias i0 i) as (i1 & E1 & Hr1 & Hi1); try done.
    { by rewrite Hk. }
    { pose proof (Hat 0%nat h eq_refl) as H0. simpl in H0. rewrite Hmem. by rewrite Z.add_0_r in H0. }
    cbn [length ReadProgramHeaders_loop]. unfold bind. rewrite E1.
    assert (lengthZ (h :: rest) = lengthZ rest + 1) as El by (unfold lengthZ; simpl; lia). rewrite El in Hlen.
    pose proof (lengthZ_nonneg rest).
    destruct (IH (hs ++ [h]) i1 (offset + phentsize)) as (i2 & E2 & Hr2 & Hi2); try done; try nia.
    { intros k h' Hk'. replace (offset + phentsize + Z.of_nat k * phentsize) with (offset + Z.of_nat (S k) * phentsize) by lia.
      by apply Hat. }
    rewrite uwrap_small by (unfold in_unsigned; nia). rewrite <- app_assoc in *. by exists i2.
Qed.

End ProgramHeaders.

(** C38: the program headers are read as they are in the file: the load bias is
    the address of the last executable segment at offset 0, .eh_frame_hdr and
    the dynamic section are those of the last headers of their types, the
    executable segments are recorded by their offsets, and nothing else changes
    but, on ARM, the exception index.  Its position is taken relative to the
    load bias that the headers in front of it say. *)
Theorem ReadProgramHeaders_reads {Env : Environment} AT ehdr hs bias i :
  AT = kind_class (kind i) -> Forall is_byte ehdr ->
  field_of (e_phnum AT) ehdr = lengthZ hs ->
  field_of (e_phoff AT) ehdr + lengthZ hs * field_of (e_phentsize AT) ehdr < 2 ^ 64 ->
  (forall k h, hs !! k = Some h ->
     phdr_at AT (elf_memory_ i) (field_of (e_phoff AT) ehdr + Z.of_nat k * field_of (e_phentsize AT) ehdr) h) ->
  exists i', ReadProgramHeaders AT ehdr bias i = Ok ((true, bias_after hs bias), i') /\
             headers_read hs i i' /\ index_read hs bias i i'.
Proof.
  intros HAT Hb Hn Hlen Hat. unfold ReadProgramHeaders. rewrite Hn. unfold lengthZ at 1. rewrite Nat2Z.id.
  assert (forall f, 0 <= field_of f ehdr) as Hpos by (intros f; apply le_combine_range, slice_bytes, Hb).
  apply (ReadProgramHeaders_loop_spec AT _ hs [] bias i i); try done.
  - split_and!; try done. by destruct i.
  - split; [intros a h b _ Heq; by destruct a|done].
Qed.

(** An index in front of the segment that sets the load bias. *)
Definition sample_phdrs : list phdr := [mkPhdr PT_ARM_EXIDX 4 0x50 0x8050 16; mkPhdr PT_LOAD 5 0 0x8000 0x100].

Definition phdr_bytes (h : phdr) : list Z :=
  le_split 4 (ph_type h) ++ le_split 4 (ph_offset h) ++ le_split 4 (ph_vaddr h) ++ le_split 8 0 ++
  le_split 4 (ph_memsz h) ++ le_split 4 (ph_flags h) ++ le_split 4 0.

Definition sample_ehdr : list Z :=
  replicate 28 0 ++ le_split 4 52 ++ replicate 10 0 ++ le_split 2 32 ++ le_split 2 2 ++ replicate 6 0.

Lemma ReadProgramHeaders_reads_witness :
  let i := new_ElfInterface ElfInterfaceArm (bytes_memory (sample_ehdr ++ flat_map phdr_bytes sample_phdrs)) in
  exists i', ReadProgramHeaders uint32_t sample_ehdr 0 i = Ok ((true, 0x8000), i') /\ start_offset_ i' = 0x8050.
Proof.
  intros i. destruct (ReadProgramHeaders_reads uint32_t sample_ehdr sample_phdrs 0 i) as (i' & E & _ & [Hi _]).
  - done.
  - change (Forall (fun b => 0 <= b < 256) sample_ehdr). by_decide.
  - by vm_compute.
  - by vm_compute.
  - intros [|[|k]] h Hk; simplify_eq/=; by vm_compute.
  - exists i'. split; [exact E|]. apply (Hi [] (mkPhdr PT_ARM_EXIDX 4 0x50 0x8050 16) [mkPhdr PT_LOAD 5 0 0x8000 0x100]); try done.
    by repeat constructor.
Defined.
