(* ===== verification/Elf.v ===== *)
(** * Elf: an ELF object and the maps that have one
    (libunwindstack/Elf.cpp, Elf.h, MapInfo.cpp)

    [Elf] owns the interface to the file and the one to its compressed debug
    data.  A map creates its ELF object on demand, from the file it maps or from
    the memory of the process. *)

From S2P Require Import Prelude Memory DwarfMemory Regs ElfInterface Maps.

(** The first bytes of a file, EI_CLASS and its values. *)
Definition ELFMAG : list Z := [127; 69; 76; 70].
Definition SELFMAG : Z := 4.
Definition EI_CLASS : Z := 4.
Definition EI_NIDENT : Z := 16.
Definition ELFCLASS32 : Z := 1.
Definition ELFCLASS64 : Z := 2.

(** [machine_type_] and [class_type_] are indeterminate in the beginning. *)
Record Elf := mkElf {
  valid_ : bool;
  load_bias_ : Z;
  interface_ : option ElfInterface;
  memory_ : option Memory;
  machine_type_ : Z;
  class_type_ : Z;
  gnu_debugdata_memory_ : option Memory;
  gnu_debugdata_interface_ : option ElfInterface
}.

Definition set_valid (x : bool) (e : Elf) : Elf :=
  mkElf x (load_bias_ e) (interface_ e) (memory_ e) (machine_type_ e) (class_type_ e) (gnu_debugdata_memory_ e)
    (gnu_debugdata_interface_ e).
Definition set_load_bias (x : Z) (e : Elf) : Elf :=
  mkElf (valid_ e) x (interface_ e) (memory_ e) (machine_type_ e) (class_type_ e) (gnu_debugdata_memory_ e)
    (gnu_debugdata_interface_ e).
Definition set_interface (x : option ElfInterface) (e : Elf) : Elf :=
  mkElf (valid_ e) (load_bias_ e) x (memory_ e) (machine_type_ e) (class_type_ e) (gnu_debugdata_memory_ e)
    (gnu_debugdata_interface_ e).
Definition set_machine_type (x : Z) (e : Elf) : Elf :=
  mkElf (valid_ e) (load_bias_ e) (interface_ e) (memory_ e) x (class_type_ e) (gnu_debugdata_memory_ e)
    (gnu_debugdata_interface_ e).
Definition set_class_type (x : Z) (e : Elf) : Elf :=
  mkElf (valid_ e) (load_bias_ e) (interface_ e) (memory_ e) (machine_type_ e) x (gnu_debugdata_memory_ e)
    (gnu_debugdata_interface_ e).
Definition set_gnu_memory (x : option Memory) (e : Elf) : Elf :=
  mkElf (valid_ e) (load_bias_ e) (interface_ e) (memory_ e) (machine_type_ e) (class_type_ e) x
    (gnu_debugdata_interface_ e).
Definition set_gnu_interface (x : option ElfInterface) (e : Elf) : Elf :=
  mkElf (valid_ e) (load_bias_ e) (interface_ e) (memory_ e) (machine_type_ e) (class_type_ e)
    (gnu_debugdata_memory_ e) x.

Section Elf.
Context {Env : Environment}.

Definition new_Elf (memory : option Memory) : Elf :=
  mkElf false 0 None memory uninitialized uninitialized None None.

(** A null pointer is [None]. *)
Definition IsValidElf (memory : option Memory) : bool :=
  match memory with
  | None => false
  | Some m => match Read m 0 SELFMAG with
              | None => false
              | Some e_ident => bool_decide (e_ident = ELFMAG)
              end
  end.

(** [*valid] and [*size]; the size is not written when the file is no ELF
    file. *)
Definition GetInfo (memory : Memory) : outcome (bool * option Z) :=
  if negb (IsValidElf (Some memory)) then Ok (false, None)
  else
    let size o := outcome_map (fun size => (true, Some (default 0 size))) o in
    match Read memory EI_CLASS 1 with
    | None => Ok (true, Some 0)
    | Some bs =>
        let class_type := le_combine bs in
        if class_type =? ELFCLASS32 then size (GetMaxSize uint32_t memory)
        else if class_type =? ELFCLASS64 then size (GetMaxSize uint64_t memory)
        else Ok (false, Some 0)
    end.

(** The interface for the machine of the file; [None] is the null pointer. *)
Definition CreateInterfaceFromMemory (memory : option Memory) : M Elf (option ElfInterface) :=
  match memory with
  | None => ret None
  | Some m =>
      if negb (IsValidElf memory) then ret None
      else match Read m EI_CLASS 1 with
           | None => ret None
           | Some bs =>
               let class_type := le_combine bs in
               modify (set_class_type class_type) ;;
               let e_machine := le_combine <$> Read m (EI_NIDENT + 2) 2 in
               if class_type =? ELFCLASS32 then
                 match e_machine with
                 | None => ret None
                 | Some e_machine =>
                     if negb (e_machine =? EM_ARM) && negb (e_machine =? EM_386) then ret None
                     else
                       modify (set_machine_type e_machine) ;;
                       ret (Some (new_ElfInterface (if e_machine =? EM_ARM then ElfInterfaceArm else ElfInterface32) m))
                 end
               else if class_type =? ELFCLASS64 then
                 match e_machine with
                 | None => ret None
                 | Some e_machine =>
                     if negb (e_machine =? EM_AARCH64) && negb (e_machine =? EM_X86_64) then ret None
                     else modify (set_machine_type e_machine) ;; ret (Some (new_ElfInterface ElfInterface64 m))
                 end
               else ret None
           end
  end.

(** A method of an interface that belongs to this object. *)
Definition on_interface {A} (i : ElfInterface) (m : M ElfInterface A) : M Elf (A * ElfInterface) := fun e =>
  outcome_map (fun r => (r, e)) (m i).

Definition interface_class (i : ElfInterface) : AddressType := kind_class (kind i).

(** [load_bias] has no value when [Init] reads it. *)
Definition InitGnuDebugdata : M Elf unit :=
  e <- get id ;;
  match interface_ e with
  | None => ret tt
  | Some i =>
      if negb (valid_ e) || (range_offset (gnu_debugdata_ i) =? 0) then ret tt
      else
        created <- on_interface i CreateGnuDebugdataMemory ;;
        modify (set_interface (Some (snd created))) ;;
        modify (set_gnu_memory (fst created)) ;;
        gnu <- CreateInterfaceFromMemory (fst created) ;;
        match gnu with
        | None => modify (set_gnu_interface None)
        | Some g =>
            r <- on_interface g (ReadAllHeaders (interface_class g) uninitialized) ;;
            if fst (fst r) then
              h <- on_interface (snd r) (InitHeaders (interface_class g)) ;;
              modify (set_gnu_interface (Some (snd h)))
            else modify (set_gnu_memory None) ;; modify (set_gnu_interface None)
        end
  end.

Definition Init (init_gnu_debugdata : bool) : M Elf bool :=
  modify (set_load_bias 0) ;;
  memory <- get memory_ ;;
  match memory with
  | None => ret false
  | Some _ =>
      interface <- CreateInterfaceFromMemory memory ;;
      modify (set_interface interface) ;;
      match interface with
      | None => ret false
      | Some i =>
          r <- on_interface i (ReadAllHeaders (interface_class i) 0) ;;
          modify (set_valid (fst (fst r))) ;;
          modify (set_load_bias (snd (fst r))) ;;
          if fst (fst r) then
            h <- on_interface (snd r) (InitHeaders (interface_class i)) ;;
            modify (set_interface (Some (snd h))) ;;
            (if init_gnu_debugdata then InitGnuDebugdata else modify (set_gnu_interface None)) ;;
            ret true
          else modify (set_interface None) ;; ret false
      end
  end.

(** A method of [interface_], which the code calls when [valid_] is set. *)
Definition with_interface {A} (m : AddressType -> M ElfInterface A) : M Elf A :=
  e <- get id ;;
  match interface_ e with
  | None => undef
  | Some i => r <- on_interface i (m (interface_class i)) ;; modify (set_interface (Some (snd r))) ;; ret (fst r)
  end.

(** A method of [gnu_debugdata_interface_], [otherwise] when it is null. *)
Definition with_gnu_interface {A} (otherwise : A) (m : AddressType -> M ElfInterface A) : M Elf A :=
  e <- get id ;;
  match gnu_debugdata_interface_ e with
  | None => ret otherwise
  | Some g => r <- on_interface g (m (interface_class g)) ;; modify (set_gnu_interface (Some (snd r))) ;; ret (fst r)
  end.

Definition Elf_GetSoname : M Elf (option (list Z)) :=
  valid <- get valid_ ;;
  if valid : bool then with_interface GetSoname else ret None.

Definition GetRelPc (pc : Z) (map_start elf_offset : Z) (e : Elf) : Z :=
  u64 (pc - map_start + load_bias_ e + elf_offset).

Definition Elf_GetFunctionName (addr : Z) : M Elf (option (list Z * Z)) :=
  e <- get id ;;
  if valid_ e then
    name <- with_interface (fun AT => GetFunctionName AT addr (load_bias_ e)) ;;
    match name with
    | Some _ => ret name
    | None => with_gnu_interface None (fun AT => GetFunctionName AT addr (load_bias_ e))
    end
  else ret None.

(** Elf::Step: [*finished], or [None] for false, and the registers. *)
Definition Elf_Step (rel_pc elf_offset : Z) (process_memory : Memory) (regs : Regs) : M Elf (option bool * Regs) :=
  e <- get id ;;
  if negb (valid_ e) then ret (None, regs)
  else match memory_ e with
       | None => undef
       | Some m =>
           let '(signal, regs) := StepIfSignalHandler m process_memory torn_regs (u64 (rel_pc + elf_offset)) regs in
           if signal : bool then ret (Some false, regs)
           else if rel_pc <? load_bias_ e then ret (None, regs)
           else
             let rel_pc := u64 (rel_pc - load_bias_ e) in
             r <- with_interface (fun _ => Interface_Step rel_pc process_memory regs) ;;
             match r with
             | (Some finished, regs) => ret (Some finished, regs)
             | (None, regs) => with_gnu_interface (None, regs) (fun _ => Interface_Step rel_pc process_memory regs)
             end
       end.

End Elf.

(** ** MapInfo *)

(** The file system: the content of a file, the page size and which mappings
    succeed. *)
Class FileSystem := {
  file_content : list Z -> option (list Z);
  getpagesize : Z;
  mmap : Z -> Z -> bool
}.

Section MapInfo.
Context {Env : Environment} {FS : FileSystem}.

Definition set_map_elf (x : option Elf) (m : MapInfo Elf) : MapInfo Elf :=
  mkMapInfo (map_start m) (map_end m) (map_offset m) (map_flags m) (map_name m) x (map_elf_offset m).
Definition set_map_elf_offset (x : Z) (m : MapInfo Elf) : MapInfo Elf :=
  mkMapInfo (map_start m) (map_end m) (map_offset m) (map_flags m) (map_name m) (map_elf m) x.

(** [memory->Init(name, offset, size)] *)
Definition init_file (m : MapInfo Elf) (offset size : Z) (f : MemoryFileAtOffset) : bool * MemoryFileAtOffset :=
  MemoryFileAtOffset_Init (file_content (map_name m)) getpagesize mmap offset size f.

(** [None] is the null pointer. *)
Definition GetFileMemory : M (MapInfo Elf) (option Memory) :=
  m <- get id ;;
  if map_offset m =? 0 then
    let '(ok, f) := init_file m 0 UINT64_MAX new_MemoryFileAtOffset in
    ret (if ok : bool then Some (file_memory f) else None)
  else
    let map_size := u64 (map_end m - map_start m) in
    let '(ok, f) := init_file m (map_offset m) map_size new_MemoryFileAtOffset in
    if negb ok then ret None
    else
      info <- (fun m => outcome_map (fun r => (r, m)) (GetInfo (file_memory f))) ;;
      let '(valid, max_size) := info in
      if negb valid then
        let '(ok, f) := init_file m 0 UINT64_MAX f in
        if ok : bool then modify (set_map_elf_offset (map_offset m)) ;; ret (Some (file_memory f)) else ret None
      else match max_size with
           | None => undef
           | Some max_size =>
               if map_size <? max_size then
                 let '(ok, f1) := init_file m (map_offset m) max_size f in
                 if ok : bool then ret (Some (file_memory f1))
                 else
                   let '(ok, f2) := init_file m (map_offset m) map_size f1 in
                   ret (if ok : bool then Some (file_memory f2) else None)
               else ret (Some (file_memory f))
           end.

Definition CreateMemory (process_memory : Memory) : M (MapInfo Elf) (option Memory) :=
  m <- get id ;;
  if map_end m <=? map_start m then ret None
  else
    modify (set_map_elf_offset 0) ;;
    if bits_set (map_flags m) MAPS_FLAGS_DEVICE_MAP then ret None
    else
      file <- (if negb (bool_decide (map_name m = [])) then GetFileMemory else ret None) ;;
      match file with
      | Some memory => ret (Some memory)
      | None =>
          if negb (bits_set (map_flags m) PROT_READ) then ret None
          else
            range <- (fun s => outcome_map (fun r => (r, s)) (new_MemoryRange process_memory (map_start m) (map_end m))) ;;
            ret (Some (range_memory range))
      end.

(** The object stays, also when its initialisation fails. *)
Definition GetElf (process_memory : Memory) (init_gnu_debugdata : bool) : M (MapInfo Elf) Elf :=
  cached <- get map_elf ;;
  match cached with
  | Some e => ret e
  | None =>
      memory <- CreateMemory process_memory ;;
      e <- (fun m => outcome_map (fun '(_, e) => (e, m)) (Init init_gnu_debugdata (new_Elf memory))) ;;
      modify (set_map_elf (Some e)) ;;
      ret e
  end.

End MapInfo.
