(* ===== verification/ElfSpec.v ===== *)
(** * ElfSpec: where a map finds its ELF file

    The position in the ELF object that a pc stands for is the position of the
    pc in the mapped file, whether the file is an ELF file or contains one. *)

From S2P Require Import Prelude Memory DwarfMemory Regs ElfInterface Maps Elf.

Section Position.
Context {Env : Environment} {FS : FileSystem} (k : Z) (content : list Z) (m : MapInfo Elf).
Context (Hk : 0 <= k) (Hpage : getpagesize = 2 ^ k) (Hlen : lengthZ content < 2 ^ 63).
Context (Hfile : file_content (map_name m) = Some content).

(** A mapping of the file of the map. *)
Lemma init_file_Read offset size f0 f addr n : in_unsigned 64 offset -> in_unsigned 64 size ->
  init_file m offset size f0 = (true, f) -> 0 <= addr -> 0 <= n ->
  addr + n <= size -> offset + addr + n <= lengthZ content ->
  Read (file_memory f) addr n = Some (slice content (offset + addr) n).
Proof.
  intros Ho Hs Hinit Ha Hn H1 H2. unfold init_file in Hinit. rewrite Hfile, Hpage in Hinit. simpl.
  rewrite (MemoryFileAtOffset_Read_slice content k mmap offset size f0 f) by done.
  rewrite (proj2 (Z.leb_le _ _)) by lia. done.
Qed.

Lemma GetMaxSize_range AT memory size : GetMaxSize AT memory = Ok (Some size) -> in_unsigned 64 size.
Proof.
  unfold GetMaxSize. destruct (Read _ _ _); [|done]. case_match; [done|]. case_match; [|done]. intros [= <-].
  apply (in_unsigned_mono (bits AT)); [pose proof (bits_pos AT); pose proof (bits_le_64 AT); lia|].
  apply uwrap_range. pose proof (bits_pos AT). lia.
Qed.

Lemma GetInfo_range memory valid size : GetInfo memory = Ok (valid, Some size) -> in_unsigned 64 size.
Proof.
  unfold GetInfo. case_match; [done|]. destruct (Read _ _ _); [|by intros [= _ <-]].
  assert (forall AT, outcome_map (fun size => (true, Some (default 0 size))) (GetMaxSize AT memory) = Ok (valid, Some size) ->
    in_unsigned 64 size) as Hcase.
  { intros AT. destruct (GetMaxSize AT memory) as [[s|]| | |] eqn:E; simpl; try done; [|by intros [= _ <-]].
    intros [= _ <-]. by eapply GetMaxSize_range. }
  case_match; [apply Hcase|]. case_match; [apply Hcase|]. by intros [= _ <-].
Qed.

Context (Hs : in_unsigned 64 (map_start m)) (He : in_unsigned 64 (map_end m)) (Ho : in_unsigned 64 (map_offset m)).
Context (H0 : map_elf_offset m = 0).

Lemma GetFileMemory_Read memory m' a n : GetFileMemory m = Ok (Some memory, m') ->
  map_start m <= a -> 0 <= n -> a + n <= map_end m -> map_offset m + (a - map_start m) + n <= lengthZ content ->
  Read memory (a - map_start m + map_elf_offset m') n = Some (slice content (map_offset m + (a - map_start m)) n).
Proof.
  intros Hget Ha Hn Hend Hin. unfold GetFileMemory, bind, get, id, ret in Hget. unfold in_unsigned in *.
  assert (u64 (map_end m - map_start m) = map_end m - map_start m) as Hsize by (apply uwrap_small; unfold in_unsigned; lia).
  assert (in_unsigned 64 (map_end m - map_start m)) as Hsu by (unfold in_unsigned; lia).
  assert (in_unsigned 64 UINT64_MAX) as Hmax by (unfold in_unsigned, UINT64_MAX; lia).
  assert (forall size f0 f, in_unsigned 64 size -> map_end m - map_start m <= size ->
    init_file m (map_offset m) size f0 = (true, f) ->
    Read (file_memory f) (a - map_start m + map_elf_offset m) n = Some (slice content (map_offset m + (a - map_start m)) n)) as Hpart.
  { intros size f0 f Hsz Hle Hinit. rewrite H0, Z.add_0_r. apply (init_file_Read _ size f0 f); try done; lia. }
  assert (forall f0 f, init_file m 0 UINT64_MAX f0 = (true, f) ->
    Read (file_memory f) (a - map_start m + map_offset m) n = Some (slice content (map_offset m + (a - map_start m)) n)) as Hwhole.
  { intros f0 f Hinit. rewrite (init_file_Read 0 UINT64_MAX f0 f); try done; unfold in_unsigned, UINT64_MAX; try lia.
    do 2 f_equal. lia. }
  destruct (Z.eqb_spec (map_offset m) 0) as [Eo|Eo].
  { destruct (init_file m 0 UINT64_MAX _) as [[] f] eqn:Ei; [|done]. injection Hget as <- <-.
    rewrite H0, <- Eo. by eapply Hwhole. }
  rewrite Hsize in Hget. destruct (init_file m (map_offset m) _ _) as [[] f] eqn:Ei; [|done]. simpl in Hget.
  destruct (GetInfo (file_memory f)) as [[valid max_size]| | |] eqn:Einfo; simpl in Hget; try done.
  destruct valid; simpl in Hget.
  - destruct max_size as [size|]; [|done]. pose proof (GetInfo_range _ _ _ Einfo) as Hr.
    destruct (Z.ltb_spec (map_end m - map_start m) size) as [Hlt|Hge].
    + destruct (init_file m (map_offset m) size f) as [[] f1] eqn:E1.
      { injection Hget as <- <-. apply (Hpart size f f1); try done. lia. }
      destruct (init_file m (map_offset m) _ f1) as [[] f2] eqn:E2; [|done]. injection Hget as <- <-.
      by apply (Hpart (map_end m - map_start m) f1 f2).
    + injection Hget as <- <-. by apply (Hpart (map_end m - map_start m) new_MemoryFileAtOffset f).
  - destruct (init_file m 0 UINT64_MAX f) as [[] f1] eqn:E1; [|done]. injection Hget as <- <-. simpl. by eapply Hwhole.
Qed.

Lemma GetFileMemory_elf_offset r m' : GetFileMemory m = Ok (r, m') -> 0 <= map_elf_offset m' <= map_offset m.
Proof.
  clear k content Hk Hpage Hlen Hfile Hs He. intros Hget. assert (wp anything GetFileMemory (fun _ m' => 0 <= map_elf_offset m' <= map_offset m) m) as Hwp.
  { unfold GetFileMemory. unfold in_unsigned in Ho. wp_step. wp_step. unfold id.
    destruct (map_offset m =? 0); [destruct (init_file _ _ _ _); wp_step; lia|].
    destruct (init_file _ _ _ _) as [[] f]; cbn [negb]; [|wp_step; lia]. wp_step.
    unfold wp at 1. destruct (GetInfo _) as [[valid size]| | |]; simpl; try done.
    destruct valid; [destruct size as [size|]; [|done]|]; cbn [negb].
    - destruct (_ <? size); [|wp_step; lia]. destruct (init_file _ _ _ _) as [[] f1]; [wp_step; lia|].
      destruct (init_file _ _ _ _) as [ok f2]; wp_step; lia.
    - destruct (init_file _ _ _ _) as [[] f1]; [|wp_step; lia]. wp_go. lia. }
  by apply (wp_run _ _ _ _ _ _ Hwp Hget).
Qed.

End Position.


(** A file of twelve bytes that is no ELF file, mapped from its fourth byte on. *)
Definition sample_file : list Z := [10; 11; 12; 13; 14; 15; 16; 17; 18; 19; 20; 21].

