(* ===== verification/Unwinder.v ===== *)
(** * Unwinder: the frames of a stack
    (libunwindstack/Unwinder.cpp, Unwinder.h)

    [Unwind] repeats the step of one frame: it finds the map of the pc, gets the
    ELF object of the map, adds a frame and steps to the caller, or tries the
    return address once when stepping fails.  What it uses of an ELF object is
    the class [ElfObject]; [Elf] is an instance. *)

From Stdlib Require Import Ascii.
From S2P Require Import Prelude CLib Memory DwarfMemory Regs ElfInterface Maps Elf.

(** What the unwinder calls of an ELF object of type [E] and of the map that
    has it. *)
Class ElfObject (E : Type) := {
  map_GetElf : Memory -> M (MapInfo E) E;
  elf_GetRelPc : Z -> Z -> Z -> E -> Z;
  elf_GetLoadBias : E -> Z;
  elf_GetAdjustedPc : Machine -> Z -> E -> Z;
  elf_GetFunctionName : Z -> M E (option (list Z * Z));
  elf_Step : Z -> Z -> Memory -> Regs -> M E (option bool * Regs)
}.

(** The memory of an object without one is not read. *)
#[global] Instance Elf_object `{Environment, FileSystem} : ElfObject Elf := {|
  map_GetElf process_memory := GetElf process_memory true;
  elf_GetRelPc := GetRelPc;
  elf_GetLoadBias := load_bias_;
  elf_GetAdjustedPc m rel_pc e :=
    GetAdjustedPc m rel_pc (valid_ e) (load_bias_ e) (default (mkMemory (fun _ _ => None)) (memory_ e));
  elf_GetFunctionName := Elf_GetFunctionName;
  elf_Step := Elf_Step
|}.

Record FrameData := mkFrame {
  num : Z;
  frame_rel_pc : Z;
  frame_pc : Z;
  frame_sp : Z;
  function_name : list Z;
  function_offset : Z;
  frame_map_name : list Z;
  frame_map_offset : Z;
  frame_map_start : Z;
  frame_map_end : Z;
  frame_map_load_bias : Z;
  frame_map_flags : Z
}.

Record Unwinder (E : Type) := mkUnwinder {
  max_frames_ : Z;
  unwinder_maps_ : list (MapInfo E);
  unwinder_regs_ : Regs;
  frames_ : list FrameData
}.
Arguments mkUnwinder {E} _ _ _ _.
Arguments max_frames_ {E} _.
Arguments unwinder_maps_ {E} _.
Arguments unwinder_regs_ {E} _.
Arguments frames_ {E} _.

Section Unwinder.
Context {E : Type} {EO : ElfObject E} (process_memory_ : Memory).

Local Abbreviation U := (Unwinder E).

Definition set_unwinder_maps (x : list (MapInfo E)) (u : U) : U :=
  mkUnwinder (max_frames_ u) x (unwinder_regs_ u) (frames_ u).
Definition set_unwinder_regs (x : Regs) (u : U) : U := mkUnwinder (max_frames_ u) (unwinder_maps_ u) x (frames_ u).
Definition set_frames (x : list FrameData) (u : U) : U :=
  mkUnwinder (max_frames_ u) (unwinder_maps_ u) (unwinder_regs_ u) x.

(** [maps_->Find(pc)]; a MapInfo is designated by its index. *)
Definition find_map (pc : Z) : M U (option nat) := fun u =>
  outcome_map (fun r => (r, u)) (Find (unwinder_maps_ u) pc).

(** A method of a map. *)
Definition on_map {A} (i : nat) (m : M (MapInfo E) A) : M U A := fun u =>
  match unwinder_maps_ u !! i with
  | None => Undef
  | Some map => outcome_map (fun '(a, map') => (a, set_unwinder_maps (<[i := map']> (unwinder_maps_ u)) u)) (m map)
  end.

(** A method of the ELF object of a map. *)
Definition on_elf {A} (i : nat) (m : M E A) : M U A :=
  on_map i (fun map =>
    match map_elf map with
    | None => Undef
    | Some e =>
        outcome_map (fun '(a, e') =>
          (a, mkMapInfo (map_start map) (map_end map) (map_offset map) (map_flags map) (map_name map) (Some e')
                (map_elf_offset map))) (m e)
    end).

(** [FillInFrame] for a map, and for a null pointer. *)
Definition FillInFrame (map_info : option nat) (rel_pc : Z) (adjust_pc : bool) : M U unit :=
  u <- get id ;;
  let regs := unwinder_regs_ u in
  let number := lengthZ (frames_ u) in
  match map_info with
  | None => modify (set_frames (frames_ u ++ [mkFrame number rel_pc (pc_ regs) (sp_ regs) [] 0 [] 0 0 0 0 0]))
  | Some i =>
      map <- on_map i (get id) ;;
      adjusted <- on_elf i (get (fun e => if adjust_pc then elf_GetAdjustedPc (machine regs) rel_pc e else rel_pc)) ;;
      load_bias <- on_elf i (get elf_GetLoadBias) ;;
      name <- on_elf i (elf_GetFunctionName adjusted) ;;
      let '(function, offset) := default ([], 0) name in
      let frame := mkFrame number adjusted (u64 (pc_ regs - (rel_pc - adjusted))) (sp_ regs) function offset
                     (map_name map) (map_offset map) (map_start map) (map_end map) load_bias (map_flags map) in
      modify (fun u => set_frames (frames_ u ++ [frame]) u)
  end.

(** The characters behind the last [c], [None] without one. *)
Fixpoint behind_last (c : Z) (l : list Z) : option (list Z) :=
  match l with
  | [] => None
  | x :: l' => match behind_last c l' with
               | Some r => Some r
               | None => if x =? c then Some l' else None
               end
  end.

Definition ShouldStop (map_suffixes_to_ignore : option (list (list Z))) (map_name : list Z) : bool :=
  match map_suffixes_to_ignore with
  | None => false
  | Some suffixes => match behind_last 46 map_name with
                     | None => false
                     | Some suffix => bool_decide (suffix ∈ suffixes)
                     end
  end.

(** basename of string.h *)
Definition basename (name : list Z) : list Z := default name (behind_last 47 name).

(** The local variables: [return_address_attempt], [adjust_pc] and
    [initial_map_names_to_skip]. *)
Record locals := mkLocals { attempt : bool; adjust : bool; to_skip : option (list (list Z)) }.

(** [rel_pc] of the frame in the map [i]. *)
Definition get_rel_pc (i : nat) (pc : Z) : M U Z :=
  e <- on_map i (map_GetElf process_memory_) ;;
  map <- on_map i (get id) ;;
  ret (elf_GetRelPc pc (map_start map) (map_elf_offset map) e).

Definition is_device_map (map : MapInfo E) : bool := bits_set (map_flags map) MAPS_FLAGS_DEVICE_MAP.

(** Whether stepping succeeded, whether the unwinding is finished and
    [in_device_map]. *)
Definition step_frame (map_info : option nat) (rel_pc : Z) : M U (bool * bool * bool) :=
  match map_info with
  | None => ret (false, false, false)
  | Some i =>
      map <- on_map i (get id) ;;
      if is_device_map map then ret (false, false, true)
      else
        sp <- get (fun u => sp_ (unwinder_regs_ u)) ;;
        sp_info <- find_map sp ;;
        sp_device <- match sp_info with
                     | None => ret false
                     | Some j => on_map j (get is_device_map)
                     end ;;
        if sp_device : bool then ret (false, false, true)
        else
          regs <- get unwinder_regs_ ;;
          r <- on_elf i (elf_Step rel_pc (map_elf_offset map) process_memory_ regs) ;;
          modify (set_unwinder_regs (snd r)) ;;
          match fst r with
          | None => ret (false, false, false)
          | Some finished => ret (true, finished, false)
          end
  end.

(** [frames_.pop_back()] of an empty vector is undefined. *)
Definition pop_frame : M U unit :=
  frames <- get frames_ ;;
  match frames with
  | [] => undef
  | _ => modify (set_frames (removelast frames))
  end.

(** Whether a frame of this map is added. *)
Definition adds_frame (map : option (MapInfo E)) (to_skip : option (list (list Z))) : bool :=
  match map, to_skip with
  | Some m, Some names => negb (bool_decide (basename (map_name m) ∈ names))
  | _, _ => true
  end.

(** What follows the step: the next round, or the end. *)
Definition after_step (l : locals) (cur_pc cur_sp : Z) (result : bool * bool * bool) : M U (locals + unit) :=
  let '(stepped, finished, in_device_map) := result in
  let continue attempt :=
    same <- get (fun u => (cur_pc =? pc_ (unwinder_regs_ u)) && (cur_sp =? sp_ (unwinder_regs_ u))) ;;
    if same : bool then ret (inr tt) else ret (inl (mkLocals attempt true (to_skip l))) in
  if stepped && finished then ret (inr tt)
  else if negb stepped then
    if attempt l then pop_frame ;; ret (inr tt)
    else if in_device_map then ret (inr tt)
    else
      regs <- get unwinder_regs_ ;;
      match SetPcFromReturnAddress process_memory_ regs with
      | None => ret (inr tt)
      | Some regs => modify (set_unwinder_regs regs) ;; continue true
      end
  else continue false.

Definition Unwind_round (map_suffixes_to_ignore : option (list (list Z))) (l : locals) : M U (locals + unit) :=
  u <- get id ;;
  if lengthZ (frames_ u) <? max_frames_ u then
    let cur_pc := pc_ (unwinder_regs_ u) in
    let cur_sp := sp_ (unwinder_regs_ u) in
    map_info <- find_map cur_pc ;;
    let map := map_info ≫= (fun i => unwinder_maps_ u !! i) in
    if match map with Some m => ShouldStop map_suffixes_to_ignore (map_name m) | None => false end then ret (inr tt)
    else
      rel_pc <- match map_info with None => ret cur_pc | Some i => get_rel_pc i cur_pc end ;;
      let added := adds_frame map (to_skip l) in
      (if added then FillInFrame map_info rel_pc (adjust l) else ret tt) ;;
      result <- step_frame map_info rel_pc ;;
      after_step (mkLocals (attempt l) true (if added then None else to_skip l)) cur_pc cur_sp result
  else ret (inr tt).

(** [Unwind].  [fuel] bounds the number of rounds. *)
Definition Unwind (fuel : nat) (initial_map_names_to_skip map_suffixes_to_ignore : option (list (list Z))) : M U unit :=
  modify (set_frames []) ;;
  iter fuel (Unwind_round map_suffixes_to_ignore) (mkLocals false false initial_map_names_to_skip).

Definition NumFrames : M U Z := get (fun u => lengthZ (frames_ u)).

End Unwinder.

(** ** FormatFrame *)

(** Zeros in front of a number up to a width. *)
Definition zero_padded (width : nat) (l : list Z) : list Z := replicate (width - length l) 48 ++ l.

(** The pc is printed with 8 or 16 hexadecimal digits, the offset in the
    function as a signed number. *)
Definition FormatFrame (frame : FrameData) (bits32 : bool) : list Z :=
  chars "  #" ++ zero_padded 2 (print_number 10 (num frame)) ++ chars " pc " ++
  zero_padded (if bits32 then 8 else 16) (print_number 16 (frame_rel_pc frame)) ++
  (if negb (frame_map_offset frame =? 0)
   then chars " (offset 0x" ++ print_number 16 (frame_map_offset frame) ++ chars ")" else []) ++
  (if frame_map_start frame =? frame_map_end frame then chars "  <unknown>"
   else if negb (bool_decide (frame_map_name frame = [])) then chars "  " ++ frame_map_name frame
   else chars "  <anonymous:" ++ print_number 16 (frame_map_start frame) ++ chars ">") ++
  (if negb (bool_decide (function_name frame = []))
   then chars " (" ++ function_name frame ++
        (if negb (function_offset frame =? 0) then chars "+" ++ to_string (s64 (function_offset frame)) else []) ++
        chars ")"
   else []).

(** The frame of a number: nothing for one that does not exist. *)
Definition FormatFrame_number {E} (frame_num : Z) (u : Unwinder E) : list Z :=
  match frames_ u !! Z.to_nat frame_num with
  | Some frame => FormatFrame frame ((MachineType (machine (unwinder_regs_ u)) =? EM_ARM) ||
                                     (MachineType (machine (unwinder_regs_ u)) =? EM_386))
  | None => []
  end.

(** A line of a backtrace. *)
Example FormatFrame_example :
  FormatFrame (mkFrame 1 0x1234 0x71234 0x9000 (chars "main") 4 (chars "/lib/a.so") 0x1000 0x70000 0x80000 0 5) true =
  chars "  #01 pc 00001234 (offset 0x1000)  /lib/a.so (main+4)".
Proof. by vm_compute. Qed.
