(* ===== verification/UnwinderSpec.v ===== *)
(** * UnwinderSpec: the loop of the unwinder

    Proved for every implementation of the ELF interface: the number and the
    numbering of the frames, the first frame, termination, and what skipping
    maps can lead to. *)

From S2P Require Import Prelude Memory DwarfMemory Regs ElfInterface Maps Elf Unwinder.

(** A loop whose rounds decrease a measure needs no more fuel than that. *)
Lemma iter_enough {S L A} (body : L -> M S (L + A)) (I : L -> S -> Prop) (mu : L -> S -> nat) :
  (forall l s l' s', I l s -> body l s = Ok (inl l', s') -> I l' s' /\ (mu l' s' < mu l s)%nat) ->
  forall n m l s, I l s -> (mu l s < n)%nat -> (n <= m)%nat -> iter m body l s = iter n body l s.
Proof.
  intros Hbody n. induction n as [|n IH]; intros m l s HI Hmu Hle; [lia|]. destruct m as [|m]; [lia|]. simpl. unfold bind.
  destruct (body l s) as [[[l'|a] s']| | |] eqn:E; try done. destruct (Hbody l s l' s' HI E). apply IH; [done|lia|lia].
Qed.

Section Frames.
Context {E : Type} {EO : ElfObject E} (process_memory : Memory).
Implicit Types u : Unwinder E.

(** Calls that touch neither the frames nor the registers. *)
Definition keeps u u' : Prop :=
  frames_ u' = frames_ u /\ max_frames_ u' = max_frames_ u /\ unwinder_regs_ u' = unwinder_regs_ u.

Lemma keeps_refl u : keeps u u.
Proof. done. Qed.

Lemma keeps_trans u1 u2 u3 : keeps u1 u2 -> keeps u2 u3 -> keeps u1 u3.
Proof. unfold keeps. intros (? & ? & ?) (? & ? & ?). split_and!; congruence. Qed.

Lemma keeps_on_map {A} i (m : M (MapInfo E) A) u : wp anything (on_map i m) (fun _ u' => keeps u u') u.
Proof. unfold on_map, wp. destruct (_ !! i); [|done]. by destruct (m _) as [[]| | |]. Qed.

Lemma keeps_on_elf {A} i (m : M E A) u : wp anything (on_elf i m) (fun _ u' => keeps u u') u.
Proof. apply keeps_on_map. Qed.

Lemma keeps_find_map pc u : wp anything (find_map pc) (fun _ u' => u' = u) u.
Proof. unfold find_map, wp. by destruct (Find _ _). Qed.

Lemma keeps_get_rel_pc i pc u : wp anything (get_rel_pc process_memory i pc) (fun _ u' => keeps u u') u.
Proof.
  unfold get_rel_pc. apply wp_bind. eapply wp_mono; [apply keeps_on_map|]. intros e u1 H1. simpl.
  apply wp_bind. eapply wp_mono; [apply keeps_on_map|]. intros map u2 H2. simpl. apply wp_ret. exact (keeps_trans _ _ _ H1 H2).
Qed.

(** The frame that [FillInFrame] adds. *)
Definition added (adjust_pc : bool) u u' : Prop :=
  max_frames_ u' = max_frames_ u /\ unwinder_regs_ u' = unwinder_regs_ u /\
  exists f, frames_ u' = frames_ u ++ [f] /\ num f = lengthZ (frames_ u) /\ frame_sp f = sp_ (unwinder_regs_ u) /\
    (adjust_pc = false -> in_unsigned 64 (pc_ (unwinder_regs_ u)) -> frame_pc f = pc_ (unwinder_regs_ u)).

Lemma FillInFrame_added mi rel_pc adjust_pc u :
  wp anything (FillInFrame mi rel_pc adjust_pc) (fun _ u' => added adjust_pc u u') u.
Proof.
  unfold FillInFrame. wp_step. wp_step. unfold id. destruct mi as [i|].
  2: { wp_step. split_and!; try done. by eexists. }
  apply wp_bind. eapply wp_mono; [apply keeps_on_map|]. intros map u1 H1. simpl.
  unfold on_elf at 1. apply wp_bind. unfold wp at 1, on_map at 1.
  destruct (unwinder_maps_ u1 !! i) as [map1|]; [|done]. destruct (map_elf map1) as [e|]; [|done]. simpl.
  set (u2 := set_unwinder_maps _ _). assert (keeps u u2) as H2 by exact H1. clearbody u2.
  apply wp_bind. eapply wp_mono; [apply keeps_on_elf|]. intros bias u3 H3. simpl.
  apply wp_bind. eapply wp_mono; [apply keeps_on_elf|]. intros name u4 H4. simpl.
  destruct (keeps_trans u u3 u4 (keeps_trans u u2 u3 H2 H3) H4) as (Hf & Hm & Hr).
  destruct (default ([], 0) name) as [function offset]. wp_step. split_and!; simpl; try done.
  eexists. split; [by rewrite Hf|]. split_and!; try done. intros -> Hpc. simpl.
  rewrite Z.sub_diag, Z.sub_0_r. by apply uwrap_small.
Qed.

Lemma step_frame_frames mi rel_pc u :
  wp anything (step_frame process_memory mi rel_pc) (fun _ u' => frames_ u' = frames_ u /\ max_frames_ u' = max_frames_ u) u.
Proof.
  unfold step_frame. destruct mi as [i|]; [|by wp_step].
  apply wp_bind. eapply wp_mono; [apply keeps_on_map|]. intros map u1 (Hf1 & Hm1 & _). simpl. rewrite <- Hf1, <- Hm1.
  destruct (is_device_map map); [by wp_step|]. wp_step. wp_step.
  apply wp_bind. eapply wp_mono; [apply keeps_find_map|]. intros spi u2 ->. simpl.
  apply wp_bind. apply (wp_mono _ _ (fun _ u' => keeps u1 u')).
  { destruct spi; [apply keeps_on_map|by wp_step]. }
  intros device u3 (Hf3 & Hm3 & _). simpl. rewrite <- Hf3, <- Hm3. destruct device; [by wp_step|].
  wp_step. wp_step. apply wp_bind. eapply wp_mono; [apply keeps_on_elf|]. intros r u4 (Hf4 & Hm4 & _). simpl.
  wp_step. wp_step. destruct (fst r); by wp_step.
Qed.

(** What follows the step keeps the frames, or removes the last one when the
    round was an attempt with the return address. *)
Lemma after_step_frames l pc sp result u : 
  wp anything (after_step process_memory l pc sp result) (fun r u' =>
    max_frames_ u' = max_frames_ u /\
    match r with
    | inl l' => frames_ u' = frames_ u /\ adjust l' = true /\ to_skip l' = to_skip l
    | inr _ => frames_ u' = frames_ u \/ (attempt l = true /\ frames_ u <> [] /\ frames_ u' = removelast (frames_ u))
    end) u.
Proof.
  unfold after_step. destruct result as [[stepped finished] device]. destruct (stepped && finished).
  { wp_step. split; [done|by left]. }
  destruct stepped; cbn [negb].
  { wp_step. wp_step. simpl. destruct (_ && _); wp_step; split; try done. by left. }
  destruct (attempt l) eqn:Ea.
  { wp_step. unfold pop_frame. wp_step. wp_step. destruct (frames_ u) as [|f fs] eqn:Ef; [done|].
    wp_step. wp_step. split; [done|]. by right. }
  destruct device; [wp_step; split; [done|by left]|]. wp_step. wp_step.
  destruct (SetPcFromReturnAddress _ _) as [regs|]; [|wp_step; split; [done|by left]].
  wp_step. wp_step. wp_step. wp_step. simpl. destruct (_ && _); wp_step; split; try done. by left.
Qed.

(** The frames are numbered from 0 on. *)
Definition numbered (fs : list FrameData) : Prop := forall i f, fs !! i = Some f -> num f = Z.of_nat i.

Lemma numbered_snoc fs f : numbered fs -> num f = lengthZ fs -> numbered (fs ++ [f]).
Proof.
  intros Hn Hf i g. rewrite lookup_app_Some. intros [H|[Hi H]]; [by apply Hn|].
  apply list_lookup_singleton_Some in H as [H ->]. rewrite Hf. unfold lengthZ. lia.
Qed.

Lemma removelast_snoc {A} (l : list A) x : removelast (l ++ [x]) = l.
Proof. apply removelast_last. Qed.

Lemma removelast_length {A} (l : list A) : (length (removelast l) <= length l)%nat.
Proof. induction l as [|x [|y l] IH]; simpl in *; lia. Qed.

Lemma numbered_removelast fs : numbered fs -> numbered (removelast fs).
Proof.
  intros Hn i f H. apply Hn. destruct fs as [|x fs _] using rev_ind; [done|].
  rewrite removelast_snoc in H. by apply lookup_app_l_Some.
Qed.

(** One round: at most one frame is added.  When no maps are skipped, the
    rounds that go on add one. *)
Definition round_frames (sfx : option (list (list Z))) (l : locals) u (r : locals + unit) u' : Prop :=
  max_frames_ u' = max_frames_ u /\
  ((r = inr tt /\ frames_ u' = frames_ u) \/
   (lengthZ (frames_ u) < max_frames_ u /\
    exists fs, (fs = frames_ u /\ to_skip l <> None \/ exists f, fs = frames_ u ++ [f] /\ num f = lengthZ (frames_ u) /\
                  frame_sp f = sp_ (unwinder_regs_ u) /\
                  (adjust l = false -> in_unsigned 64 (pc_ (unwinder_regs_ u)) -> frame_pc f = pc_ (unwinder_regs_ u))) /\
      match r with
      | inl l' => frames_ u' = fs /\ adjust l' = true /\ (to_skip l = None -> to_skip l' = None)
      | inr _ => frames_ u' = fs \/ attempt l = true /\ frames_ u' = removelast fs
      end)).

Lemma Unwind_round_frames sfx l u :
  wp anything (Unwind_round process_memory sfx l) (round_frames sfx l u) u.
Proof.
  unfold Unwind_round. wp_step. wp_step. unfold id.
  destruct (Z.ltb_spec (lengthZ (frames_ u)) (max_frames_ u)) as [Hlt|Hge]; [|by wp_step; split; [|left]].
  apply wp_bind. eapply wp_mono; [apply keeps_find_map|]. intros mi u1 ->. simpl.
  set (map := mi ≫= _). destruct (match map with Some m => _ | None => _ end); [by wp_step; split; [|left]|].
  apply wp_bind. apply (wp_mono _ _ (fun _ u' => keeps u u')).
  { destruct mi; [apply keeps_get_rel_pc|by wp_step]. }
  intros rel_pc u2 (Hf2 & Hm2 & Hr2). simpl. apply wp_bind.
  set (add := adds_frame map (to_skip l)).
  apply (wp_mono _ _ (fun _ u' => if add then added (adjust l) u2 u' else u' = u2)).
  { destruct add; [apply FillInFrame_added|by wp_step]. }
  intros [] u3 H3. simpl. apply wp_bind. eapply wp_mono; [apply step_frame_frames|]. intros result u4 [Hf4 Hm4]. simpl.
  eapply wp_mono; [apply after_step_frames|]. simpl. intros r u5 [Hm5 Hr5].
  assert (max_frames_ u3 = max_frames_ u2) as Hm3 by (destruct add; [by destruct H3|by subst u3]).
  split; [congruence|]. right. split; [done|]. exists (frames_ u3). split.
  - destruct add eqn:Eadd.
    + right. destruct H3 as (_ & _ & f & H3). rewrite Hf2, Hr2 in H3. by exists f.
    + left. subst u3. split; [done|]. unfold add, adds_frame in Eadd. by destruct map, (to_skip l).
  - rewrite Hf4 in Hr5. destruct r as [l'|[]].
    + destruct Hr5 as (-> & -> & ->). split_and!; try done. intros ->. by destruct add.
    + destruct Hr5 as [->|(-> & _ & ->)]; [by left|by right].
Qed.
Definition bounded (n : Z) u : Prop := max_frames_ u = n /\ lengthZ (frames_ u) <= n /\ numbered (frames_ u).

Lemma bounded_round sfx n l u r u' : bounded n u -> round_frames sfx l u r u' -> bounded n u'.
Proof.
  intros (Hm & Hle & Hn) [Hm' H]. unfold bounded. rewrite Hm'. split; [done|].
  destruct H as [[_ ->]|(Hlt & fs & Hfs & Hr)]; [done|].
  assert (lengthZ fs <= n /\ numbered fs) as [Hfs1 Hfs2].
  { destruct Hfs as [[-> _]|(f & -> & Hnum & _)]; [done|]. split; [rewrite lengthZ_app; unfold lengthZ in *; simpl; lia|].
    by apply numbered_snoc. }
  destruct r as [l'|[]]; [destruct Hr as [-> _]; done|]. destruct Hr as [->|[_ ->]]; [done|].
  split; [|by apply numbered_removelast]. pose proof (removelast_length fs). unfold lengthZ in *. lia.
Qed.

(** The first frame is the state of the thread. *)
Definition first_frame (regs : Regs) (fs : list FrameData) : Prop :=
  match fs with
  | [] => True
  | f :: _ => (in_unsigned 64 (pc_ regs) -> frame_pc f = pc_ regs) /\ frame_sp f = sp_ regs
  end.

Definition starting (regs : Regs) (l : locals) u : Prop :=
  to_skip l = None /\ first_frame regs (frames_ u) /\
  (frames_ u = [] -> adjust l = false /\ attempt l = false /\ unwinder_regs_ u = regs).

Lemma starting_round sfx regs l u r u' : starting regs l u -> round_frames sfx l u r u' ->
  first_frame regs (frames_ u') /\
  match r with
  | inl l' => starting regs l' u' /\ lengthZ (frames_ u') = lengthZ (frames_ u) + 1 /\ lengthZ (frames_ u) < max_frames_ u
  | inr _ => True
  end.
Proof.
  intros (Hs & Hf & He) [Hm H]. destruct H as [[-> ->]|(Hlt & fs & Hfs & Hr)]; [done|].
  destruct Hfs as [[_ ?]|(f & -> & Hnum & Hsp & Hpc)]; [done|].
  assert (first_frame regs (frames_ u ++ [f])) as Hfirst.
  { destruct (frames_ u) as [|g gs]; [|done]. destruct He as (Ha & _ & <-); [done|]. split; [|done].
    intros Hrange. by apply Hpc. }
  destruct r as [l'|[]].
  - destruct Hr as (E' & Hadj & Hskip). unfold starting. rewrite E'. split; [done|]. split_and!; try done.
    + by apply Hskip.
    + intros Hnil. by destruct (frames_ u).
    + rewrite lengthZ_app. unfold lengthZ. simpl. lia.
  - destruct Hr as [->|[_ ->]]; [done|]. by rewrite removelast_snoc.
Qed.

Lemma Unwind_start fuel skip sfx u : Unwind process_memory fuel skip sfx u =
  iter fuel (Unwind_round process_memory sfx) (mkLocals false false skip) (set_frames [] u).
Proof. done. Qed.

End Frames.

(** C24: whatever the ELF objects do, an unwinding that returns has at most
    [max_frames_] frames, numbered from 0 on.  When no maps are to be skipped,
    the first frame has the pc and the sp the registers had before, and the loop
    ends within [max_frames_] + 1 rounds: more fuel never changes the result. *)
Theorem Unwind_frames {E} {EO : ElfObject E} process_memory fuel skip sfx (u : Unwinder E) :
  0 <= max_frames_ u ->
  (forall u', Unwind process_memory fuel skip sfx u = Ok (tt, u') ->
     lengthZ (frames_ u') <= max_frames_ u /\ numbered (frames_ u')) /\
  (skip = None ->
   (forall u', Unwind process_memory fuel skip sfx u = Ok (tt, u') -> first_frame (unwinder_regs_ u) (frames_ u')) /\
   (max_frames_ u < Z.of_nat fuel -> forall more, (fuel <= more)%nat ->
      Unwind process_memory more skip sfx u = Unwind process_memory fuel skip sfx u)).
Proof.
  intros Hmax. split; [|intros ->; split].
  - intros u' Hu. rewrite Unwind_start in Hu.
    assert (wp anything (iter fuel (Unwind_round process_memory sfx) (mkLocals false false skip))
              (fun _ u' => bounded (max_frames_ u) u') (set_frames [] u)) as Hwp.
    { apply wp_iter_partial with (I := fun _ u' => bounded (max_frames_ u) u'); [done| |by split_and!].
      intros l u1 H1. eapply wp_mono; [apply Unwind_round_frames|]. intros r u2 Hr.
      pose proof (bounded_round _ _ _ _ _ _ H1 Hr). by destruct r. }
    by apply (wp_run _ _ _ _ _ _ Hwp) in Hu as (_ & ? & ?).
  - intros u' Hu. rewrite Unwind_start in Hu.
    assert (wp anything (iter fuel (Unwind_round process_memory sfx) (mkLocals false false None))
              (fun _ u' => first_frame (unwinder_regs_ u) (frames_ u')) (set_frames [] u)) as Hwp.
    { apply wp_iter_partial with (I := starting (unwinder_regs_ u)); [done| |done].
      intros l u1 H1. eapply wp_mono; [apply Unwind_round_frames|]. intros r u2 Hr.
      destruct (starting_round _ _ _ _ _ _ H1 Hr) as [? ?]. by destruct r; [tauto|]. }
    exact (wp_run _ _ _ _ _ _ Hwp Hu).
  - intros Hfuel more Hmore. rewrite !Unwind_start.
    apply (iter_enough _ (fun l u' => starting (unwinder_regs_ u) l u' /\ bounded (max_frames_ u) u')
             (fun _ u' => Z.to_nat (max_frames_ u' - lengthZ (frames_ u')))); [|by split_and!|simpl; unfold lengthZ; simpl; lia|done].
    intros l u1 l' u2 [H1 H2] Hround.
    pose proof (wp_run _ _ _ _ _ _ (Unwind_round_frames process_memory sfx l u1) Hround) as Hr.
    destruct (starting_round _ _ _ _ _ _ H1 Hr) as (_ & H1' & Hl & Hlt).
    pose proof (bounded_round _ _ _ _ _ _ H2 Hr) as H2'. split; [done|].
    destruct H2 as [E2 _], H2' as [E2' _]. rewrite E2, E2' in *. lia.
Qed.

(** ** Skipped maps *)

Section Skipped.
Context {E : Type} {EO : ElfObject E} (process_memory : Memory).
Context (maps : list (MapInfo E)) (i : nat) (map : MapInfo E) (e : E) (names : list (list Z)).
Context (Hmap : maps !! i = Some map) (Helf : map_elf map = Some e).
Context (Hget : map_GetElf process_memory map = Ok (e, map)).
Context (Hdevice : is_device_map map = false) (Hskip : basename (map_name map) ∈ names).

(** Registers with the pc in the map that is skipped and the sp outside of all
    maps. *)
Definition in_skipped (regs : Regs) : Prop :=
  Find maps (pc_ regs) = Ok (Some i) /\ Find maps (sp_ regs) = Ok None.

(** The step of the ELF object from these registers. *)
Definition elf_steps (regs : Regs) (result : option bool * Regs) : Prop :=
  elf_Step (elf_GetRelPc (pc_ regs) (map_start map) (map_elf_offset map) e) (map_elf_offset map) process_memory regs e =
    Ok (result, e).

Lemma on_map_id {A} (m : M (MapInfo E) A) a n regs fs :
  m map = Ok (a, map) -> on_map i m (mkUnwinder n maps regs fs) = Ok (a, mkUnwinder n maps regs fs).
Proof. intros H. unfold on_map. simpl. rewrite Hmap, H. simpl. by rewrite list_insert_id. Qed.

Lemma skipped_round n fs l regs result regs' :
  lengthZ fs < n -> to_skip l = Some names -> in_skipped regs -> elf_steps regs (result, regs') ->
  Unwind_round process_memory None l (mkUnwinder n maps regs fs) =
  after_step process_memory (mkLocals (attempt l) true (Some names)) (pc_ regs) (sp_ regs)
    (match result with None => (false, false, false) | Some finished => (true, finished, false) end)
    (mkUnwinder n maps regs' fs).
Proof.
  intros Hn Hl [Hpc Hsp] Hstep. unfold Unwind_round, bind at 1, get, id. cbn [frames_ max_frames_ unwinder_regs_ unwinder_maps_].
  rewrite (proj2 (Z.ltb_lt _ _) Hn). unfold bind at 1, find_map at 1. cbn [unwinder_maps_]. rewrite Hpc. cbn [outcome_map].
  cbn [mbind option_bind]. rewrite Hmap. cbn [ShouldStop]. unfold bind at 1, get_rel_pc at 1, bind at 1.
  rewrite (on_map_id _ _ n regs fs Hget). unfold bind at 1. rewrite (on_map_id (get id) map) by done. unfold ret at 1.
  rewrite Hl. cbn [adds_frame]. rewrite bool_decide_true by done. cbn [negb]. unfold bind at 1, ret at 1.
  unfold bind at 1, step_frame, bind at 1. rewrite (on_map_id (get id) map) by done. rewrite Hdevice.
  unfold bind at 1, get. cbn [unwinder_regs_]. unfold bind at 1, find_map. cbn [unwinder_maps_]. rewrite Hsp. cbn [outcome_map].
  unfold bind at 1, ret at 1. unfold bind at 1. cbn [unwinder_regs_]. unfold bind at 1, on_elf, on_map at 1. cbn [unwinder_maps_].
  rewrite Hmap, Helf. unfold elf_steps in Hstep. rewrite Hstep. cbn [outcome_map].
  assert (mkMapInfo (map_start map) (map_end map) (map_offset map) (map_flags map) (map_name map) (Some e)
            (map_elf_offset map) = map) as -> by (by rewrite <- Helf; destruct map).
  rewrite list_insert_id by done. unfold bind at 1, modify. cbn. by destruct result.
Qed.

End Skipped.

(** Unwinding with maps to skip can go wrong while no frame has been added:
    when the ELF object steps between two frames of a skipped map back and
    forth, the loop never ends; and when stepping fails in a skipped map for two
    frames in a row, the frame the code removes as speculative was never added,
    and pop_back of the empty vector is undefined. *)
Theorem Unwind_skipping {E} {EO : ElfObject E} process_memory maps i map e names n (regs regs' : Regs) :
  maps !! i = Some map -> map_elf map = Some e -> map_GetElf process_memory map = Ok (e, map) ->
  is_device_map map = false -> basename (map_name map) ∈ names ->
  in_skipped maps i regs -> in_skipped maps i regs' -> 0 < n -> pc_ regs <> pc_ regs' ->
  (elf_steps process_memory map e regs (Some false, regs') -> elf_steps process_memory map e regs' (Some false, regs) ->
   forall fuel, Unwind process_memory fuel (Some names) None (mkUnwinder n maps regs []) = NoFuel) /\
  (elf_steps process_memory map e regs (None, regs) -> elf_steps process_memory map e regs' (None, regs') ->
   SetPcFromReturnAddress process_memory regs = Some regs' ->
   forall fuel, (1 < fuel)%nat -> Unwind process_memory fuel (Some names) None (mkUnwinder n maps regs []) = Undef).
Proof.
  intros Hmap Helf Hget Hdev Hskip Hin Hin' Hn Hpc. assert (lengthZ (@nil FrameData) < n) as Hlt by exact Hn.
  pose proof (skipped_round process_memory maps i map e names Hmap Helf Hget Hdev Hskip n []) as Hround. split.
  - intros H1 H2 fuel. rewrite Unwind_start. unfold set_frames. cbn [max_frames_ unwinder_maps_ unwinder_regs_].
    generalize false at 2 as adj. revert regs regs' Hin Hin' Hpc H1 H2.
    induction fuel as [|fuel IH]; intros r r' Hin Hin' Hpc H1 H2 adj; [done|]. cbn [iter]. unfold bind.
    rewrite (Hround (mkLocals false adj (Some names)) r (Some false) r' Hlt eq_refl Hin H1). unfold after_step. cbn [andb negb].
    unfold bind, get. cbn [unwinder_regs_]. rewrite (proj2 (Z.eqb_neq _ _) Hpc). cbn [andb ret to_skip]. unfold ret.
    exact (IH r' r Hin' Hin (not_eq_sym Hpc) H2 H1 true).
  - intros H1 H2 Hret fuel Hfuel. rewrite Unwind_start. unfold set_frames. cbn [max_frames_ unwinder_maps_ unwinder_regs_].
    destruct fuel as [|[|fuel]]; [lia..|]. cbn [iter]. unfold bind.
    rewrite (Hround (mkLocals false false (Some names)) regs None regs Hlt eq_refl Hin H1). unfold after_step at 1. cbn [andb negb attempt].
    unfold bind at 1, get. cbn [unwinder_regs_]. rewrite Hret. unfold bind, modify. cbn [set_unwinder_regs unwinder_regs_].
    rewrite (proj2 (Z.eqb_neq _ _) Hpc). cbn [andb to_skip]. unfold ret at 1, set_unwinder_regs. cbn [max_frames_ unwinder_maps_ frames_].
    by rewrite (Hround (mkLocals true true (Some names)) regs' None regs' Hlt eq_refl Hin' H2).
Qed.

(** ** An ELF object for the examples

    The function at 0x1000 returns to 0x1010, which the object cannot step out
    of; the one at 0x1020 and the one at 0x1030 call each other. *)
Definition sample_step (regs : Regs) : option bool * Regs :=
  let pc := pc_ regs in
  if pc =? 0x1000 then (Some false, set_pc 0x1010 regs)
  else if pc =? 0x1020 then (Some false, set_pc 0x1030 regs)
  else if pc =? 0x1030 then (Some false, set_pc 0x1020 regs)
  else (None, regs).

#[local] Instance sample_object : ElfObject unit := {|
  map_GetElf _ := get (fun _ => tt);
  elf_GetRelPc pc start elf_offset _ := pc - start + elf_offset;
  elf_GetLoadBias _ := 0;
  elf_GetAdjustedPc _ rel_pc _ := rel_pc - 1;
  elf_GetFunctionName _ := ret None;
  elf_Step _ _ _ regs := ret (sample_step regs)
|}.

Definition sample_memory : Memory := mkMemory (fun _ _ => None).

(** A library "a" with the code, the stack is not mapped. *)
Definition sample_maps : list (MapInfo unit) := [mkMapInfo 0x1000 0x2000 0 5 [97] (Some tt) 0].

Definition sample_regs (pc lr : Z) : Regs := set_reg ARM64_REG_LR lr (new_Regs Arm64 pc 0x9000).

Lemma Unwind_frames_witness :
  exists u', Unwind sample_memory 5 None None (mkUnwinder 4 sample_maps (sample_regs 0x1000 0x1010) []) = Ok (tt, u') /\
    lengthZ (frames_ u') <= 4 /\ first_frame (sample_regs 0x1000 0x1010) (frames_ u').
Proof.
  destruct (Unwind_frames sample_memory 5 None None (mkUnwinder 4 sample_maps (sample_regs 0x1000 0x1010) []) ltac:(done))
    as [H1 H2]. destruct (H2 eq_refl) as [H3 _].
  destruct (Unwind _ _ _ _ _) as [[[] u']| | |] eqn:Eu; try (by vm_compute in Eu).
  exists u'. destruct (H1 u' eq_refl). split_and!; [done|done|]. by apply H3.
Defined.

Lemma Unwind_skipping_witness :
  (forall fuel, Unwind sample_memory fuel (Some [[97]]) None (mkUnwinder 4 sample_maps (sample_regs 0x1020 0) []) = NoFuel) /\
  Unwind sample_memory 2 (Some [[97]]) None (mkUnwinder 4 sample_maps (sample_regs 0x1040 0x1050) []) = Undef.
Proof.
  pose (map := mkMapInfo 0x1000 0x2000 0 5 [97] (Some tt) 0 : MapInfo unit). split.
  - apply (Unwind_skipping sample_memory sample_maps 0 map tt [[97]] 4 (sample_regs 0x1020 0) (set_pc 0x1030 (sample_regs 0x1020 0)));
      first [by_decide | by vm_compute | split; by vm_compute].
  - apply (Unwind_skipping sample_memory sample_maps 0 map tt [[97]] 4 (sample_regs 0x1040 0x1050)
             (set_pc 0x1050 (sample_regs 0x1040 0x1050))); first [lia | by_decide | by vm_compute | split; by vm_compute].
Defined.
