(* ===== verification/Buffer.v ===== *)
(** * Buffers of bytes

    A block of memory is the list of its bytes and a pointer into it an index.
    This file holds the accesses of a C++ program to a block, which are undefined
    out of range, the integers in network byte order, and the lemmas on parts of
    a block that are overwritten. *)

From S2P Require Import Prelude Memory.

(** The byte at an index, and overwriting the bytes from an index on. *)
Definition byte_at (l : list Z) (i : Z) : Z := nth (Z.to_nat i) l 0.

Definition splice (l : list Z) (a : Z) (bs : list Z) : list Z :=
  take (Z.to_nat a) l ++ bs ++ drop (Z.to_nat (a + lengthZ bs)) l.

Definition in_block (l : list Z) (a n : Z) : bool :=
  (0 <=? a) && (0 <=? n) && (a + n <=? lengthZ l).

(** [*p] for a [char *], and [*p = v]. *)
Definition load (i : Z) : M (list Z) Z :=
  l <- get id ;; require (in_block l i 1) ;; ret (byte_at l i).

Definition store (i v : Z) : M (list Z) unit :=
  l <- get id ;; require (in_block l i 1) ;; modify (fun l => splice l i [v]).

(** memcpy out of and into a block. *)
Definition load_bytes (i n : Z) : M (list Z) (list Z) :=
  l <- get id ;; require (in_block l i n) ;; ret (slice l i n).

Definition store_bytes (i : Z) (bs : list Z) : M (list Z) unit :=
  l <- get id ;; require (in_block l i (lengthZ bs)) ;; modify (fun l => splice l i bs).

(** A computation on a block of its own. *)
Definition with_block {S A} (l : list Z) (m : M (list Z) A) : M S A :=
  match m l with
  | Ok (a, _) => ret a
  | Abort => abort
  | Undef => undef
  | NoFuel => fun _ => NoFuel
  end.

(** Integers in network byte order: ntohs and be64toh of the integer loaded from
    [bs] on a little-endian host, and the bytes htons and htobe64 store. *)
Definition be_combine (bs : list Z) : Z := le_combine (rev bs).

Definition be_split (n : nat) (z : Z) : list Z := rev (le_split n z).

(** ** Lemmas on parts of a block *)

Lemma lengthZ_nil {A} : lengthZ ([] : list A) = 0.
Proof. done. Qed.

Lemma lengthZ_0 {A} (l : list A) : lengthZ l = 0 -> l = [].
Proof. destruct l; [done|]. rewrite lengthZ_cons. pose proof (lengthZ_nonneg l). lia. Qed.

Lemma lengthZ_rev {A} (l : list A) : lengthZ (rev l) = lengthZ l.
Proof. unfold lengthZ. by rewrite length_rev. Qed.

Lemma in_block_spec l a n : in_block l a n = true <-> 0 <= a /\ 0 <= n /\ a + n <= lengthZ l.
Proof. unfold in_block. lia. Qed.

Lemma slice_0 l a : slice l a 0 = [].
Proof. done. Qed.

Lemma slice_whole l : slice l 0 (lengthZ l) = l.
Proof. unfold slice, lengthZ. rewrite Nat2Z.id. by apply take_ge. Qed.

Lemma slice_app_l l1 l2 n : 0 <= n <= lengthZ l1 -> slice (l1 ++ l2) 0 n = slice l1 0 n.
Proof. intros. unfold slice, lengthZ in *. rewrite !drop_0. apply take_app_le. lia. Qed.

Lemma slice_app_r l1 l2 a n : lengthZ l1 <= a -> slice (l1 ++ l2) a n = slice l2 (a - lengthZ l1) n.
Proof. intros. unfold slice, lengthZ in *. rewrite drop_app_ge by lia. do 2 f_equal. lia. Qed.

(** The part of a concatenation that is its first list. *)
Lemma slice_prefix l1 l2 : slice (l1 ++ l2) 0 (lengthZ l1) = l1.
Proof. rewrite slice_app_l by (pose proof (lengthZ_nonneg l1); lia). apply slice_whole. Qed.

Lemma slice_S l a n : 0 <= a -> 0 < n -> a + n <= lengthZ l ->
  slice l a n = byte_at l a :: slice l (a + 1) (n - 1).
Proof.
  intros. replace n with (1 + (n - 1)) at 1 by lia. rewrite slice_app by lia.
  change (byte_at l a :: ?x) with ([byte_at l a] ++ x). f_equal.
  unfold slice, byte_at, lengthZ in *. change (Z.to_nat 1) with 1%nat.
  assert (Z.to_nat a < length l)%nat as H2 by lia. clear -H2.
  rewrite (drop_S l (nth (Z.to_nat a) l 0)); [done|]. rewrite nth_lookup.
  destruct (lookup_lt_is_Some_2 l (Z.to_nat a) H2) as [x ->]. done.
Qed.

Lemma byte_at_slice l a n i : 0 <= a -> 0 <= i < n -> byte_at (slice l a n) i = byte_at l (a + i).
Proof.
  intros. unfold byte_at, slice. rewrite !nth_lookup, lookup_take_lt by lia.
  rewrite lookup_drop. do 2 f_equal. lia.
Qed.

(** Two ways to cut a list. *)
Lemma cut_long {A} (p rest a b : list A) : p ++ rest = a ++ b -> lengthZ a <= lengthZ p ->
  exists p', p = a ++ p' /\ p' ++ rest = b.
Proof.
  intros E Hle. unfold lengthZ in Hle. exists (drop (length a) p).
  assert (take (length a) p = a) as E1.
  { apply (f_equal (take (length a))) in E. by rewrite take_app_length, take_app_le in E by lia. }
  split; [by rewrite <- E1 at 1; rewrite take_drop|].
  apply (f_equal (drop (length a))) in E. by rewrite drop_app_length, drop_app_le in E by lia.
Qed.

Lemma cut_short {A} (p rest a b : list A) : p ++ rest = a ++ b -> lengthZ p < lengthZ a ->
  exists q, a = p ++ q /\ q <> [] /\ rest = q ++ b.
Proof.
  intros E Hlt. destruct (cut_long a b p rest) as (q & -> & E2); [done|lia|].
  exists q. split; [done|]. split; [|done]. intros ->. rewrite app_nil_r in Hlt. lia.
Qed.

Lemma splice_length l a bs : in_block l a (lengthZ bs) = true -> lengthZ (splice l a bs) = lengthZ l.
Proof.
  intros H%in_block_spec. unfold splice. rewrite !lengthZ_app.
  unfold lengthZ in *. rewrite length_take, length_drop. lia.
Qed.

Section Splice.
Context (l bs : list Z) (a : Z) (Hin : in_block l a (lengthZ bs) = true).

Lemma splice_same : slice (splice l a bs) a (lengthZ bs) = bs.
Proof using Hin.
  apply in_block_spec in Hin. unfold splice, slice, lengthZ in *.
  rewrite drop_app_length' by (rewrite length_take; lia).
  rewrite Nat2Z.id. by rewrite take_app_length.
Qed.

Lemma splice_before b n : 0 <= b -> 0 <= n -> b + n <= a -> slice (splice l a bs) b n = slice l b n.
Proof using Hin.
  intros. apply in_block_spec in Hin. unfold splice, slice, lengthZ in *.
  rewrite drop_app_le by (rewrite length_take; lia).
  rewrite take_app_le by (rewrite length_drop, length_take; lia).
  rewrite skipn_firstn_comm, take_take. f_equal. lia.
Qed.

Lemma splice_after b n : a + lengthZ bs <= b -> slice (splice l a bs) b n = slice l b n.
Proof using Hin.
  intros. apply in_block_spec in Hin. unfold splice, slice, lengthZ in *.
  rewrite app_assoc, drop_app_ge by (rewrite length_app, length_take; lia).
  rewrite drop_drop, length_app, length_take. do 2 f_equal. lia.
Qed.

Lemma splice_bytes : Forall is_byte l -> Forall is_byte bs -> Forall is_byte (splice l a bs).
Proof.
  intros. unfold splice. rewrite !Forall_app. split_and!; [by apply Forall_take|done|by apply Forall_drop].
Qed.

End Splice.

(** Two adjoining writes are one. *)
Lemma splice_splice l a bs1 bs2 : in_block l a (lengthZ bs1 + lengthZ bs2) = true ->
  splice (splice l a bs1) (a + lengthZ bs1) bs2 = splice l a (bs1 ++ bs2).
Proof.
  intros H%in_block_spec. pose proof (lengthZ_nonneg bs1). pose proof (lengthZ_nonneg bs2).
  unfold splice. rewrite lengthZ_app. unfold lengthZ in *.
  rewrite (app_assoc (take (Z.to_nat a) l) bs1).
  rewrite take_app_length' by (rewrite length_app, length_take; lia).
  rewrite drop_app_ge by (rewrite length_app, length_take; lia).
  rewrite drop_drop, length_app, length_take, <- !app_assoc. do 3 f_equal. f_equal. lia.
Qed.

(** Overwriting all of a part that was just written. *)
Lemma splice_idemp l a bs1 bs2 : in_block l a (lengthZ bs1) = true -> lengthZ bs2 = lengthZ bs1 ->
  splice (splice l a bs1) a bs2 = splice l a bs2.
Proof.
  intros H%in_block_spec E. unfold splice. rewrite E. unfold lengthZ in *.
  rewrite take_app_length' by (rewrite length_take; lia). do 2 f_equal.
  rewrite app_assoc, drop_app_length' by (rewrite length_app, length_take; lia). done.
Qed.

Lemma splice_nil l a : 0 <= a -> splice l a [] = l.
Proof. intros. unfold splice. rewrite lengthZ_nil, Z.add_0_r. apply take_drop. Qed.

Lemma splice_slice l a n : in_block l a n = true -> splice l a (slice l a n) = l.
Proof.
  intros H%in_block_spec. unfold splice. rewrite slice_length by lia. unfold slice.
  rewrite Z2Nat.inj_add, <- drop_drop by lia. by rewrite take_drop, take_drop.
Qed.

(** ** Rules for the accesses *)

Section Access.
Context (b : bad) (l : list Z).

Lemma wp_load i (Q : Z -> list Z -> Prop) :
  in_block l i 1 = true -> Q (byte_at l i) l -> wp b (load i) Q l.
Proof. intros H HQ. unfold wp, load, bind, get. simpl. by rewrite H. Qed.

Lemma wp_store i v (Q : unit -> list Z -> Prop) :
  in_block l i 1 = true -> Q tt (splice l i [v]) -> wp b (store i v) Q l.
Proof. intros H HQ. unfold wp, store, bind, get. simpl. by rewrite H. Qed.

Lemma wp_load_bytes i n (Q : list Z -> list Z -> Prop) :
  in_block l i n = true -> Q (slice l i n) l -> wp b (load_bytes i n) Q l.
Proof. intros H HQ. unfold wp, load_bytes, bind, get. simpl. by rewrite H. Qed.

Lemma wp_store_bytes i bs (Q : unit -> list Z -> Prop) :
  in_block l i (lengthZ bs) = true -> Q tt (splice l i bs) -> wp b (store_bytes i bs) Q l.
Proof. intros H HQ. unfold wp, store_bytes, bind, get. simpl. by rewrite H. Qed.

End Access.

(** ** Network byte order *)

Lemma be_split_length n z : lengthZ (be_split n z) = Z.of_nat n.
Proof. unfold be_split. by rewrite lengthZ_rev, lengthZ_le_split. Qed.

Lemma be_split_bytes n z : Forall is_byte (be_split n z).
Proof. apply Forall_rev, le_split_bytes. Qed.

Lemma be_combine_split n z : 0 <= z < 256 ^ Z.of_nat n -> be_combine (be_split n z) = z.
Proof. intros. unfold be_combine, be_split. rewrite rev_involutive, le_combine_split. by apply Z.mod_small. Qed.

Lemma be_combine_range bs : Forall is_byte bs -> 0 <= be_combine bs < 256 ^ lengthZ bs.
Proof.
  intros H. unfold be_combine. rewrite <- lengthZ_rev. apply le_combine_range. by apply Forall_rev.
Qed.

Lemma be_split_combine bs : Forall is_byte bs -> be_split (length bs) (be_combine bs) = bs.
Proof.
  intros H. unfold be_split, be_combine. rewrite <- length_rev, le_split_combine by (by apply Forall_rev). apply rev_involutive.
Qed.

Lemma cut_at (l : list Z) n : 0 <= n <= lengthZ l -> exists l1 l2, l = l1 ++ l2 /\ lengthZ l1 = n.
Proof.
  intros H. exists (take (Z.to_nat n) l), (drop (Z.to_nat n) l). rewrite take_drop. split; [done|].
  unfold lengthZ in *. rewrite length_take. lia.
Qed.

Lemma wp_with_block {S A} b l l' (m : M (list Z) A) a (Q : A -> S -> Prop) s :
  m l = Ok (a, l') -> Q a s -> wp b (with_block l m) Q s.
Proof. intros E HQ. unfold with_block. rewrite E. by apply wp_ret. Qed.

(** ** Tests of one byte

    A test of one byte is settled for all 256 bytes at once. *)
Definition all_bytes (P : Z -> bool) : bool := forallb P (seqZ 0 256).

Lemma all_bytes_spec P b : all_bytes P = true -> is_byte b -> P b = true.
Proof.
  unfold all_bytes, is_byte. rewrite forallb_forall. intros H Hb. apply H.
  apply list_elem_of_In, elem_of_seqZ. lia.
Qed.

Lemma byte_test b (t u : Z -> bool) : all_bytes (fun x => eqb (t x) (u x)) = true -> is_byte b -> t b = u b.
Proof. intros H Hb. apply eqb_prop. by apply (all_bytes_spec (fun x => eqb (t x) (u x))). Qed.
