(* ===== verification/Utf8.v ===== *)
(** * Validation of UTF-8 text

    [isValidUtf8] of src/libuws/include/WebSocketProtocol.h, and the theorem that
    it accepts exactly the encodings of sequences of Unicode scalar values. *)

From S2P Require Import Prelude Memory Buffer.

(** ** The code *)

(** One byte of a test such as [(s[i] & m) == v]. *)
Definition masked_eq (b m v : Z) : bool := Z.land b m =? v.

(** [while (!( *s & 0x80)) if (++s == e) return true;]: [None] is the return, [Some]
    the position of the first byte that is not ASCII. *)
Definition ascii_round (e s : Z) : M (list Z) (Z + option Z) :=
  b <- load s ;;
  if bits_set b 0x80 then ret (inr (Some s))
  else if s + 1 =? e then ret (inr None) else ret (inl (s + 1)).

(** The sequence at [s], whose first byte is not ASCII: [None] when it is not well
    formed, otherwise the position behind it. *)
Definition utf8_sequence (s e : Z) : M (list Z) (option Z) :=
  s0 <- load s ;;
  if masked_eq s0 0x60 0x40 then
    if e <=? s + 1 then ret None else
    s1 <- load (s + 1) ;;
    if negb (masked_eq s1 0xc0 0x80) || masked_eq s0 0xfe 0xc0 then ret None
    else ret (Some (s + 2))
  else if masked_eq s0 0xf0 0xe0 then
    if e <=? s + 2 then ret None else
    s1 <- load (s + 1) ;; s2 <- load (s + 2) ;;
    if negb (masked_eq s1 0xc0 0x80) || negb (masked_eq s2 0xc0 0x80)
       || ((s0 =? 0xe0) && masked_eq s1 0xe0 0x80) || ((s0 =? 0xed) && masked_eq s1 0xe0 0xa0)
    then ret None
    else ret (Some (s + 3))
  else if masked_eq s0 0xf8 0xf0 then
    if e <=? s + 3 then ret None else
    s1 <- load (s + 1) ;; s2 <- load (s + 2) ;; s3 <- load (s + 3) ;;
    if negb (masked_eq s1 0xc0 0x80) || negb (masked_eq s2 0xc0 0x80) || negb (masked_eq s3 0xc0 0x80)
       || ((s0 =? 0xf0) && masked_eq s1 0xf0 0x80) || ((s0 =? 0xf4) && (0x8f <? s1)) || (0xf4 <? s0)
    then ret None
    else ret (Some (s + 4))
  else ret None.

(** One round of the loop [for (e = s + length; s != e; )]. *)
Definition utf8_round (e s : Z) : M (list Z) (Z + bool) :=
  if s =? e then ret (inr true) else
  ascii4 <- (if s + 4 <=? e then bs <- load_bytes s 4 ;; ret (masked_eq (le_combine bs) 0x80808080 0)
             else ret false) ;;
  if ascii4 : bool then ret (inl (s + 4)) else
  o <- iter (S (Z.to_nat (e - s))) (ascii_round e) s ;;
  match o with
  | None => ret (inr true)
  | Some s =>
      let? s' := utf8_sequence s e else ret (inr false) in
      ret (inl s')
  end.

Definition isValidUtf8 (s length : Z) : M (list Z) bool :=
  iter (S (Z.to_nat length)) (utf8_round (s + length)) s.

(** ** Unicode text

    A scalar value is a code point that is no surrogate; text is encoded scalar
    value by scalar value. *)
Definition scalar (c : Z) : Prop := 0 <= c < 0xD800 \/ 0xE000 <= c < 0x110000.

Definition utf8_encode (c : Z) : list Z :=
  if c <? 0x80 then [c]
  else if c <? 0x800 then [0xC0 + c / 64; 0x80 + c mod 64]
  else if c <? 0x10000 then [0xE0 + c / 4096; 0x80 + c / 64 mod 64; 0x80 + c mod 64]
  else [0xF0 + c / 262144; 0x80 + c / 4096 mod 64; 0x80 + c / 64 mod 64; 0x80 + c mod 64].

Definition utf8_text (bs : list Z) : Prop :=
  exists cs, Forall scalar cs /\ bs = concat (map utf8_encode cs).

(** ** The well-formed byte sequences *)

Definition tail_byte (b : Z) : Prop := 0x80 <= b < 0xC0.

Definition two_bytes (b0 b1 : Z) : Prop := 0xC2 <= b0 < 0xE0 /\ tail_byte b1.

Definition three_bytes (b0 b1 b2 : Z) : Prop :=
  0xE0 <= b0 < 0xF0 /\ tail_byte b1 /\ tail_byte b2 /\ (b0 = 0xE0 -> 0xA0 <= b1) /\ (b0 = 0xED -> b1 < 0xA0).

Definition four_bytes (b0 b1 b2 b3 : Z) : Prop :=
  0xF0 <= b0 <= 0xF4 /\ tail_byte b1 /\ tail_byte b2 /\ tail_byte b3 /\
  (b0 = 0xF0 -> 0x90 <= b1) /\ (b0 = 0xF4 -> b1 < 0x90).

(** What [bs] starts with, and the rest. *)
Definition first_sequence (bs rest : list Z) : Prop :=
  (exists b0, bs = b0 :: rest /\ 0 <= b0 < 0x80) \/
  (exists b0 b1, bs = b0 :: b1 :: rest /\ two_bytes b0 b1) \/
  (exists b0 b1 b2, bs = b0 :: b1 :: b2 :: rest /\ three_bytes b0 b1 b2) \/
  (exists b0 b1 b2 b3, bs = b0 :: b1 :: b2 :: b3 :: rest /\ four_bytes b0 b1 b2 b3).

Ltac euclid := unfold scalar, two_bytes, three_bytes, four_bytes, tail_byte in *; Z.to_euclidean_division_equations; lia.

Lemma utf8_encode_first c rest : scalar c -> first_sequence (utf8_encode c ++ rest) rest.
Proof.
  intros Hc. unfold utf8_encode, first_sequence.
  destruct (Z.ltb_spec c 0x80); [left; exists c; split; [done|euclid]|].
  destruct (Z.ltb_spec c 0x800); [right; left; do 2 eexists; split; [done|euclid]|].
  destruct (Z.ltb_spec c 0x10000); [right; right; left; do 3 eexists; split; [done|euclid]|].
  right; right; right; do 4 eexists; split; [done|euclid].
Qed.

Lemma first_encoded bs rest : first_sequence bs rest -> exists c, scalar c /\ bs = utf8_encode c ++ rest.
Proof.
  intros [(b0&->&H)|[(b0&b1&->&H)|[(b0&b1&b2&->&H)|(b0&b1&b2&b3&->&H)]]].
  - exists b0. split; [euclid|]. unfold utf8_encode. by rewrite (proj2 (Z.ltb_lt b0 0x80)) by lia.
  - set (c := (b0 - 0xC0) * 64 + (b1 - 0x80)). exists c. split; [euclid|]. unfold utf8_encode.
    rewrite (proj2 (Z.ltb_ge c 0x80)), (proj2 (Z.ltb_lt c 0x800)) by euclid. simpl. repeat f_equal; euclid.
  - set (c := (b0 - 0xE0) * 4096 + (b1 - 0x80) * 64 + (b2 - 0x80)). exists c. split; [euclid|]. unfold utf8_encode.
    rewrite (proj2 (Z.ltb_ge c 0x80)), (proj2 (Z.ltb_ge c 0x800)), (proj2 (Z.ltb_lt c 0x10000)) by euclid.
    simpl. repeat f_equal; euclid.
  - set (c := (b0 - 0xF0) * 262144 + (b1 - 0x80) * 4096 + (b2 - 0x80) * 64 + (b3 - 0x80)).
    exists c. split; [euclid|]. unfold utf8_encode.
    rewrite (proj2 (Z.ltb_ge c 0x80)), (proj2 (Z.ltb_ge c 0x800)), (proj2 (Z.ltb_ge c 0x10000)) by euclid.
    simpl. repeat f_equal; euclid.
Qed.

(** The first byte decides the sequence, so the decomposition is unique. *)
Lemma first_sequence_unique bs rest rest' : first_sequence bs rest -> first_sequence bs rest' -> rest = rest'.
Proof.
  intros [(b0&->&H)|[(b0&b1&->&H)|[(b0&b1&b2&->&H)|(b0&b1&b2&b3&->&H)]]]
    [(c0&E&H')|[(c0&c1&E&H')|[(c0&c1&c2&E&H')|(c0&c1&c2&c3&E&H')]]];
    simplify_eq; try done; exfalso; clear -H H'; euclid.
Qed.

Lemma utf8_text_first bs rest : first_sequence bs rest -> utf8_text bs <-> utf8_text rest.
Proof.
  intros H. split.
  - intros (cs & Hcs & ->). destruct Hcs as [|c cs Hc Hcs].
    { by destruct H as [(?&?&_)|[(?&?&?&_)|[(?&?&?&?&_)|(?&?&?&?&?&_)]]]. }
    simpl in H. pose proof (utf8_encode_first c (concat (map utf8_encode cs)) Hc) as H'.
    rewrite (first_sequence_unique _ _ _ H H'). by exists cs.
  - intros (cs & Hcs & ->). apply first_encoded in H as (c & Hc & ->). exists (c :: cs). split; [by constructor|done].
Qed.

Lemma utf8_text_nil : utf8_text [].
Proof. by exists []. Qed.

Lemma utf8_text_none bs : bs <> [] -> (forall rest, ~ first_sequence bs rest) -> ~ utf8_text bs.
Proof.
  intros Hne Hno (cs & Hcs & ->). destruct Hcs as [|c cs Hc _]; [done|].
  by apply (Hno (concat (map utf8_encode cs))), utf8_encode_first.
Qed.

(** The sequences by their first byte. *)
Section First.
Context (b0 : Z) (t rest : list Z).

Lemma first_two : 0xC0 <= b0 < 0xE0 ->
  first_sequence (b0 :: t) rest <-> exists b1, t = b1 :: rest /\ two_bytes b0 b1.
Proof using.
  intros. split; [|intros (b1 & -> & H2); right; left; by exists b0, b1].
  intros [(?&?&H')|[(?&?&?&H')|[(?&?&?&?&H')|(?&?&?&?&?&H')]]]; simplify_eq; [exfalso; euclid|eauto|exfalso; euclid..].
Qed.

Lemma first_three : 0xE0 <= b0 < 0xF0 ->
  first_sequence (b0 :: t) rest <-> exists b1 b2, t = b1 :: b2 :: rest /\ three_bytes b0 b1 b2.
Proof using.
  intros. split; [|intros (b1 & b2 & -> & H2); right; right; left; by exists b0, b1, b2].
  intros [(?&?&H')|[(?&?&?&H')|[(?&?&?&?&H')|(?&?&?&?&?&H')]]]; simplify_eq; [exfalso; euclid..|eauto|exfalso; euclid].
Qed.

Lemma first_four : 0xF0 <= b0 ->
  first_sequence (b0 :: t) rest <-> exists b1 b2 b3, t = b1 :: b2 :: b3 :: rest /\ four_bytes b0 b1 b2 b3.
Proof using.
  intros. split; [|intros (b1 & b2 & b3 & -> & H2); right; right; right; by exists b0, b1, b2, b3].
  intros [(?&?&H')|[(?&?&?&H')|[(?&?&?&?&H')|(?&?&?&?&?&H')]]]; simplify_eq; [exfalso; euclid..|eauto 6].
Qed.

Lemma first_tail : 0x80 <= b0 < 0xC0 -> ~ first_sequence (b0 :: t) rest.
Proof using.
  intros ? [(?&?&H')|[(?&?&?&H')|[(?&?&?&?&H')|(?&?&?&?&?&H')]]]; simplify_eq; euclid.
Qed.

End First.

(** ** The tests of the code *)

Definition between (lo hi b : Z) : bool := (lo <=? b) && (b <? hi).

Section Tests.
Context (b : Z) (Hb : is_byte b).

Lemma test_ascii : bits_set b 0x80 = (0x80 <=? b).
Proof using Hb. by apply (byte_test b (fun b => bits_set b 0x80) (fun b => 0x80 <=? b)). Qed.

Lemma test_tail : masked_eq b 0xc0 0x80 = between 0x80 0xC0 b.
Proof using Hb. by apply (byte_test b (fun b => masked_eq b 0xc0 0x80) (between 0x80 0xC0)). Qed.

Lemma test_two : 0x80 <= b -> masked_eq b 0x60 0x40 = between 0xC0 0xE0 b.
Proof using Hb.
  intros. pose proof (byte_test b (fun b => (b <? 0x80) || masked_eq b 0x60 0x40)
    (fun b => (b <? 0x80) || between 0xC0 0xE0 b) eq_refl Hb) as E. simpl in E.
  by rewrite (proj2 (Z.ltb_ge b 0x80)) in E by done.
Qed.

Lemma test_overlong : masked_eq b 0xfe 0xc0 = between 0xC0 0xC2 b.
Proof using Hb. by apply (byte_test b (fun b => masked_eq b 0xfe 0xc0) (between 0xC0 0xC2)). Qed.

Lemma test_three : masked_eq b 0xf0 0xe0 = between 0xE0 0xF0 b.
Proof using Hb. by apply (byte_test b (fun b => masked_eq b 0xf0 0xe0) (between 0xE0 0xF0)). Qed.

Lemma test_four : masked_eq b 0xf8 0xf0 = between 0xF0 0xF8 b.
Proof using Hb. by apply (byte_test b (fun b => masked_eq b 0xf8 0xf0) (between 0xF0 0xF8)). Qed.

Lemma test_80_A0 : masked_eq b 0xe0 0x80 = between 0x80 0xA0 b.
Proof using Hb. by apply (byte_test b (fun b => masked_eq b 0xe0 0x80) (between 0x80 0xA0)). Qed.

Lemma test_A0_C0 : masked_eq b 0xe0 0xa0 = between 0xA0 0xC0 b.
Proof using Hb. by apply (byte_test b (fun b => masked_eq b 0xe0 0xa0) (between 0xA0 0xC0)). Qed.

Lemma test_80_90 : masked_eq b 0xf0 0x80 = between 0x80 0x90 b.
Proof using Hb. by apply (byte_test b (fun b => masked_eq b 0xf0 0x80) (between 0x80 0x90)). Qed.

End Tests.

(** Masking two integers byte by byte. *)
Lemma land_byte b r m n : is_byte b -> is_byte m ->
  Z.land (b + 256 * r) (m + 256 * n) = Z.land b m + 256 * Z.land r n.
Proof.
  intros Hb Hm. unfold is_byte in *. set (A := b + 256 * r). set (B := m + 256 * n).
  assert (A / 2 ^ 8 = r /\ A mod 2 ^ 8 = b) as [EA1 EA2] by (subst A; change (2 ^ 8) with 256; euclid).
  assert (B / 2 ^ 8 = n /\ B mod 2 ^ 8 = m) as [EB1 EB2] by (subst B; change (2 ^ 8) with 256; euclid).
  rewrite (Z.div_mod (Z.land A B) (2 ^ 8)) by done.
  rewrite <- Z.shiftr_div_pow2, Z.shiftr_land, !Z.shiftr_div_pow2, EA1, EB1 by lia.
  rewrite <- Z.land_ones by lia.
  replace (Z.land (Z.land A B) (Z.ones 8)) with (Z.land (Z.land A (Z.ones 8)) (Z.land B (Z.ones 8))).
  - rewrite !Z.land_ones, EA2, EB2 by lia. lia.
  - apply Z.bits_inj. intros k. rewrite !Z.land_spec. by destruct (Z.testbit A k), (Z.testbit B k), (Z.testbit (Z.ones 8) k).
Qed.

Lemma ascii_word b0 b1 b2 b3 : is_byte b0 -> is_byte b1 -> is_byte b2 -> is_byte b3 ->
  masked_eq (le_combine [b0; b1; b2; b3]) 0x80808080 0 =
    (b0 <? 0x80) && (b1 <? 0x80) && (b2 <? 0x80) && (b3 <? 0x80).
Proof.
  intros H0 H1 H2 H3. unfold masked_eq. simpl le_combine.
  change 0x80808080 with (0x80 + 256 * (0x80 + 256 * (0x80 + 256 * (0x80 + 256 * 0)))).
  rewrite !land_byte by done. rewrite Z.land_0_l.
  assert (forall b, is_byte b -> Z.land b 0x80 = if b <? 0x80 then 0 else 0x80) as Hbit.
  { intros b Hb. apply Z.eqb_eq.
    by apply (all_bytes_spec (fun b => Z.land b 0x80 =? if b <? 0x80 then 0 else 0x80)). }
  rewrite !Hbit by done. by destruct (b0 <? 0x80), (b1 <? 0x80), (b2 <? 0x80), (b3 <? 0x80).
Qed.

(** ** The code decides the specification *)

Section Valid.
Context (l : list Z) (Hl : Forall is_byte l) (e : Z) (He : e <= lengthZ l).

(** What is left of the text at position [s]. *)
Definition text_from (s : Z) : list Z := slice l s (e - s).

Lemma byte_in i : 0 <= i < e -> is_byte (byte_at l i).
Proof using Hl He.
  intros Hi. unfold byte_at. rewrite nth_lookup. unfold lengthZ in He.
  destruct (lookup_lt_is_Some_2 l (Z.to_nat i)) as [x Ex]; [lia|]. rewrite Ex.
  exact (Forall_lookup_1 _ _ _ _ Hl Ex).
Qed.

Lemma in_text i n : 0 <= i -> 0 <= n -> i + n <= e -> in_block l i n = true.
Proof using He. intros. apply in_block_spec. lia. Qed.

Lemma text_S s : 0 <= s < e -> text_from s = byte_at l s :: text_from (s + 1).
Proof using He.
  intros. unfold text_from. rewrite slice_S by lia. do 2 f_equal. lia.
Qed.

Lemma text_end s : e <= s -> text_from s = [].
Proof using. intros. unfold text_from, slice. by rewrite (Z2Nat.nonpos (e - s)) by lia. Qed.

Lemma utf8_sequence_spec s : 0 <= s < e -> 0x80 <= byte_at l s ->
  wp nothing (utf8_sequence s e) (fun o l' => l' = l /\
    match o with
    | Some s' => s < s' <= e /\ first_sequence (text_from s) (text_from s')
    | None => forall rest, ~ first_sequence (text_from s) rest
    end) l.
Proof using Hl He.
  intros Hs H80. unfold utf8_sequence.
  assert (forall k Q, 0 <= k -> s + k < e -> Q (byte_at l (s + k)) l -> wp nothing (load (s + k)) Q l) as Hload.
  { intros k Q ???. apply wp_load; [apply in_text; lia|done]. }
  assert (forall k, 0 <= k -> s + k < e -> is_byte (byte_at l (s + k))) as Hbyte by (intros; apply byte_in; lia).
  assert (forall k k', k' = k + 1 -> 0 <= k -> s + k < e -> text_from (s + k) = byte_at l (s + k) :: text_from (s + k')) as Htext.
  { intros k k' -> ??. rewrite text_S by lia. do 2 f_equal. lia. }
  wp_step. apply wp_load; [apply in_text; lia|].
  pose proof (byte_in s Hs) as B0. rewrite test_two, test_three, test_four by done.
  rewrite (text_S s) by done. generalize dependent (byte_at l s). intros b0 H80 B0. unfold between.
  destruct (_ && _) eqn:E2; [|destruct (_ && _) eqn:E3 in |- *; [|destruct (_ && _) eqn:E4 in |- *]].
  - destruct (Z.leb_spec e (s + 1)).
    { apply wp_ret. split; [done|]. rewrite text_end by lia. by intros rest (? & ? & _)%first_two; [|lia]. }
    wp_step. apply Hload; [lia..|]. rewrite (Htext 1 2), test_tail, test_overlong by (lia || done || apply Hbyte; lia).
    unfold between. destruct (negb _ || _) eqn:E; apply wp_ret; (split; [done|]).
    + intros rest (b1 & Eq & ?)%first_two; [|lia]. simplify_eq. euclid.
    + split; [lia|]. apply first_two; [lia|]. eexists. split; [done|]. euclid.
  - destruct (Z.leb_spec e (s + 2)).
    { apply wp_ret. split; [done|]. intros rest (? & ? & Eq & _)%first_three; [|lia].
      assert (lengthZ (text_from (s + 1)) <= 1) by (unfold text_from; rewrite slice_length; lia).
      rewrite Eq, !lengthZ_cons in *. pose proof (lengthZ_nonneg rest). lia. }
    wp_step. apply Hload; [lia..|]. wp_step. apply Hload; [lia..|].
    rewrite (Htext 1 2), (Htext 2 3), !test_tail, test_80_A0, test_A0_C0 by (lia || apply Hbyte; lia).
    unfold between. destruct (_ || _) eqn:E; apply wp_ret; (split; [done|]).
    + intros rest (b1 & b2 & Eq & ?)%first_three; [|lia]. simplify_eq. euclid.
    + split; [lia|]. apply first_three; [lia|]. do 2 eexists. split; [done|]. euclid.
  - destruct (Z.leb_spec e (s + 3)).
    { apply wp_ret. split; [done|]. intros rest (? & ? & ? & Eq & _)%first_four; [|lia].
      assert (lengthZ (text_from (s + 1)) <= 2) by (unfold text_from; rewrite slice_length; lia).
      rewrite Eq, !lengthZ_cons in *. pose proof (lengthZ_nonneg rest). lia. }
    do 3 (wp_step; apply Hload; [lia..|]).
    rewrite (Htext 1 2), (Htext 2 3), (Htext 3 4), !test_tail, test_80_90 by (lia || apply Hbyte; lia).
    unfold between. destruct (_ || _) eqn:E; apply wp_ret; (split; [done|]).
    + intros rest (b1 & b2 & b3 & Eq & ?)%first_four; [|lia]. simplify_eq. euclid.
    + split; [lia|]. apply first_four; [lia|]. do 3 eexists. split; [done|]. euclid.
  - apply wp_ret. split; [done|]. intros rest H.
    destruct (Z.lt_ge_cases b0 0xC0); [by apply first_tail in H; [|lia]|].
    apply first_four in H as (?&?&?&_&?); [euclid|lia].
Qed.

(** The inner loop stops at the first byte that is not ASCII. *)
Lemma ascii_loop_spec s : 0 <= s < e ->
  wp nothing (iter (S (Z.to_nat (e - s))) (ascii_round e) s) (fun o l' => l' = l /\
    match o with
    | Some s' => s <= s' < e /\ 0x80 <= byte_at l s' /\ (utf8_text (text_from s) <-> utf8_text (text_from s'))
    | None => utf8_text (text_from s)
    end) l.
Proof using Hl He.
  intros Hs. apply (wp_iter _ _
    (fun s' l' => l' = l /\ s <= s' < e /\ (utf8_text (text_from s) <-> utf8_text (text_from s')))
    (fun s' _ => Z.to_nat (e - s'))); [|split_and!; [done|lia..|done]|lia].
  intros s' l' (-> & Hs' & Htxt). unfold ascii_round. wp_step. apply wp_load; [apply in_text; lia|].
  pose proof (byte_in s' ltac:(lia)) as B0. rewrite test_ascii by done. destruct (Z.leb_spec 0x80 (byte_at l s')).
  - apply wp_ret. split_and!; [done|lia..|done].
  - assert (utf8_text (text_from s') <-> utf8_text (text_from (s' + 1))) as Hstep.
    { apply utf8_text_first. rewrite text_S by lia. left. eexists. split; [done|]. unfold is_byte in B0. lia. }
    destruct (Z.eqb_spec (s' + 1) e); apply wp_ret.
    + split; [done|]. rewrite Htxt, Hstep, text_end by lia. apply utf8_text_nil.
    + split_and!; [done|lia..|by rewrite Htxt|lia].
Qed.

Lemma utf8_round_spec s : 0 <= s <= e ->
  wp nothing (utf8_round e s) (fun r l' => l' = l /\
    match r with
    | inl s' => s < s' <= e /\ (utf8_text (text_from s) <-> utf8_text (text_from s'))
    | inr b => b = true <-> utf8_text (text_from s)
    end) l.
Proof using Hl He.
  intros Hs. unfold utf8_round. destruct (Z.eqb_spec s e) as [->|Hne].
  { apply wp_ret. split; [done|]. rewrite text_end by lia. by pose proof utf8_text_nil. }
  wp_step. apply wp_mono with (fun (ascii4 : bool) l' => l' = l /\ (ascii4 -> s + 4 <= e /\
    (utf8_text (text_from s) <-> utf8_text (text_from (s + 4))))).
  - destruct (Z.leb_spec (s + 4) e); [|apply wp_ret; by split].
    wp_step. apply wp_load_bytes; [apply in_text; lia|]. apply wp_ret. split; [done|].
    rewrite !slice_S, slice_0 by lia. rewrite <- !Z.add_assoc. simpl (_ + _).
    rewrite ascii_word by (apply byte_in; lia). intros Ha.
    split; [lia|]. rewrite !(text_S s), (text_S (s + 1)), (text_S (s + 1 + 1)), (text_S (s + 1 + 1 + 1)) by lia.
    rewrite <- !Z.add_assoc. simpl (1 + _).
    assert (forall i t, s <= i < s + 4 -> byte_at l i < 0x80 -> utf8_text (byte_at l i :: t) <-> utf8_text t) as Hk.
    { intros i t Hi Hlt. apply utf8_text_first. left. eexists. split; [done|].
      pose proof (byte_in i ltac:(lia)). unfold is_byte in *. lia. }
    apply Is_true_true in Ha. rewrite !Hk; [done|lia..].
  - intros ascii4 ? [-> Ha]. destruct ascii4; [destruct (Ha I); apply wp_ret; split_and!; [done|lia..|done]|].
    wp_step. eapply wp_mono; [apply ascii_loop_spec; lia|]. intros [s'|] ? [-> H]; [|by apply wp_ret].
    destruct H as (Hs' & H80 & Htxt). wp_step. eapply wp_mono; [apply utf8_sequence_spec; [lia|done]|].
    intros [s''|] ? [-> H]; apply wp_ret; (split; [done|]).
    + destruct H as [Hs'' Hf]. split; [lia|]. rewrite Htxt. by apply utf8_text_first.
    + rewrite Htxt. split; [done|]. intros Hv. exfalso. revert Hv. apply utf8_text_none; [|done].
      by rewrite text_S by lia.
Qed.

End Valid.

(** Validation reads nothing but the text, changes nothing and decides whether the
    text is the encoding of scalar values. *)
Lemma isValidUtf8_spec l s n : Forall is_byte l -> in_block l s n = true ->
  exists b : bool, isValidUtf8 s n l = Ok (b, l) /\ (b = true <-> utf8_text (slice l s n)).
Proof.
  intros Hl Hin%in_block_spec. assert (wp nothing (isValidUtf8 s n) (fun b l' => l' = l /\ (b = true <-> utf8_text (slice l s n))) l) as H.
  - unfold isValidUtf8. apply (wp_iter _ _
      (fun s' l' => l' = l /\ s <= s' <= s + n /\ (utf8_text (slice l s n) <-> utf8_text (text_from l (s + n) s')))
      (fun s' _ => Z.to_nat (s + n - s'))); [|split_and!; [done|lia..|]|lia].
    + intros s' ? (-> & Hs' & Htxt). eapply wp_mono; [apply utf8_round_spec; [done|lia..]|].
      intros [s''|b] ? [-> H]; rewrite Htxt; [|done]. destruct H as [? H]. split_and!; [done|lia..|done|lia].
    + unfold text_from. by replace (s + n - s) with n by lia.
  - apply wp_total in H as (b & ? & E & -> & Hb). by exists b.
Qed.

(** C22: [isValidUtf8] decides UTF-8.  For any bytes in a block it terminates,
    without a read outside of the text and without a change to the block, and
    returns true exactly when the bytes are the UTF-8 encoding of a sequence of
    Unicode scalar values (no surrogates, nothing above U+10FFFF, no overlong
    forms), whatever mix of the four-byte fast path and the slow path they take. *)
Theorem isValidUtf8_correct l s n : Forall is_byte l -> 0 <= s -> 0 <= n -> s + n <= lengthZ l ->
  exists b, isValidUtf8 s n l = Ok (b, l) /\
    (b = true <-> exists cs, Forall scalar cs /\ slice l s n = concat (map utf8_encode cs)).
Proof. intros. apply isValidUtf8_spec; [done|]. by apply in_block_spec. Qed.

(** The ten bytes of the text a, U+00E9, U+20AC, U+1F600 in a longer block. *)
Definition sample_text : list Z := [255; 0x61; 0xC3; 0xA9; 0xE2; 0x82; 0xAC; 0xF0; 0x9F; 0x98; 0x80; 255].

Lemma isValidUtf8_correct_witness :
  (exists b, isValidUtf8 1 10 sample_text = Ok (b, sample_text) /\
    (b = true <-> exists cs, Forall scalar cs /\ slice sample_text 1 10 = concat (map utf8_encode cs))) /\
  isValidUtf8 1 10 sample_text = Ok (true, sample_text) /\ isValidUtf8 1 9 sample_text = Ok (false, sample_text).
Proof.
  split; [|split; by vm_compute].
  apply isValidUtf8_correct; [|by vm_compute..].
  repeat constructor; by vm_compute.
Defined.
