(* ===== verification/WebSocketProtocol.v ===== *)
(** * The framing of WebSocket messages

    src/libuws/include/WebSocketProtocol.h: the parser of the frames of a
    connection, which works in place on the receive buffer, and the formatting of
    frames.  The parser is a template over the class [Impl] that handles what is
    received; here it is a set of definitions over the type class [Impl]. *)

From S2P Require Import Prelude Memory Buffer Utf8.

(** enum OpCode. *)
Definition TEXT : Z := 1.
Definition BINARY : Z := 2.
Definition CLOSE : Z := 8.
Definition PING : Z := 9.
Definition PONG : Z := 10.

(** enum of the flags of a frame that is sent. *)
Definition SND_CONTINUATION : Z := 1.
Definition SND_NO_FIN : Z := 2.
Definition SND_COMPRESSED : Z := 64.

Definition SHORT_MESSAGE_HEADER (isServer : bool) : Z := if isServer then 6 else 2.
Definition MEDIUM_MESSAGE_HEADER (isServer : bool) : Z := if isServer then 8 else 4.
Definition LONG_MESSAGE_HEADER (isServer : bool) : Z := if isServer then 14 else 10.

Definition CONSUME_POST_PADDING : Z := 4.
Definition CONSUME_PRE_PADDING (isServer : bool) : Z := LONG_MESSAGE_HEADER isServer - 1.

(** struct WebSocketState with its struct State.  An element of [opCode] that was
    never assigned is [None]. *)
Record WebSocketState := mkWebSocketState {
  wantsHead : bool;
  spillLength : Z;
  opStack : Z;
  lastFin : bool;
  spill : list Z;
  opCode : list (option Z);
  remainingBytes : Z;
  mask : list Z
}.

(** A new object; what its arrays hold before they are assigned is [spill0] and
    [mask0]. *)
Definition new_WebSocketState (spill0 mask0 : list Z) : WebSocketState :=
  mkWebSocketState true 0 (-1) true spill0 [None; None] 0 mask0.

Definition set_wantsHead b s := mkWebSocketState b (spillLength s) (opStack s) (lastFin s) (spill s) (opCode s) (remainingBytes s) (mask s).
Definition set_spillLength n s := mkWebSocketState (wantsHead s) (uwrap 4 n) (opStack s) (lastFin s) (spill s) (opCode s) (remainingBytes s) (mask s).
Definition set_opStack n s := mkWebSocketState (wantsHead s) (spillLength s) (swrap 2 n) (lastFin s) (spill s) (opCode s) (remainingBytes s) (mask s).
Definition set_lastFin b s := mkWebSocketState (wantsHead s) (spillLength s) (opStack s) b (spill s) (opCode s) (remainingBytes s) (mask s).
Definition set_spill l s := mkWebSocketState (wantsHead s) (spillLength s) (opStack s) (lastFin s) l (opCode s) (remainingBytes s) (mask s).
Definition set_opCode l s := mkWebSocketState (wantsHead s) (spillLength s) (opStack s) (lastFin s) (spill s) l (remainingBytes s) (mask s).
Definition set_remainingBytes n s := mkWebSocketState (wantsHead s) (spillLength s) (opStack s) (lastFin s) (spill s) (opCode s) n (mask s).
Definition set_mask l s := mkWebSocketState (wantsHead s) (spillLength s) (opStack s) (lastFin s) (spill s) (opCode s) (remainingBytes s) l.

(** What the parser calls on the class [Impl], of which [I] is the state.
    [handleFragment data remainingBytes opCode fin] gets the bytes its pointer
    and length stand for; it returns true when the connection is given up. *)
Class Impl (I : Type) := {
  refusePayloadLength : Z -> I -> bool;
  setCompressed : M I bool;
  forceClose : M I unit;
  handleFragment : list Z -> Z -> Z -> bool -> M I bool
}.

(** The receive buffer, the state of the parser and the rest of the object. *)
Record Receiver (I : Type) := mkReceiver { block : list Z; wState : WebSocketState; impl : I }.
Arguments mkReceiver {I}.
Arguments block {I}.
Arguments wState {I}.
Arguments impl {I}.

Definition set_block {I} l (r : Receiver I) : Receiver I := mkReceiver l (wState r) (impl r).
Definition set_wState {I} s (r : Receiver I) : Receiver I := mkReceiver (block r) s (impl r).
Definition set_impl {I} (i : I) (r : Receiver I) : Receiver I := mkReceiver (block r) (wState r) i.

(** ** Masking *)

(** [*dst = *src ^ m]. *)
Definition xor_byte (dst src m : Z) : M (list Z) unit :=
  b <- load src ;; store dst (Z.lxor b m).

(** The four assignments of one round. *)
Definition xor_word (dst src : Z) (mask : list Z) : M (list Z) unit :=
  xor_byte dst src (byte_at mask 0) ;;
  xor_byte (dst + 1) (src + 1) (byte_at mask 1) ;;
  xor_byte (dst + 2) (src + 2) (byte_at mask 2) ;;
  xor_byte (dst + 3) (src + 3) (byte_at mask 3).

Fixpoint unmask_words (n : nat) (dst src : Z) (mask : list Z) : M (list Z) unit :=
  match n with
  | O => ret tt
  | S n => xor_word dst src mask ;; unmask_words n (dst + 4) (src + 4) mask
  end.

Definition unmaskImprecise (dst src : Z) (mask : list Z) (length : Z) : M (list Z) unit :=
  unmask_words (Z.to_nat (Z.shiftr length 2 + 1)) dst src mask.

Definition unmaskImpreciseCopyMask (dst src maskPtr length : Z) : M (list Z) unit :=
  mask <- load_bytes maskPtr 4 ;; unmaskImprecise dst src mask length.

Definition rotateMask (offset : Z) (mask : list Z) : list Z :=
  foldl (fun m k => <[Z.to_nat (uwrap 32 (k + offset) mod 4) := byte_at mask k]> m) mask [0; 1; 2; 3].

Definition unmaskInplace (data stop : Z) (mask : list Z) : M (list Z) unit :=
  iter (S (Z.to_nat (stop - data)))
    (fun data => if data <? stop then xor_word data data mask ;; ret (inl (data + 4)) else ret (inr tt)) data.

(** [for (i = 0, s = remainingBytes % 4; i < s; i++) src[n * 4 + i] ^= mask[i];] *)
Fixpoint unmask_tail (s : nat) (i data : Z) (mask : list Z) : M (list Z) unit :=
  match s with
  | O => ret tt
  | S s => xor_byte (data + i) (data + i) (byte_at mask i) ;; unmask_tail s (i + 1) data mask
  end.

(** ** The head of a frame *)

Definition isFin (frame : Z) : M (list Z) bool := b <- load frame ;; ret (bits_set b 128).

Definition getOpCode (frame : Z) : M (list Z) Z := b <- load frame ;; ret (Z.land b 15).

Definition payloadLength (frame : Z) : M (list Z) Z := b <- load (frame + 1) ;; ret (Z.land b 127).

Definition rsv23 (frame : Z) : M (list Z) bool := b <- load frame ;; ret (bits_set b 48).

Definition rsv1 (frame : Z) : M (list Z) bool := b <- load frame ;; ret (bits_set b 64).

Section Protocol.
Context (isServer : bool) {I : Type} {H : Impl I}.
#[local] Abbreviation R := (Receiver I).

(** Accesses to the buffer, to the state and to the object. *)
Definition on_block {A} (m : M (list Z) A) : M R A := lift block set_block m.

Definition update (f : WebSocketState -> WebSocketState) : M R unit :=
  modify (fun r => set_wState (f (wState r)) r).

Definition on_impl {A} (m : M I A) : M R A := lift impl set_impl m.

(** [wState->state.opCode[wState->state.opStack]]. *)
Definition top_opCode : M R Z :=
  s <- get wState ;;
  match (if 0 <=? opStack s then opCode s !! Z.to_nat (opStack s) else None) with
  | Some (Some op) => ret op
  | _ => undef
  end.

(** The first part of consumeMessage: the stack of the opcodes, the last fin bit
    and the limit on the payload.  Returns true when the frame is refused. *)
Definition begin_frame (payLength src : Z) : M R bool :=
  op <- on_block (getOpCode src) ;;
  s <- get wState ;;
  refused <- (if negb (op =? 0) then
                if (opStack s =? 1) || (negb (lastFin s) && (op <? 2)) then on_impl forceClose ;; ret true
                else
                  update (fun s => set_opStack (opStack s + 1) s) ;;
                  s <- get wState ;;
                  require ((0 <=? opStack s) && (opStack s <? 2)) ;;
                  update (set_opCode (<[Z.to_nat (opStack s) := Some op]> (opCode s))) ;; ret false
              else if opStack s =? -1 then on_impl forceClose ;; ret true
              else ret false) ;;
  if refused : bool then ret true else
  fin <- on_block (isFin src) ;;
  update (set_lastFin fin) ;;
  refuse <- get (fun r => refusePayloadLength payLength (impl r)) ;;
  if refuse : bool then on_impl forceClose ;; ret true else ret false.

(** The frame is complete in the buffer.  [None] is the return of true, [Some] the
    new values of [src] and [length]. *)
Definition whole_frame (MESSAGE_HEADER payLength src length : Z) : M R (option (Z * Z)) :=
  (if isServer then
     on_block (unmaskImpreciseCopyMask (src + MESSAGE_HEADER - 4) (src + MESSAGE_HEADER) (src + MESSAGE_HEADER - 4) payLength)
   else ret tt) ;;
  op <- top_opCode ;;
  fin <- on_block (isFin src) ;;
  data <- on_block (load_bytes (src + (if isServer then MESSAGE_HEADER - 4 else MESSAGE_HEADER)) payLength) ;;
  gone <- on_impl (handleFragment data 0 op fin) ;;
  if gone : bool then ret None else
  fin <- on_block (isFin src) ;;
  (if fin : bool then update (fun s => set_opStack (opStack s - 1) s) else ret tt) ;;
  update (set_spillLength 0) ;;
  ret (Some (src + (payLength + MESSAGE_HEADER), u32 (length - (payLength + MESSAGE_HEADER)))).

(** Only the first part of the payload is in the buffer. *)
Definition partial_frame (MESSAGE_HEADER payLength src length : Z) : M R (option (Z * Z)) :=
  update (set_spillLength 0) ;;
  update (set_wantsHead false) ;;
  update (set_remainingBytes (u32 (payLength - length + MESSAGE_HEADER))) ;;
  fin <- on_block (isFin src) ;;
  src <- (if isServer then
            m <- on_block (load_bytes (src + MESSAGE_HEADER - 4) 4) ;;
            update (set_mask m) ;;
            on_block (unmaskImprecise src (src + MESSAGE_HEADER) m (u32 (length - MESSAGE_HEADER))) ;;
            update (fun s => set_mask (rotateMask (u32 (4 - u32 (length - MESSAGE_HEADER) mod 4)) (mask s)) s) ;;
            ret src
          else ret (src + MESSAGE_HEADER)) ;;
  s <- get wState ;;
  op <- top_opCode ;;
  data <- on_block (load_bytes src (u32 (length - MESSAGE_HEADER))) ;;
  on_impl (handleFragment data (remainingBytes s) op fin) ;;
  ret None.

(** [w] is the width in which [payLength + MESSAGE_HEADER] is computed: 64 when
    the template parameter [T] is uint64_t, otherwise that of unsigned int. *)
Definition consumeMessage (MESSAGE_HEADER w payLength src length : Z) : M R (option (Z * Z)) :=
  refused <- begin_frame payLength src ;;
  if refused : bool then ret None else
  if uwrap w (payLength + MESSAGE_HEADER) <=? length then whole_frame MESSAGE_HEADER payLength src length
  else partial_frame MESSAGE_HEADER payLength src length.

(** [None] is the return of false, [Some] the new values of [src] and [length]. *)
Definition consumeContinuation (src length : Z) : M R (option (Z * Z)) :=
  s <- get wState ;;
  if remainingBytes s <=? length then
    (if isServer then
       let n := Z.shiftr (remainingBytes s) 2 in
       require (fits_signed 32 (n * 4)) ;;
       on_block (unmaskInplace src (src + n * 4) (mask s) ;;
                 unmask_tail (Z.to_nat (remainingBytes s mod 4)) 0 (src + n * 4) (mask s))
     else ret tt) ;;
    op <- top_opCode ;;
    data <- on_block (load_bytes src (remainingBytes s)) ;;
    gone <- on_impl (handleFragment data 0 op (lastFin s)) ;;
    if gone : bool then ret None else
    (if lastFin s then update (fun s => set_opStack (opStack s - 1) s) else ret tt) ;;
    update (set_wantsHead true) ;;
    ret (Some (src + remainingBytes s, u32 (length - remainingBytes s)))
  else
    (if isServer then on_block (unmaskInplace src (src + (Z.shiftr length 2 + 1) * 4) (mask s)) else ret tt) ;;
    update (fun s => set_remainingBytes (u32 (remainingBytes s - length)) s) ;;
    s <- get wState ;;
    op <- top_opCode ;;
    data <- on_block (load_bytes src length) ;;
    gone <- on_impl (handleFragment data (remainingBytes s) op (lastFin s)) ;;
    if gone : bool then ret None else
    (if isServer && negb (length mod 4 =? 0)
     then update (fun s => set_mask (rotateMask (u32 (4 - length mod 4)) (mask s)) s) else ret tt) ;;
    ret None.

(** The conditions under which a head is refused. *)
Definition invalid_head (src : Z) : M R bool :=
  compressed <- on_block (rsv1 src) ;;
  uncompressible <- (if compressed : bool then ok <- on_impl setCompressed ;; ret (negb ok) else ret false) ;;
  if uncompressible : bool then ret true else
  reserved <- on_block (rsv23 src) ;;
  op <- on_block (getOpCode src) ;;
  fin <- on_block (isFin src) ;;
  len <- on_block (payloadLength src) ;;
  ret (reserved || ((2 <? op) && (op <? 8)) || (10 <? op) || ((2 <? op) && (negb fin || (125 <? len)))).

(** One round of the loop behind [parseNext].  [inr None] leaves consume, [inr
    (Some _)] the loop. *)
Definition parse_round (l : Z * Z) : M R ((Z * Z) + option (Z * Z)) :=
  let '(src, length) := l in
  let go_on m := (let? l := m else ret (inr None) in ret (inl l)) in
  if SHORT_MESSAGE_HEADER isServer <=? length then
    invalid <- invalid_head src ;;
    if invalid : bool then on_impl forceClose ;; ret (inr None) else
    len <- on_block (payloadLength src) ;;
    if len <? 126 then go_on (consumeMessage (SHORT_MESSAGE_HEADER isServer) 32 len src length)
    else if len =? 126 then
      if length <? MEDIUM_MESSAGE_HEADER isServer then ret (inr (Some (src, length)))
      else bs <- on_block (load_bytes (src + 2) 2) ;;
           go_on (consumeMessage (MEDIUM_MESSAGE_HEADER isServer) 32 (be_combine bs) src length)
    else if length <? LONG_MESSAGE_HEADER isServer then ret (inr (Some (src, length)))
    else bs <- on_block (load_bytes (src + 2) 8) ;;
         go_on (consumeMessage (LONG_MESSAGE_HEADER isServer) 64 (be_combine bs) src length)
  else ret (inr (Some (src, length))).

(** The code from the label [parseNext] on. *)
Definition parseNext (src length : Z) : M R unit :=
  r <- iter (S (Z.to_nat length)) parse_round (src, length) ;;
  match r with
  | None => ret tt
  | Some (src, length) =>
      if negb (length =? 0) then
        bs <- on_block (load_bytes src length) ;;
        s <- get wState ;;
        require (length <=? lengthZ (spill s)) ;;
        update (set_spill (splice (spill s) 0 bs)) ;;
        update (set_spillLength length)
      else ret tt
  end.

Definition consume (src length : Z) : M R unit :=
  s <- get wState ;;
  l <- (if negb (spillLength s =? 0) then
          require (spillLength s <=? lengthZ (spill s)) ;;
          on_block (store_bytes (src - spillLength s) (slice (spill s) 0 (spillLength s))) ;;
          ret (src - spillLength s, u32 (length + spillLength s))
        else ret (src, length)) ;;
  if wantsHead s then parseNext l.1 l.2
  else
    o <- consumeContinuation l.1 l.2 ;;
    match o with Some l => parseNext l.1 l.2 | None => ret tt end.

End Protocol.

(** ** Formatting *)

(** [while (start != stop) ( *start++) ^= mask[i++ % 4];] *)
Fixpoint mask_loop (n : nat) (start i : Z) (mask : list Z) : M (list Z) unit :=
  match n with
  | O => ret tt
  | S n =>
      xor_byte start start (byte_at mask (Z.rem i 4)) ;;
      require (fits_signed 32 (i + 1)) ;;
      mask_loop n (start + 1) (i + 1) mask
  end.

(** [dst] is an index into the block that is written; [random] is rand(). *)
Definition formatMessage (isServer : bool) (random dst : Z) (src : list Z) (opCode reportedLength : Z)
    (compressed : bool) : M (list Z) Z :=
  headerLength <-
    (if reportedLength <? 126 then
       store (dst + 1) (u8 reportedLength) ;; ret 2
     else if reportedLength <=? 65535 then
       store (dst + 1) 126 ;; store_bytes (dst + 2) (be_split 2 (u16 reportedLength)) ;; ret 4
     else
       store (dst + 1) 127 ;; store_bytes (dst + 2) (be_split 8 (u64 reportedLength)) ;; ret 10) ;;
  let flags := 0 in
  store dst (Z.lor (if bits_set flags SND_NO_FIN then 0 else 128) (if compressed then SND_COMPRESSED else 0)) ;;
  (if negb (bits_set flags SND_CONTINUATION)
   then b <- load dst ;; store dst (Z.lor b opCode) else ret tt) ;;
  let mask := le_split 4 random in
  headerLength <-
    (if isServer then ret headerLength
     else
       b <- load (dst + 1) ;; store (dst + 1) (Z.lor b 0x80) ;;
       store_bytes (dst + headerLength) mask ;; ret (headerLength + 4)) ;;
  store_bytes (dst + headerLength) src ;;
  (if isServer then ret tt else mask_loop (Z.to_nat (lengthZ src)) (dst + headerLength) 0 mask) ;;
  ret (headerLength + lengthZ src).

(** ** Close frames *)

(** struct CloseFrame; a null message is an empty one. *)
Record CloseFrame := mkCloseFrame { code : Z; message : list Z }.

Definition parseClosePayload (src length : Z) : M (list Z) CloseFrame :=
  if 2 <=? length then
    bs <- load_bytes src 2 ;;
    message <- load_bytes (src + 2) (length - 2) ;;
    let code := be_combine bs in
    if (code <? 1000) || (4999 <? code) || ((1011 <? code) && (code <? 4000)) || ((1004 <=? code) && (code <=? 1006))
    then ret (mkCloseFrame 0 [])
    else valid <- isValidUtf8 (src + 2) (length - 2) ;;
         ret (if valid : bool then mkCloseFrame code message else mkCloseFrame 0 [])
  else ret (mkCloseFrame 0 []).

Definition formatClosePayload (dst code : Z) (message : list Z) : M (list Z) Z :=
  if negb (code =? 0) then
    store_bytes dst (be_split 2 code) ;; store_bytes (dst + 2) message ;; ret (lengthZ message + 2)
  else ret 0.
