(* ===== verification/Masking.v ===== *)
(** * Masking of payloads

    What the loops of src/libuws/include/WebSocketProtocol.h that combine bytes
    with the mask compute: each of them, also the one that overlaps its source and
    writes past the end, overwrites one part of the block with the masked bytes
    that were in another one. *)

From S2P Require Import Prelude Memory Buffer WebSocketProtocol.

(** The bytes [d] combined with the mask, of which the first byte uses element
    [k mod 4]. *)
Fixpoint masked (m : list Z) (k : Z) (d : list Z) : list Z :=
  match d with
  | [] => []
  | b :: t => Z.lxor b (byte_at m (k mod 4)) :: masked m (k + 1) t
  end.

Lemma masked_length m k d : lengthZ (masked m k d) = lengthZ d.
Proof. revert k. induction d as [|b t IH]; intros k; [done|]. simpl. by rewrite !lengthZ_cons, IH. Qed.

Lemma masked_app m k d1 d2 : masked m k (d1 ++ d2) = masked m k d1 ++ masked m (k + lengthZ d1) d2.
Proof.
  revert k. induction d1 as [|b t IH]; intros k; simpl; [by rewrite lengthZ_nil, Z.add_0_r|].
  rewrite IH, lengthZ_cons. do 3 f_equal. lia.
Qed.

(** Masking is its own inverse. *)
Lemma masked_masked m k d : masked m k (masked m k d) = d.
Proof.
  revert k. induction d as [|b t IH]; intros k; [done|]. simpl.
  by rewrite IH, Z.lxor_assoc, Z.lxor_nilpotent, Z.lxor_0_r.
Qed.

(** Only the elements of the mask matter that are used. *)
Lemma masked_ext m m' k k' d :
  (forall j, byte_at m ((k + j) mod 4) = byte_at m' ((k' + j) mod 4)) -> masked m k d = masked m' k' d.
Proof.
  revert k k'. induction d as [|b t IH]; intros k k' E; [done|]. simpl. f_equal.
  - f_equal. specialize (E 0). by rewrite !Z.add_0_r in E.
  - apply IH. intros j. rewrite <- !Z.add_assoc. apply E.
Qed.

Lemma masked_mod m k k' d : k mod 4 = k' mod 4 -> masked m k d = masked m k' d.
Proof.
  intros E. apply masked_ext. intros j. f_equal.
  rewrite <- (Zplus_mod_idemp_l k), <- (Zplus_mod_idemp_l k'). by rewrite E.
Qed.

Lemma lxor_byte x y : is_byte x -> is_byte y -> is_byte (Z.lxor x y).
Proof.
  unfold is_byte. intros Hx Hy. split; [apply Z.lxor_nonneg; lia|].
  destruct (Z.eq_dec (Z.lxor x y) 0) as [->|Hne]; [lia|]. change 256 with (2 ^ 8).
  assert (0 <= Z.lxor x y) by (apply Z.lxor_nonneg; lia).
  apply Z.log2_lt_pow2; [lia|]. eapply Z.le_lt_trans; [apply Z.log2_lxor; lia|].
  assert (forall z, 0 <= z < 256 -> Z.log2 z < 8) as Hlog.
  { intros z Hz. destruct (Z.eq_dec z 0) as [->|]; [done|]. apply Z.log2_lt_pow2; lia. }
  pose proof (Hlog x Hx). pose proof (Hlog y Hy). lia.
Qed.

Lemma byte_at_byte l i : Forall is_byte l -> is_byte (byte_at l i).
Proof.
  intros H. unfold byte_at. rewrite nth_lookup.
  destruct (l !! Z.to_nat i) eqn:E; [exact (Forall_lookup_1 _ _ _ _ H E)|done].
Qed.

Lemma masked_bytes m k d : Forall is_byte m -> Forall is_byte d -> Forall is_byte (masked m k d).
Proof.
  intros Hm Hd. revert k. induction Hd as [|b t Hb _ IH]; intros k; simpl; constructor; [|apply IH].
  apply lxor_byte; [done|by apply byte_at_byte].
Qed.

(** ** The loops *)

(** The part of [l] from [dst] on replaced by the masked [n] bytes from [src] on. *)
Definition masked_copy (l : list Z) (dst src n : Z) (m : list Z) (k : Z) : list Z :=
  splice l dst (masked m k (slice l src n)).

Section Copy.
Context (m : list Z) (l : list Z).

Lemma masked_slice_length src n k : in_block l src n = true -> lengthZ (masked m k (slice l src n)) = n.
Proof using. intros H%in_block_spec. by rewrite masked_length, slice_length by lia. Qed.

Lemma masked_copy_length dst src n k : in_block l dst n = true -> in_block l src n = true ->
  lengthZ (masked_copy l dst src n m k) = lengthZ l.
Proof using. intros. apply splice_length. by rewrite masked_slice_length. Qed.

(** Copying downwards (or in place) in two steps is copying in one. *)
Lemma masked_copy_copy dst src n1 n2 k : dst <= src -> 0 <= n1 -> 0 <= n2 ->
  in_block l dst (n1 + n2) = true -> in_block l src (n1 + n2) = true ->
  masked_copy (masked_copy l dst src n1 m k) (dst + n1) (src + n1) n2 m (k + n1) =
    masked_copy l dst src (n1 + n2) m k.
Proof using.
  intros Hle H1 H2 Hd Hs. apply in_block_spec in Hd as Hd', Hs as Hs'.
  assert (in_block l src n1 = true) as Hs1 by (apply in_block_spec; lia).
  pose proof (masked_slice_length src n1 k Hs1) as L1. unfold masked_copy.
  assert (in_block l dst (lengthZ (masked m k (slice l src n1))) = true) as Hin by (rewrite L1; apply in_block_spec; lia).
  rewrite (splice_after _ _ _ Hin) by (rewrite L1; lia).
  replace (dst + n1) with (dst + lengthZ (masked m k (slice l src n1))) by lia. rewrite splice_splice.
  - f_equal. rewrite slice_app, masked_app, slice_length by lia. done.
  - rewrite L1, masked_slice_length by (apply in_block_spec; lia). done.
Qed.

Lemma wp_xor_byte b dst src x k (Q : unit -> list Z -> Prop) :
  x = byte_at m (k mod 4) -> in_block l dst 1 = true -> in_block l src 1 = true ->
  Q tt (masked_copy l dst src 1 m k) -> wp b (xor_byte dst src x) Q l.
Proof using.
  intros -> Hd Hs HQ. unfold xor_byte. wp_step. apply wp_load; [done|]. apply wp_store; [done|].
  unfold masked_copy in HQ. apply in_block_spec in Hs. rewrite slice_S, slice_0 in HQ by lia. exact HQ.
Qed.

End Copy.

Lemma wp_xor_word b m l dst src k (Q : unit -> list Z -> Prop) :
  k mod 4 = 0 -> dst <= src -> in_block l dst 4 = true -> in_block l src 4 = true ->
  Q tt (masked_copy l dst src 4 m k) -> wp b (xor_word dst src m) Q l.
Proof.
  intros Hk Hle Hd%in_block_spec Hs%in_block_spec HQ. unfold xor_word.
  assert (forall j, 0 <= j < 4 -> (k + j) mod 4 = j) as Hj.
  { intros j Hj. rewrite <- Zplus_mod_idemp_l, Hk. by apply Z.mod_small. }
  assert (forall n j, 0 <= n -> 0 <= j -> j + n <= 4 -> in_block l (dst + j) n = true /\ in_block l (src + j) n = true) as Hin.
  { intros. split; apply in_block_spec; lia. }
  assert (forall n, 0 <= n <= 4 -> lengthZ (masked_copy l dst src n m k) = lengthZ l) as Hlen.
  { intros n Hn. apply masked_copy_length; apply in_block_spec; lia. }
  wp_step. apply (wp_xor_byte m _ b dst src _ k); [by rewrite Hk|apply in_block_spec; lia..|].
  do 2 (wp_step; eapply (wp_xor_byte m _ b _ _ _ (k + _));
    [by rewrite Hj|apply in_block_spec; rewrite Hlen; lia..|];
    rewrite masked_copy_copy by (lia || apply in_block_spec; lia); simpl (_ + 1)).
  eapply (wp_xor_byte m _ b _ _ _ (k + 3)); [by rewrite Hj|apply in_block_spec; rewrite Hlen; lia..|].
  rewrite masked_copy_copy by (lia || apply in_block_spec; lia). exact HQ.
Qed.

Lemma wp_unmask_words b m n l dst src k (Q : unit -> list Z -> Prop) :
  k mod 4 = 0 -> dst <= src -> in_block l dst (4 * Z.of_nat n) = true -> in_block l src (4 * Z.of_nat n) = true ->
  Q tt (masked_copy l dst src (4 * Z.of_nat n) m k) -> wp b (unmask_words n dst src m) Q l.
Proof.
  revert l dst src k. induction n as [|n IH]; intros l dst src k Hk Hle Hd Hs HQ;
    apply in_block_spec in Hd as Hd', Hs as Hs'; cbn [unmask_words].
  - apply wp_ret. unfold masked_copy in HQ. change (4 * Z.of_nat 0) with 0 in HQ.
    rewrite slice_0 in HQ. simpl in HQ. by rewrite splice_nil in HQ by lia.
  - rewrite Nat2Z.inj_succ in *. wp_step. apply (wp_xor_word _ _ _ _ _ k); [done|done|apply in_block_spec; lia..|].
    assert (lengthZ (masked_copy l dst src 4 m k) = lengthZ l) as Hlen by (apply masked_copy_length; apply in_block_spec; lia).
    apply (IH _ _ _ (k + 4)); [|lia|apply in_block_spec; rewrite Hlen; lia..|].
    + rewrite <- Zplus_mod_idemp_l, Hk. done.
    + rewrite masked_copy_copy by (lia || apply in_block_spec; lia).
      by replace (4 + 4 * Z.of_nat n) with (4 * Z.succ (Z.of_nat n)) by lia.
Qed.

(** The number of bytes the imprecise loops go through for [length] bytes: up to
    four more than asked for. *)
Definition imprecise (length : Z) : Z := 4 * (length / 4 + 1).

Lemma imprecise_bounds n : 0 <= n -> n < imprecise n <= n + 4.
Proof. intros. unfold imprecise. Z.to_euclidean_division_equations. lia. Qed.

Lemma wp_unmaskImprecise b m l dst src n (Q : unit -> list Z -> Prop) :
  0 <= n -> dst <= src -> in_block l dst (imprecise n) = true -> in_block l src (imprecise n) = true ->
  Q tt (masked_copy l dst src (imprecise n) m 0) -> wp b (unmaskImprecise dst src m n) Q l.
Proof.
  intros Hn Hle. unfold unmaskImprecise, imprecise. rewrite Z.shiftr_div_pow2 by lia. change (2 ^ 2) with 4.
  assert (0 <= n / 4) by (apply Z.div_pos; lia). intros Hd Hs HQ.
  apply (wp_unmask_words _ _ _ _ _ _ 0); rewrite ?Z2Nat.id by lia; done.
Qed.

Lemma wp_unmaskInplace b m l data n (Q : unit -> list Z -> Prop) :
  0 <= n -> in_block l data (4 * n) = true ->
  Q tt (masked_copy l data data (4 * n) m 0) -> wp b (unmaskInplace data (data + 4 * n) m) Q l.
Proof.
  intros Hn Hin HQ. apply in_block_spec in Hin as Hin'. unfold unmaskInplace.
  apply (wp_iter _ _ (fun d l' => exists j, 0 <= j <= n /\ d = data + 4 * j /\ l' = masked_copy l data data (4 * j) m 0)
    (fun d _ => Z.to_nat (data + 4 * n - d))); [|exists 0; split_and!; [lia..| ]|lia].
  - intros d l' (j & Hj & -> & ->).
    assert (lengthZ (masked_copy l data data (4 * j) m 0) = lengthZ l) as Hlen by (apply masked_copy_length; apply in_block_spec; lia).
    destruct (Z.ltb_spec (data + 4 * j) (data + 4 * n)) as [Hlt|Hge].
    + wp_step. apply (wp_xor_word _ _ _ _ _ (0 + 4 * j));
        [by rewrite Z.add_0_l, Z.mul_comm, Z.mod_mul|done|apply in_block_spec; rewrite Hlen; lia..|].
      rewrite masked_copy_copy by (lia || apply in_block_spec; lia). apply wp_ret. split; [|lia].
      exists (j + 1). split_and!; [lia..|]. f_equal. lia.
    + apply wp_ret. by assert (j = n) as -> by lia.
  - unfold masked_copy. rewrite Z.mul_0_r, slice_0. simpl. by rewrite splice_nil by lia.
Qed.

Lemma wp_unmask_tail b m n l data i (Q : unit -> list Z -> Prop) :
  0 <= i -> i + Z.of_nat n <= 4 -> in_block l (data + i) (Z.of_nat n) = true ->
  Q tt (masked_copy l (data + i) (data + i) (Z.of_nat n) m i) -> wp b (unmask_tail n i data m) Q l.
Proof.
  revert l i. induction n as [|n IH]; intros l i Hi H4 Hin HQ; apply in_block_spec in Hin as Hin'; cbn [unmask_tail].
  - apply wp_ret. unfold masked_copy in HQ. simpl in HQ. by rewrite splice_nil in HQ by lia.
  - rewrite Nat2Z.inj_succ in *. wp_step.
    apply (wp_xor_byte m _ _ _ _ _ i); [by rewrite Z.mod_small by lia|apply in_block_spec; lia..|].
    assert (lengthZ (masked_copy l (data + i) (data + i) 1 m i) = lengthZ l) as Hlen by (apply masked_copy_length; apply in_block_spec; lia).
    apply IH; [lia..|apply in_block_spec; rewrite Hlen; lia|].
    rewrite Z.add_assoc, masked_copy_copy by (lia || apply in_block_spec; lia).
    by replace (1 + Z.of_nat n) with (Z.succ (Z.of_nat n)) by lia.
Qed.

Lemma wp_mask_loop b m n l start i (Q : unit -> list Z -> Prop) :
  0 <= i -> i + Z.of_nat n < 2 ^ 31 -> in_block l start (Z.of_nat n) = true ->
  Q tt (masked_copy l start start (Z.of_nat n) m i) -> wp b (mask_loop n start i m) Q l.
Proof.
  revert l i start. induction n as [|n IH]; intros l i start Hi H4 Hin HQ; apply in_block_spec in Hin as Hin'; cbn [mask_loop].
  - apply wp_ret. unfold masked_copy in HQ. simpl in HQ. by rewrite splice_nil in HQ by lia.
  - rewrite Nat2Z.inj_succ in *. wp_step.
    apply (wp_xor_byte m _ _ _ _ _ i); [by rewrite Z.rem_mod_nonneg by lia|apply in_block_spec; lia..|].
    assert (lengthZ (masked_copy l start start 1 m i) = lengthZ l) as Hlen by (apply masked_copy_length; apply in_block_spec; lia).
    wp_step. apply wp_require; [intros _|unfold fits_signed; lia].
    apply IH; [lia..|apply in_block_spec; rewrite Hlen; lia|].
    rewrite masked_copy_copy by (lia || apply in_block_spec; lia).
    by replace (1 + Z.of_nat n) with (Z.succ (Z.of_nat n)) by lia.
Qed.

Lemma masked_copy_mod l dst src n m k k' : k mod 4 = k' mod 4 -> masked_copy l dst src n m k = masked_copy l dst src n m k'.
Proof. intros E. unfold masked_copy. by rewrite (masked_mod m k k') by done. Qed.

(** The words and the rest of a piece that ends in the buffer. *)
Lemma wp_unmask_exact b m l src n (Q : unit -> list Z -> Prop) :
  0 <= n -> in_block l src n = true -> Q tt (masked_copy l src src n m 0) ->
  wp b (unmaskInplace src (src + Z.shiftr n 2 * 4) m ;;
        unmask_tail (Z.to_nat (n mod 4)) 0 (src + Z.shiftr n 2 * 4) m) Q l.
Proof.
  intros Hn Hin HQ. apply in_block_spec in Hin. rewrite Z.shiftr_div_pow2 by lia. change (2 ^ 2) with 4.
  rewrite (Z.mul_comm (n / 4)). pose proof (Z.div_mod n 4 ltac:(lia)) as Hdiv. pose proof (Z.mod_pos_bound n 4 ltac:(lia)).
  wp_step. apply wp_unmaskInplace; [lia|apply in_block_spec; lia|].
  assert (lengthZ (masked_copy l src src (4 * (n / 4)) m 0) = lengthZ l) as Hlen by (apply masked_copy_length; apply in_block_spec; lia).
  apply wp_unmask_tail; rewrite ?Z2Nat.id by lia; [lia..|apply in_block_spec; rewrite Hlen; lia|].
  rewrite Z.add_0_r, (masked_copy_mod _ _ _ _ _ 0 (0 + 4 * (n / 4))).
  - rewrite masked_copy_copy by (lia || apply in_block_spec; lia). by rewrite <- Hdiv.
  - by rewrite Z.add_0_l, Z.mul_comm, Z.mod_mul.
Qed.

(** ** Rotation

    A mask that is rotated by the number of bytes that were unmasked goes on where
    they ended. *)
Lemma mask4 (m : list Z) : lengthZ m = 4 -> exists a b c d, m = [a; b; c; d].
Proof.
  unfold lengthZ. destruct m as [|a [|b [|c [|d [|]]]]]; simpl; intros; try lia. by exists a, b, c, d.
Qed.

Lemma mod4_cases x : x mod 4 = 0 \/ x mod 4 = 1 \/ x mod 4 = 2 \/ x mod 4 = 3.
Proof. pose proof (Z.mod_pos_bound x 4). lia. Qed.

Lemma rotateMask_length n m : lengthZ m = 4 -> lengthZ (rotateMask n m) = 4.
Proof. unfold lengthZ, rotateMask. cbn [foldl]. by rewrite !length_insert. Qed.

Lemma rotateMask_bytes n m : Forall is_byte m -> Forall is_byte (rotateMask n m).
Proof.
  intros H. unfold rotateMask. cbn [foldl].
  repeat (apply Forall_insert; [|by apply byte_at_byte]). done.
Qed.

Lemma masked_rotate m n k d : lengthZ m = 4 -> 0 <= n ->
  masked (rotateMask (u32 (4 - n mod 4)) m) k d = masked m (k + n) d.
Proof.
  intros (a & b & c & e & ->)%mask4 Hn. apply masked_ext. intros j.
  replace ((k + n + j) mod 4) with (((k + j) mod 4 + n mod 4) mod 4).
  2: { rewrite <- Zplus_mod. f_equal. lia. }
  destruct (mod4_cases n) as [->|[->|[->| ->]]]; destruct (mod4_cases (k + j)) as [->|[->|[->| ->]]]; done.
Qed.
