(* ===== verification/WebSocketFrames.v ===== *)
(** * Frames and what receiving them means

    The abstract side of src/libuws/include/WebSocketProtocol.h: frames and their
    encoding (RFC 6455, section 5.2), a receiver that gets whole frames, and the
    laws of the class [Impl] under which the parser of a byte stream agrees with
    it. *)

From S2P Require Import Prelude Memory Buffer Utf8 WebSocketProtocol Masking.

(** The three forms of the length field. *)
Inductive length_form := Short | Medium | Long.

(** [f_rsv] holds the three reserved bits; [f_mask_bit] is the bit that announces
    a mask. *)
Record frame := mkFrame {
  f_fin : bool;
  f_rsv : Z;
  f_op : Z;
  f_form : length_form;
  f_mask_bit : bool;
  f_mask : list Z;
  f_payload : list Z
}.

Definition f_length (f : frame) : Z := lengthZ (f_payload f).

Definition form_limit (fm : length_form) : Z :=
  match fm with Short => 126 | Medium => 2 ^ 16 | Long => 2 ^ 64 end.

Record frame_ok (f : frame) : Prop := {
  ok_rsv : 0 <= f_rsv f < 8;
  ok_op : 0 <= f_op f < 16;
  ok_mask : lengthZ (f_mask f) = 4;
  ok_mask_bytes : Forall is_byte (f_mask f);
  ok_payload : Forall is_byte (f_payload f);
  ok_length : f_length f < form_limit (f_form f)
}.

Definition byte0 (f : frame) : Z := (if f_fin f then 128 else 0) + 16 * f_rsv f + f_op f.

Definition length7 (f : frame) : Z :=
  match f_form f with Short => f_length f | Medium => 126 | Long => 127 end.

Definition byte1 (f : frame) : Z := (if f_mask_bit f then 128 else 0) + length7 f.

Definition length_bytes (f : frame) : list Z :=
  match f_form f with
  | Short => []
  | Medium => be_split 2 (f_length f)
  | Long => be_split 8 (f_length f)
  end.

(** A server takes every frame for a masked one, a client none. *)
Definition header (isServer : bool) (f : frame) : list Z :=
  byte0 f :: byte1 f :: length_bytes f ++ (if isServer then f_mask f else []).

Definition wire_payload (isServer : bool) (f : frame) : list Z :=
  if isServer then masked (f_mask f) 0 (f_payload f) else f_payload f.

Definition encode_frame (isServer : bool) (f : frame) : list Z := header isServer f ++ wire_payload isServer f.

Definition encode_frames (isServer : bool) (fs : list frame) : list Z := concat (map (encode_frame isServer) fs).

Definition header_length (isServer : bool) (fm : length_form) : Z :=
  match fm with
  | Short => SHORT_MESSAGE_HEADER isServer
  | Medium => MEDIUM_MESSAGE_HEADER isServer
  | Long => LONG_MESSAGE_HEADER isServer
  end.

(** ** Receiving whole frames

    The opcodes of the messages that have begun and not ended (the last one is
    the innermost), whether the last frame ended a message, and the object. *)
Record rx (I : Type) := mkRx { rx_ops : list Z; rx_fin : bool; rx_app : I }.
Arguments mkRx {I}.
Arguments rx_ops {I}.
Arguments rx_fin {I}.
Arguments rx_app {I}.

Definition invalid_frame (f : frame) : bool :=
  bits_set (f_rsv f) 4 || bits_set (f_rsv f) 3 || ((2 <? f_op f) && (f_op f <? 8)) || (10 <? f_op f)
  || ((2 <? f_op f) && (negb (f_fin f) || (125 <? length7 f))).

Section Receive.
Context {I : Type} {H : Impl I}.

Definition on_app {A} (m : M I A) : M (rx I) A :=
  lift rx_app (fun i r => mkRx (rx_ops r) (rx_fin r) i) m.

(** Whether the opcode of a frame fits what has begun. *)
Definition misplaced (f : frame) (r : rx I) : bool :=
  if f_op f =? 0 then bool_decide (rx_ops r = [])
  else (lengthZ (rx_ops r) =? 2) || (negb (rx_fin r) && (f_op f <? 2)).

(** The head of a frame; true when the frame ends the connection. *)
Definition accept (f : frame) : M (rx I) bool :=
  r <- get id ;;
  if invalid_frame f || misplaced f r then on_app forceClose ;; ret true else
  modify (fun r => mkRx (if f_op f =? 0 then rx_ops r else rx_ops r ++ [f_op f]) (f_fin f) (rx_app r)) ;;
  refuse <- get (fun r => refusePayloadLength (f_length f) (rx_app r)) ;;
  if refuse : bool then on_app forceClose ;; ret true else ret false.

(** Its payload, in one piece. *)
Definition deliver (f : frame) : M (rx I) bool :=
  r <- get id ;;
  gone <- on_app (handleFragment (f_payload f) 0 (List.last (rx_ops r) 0) (f_fin f)) ;;
  if gone : bool then ret true else
  (if f_fin f then modify (fun r => mkRx (removelast (rx_ops r)) (rx_fin r) (rx_app r)) else ret tt) ;;
  ret false.

Definition receive_frame (f : frame) : M (rx I) bool :=
  refused <- accept f ;;
  if refused : bool then ret true else deliver f.

Fixpoint receive (fs : list frame) : M (rx I) bool :=
  match fs with
  | [] => ret false
  | f :: fs => gone <- receive_frame f ;; if gone : bool then ret true else receive fs
  end.

End Receive.

(** ** The laws of the object

    [partial op d i i']: [i'] is what [i] becomes when the bytes [d] of a frame of
    opcode [op] that is not complete are handled.  Handling the rest of the frame
    must lead to what handling all of it from [i] leads to.  When the connection
    is given up, only what [same_end] relates has to agree.  [deflates] is whether
    the extension for compressed messages was negotiated. *)
Definition fragment_agrees {I} (same_end : I -> I -> Prop) (o1 o2 : outcome (bool * I)) : Prop :=
  match o1, o2 with
  | Ok (false, i1), Ok (false, i2) => i1 = i2
  | Ok (true, i1), Ok (true, i2) => same_end i1 i2
  | _, _ => False
  end.

Definition data_op (op : Z) : Prop := op = TEXT \/ op = BINARY.

(** The opcodes of frames the parser hands on; control frames are short and whole
    messages. *)
Definition fragment_ok (op : Z) (fin : bool) (n : Z) : Prop :=
  data_op op \/ ((op = CLOSE \/ op = PING \/ op = PONG) /\ fin = true /\ n <= 125).

Class FragmentLaws (I : Type) {H : Impl I} := {
  isOpen : I -> bool;
  ready : I -> Prop;
  partial : Z -> list Z -> I -> I -> Prop;
  same_end : I -> I -> Prop;
  deflates : bool;
  not_compressed i : ready i -> deflates = false -> setCompressed i = Ok (false, i);
  same_end_refl i : same_end i i;
  same_end_open i1 i2 : same_end i1 i2 -> isOpen i1 = isOpen i2;
  forceClose_ok i : ready i -> exists i', forceClose i = Ok (tt, i') /\ isOpen i' = false;
  refuse_bound n i : ready i -> refusePayloadLength n i = false -> n < 2 ^ 32;
  partial_nil op i : ready i -> isOpen i = true -> partial op [] i i;
  partial_more op d i i1 d2 r fin :
    partial op d i i1 -> 0 < r -> Forall is_byte d2 -> fragment_ok op fin (lengthZ d + lengthZ d2 + r) ->
    exists i2, handleFragment d2 r op fin i1 = Ok (false, i2) /\ partial op (d ++ d2) i i2;
  partial_end op d i i1 d2 fin :
    partial op d i i1 -> Forall is_byte d -> Forall is_byte d2 -> fragment_ok op fin (lengthZ d + lengthZ d2) ->
    fragment_agrees same_end (handleFragment d2 0 op fin i1) (handleFragment (d ++ d2) 0 op fin i);
  partial_open op d i i1 : partial op d i i1 -> isOpen i1 = true /\ ready i;
  whole_end d op fin i gone i' :
    ready i -> Forall is_byte d -> fragment_ok op fin (lengthZ d) ->
    handleFragment d 0 op fin i = Ok (gone, i') -> isOpen i' = negb gone /\ (gone = false -> ready i')
}.

(** ** The encoding of a head *)

Lemma length7_range f : frame_ok f -> 0 <= length7 f < 128.
Proof.
  intros Hf. pose proof (ok_length f Hf) as Hlen. unfold length7, f_length, form_limit in *.
  pose proof (lengthZ_nonneg (f_payload f)). destruct (f_form f); lia.
Qed.

Lemma header_length_spec isServer f : frame_ok f -> lengthZ (header isServer f) = header_length isServer (f_form f).
Proof.
  intros Hf. unfold header, length_bytes. rewrite !lengthZ_cons, lengthZ_app.
  destruct isServer; rewrite ?(ok_mask f Hf); destruct (f_form f); rewrite ?be_split_length; done.
Qed.

Lemma wire_payload_length isServer f : lengthZ (wire_payload isServer f) = f_length f.
Proof. destruct isServer; [apply masked_length|done]. Qed.

Lemma encode_frame_length isServer f : frame_ok f ->
  lengthZ (encode_frame isServer f) = header_length isServer (f_form f) + f_length f.
Proof. intros. unfold encode_frame. by rewrite lengthZ_app, header_length_spec, wire_payload_length. Qed.

Lemma encode_frames_cons isServer f fs :
  encode_frames isServer (f :: fs) = header isServer f ++ wire_payload isServer f ++ encode_frames isServer fs.
Proof. unfold encode_frames, encode_frame. simpl concat. by rewrite <- app_assoc. Qed.

Lemma header_length_bounds isServer fm :
  SHORT_MESSAGE_HEADER isServer <= header_length isServer fm <= LONG_MESSAGE_HEADER isServer.
Proof. by destruct isServer, fm. Qed.

Lemma byte0_byte f : frame_ok f -> is_byte (byte0 f).
Proof. intros Hf. pose proof (ok_rsv f Hf). pose proof (ok_op f Hf). unfold is_byte, byte0. destruct (f_fin f); lia. Qed.

Lemma byte1_byte f : frame_ok f -> is_byte (byte1 f).
Proof. intros Hf. pose proof (length7_range f Hf). unfold is_byte, byte1. destruct (f_mask_bit f); lia. Qed.

Lemma wire_payload_bytes isServer f : frame_ok f -> Forall is_byte (wire_payload isServer f).
Proof. intros []. destruct isServer; simpl; [by apply masked_bytes|done]. Qed.

Lemma encode_frame_bytes isServer f : frame_ok f -> Forall is_byte (encode_frame isServer f).
Proof.
  intros Hf. unfold encode_frame, header. apply Forall_app. split; [|by apply wire_payload_bytes].
  apply Forall_cons. split; [by apply byte0_byte|]. apply Forall_cons. split; [by apply byte1_byte|]. apply Forall_app. split.
  - unfold length_bytes. destruct (f_form f); [constructor|apply be_split_bytes..].
  - destruct isServer; [by destruct Hf|constructor].
Qed.

(** What the code reads in the first two bytes. *)
Section Head.
Context (f : frame) (Hf : frame_ok f).

Lemma head_split : byte0 f / 128 = (if f_fin f then 1 else 0) /\ byte0 f / 16 mod 8 = f_rsv f /\ byte0 f mod 16 = f_op f.
Proof using Hf.
  destruct Hf as [Hr Ho _ _ _ _]. unfold byte0. destruct (f_fin f); Z.to_euclidean_division_equations; lia.
Qed.

Lemma head_fin : bits_set (byte0 f) 128 = f_fin f.
Proof using Hf.
  rewrite (byte_test (byte0 f) (fun b => bits_set b 128) (fun b => b / 128 =? 1)); [|done|by apply byte0_byte].
  destruct head_split as [-> _]. by destruct (f_fin f).
Qed.

Lemma head_op : Z.land (byte0 f) 15 = f_op f.
Proof using Hf. rewrite (land_low _ 4) by lia. by destruct head_split as (_ & _ & E). Qed.

Lemma head_rsv1 : bits_set (byte0 f) 64 = bits_set (f_rsv f) 4.
Proof using Hf.
  rewrite (byte_test (byte0 f) (fun b => bits_set b 64) (fun b => bits_set (b / 16 mod 8) 4)); [|done|by apply byte0_byte].
  by destruct head_split as (_ & -> & _).
Qed.

Lemma head_rsv23 : bits_set (byte0 f) 48 = bits_set (f_rsv f) 3.
Proof using Hf.
  rewrite (byte_test (byte0 f) (fun b => bits_set b 48) (fun b => bits_set (b / 16 mod 8) 3)); [|done|by apply byte0_byte].
  by destruct head_split as (_ & -> & _).
Qed.

Lemma head_length7 : Z.land (byte1 f) 127 = length7 f.
Proof using Hf.
  rewrite (land_low _ 7) by lia. pose proof (length7_range f Hf). unfold byte1.
  destruct (f_mask_bit f); Z.to_euclidean_division_equations; lia.
Qed.

End Head.

(** ** Every stream is one of frames

    Any bytes are the beginning of the encoding of some frames. *)

Definition form_of_byte (b : Z) : length_form :=
  if b mod 128 <? 126 then Short else if b mod 128 =? 126 then Medium else Long.

Definition form_bytes (fm : length_form) : Z := match fm with Short => 0 | Medium => 2 | Long => 8 end.

(** The length field of a frame whose second byte is [b]. *)
Lemma some_length b lb : is_byte b -> Forall is_byte lb -> lengthZ lb = form_bytes (form_of_byte b) ->
  exists n, 0 <= n < form_limit (form_of_byte b) /\
    (match form_of_byte b with Short => n | Medium => 126 | Long => 127 end) = b mod 128 /\
    (match form_of_byte b with Short => [] | Medium => be_split 2 n | Long => be_split 8 n end) = lb.
Proof.
  intros Hb Hlb Hlen. unfold is_byte in Hb. pose proof (Z.mod_pos_bound b 128 ltac:(lia)).
  pose proof (be_combine_range lb Hlb) as Hr. rewrite Hlen in Hr. pose proof (be_split_combine lb Hlb) as Es. unfold lengthZ in Hlen.
  revert Hlen Hr. unfold form_of_byte.
  destruct (Z.ltb_spec (b mod 128) 126); [|destruct (Z.eqb_spec (b mod 128) 126)]; cbn [form_bytes form_limit]; intros Hlen Hr.
  - exists (b mod 128). split; [lia|]. split; [done|]. by destruct lb.
  - exists (be_combine lb). split; [done|]. split; [done|]. by replace 2%nat with (length lb) by lia.
  - exists (be_combine lb). split; [done|]. split; [lia|]. by replace 8%nat with (length lb) by lia.
Qed.

Lemma some_frame isServer l : Forall is_byte l -> LONG_MESSAGE_HEADER isServer <= lengthZ l ->
  exists f rest z, frame_ok f /\ l ++ replicate z 0 = encode_frame isServer f ++ rest.
Proof.
  intros Hl Hlen. assert (10 <= LONG_MESSAGE_HEADER isServer) by (by destruct isServer).
  destruct l as [|b0 [|b1 t]]; [unfold lengthZ in Hlen; simpl in Hlen; lia..|]. rewrite !lengthZ_cons in Hlen.
  apply Forall_cons in Hl as [Hb0 [Hb1 Ht]%Forall_cons]. set (fm := form_of_byte b1).
  assert (form_bytes fm <= 8) by (by destruct fm). assert (0 <= form_bytes fm) by (by destruct fm).
  destruct (cut_at t (form_bytes fm)) as (lb & t1 & -> & Hlb); [lia|]. apply Forall_app in Ht as [Hlbb Ht].
  rewrite lengthZ_app in Hlen. destruct (some_length b1 lb Hb1 Hlbb Hlb) as (n & Hn & E7 & Elb). fold fm in Hn, E7, Elb.
  assert (exists m t2, t1 = (if isServer then m else []) ++ t2 /\ lengthZ m = 4 /\ Forall is_byte m /\ Forall is_byte t2) as (m & t2 & -> & Hm & Hmb & Ht2).
  { destruct isServer; [|exists [0; 0; 0; 0], t1; split_and!; try done; repeat constructor; done].
    change (LONG_MESSAGE_HEADER true) with 14 in Hlen. destruct (cut_at t1 4) as (m & t2 & -> & Hm); [lia|].
    apply Forall_app in Ht as [??]. by exists m, t2. }
  set (z := Z.to_nat n). destruct (cut_at (t2 ++ replicate z 0) n) as (p & rest & Ep & Hp).
  { rewrite lengthZ_app. unfold lengthZ. rewrite length_replicate. lia. }
  assert (Forall is_byte p) as Hpb.
  { apply (Forall_app is_byte p rest). rewrite <- Ep. apply Forall_app. split; [done|]. apply Forall_replicate. by unfold is_byte. }
  set (d := if isServer then masked m 0 p else p).
  set (f := mkFrame (128 <=? b0) (b0 / 16 mod 8) (b0 mod 16) fm (128 <=? b1) m d).
  assert (f_length f = n) as Efl by (unfold f_length; cbn; unfold d; destruct isServer; rewrite ?masked_length; done).
  unfold is_byte in Hb0, Hb1.
  exists f, rest, z. split.
  - constructor; [apply Z.mod_pos_bound; lia|apply Z.mod_pos_bound; lia|exact Hm|exact Hmb| |rewrite Efl; apply Hn].
    change (Forall is_byte d).
    unfold d. destruct isServer; [by apply masked_bytes|done].
  - unfold encode_frame, header. assert (wire_payload isServer f = p) as -> by (unfold wire_payload; cbn; unfold d; destruct isServer; [apply masked_masked|done]).
    assert (byte0 f = b0) as -> by (unfold byte0; cbn; destruct (Z.leb_spec 128 b0); Z.to_euclidean_division_equations; lia).
    assert (byte1 f = b1) as -> by (unfold byte1, length7; rewrite Efl; cbn; rewrite E7; destruct (Z.leb_spec 128 b1); Z.to_euclidean_division_equations; lia).
    assert (length_bytes f = lb) as -> by (unfold length_bytes; rewrite Efl; exact Elb).
    cbn [app f_mask f]. rewrite <- !app_assoc, Ep. done.
Qed.

(** The part of the stream that is not there yet is taken for zeros. *)
Lemma some_frames isServer l : Forall is_byte l ->
  exists fs rest, Forall frame_ok fs /\ l ++ rest = encode_frames isServer fs.
Proof.
  remember (length l) as k eqn:Ek. revert l Ek. induction (lt_wf k) as [k _ IH]. intros l -> Hl.
  destruct l as [|b l0]; [by exists [], []|]. set (l := b :: l0) in *.
  destruct (some_frame isServer (l ++ replicate 14 0)) as (f & rest & z & Hf & E).
  - apply Forall_app. split; [done|]. apply Forall_replicate. by unfold is_byte.
  - rewrite lengthZ_app. pose proof (lengthZ_nonneg l). change (lengthZ (replicate 14 0)) with 14. destruct isServer; cbn; lia.
  - rewrite <- app_assoc in E. destruct (Z.le_gt_cases (lengthZ l) (lengthZ (encode_frame isServer f))) as [Hle|Hgt].
    + symmetry in E. destruct (cut_long _ _ _ _ E Hle) as (p & Ep & _). exists [f], p. split; [by constructor|].
      unfold encode_frames. cbn. by rewrite app_nil_r.
    + destruct (cut_long _ _ _ _ E) as (p & Ep & _); [lia|]. rewrite Ep in Hl. apply Forall_app in Hl as [_ Hp].
      pose proof (encode_frame_length isServer f Hf) as Hlen. pose proof (header_length_bounds isServer (f_form f)) as [Hmin _].
      pose proof (lengthZ_nonneg (f_payload f)) as Hpos. unfold f_length in Hlen.
      assert (0 < SHORT_MESSAGE_HEADER isServer) by (by destruct isServer).
      destruct (IH (length p) ltac:(apply (f_equal length) in Ep; rewrite length_app in Ep; unfold lengthZ in *; lia) p eq_refl Hp)
        as (fs & rest' & Hfs & E').
      exists (f :: fs), rest'. split; [by constructor|]. rewrite Ep, <- app_assoc, E'. done.
Qed.
