(* ===== verification/WebSocketProtocolSpec.v ===== *)
(** * The parser of a byte stream receives its frames

    [consume] of src/libuws/include/WebSocketProtocol.h, called on the pieces in
    which the bytes of a connection arrive, against [receive], which gets whole
    frames.  The proof uses of the object only the laws of [FragmentLaws]. *)

From S2P Require Import Prelude Memory Buffer Utf8 WebSocketProtocol Masking WebSocketFrames.

(** ** Bytes at a place of a block *)

Definition here (l : list Z) (a : Z) (bs : list Z) : Prop :=
  in_block l a (lengthZ bs) = true /\ slice l a (lengthZ bs) = bs.

Lemma here_slice l a n : in_block l a n = true -> here l a (slice l a n).
Proof.
  intros H. apply in_block_spec in H as H'. unfold here. by rewrite slice_length by lia.
Qed.

Lemma here_app l a bs1 bs2 : here l a (bs1 ++ bs2) <-> here l a bs1 /\ here l (a + lengthZ bs1) bs2.
Proof.
  unfold here. rewrite lengthZ_app, !in_block_spec. pose proof (lengthZ_nonneg bs1). pose proof (lengthZ_nonneg bs2).
  split.
  - intros [Hin E]. rewrite slice_app in E by lia.
    apply app_inj_1 in E as [E1 E2]; [split_and!; done || lia|].
    apply Nat2Z.inj. fold (lengthZ (slice l a (lengthZ bs1))). rewrite slice_length; [done|lia..].
  - intros [[H1 E1] [H2 E2]]. rewrite slice_app, E1, E2 by lia. split; [lia|done].
Qed.

Lemma here_load l a b t : here l a (b :: t) -> load a l = Ok (b, l).
Proof.
  intros [Hin E]. rewrite lengthZ_cons in *. apply in_block_spec in Hin. pose proof (lengthZ_nonneg t).
  rewrite slice_S in E by lia. injection E as E _.
  unfold load, bind, get, require. simpl. by rewrite (proj2 (in_block_spec l a 1)), E by lia.
Qed.

Lemma here_load_bytes l a bs n : here l a bs -> n = lengthZ bs -> load_bytes a n l = Ok (bs, l).
Proof. intros [Hin E] ->. unfold load_bytes, bind, get, require. simpl. by rewrite Hin, E. Qed.

(** A masked copy: the bytes that were written, and the bytes behind them. *)
Lemma slice_masked_copy l dst src N m k n : in_block l dst N = true -> in_block l src N = true -> 0 <= n <= N ->
  slice (masked_copy l dst src N m k) dst n = masked m k (slice l src n).
Proof.
  intros Hd Hs Hn. apply in_block_spec in Hs as Hs', Hd as Hd'. unfold masked_copy.
  pose proof (masked_slice_length m l src N k Hs) as HN.
  assert (slice (splice l dst (masked m k (slice l src N))) dst N = masked m k (slice l src N)) as E.
  { rewrite <- HN at 2. apply splice_same. by rewrite HN. }
  replace N with (n + (N - n)) in E at 2 3 by lia.
  rewrite !slice_app, masked_app in E by lia. apply app_inj_1 in E as [E _]; [done|].
  apply Nat2Z.inj. change (lengthZ (slice (splice l dst (masked m k (slice l src N))) dst n) = lengthZ (masked m k (slice l src n))).
  rewrite masked_length, !slice_length; try lia. rewrite splice_length; rewrite ?HN; [lia|done].
Qed.

Lemma slice_masked_copy_after l dst src N m k a n : in_block l dst N = true -> in_block l src N = true ->
  dst + N <= a -> slice (masked_copy l dst src N m k) a n = slice l a n.
Proof.
  intros Hd Hs Ha. apply splice_after; rewrite masked_slice_length by done; [done|lia].
Qed.

Lemma slice_masked_copy_before l dst src N m k a n : in_block l dst N = true -> in_block l src N = true ->
  0 <= a -> 0 <= n -> a + n <= dst -> slice (masked_copy l dst src N m k) a n = slice l a n.
Proof.
  intros Hd Hs ???. apply splice_before; rewrite ?masked_slice_length by done; [done|lia..].
Qed.

Lemma masked_copy_bytes l dst src N m k : Forall is_byte l -> Forall is_byte m ->
  Forall is_byte (masked_copy l dst src N m k).
Proof. intros. apply splice_bytes; [done|]. apply masked_bytes; [done|]. by apply slice_bytes. Qed.

(** ** Rules for the accesses of the parser *)

Section Rules.
Context {I : Type} {H : Impl I} (b : bad).

Lemma wp_read {A} (m : M (list Z) A) a (Q : A -> Receiver I -> Prop) R :
  m (block R) = Ok (a, block R) -> Q a R -> wp b (on_block m) Q R.
Proof. intros E HQ. unfold wp, on_block, lift. rewrite E. by destruct R. Qed.

Lemma wp_write {A} (m : M (list Z) A) (Q : A -> Receiver I -> Prop) R :
  wp b m (fun a l => Q a (set_block l R)) (block R) -> wp b (on_block m) Q R.
Proof. apply wp_lift. Qed.

Lemma wp_update f (Q : unit -> Receiver I -> Prop) R :
  Q tt (set_wState (f (wState R)) R) -> wp b (update f) Q R.
Proof. done. Qed.

Lemma wp_on_impl {A} (m : M I A) a i (Q : A -> Receiver I -> Prop) R :
  m (impl R) = Ok (a, i) -> Q a (set_impl i R) -> wp b (on_impl m) Q R.
Proof. intros E HQ. unfold wp, on_impl, lift. by rewrite E. Qed.

End Rules.

(** The bytes of a head that the parser looks at. *)
Section ReadHead.
Context (f : frame) (Hf : frame_ok f) (l : list Z) (src : Z) (t : list Z) (Hhere : here l src (byte0 f :: byte1 f :: t)).

Lemma load_byte0 : load src l = Ok (byte0 f, l).
Proof using Hhere. by eapply here_load. Qed.

Lemma load_byte1 : load (src + 1) l = Ok (byte1 f, l).
Proof using Hhere.
  change (byte0 f :: byte1 f :: t) with ([byte0 f] ++ byte1 f :: t) in Hhere.
  apply here_app in Hhere as [_ E]. by eapply here_load.
Qed.

Lemma isFin_head : isFin src l = Ok (f_fin f, l).
Proof using Hf Hhere. unfold isFin, bind. rewrite load_byte0. unfold ret. by rewrite head_fin. Qed.

Lemma getOpCode_head : getOpCode src l = Ok (f_op f, l).
Proof using Hf Hhere. unfold getOpCode, bind. rewrite load_byte0. unfold ret. by rewrite head_op. Qed.

Lemma rsv1_head : rsv1 src l = Ok (bits_set (f_rsv f) 4, l).
Proof using Hf Hhere. unfold rsv1, bind. rewrite load_byte0. unfold ret. by rewrite head_rsv1. Qed.

Lemma rsv23_head : rsv23 src l = Ok (bits_set (f_rsv f) 3, l).
Proof using Hf Hhere. unfold rsv23, bind. rewrite load_byte0. unfold ret. by rewrite head_rsv23. Qed.

Lemma payloadLength_head : payloadLength src l = Ok (length7 f, l).
Proof using Hf Hhere. unfold payloadLength, bind. rewrite load_byte1. unfold ret. by rewrite head_length7. Qed.

End ReadHead.

(** ** The state of the parser and of the receiver *)

Section Parser.
Context (isServer : bool) {I : Type} {H : Impl I} {L : FragmentLaws I}.
Implicit Types (R : Receiver I) (r : rx I) (f : frame).

(** The array [opCode] up to [opStack] holds the opcodes that have begun. *)
Record in_sync (ws : WebSocketState) r : Prop := {
  sync_ops : take (length (rx_ops r)) (opCode ws) = Some <$> rx_ops r;
  sync_two : length (opCode ws) = 2%nat;
  sync_opStack : opStack ws = lengthZ (rx_ops r) - 1;
  sync_lastFin : lastFin ws = rx_fin r;
  sync_spill : lengthZ (spill ws) = LONG_MESSAGE_HEADER isServer - 1;
  sync_mask : isServer = true -> lengthZ (mask ws) = 4 /\ Forall is_byte (mask ws)
}.

Lemma sync_most ws r : in_sync ws r -> lengthZ (rx_ops r) <= 2.
Proof using.
  intros S. pose proof (sync_ops _ _ S) as E%(f_equal length).
  rewrite length_take, length_fmap, (sync_two _ _ S) in E. unfold lengthZ. lia.
Qed.

(** In the proofs below the parts of the state that a step leaves alone. *)
Definition same_but_ops (ws ws' : WebSocketState) : Prop :=
  wantsHead ws' = wantsHead ws /\ spillLength ws' = spillLength ws /\ spill ws' = spill ws /\ mask ws' = mask ws.

Lemma sync_app ws r i : in_sync ws r -> in_sync ws (mkRx (rx_ops r) (rx_fin r) i).
Proof using. intros []. by constructor. Qed.

Lemma sync_push ws r op fin : in_sync ws r -> lengthZ (rx_ops r) < 2 ->
  in_sync (set_lastFin fin (set_opCode (<[Z.to_nat (opStack ws + 1) := Some op]> (opCode ws)) (set_opStack (opStack ws + 1) ws)))
    (mkRx (rx_ops r ++ [op]) fin (rx_app r)).
Proof using.
  intros S Hlt. destruct S as [E1 E2 E3 E4 E5 E6]. unfold lengthZ in *. rewrite E3.
  replace (Z.of_nat (length (rx_ops r)) - 1 + 1) with (Z.of_nat (length (rx_ops r))) by lia. rewrite Nat2Z.id.
  assert (length (take (length (rx_ops r)) (opCode ws)) = length (rx_ops r)) as Elen by (rewrite length_take; lia).
  constructor; simpl; try done.
  - rewrite length_app, fmap_app, <- E1. simpl. rewrite Nat.add_1_r.
    rewrite (take_S_r _ _ (Some op)) by (rewrite list_lookup_insert_eq; [done|lia]).
    by rewrite take_insert_ge by lia.
  - by rewrite length_insert.
  - unfold lengthZ. rewrite length_app. simpl length. rewrite swrap_small; unfold in_signed; simpl; lia.
Qed.

Lemma sync_pop ws r : in_sync ws r -> rx_ops r <> [] ->
  in_sync (set_opStack (opStack ws - 1) ws) (mkRx (removelast (rx_ops r)) (rx_fin r) (rx_app r)).
Proof using.
  intros S Hne. pose proof (sync_most _ _ S) as Hmost. destruct S as [E1 E2 E3 E4 E5 E6].
  destruct (exists_last Hne) as (ops & op & Eops). rewrite Eops in *. rewrite removelast_last.
  unfold lengthZ in *. rewrite length_app in *. simpl length in *.
  constructor; simpl; try done.
  - apply (f_equal (take (length ops))) in E1. rewrite take_take, fmap_app, take_app_length' in E1 by (by rewrite length_fmap).
    by rewrite Nat.min_l in E1 by lia.
  - unfold lengthZ. rewrite E3, swrap_small; unfold in_signed; simpl; lia.
Qed.

Lemma wp_top_opCode b r R (Q : Z -> Receiver I -> Prop) :
  in_sync (wState R) r -> rx_ops r <> [] -> Q (List.last (rx_ops r) 0) R -> wp b top_opCode Q R.
Proof using.
  intros S Hne HQ. unfold top_opCode. wp_step. apply wp_get.
  destruct S as [E1 E2 E3 _ _ _]. destruct (exists_last Hne) as (ops & op & Eops). rewrite Eops in *.
  rewrite last_last in HQ. unfold lengthZ in E3. rewrite length_app in *. simpl length in *.
  rewrite E3, (proj2 (Z.leb_le 0 _)) by lia.
  replace (Z.to_nat _) with (length ops) by lia.
  assert (opCode (wState R) !! length ops = Some (Some op)) as ->; [|by apply wp_ret].
  rewrite <- (lookup_take_lt _ (length ops + 1)), E1, fmap_app by lia.
  rewrite lookup_app_r by (by rewrite length_fmap). by rewrite length_fmap, Nat.sub_diag.
Qed.

(** ** Heads *)

(** A frame may be marked as compressed only where no compression was negotiated,
    and then it is refused. *)
Definition plain f : Prop := frame_ok f /\ (deflates = true -> bits_set (f_rsv f) 4 = false).

Lemma invalid_head_spec b f R src t (Q : bool -> Receiver I -> Prop) :
  plain f -> ready (impl R) -> here (block R) src (byte0 f :: byte1 f :: t) ->
  Q (invalid_frame f) R -> wp b (invalid_head src) Q R.
Proof using.
  intros [Hf Hplain] Hready Hhere HQ. unfold invalid_head. unfold invalid_frame in HQ.
  wp_step. eapply wp_read; [by eapply rsv1_head|]. destruct (bits_set (f_rsv f) 4) eqn:E4.
  - assert (deflates = false) as Hd by (destruct deflates; [by specialize (Hplain eq_refl)|done]).
    wp_step. wp_step. eapply wp_on_impl; [by apply not_compressed|]. apply wp_ret. cbn [negb]. apply wp_ret. by destruct R.
  - wp_step. apply wp_ret. wp_step. eapply wp_read; [by eapply rsv23_head|]. wp_step. eapply wp_read; [by eapply getOpCode_head|].
    wp_step. eapply wp_read; [by eapply isFin_head|]. wp_step. eapply wp_read; [by eapply payloadLength_head|].
    by apply wp_ret.
Qed.

(** The receiver once the head of a frame is accepted. *)
Definition begun f r : rx I := mkRx (if f_op f =? 0 then rx_ops r else rx_ops r ++ [f_op f]) (f_fin f) (rx_app r).

Lemma accept_invalid f r i' : invalid_frame f || misplaced f r = true -> forceClose (rx_app r) = Ok (tt, i') ->
  accept f r = Ok (true, mkRx (rx_ops r) (rx_fin r) i').
Proof using. intros E1 E2. unfold accept, bind, get, id, on_app, lift. by rewrite E1, E2. Qed.

Lemma accept_begun f r : invalid_frame f || misplaced f r = false ->
  accept f r = (if refusePayloadLength (f_length f) (rx_app r) then on_app forceClose ;; ret true else ret false) (begun f r).
Proof using. intros E1. unfold accept, bind, get, id, modify. by rewrite E1. Qed.

Lemma begin_frame_spec f R r src t :
  frame_ok f -> invalid_frame f = false -> here (block R) src (byte0 f :: byte1 f :: t) ->
  in_sync (wState R) r -> impl R = rx_app r -> ready (rx_app r) ->
  wp nothing (begin_frame (f_length f) src) (fun refused R' => block R' = block R /\
    exists r', accept f r = Ok (refused, r') /\ impl R' = rx_app r' /\
      if refused : bool then isOpen (impl R') = false
      else misplaced f r = false /\ in_sync (wState R') r' /\ same_but_ops (wState R) (wState R') /\
        r' = begun f r /\
        refusePayloadLength (f_length f) (rx_app r) = false) R.
Proof using.
  intros Hf Hvalid Hhere S Himpl Hready. destruct (forceClose_ok _ Hready) as (i' & Hclose & Hopen).
  unfold begin_frame.
  assert (wp nothing (on_impl forceClose) (fun _ R' => block R' = block R /\ impl R' = i') R) as Hforce.
  { eapply wp_on_impl; [by rewrite Himpl|done]. }
  wp_step. eapply wp_read; [by eapply getOpCode_head|]. wp_step. apply wp_get.
  pose proof (sync_most _ _ S) as Hmost. pose proof (sync_opStack _ _ S) as Hstack.
  wp_step. apply wp_mono with (fun refused R' => block R' = block R /\ refused = misplaced f r /\
    if refused then impl R' = i'
    else impl R' = impl R /\ in_sync (set_lastFin (f_fin f) (wState R')) (begun f r) /\
         same_but_ops (wState R) (wState R')).
  - unfold misplaced, begun. destruct (Z.eqb_spec (f_op f) 0) as [E0|Hne]; cbn [negb].
    + rewrite Hstack. destruct (Z.eqb_spec (lengthZ (rx_ops r) - 1) (-1)) as [Eq|Hn].
      * wp_step. eapply wp_mono; [apply Hforce|]. intros _ R' [EB EI]. apply wp_ret.
        rewrite bool_decide_eq_true_2 by (apply lengthZ_0; lia). done.
      * apply wp_ret. rewrite bool_decide_eq_false_2 by (intros E; apply Hn; by rewrite E).
        split_and!; try done. destruct S. by constructor.
    + rewrite Hstack, (sync_lastFin _ _ S).
      replace (lengthZ (rx_ops r) - 1 =? 1) with (lengthZ (rx_ops r) =? 2) by lia.
      destruct ((lengthZ (rx_ops r) =? 2) || (negb (rx_fin r) && (f_op f <? 2))) eqn:Ebad.
      * wp_step. eapply wp_mono; [apply Hforce|]. intros _ R' [EB EI]. by apply wp_ret.
      * assert (lengthZ (rx_ops r) < 2) by lia. pose proof (sync_push _ _ (f_op f) (f_fin f) S ltac:(done)) as S'.
        assert (swrap 2 (opStack (wState R) + 1) = opStack (wState R) + 1) as Ew.
        { pose proof (lengthZ_nonneg (rx_ops r)). apply swrap_small; [done|]. unfold in_signed. simpl. lia. }
        wp_step. apply wp_update. wp_step. apply wp_get. wp_step.
        apply wp_require; cbn; rewrite Ew; [intros _|pose proof (lengthZ_nonneg (rx_ops r)); lia].
        split_and!; done.
  - intros refused R' (EB & Eref & Hrest). destruct refused.
    + apply wp_ret. split; [done|]. exists (mkRx (rx_ops r) (rx_fin r) i'). rewrite Hrest.
      split; [|done]. apply accept_invalid; [|done]. by rewrite Hvalid, <- Eref.
    + destruct Hrest as (EI & S' & Hsame). wp_step. eapply wp_read; [rewrite EB; by eapply isFin_head|].
      rewrite accept_begun by (by rewrite Hvalid, <- Eref).
      wp_step. apply wp_update. wp_step. apply wp_get. cbn [impl set_wState]. rewrite EI, Himpl.
      destruct (refusePayloadLength (f_length f) (rx_app r)) eqn:Erefuse.
      * wp_step. eapply wp_on_impl; [cbn [impl set_wState]; by rewrite EI, Himpl|]. apply wp_ret. split; [done|].
        exists (mkRx (rx_ops (begun f r)) (f_fin f) i'). split; [|done].
        unfold bind, on_app, lift. cbn [rx_app begun]. by rewrite Hclose.
      * apply wp_ret. split; [done|]. exists (begun f r). split; [done|].
        split; [cbn [impl set_wState]; by rewrite EI|]. split_and!; done.
Qed.

(** ** Complete frames *)

Definition ended f (i : I) r : rx I := mkRx (if f_fin f then removelast (rx_ops r) else rx_ops r) (rx_fin r) i.

Lemma deliver_ok f r gone i' : handleFragment (f_payload f) 0 (List.last (rx_ops r) 0) (f_fin f) (rx_app r) = Ok (gone, i') ->
  deliver f r = Ok (gone, if gone : bool then mkRx (rx_ops r) (rx_fin r) i' else ended f i' r).
Proof using.
  intros E. unfold deliver, bind, get, id, on_app, lift, ended. rewrite E. simpl. destruct gone; [done|]. by destruct (f_fin f).
Qed.

(** What the checks of a head make sure of. *)
Lemma begun_ok f r : frame_ok f -> invalid_frame f = false -> misplaced f r = false -> Forall data_op (rx_ops r) ->
  rx_ops (begun f r) <> [] /\ fragment_ok (List.last (rx_ops (begun f r)) 0) (f_fin f) (f_length f) /\
  Forall data_op (if f_fin f then removelast (rx_ops (begun f r)) else rx_ops (begun f r)).
Proof using.
  intros Hf Hv Hm Hops. unfold begun, misplaced, invalid_frame in *. cbn [rx_ops].
  destruct (Z.eqb_spec (f_op f) 0) as [E0|Hne].
  - apply bool_decide_eq_false in Hm. destruct (exists_last Hm) as (ops & op & E). rewrite E in *.
    apply Forall_app in Hops as [Hops Hop]. rewrite last_last, removelast_last.
    split_and!; [by destruct ops|left; by inversion Hop|].
    destruct (f_fin f); [done|]. by apply Forall_app.
  - rewrite last_last, removelast_last. pose proof (ok_op f Hf). split_and!; [by destruct (rx_ops r)|..].
    + unfold fragment_ok, data_op, TEXT, BINARY, CLOSE, PING, PONG.
      destruct (Z.ltb_spec 2 (f_op f)); [right|left; lia]. unfold length7 in Hv.
      destruct (f_fin f); [|cbn in Hv; lia]. destruct (f_form f); lia.
    + destruct (f_fin f); [done|]. apply Forall_app. split; [done|]. constructor; [|done].
      unfold data_op, TEXT, BINARY. cbn [negb orb] in Hv. lia.
Qed.

Lemma handleFragment_whole d op fin i : ready i -> isOpen i = true -> Forall is_byte d ->
  fragment_ok op fin (lengthZ d) -> exists gone i', handleFragment d 0 op fin i = Ok (gone, i') /\
    isOpen i' = negb gone /\ (gone = false -> ready i').
Proof using.
  intros Hr Ho Hd Hok. pose proof (partial_end op [] i i d fin (partial_nil op i Hr Ho)) as E. cbn [app] in E.
  rewrite lengthZ_nil, Z.add_0_l in E. specialize (E ltac:(constructor) Hd Hok). unfold fragment_agrees in E.
  destruct (handleFragment d 0 op fin i) as [[gone i']| | |] eqn:Eh; try done.
  exists gone, i'. split; [done|]. by apply (whole_end d op fin i).
Qed.

Lemma frame_positive f : 0 < header_length isServer (f_form f) /\ 0 <= f_length f.
Proof using. split; [by destruct isServer, (f_form f)|apply lengthZ_nonneg]. Qed.

(** The mask of a frame is in front of its payload. *)
Lemma here_parts f l src : isServer = true -> frame_ok f -> here l src (header isServer f) ->
  here l (src + header_length isServer (f_form f) - 4) (f_mask f).
Proof using.
  intros Eserver Hf Hh. pose proof (header_length_spec isServer f Hf) as Hlen. unfold header in *. rewrite Eserver in *.
  rewrite !app_comm_cons in *. apply here_app in Hh as [_ Hh]. rewrite lengthZ_app, (ok_mask f Hf) in Hlen.
  by replace (src + header_length true (f_form f) - 4) with (src + lengthZ (byte0 f :: byte1 f :: length_bytes f)) by lia.
Qed.

Lemma unmask_whole f R src (h := header_length isServer (f_form f)) : frame_ok f -> Forall is_byte (block R) ->
  here (block R) src (encode_frame isServer f) -> src + h + f_length f + 4 <= lengthZ (block R) ->
  wp nothing (if isServer then on_block (unmaskImpreciseCopyMask (src + h - 4) (src + h) (src + h - 4) (f_length f)) else ret tt)
    (fun _ R' => exists l', R' = set_block l' R /\ lengthZ l' = lengthZ (block R) /\ Forall is_byte l' /\
       here l' src [byte0 f; byte1 f] /\ here l' (src + (if isServer then h - 4 else h)) (f_payload f) /\
       forall a n, src + h + f_length f <= a -> slice l' a n = slice (block R) a n) R.
Proof using.
  intros Hf Hbytes Hhere Hpad. unfold encode_frame in Hhere. apply here_app in Hhere as [Hh Hp].
  rewrite header_length_spec in Hp by done. fold h in Hp.
  assert (here (block R) src [byte0 f; byte1 f]) as Hhead.
  { unfold header in Hh. rewrite app_comm_cons, app_comm_cons in Hh.
    change (byte0 f :: byte1 f :: length_bytes f) with ([byte0 f; byte1 f] ++ length_bytes f) in Hh.
    rewrite <- app_assoc in Hh. by apply here_app in Hh as [Hh _]. }
  destruct isServer eqn:Eserver.
  - pose proof (here_parts f _ _ Eserver Hf ltac:(by rewrite Eserver)) as Hmask. rewrite Eserver in Hmask. fold h in Hmask.
    apply wp_write. unfold unmaskImpreciseCopyMask. wp_step.
    unfold wp at 1. rewrite (here_load_bytes _ _ _ 4 Hmask) by (by rewrite (ok_mask f Hf)).
    assert (0 <= f_length f) as Hn by apply lengthZ_nonneg. pose proof (imprecise_bounds _ Hn) as Himp.
    destruct Hhead as [Hin2 Ehead]. apply in_block_spec in Hin2. change (lengthZ [byte0 f; byte1 f]) with 2 in *.
    assert (6 <= h <= 14) as Hh6 by (pose proof (header_length_bounds true (f_form f)); subst h; simpl in *; lia).
    assert (in_block (block R) (src + h - 4) (imprecise (f_length f)) = true) as Hd by (apply in_block_spec; lia).
    assert (in_block (block R) (src + h) (imprecise (f_length f)) = true) as Hs by (apply in_block_spec; lia).
    apply wp_unmaskImprecise; [done|lia|done..|]. eexists. split; [done|].
    split_and!; [by apply masked_copy_length|apply masked_copy_bytes; [done|by apply Hf]|..].
    + split; [apply in_block_spec; rewrite masked_copy_length by done; change (lengthZ [byte0 f; byte1 f]) with 2; lia|].
      change (lengthZ [byte0 f; byte1 f]) with 2. by rewrite slice_masked_copy_before by (done || lia).
    + replace (src + (h - 4)) with (src + h - 4) by lia. fold (f_length f).
      split; [apply in_block_spec; rewrite masked_copy_length by done; fold (f_length f); lia|].
      fold (f_length f). rewrite slice_masked_copy by (done || lia). destruct Hp as [_ Ep].
      rewrite wire_payload_length in Ep. rewrite Ep. simpl. apply masked_masked.
    + intros a n Ha. apply slice_masked_copy_after; [done..|lia].
  - apply wp_ret. exists (block R). split_and!; try done; by destruct R.
Qed.

(** The receiver gets a frame that it has begun: [r] is the state behind its head. *)
Record frame_begun f r : Prop := {
  begun_frame : frame_ok f;
  begun_some : rx_ops r <> [];
  begun_fragment : fragment_ok (List.last (rx_ops r) 0) (f_fin f) (f_length f);
  begun_fin : rx_fin r = f_fin f;
  begun_data : Forall data_op (if f_fin f then removelast (rx_ops r) else rx_ops r);
  begun_ready : ready (rx_app r);
  begun_open : isOpen (rx_app r) = true;
  begun_short : f_length f < 2 ^ 32
}.

(** Where the parser is between two frames. *)
Record at_head r R : Prop := {
  head_sync : in_sync (wState R) r;
  head_wants : wantsHead (wState R) = true;
  head_impl : impl R = rx_app r;
  head_ready : ready (rx_app r);
  head_open : isOpen (rx_app r) = true;
  head_data : Forall data_op (rx_ops r);
  head_bytes : Forall is_byte (block R)
}.

(** The end of a frame: the stack of opcodes. *)
Lemma sync_ended f r ws i : in_sync ws r -> rx_ops r <> [] ->
  in_sync (if f_fin f then set_opStack (opStack ws - 1) ws else ws) (ended f i r).
Proof using.
  intros S Hne. unfold ended. destruct (f_fin f).
  - apply (sync_app _ _ i) in S. by apply (sync_pop ws (mkRx (rx_ops r) (rx_fin r) i)).
  - by apply sync_app.
Qed.

Lemma whole_frame_spec f r R src len (h := header_length isServer (f_form f)) :
  frame_begun f r -> in_sync (wState R) r -> wantsHead (wState R) = true -> impl R = rx_app r -> Forall is_byte (block R) ->
  here (block R) src (encode_frame isServer f) -> src + h + f_length f + 4 <= lengthZ (block R) ->
  h + f_length f <= len < 2 ^ 32 ->
  wp nothing (whole_frame isServer h (f_length f) src len) (fun o R' => lengthZ (block R') = lengthZ (block R) /\
    (forall a n, src + h + f_length f <= a -> slice (block R') a n = slice (block R) a n) /\
    exists r', match o with
    | None => deliver f r = Ok (true, r') /\ impl R' = rx_app r' /\ isOpen (impl R') = false
    | Some (src', len') => deliver f r = Ok (false, r') /\ at_head r' R' /\ spillLength (wState R') = 0 /\
        src' = src + (h + f_length f) /\ len' = len - (h + f_length f)
    end) R.
Proof using.
  intros B S Hwants Himpl Hbytes Hhere Hpad Hlen. unfold whole_frame.
  wp_step. eapply wp_mono; [by apply unmask_whole; [apply B|..]|].
  intros _ ? (l' & -> & Elen & Hbytes' & Hhead & Hdata & Hafter).
  wp_step. eapply wp_top_opCode; [exact S|apply B|].
  wp_step. eapply wp_read; [by eapply isFin_head; [apply B|]|].
  wp_step. eapply wp_read; [by eapply here_load_bytes|].
  assert (Forall is_byte (f_payload f)) as Hpay by apply B.
  destruct (handleFragment_whole (f_payload f) (List.last (rx_ops r) 0) (f_fin f) (rx_app r)) as (gone & i' & Eh & Hopen & Hready);
    [apply B..|done|apply B|].
  wp_step. eapply wp_on_impl; [cbn; rewrite Himpl; exact Eh|]. pose proof (deliver_ok f r gone i' Eh) as Ed.
  destruct gone.
  { apply wp_ret. split; [done|]. split; [done|]. eexists. split; [exact Ed|done]. }
  wp_step. eapply wp_read; [by eapply isFin_head; [apply B|]|].
  set (R1 := set_impl i' (set_block l' R)).
  wp_step. apply wp_mono with (fun _ R2 => R2 = set_wState (if f_fin f then set_opStack (opStack (wState R) - 1) (wState R) else wState R) R1).
  { destruct (f_fin f); [by apply wp_update|by apply wp_ret]. }
  intros _ ? ->. wp_step. apply wp_update. apply wp_ret. cbn. split; [done|]. split; [done|].
  exists (ended f i' r). split; [done|].
  pose proof (sync_ended f r (wState R) i' S (begun_some f r B)) as S'.
  split_and!; [|done|lia|rewrite uwrap_small; [lia|unfold in_unsigned; pose proof (frame_positive f); lia]].
  constructor; cbn; try done.
  - destruct S'. by constructor.
  - by destruct (f_fin f).
  - by apply Hready.
  - apply B.
Qed.

(** ** Frames of which a part is missing *)

(** How the rest [d'] of a payload [d ++ d'] is sent. *)
Definition wire_rest f (d d' : list Z) : list Z := if isServer then masked (f_mask f) (lengthZ d) d' else d'.

(** Where the parser is inside of a frame: [d] was handled, [d'] is to come. *)
Record inside f (d d' : list Z) r R : Prop := {
  in_begun : frame_begun f r;
  in_payload : f_payload f = d ++ d';
  in_rest : d' <> [];
  in_state : in_sync (wState R) r;
  in_wants : wantsHead (wState R) = false;
  in_spill : spillLength (wState R) = 0;
  in_remaining : remainingBytes (wState R) = lengthZ d';
  in_mask : isServer = true -> forall k x, masked (mask (wState R)) k x = masked (f_mask f) (lengthZ d + k) x;
  in_partial : partial (List.last (rx_ops r) 0) d (rx_app r) (impl R);
  in_bytes : Forall is_byte (block R)
}.

Lemma wire_payload_split f p q : wire_payload isServer f = p ++ q ->
  let d := if isServer then masked (f_mask f) 0 p else p in
  exists d', f_payload f = d ++ d' /\ wire_rest f d d' = q /\ lengthZ d = lengthZ p /\ lengthZ d' = lengthZ q.
Proof using.
  unfold wire_payload, wire_rest. destruct isServer; intros E.
  - apply (f_equal (masked (f_mask f) 0)) in E. rewrite masked_masked, masked_app, Z.add_0_l in E.
    exists (masked (f_mask f) (lengthZ p) q). rewrite !masked_length, masked_masked. done.
  - exists q. done.
Qed.

Lemma frame_begun_parts f r d d' : frame_begun f r -> f_payload f = d ++ d' ->
  Forall is_byte d /\ Forall is_byte d' /\ f_length f = lengthZ d + lengthZ d'.
Proof using.
  intros B E. pose proof (ok_payload f (begun_frame f r B)) as Hp. unfold f_length. rewrite E in *.
  apply Forall_app in Hp as [??]. by rewrite lengthZ_app.
Qed.

(** Handing the first bytes of a frame to the object. *)
Lemma handleFragment_part f r d d1 d2 i1 : frame_begun f r -> f_payload f = d ++ d1 ++ d2 -> d2 <> [] ->
  partial (List.last (rx_ops r) 0) d (rx_app r) i1 ->
  exists i2, handleFragment d1 (lengthZ d2) (List.last (rx_ops r) 0) (f_fin f) i1 = Ok (false, i2) /\
    partial (List.last (rx_ops r) 0) (d ++ d1) (rx_app r) i2.
Proof using.
  intros B E Hne Hp. destruct (frame_begun_parts f r _ _ B E) as (_ & Hb & Hlen).
  apply Forall_app in Hb as [Hb _]. rewrite lengthZ_app in Hlen.
  assert (0 < lengthZ d2) by (destruct d2; [done|]; rewrite lengthZ_cons; pose proof (lengthZ_nonneg d2); lia).
  apply partial_more; [done..|]. pose proof (begun_fragment f r B) as Hok.
  by rewrite Hlen, Z.add_assoc in Hok.
Qed.

Lemma partial_frame_spec f r R src p q (h := header_length isServer (f_form f)) :
  frame_begun f r -> in_sync (wState R) r -> impl R = rx_app r -> Forall is_byte (block R) ->
  wire_payload isServer f = p ++ q -> q <> [] -> here (block R) src (header isServer f ++ p) ->
  src + h + lengthZ p + 4 <= lengthZ (block R) ->
  wp nothing (partial_frame isServer h (f_length f) src (h + lengthZ p)) (fun o R' => o = None /\
    lengthZ (block R') = lengthZ (block R) /\ exists d d', inside f d d' r R' /\ wire_rest f d d' = q) R.
Proof using.
  intros B S Himpl Hbytes Ewire Hq Hhere Hpad.
  destruct (wire_payload_split f p q Ewire) as (d' & Epay & Erest & Ed & Ed'). revert Epay Erest Ed Ed'.
  set (d := if isServer then masked (f_mask f) 0 p else p). intros Epay Erest Ed Ed'.
  assert (d' <> []) as Hd' by (intros E; apply Hq, lengthZ_0; by rewrite <- Ed', E).
  apply here_app in Hhere as [Hh Hp]. rewrite header_length_spec in Hp by apply B. fold h in Hp.
  pose proof (lengthZ_nonneg p) as Hp0. pose proof (lengthZ_nonneg q) as Hq0. pose proof (begun_short f r B) as Hshort.
  assert (f_length f = lengthZ p + lengthZ q) as Elen by (rewrite <- (wire_payload_length isServer), Ewire; apply lengthZ_app).
  unfold partial_frame. do 3 (wp_step; apply wp_update).
  replace (u32 (h + lengthZ p - h)) with (lengthZ p) by (rewrite uwrap_small; [lia|unfold in_unsigned; lia]).
  replace (u32 (f_length f - (h + lengthZ p) + h)) with (lengthZ d') by (rewrite uwrap_small; [lia|unfold in_unsigned; lia]).
  assert (here (block R) src (byte0 f :: byte1 f :: (length_bytes f ++ (if isServer then f_mask f else [])))) as Hhead by exact Hh.
  wp_step. eapply wp_read; [by eapply isFin_head; [apply B|]|].
  set (ws1 := set_remainingBytes (lengthZ d') _). set (R1 := set_wState ws1 _).
  wp_step. apply wp_mono with (fun src' R2 => exists l' m', R2 = set_block l' (set_wState (set_mask m' ws1) R) /\
    lengthZ l' = lengthZ (block R) /\ Forall is_byte l' /\ here l' src' d /\
    (isServer = true -> lengthZ m' = 4 /\ Forall is_byte m' /\ forall k x, masked m' k x = masked (f_mask f) (lengthZ d + k) x)).
  - pose proof (ok_mask f (begun_frame f r B)) as Hm4. pose proof (ok_mask_bytes f (begun_frame f r B)) as Hmb.
    destruct isServer eqn:Eserver.
    + pose proof (here_parts f _ _ Eserver (begun_frame f r B) ltac:(by rewrite Eserver)) as Hmask. rewrite Eserver in Hmask. fold h in Hmask.
      assert (6 <= h <= 14) as Hh6 by (pose proof (header_length_bounds true (f_form f)); subst h; simpl in *; lia).
      wp_step. eapply wp_read; [eapply here_load_bytes; [exact Hmask|by rewrite Hm4]|].
      wp_step. apply wp_update. wp_step. apply wp_write. pose proof (imprecise_bounds _ Hp0) as Himp.
      destruct Hh as [Hin _]. apply in_block_spec in Hin.
      assert (in_block (block R) src (imprecise (lengthZ p)) = true) as Hd by (apply in_block_spec; lia).
      assert (in_block (block R) (src + h) (imprecise (lengthZ p)) = true) as Hs by (apply in_block_spec; lia).
      apply wp_unmaskImprecise; [done|lia|done..|]. wp_step. apply wp_update. apply wp_ret.
      exists (masked_copy (block R) src (src + h) (imprecise (lengthZ p)) (f_mask f) 0), (rotateMask (u32 (4 - lengthZ p mod 4)) (f_mask f)). split; [done|].
      split; [by apply masked_copy_length|]. split; [by apply masked_copy_bytes|]. split.
      * split; [apply in_block_spec; rewrite masked_copy_length by done; lia|]. rewrite Ed.
        rewrite slice_masked_copy by (done || lia). destruct Hp as [_ ->]. done.
      * intros _. split; [by apply rotateMask_length|]. split; [by apply rotateMask_bytes|].
        intros k x. rewrite masked_rotate by done. f_equal. lia.
    + apply wp_ret. exists (block R), (mask ws1). split_and!; done.
  - intros src' ? (l' & m' & -> & Elen' & Hbytes' & Hd & Hm'). wp_step. apply wp_get.
    assert (in_sync (set_mask m' ws1) r) as S'.
    { destruct S. constructor; try done. intros E. by destruct (Hm' E) as (? & ? & _). }
    wp_step. eapply wp_top_opCode; [exact S'|apply B|]. wp_step. eapply wp_read; [eapply here_load_bytes; [exact Hd|done]|].
    destruct (handleFragment_part f r [] d d' (rx_app r)) as (i2 & Eh & Hpart);
      [done..|by apply partial_nil; apply B|].
    wp_step. eapply wp_on_impl; [cbn; rewrite Himpl; exact Eh|]. apply wp_ret. split; [done|]. split; [done|].
    exists d, d'. split; [|done]. constructor; try done. intros E. by destruct (Hm' E) as (_ & _ & ?).
Qed.

(** The rest of a frame arrives. *)
Lemma continuation_end f d d' r R src p :
  inside f d d' r R -> here (block R) src (wire_rest f d d' ++ p) ->
  lengthZ (wire_rest f d d' ++ p) < 2 ^ 31 ->
  wp nothing (consumeContinuation isServer src (lengthZ (wire_rest f d d' ++ p))) (fun o R' => lengthZ (block R') = lengthZ (block R) /\
    exists r', match o with
    | None => deliver f r = Ok (true, r') /\ same_end (impl R') (rx_app r') /\ isOpen (impl R') = false
    | Some (src', len') => deliver f r = Ok (false, r') /\ at_head r' R' /\ spillLength (wState R') = 0 /\
        src' = src + lengthZ d' /\ len' = lengthZ p /\ here (block R') src' p
    end) R.
Proof using.
  intros N Hhere Hlen. pose proof (in_begun _ _ _ _ _ N) as B. pose proof (in_state _ _ _ _ _ N) as S.
  assert (lengthZ (wire_rest f d d') = lengthZ d') as Ewire by (unfold wire_rest; destruct isServer; [apply masked_length|done]).
  rewrite lengthZ_app in *. rewrite Ewire in *. pose proof (lengthZ_nonneg d'). pose proof (lengthZ_nonneg p).
  apply here_app in Hhere as [Hd Hp]. rewrite Ewire in Hp.
  unfold consumeContinuation. wp_step. apply wp_get. rewrite (in_remaining _ _ _ _ _ N), (proj2 (Z.leb_le _ _)) by lia.
  wp_step. apply wp_mono with (fun _ R' => exists l', R' = set_block l' R /\ lengthZ l' = lengthZ (block R) /\
    Forall is_byte l' /\ here l' src d' /\ here l' (src + lengthZ d') p).
  - destruct isServer eqn:Eserver.
    + wp_step. apply wp_require; [intros _|unfold fits_signed; rewrite Z.shiftr_div_pow2 by lia; change (2 ^ 2) with 4;
        pose proof (Z.div_mod (lengthZ d') 4 ltac:(lia)); pose proof (Z.mod_pos_bound (lengthZ d') 4); lia].
      destruct Hd as [Hin Ed]. rewrite Ewire in *. destruct Hp as [Hinp Ep].
      pose proof (masked_copy_length (mask (wState R)) (block R) src src (lengthZ d') 0 Hin Hin) as Hcopy.
      apply wp_write. apply wp_unmask_exact; [done..|]. eexists. split; [done|].
      destruct (sync_mask _ _ S Eserver) as [_ Hmb].
      split; [done|]. split; [apply masked_copy_bytes; [apply N|done]|]. split.
      * split; [by apply in_block_spec; rewrite Hcopy; apply in_block_spec|].
        rewrite slice_masked_copy by (done || lia). rewrite Ed, (in_mask _ _ _ _ _ N Eserver), Z.add_0_r.
        unfold wire_rest. rewrite Eserver. apply masked_masked.
      * split; [by apply in_block_spec; rewrite Hcopy; apply in_block_spec|].
        by rewrite slice_masked_copy_after by (done || lia).
    + apply wp_ret. exists (block R). unfold wire_rest in Hd. rewrite Eserver in Hd. split_and!; try done; [by destruct R|apply N].
  - intros _ ? (l' & -> & Elen' & Hbytes' & Hd1 & Hp1).
    wp_step. eapply wp_top_opCode; [exact S|apply B|].
    wp_step. eapply wp_read; [by eapply here_load_bytes|].
    destruct (frame_begun_parts f r _ _ B (in_payload _ _ _ _ _ N)) as (Hbd & Hbd' & Elen).
    pose proof (in_partial _ _ _ _ _ N) as Hpart. destruct (partial_open _ _ _ _ Hpart) as [Hopen1 _].
    pose proof (partial_end _ _ _ _ d' (f_fin f) Hpart Hbd Hbd') as Hagree. rewrite <- Elen in Hagree.
    specialize (Hagree (begun_fragment f r B)). rewrite <- (in_payload _ _ _ _ _ N) in Hagree.
    destruct (handleFragment_whole (f_payload f) (List.last (rx_ops r) 0) (f_fin f) (rx_app r)) as (gone & i' & Eh & Hopen & Hready);
      [apply B..|].
    rewrite Eh in Hagree. pose proof (deliver_ok f r gone i' Eh) as Edel.
    assert (lastFin (wState R) = f_fin f) as Efin by (rewrite (sync_lastFin _ _ S); apply B). rewrite Efin.
    unfold fragment_agrees in Hagree. destruct (handleFragment d' _ _ _ _) as [[gone2 i2]| | |] eqn:Eh2; try done.
    wp_step. eapply wp_on_impl; [exact Eh2|]. destruct gone2, gone; try done.
    { apply wp_ret. split; [done|]. eexists. split; [exact Edel|]. split; [done|].
      cbn. by rewrite (same_end_open _ _ Hagree). }
    subst i2. set (R1 := set_impl i' (set_block l' R)).
    wp_step. apply wp_mono with (fun _ R2 => R2 = set_wState (if f_fin f then set_opStack (opStack (wState R) - 1) (wState R) else wState R) R1).
    { destruct (f_fin f); [by apply wp_update|by apply wp_ret]. }
    intros _ ? ->. wp_step. apply wp_update. apply wp_ret. cbn. split; [done|].
    exists (ended f i' r). split; [done|].
    pose proof (sync_ended f r (wState R) i' S (begun_some f r B)) as S'.
    split_and!; [|destruct (f_fin f); apply N|done|rewrite uwrap_small; [lia|unfold in_unsigned; lia]|done].
    constructor; cbn; try done.
    + destruct S'. by constructor.
    + by apply Hready.
    + apply B.
Qed.

(** More of a frame arrives, but not all of it. *)
Lemma continuation_more f d d' r R src p q :
  inside f d d' r R -> wire_rest f d d' = p ++ q -> q <> [] -> here (block R) src p ->
  src + lengthZ p + 4 <= lengthZ (block R) ->
  wp nothing (consumeContinuation isServer src (lengthZ p)) (fun o R' => o = None /\
    lengthZ (block R') = lengthZ (block R) /\ exists d1 d2, inside f d1 d2 r R' /\ wire_rest f d1 d2 = q) R.
Proof using.
  intros N Ewire Hq Hhere Hpad. pose proof (in_begun _ _ _ _ _ N) as B. pose proof (in_state _ _ _ _ _ N) as S.
  pose proof (lengthZ_nonneg p) as Hp0. pose proof (begun_short f r B) as Hshort.
  destruct (frame_begun_parts f r _ _ B (in_payload _ _ _ _ _ N)) as (Hbd & Hbd' & Elen).
  set (d1 := if isServer then masked (f_mask f) (lengthZ d) p else p).
  assert (exists d2, d' = d1 ++ d2 /\ wire_rest f (d ++ d1) d2 = q /\ lengthZ d1 = lengthZ p) as (d2 & Ed' & Erest & Ed1).
  { unfold wire_rest in *. subst d1. destruct isServer; [|by exists q].
    apply (f_equal (masked (f_mask f) (lengthZ d))) in Ewire. rewrite masked_masked, masked_app in Ewire.
    eexists. split; [exact Ewire|]. by rewrite lengthZ_app, masked_length, masked_masked. }
  assert (d2 <> []) as Hd2. { intros ->. apply Hq. rewrite <- Erest. unfold wire_rest. by destruct isServer. }
  assert (lengthZ d' = lengthZ p + lengthZ d2) as Ed'len by (rewrite Ed', lengthZ_app; lia).
  assert (0 < lengthZ d2) by (destruct d2; [done|]; rewrite lengthZ_cons; pose proof (lengthZ_nonneg d2); lia).
  pose proof (lengthZ_nonneg d).
  unfold consumeContinuation. wp_step. apply wp_get. rewrite (in_remaining _ _ _ _ _ N), (proj2 (Z.leb_gt _ _)) by lia.
  wp_step. apply wp_mono with (fun _ R' => exists l', R' = set_block l' R /\ lengthZ l' = lengthZ (block R) /\
    Forall is_byte l' /\ here l' src d1).
  - destruct Hhere as [Hin Ep]. subst d1. apply in_block_spec in Hin. destruct isServer eqn:Eserver.
    + destruct (sync_mask _ _ S Eserver) as [_ Hmb]. pose proof (imprecise_bounds _ Hp0) as Himp.
      assert (in_block (block R) src (imprecise (lengthZ p)) = true) as Hi by (apply in_block_spec; lia).
      apply wp_write. replace (src + (Z.shiftr (lengthZ p) 2 + 1) * 4) with (src + 4 * (lengthZ p / 4 + 1))
        by (rewrite Z.shiftr_div_pow2 by lia; change (2 ^ 2) with 4; lia).
      apply wp_unmaskInplace; [pose proof (Z.div_pos (lengthZ p) 4); lia|done|]. fold (imprecise (lengthZ p)).
      eexists. split; [done|]. split; [by apply masked_copy_length|]. split; [apply masked_copy_bytes; [apply N|done]|].
      split; [apply in_block_spec; rewrite masked_copy_length by done; lia|].
      rewrite Ed1, slice_masked_copy by (done || lia). by rewrite Ep, (in_mask _ _ _ _ _ N Eserver), Z.add_0_r.
    + apply wp_ret. exists (block R). split_and!; try done; [by destruct R|apply N|]. by split; [apply in_block_spec|].
  - intros _ ? (l' & -> & Elen' & Hbytes' & Hd1). wp_step. apply wp_update. wp_step. apply wp_get.
    assert (u32 (lengthZ d' - lengthZ p) = lengthZ d2) as Erem by (rewrite uwrap_small; [lia|unfold in_unsigned; lia]).
    cbn [wState set_block]. rewrite (in_remaining _ _ _ _ _ N), Erem. set (ws1 := set_remainingBytes _ (wState R)).
    assert (in_sync ws1 r) as S1 by (destruct S; by constructor).
    wp_step. eapply wp_top_opCode; [exact S1|apply B|]. wp_step. eapply wp_read; [by eapply here_load_bytes|].
    pose proof (in_payload _ _ _ _ _ N) as Epay. rewrite Ed' in Epay.
    destruct (handleFragment_part f r d d1 d2 (impl R) B Epay Hd2 (in_partial _ _ _ _ _ N)) as (i2 & Eh & Hpart).
    assert (lastFin (wState R) = f_fin f) as Efin by (rewrite (sync_lastFin _ _ S); apply B).
    cbn [lastFin wState set_wState ws1 set_remainingBytes remainingBytes]. rewrite Efin.
    wp_step. eapply wp_on_impl; [exact Eh|].
    set (R1 := set_impl i2 (set_wState ws1 (set_block l' R))). cbv iota beta.
    wp_step. apply wp_mono with (fun _ R2 => exists m', R2 = set_wState (set_mask m' ws1) R1 /\
      (isServer = true -> lengthZ m' = 4 /\ Forall is_byte m' /\ forall k x, masked m' k x = masked (f_mask f) (lengthZ (d ++ d1) + k) x)).
    + rewrite lengthZ_app, Ed1. destruct isServer eqn:Eserver; cbn [andb].
      * destruct (sync_mask _ _ S Eserver) as [Hm4 Hmb].
        assert (forall k x, masked (mask (wState R)) (lengthZ p + k) x = masked (f_mask f) (lengthZ d + lengthZ p + k) x) as Hm.
        { intros k x. rewrite (in_mask _ _ _ _ _ N Eserver). f_equal. lia. }
        destruct (Z.eqb_spec (lengthZ p mod 4) 0) as [E0|Hne]; cbn [negb].
        -- apply wp_ret. exists (mask (wState R)). split; [by subst R1 ws1; destruct (wState R)|]. intros _.
           split; [done|]. split; [done|]. intros k x. rewrite <- Hm. apply masked_mod.
           by rewrite <- (Zplus_mod_idemp_l (lengthZ p)), E0.
        -- apply wp_update. exists (rotateMask (u32 (4 - lengthZ p mod 4)) (mask (wState R))). split; [done|]. intros _.
           split; [by apply rotateMask_length|]. split; [by apply rotateMask_bytes|].
           intros k x. rewrite masked_rotate by done. by rewrite Z.add_comm, Hm.
      * apply wp_ret. exists (mask (wState R)). split; [by subst R1 ws1; destruct (wState R)|done].
    + intros _ ? (m' & -> & Hm'). apply wp_ret. split; [done|]. split; [done|]. exists (d ++ d1), d2. split; [|done].
      constructor; cbn; try done; [by rewrite Epay, app_assoc| |apply N|apply N|].
      * destruct S. constructor; try done. intros E. by destruct (Hm' E) as (? & ? & _).
      * intros E. by destruct (Hm' E) as (_ & _ & ?).
Qed.

(** ** The stream *)

Lemma encode_frames_bytes fs : Forall plain fs -> Forall is_byte (encode_frames isServer fs).
Proof using.
  induction 1 as [|f fs [Hf _] _ IH]; [done|]. unfold encode_frames. cbn [map concat]. apply Forall_app.
  split; [by apply encode_frame_bytes|done].
Qed.

(** The receiver behind the head of [f]. *)
Definition resume f (fs : list frame) : M (rx I) bool :=
  gone <- deliver f ;; if gone : bool then ret true else receive fs.

(** [p] does not hold all of the first head. *)
Definition head_missing (fs : list frame) (p : list Z) : Prop :=
  match fs with [] => True | f :: _ => lengthZ p < header_length isServer (f_form f) end.

(** Where the parser is when [rest] is still to come, and receiving all frames has
    the outcome [result]: in front of a head of which it keeps the bytes [p],
    inside of a frame, or at the end. *)
Inductive progress (rest : list Z) (result : outcome (bool * rx I)) R : Prop :=
| Waiting fs r p :
    result = receive fs r -> at_head r R -> spillLength (wState R) = lengthZ p ->
    slice (spill (wState R)) 0 (lengthZ p) = p -> p ++ rest = encode_frames isServer fs ->
    Forall plain fs -> head_missing fs p -> progress rest result R
| Inside f fs r d d' :
    result = resume f fs r -> inside f d d' r R -> rest = wire_rest f d d' ++ encode_frames isServer fs ->
    Forall plain fs -> progress rest result R
| Gone r :
    result = Ok (true, r) -> same_end (impl R) (rx_app r) -> isOpen (impl R) = false -> progress rest result R.

(** The parser in front of the frames [fs], of which [len] bytes are in the buffer
    at [src]. *)
Record parsing (rest : list Z) (fs : list frame) r (src len : Z) R : Prop := {
  parsing_head : at_head r R;
  parsing_plain : Forall plain fs;
  parsing_range : 0 <= src /\ 0 <= len < 2 ^ 31 /\ src + len + 4 <= lengthZ (block R);
  parsing_bytes : slice (block R) src len ++ rest = encode_frames isServer fs;
  parsing_spill : len = 0 -> spillLength (wState R) = 0
}.

Lemma receive_cons f fs r r' : accept f r = Ok (false, r') -> receive (f :: fs) r = resume f fs r'.
Proof using.
  intros E. unfold receive, receive_frame, resume, bind. rewrite E. by destruct (deliver f r') as [[[] ?]| | |].
Qed.

Lemma consumeMessage_spec rest f fs r R src len w (h := header_length isServer (f_form f)) :
  parsing rest (f :: fs) r src len R -> invalid_frame f = false -> h <= len ->
  w = 64 \/ (w = 32 /\ f_length f < 2 ^ 16) ->
  wp nothing (consumeMessage isServer h w (f_length f) src len) (fun o R' => lengthZ (block R') = lengthZ (block R) /\
    match o with
    | None => progress rest (receive (f :: fs) r) R'
    | Some (src', len') => exists r', receive (f :: fs) r = receive fs r' /\ parsing rest fs r' src' len' R' /\ len' < len
    end) R.
Proof using.
  intros [P Hplain (Hsrc & Hlen & Hpad) Hbytes Hspill] Hvalid Hh Hw.
  apply Forall_cons in Hplain as [[Hf Hrsv] Hplain].
  assert (in_block (block R) src len = true) as Hin by (apply in_block_spec; lia).
  pose proof (here_slice _ _ _ Hin) as Hhere. set (p := slice (block R) src len) in *.
  assert (lengthZ p = len) as Ep by (apply slice_length; lia).
  rewrite encode_frames_cons in Hbytes.
  destruct (cut_long _ _ _ _ Hbytes) as (p' & Ep' & Hbytes'); [by rewrite header_length_spec, Ep|].
  assert (len = h + lengthZ p') as Elen by (rewrite <- Ep, Ep', lengthZ_app, header_length_spec by done; done).
  rewrite Ep' in Hhere. pose proof Hhere as Hhead. apply here_app in Hhead as [Hhead _].
  pose proof (frame_positive f) as [Hh0 Hn0]. fold h in Hh0. pose proof (lengthZ_nonneg p').
  unfold consumeMessage. wp_step. eapply wp_mono; [eapply begin_frame_spec; try apply P; done|].
  intros refused R1 (EB & r1 & Eacc & Eimpl & Hacc). destruct refused.
  { apply wp_ret. split; [by rewrite EB|]. apply (Gone _ _ _ r1); [|rewrite Eimpl; apply same_end_refl|done].
    unfold receive, receive_frame, bind. by rewrite Eacc. }
  destruct Hacc as (Hmis & S1 & (Ew1 & Ew2 & Ew3 & Ew4) & -> & Hrefuse).
  destruct (begun_ok f r Hf Hvalid Hmis (head_data _ _ P)) as (Hsome & Hfrag & Hdata).
  pose proof (refuse_bound _ _ (head_ready _ _ P) Hrefuse) as Hshort.
  assert (frame_begun f (begun f r)) as B by (constructor; try done; apply P).
  assert (uwrap w (f_length f + h) = f_length f + h) as ->.
  { apply uwrap_small. unfold in_unsigned. destruct Hw as [->|[-> ?]]; [|lia].
    split; [lia|]. pose proof (header_length_bounds isServer (f_form f)).
    assert (LONG_MESSAGE_HEADER isServer <= 14) by (by destruct isServer). lia. }
  rewrite (receive_cons f fs r _ Eacc). destruct (Z.leb_spec (f_length f + h) len) as [Hle|Hgt].
  - destruct (cut_long _ _ _ _ Hbytes') as (p2 & Ep2 & Hrest); [rewrite wire_payload_length; lia|].
    assert (here (block R1) src (encode_frame isServer f)) as Henc.
    { rewrite EB. rewrite Ep2, app_assoc in Hhere. by apply here_app in Hhere as [Hhere _]. }
    eapply wp_mono; [apply whole_frame_spec; try done; rewrite ?EB; try apply P; try lia; by rewrite Ew1; apply P|].
    intros o R2 (Elen2 & Hafter & r' & Ho). split; [by rewrite Elen2, EB|].
    destruct o as [[src' len']|].
    + destruct Ho as (Edel & P2 & Hsp & -> & ->). exists r'. split; [|split].
      * unfold resume, bind. by rewrite Edel.
      * constructor; try done; [rewrite Elen2, EB; lia|].
        rewrite Hafter by (fold h; lia). rewrite EB. rewrite <- Hrest. f_equal.
        rewrite Ep2 in Hhere. apply here_app in Hhere as [_ Hhere]. apply here_app in Hhere as [_ [_ Hhere]].
        rewrite header_length_spec, wire_payload_length in Hhere by done. rewrite <- Hhere. fold h. f_equal; [lia|].
        rewrite Elen, Ep2, lengthZ_app, wire_payload_length. lia.
      * lia.
    + destruct Ho as (Edel & Eimpl2 & Hopen2). apply (Gone _ _ _ r'); [|rewrite Eimpl2; apply same_end_refl|done].
      unfold resume, bind. by rewrite Edel.
  - destruct (cut_short _ _ _ _ Hbytes') as (q & Eq & Hq & Hrest); [rewrite wire_payload_length; lia|].
    rewrite Elen. eapply wp_mono; [apply (partial_frame_spec f (begun f r) R1 src p' q); try done; rewrite ?EB; try apply P; [done|fold h; lia]|].
    intros o R2 (-> & Elen2 & d & d' & Hins & Hwr). split; [by rewrite Elen2, EB|].
    apply (Inside _ _ _ f fs (begun f r) d d'); [done|done|by rewrite Hwr|done].
Qed.

Lemma parsing_some rest fs r src len R : parsing rest fs r src len R -> 0 < len -> exists f fs', fs = f :: fs'.
Proof using.
  intros [_ _ Hr E _] Hlen. destruct fs as [|f fs]; [|eauto]. apply (f_equal lengthZ) in E.
  rewrite lengthZ_app, slice_length in E by lia. pose proof (lengthZ_nonneg rest).
  change (lengthZ (encode_frames isServer [])) with 0 in E. lia.
Qed.

(** The bytes of the first head that are in the buffer. *)
Lemma parsing_prefix rest f fs r src len R a b :
  parsing rest (f :: fs) r src len R -> encode_frames isServer (f :: fs) = a ++ b -> lengthZ a <= len -> here (block R) src a.
Proof using.
  intros [_ _ Hr E _] Ea Hle. rewrite Ea in E.
  destruct (cut_long _ _ _ _ E) as (p' & Ep & _); [by rewrite slice_length by lia|].
  assert (here (block R) src (slice (block R) src len)) as Hh by (apply here_slice, in_block_spec; lia).
  rewrite Ep in Hh. by apply here_app in Hh as [? _].
Qed.

(** What the rounds of the loop leave. *)
Definition round_ok rest fs r (src len : Z) R (o : (Z * Z) + option (Z * Z)) R' : Prop :=
  lengthZ (block R') = lengthZ (block R) /\
  match o with
  | inl (src', len') => exists fs' r', receive fs r = receive fs' r' /\ parsing rest fs' r' src' len' R' /\ len' < len
  | inr None => progress rest (receive fs r) R'
  | inr (Some l) => l = (src, len) /\ R' = R /\ head_missing fs (slice (block R) src len)
  end.

Lemma go_on_ok rest f fs r src len R m :
  wp nothing m (fun o R' => lengthZ (block R') = lengthZ (block R) /\
    match o with
    | None => progress rest (receive (f :: fs) r) R'
    | Some (src', len') => exists r', receive (f :: fs) r = receive fs r' /\ parsing rest fs r' src' len' R' /\ len' < len
    end) R ->
  wp nothing (let? l := m else ret (inr None) in ret (inl l)) (round_ok rest (f :: fs) r src len R) R.
Proof using.
  intros Hm. wp_step. eapply wp_mono; [exact Hm|]. intros [[src' len']|] R' [E Ho]; apply wp_ret; (split; [done|]); [|done].
  destruct Ho as (r' & ? & ?). by exists fs, r'.
Qed.

Lemma parse_round_spec rest fs r src len R : parsing rest fs r src len R ->
  wp nothing (parse_round isServer (src, len)) (round_ok rest fs r src len R) R.
Proof using.
  intros P. pose proof (parsing_range _ _ _ _ _ _ P) as (Hsrc & Hlen & Hpad). unfold parse_round.
  assert (forall fm, SHORT_MESSAGE_HEADER isServer <= header_length isServer fm) as Hmin by (intros; apply header_length_bounds).
  assert (2 <= SHORT_MESSAGE_HEADER isServer) as H2 by (by destruct isServer).
  assert (lengthZ (slice (block R) src len) = len) as Eslice by (apply slice_length; lia).
  destruct (Z.leb_spec (SHORT_MESSAGE_HEADER isServer) len) as [Hle|Hlt].
  2: { apply wp_ret. split; [done|]. split_and!; [done..|]. destruct fs as [|f fs]; [done|]. cbn [head_missing].
       specialize (Hmin (f_form f)). lia. }
  destruct (parsing_some _ _ _ _ _ _ P) as (f & fs' & ->); [lia|]. pose proof (parsing_plain _ _ _ _ _ _ P) as Hplain.
  apply Forall_cons in Hplain as [Hpf Hplain]. pose proof (proj1 Hpf) as Hf.
  assert (here (block R) src (byte0 f :: byte1 f :: [])) as Hhead.
  { eapply (parsing_prefix _ _ _ _ _ _ _ _ _ P); [rewrite encode_frames_cons; unfold header; cbn [app]; done|].
    change (lengthZ [byte0 f; byte1 f]) with 2. lia. }
  pose proof (parsing_head _ _ _ _ _ _ P) as A.
  wp_step. eapply invalid_head_spec; [done|rewrite (head_impl _ _ A); apply A|done|].
  destruct (invalid_frame f) eqn:Hvalid.
  { destruct (forceClose_ok _ (head_ready _ _ A)) as (i' & Eclose & Hopen).
    wp_step. eapply wp_on_impl; [by rewrite (head_impl _ _ A)|]. apply wp_ret. split; [done|].
    apply (Gone _ _ _ (mkRx (rx_ops r) (rx_fin r) i')); [|apply same_end_refl|done].
    unfold receive, receive_frame, bind. by rewrite (accept_invalid f r i') by (by rewrite ?Hvalid). }
  wp_step. eapply wp_read; [by eapply payloadLength_head|].
  pose proof (ok_length f Hf) as Hlim. pose proof (lengthZ_nonneg (f_payload f)) as Hn. fold (f_length f) in Hn.
  assert (head_missing (f :: fs') (slice (block R) src len) <-> len < header_length isServer (f_form f)) as Hmiss.
  { cbn [head_missing]. by rewrite Eslice. }
  assert (header_length isServer (f_form f) <= len -> here (block R) (src + 2) (length_bytes f)) as Hlb.
  { intros Hh. pose proof (header_length_spec isServer f Hf) as Ehl. unfold header in Ehl.
    rewrite !lengthZ_cons, lengthZ_app in Ehl. pose proof (lengthZ_nonneg (if isServer then f_mask f else [])).
    assert (here (block R) src ([byte0 f; byte1 f] ++ length_bytes f)) as Hx.
    { eapply (parsing_prefix _ _ _ _ _ _ _ _ _ P).
      - rewrite encode_frames_cons. unfold header. cbn [app]. rewrite <- app_assoc. done.
      - cbn [app]. rewrite !lengthZ_cons. lia. }
    by apply here_app in Hx as [_ ?]. }
  revert Hmiss Hlb Hlim. unfold length7, length_bytes, form_limit. destruct (f_form f) eqn:Eform; intros Hmiss Hlb Hlim.
  - rewrite (proj2 (Z.ltb_lt _ 126)) by lia. apply go_on_ok.
    pose proof (consumeMessage_spec rest f fs' r R src len 32 P Hvalid) as Hc. rewrite Eform in Hc. apply Hc; [done|]. right. lia.
  - change (126 <? 126) with false. change (126 =? 126) with true. cbv iota. destruct (Z.ltb_spec len (MEDIUM_MESSAGE_HEADER isServer)) as [Hm|Hm].
    + apply wp_ret. split; [done|]. split_and!; [done..|by apply Hmiss].
    + wp_step. eapply wp_read; [eapply here_load_bytes; [by apply Hlb|by rewrite be_split_length]|].
      rewrite be_combine_split by (change (256 ^ Z.of_nat 2) with (2 ^ 16); lia). apply go_on_ok.
      pose proof (consumeMessage_spec rest f fs' r R src len 32 P Hvalid) as Hc. rewrite Eform in Hc. apply Hc; [done|]. right. lia.
  - change (127 <? 126) with false. change (127 =? 126) with false. cbv iota. destruct (Z.ltb_spec len (LONG_MESSAGE_HEADER isServer)) as [Hm|Hm].
    + apply wp_ret. split; [done|]. split_and!; [done..|by apply Hmiss].
    + wp_step. eapply wp_read; [eapply here_load_bytes; [by apply Hlb|by rewrite be_split_length]|].
      rewrite be_combine_split by (change (256 ^ Z.of_nat 8) with (2 ^ 64); lia). apply go_on_ok.
      pose proof (consumeMessage_spec rest f fs' r R src len 64 P Hvalid) as Hc. rewrite Eform in Hc. apply Hc; [done|by left].
Qed.

(** Keeping the bytes of an incomplete head for later. *)
Lemma at_head_spill r R n (bs : list Z) : at_head r R -> in_block (spill (wState R)) 0 (lengthZ bs) = true ->
  at_head r (set_wState (set_spillLength n (set_spill (splice (spill (wState R)) 0 bs) (wState R))) R).
Proof using.
  intros [[] ? ? ? ? ? ?] Hin. constructor; try done. constructor; try done. cbn. by rewrite splice_length.
Qed.

Lemma parseNext_spec rest fs r src len R : parsing rest fs r src len R ->
  wp nothing (parseNext isServer src len) (fun _ R' => lengthZ (block R') = lengthZ (block R) /\ progress rest (receive fs r) R') R.
Proof using.
  intros P0. unfold parseNext. wp_step.
  set (J := fun (l : Z * Z) R' fs' r' => lengthZ (block R') = lengthZ (block R) /\ receive fs r = receive fs' r' /\ parsing rest fs' r' l.1 l.2 R').
  apply (wp_iter _ _ (fun l R' => exists fs' r', J l R' fs' r') (fun l _ => Z.to_nat l.2)); [|by exists fs, r|].
  2: { pose proof (parsing_range _ _ _ _ _ _ P0). simpl. lia. }
  intros [src1 len1] R1 (fs1 & r1 & Elen & Erec & P). pose proof (parsing_range _ _ _ _ _ _ P) as (Hsrc & Hlen & Hpad).
  eapply wp_mono; [by apply parse_round_spec|]. cbn [fst snd] in *.
  intros [[src2 len2]|[l|]] R2 [Elen2 Ho].
  - destruct Ho as (fs2 & r2 & Erec2 & P2 & Hlt). pose proof (parsing_range _ _ _ _ _ _ P2). split; [|simpl; lia].
    exists fs2, r2. split; [by rewrite Elen2|]. split; [by rewrite Erec|done].
  - destruct Ho as (-> & -> & Hmiss). destruct (Z.eqb_spec len1 0) as [->|Hne]; cbn [negb].
    + apply wp_ret. split; [done|]. apply (Waiting _ _ _ fs1 r1 []); try done; [apply P|by apply P|apply P|apply P].
    + set (bs := slice (block R1) src1 len1) in *.
      assert (lengthZ bs = len1) as Ebs by (apply slice_length; lia).
      destruct (parsing_some _ _ _ _ _ _ P) as (f & fs' & ->); [lia|]. cbn [head_missing] in Hmiss.
      pose proof (header_length_bounds isServer (f_form f)) as [_ Hmax].
      pose proof (sync_spill _ _ (head_sync _ _ (parsing_head _ _ _ _ _ _ P))) as Hsp.
      assert (LONG_MESSAGE_HEADER isServer <= 14) by (by destruct isServer).
      assert (in_block (spill (wState R1)) 0 (lengthZ bs) = true) as Hin by (apply in_block_spec; lia).
      assert (here (block R1) src1 bs) as Hbs by (apply here_slice, in_block_spec; lia).
      wp_step. eapply wp_read; [eapply here_load_bytes; [exact Hbs|by rewrite Ebs]|].
      wp_step. apply wp_get. wp_step. apply wp_require; [intros _|lia]. fold bs.
      wp_step. apply wp_update. apply wp_update. cbn [block set_wState]. split; [done|].
      apply (Waiting _ _ _ (f :: fs') r1 bs); try done.
      * exact (at_head_spill r1 R1 len1 bs (parsing_head _ _ _ _ _ _ P) Hin).
      * cbn. rewrite uwrap_small; [done|unfold in_unsigned; lia].
      * cbn. by apply splice_same.
      * apply P.
      * apply P.
  - apply wp_ret. split; [by rewrite Elen2|]. by rewrite Erec.
Qed.

(** A piece of the stream, at [src] of the buffer, is consumed. *)
Lemma consume_progress chunk rest result R src : progress (chunk ++ rest) result R -> isOpen (impl R) = true ->
  here (block R) src chunk -> Forall is_byte (block R) -> CONSUME_PRE_PADDING isServer <= src ->
  src + lengthZ chunk + CONSUME_POST_PADDING <= lengthZ (block R) -> lengthZ chunk < 2 ^ 30 ->
  wp nothing (consume isServer src (lengthZ chunk)) (fun _ R' => lengthZ (block R') = lengthZ (block R) /\ progress rest result R') R.
Proof using.
  intros Hprog Hopen Hhere Hbytes Hpre Hpost Hshort. unfold CONSUME_PRE_PADDING, CONSUME_POST_PADDING in *.
  pose proof (lengthZ_nonneg chunk) as Hc0. unfold consume. wp_step. apply wp_get.
  destruct Hprog as [fs r p -> A Esp Hsp Estream Hplain Hmiss|f fs r d d' -> N Erest Hplain|r -> _ Hclosed]; [| |congruence].
  - pose proof (sync_spill _ _ (head_sync _ _ A)) as Hslen. pose proof (lengthZ_nonneg p) as Hp0.
    assert (lengthZ p <= LONG_MESSAGE_HEADER isServer - 1) as Hplen.
    { rewrite <- Hslen. apply (f_equal lengthZ) in Hsp. unfold slice, lengthZ in *. rewrite length_take, drop_0 in Hsp. lia. }
    assert (LONG_MESSAGE_HEADER isServer <= 14) by (by destruct isServer). rewrite app_assoc in Estream.
    wp_step. apply wp_mono with (fun l R1 => exists l1, R1 = set_block l1 R /\ l = (src - lengthZ p, lengthZ (p ++ chunk)) /\
      lengthZ l1 = lengthZ (block R) /\ Forall is_byte l1 /\ slice l1 (src - lengthZ p) (lengthZ (p ++ chunk)) = p ++ chunk).
    + rewrite Esp. destruct (Z.eqb_spec (lengthZ p) 0) as [E0|Hne]; cbn [negb].
      * apply wp_ret. exists (block R). apply lengthZ_0 in E0 as ->. change (lengthZ []) with 0. rewrite Z.sub_0_r.
        destruct Hhere as [? ?]. split_and!; try done. by destruct R.
      * wp_step. apply wp_require; [intros _|lia]. wp_step. apply wp_write. rewrite Hsp.
        destruct Hhere as [Hin Ech]. apply in_block_spec in Hin.
        assert (in_block (block R) (src - lengthZ p) (lengthZ p) = true) as Hinp by (apply in_block_spec; lia).
        apply wp_store_bytes; [done|]. apply wp_ret. exists (splice (block R) (src - lengthZ p) p). split; [done|].
        rewrite lengthZ_app. split; [f_equal; rewrite uwrap_small; [lia|unfold in_unsigned; lia]|].
        split; [by apply splice_length|]. split.
        -- apply splice_bytes; [done|]. apply encode_frames_bytes in Hplain. rewrite <- Estream in Hplain.
           by apply Forall_app in Hplain as [[Hplain _]%Forall_app _].
        -- rewrite slice_app, splice_same by (done || lia). f_equal. replace (src - lengthZ p + lengthZ p) with src by lia.
           by rewrite splice_after by (done || lia).
    + intros l R1 (l1 & -> & -> & Elen1 & Hbytes1 & Eslice). rewrite (head_wants _ _ A). cbn [fst snd].
      eapply wp_mono; [apply (parseNext_spec rest fs r)|].
      * constructor; cbn; try done; [destruct A; by constructor|rewrite lengthZ_app in *; lia|by rewrite Eslice|].
        rewrite Esp, lengthZ_app. lia.
      * intros _ R' [E ?]. split; [by rewrite E|done].
  - rewrite (in_spill _ _ _ _ _ N). cbn [Z.eqb negb]. wp_step. apply wp_ret. rewrite (in_wants _ _ _ _ _ N). cbn [fst snd].
    destruct (Z.le_gt_cases (lengthZ (wire_rest f d d')) (lengthZ chunk)) as [Hle|Hgt].
    + destruct (cut_long _ _ _ _ Erest Hle) as (p & -> & Ep).
      wp_step. eapply wp_mono; [apply (continuation_end _ _ _ _ _ _ _ N Hhere); lia|].
      intros o R1 (Elen1 & r' & Ho). destruct o as [[src' len']|].
      * destruct Ho as (Edel & A & Hsp & -> & -> & [Hinp Hp]). apply in_block_spec in Hinp.
        assert (lengthZ (wire_rest f d d') = lengthZ d') as Ew by (unfold wire_rest; destruct isServer; [apply masked_length|done]).
        rewrite lengthZ_app, Ew in *. cbn [fst snd].
        eapply wp_mono; [apply (parseNext_spec rest fs r')|].
        -- pose proof (lengthZ_nonneg d'). constructor; try done; [lia|by rewrite Hp].
        -- intros _ R2 [E2 Hpr]. split; [by rewrite E2|]. unfold resume, bind. by rewrite Edel.
      * destruct Ho as (Edel & Hsame & Hgone). apply wp_ret. split; [done|].
        apply (Gone _ _ _ r'); [|done..]. unfold resume, bind. by rewrite Edel.
    + destruct (cut_short _ _ _ _ Erest Hgt) as (q & Eq & Hq & Er).
      wp_step. eapply wp_mono; [apply (continuation_more _ _ _ _ _ _ _ _ N Eq Hq Hhere); lia|].
      intros o R1 (-> & Elen1 & d1 & d2 & N1 & Eq1). apply wp_ret. split; [done|].
      apply (Inside _ _ _ f fs r d1 d2); [done|done|by rewrite Eq1|done].
Qed.

End Parser.
