(* ===== verification/Socket.v ===== *)
(** * Sockets and their message queue

    The sending side of src/libuws/include/Socket.h without TLS: [write], which
    hands a message to the kernel or queues it, [sendTransformed], and the part of
    [ioHandler] that goes on with the queue when the socket is writable.  The
    kernel is a parameter. *)

From S2P Require Import Prelude Memory Buffer.

(** ** The kernel

    send(2) on a stream socket takes some first bytes of the message, or fails
    with EWOULDBLOCK or another error.  [k_out] is everything it ever took. *)
Inductive send_result := Sent (n : Z) | WouldBlock | SendError.

Class Kernel (K : Type) := {
  k_send : list Z -> K -> send_result * K;
  k_shutdown : K -> K;
  k_out : K -> list Z
}.

Class KernelLaws (K : Type) {HK : Kernel K} := {
  k_send_out data k : k_out (snd (k_send data k)) =
    k_out k ++ match fst (k_send data k) with Sent n => slice data 0 n | _ => [] end;
  k_send_range data k n : fst (k_send data k) = Sent n -> 0 <= n <= lengthZ data;
  k_shutdown_out k : k_out (k_shutdown k) = k_out k
}.

Definition UV_READABLE : Z := 1.
Definition UV_WRITABLE : Z := 4.

(** What a message does when it was sent or given up: nothing, the lambda of
    WebSocket::close, or a function of the application, which is only recorded. *)
Inductive Callback := NoCallback | ShutdownCallback | UserCallback (id : Z).

(** Queue::Message; the rest of the buffer that is to be sent. *)
Record Message := mkMessage { m_data : list Z; m_callback : Callback }.

(** The fields of Poll and Socket that the code below uses.  [fd] is [-1] once the
    socket is closed; [timer] is whether a timeout runs; [called] records the
    functions of the application with their argument [cancelled]. *)
Record Socket (K : Type) := mkSocket {
  fd : Z;
  poll : Z;
  shuttingDown : bool;
  timer : bool;
  messageQueue : list Message;
  kernel : K;
  called : list (Z * bool)
}.
Arguments mkSocket {K}.
Arguments fd {K}.
Arguments poll {K}.
Arguments shuttingDown {K}.
Arguments timer {K}.
Arguments messageQueue {K}.
Arguments kernel {K}.
Arguments called {K}.

Section Socket.
Context {K : Type} {HK : Kernel K}.
#[local] Abbreviation S := (Socket K).

Definition set_fd n (s : S) : S := mkSocket n (poll s) (shuttingDown s) (timer s) (messageQueue s) (kernel s) (called s).
Definition set_poll n (s : S) : S := mkSocket (fd s) (swrap 4 n) (shuttingDown s) (timer s) (messageQueue s) (kernel s) (called s).
Definition set_shuttingDown b (s : S) : S := mkSocket (fd s) (poll s) b (timer s) (messageQueue s) (kernel s) (called s).
Definition set_timer b (s : S) : S := mkSocket (fd s) (poll s) (shuttingDown s) b (messageQueue s) (kernel s) (called s).
Definition set_messageQueue q (s : S) : S := mkSocket (fd s) (poll s) (shuttingDown s) (timer s) q (kernel s) (called s).
Definition set_kernel k (s : S) : S := mkSocket (fd s) (poll s) (shuttingDown s) (timer s) (messageQueue s) k (called s).
Definition add_called c (s : S) : S := mkSocket (fd s) (poll s) (shuttingDown s) (timer s) (messageQueue s) (kernel s) (called s ++ [c]).

Definition isClosed (s : S) : bool := fd s =? -1.

(** [::send(getFd(), data, length, MSG_NOSIGNAL)]; it fails on a closed socket. *)
Definition sys_send (data : list Z) : M S send_result :=
  s <- get id ;;
  if isClosed s then ret SendError
  else let '(r, k) := k_send data (kernel s) in modify (set_kernel k) ;; ret r.

(** [::shutdown(getFd(), SHUT_WR)]. *)
Definition shutdown : M S unit :=
  s <- get id ;; if isClosed s then ret tt else modify (fun s => set_kernel (k_shutdown (kernel s)) s).

(** [callback(socket, callbackData, cancelled, reserved)]. *)
Definition run_callback (c : Callback) (cancelled : bool) : M S unit :=
  match c with
  | NoCallback => ret tt
  | ShutdownCallback => if cancelled then ret tt else shutdown
  | UserCallback id => modify (add_called (id, cancelled))
  end.

(** Asks to be told when the socket is writable, unless it was asked already. *)
Definition want_writable : M S unit :=
  s <- get id ;;
  if bits_set (poll s) UV_WRITABLE then ret tt else modify (set_poll (Z.lor (poll s) UV_WRITABLE)).

(** Returns false when the message cannot be sent, otherwise whether it was put
    into the queue. *)
Definition write (message : Message) : M S (option bool) :=
  s <- get id ;;
  match messageQueue s with
  | [] =>
      r <- sys_send (m_data message) ;;
      match r with
      | Sent sent =>
          if sent =? lengthZ (m_data message) then ret (Some false)
          else
            want_writable ;;
            modify (set_messageQueue [mkMessage (slice (m_data message) sent (lengthZ (m_data message) - sent)) (m_callback message)]) ;;
            ret (Some true)
      | WouldBlock => want_writable ;; modify (set_messageQueue [message]) ;; ret (Some true)
      | SendError => ret None
      end
  | q => modify (set_messageQueue (q ++ [message])) ;; ret (Some true)
  end.

(** The size of a Queue::Message and of the largest preallocated block. *)
Definition sizeof_Message : Z := 48.
Definition preAllocMaxSize : Z := 1024.

Definition getMemoryBlockIndex (length : Z) : Z := Z.shiftr length 4 + (if bits_set length 15 then 1 else 0).

(** The bytes that are left for the data in the memory of a message. *)
Definition message_capacity (estimatedLength : Z) (pooled : bool) : Z :=
  (if pooled then Z.shiftl (getMemoryBlockIndex estimatedLength) 4 else estimatedLength) - sizeof_Message.

(** [transform] writes the message to a block and returns its length; what the
    block held before is [0]s. *)
Definition sendTransformed (estimate : Z) (transform : M (list Z) Z) (callback : Callback) : M S unit :=
  let estimatedLength := estimate + sizeof_Message in
  s <- get id ;;
  let empty := match messageQueue s with [] => true | _ => false end in
  let pooled := empty && (estimatedLength <=? preAllocMaxSize) in
  match transform (replicate (Z.to_nat (message_capacity estimatedLength pooled)) 0) with
  | Ok (length, block) =>
      let message := mkMessage (slice block 0 length) callback in
      if empty then
        r <- write message ;;
        match r with
        | Some false => run_callback callback false
        | Some true => ret tt
        | None => run_callback callback true
        end
      else modify (set_messageQueue (messageQueue s ++ [message]))
  | Abort => abort
  | Undef => undef
  | NoFuel => fun _ => NoFuel
  end.

(** One round of the loop over the queue; [inr true] is the way out through
    STATE::onEnd. *)
Definition writable_round (_ : unit) : M S (unit + bool) :=
  s <- get id ;;
  match messageQueue s with
  | [] => undef
  | messagePtr :: q =>
      r <- sys_send (m_data messagePtr) ;;
      match r with
      | Sent sent =>
          if sent =? lengthZ (m_data messagePtr) then
            run_callback (m_callback messagePtr) false ;;
            modify (set_messageQueue q) ;;
            match q with
            | [] => modify (set_poll UV_READABLE) ;; ret (inr false)
            | _ => ret (inl tt)
            end
          else
            modify (set_messageQueue
              (mkMessage (slice (m_data messagePtr) sent (lengthZ (m_data messagePtr) - sent)) (m_callback messagePtr) :: q)) ;;
            ret (inr false)
      | WouldBlock => ret (inr false)
      | SendError => ret (inr true)
      end
  end.

(** The writable part of ioHandler: whether the connection ended. *)
Definition on_writable : M S bool :=
  s <- get id ;;
  match messageQueue s with
  | [] => ret false
  | q => iter (Datatypes.S (length q)) writable_round tt
  end.

(** STATE::onEnd, the part of it that all sockets share: the socket is closed and
    the messages are given up.  A second close would free the object twice. *)
Fixpoint cancel_messages (q : list Message) : M S unit :=
  match q with
  | [] => ret tt
  | m :: q => run_callback (m_callback m) true ;; modify (set_messageQueue q) ;; cancel_messages q
  end.

Definition closeSocket : M S unit :=
  s <- get id ;; require (negb (isClosed s)) ;; modify (set_fd (-1)).

Definition startTimeout : M S unit := modify (set_timer true).

Definition cancelTimeout : M S unit := modify (set_timer false).

End Socket.
