(* ===== verification/SocketSpec.v ===== *)
(** * What the message queue promises

    The bytes of the messages reach the kernel in order, without gaps and
    repetitions, whatever part of a message each call of send takes, and the queue
    runs empty when the kernel goes on taking bytes. *)

From S2P Require Import Prelude Memory Buffer Socket.

Section Spec.
Context {K : Type} {HK : Kernel K} {HL : KernelLaws K}.
Implicit Types (s : Socket K) (m : Message).

(** Everything that was or will be sent, in order. *)
Definition stream s : list Z := k_out (kernel s) ++ concat (map m_data (messageQueue s)).

(** A message that waits is not empty, and then the socket is polled until it is
    writable. *)
Record socket_ok s : Prop := {
  ok_messages : Forall (fun m => m_data m <> []) (messageQueue s);
  ok_poll : poll s = UV_READABLE \/ poll s = UV_READABLE + UV_WRITABLE;
  ok_waiting : messageQueue s <> [] -> poll s = UV_READABLE + UV_WRITABLE
}.

(** [transform] writes [d] to any block of [estimate] bytes. *)
Definition writes (estimate : Z) (transform : M (list Z) Z) (d : list Z) : Prop :=
  forall l, estimate <= lengthZ l -> exists l', transform l = Ok (lengthZ d, l') /\ slice l' 0 (lengthZ d) = d.

Lemma message_capacity_enough n b : 0 <= n -> n <= message_capacity (n + sizeof_Message) b.
Proof using.
  intros Hn. unfold message_capacity. destruct b; [|lia]. unfold getMemoryBlockIndex, bits_set.
  set (x := n + sizeof_Message). change 15 with (2 ^ 4 - 1). rewrite (land_low x 4) by lia.
  rewrite Z.shiftl_mul_pow2, Z.shiftr_div_pow2 by lia. change (2 ^ 4) with 16.
  pose proof (Z.div_mod x 16 ltac:(lia)). pose proof (Z.mod_pos_bound x 16 ltac:(lia)).
  destruct (Z.eqb_spec (x mod 16) 0); simpl negb; unfold sizeof_Message in *; lia.
Qed.

(** ** One call of send *)

Lemma slice_split (d : list Z) n : 0 <= n <= lengthZ d -> slice d 0 n ++ slice d n (lengthZ d - n) = d.
Proof using.
  intros Hn. pose proof (slice_app d 0 n (lengthZ d - n)) as E. rewrite Z.add_0_l in E.
  rewrite <- E by lia. replace (n + (lengthZ d - n)) with (lengthZ d) by lia. apply slice_whole.
Qed.

(** What a call of send on an open socket does with the bytes [d]. *)
Lemma sys_send_spec d s : isClosed s = false ->
  wp nothing (sys_send d) (fun r s' => exists k', s' = set_kernel k' s /\ fst (k_send d (kernel s)) = r /\
    match r with
    | Sent n => 0 <= n <= lengthZ d /\ k_out k' = k_out (kernel s) ++ slice d 0 n
    | _ => k_out k' = k_out (kernel s)
    end) s.
Proof using HL.
  intros Hopen. unfold sys_send. wp_step. apply wp_get. unfold id. rewrite Hopen.
  pose proof (k_send_out d (kernel s)) as Hout. pose proof (k_send_range d (kernel s)) as Hrange.
  destruct (k_send d (kernel s)) as [r k'] eqn:E. cbn [fst snd] in *.
  wp_step. apply wp_modify. apply wp_ret. exists k'. split; [done|]. split; [done|].
  destruct r; rewrite Hout, ?app_nil_r; eauto.
Qed.

Lemma want_writable_spec s (Q : unit -> Socket K -> Prop) : socket_ok s ->
  Q tt (set_poll (UV_READABLE + UV_WRITABLE) s) -> wp nothing want_writable Q s.
Proof using.
  intros Hok HQ. unfold want_writable. wp_step. apply wp_get. unfold id.
  destruct (ok_poll s Hok) as [E|E]; rewrite E; [by apply wp_modify|]. apply wp_ret.
  destruct s; simpl in *. by rewrite E.
Qed.

(** A message is taken whole, queued with what is left of it, or refused. *)
Lemma write_spec m s : socket_ok s -> isClosed s = false -> m_data m <> [] ->
  wp nothing (write m) (fun r s' => socket_ok s' /\ isClosed s' = false /\ shuttingDown s' = shuttingDown s /\
    match r with
    | Some queued => stream s' = stream s ++ m_data m /\ (queued = false -> messageQueue s' = [])
    | None => messageQueue s' = [] /\ stream s' = stream s /\ exists k, fst (k_send (m_data m) k) = SendError
    end) s.
Proof using HL.
  intros Hok Hopen Hne. unfold write. wp_step. apply wp_get. unfold id.
  destruct (messageQueue s) as [|m0 q] eqn:Eq.
  - wp_step. eapply wp_mono; [by apply sys_send_spec|]. intros r ? (k' & -> & Er & Hr).
    assert (socket_ok (set_kernel k' s)) as Hok1 by (by destruct Hok; constructor).
    destruct r as [n| |].
    + destruct Hr as [Hn Hout]. destruct (Z.eqb_spec n (lengthZ (m_data m))) as [->|Hlt].
      * apply wp_ret. rewrite slice_whole in Hout. unfold stream. cbn. rewrite Eq, Hout. cbn. rewrite !app_nil_r.
        by split_and!.
      * wp_step. apply want_writable_spec; [done|]. wp_step. apply wp_modify. apply wp_ret.
        split; [constructor; cbn; [constructor; [|done]|by right|done]|].
        { intros E%(f_equal lengthZ). cbn in E. rewrite slice_length in E by lia. change (lengthZ []) with 0 in E. lia. }
        split; [done|]. split; [done|]. unfold stream. cbn. rewrite Eq, Hout. cbn. rewrite !app_nil_r, <- app_assoc.
        by rewrite slice_split.
    + wp_step. apply want_writable_spec; [done|]. wp_step. apply wp_modify. apply wp_ret.
      split; [constructor; cbn; [by constructor|by right|done]|]. split; [done|]. split; [done|].
      unfold stream. cbn. rewrite Eq, Hr. cbn. by rewrite !app_nil_r.
    + apply wp_ret. split; [done|]. split; [done|]. split; [done|]. split; [done|].
      split; [|by eexists]. unfold stream. cbn. by rewrite Hr.
  - wp_step. apply wp_modify. apply wp_ret. split; [|split; [done|]].
    + destruct Hok as [Hm Hp Hw]. rewrite Eq in *. constructor; cbn; [|done|by intros _; apply Hw].
      rewrite app_comm_cons. apply Forall_app. split; [done|by constructor].
    + split; [done|]. unfold stream. cbn. rewrite Eq. cbn. rewrite map_app, concat_app. cbn.
      rewrite app_nil_r, <- !app_assoc. done.
Qed.

(** A callback neither touches the stream nor the queue. *)
Lemma run_callback_spec c b s (Q : unit -> Socket K -> Prop) :
  (forall k l, k_out k = k_out (kernel s) -> Q tt (mkSocket (fd s) (poll s) (shuttingDown s) (timer s) (messageQueue s) k l)) ->
  wp nothing (run_callback c b) Q s.
Proof using HL.
  intros HQ. destruct c; cbn [run_callback].
  - apply wp_ret. specialize (HQ (kernel s) (called s) eq_refl). by destruct s.
  - destruct b; [apply wp_ret; specialize (HQ (kernel s) (called s) eq_refl); by destruct s|].
    unfold shutdown. wp_step. apply wp_get. unfold id. destruct (isClosed s).
    + apply wp_ret. specialize (HQ (kernel s) (called s) eq_refl). by destruct s.
    + apply wp_modify. apply HQ, k_shutdown_out.
  - apply wp_modify. by apply HQ.
Qed.

(** Submitting a message: it joins the stream, unless send fails outright. *)
Lemma sendTransformed_spec estimate transform d c s :
  socket_ok s -> isClosed s = false -> 0 <= estimate -> d <> [] -> writes estimate transform d ->
  wp nothing (sendTransformed estimate transform c) (fun _ s' => socket_ok s' /\ isClosed s' = false /\ shuttingDown s' = shuttingDown s /\
    exists failed : bool, stream s' = stream s ++ (if failed then [] else d) /\ (failed = true -> exists k, fst (k_send d k) = SendError)) s.
Proof using HL.
  intros Hok Hopen Hest Hne Hw. unfold sendTransformed. wp_step. apply wp_get. unfold id.
  set (empty := match messageQueue s with [] => true | _ => false end).
  set (cap := message_capacity _ _). assert (estimate <= cap) by by apply message_capacity_enough.
  destruct (Hw (replicate (Z.to_nat cap) 0)) as (l' & -> & Hd); [unfold lengthZ; rewrite length_replicate; lia|].
  rewrite Hd. destruct (messageQueue s) as [|m0 q] eqn:Eq; subst empty; cbv iota.
  - wp_step. eapply wp_mono; [by apply (write_spec (mkMessage d c) s)|].
    intros r s1 (Hok1 & Hopen1 & Hsd & Hr).
    assert (forall k l, socket_ok (mkSocket (fd s1) (poll s1) (shuttingDown s1) (timer s1) (messageQueue s1) k l)) as Hsame
      by (intros; destruct Hok1; by constructor).
    destruct r as [[]|].
    + apply wp_ret. split; [done|]. split; [done|]. split; [done|]. exists false. by destruct Hr.
    + destruct Hr as [Hstr _]. apply run_callback_spec. intros k l Hk. split; [done|]. split; [done|]. split; [done|].
      exists false. split; [|done]. unfold stream in *. cbn. by rewrite Hk.
    + destruct Hr as (Hq & Hstr & Herr). apply run_callback_spec. intros k l Hk. split; [done|]. split; [done|]. split; [done|].
      exists true. rewrite app_nil_r. unfold stream in *. cbn. by rewrite Hk.
  - apply wp_modify. split; [|split; [done|]].
    + destruct Hok as [Hm Hp Hwait]. rewrite Eq in *. constructor; cbn; [|done|by intros _; apply Hwait].
      rewrite app_comm_cons. apply Forall_app. split; [done|by constructor].
    + split; [done|]. exists false. split; [|done]. unfold stream. cbn. rewrite Eq. cbn. rewrite map_app, concat_app. cbn.
      by rewrite app_nil_r, <- !app_assoc.
Qed.

(** Giving up the messages. *)
Lemma cancel_messages_spec q (s : Socket K) : wp nothing (cancel_messages q) (fun _ s' => fd s' = fd s /\ shuttingDown s' = shuttingDown s) s.
Proof using HL.
  revert s. induction q as [|m q IH]; intros s; cbn [cancel_messages]; [by apply wp_ret|].
  wp_step. apply run_callback_spec. intros k l _. wp_step. apply wp_modify. eapply wp_mono; [apply IH|]. done.
Qed.

(** ** The writable socket *)

Definition queued s : Z := lengthZ (concat (map m_data (messageQueue s))).

(** The kernel reports no error, and goes on taking bytes. *)
Definition alive : Prop := forall d (k : K), fst (k_send d k) <> SendError.

Definition taking : Prop := forall d (k : K), d <> [] -> exists n, 0 < n /\ fst (k_send d k) = Sent n.

(** The loop over the queue keeps the stream; each call of send that takes some
    bytes makes the queue shorter. *)
Lemma writable_round_spec s : socket_ok s -> isClosed s = false -> messageQueue s <> [] ->
  wp nothing (writable_round tt) (fun r s' => isClosed s' = false /\ shuttingDown s' = shuttingDown s /\ stream s' = stream s /\ queued s' <= queued s /\
    match r with
    | inl _ => socket_ok s' /\ messageQueue s' <> [] /\ length (messageQueue s) = S (length (messageQueue s'))
    | inr ended => (ended = true -> ~ alive) /\ socket_ok s'
    end /\ (taking -> queued s' < queued s)) s.
Proof using HL.
  intros Hok Hopen Hq. unfold writable_round. wp_step. apply wp_get. unfold id.
  destruct (messageQueue s) as [|m q] eqn:Eq; [done|].
  pose proof (ok_messages s Hok) as Hm. rewrite Eq in Hm. apply Forall_cons in Hm as [Hm Hqs].
  pose proof (ok_waiting s Hok ltac:(by rewrite Eq)) as Hpoll.
  assert (0 < lengthZ (m_data m)) as Hpos by (destruct (m_data m); [done|]; rewrite lengthZ_cons; pose proof (lengthZ_nonneg l); lia).
  assert (queued s = lengthZ (m_data m) + lengthZ (concat (map m_data q))) as Equ by (unfold queued; rewrite Eq; apply lengthZ_app).
  assert (stream s = k_out (kernel s) ++ m_data m ++ concat (map m_data q)) as Estr by (unfold stream; by rewrite Eq).
  wp_step. eapply wp_mono; [by apply sys_send_spec|]. intros r s1 (k' & -> & Er & Hr).
  assert (taking -> exists n, 0 < n /\ r = Sent n) as Htaking.
  { intros Ht. destruct (Ht (m_data m) (kernel s) Hm) as (n & Hn & En). exists n. by rewrite <- Er. }
  destruct r as [n| |].
  - destruct Hr as [Hn Hout]. destruct (Z.eqb_spec n (lengthZ (m_data m))) as [->|Hlt].
    + rewrite slice_whole in Hout. wp_step. apply run_callback_spec. intros k l Hk. cbn in Hk.
      wp_step. apply wp_modify.
      set (s2 := set_messageQueue q _).
      assert (stream s2 = stream s) as Estr2 by (rewrite Estr; unfold stream; cbn; by rewrite Hk, Hout, <- app_assoc).
      assert (queued s2 = lengthZ (concat (map m_data q))) as Equ2 by done.
      destruct q as [|m2 q2].
      * wp_step. apply wp_modify. apply wp_ret. change (lengthZ (concat (map m_data []))) with 0 in *.
        assert (queued (set_poll UV_READABLE s2) = 0) by done. split; [done|]. split; [done|]. split; [done|]. split; [lia|].
        split; [|lia]. split; [done|]. constructor; [done|by left|done].
      * apply wp_ret. split; [done|]. split; [done|]. split; [done|]. split; [lia|]. split; [|lia].
        split; [|done]. constructor; [done|by right|done].
    + wp_step. apply wp_modify. apply wp_ret.
      set (s2 := set_messageQueue _ _).
      assert (queued s2 = queued s - n) as Equ2.
      { rewrite Equ. unfold queued. cbn. rewrite lengthZ_app, slice_length by lia. lia. }
      split; [done|]. split; [done|]. split; [|split; [lia|split]].
      * rewrite Estr. unfold stream. cbn. rewrite Hout, <- !app_assoc. f_equal. rewrite app_assoc. by rewrite slice_split.
      * split; [done|]. constructor; cbn; [constructor; [|done]|by right|done].
        intros E%(f_equal lengthZ). cbn in E. rewrite slice_length in E by lia. change (lengthZ []) with 0 in E. lia.
      * intros (n' & Hn' & [= ->])%Htaking. lia.
  - apply wp_ret. split; [done|]. split; [done|]. split; [rewrite Estr; unfold stream; cbn; by rewrite Eq, Hr|].
    split; [done|]. split; [split; [done|]; destruct Hok; by constructor|]. intros (? & ? & ?)%Htaking. done.
  - apply wp_ret. split; [done|]. split; [done|]. split; [rewrite Estr; unfold stream; cbn; by rewrite Eq, Hr|].
    split; [done|]. split; [split; [by intros _ Ha; apply Ha in Er|]; destruct Hok; by constructor|]. intros (? & ? & ?)%Htaking. done.
Qed.

Lemma on_writable_spec s : socket_ok s -> isClosed s = false ->
  wp nothing on_writable (fun ended s' => (ended = true -> ~ alive) /\ socket_ok s' /\ isClosed s' = false /\
    shuttingDown s' = shuttingDown s /\ stream s' = stream s /\ (taking -> messageQueue s = [] \/ queued s' < queued s)) s.
Proof using HL.
  intros Hok Hopen. unfold on_writable. wp_step. apply wp_get. unfold id.
  destruct (messageQueue s) as [|m q] eqn:Eq; [apply wp_ret; split_and!; try done; by left|]. rewrite <- Eq.
  assert (messageQueue s <> []) as Hne by (by rewrite Eq).
  cbn [iter]. wp_step. eapply wp_mono; [by apply writable_round_spec|].
  intros r s1 (Hopen1 & Esd & Estr & Hle & Hr & Hlt). destruct r as [[]|ended].
  - destruct Hr as (Hok1 & Hne1 & Elen). rewrite Elen.
    apply (wp_iter _ _ (fun _ s' => socket_ok s' /\ isClosed s' = false /\ messageQueue s' <> [] /\ shuttingDown s' = shuttingDown s /\ stream s' = stream s /\
        (taking -> queued s' < queued s)) (fun _ s' => length (messageQueue s'))); [|split_and!; try done|lia].
    intros [] s2 (Hok2 & Hopen2 & Hne2 & Esd2 & Estr2 & Hlt2). eapply wp_mono; [by apply writable_round_spec|].
    intros r s3 (Hopen3 & Esd3 & Estr3 & Hle3 & Hr3 & Hlt3). destruct r as [[]|ended].
    + destruct Hr3 as (Hok3 & Hne3 & Elen3). split; [|lia]. split_and!; try done; [by rewrite Esd3|by rewrite Estr3|].
      intros Ht. specialize (Hlt2 Ht). lia.
    + destruct Hr3 as [He Hok3]. split_and!; try done; [by rewrite Esd3|by rewrite Estr3|]. intros Ht. right. specialize (Hlt2 Ht). lia.
  - destruct Hr as [He Hok1]. apply wp_ret. split_and!; try done. intros Ht. right. by apply Hlt.
Qed.

(** ** Sequences of events *)

(** The application submits a message, or the socket becomes writable. *)
Inductive event := Submit (estimate : Z) (transform : M (list Z) Z) (d : list Z) (c : Callback) | Writable.

Definition event_ok (e : event) : Prop :=
  match e with
  | Submit estimate transform d c => 0 <= estimate /\ d <> [] /\ writes estimate transform d
  | Writable => True
  end.

Definition submitted (e : event) : list Z := match e with Submit _ _ d _ => d | Writable => [] end.

Definition run_event (e : event) : M (Socket K) unit :=
  match e with
  | Submit estimate transform d c => sendTransformed estimate transform c
  | Writable => on_writable ;; ret tt
  end.

Fixpoint run_events (es : list event) : M (Socket K) unit :=
  match es with [] => ret tt | e :: es => run_event e ;; run_events es end.

Lemma run_events_spec es s : socket_ok s -> isClosed s = false -> alive -> Forall event_ok es ->
  wp nothing (run_events es) (fun _ s' => socket_ok s' /\ isClosed s' = false /\
    stream s' = stream s ++ concat (map submitted es)) s.
Proof using HL.
  intros Hok Hopen Halive Hes. revert s Hok Hopen. induction Hes as [|e es He _ IH]; intros s Hok Hopen; cbn [run_events].
  - apply wp_ret. cbn. by rewrite app_nil_r.
  - wp_step. apply wp_mono with (fun _ s1 => socket_ok s1 /\ isClosed s1 = false /\ stream s1 = stream s ++ submitted e).
    + destruct e as [estimate transform d c|]; cbn [run_event submitted].
      * destruct He as (Hest & Hd & Hw). eapply wp_mono; [by apply (sendTransformed_spec _ _ d)|].
        intros _ s1 (? & ? & _ & [] & Estr & Hf); [|done]. destruct Hf as [k Hk]; [done|]. by apply Halive in Hk.
      * wp_step. eapply wp_mono; [by apply on_writable_spec|]. intros b s1 (_ & ? & ? & _ & Estr & _). apply wp_ret.
        by rewrite app_nil_r.
    + intros _ s1 (Hok1 & Hopen1 & Estr). eapply wp_mono; [by apply IH|]. intros _ s2 (? & ? & Estr2).
      split; [done|]. split; [done|]. rewrite Estr2, Estr, <- app_assoc. done.
Qed.

Lemma queued_pos s : socket_ok s -> messageQueue s <> [] -> 0 < queued s.
Proof using.
  intros Hok Hne. unfold queued. pose proof (ok_messages s Hok) as Hm. destruct (messageQueue s) as [|m q]; [done|].
  apply Forall_cons in Hm as [Hm _]. cbn. rewrite lengthZ_app. destruct (m_data m); [done|]. rewrite lengthZ_cons.
  pose proof (lengthZ_nonneg l). pose proof (lengthZ_nonneg (concat (map m_data q))). lia.
Qed.

Lemma drain_spec n s : socket_ok s -> isClosed s = false -> taking -> queued s <= Z.of_nat n ->
  wp nothing (run_events (replicate n Writable)) (fun _ s' => messageQueue s' = [] /\ k_out (kernel s') = stream s) s.
Proof using HL.
  intros Hok Hopen Ht. revert s Hok Hopen. induction n as [|n IH]; intros s Hok Hopen Hle; cbn [replicate run_events].
  - assert (messageQueue s = []) as Eq.
    { destruct (messageQueue s) eqn:Eq; [done|]. pose proof (queued_pos s Hok ltac:(by rewrite Eq)). lia. }
    apply wp_ret. split; [done|]. unfold stream. rewrite Eq. cbn. by rewrite app_nil_r.
  - destruct (messageQueue s) eqn:Eq.
    { assert (run_event Writable s = Ok (tt, s)) as E by (unfold run_event, on_writable, bind, get, id; by rewrite Eq).
      unfold wp, bind. rewrite E. apply IH; [done..|]. unfold queued. rewrite Eq. change (lengthZ (concat (map m_data []))) with 0. lia. }
    unfold run_event. wp_step. wp_step. eapply wp_mono; [by apply on_writable_spec|].
    intros b s1 (_ & Hok1 & Hopen1 & _ & Estr & Hlt). apply wp_ret. rewrite <- Estr. apply IH; [done..|].
    destruct (Hlt Ht) as [Eq2|Hq]; [by rewrite Eq in Eq2|lia].
Qed.

End Spec.

(** C20: the queue of a socket is a lossless stream.  However the messages that the
    application submits and the events that the socket is writable follow each
    other, and whatever part of a message each call of send takes, as long as the
    kernel reports no error: the bytes the kernel has taken, followed by those in
    the queue, are those of the messages in the order in which they were
    submitted, and while the queue is not empty the socket is polled until it is
    writable. *)
Theorem Socket_stream {K} {HK : Kernel K} {HL : KernelLaws K} es (s : Socket K) :
  alive (K := K) -> Forall event_ok es -> isClosed s = false -> messageQueue s = [] -> poll s = UV_READABLE ->
  exists s', run_events es s = Ok (tt, s') /\
    k_out (kernel s') ++ concat (map m_data (messageQueue s')) = k_out (kernel s) ++ concat (map submitted es) /\
    (messageQueue s' <> [] -> bits_set (poll s') UV_WRITABLE = true).
Proof.
  intros Halive Hes Hopen Eq Epoll. assert (socket_ok s) as Hok by (constructor; rewrite ?Eq; [constructor|by left|done]).
  destruct (wp_total _ _ _ (run_events_spec es s Hok Hopen Halive Hes)) as ([] & s' & E & Hok' & _ & Estr).
  exists s'. split; [done|]. unfold stream in Estr. rewrite Eq in Estr. cbn in Estr. rewrite app_nil_r in Estr.
  split; [done|]. intros Hne. by rewrite (ok_waiting s' Hok' Hne).
Qed.


(** ** A kernel that takes at most three bytes at a time *)

#[global] Instance slow_kernel : Kernel (list Z) := {
  k_send data k := (Sent (Z.min 3 (lengthZ data)), k ++ slice data 0 (Z.min 3 (lengthZ data)));
  k_shutdown k := k;
  k_out k := k
}.

#[global] Instance slow_kernel_laws : KernelLaws (list Z).
Proof.
  constructor; cbn; [done| |done]. intros data _ n [= <-]. pose proof (lengthZ_nonneg data). lia.
Qed.

Definition copy_message (d : list Z) : event := Submit (lengthZ d) (store_bytes 0 d ;; ret (lengthZ d)) d NoCallback.

Lemma copy_message_ok d : d <> [] -> event_ok (copy_message d).
Proof.
  intros Hd. split; [apply lengthZ_nonneg|]. split; [done|]. intros l Hl. exists (splice l 0 d).
  assert (in_block l 0 (lengthZ d) = true) as Hin by (apply in_block_spec; pose proof (lengthZ_nonneg d); lia).
  unfold bind, store_bytes, bind, get, id, require. rewrite Hin. by split; [|apply splice_same].
Qed.

Definition new_socket : Socket (list Z) := mkSocket 7 UV_READABLE false false [] [] [].

Definition sample_events : list event := [copy_message [1; 2; 3; 4; 5]; copy_message [6]; Writable; copy_message [7; 8; 9; 10]].

Lemma sample_events_ok : Forall event_ok sample_events.
Proof. repeat constructor; try done; by apply copy_message_ok. Qed.

Lemma Socket_stream_witness :
  exists s', run_events sample_events new_socket = Ok (tt, s') /\
    k_out (kernel s') ++ concat (map m_data (messageQueue s')) = k_out (kernel new_socket) ++ concat (map submitted sample_events) /\
    (messageQueue s' <> [] -> bits_set (poll s') UV_WRITABLE = true).
Proof. apply (Socket_stream sample_events new_socket); [done|apply sample_events_ok|done..]. Defined.

