(* ===== verification/WebSocketFormat.v ===== *)
(** * Formatting is encoding

    [formatMessage] of src/libuws/include/WebSocketProtocol.h writes the encoding
    of one frame, and [parseClosePayload] inverts [formatClosePayload]. *)

From S2P Require Import Prelude Memory Buffer Utf8 WebSocketProtocol Masking WebSocketFrames WebSocketProtocolSpec SocketSpec.

(** ** Writing next to what is there *)

Lemma here_stored l a bs : in_block l a (lengthZ bs) = true -> here (splice l a bs) a bs.
Proof.
  intros Hin. split; [|by apply splice_same]. apply in_block_spec. rewrite splice_length by done. by apply in_block_spec.
Qed.

Lemma here_kept l a bs b x : in_block l a (lengthZ bs) = true -> here l b x ->
  b + lengthZ x <= a \/ a + lengthZ bs <= b -> here (splice l a bs) b x.
Proof.
  intros Hin [Hx Ex] Hdis. apply in_block_spec in Hx as Hx'. split.
  - apply in_block_spec. by rewrite splice_length.
  - destruct Hdis; [rewrite splice_before|rewrite splice_after]; (done || lia).
Qed.

Lemma here_in l a bs : here l a bs -> 0 <= a /\ a + lengthZ bs <= lengthZ l.
Proof. intros [H%in_block_spec _]. lia. Qed.

Lemma here_cons l a x t : here l a [x] -> here l (a + 1) t -> here l a (x :: t).
Proof. intros. change (x :: t) with ([x] ++ t). by apply here_app. Qed.

(** ** Frames that are sent *)

Definition form_of (n : Z) : length_form := if n <? 126 then Short else if n <=? 65535 then Medium else Long.

(** The frame of a message; the sender's [random] is its mask. *)
Definition sent_frame (isServer : bool) (random op : Z) (msg : list Z) (compressed : bool) : frame :=
  mkFrame true (if compressed then 4 else 0) op (form_of (lengthZ msg)) (negb isServer) (le_split 4 random) msg.

Lemma sent_frame_ok isServer random op msg compressed : 0 <= op < 16 -> Forall is_byte msg -> lengthZ msg < 2 ^ 64 ->
  frame_ok (sent_frame isServer random op msg compressed).
Proof.
  intros. constructor; cbn -[le_split]; [by destruct compressed|done|apply lengthZ_le_split|apply le_split_bytes|done|].
  unfold f_length, form_of. cbn. repeat case_match; cbn; lia.
Qed.

(** The length field. *)
Lemma write_length isServer random op msg compressed l :
  let f := sent_frame isServer random op msg compressed in
  lengthZ msg < 2 ^ 64 -> lengthZ msg + 10 <= lengthZ l ->
  wp nothing (if lengthZ msg <? 126 then store (0 + 1) (u8 (lengthZ msg)) ;; ret 2
     else if lengthZ msg <=? 65535 then store (0 + 1) 126 ;; store_bytes (0 + 2) (be_split 2 (u16 (lengthZ msg))) ;; ret 4
     else store (0 + 1) 127 ;; store_bytes (0 + 2) (be_split 8 (u64 (lengthZ msg))) ;; ret 10)
    (fun h l' => lengthZ l' = lengthZ l /\ h = 2 + lengthZ (length_bytes f) /\ here l' 1 (length7 f :: length_bytes f)) l.
Proof.
  intros f Hmax Hlen. pose proof (lengthZ_nonneg msg) as H0. subst f. unfold length_bytes, length7, f_length, form_of. cbn [f_form f_payload sent_frame].
  unfold form_of. destruct (Z.ltb_spec (lengthZ msg) 126); [|destruct (Z.leb_spec (lengthZ msg) 65535)].
  - wp_step. assert (in_block l 1 1 = true) as Hin by (apply in_block_spec; lia). apply wp_store; [done|]. apply wp_ret.
    rewrite splice_length by done. rewrite uwrap_small by (unfold in_unsigned; lia).
    split_and!; [done..|]. by apply here_stored.
  - rewrite uwrap_small by (unfold in_unsigned; lia).
    wp_step. assert (in_block l 1 1 = true) as Hin by (apply in_block_spec; lia). apply wp_store; [done|].
    assert (in_block (splice l 1 [126]) 2 (lengthZ (be_split 2 (lengthZ msg))) = true) as Hin2
      by (apply in_block_spec; rewrite splice_length, be_split_length by done; lia).
    wp_step. apply wp_store_bytes; [done|]. apply wp_ret. split; [by rewrite !splice_length|].
    split; [by rewrite be_split_length|]. apply here_cons.
    + apply here_kept; [done|by apply here_stored|]. change (lengthZ [126]) with 1. lia.
    + by apply here_stored.
  - rewrite uwrap_small by (unfold in_unsigned; lia).
    wp_step. assert (in_block l 1 1 = true) as Hin by (apply in_block_spec; lia). apply wp_store; [done|].
    assert (in_block (splice l 1 [127]) 2 (lengthZ (be_split 8 (lengthZ msg))) = true) as Hin2
      by (apply in_block_spec; rewrite splice_length, be_split_length by done; lia).
    wp_step. apply wp_store_bytes; [done|]. apply wp_ret. split; [by rewrite !splice_length|].
    split; [by rewrite be_split_length|]. apply here_cons.
    + apply here_kept; [done|by apply here_stored|]. change (lengthZ [127]) with 1. lia.
    + by apply here_stored.
Qed.

(** Bits that are set apart from each other. *)
Lemma lor_byte0 op (compressed : bool) : 0 <= op < 16 ->
  Z.lor (Z.lor 128 (if compressed then 64 else 0)) op = 128 + 16 * (if compressed then 4 else 0) + op.
Proof.
  intros Hop. apply Z.eqb_eq.
  assert (forallb (fun op => Z.lor (Z.lor 128 (if compressed then 64 else 0)) op =? 128 + 16 * (if compressed then 4 else 0) + op) (seqZ 0 16) = true) as H
    by (by destruct compressed).
  rewrite forallb_forall in H. apply H, list_elem_of_In, elem_of_seqZ. lia.
Qed.

Lemma lor_mask_bit n : 0 <= n < 128 -> Z.lor n 0x80 = 128 + n.
Proof.
  intros Hn. apply Z.eqb_eq.
  assert (forallb (fun n => Z.lor n 0x80 =? 128 + n) (seqZ 0 128) = true) as H by done.
  rewrite forallb_forall in H. apply H, list_elem_of_In, elem_of_seqZ. lia.
Qed.

Lemma wp_load_here b l a x (Q : Z -> list Z -> Prop) : here l a [x] -> Q x l -> wp b (load a) Q l.
Proof. intros H HQ. unfold wp. by rewrite (here_load l a x []). Qed.

(** Replacing the byte at [a] by [v]. *)
Lemma wp_store_here b l a x v (Q : unit -> list Z -> Prop) : here l a [x] ->
  (forall l', lengthZ l' = lengthZ l -> here l' a [v] ->
     (forall c y, here l c y -> c + lengthZ y <= a \/ a + 1 <= c -> here l' c y) -> Q tt l') ->
  wp b (store a v) Q l.
Proof.
  intros [Hin _] HQ. assert (in_block l a (lengthZ [v]) = true) as Hin' by done.
  apply wp_store; [done|]. apply HQ; [by apply splice_length|by apply here_stored|].
  intros c y Hy Hdis. by apply here_kept.
Qed.

Lemma here_byte l a : 0 <= a < lengthZ l -> here l a [byte_at l a].
Proof.
  intros Ha. assert (in_block l a 1 = true) as Hin by (apply in_block_spec; lia). split; [done|].
  change (lengthZ [byte_at l a]) with 1. by rewrite slice_S, slice_0 by lia.
Qed.

Lemma wp_store_bytes_here b l a bs (Q : unit -> list Z -> Prop) : in_block l a (lengthZ bs) = true ->
  (forall l', lengthZ l' = lengthZ l -> here l' a bs ->
     (forall c y, here l c y -> c + lengthZ y <= a \/ a + lengthZ bs <= c -> here l' c y) -> Q tt l') ->
  wp b (store_bytes a bs) Q l.
Proof.
  intros Hin HQ. apply wp_store_bytes; [done|]. apply HQ; [by apply splice_length|by apply here_stored|].
  intros c y Hy Hdis. by apply here_kept.
Qed.

(** Masking what is there. *)
Lemma wp_mask_here b m msg l a (Q : unit -> list Z -> Prop) : lengthZ msg < 2 ^ 31 -> here l a msg ->
  (forall l', here l' a (masked m 0 msg) -> (forall c y, here l c y -> c + lengthZ y <= a -> here l' c y) -> Q tt l') ->
  wp b (mask_loop (Z.to_nat (lengthZ msg)) a 0 m) Q l.
Proof.
  intros Hmax [Hin E] HQ. pose proof (lengthZ_nonneg msg).
  assert (lengthZ (masked m 0 msg) = lengthZ msg) as Emask by apply masked_length.
  apply wp_mask_loop; rewrite ?Z2Nat.id by done; [lia..|done|].
  unfold masked_copy. rewrite E. apply HQ; [apply here_stored; by rewrite Emask|].
  intros c y Hy Hle. apply here_kept; [by rewrite Emask|done|by left].
Qed.

(** A message is written as its frame, to any block that has room for it. *)
Lemma formatMessage_writes isServer random op msg compressed :
  0 <= op < 16 -> Forall is_byte msg -> lengthZ msg < 2 ^ 31 ->
  writes (lengthZ msg + LONG_MESSAGE_HEADER (negb isServer))
    (formatMessage isServer random 0 msg op (lengthZ msg) compressed)
    (encode_frame (negb isServer) (sent_frame isServer random op msg compressed)).
Proof.
  intros Hop Hmsg Hmax l Hlen. set (f := sent_frame isServer random op msg compressed).
  assert (frame_ok f) as Hf by (apply sent_frame_ok; [done..|lia]).
  pose proof (lengthZ_nonneg msg) as H0. pose proof (length7_range f Hf) as H7.
  assert (10 <= LONG_MESSAGE_HEADER (negb isServer)) as HL by (by destruct isServer).
  assert (0 <= lengthZ (length_bytes f) <= 8) as H8 by (unfold length_bytes; destruct (f_form f); rewrite ?be_split_length; split; done).
  assert (wp nothing (formatMessage isServer random 0 msg op (lengthZ msg) compressed)
    (fun n l' => n = lengthZ (encode_frame (negb isServer) f) /\ here l' 0 (encode_frame (negb isServer) f)) l) as H.
  2: { apply wp_total in H as (n & l' & E & -> & [_ Hh]). by exists l'. }
  unfold formatMessage. wp_step. eapply wp_mono; [apply (write_length isServer random op msg compressed); lia|].
  fold f. intros h l1 (Elen1 & -> & H1). cbv zeta.
  change (bits_set 0 SND_NO_FIN) with false. change (bits_set 0 SND_CONTINUATION) with false. cbn [negb].
  wp_step. eapply wp_store_here; [apply here_byte; lia|]. intros l2 Elen2 Hx Hkeep2.
  wp_step. wp_step. eapply wp_load_here; [done|]. eapply wp_store_here; [done|]. intros l3 Elen3 Hb0 Hkeep3.
  unfold SND_COMPRESSED in Hb0. rewrite lor_byte0 in Hb0 by done. fold (byte0 f) in Hb0.
  assert (here l3 1 (length7 f :: length_bytes f)) as H3 by (apply Hkeep3; [apply Hkeep2; [done|right; lia]|right; lia]).
  assert (lengthZ l3 = lengthZ l) as Elen by lia.
  destruct isServer; cbn [negb] in *.
  - wp_step. apply wp_ret. set (h := 2 + lengthZ (length_bytes f)).
    assert (in_block l3 (0 + h) (lengthZ msg) = true) as Hin by (apply in_block_spec; lia).
    wp_step. apply wp_store_bytes; [done|]. wp_step. apply wp_ret. apply wp_ret.
    unfold encode_frame, header. cbn [app]. rewrite app_nil_r, !lengthZ_cons, lengthZ_app. split; [subst h; unfold wire_payload; cbn; lia|].
    rewrite !app_comm_cons. apply here_app. split.
    + apply here_kept; [done| |left; rewrite !lengthZ_cons; subst h; lia]. by apply here_cons.
    + rewrite !lengthZ_cons. replace (0 + (1 + (1 + lengthZ (length_bytes f)))) with (0 + h) by (subst h; lia).
      by apply here_stored.
  - change (length7 f :: length_bytes f) with ([length7 f] ++ length_bytes f) in H3. apply here_app in H3 as [Hb1 Hext].
    wp_step. wp_step. eapply wp_load_here; [done|]. wp_step. eapply wp_store_here; [done|]. intros l4 Elen4 Hb1' Hkeep4.
    rewrite lor_mask_bit in Hb1' by done.
    set (h := 2 + lengthZ (length_bytes f)) in *. set (m := le_split 4 random).
    assert (lengthZ m = 4) as Hm by apply lengthZ_le_split.
    change (LONG_MESSAGE_HEADER true) with 14 in Hlen.
    assert (here l4 0 [byte0 f]) as Hb0' by (apply Hkeep4; [done|left; change (lengthZ [byte0 f]) with 1; lia]).
    assert (here l4 2 (length_bytes f)) as Hext' by (apply Hkeep4; [done|right; lia]).
    wp_step. apply wp_store_bytes_here; [apply in_block_spec; lia|]. intros l5 Elen5 Hmask Hkeep5. apply wp_ret.
    wp_step. apply wp_store_bytes_here; [apply in_block_spec; lia|]. intros l6 Elen6 Hpay Hkeep6.
    wp_step. apply wp_mask_here; [done..|]. intros l7 Hpay7 Hkeep7. apply wp_ret.
    assert (forall c y, here l4 c y -> c + lengthZ y <= h -> here l7 c y) as Hkeep.
    { intros c y Hy Hle. apply Hkeep7; [|lia]. apply Hkeep6; [|left; lia]. apply Hkeep5; [done|left; lia]. }
    unfold encode_frame, header, wire_payload. cbn [f_mask f_payload f sent_frame].
    rewrite !lengthZ_app, !lengthZ_cons, !lengthZ_app, masked_length. fold m. rewrite Hm. split; [lia|].
    rewrite !app_comm_cons. apply here_app. split; [apply here_app; split|].
    + apply here_cons; [apply Hkeep; [done|change (lengthZ [byte0 f]) with 1; lia]|].
      apply here_cons; [apply Hkeep; [done|change (lengthZ [byte1 f]) with 1; lia]|].
      apply Hkeep; [done|lia].
    + rewrite !lengthZ_cons. replace (0 + (1 + (1 + lengthZ (length_bytes f)))) with (0 + h) by lia.
      apply Hkeep7; [|lia]. apply Hkeep6; [done|left; lia].
    + rewrite lengthZ_app, !lengthZ_cons, Hm. by replace (0 + (1 + (1 + lengthZ (length_bytes f)) + 4)) with (0 + (h + 4)) by lia.
Qed.
