(* ===== verification/WebSocket.v ===== *)
(** * WebSockets

    src/libuws/src/WebSocket.cpp, src/libuws/include/WebSocket.h and the parts of
    src/libuws/src/Hub.cpp and src/libuws/include/Socket.h they use: sending a
    message, the two ways to close a connection, the handling of the fragments
    the parser hands over, and what happens when the socket is readable.

    The application is a parameter: its handlers change its own state and ask for
    actions on the socket, which are performed in order.  zlib and rand are
    parameters too.  The library is taken as it is built by default, without
    UWS_THREADSAFE, and without TLS. *)

From S2P Require Import Prelude Memory Buffer Utf8 WebSocketProtocol Socket.

(** ** Parameters *)

(** What a handler does with the socket it gets. *)
Inductive Action :=
| Send (data : list Z) (opCode : Z) (callback : Callback)
| Close (code : Z) (message : list Z)
| Terminate.

(** The handlers of a group. *)
Class Application (U : Type) := {
  messageHandler : list Z -> Z -> U -> U * list Action;
  pingHandler : list Z -> U -> U * list Action;
  pongHandler : list Z -> U -> U * list Action;
  disconnectionHandler : Z -> list Z -> U -> U
}.

(** inflate(stream, Z_FINISH) on the input that is left, with room for so many
    bytes of output: the result, the input that is left, and the output. *)
Inductive zlib_result := Z_OK | Z_STREAM_END | Z_BUF_ERROR | Z_DATA_ERROR.

#[global] Instance zlib_result_eq : EqDecision zlib_result.
Proof. solve_decision. Defined.

Class Zlib (D : Type) := {
  z_inflate : list Z -> Z -> D -> (zlib_result * list Z * list Z) * D;
  z_reset : D -> D
}.

(** ** State *)

Inductive CompressionStatus := DISABLED | ENABLED | COMPRESSED_FRAME.
#[global] Instance CompressionStatus_eq : EqDecision CompressionStatus.
Proof. solve_decision. Defined.

(** struct WebSocket without the state of the parser.  [inGroup] is whether the
    socket is in the list of its group; [inflationStream] belongs to the hub;
    [rands] counts the calls of rand. *)
Record WebSocket (K U D : Type) := mkWebSocket {
  socket : Socket K;
  fragmentBuffer : list Z;
  compressionStatus : CompressionStatus;
  controlTipLength : Z;
  inGroup : bool;
  inflationStream : D;
  rands : nat;
  user : U
}.
Arguments mkWebSocket {K U D}.
Arguments socket {K U D}.
Arguments fragmentBuffer {K U D}.
Arguments compressionStatus {K U D}.
Arguments controlTipLength {K U D}.
Arguments inGroup {K U D}.
Arguments inflationStream {K U D}.
Arguments rands {K U D}.
Arguments user {K U D}.

Section WebSocket.
Context (isServer : bool) (rand : nat -> Z) (maxPayload : Z).
Context {K : Type} {HK : Kernel K} {U : Type} {HU : Application U} {D : Type} {HD : Zlib D}.
#[local] Abbreviation W := (WebSocket K U D).

Definition set_socket s (w : W) : W := mkWebSocket s (fragmentBuffer w) (compressionStatus w) (controlTipLength w) (inGroup w) (inflationStream w) (rands w) (user w).
Definition set_fragmentBuffer l (w : W) : W := mkWebSocket (socket w) l (compressionStatus w) (controlTipLength w) (inGroup w) (inflationStream w) (rands w) (user w).
Definition set_compressionStatus c (w : W) : W := mkWebSocket (socket w) (fragmentBuffer w) c (controlTipLength w) (inGroup w) (inflationStream w) (rands w) (user w).
Definition set_controlTipLength n (w : W) : W := mkWebSocket (socket w) (fragmentBuffer w) (compressionStatus w) (u8 n) (inGroup w) (inflationStream w) (rands w) (user w).
Definition set_inGroup b (w : W) : W := mkWebSocket (socket w) (fragmentBuffer w) (compressionStatus w) (controlTipLength w) b (inflationStream w) (rands w) (user w).
Definition set_inflationStream z (w : W) : W := mkWebSocket (socket w) (fragmentBuffer w) (compressionStatus w) (controlTipLength w) (inGroup w) z (rands w) (user w).
Definition set_rands n (w : W) : W := mkWebSocket (socket w) (fragmentBuffer w) (compressionStatus w) (controlTipLength w) (inGroup w) (inflationStream w) n (user w).
Definition set_user u (w : W) : W := mkWebSocket (socket w) (fragmentBuffer w) (compressionStatus w) (controlTipLength w) (inGroup w) (inflationStream w) (rands w) u.

Definition on_socket {A} (m : M (Socket K) A) : M W A := lift socket set_socket m.

(** ** Sending and closing *)

Definition rand_call : M W Z := w <- get id ;; modify (set_rands (S (rands w))) ;; ret (rand (rands w)).

Definition send (message : list Z) (opCode : Z) (callback : Callback) : M W unit :=
  random <- (if isServer then ret 0 else rand_call) ;;
  on_socket (sendTransformed (lengthZ message + LONG_MESSAGE_HEADER (negb isServer))
    (formatMessage isServer random 0 message opCode (lengthZ message) false) callback).

(** Group::removeWebSocket, as far as this socket is concerned.  The links of a
    socket that was removed point to sockets that may be gone. *)
Definition removeWebSocket : M W unit := w <- get id ;; require (inGroup w) ;; modify (set_inGroup false).

Definition disconnected (code : Z) (message : list Z) : M W unit :=
  modify (fun w => set_user (disconnectionHandler code message (user w)) w).

Definition MAX_CLOSE_PAYLOAD : Z := 123.

Definition close (code : Z) (message : list Z) : M W unit :=
  let message := slice message 0 (Z.min MAX_CLOSE_PAYLOAD (lengthZ message)) in
  removeWebSocket ;;
  disconnected code message ;;
  on_socket (modify (set_shuttingDown true)) ;;
  on_socket startTimeout ;;
  closePayload <- with_block (replicate (Z.to_nat (MAX_CLOSE_PAYLOAD + 2)) 0)
    (closePayloadLength <- formatClosePayload 0 (u16 code) message ;; load_bytes 0 closePayloadLength) ;;
  send closePayload CLOSE ShutdownCallback.

Definition onEnd : M W unit :=
  w <- get id ;;
  (if negb (shuttingDown (socket w)) then removeWebSocket ;; disconnected 1006 []
   else on_socket cancelTimeout) ;;
  on_socket closeSocket ;;
  w <- get id ;;
  on_socket (cancel_messages (messageQueue (socket w))).

Definition terminate : M W unit := onEnd.

(** ** Handlers *)

Definition run_action (a : Action) : M W unit :=
  match a with
  | Send data opCode callback => send data opCode callback
  | Close code message => close code message
  | Terminate => terminate
  end.

Fixpoint run_actions (l : list Action) : M W unit :=
  match l with [] => ret tt | a :: l => run_action a ;; run_actions l end.

Definition call_handler (h : U -> U * list Action) : M W unit :=
  w <- get id ;;
  let '(u, actions) := h (user w) in
  modify (set_user u) ;; run_actions actions.

(** [webSocket->isClosed() || webSocket->isShuttingDown()]. *)
Definition is_gone (w : W) : bool := isClosed (socket w) || shuttingDown (socket w).

(** ** Hub::inflate *)

Definition LARGE_BUFFER_SIZE : Z := 300 * 1024.

(** One round of the loop; [dynamic] is dynamicInflationBuffer and the value of the
    loop is the result of the last call and what that call put into inflationBuffer. *)
Definition inflate_round (max : Z) (l : list Z * list Z) : M W ((list Z * list Z) + (zlib_result * list Z * list Z)) :=
  let '(input, dynamic) := l in
  w <- get id ;;
  let '((err, avail_in, output), z) := z_inflate input LARGE_BUFFER_SIZE (inflationStream w) in
  modify (set_inflationStream z) ;;
  match avail_in with
  | [] => ret (inr (err, dynamic, output))
  | _ =>
      let dynamic := dynamic ++ output in
      if bool_decide (err = Z_BUF_ERROR) && (lengthZ dynamic <=? max)
      then ret (inl (avail_in, dynamic)) else ret (inr (err, dynamic, output))
  end.

(** Every round but the last adds to the dynamic buffer. *)
Definition inflate (data : list Z) (max : Z) : M W (option (list Z)) :=
  r <- iter (S (S (Z.to_nat max))) (inflate_round max) (data, []) ;;
  let '(err, dynamic, output) := r in
  w <- get id ;;
  modify (set_inflationStream (z_reset (inflationStream w))) ;;
  if (match err with Z_BUF_ERROR | Z_OK => false | _ => true end) || (max <? lengthZ dynamic) then ret None
  else match dynamic with [] => ret (Some output) | _ => ret (Some (dynamic ++ output)) end.

(** ** Fragments *)

Definition WebSocket_refusePayloadLength (length : Z) (w : W) : bool := maxPayload <? length.

Definition WebSocket_setCompressed : M W bool :=
  w <- get id ;;
  if decide (compressionStatus w = ENABLED) then modify (set_compressionStatus COMPRESSED_FRAME) ;; ret true
  else ret false.

(** The end of a message: true when the connection is given up.  (The dots the code
    appends to a compressed message in the buffer are not passed to inflate, and
    the buffer is cleared.) *)
Definition end_message (data : list Z) (opCode : Z) : M W bool :=
  w <- get id ;;
  let? data := (if decide (compressionStatus w = COMPRESSED_FRAME)
                then modify (set_compressionStatus ENABLED) ;; inflate data maxPayload
                else ret (Some data))
    else (terminate ;; ret true) in
  valid <- (if opCode =? 1 then with_block data (isValidUtf8 0 (lengthZ data)) else ret true) ;;
  if negb valid then terminate ;; ret true else
  call_handler (messageHandler data opCode) ;;
  get is_gone.

(** The end of a control frame. *)
Definition end_control (data : list Z) (opCode : Z) : M W bool :=
  if opCode =? CLOSE then
    closeFrame <- with_block data (parseClosePayload 0 (lengthZ data)) ;;
    close (code closeFrame) (message closeFrame) ;; ret true
  else if opCode =? PING then
    send data PONG NoCallback ;; call_handler (pingHandler data) ;; get is_gone
  else if opCode =? PONG then call_handler (pongHandler data) ;; get is_gone
  else ret false.

Definition WebSocket_handleFragment (data : list Z) (remainingBytes opCode : Z) (fin : bool) : M W bool :=
  w <- get id ;;
  let complete := (remainingBytes =? 0) && fin in
  if opCode <? 3 then
    if complete && (lengthZ (fragmentBuffer w) =? 0) then end_message data opCode
    else
      modify (set_fragmentBuffer (fragmentBuffer w ++ data)) ;;
      if complete then
        gone <- end_message (fragmentBuffer w ++ data) opCode ;;
        if gone : bool then ret true else modify (set_fragmentBuffer []) ;; ret false
      else ret false
  else if complete && (controlTipLength w =? 0) then end_control data opCode
  else
    modify (set_fragmentBuffer (fragmentBuffer w ++ data)) ;;
    modify (set_controlTipLength (controlTipLength w + lengthZ data)) ;;
    if complete then
      w <- get id ;;
      let start := lengthZ (fragmentBuffer w) - controlTipLength w in
      require (0 <=? start) ;;
      gone <- end_control (slice (fragmentBuffer w) start (controlTipLength w)) opCode ;;
      if gone : bool then ret true else
      modify (set_fragmentBuffer (slice (fragmentBuffer w) 0 start)) ;;
      modify (set_controlTipLength 0) ;; ret false
    else ret false.

#[global] Instance WebSocket_Impl : Impl W := {
  refusePayloadLength := WebSocket_refusePayloadLength;
  setCompressed := WebSocket_setCompressed;
  forceClose := terminate;
  handleFragment := WebSocket_handleFragment
}.

(** ** Data from the socket *)

(** A connection with the receive buffer of its node. *)
Record Connection := mkConnection { receiver : Receiver W; hasOutstandingPong : bool }.

Definition set_receiver r (c : Connection) : Connection := mkConnection r (hasOutstandingPong c).
Definition set_hasOutstandingPong b (c : Connection) : Connection := mkConnection (receiver c) b.

Definition on_receiver {A} (m : M (Receiver W) A) : M Connection A := lift receiver set_receiver m.

Definition onData (data length : Z) : M Connection unit :=
  modify (set_hasOutstandingPong false) ;;
  c <- get id ;;
  if negb (shuttingDown (socket (impl (receiver c)))) then on_receiver (consume isServer data length) else ret tt.

(** The Node of a Hub: where the buffer begins in its memory, and its length. *)
Definition recvBuffer : Z := CONSUME_PRE_PADDING true.
Definition recvLength : Z := LARGE_BUFFER_SIZE - CONSUME_PRE_PADDING true - CONSUME_POST_PADDING.

(** The readable part of ioHandler, when recv returns the bytes [chunk]; none at
    the end of the stream and on errors. *)
Definition on_readable (chunk : list Z) : M Connection unit :=
  match chunk with
  | [] => on_receiver (on_impl onEnd)
  | _ =>
      on_receiver (on_block (store_bytes recvBuffer chunk)) ;;
      onData recvBuffer (lengthZ chunk)
  end.

End WebSocket.
