(* ===== verification/WebSocketSpec.v ===== *)
(** * What a WebSocket promises

    The laws of src/libuws/src/WebSocket.cpp that the parser relies on, and the
    theorems about whole connections: the messages the application gets do not
    depend on how the stream of bytes was cut, a message that is sent arrives, and
    fragments and control frames may alternate. *)

From S2P Require Import Prelude Memory Buffer Utf8 WebSocketProtocol Masking WebSocketFrames WebSocketProtocolSpec.
From S2P Require Import Socket SocketSpec WebSocketFormat WebSocket.

(** An application that does nothing after it closed or terminated the connection,
    and sends bytes. *)
Fixpoint polite (l : list Action) : Prop :=
  match l with
  | [] => True
  | Send data op _ :: l => Forall is_byte data /\ lengthZ data < 2 ^ 31 /\ 0 <= op < 16 /\ polite l
  | [Close _ message] => Forall is_byte message
  | [Terminate] => True
  | _ => False
  end.

Class Polite (U : Type) {HU : Application U} := {
  polite_message d op u : Forall is_byte d -> polite (snd (messageHandler d op u));
  polite_ping d u : Forall is_byte d -> polite (snd (pingHandler d u));
  polite_pong d u : Forall is_byte d -> polite (snd (pongHandler d u))
}.

Section Spec.
Context (isServer : bool) (rand : nat -> Z) (maxPayload : Z) (Hmax : maxPayload < 2 ^ 32) (deflate : bool).
Context {K : Type} {HK : Kernel K} {HL : KernelLaws K}.
Context {U : Type} {HU : Application U} {HP : Polite U} {D : Type} {HD : Zlib D}.
Implicit Types (w : WebSocket K U D).

(** ** The fragment buffer is private

    The buffer and the length of the control frame in it are seen by
    [handleFragment] only. *)
Definition dress (b : list Z) (t : Z) w : WebSocket K U D :=
  mkWebSocket (socket w) b (compressionStatus w) t (inGroup w) (inflationStream w) (rands w) (user w).

Definition blind {A} (m : M (WebSocket K U D) A) : Prop :=
  forall b t w, m (dress b t w) = outcome_map (fun '(a, w) => (a, dress b t w)) (m w).

Lemma blind_bind {A B} (m : M _ A) (k : A -> M _ B) : blind m -> (forall a, blind (k a)) -> blind (bind m k).
Proof using.
  intros Hm Hk b t w. unfold bind. rewrite Hm. destruct (m w) as [[a w']| | |]; try done. apply Hk.
Qed.

Lemma blind_ret {A} (a : A) : blind (ret a).
Proof using. done. Qed.

(** A read of fields other than the two. *)
Lemma blind_get {A B} (f : _ -> A) (k : A -> M _ B) : (forall b t w, k (f (dress b t w)) = k (f w)) -> (forall a, blind (k a)) ->
  blind (bind (get f) k).
Proof using. intros E Hk b t w. unfold bind, get. rewrite E. apply Hk. Qed.

Lemma blind_modify f : (forall b t w, f (dress b t w) = dress b t (f w)) -> blind (modify f).
Proof using. intros E b t w. unfold modify. by rewrite E. Qed.

Lemma blind_require c : blind (require c).
Proof using. intros b t w. unfold require. by destruct c. Qed.

Lemma blind_socket {A} (m : M (Socket K) A) : blind (on_socket m).
Proof using. intros b t w. unfold on_socket, lift. cbn. by destruct (m (socket w)) as [[]| | |]. Qed.

Lemma blind_block {A} l (m : M (list Z) A) : blind (with_block l m).
Proof using. intros b t w. unfold with_block. by destruct (m l) as [[]| | |]. Qed.

Lemma blind_iter {L R} n (body : L -> M _ (L + R)) l : (forall l, blind (body l)) -> blind (iter n body l).
Proof using.
  intros H. revert l. induction n as [|n IH]; intros l; [done|]. cbn [iter]. apply blind_bind; [done|]. by intros [|]; [|apply blind_ret].
Qed.

Create HintDb blind.
Ltac blind :=
  repeat first
    [ done | solve [auto with blind nocore] | apply blind_ret | apply blind_socket | apply blind_block | apply blind_require
    | apply blind_modify; done | apply blind_get; [done|intros ?] | apply blind_bind; [|intros ?] | case_match ].

Lemma blind_send d op c : blind (send isServer rand d op c).
Proof using. unfold send, rand_call. blind. Qed.
#[local] Hint Resolve blind_send : blind.

Lemma blind_close code d : blind (close isServer rand code d).
Proof using. unfold close, removeWebSocket, disconnected. blind. Qed.
#[local] Hint Resolve blind_close : blind.

Lemma blind_onEnd : blind onEnd.
Proof using. unfold onEnd, removeWebSocket, disconnected. blind. Qed.
#[local] Hint Resolve blind_onEnd : blind.

Lemma blind_actions l : blind (run_actions isServer rand l).
Proof using.
  induction l as [|a l IH]; [done|]. cbn [run_actions]. apply blind_bind; [|done].
  destruct a; [apply blind_send|apply blind_close|apply blind_onEnd].
Qed.
#[local] Hint Resolve blind_actions : blind.

Lemma blind_handler h : blind (call_handler isServer rand h).
Proof using. unfold call_handler. blind. Qed.
#[local] Hint Resolve blind_handler : blind.

Lemma blind_inflate d n : blind (inflate d n).
Proof using. unfold inflate. apply blind_bind; [|intros ?; blind]. apply blind_iter. intros ?. unfold inflate_round. blind. Qed.
#[local] Hint Resolve blind_inflate : blind.

Lemma blind_message d op : blind (end_message isServer rand maxPayload d op).
Proof using. unfold end_message, terminate. blind. Qed.

Lemma blind_control d op : blind (end_control isServer rand d op).
Proof using. unfold end_control. blind. Qed.

(** ** Sending and closing *)

Definition live w : Prop := socket_ok (socket w) /\ isClosed (socket w) = false.

Definition next_random w : Z := if isServer then 0 else rand (rands w).

Lemma send_spec d op c w (Q : unit -> WebSocket K U D -> Prop) :
  live w -> Forall is_byte d -> lengthZ d < 2 ^ 31 -> 0 <= op < 16 ->
  (forall s n (failed : bool), socket_ok s -> isClosed s = false -> shuttingDown s = shuttingDown (socket w) ->
     stream s = stream (socket w) ++ (if failed then [] else encode_frame (negb isServer) (sent_frame isServer (next_random w) op d false)) ->
     (failed = true -> ~ alive (K := K)) -> Q tt (set_socket s (set_rands n w))) ->
  wp nothing (send isServer rand d op c) Q w.
Proof using HL.
  intros [Hok Hopen] Hd Hlen Hop HQ. unfold send. wp_step.
  apply wp_mono with (fun x w' => x = next_random w /\ exists n, w' = set_rands n w).
  { unfold next_random, rand_call. destruct isServer; [apply wp_ret; split; [done|]; exists (rands w); by destruct w|].
    wp_step. apply wp_get. wp_step. apply wp_modify. apply wp_ret. eauto. }
  intros x ? (-> & n & ->). unfold on_socket. apply wp_lift.
  pose proof (lengthZ_nonneg d). assert (0 <= LONG_MESSAGE_HEADER (negb isServer)) by (by destruct isServer).
  eapply wp_mono; [apply sendTransformed_spec; [done|done|lia| |by apply formatMessage_writes]|].
  - unfold encode_frame, header. done.
  - intros [] s (Hok' & Hopen' & Hsd & failed & Hstr & Hf). apply (HQ s n failed); try done.
    intros [k Hk]%Hf Ha. by apply Ha in Hk.
Qed.

Lemma closePayload_spec code msg : Forall is_byte msg -> lengthZ msg <= MAX_CLOSE_PAYLOAD ->
  exists d l', (closePayloadLength <- formatClosePayload 0 code msg ;; load_bytes 0 closePayloadLength)
    (replicate (Z.to_nat (MAX_CLOSE_PAYLOAD + 2)) 0) = Ok (d, l') /\
    d = (if code =? 0 then [] else be_split 2 code ++ msg).
Proof using.
  intros Hmsg Hlen. set (l := replicate _ 0). assert (lengthZ l = 125) as Hl by done. unfold MAX_CLOSE_PAYLOAD in *.
  pose proof (lengthZ_nonneg msg).
  assert (wp nothing (closePayloadLength <- formatClosePayload 0 code msg ;; load_bytes 0 closePayloadLength)
    (fun d _ => d = (if code =? 0 then [] else be_split 2 code ++ msg)) l) as Hwp.
  2: { apply wp_total in Hwp as (d & l' & E & Hd). by exists d, l'. }
  unfold formatClosePayload. wp_step. destruct (code =? 0); cbn [negb].
  - apply wp_ret. apply wp_load_bytes; [done|]. apply slice_0; lia.
  - wp_step. apply wp_store_bytes_here; [apply in_block_spec; rewrite be_split_length; cbn; lia|]. intros l1 E1 H1 _.
    wp_step. apply wp_store_bytes_here; [apply in_block_spec; lia|]. intros l2 E2 H2 Hkeep. apply wp_ret.
    assert (here l2 0 (be_split 2 code ++ msg)) as [Hin Eh].
    { apply here_app. split; [apply Hkeep; [done|left; rewrite be_split_length; cbn; lia]|by rewrite be_split_length]. }
    assert (lengthZ msg + 2 = lengthZ (be_split 2 code ++ msg)) as -> by (rewrite lengthZ_app, be_split_length; cbn; lia).
    by apply wp_load_bytes.
Qed.

Lemma close_spec code msg w : live w -> inGroup w = true -> Forall is_byte msg ->
  wp nothing (close isServer rand code msg) (fun _ w' => shuttingDown (socket w') = true) w.
Proof using HL.
  intros [Hok Hopen] Hin Hmsg. unfold close. pose proof (lengthZ_nonneg msg).
  set (msg' := slice msg 0 _).
  assert (Forall is_byte msg') as Hmsg' by by apply Forall_take, Forall_drop.
  assert (lengthZ msg' <= MAX_CLOSE_PAYLOAD) as Hlen' by (unfold msg'; rewrite slice_length by (unfold MAX_CLOSE_PAYLOAD; lia); lia).
  wp_step. unfold removeWebSocket. wp_step. apply wp_get. wp_step. apply wp_require; [intros _|by unfold id; rewrite Hin].
  apply wp_modify. wp_step. apply wp_modify. wp_step. unfold on_socket. apply wp_lift, wp_modify.
  wp_step. unfold startTimeout. apply wp_lift, wp_modify.
  destruct (closePayload_spec (u16 code) msg' Hmsg' Hlen') as (d & l' & E & ->).
  wp_step. eapply wp_with_block; [exact E|].
  set (d := if u16 code =? 0 then _ else _).
  assert (Forall is_byte d /\ lengthZ d <= 125) as [Hd Hd'].
  { unfold d, MAX_CLOSE_PAYLOAD in *. destruct (u16 code =? 0); [split; [done|by vm_compute]|].
    rewrite lengthZ_app, be_split_length. split; [apply Forall_app; split; [apply be_split_bytes|done]|cbn; lia]. }
  apply send_spec; [|done|lia|unfold CLOSE; lia|].
  - split; [|done]. cbn. destruct Hok. by constructor.
  - intros s n failed _ _ Hsd _ _. cbn in *. done.
Qed.

Lemma onEnd_spec w : isClosed (socket w) = false -> (shuttingDown (socket w) = false -> inGroup w = true) ->
  wp nothing onEnd (fun _ w' => isClosed (socket w') = true) w.
Proof using HL.
  intros Hopen Hin. unfold onEnd. wp_step. apply wp_get. unfold id. wp_step.
  apply wp_mono with (fun _ w' => isClosed (socket w') = false).
  { destruct (shuttingDown (socket w)) eqn:E; cbn [negb].
    - unfold on_socket. apply wp_lift. unfold cancelTimeout. by apply wp_modify.
    - wp_step. unfold removeWebSocket. wp_step. apply wp_get. wp_step. apply wp_require; [intros _|by unfold id; rewrite Hin].
      apply wp_modify. by apply wp_modify. }
  intros _ w1 Hopen1. wp_step. unfold on_socket, closeSocket. apply wp_lift. wp_step. apply wp_get.
  wp_step. apply wp_require; [intros _|by unfold id; rewrite Hopen1]. apply wp_modify.
  wp_step. apply wp_get. apply wp_lift. eapply wp_mono; [apply cancel_messages_spec|].
  intros [] s [E _]. cbn in *. unfold isClosed. by rewrite E.
Qed.

(** ** Handlers *)

(** An open connection on which no message was compressed so far; [deflate] is
    whether compression was negotiated. *)
Record ready_ws w : Prop := {
  ws_live : live w;
  ws_working : shuttingDown (socket w) = false;
  ws_group : inGroup w = true;
  ws_plain : compressionStatus w = if deflate then ENABLED else DISABLED;
  ws_tip : controlTipLength w = 0;
  ws_buffer : Forall is_byte (fragmentBuffer w)
}.

Lemma ready_open w : ready_ws w -> is_gone w = false.
Proof using. intros [[_ E1] E2 _ _ _ _]. unfold is_gone. by rewrite E1, E2. Qed.

(** What a handler changes when it leaves the connection open. *)
Definition steady w w' : Prop := exists s n u, w' = set_socket s (set_rands n (set_user u w)) /\
  socket_ok s /\ isClosed s = false /\ shuttingDown s = false.

Lemma steady_refl w : ready_ws w -> steady w w.
Proof using. intros [[] ? _ _ _ _]. exists (socket w), (rands w), (user w). by destruct w. Qed.

Lemma steady_trans w1 w2 w3 : steady w1 w2 -> steady w2 w3 -> steady w1 w3.
Proof using. intros (s & n & u & -> & _) (s' & n' & u' & -> & H). by exists s', n', u'. Qed.

Lemma steady_ready w w' : ready_ws w -> steady w w' -> ready_ws w'.
Proof using. intros [] (s & n & u & -> & ? & ? & ?). by constructor. Qed.

Definition settled w (gone : bool) w' : Prop := gone = is_gone w' /\ (gone = false -> steady w w').

Lemma run_actions_spec l w : ready_ws w -> polite l ->
  wp nothing (run_actions isServer rand l) (fun _ w' => is_gone w' = true \/ steady w w') w.
Proof using HL.
  revert w. induction l as [|[d op c|code msg|] l IH]; intros w R Hp; cbn [run_actions polite] in *.
  - apply wp_ret. right. by apply steady_refl.
  - destruct Hp as (Hd & Hlen & Hop & Hp). wp_step. apply send_spec; [apply R|done..|]. intros s n failed Hok Hopen Hsd _ _.
    assert (steady w (set_socket s (set_rands n w))) as Hst.
    { exists s, n, (user w). split; [by destruct w|]. rewrite Hsd. split_and!; [done..|apply R]. }
    eapply wp_mono; [apply IH; [by eapply steady_ready|done]|]. intros [] w' [Hg|Hst']; [by left|right]. exact (steady_trans _ _ _ Hst Hst').
  - destruct l; [|done]. wp_step. eapply wp_mono; [apply close_spec; [apply R|apply R|done]|].
    intros [] w' E. apply wp_ret. left. unfold is_gone. rewrite E. apply orb_true_r.
  - destruct l; [|done]. wp_step. eapply wp_mono; [apply onEnd_spec; [apply R|intros _; apply R]|].
    intros [] w' E. apply wp_ret. left. unfold is_gone. by rewrite E.
Qed.

Lemma call_handler_spec h w : ready_ws w -> polite (snd (h (user w))) ->
  wp nothing (call_handler isServer rand h ;; get is_gone) (settled w) w.
Proof using HL.
  intros R Hp. wp_step. unfold call_handler. wp_step. apply wp_get. unfold id. destruct (h (user w)) as [u l]. cbn in Hp.
  wp_step. apply wp_modify.
  assert (steady w (set_user u w)) as Hst.
  { exists (socket w), (rands w), u. destruct R as [[] ? _ _ _ _]. by destruct w. }
  eapply wp_mono; [apply run_actions_spec; [by eapply steady_ready|done]|].
  intros [] w' Hw'. apply wp_get. split; [done|]. destruct Hw' as [->|Hw']; [done|]. intros _. exact (steady_trans _ _ _ Hst Hw').
Qed.

(** The connection is given up. *)
Lemma terminate_spec w : ready_ws w -> wp nothing (terminate ;; ret true) (settled w) w.
Proof using HL.
  intros R. wp_step. eapply wp_mono; [apply onEnd_spec; [apply R|intros _; apply R]|]. intros [] w' E. apply wp_ret.
  unfold settled, is_gone. by rewrite E.
Qed.

Lemma end_message_spec d op w : ready_ws w -> Forall is_byte d ->
  wp nothing (end_message isServer rand maxPayload d op) (settled w) w.
Proof using HL HP.
  intros R Hd. unfold end_message. wp_step. apply wp_get. unfold id. rewrite decide_False by (rewrite (ws_plain w R); by destruct deflate).
  wp_step. apply wp_ret. wp_step.
  apply wp_mono with (fun _ w' => w' = w).
  { destruct (op =? 1); [|by apply wp_ret].
    destruct (isValidUtf8_spec d 0 (lengthZ d) Hd) as (b & E & _); [apply in_block_spec; pose proof (lengthZ_nonneg d); lia|].
    by eapply wp_with_block. }
  intros valid ? ->. destruct valid; cbn [negb]; [|by apply terminate_spec].
  apply call_handler_spec; [done|by apply polite_message].
Qed.

Lemma parseClosePayload_spec d : Forall is_byte d ->
  exists f, parseClosePayload 0 (lengthZ d) d = Ok (f, d) /\ Forall is_byte (message f).
Proof using.
  intros Hd. assert (wp nothing (parseClosePayload 0 (lengthZ d)) (fun f l => l = d /\ Forall is_byte (message f)) d) as H.
  2: { apply wp_total in H as (f & l & E & -> & Hf). by exists f. }
  unfold parseClosePayload. destruct (Z.leb_spec 2 (lengthZ d)) as [Hle|?]; [|by apply wp_ret].
  wp_step. apply wp_load_bytes; [apply in_block_spec; lia|]. wp_step. apply wp_load_bytes; [apply in_block_spec; lia|].
  case_match; [by apply wp_ret|].
  destruct (isValidUtf8_spec d (0 + 2) (lengthZ d - 2) Hd) as (b & E & _); [apply in_block_spec; lia|].
  wp_step. unfold wp. rewrite E. split; [done|]. destruct b; [|constructor]. by apply Forall_take, Forall_drop.
Qed.

Lemma end_control_spec d op w : ready_ws w -> Forall is_byte d -> lengthZ d <= 125 -> op = CLOSE \/ op = PING \/ op = PONG ->
  wp nothing (end_control isServer rand d op) (settled w) w.
Proof using HL HP.
  intros R Hd Hlen Hop. unfold end_control. destruct Hop as [->|[-> | ->]]; cbn [Z.eqb Pos.eqb CLOSE PING PONG].
  - destruct (parseClosePayload_spec d Hd) as (f & E & Hf). wp_step. eapply wp_with_block; [exact E|].
    wp_step. eapply wp_mono; [apply close_spec; [apply R|apply R|done]|]. intros [] w' Hw'. apply wp_ret.
    unfold settled, is_gone. rewrite Hw', orb_true_r. done.
  - wp_step. apply send_spec; [apply R|done|lia|unfold PONG; lia|]. intros s n failed Hok Hopen Hsd _ _.
    assert (steady w (set_socket s (set_rands n w))) as Hst.
    { exists s, n, (user w). split; [by destruct w|]. rewrite Hsd. split_and!; [done..|apply R]. }
    eapply wp_mono; [apply call_handler_spec; [by eapply steady_ready|by apply polite_ping]|].
    intros gone w' [E Hg]. split; [done|]. intros ?. apply (steady_trans _ _ _ Hst). by apply Hg.
  - apply call_handler_spec; [done|by apply polite_pong].
Qed.

(** ** The laws of the parser *)

#[local] Instance ws_impl : Impl (WebSocket K U D) := WebSocket_Impl isServer rand maxPayload.

(** A message is complete with [data], when [b] is in the buffer. *)
Lemma handle_message b data op w gone w' : op < 3 -> controlTipLength w = 0 ->
  end_message isServer rand maxPayload (b ++ data) op w = Ok (gone, w') ->
  exists b', handleFragment data 0 op true (dress b 0 w) = Ok (gone, dress b' 0 w') /\ (gone = false -> b' = []).
Proof using.
  intros Hop Ht E. cbn [handleFragment ws_impl WebSocket_Impl]. unfold WebSocket_handleFragment. cbn [bind get].
  unfold bind, get, id. rewrite (proj2 (Z.ltb_lt _ _)) by done. cbn [Z.eqb andb dress fragmentBuffer].
  destruct (Z.eqb_spec (lengthZ b) 0) as [Eb|Hb].
  - apply lengthZ_0 in Eb as ->. cbn [app] in E. exists []. rewrite (blind_message data op), E. done.
  - unfold modify. change (set_fragmentBuffer (b ++ data) (dress b 0 w)) with (dress (b ++ data) 0 w).
    rewrite (blind_message (b ++ data) op), E. cbn [outcome_map].
    destruct gone; [by eexists|]. by exists [].
Qed.

(** A control frame is complete with [data], when [c] of it is in the buffer. *)
Lemma handle_control b c data op w gone w' : 3 <= op -> lengthZ (c ++ data) <= 125 ->
  end_control isServer rand (c ++ data) op w = Ok (gone, w') ->
  exists b' t', handleFragment data 0 op true (dress (b ++ c) (lengthZ c) w) = Ok (gone, dress b' t' w') /\
    (gone = false -> b' = b /\ t' = 0).
Proof using.
  intros Hop Hlen E. cbn [handleFragment ws_impl WebSocket_Impl]. unfold WebSocket_handleFragment.
  unfold bind, get, id. rewrite (proj2 (Z.ltb_ge _ _)) by done. cbn [Z.eqb andb dress fragmentBuffer controlTipLength].
  destruct (Z.eqb_spec (lengthZ c) 0) as [Ec|Hc].
  - apply lengthZ_0 in Ec as ->. cbn [app] in E. rewrite app_nil_r. exists b, 0. by rewrite (blind_control data op), E.
  - rewrite lengthZ_app in Hlen. pose proof (lengthZ_nonneg c). pose proof (lengthZ_nonneg data). pose proof (lengthZ_nonneg b).
    unfold modify. cbn [set_controlTipLength set_fragmentBuffer dress fragmentBuffer controlTipLength].
    assert (uwrap 8 (lengthZ c + lengthZ data) = lengthZ (c ++ data)) as ->.
    { rewrite lengthZ_app. apply uwrap_small. unfold in_unsigned. lia. }
    rewrite <- !app_assoc, lengthZ_app. replace (lengthZ b + lengthZ (c ++ data) - lengthZ (c ++ data)) with (lengthZ b) by lia.
    unfold require. rewrite (proj2 (Z.leb_le _ _)) by lia.
    assert (slice (b ++ c ++ data) (lengthZ b) (lengthZ (c ++ data)) = c ++ data) as ->.
    { rewrite slice_app_r by lia. rewrite Z.sub_diag. apply slice_whole. }
    assert (set_controlTipLength (lengthZ c + lengthZ data) (set_fragmentBuffer (b ++ c ++ data) (dress (b ++ c) (lengthZ c) w))
      = dress (b ++ c ++ data) (lengthZ (c ++ data)) w) as ->.
    { unfold set_controlTipLength, set_fragmentBuffer, dress. cbn [socket compressionStatus inGroup inflationStream rands user fragmentBuffer controlTipLength].
      f_equal. rewrite lengthZ_app. apply uwrap_small. unfold in_unsigned. lia. }
    cbn [ret].
    rewrite (blind_control (c ++ data) op), E. cbn [outcome_map].
    destruct gone; [by eexists _, _|]. exists b, 0. split; [|done]. rewrite slice_app_l by lia. by rewrite slice_whole.
Qed.

Definition partial_ws (op : Z) (d : list Z) w w1 : Prop :=
  ready_ws w /\ w1 = dress (fragmentBuffer w ++ d) (if op <? 3 then 0 else lengthZ d) w.

Definition same_end_ws w1 w2 : Prop := exists b t, w1 = dress b t w2.

Lemma dress_dress b t b' t' w : dress b t (dress b' t' w) = dress b t w.
Proof using. done. Qed.

Lemma dress_id w : controlTipLength w = 0 -> dress (fragmentBuffer w) 0 w = w.
Proof using. destruct w; cbn. by intros ->. Qed.

(** The rest of a frame. *)
Lemma partial_end_ws op d w w1 d2 fin : partial_ws op d w w1 -> Forall is_byte d -> Forall is_byte d2 ->
  fragment_ok op fin (lengthZ d + lengthZ d2) ->
  fragment_agrees same_end_ws (handleFragment d2 0 op fin w1) (handleFragment (d ++ d2) 0 op fin w).
Proof using HL HP.
  intros [R ->] Hd Hd2 Hok. assert (Forall is_byte (d ++ d2)) as Hdd by by apply Forall_app. pose proof (ws_tip w R) as Ht.
  destruct Hok as [Hop|(Hop & -> & Hlen)].
  - assert (op < 3) as Hop3 by (destruct Hop as [-> | ->]; done). rewrite (proj2 (Z.ltb_lt _ _)) by done.
    destruct fin.
    + destruct (wp_total _ _ _ (end_message_spec (fragmentBuffer w ++ d ++ d2) op w R ltac:(by apply Forall_app; split; [apply R|]))) as (gone & w' & E & _).
      destruct (handle_message (fragmentBuffer w) (d ++ d2) op w gone w' Hop3 Ht E) as (b2 & E2 & Hg2). rewrite (dress_id w Ht) in E2.
      rewrite app_assoc in E.
      destruct (handle_message (fragmentBuffer w ++ d) d2 op w gone w' Hop3 Ht E) as (b1 & E1 & Hg1). rewrite E1, E2.
      destruct gone; cbn [fragment_agrees]; [by exists b1, 0|]. by rewrite Hg1, Hg2.
    + cbn [handleFragment ws_impl WebSocket_Impl]. unfold WebSocket_handleFragment, bind, get, id. rewrite (proj2 (Z.ltb_lt _ _)) by done.
      cbn. rewrite <- app_assoc. destruct w; cbn in *. by rewrite Ht.
  - assert (3 <= op) as Hop3 by (unfold CLOSE, PING, PONG in Hop; lia). rewrite (proj2 (Z.ltb_ge _ _)) by done.
    rewrite <- lengthZ_app in Hlen.
    destruct (wp_total _ _ _ (end_control_spec (d ++ d2) op w R Hdd Hlen Hop)) as (gone & w' & E & _).
    destruct (handle_control (fragmentBuffer w) d d2 op w gone w' Hop3 Hlen E) as (b1 & t1 & E1 & Hg1).
    destruct (handle_control (fragmentBuffer w) [] (d ++ d2) op w gone w' Hop3 Hlen E) as (b2 & t2 & E2 & Hg2).
    rewrite app_nil_r in E2. change (lengthZ []) with 0 in E2. rewrite (dress_id w Ht) in E2. rewrite E1, E2.
    destruct gone; cbn [fragment_agrees]; [by exists b1, t1|]. destruct Hg1 as [-> ->]; [done|]. by destruct Hg2 as [-> ->].
Qed.

(** The first part of a frame. *)
Lemma partial_more_ws op d w w1 d2 r fin : partial_ws op d w w1 -> 0 < r -> fragment_ok op fin (lengthZ d + lengthZ d2 + r) ->
  exists w2, handleFragment d2 r op fin w1 = Ok (false, w2) /\ partial_ws op (d ++ d2) w w2.
Proof using.
  intros [R ->] Hr Hok. cbn [handleFragment ws_impl WebSocket_Impl]. unfold WebSocket_handleFragment, bind, get, id.
  rewrite (proj2 (Z.eqb_neq r 0)) by lia. cbn [andb]. unfold partial_ws.
  destruct (Z.ltb_spec op 3) as [Hop|Hop].
  - eexists. split; [done|]. split; [done|]. unfold dress, set_fragmentBuffer. cbn. by rewrite app_assoc.
  - destruct Hok as [[-> | ->]|(_ & -> & Hlen)]; [done..|].
    eexists. split; [done|]. split; [done|]. unfold dress, set_fragmentBuffer, set_controlTipLength. cbn.
    pose proof (lengthZ_nonneg d). pose proof (lengthZ_nonneg d2). rewrite app_assoc, lengthZ_app. f_equal.
    apply uwrap_small. unfold in_unsigned. lia.
Qed.

(** A fragment that is handled in one piece. *)
Lemma whole_end_ws d op fin w gone w' : ready_ws w -> Forall is_byte d -> fragment_ok op fin (lengthZ d) ->
  handleFragment d 0 op fin w = Ok (gone, w') -> is_gone w' = gone /\ (gone = false -> ready_ws w').
Proof using HL HP.
  intros R Hd Hok Eh. pose proof (ws_tip w R) as Ht. pose proof (ready_open w R) as Hopen.
  destruct Hok as [Hop|(Hop & -> & Hlen)].
  - assert (op < 3) as Hop3 by (destruct Hop as [-> | ->]; done). destruct fin.
    + destruct (wp_total _ _ _ (end_message_spec (fragmentBuffer w ++ d) op w R ltac:(by apply Forall_app; split; [apply R|])))
        as (gone' & w2 & E & Eg & Hst).
      destruct (handle_message (fragmentBuffer w) d op w gone' w2 Hop3 Ht E) as (b2 & E2 & Hg2). rewrite (dress_id w Ht), Eh in E2.
      simplify_eq. split; [done|]. intros Hg. rewrite Hg2 by done. pose proof (steady_ready _ _ R (Hst Hg)) as []. by constructor.
    + cbn [handleFragment ws_impl WebSocket_Impl] in Eh. unfold WebSocket_handleFragment, bind, get, id in Eh.
      rewrite (proj2 (Z.ltb_lt _ _)) in Eh by done. cbn in Eh. unfold ret in Eh. simplify_eq. split; [done|]. intros _.
      destruct R as [HR1 HR2 HR3 HR4 HR5 HR6]. constructor; try done. cbn. by apply Forall_app.
  - assert (3 <= op) as Hop3 by (unfold CLOSE, PING, PONG in Hop; lia).
    destruct (wp_total _ _ _ (end_control_spec d op w R Hd Hlen Hop)) as (gone' & w2 & E & Eg & Hst).
    destruct (handle_control (fragmentBuffer w) [] d op w gone' w2 Hop3 Hlen E) as (b2 & t2 & E2 & Hg2).
    rewrite app_nil_r in E2. change (lengthZ []) with 0 in E2. rewrite (dress_id w Ht), Eh in E2. simplify_eq.
    split; [done|]. intros Hg. destruct (Hg2 Hg) as [-> ->]. pose proof (steady_ready _ _ R (Hst Hg)) as []. constructor; try done. apply R.
Qed.

#[export] Instance WebSocket_laws : FragmentLaws (WebSocket K U D).
Proof using HL HP Hmax deflate.
  refine {| isOpen := fun w => negb (is_gone w); ready := ready_ws; partial := partial_ws; same_end := same_end_ws; deflates := deflate |}.
  - intros w R Hd. cbn. unfold WebSocket_setCompressed, bind, get, id. by rewrite (ws_plain w R), Hd.
  - intros w. exists (fragmentBuffer w), (controlTipLength w). by destruct w.
  - by intros w1 w2 (b & t & ->).
  - intros w R. destruct (wp_total _ _ _ (onEnd_spec w ltac:(apply R) ltac:(intros _; apply R))) as ([] & w' & E & Hc).
    exists w'. split; [exact E|]. unfold is_gone. by rewrite Hc.
  - intros n w R E. cbn in E. unfold WebSocket_refusePayloadLength in E. lia.
  - intros op w R _. split; [done|]. rewrite app_nil_r. change (lengthZ []) with 0. case_match; by rewrite dress_id by apply R.
  - intros op d w w1 d2 r fin Hp Hr _ Hok. by apply partial_more_ws.
  - intros op d w w1 d2 fin Hp Hd Hd2 Hok. by apply partial_end_ws.
  - intros op d w w1 [R ->]. split; [|done]. change (negb (is_gone w) = true). by rewrite (ready_open w R).
  - intros d op fin w gone w' R Hd Hok E. destruct (whole_end_ws _ _ _ _ _ _ R Hd Hok E) as [<- ?]. done.
Defined.

End Spec.

(** ** Close frames *)

(** The codes a peer may send (RFC 6455, section 7.4). *)
Definition close_code (code : Z) : Prop := 1000 <= code <= 1003 \/ 1007 <= code <= 1011 \/ 4000 <= code <= 4999.

(** A close frame survives the wire.  What [close] puts into its frame of at
    most 125 bytes is parsed as the same code and the same message, when the code
    is one that may be sent and the message is UTF-8 text; otherwise, and when
    there is no code, the peer sees no code and no message. *)
Theorem closePayload_roundtrip code msg : 0 <= code < 2 ^ 16 -> Forall is_byte msg -> lengthZ msg <= MAX_CLOSE_PAYLOAD ->
  exists payload l f,
    (closePayloadLength <- formatClosePayload 0 code msg ;; load_bytes 0 closePayloadLength)
      (replicate (Z.to_nat (MAX_CLOSE_PAYLOAD + 2)) 0) = Ok (payload, l) /\
    parseClosePayload 0 (lengthZ payload) payload = Ok (f, payload) /\
    (close_code code /\ utf8_text msg -> f = mkCloseFrame code msg) /\
    (~ (close_code code /\ utf8_text msg) -> f = mkCloseFrame 0 []).
Proof.
  intros Hcode Hmsg Hlen. destruct (closePayload_spec code msg Hmsg Hlen) as (d & l & E & Ed).
  assert (exists f, parseClosePayload 0 (lengthZ d) d = Ok (f, d) /\
    (close_code code /\ utf8_text msg -> f = mkCloseFrame code msg) /\ (~ (close_code code /\ utf8_text msg) -> f = mkCloseFrame 0 [])) as (f & Hf).
  2: { by exists d, l, f. }
  destruct (Z.eqb_spec code 0) as [->|Hne].
  - subst d. exists (mkCloseFrame 0 []). split; [done|]. split; [|done]. unfold close_code. lia.
  - set (hd := be_split 2 code) in *. assert (lengthZ hd = 2) as Hh by apply be_split_length.
    assert (lengthZ d = 2 + lengthZ msg) as El by (subst d; rewrite lengthZ_app; lia). pose proof (lengthZ_nonneg msg).
    assert (here d 0 (hd ++ msg)) as [H1 H2]%here_app.
    { subst d. split; [apply in_block_spec; rewrite lengthZ_app; lia|apply slice_whole]. }
    rewrite Hh in H2. unfold parseClosePayload. rewrite (proj2 (Z.leb_le _ _)) by lia. unfold bind.
    rewrite (here_load_bytes _ _ _ 2 H1), (here_load_bytes _ _ _ _ H2) by lia.
    unfold hd. rewrite be_combine_split by (change (256 ^ Z.of_nat 2) with (2 ^ 16); lia).
    set (bad := (_ || _)). assert (bad = true <-> ~ close_code code) as Hbad by (unfold bad, close_code; lia).
    destruct bad.
    { exists (mkCloseFrame 0 []). split; [done|]. split; [|done]. tauto. }
    assert (close_code code) as Hok by (unfold close_code in *; lia).
    destruct (isValidUtf8_spec d (0 + 2) (lengthZ d - 2)) as (b & Eb & Hb).
    { subst d. apply Forall_app. split; [apply be_split_bytes|done]. }
    { apply in_block_spec. lia. }
    rewrite Eb. destruct H2 as [_ Es]. rewrite El in Hb. replace (2 + lengthZ msg - 2) with (lengthZ msg) in Hb by lia. rewrite Es in Hb.
    exists (if b then mkCloseFrame code msg else mkCloseFrame 0 []). split; [done|]. split.
    + intros [_ ->%Hb]. done.
    + intros Hn. destruct b; [|done]. tauto.
Qed.

Lemma closePayload_roundtrip_witness : exists payload l f,
  (closePayloadLength <- formatClosePayload 0 1000 [0x62; 0x79; 0x65] ;; load_bytes 0 closePayloadLength)
    (replicate (Z.to_nat (MAX_CLOSE_PAYLOAD + 2)) 0) = Ok (payload, l) /\
  parseClosePayload 0 (lengthZ payload) payload = Ok (f, payload) /\
  (close_code 1000 /\ utf8_text [0x62; 0x79; 0x65] -> f = mkCloseFrame 1000 [0x62; 0x79; 0x65]) /\
  (~ (close_code 1000 /\ utf8_text [0x62; 0x79; 0x65]) -> f = mkCloseFrame 0 []).
Proof. apply closePayload_roundtrip; [done| |done]. repeat constructor; by vm_compute. Defined.

(** ** Decompression *)

(** With Z_FINISH, inflate asks for more room only when it has filled what it got. *)
Class ZlibLaws (D : Type) {HD : Zlib D} := {
  z_output input n z : 0 <= n -> lengthZ (snd (fst (z_inflate input n z))) <= n;
  z_full input n z : 0 <= n -> fst (fst (fst (z_inflate input n z))) = Z_BUF_ERROR -> snd (fst (fst (z_inflate input n z))) <> [] ->
    lengthZ (snd (fst (z_inflate input n z))) = n
}.

Section Inflate.
Context {K : Type} {HK : Kernel K} {U : Type} {HU : Application U} {D : Type} {HD : Zlib D} {HZ : ZlibLaws D}.
Implicit Types (w : WebSocket K U D).

(** A round adds a buffer, or is the last. *)
Lemma inflate_round_spec max input dynamic w :
  wp nothing (inflate_round max (input, dynamic)) (fun r _ =>
    match r with
    | inl (_, dynamic') => lengthZ dynamic' = lengthZ dynamic + LARGE_BUFFER_SIZE /\ lengthZ dynamic' <= max
    | inr (_, dynamic', output) => lengthZ output <= LARGE_BUFFER_SIZE /\ lengthZ dynamic <= lengthZ dynamic'
    end) w.
Proof using HZ.
  unfold inflate_round. wp_step. apply wp_get. unfold id.
  pose proof (z_output input LARGE_BUFFER_SIZE (inflationStream w) ltac:(done)) as Hout.
  pose proof (z_full input LARGE_BUFFER_SIZE (inflationStream w) ltac:(done)) as Hfull.
  destruct (z_inflate _ _ _) as [[[err rest] out] z]. cbn [fst snd] in *. pose proof (lengthZ_nonneg out).
  wp_step. apply wp_modify. destruct rest as [|b rest]; [by apply wp_ret|]. rewrite lengthZ_app.
  case_bool_decide as Herr; cbn [andb]; [|apply wp_ret; rewrite lengthZ_app; lia].
  destruct (Z.leb_spec (lengthZ dynamic + lengthZ out) max); apply wp_ret; rewrite lengthZ_app; [|lia].
  rewrite Hfull in * by done. lia.
Qed.

Lemma inflate_spec data max w : 0 <= max ->
  wp nothing (inflate data max) (fun r _ => forall out, r = Some out -> lengthZ out <= max + LARGE_BUFFER_SIZE) w.
Proof using HZ.
  intros Hmax. unfold inflate. wp_step.
  apply (wp_iter _ _ (fun l _ => 0 <= lengthZ l.2 <= max) (fun l _ => Z.to_nat (max - lengthZ l.2 + 1))).
  - intros [input dynamic] w1 Hd. cbn [snd] in Hd. eapply wp_mono; [apply inflate_round_spec|].
    intros [[input' dynamic']|[[err dynamic'] output]] w2 Hr.
    + unfold LARGE_BUFFER_SIZE in Hr. cbn [snd]. lia.
    + wp_step. apply wp_get. wp_step. apply wp_modify.
      destruct (Z.ltb_spec max (lengthZ dynamic')); [rewrite orb_true_r; by apply wp_ret|]. rewrite orb_false_r.
      destruct (match err with Z_BUF_ERROR | Z_OK => false | _ => true end); [by apply wp_ret|].
      pose proof (lengthZ_nonneg output).
      destruct dynamic'; apply wp_ret; intros out [= <-]; [lia|]. rewrite app_comm_cons, lengthZ_app. lia.
  - done.
  - cbn [snd]. change (lengthZ []) with 0. lia.
Qed.

End Inflate.

(** C36: a compressed message cannot exhaust the memory.  The loop that inflates it
    ends, whatever the compressed data is, and what it returns is longer than the
    limit of the group by at most one buffer of 300 KiB. *)
Theorem inflate_bounded {K U D} {HK : Kernel K} {HU : Application U} {HD : Zlib D} {HZ : ZlibLaws D}
    data max (w : WebSocket K U D) : 0 <= max ->
  exists r w', inflate data max w = Ok (r, w') /\ forall out, r = Some out -> lengthZ out <= max + LARGE_BUFFER_SIZE.
Proof. intros Hmax. destruct (wp_total _ _ _ (inflate_spec data max w Hmax)) as (r & w' & E & H). by exists r, w'. Qed.

(** A decompressor of run lengths: pairs of a count and a byte.  The stream holds
    the output that had no room yet. *)
Fixpoint runs (input : list Z) : list Z :=
  match input with n :: b :: t => replicate (Z.to_nat n) b ++ runs t | _ => [] end.

Definition run_inflate (input : list Z) (n : Z) (z : list Z) : (zlib_result * list Z * list Z) * list Z :=
  let all := match z with [] => runs input | _ => z end in
  if lengthZ all <=? n then ((Z_BUF_ERROR, [], all), []) else ((Z_BUF_ERROR, input, take (Z.to_nat n) all), drop (Z.to_nat n) all).

#[global] Instance run_lengths : Zlib (list Z) := {| z_inflate := run_inflate; z_reset _ := [] |}.

#[global] Instance run_lengths_laws : ZlibLaws (list Z).
Proof.
  constructor; intros input n z Hn; cbn; unfold run_inflate; set (all := match z with [] => _ | _ => _ end);
    destruct (Z.leb_spec (lengthZ all) n); cbn [fst snd]; try done; unfold lengthZ in *; rewrite length_take; lia.
Qed.

Definition run_socket : WebSocket (list Z) unit (list Z) := mkWebSocket new_socket [] ENABLED 0 true [] 0 tt.

#[global] Instance silent : Application unit :=
  {| messageHandler _ _ u := (u, []); pingHandler _ u := (u, []); pongHandler _ u := (u, []); disconnectionHandler _ _ u := u |}.

Lemma inflate_bounded_witness :
  exists r w', inflate [200; 65] 100 run_socket = Ok (r, w') /\ forall out, r = Some out -> lengthZ out <= 100 + LARGE_BUFFER_SIZE.
Proof. apply inflate_bounded. done. Defined.

(** The limit is not the limit: a message that fits into the buffer is accepted at
    any length. *)
Lemma inflate_exceeds : outcome_map (fun '(r, _) => lengthZ <$> r) (inflate [200; 65] 100 run_socket) = Ok (Some 200).
Proof. by vm_compute. Qed.
