(* ===== verification/ConnectionSpec.v ===== *)
(** * Whole connections

    The composition of the parser, the handling of fragments and the message queue
    of src/libuws: what an application receives is a function of the frames, not of
    how the stream was cut into reads, and what one side sends is what the other
    side's application gets. *)

From S2P Require Import Prelude Memory Buffer Utf8 WebSocketProtocol Masking WebSocketFrames WebSocketProtocolSpec.
From S2P Require Import Socket SocketSpec WebSocketFormat WebSocket WebSocketSpec.

(** ** Reads *)

Section Progress.
Context (isServer : bool) {I : Type} {H : Impl I} {L : FragmentLaws I}.
Implicit Types (R : Receiver I) (r : rx I).

(** The parser keeps nothing in the buffer between two reads. *)
Lemma progress_block rest result R l : progress isServer rest result R -> Forall is_byte l ->
  progress isServer rest result (set_block l R).
Proof using.
  intros [fs r p ? [] ? ? ? ? ?|f fs r d d' ? [] ? ?|r ? ? ?] Hl; [eapply Waiting|eapply Inside|eapply Gone]; try done; by constructor.
Qed.

Lemma progress_bytes rest result R : progress isServer rest result R -> isOpen (impl R) = true -> Forall is_byte (block R).
Proof using. intros [fs r p ? [] ? ? ? ? ?|f fs r d d' ? [] ? ?|r ? ? ?] ?; [done..|congruence]. Qed.

(** At the end of the stream. *)
Lemma progress_done result R : progress isServer [] result R -> exists gone r, result = Ok (gone, r) /\
  if gone then same_end (impl R) (rx_app r) else impl R = rx_app r /\ isOpen (impl R) = true.
Proof using.
  intros [fs r p -> A _ _ E Hplain Hmiss|f fs r d d' _ N E _|r -> Hend _].
  - rewrite app_nil_r in E. destruct fs as [|f fs].
    + exists false, r. split; [done|]. rewrite (head_impl _ _ _ A). split; [done|apply A].
    + exfalso. rewrite E in Hmiss. cbn [head_missing] in Hmiss. apply Forall_cons in Hplain as [[Hf _] _].
      rewrite encode_frames_cons, lengthZ_app, header_length_spec in Hmiss by done.
      pose proof (lengthZ_nonneg (wire_payload isServer f ++ encode_frames isServer fs)). lia.
  - exfalso. symmetry in E. apply app_eq_nil in E as [E _]. apply (in_rest _ _ _ _ _ _ N), lengthZ_0.
    rewrite <- (lengthZ_nil (A := Z)), <- E. unfold wire_rest. destruct isServer; [|done]. by rewrite masked_length.
  - by exists true, r.
Qed.

(** The fields of the parser keep to their ranges: the stack of opcodes has at most
    two elements, all of them assigned; the bytes kept of a head fit into [spill];
    inside of a frame some bytes are missing and its opcode is on the stack. *)
Record well_typed (ws : WebSocketState) : Prop := {
  typed_opStack : -1 <= opStack ws <= 1;
  typed_opCode : forall k, (Z.of_nat k <= opStack ws)%Z -> exists op, opCode ws !! k = Some (Some op);
  typed_two : length (opCode ws) = 2%nat;
  typed_spill : lengthZ (spill ws) = LONG_MESSAGE_HEADER isServer - 1;
  typed_spillLength : 0 <= spillLength ws < LONG_MESSAGE_HEADER isServer;
  typed_remaining : wantsHead ws = false -> 0 < remainingBytes ws < 2 ^ 32 /\ 0 <= opStack ws
}.

Lemma sync_typed ws r : in_sync isServer ws r -> 0 <= spillLength ws < LONG_MESSAGE_HEADER isServer ->
  (wantsHead ws = false -> 0 < remainingBytes ws < 2 ^ 32 /\ rx_ops r <> []) -> well_typed ws.
Proof using.
  intros S Hsp Hrem. pose proof (sync_most _ _ _ S). pose proof (lengthZ_nonneg (rx_ops r)).
  pose proof (sync_opStack _ _ _ S) as E. constructor; try done; [lia| |apply S|apply S|].
  - intros k Hk. assert (k < length (rx_ops r))%nat as Hlt by (unfold lengthZ in E; lia).
    destruct (lookup_lt_is_Some_2 _ _ Hlt) as [op Hop]. exists op.
    rewrite <- (lookup_take_lt (opCode ws) (length (rx_ops r))), (sync_ops _ _ _ S), list_lookup_fmap, Hop by done. done.
  - intros Hw. destruct (Hrem Hw) as [? Hne]. split; [done|]. rewrite E. destruct (rx_ops r); [done|].
    rewrite lengthZ_cons. pose proof (lengthZ_nonneg l). lia.
Qed.

Lemma progress_typed rest result R : progress isServer rest result R -> isOpen (impl R) = true -> well_typed (wState R).
Proof using.
  intros [fs r p ? A Esp Hsp ? ? ?|f fs r d d' ? N ? ?|r ? ? ?] Hopen; [| |congruence].
  - eapply sync_typed; [apply A| |by rewrite (head_wants _ _ _ A)]. rewrite Esp.
    pose proof (sync_spill _ _ _ (head_sync _ _ _ A)) as Hlen. apply (f_equal lengthZ) in Hsp.
    pose proof (lengthZ_nonneg p). unfold slice, lengthZ in *. rewrite length_take, drop_0 in Hsp. lia.
  - pose proof (in_begun _ _ _ _ _ _ N) as B. eapply sync_typed; [apply N| |intros _; split; [|apply B]].
    + rewrite (in_spill _ _ _ _ _ _ N). by destruct isServer.
    + rewrite (in_remaining _ _ _ _ _ _ N). pose proof (begun_short f r B) as Hs. unfold f_length in Hs.
      rewrite (in_payload _ _ _ _ _ _ N), lengthZ_app in Hs. pose proof (lengthZ_nonneg d).
      pose proof (in_rest _ _ _ _ _ _ N) as Hne. destruct d' as [|x d']; [done|]. rewrite lengthZ_cons in *.
      pose proof (lengthZ_nonneg d'). lia.
Qed.

(** A new parser. *)
Lemma progress_start fs spill0 mask0 l (i : I) : Forall plain fs -> ready i -> isOpen i = true -> Forall is_byte l ->
  lengthZ spill0 = LONG_MESSAGE_HEADER isServer - 1 -> (isServer = true -> lengthZ mask0 = 4 /\ Forall is_byte mask0) ->
  progress isServer (encode_frames isServer fs) (receive fs (mkRx [] true i)) (mkReceiver l (new_WebSocketState spill0 mask0) i).
Proof using.
  intros Hplain Hi Hopen Hl Hsp Hm. apply (Waiting _ _ _ _ fs (mkRx [] true i) []); try done.
  destruct fs as [|f fs]; [done|]. cbn [head_missing]. change (lengthZ []) with 0.
  pose proof (header_length_bounds isServer (f_form f)). assert (0 < SHORT_MESSAGE_HEADER isServer) by (by destruct isServer). lia.
Qed.

End Progress.

Section Connection.
Context (isServer : bool) (rand : nat -> Z) (maxPayload : Z) (Hmax : maxPayload < 2 ^ 32) (deflate : bool).
Context {K : Type} {HK : Kernel K} {HL : KernelLaws K}.
Context {U : Type} {HU : Application U} {HP : Polite U} {D : Type} {HD : Zlib D}.
Implicit Types (c : Connection (K := K) (U := U) (D := D)) (w : WebSocket K U D).

#[local] Instance cn_impl : Impl (WebSocket K U D) := WebSocket_Impl isServer rand maxPayload.
#[local] Instance cn_laws : FragmentLaws (WebSocket K U D) := WebSocket_laws isServer rand maxPayload Hmax deflate.

(** A closed socket is not polled. *)
Definition read c_chunk : M (Connection (K := K) (U := U) (D := D)) unit :=
  c <- get id ;;
  if isClosed (socket (impl (receiver c))) then ret tt else on_readable isServer rand maxPayload c_chunk.

Fixpoint read_all (chunks : list (list Z)) : M (Connection (K := K) (U := U) (D := D)) unit :=
  match chunks with [] => ret tt | chunk :: chunks => read chunk ;; read_all chunks end.

(** The pieces recv can return. *)
Definition chunk_ok (chunk : list Z) : Prop := 0 < lengthZ chunk <= recvLength.

Lemma read_spec chunk rest result c : chunk_ok chunk -> Forall is_byte chunk ->
  lengthZ (block (receiver c)) = LARGE_BUFFER_SIZE -> progress isServer (chunk ++ rest) result (receiver c) ->
  wp nothing (read chunk) (fun _ c' => lengthZ (block (receiver c')) = LARGE_BUFFER_SIZE /\ progress isServer rest result (receiver c')) c.
Proof using HL HP.
  intros Hchunk Hbytes Hlen P. unfold read. wp_step. apply wp_get. unfold id.
  destruct c as [R pong]. cbn [receiver] in *. unfold chunk_ok, recvLength in Hchunk.
  assert (isOpen (impl R) = false -> forall R' : Receiver (WebSocket K U D), impl R' = impl R -> progress isServer rest result R') as Hgone.
  { intros Hc R' E. destruct P as [fs r p ? A|f fs r d d' ? N|r ? ? ?].
    - pose proof (head_open _ _ _ A) as Ho. rewrite <- (head_impl _ _ _ A) in Ho. congruence.
    - destruct (partial_open _ _ _ _ (in_partial _ _ _ _ _ _ N)). congruence.
    - apply (Gone _ _ _ _ r); rewrite ?E; done. }
  change (isOpen (impl R)) with (negb (is_gone (impl R))) in Hgone. unfold is_gone in Hgone.
  destruct (isClosed (socket (impl R))) eqn:Hclosed.
  { apply wp_ret. split; [done|]. by apply Hgone. }
  destruct chunk as [|x chunk]; [exfalso; unfold lengthZ in Hchunk; simpl in Hchunk; lia|]. cbn [on_readable].
  set (ch := x :: chunk) in *.
  assert (in_block (block R) recvBuffer (lengthZ ch) = true) as Hin.
  { apply in_block_spec. rewrite Hlen. unfold recvBuffer, CONSUME_POST_PADDING, CONSUME_PRE_PADDING, LONG_MESSAGE_HEADER in *. lia. }
  wp_step. unfold on_receiver, on_block. apply wp_lift, wp_lift, wp_store_bytes; [done|].
  unfold onData. wp_step. apply wp_modify. wp_step. apply wp_get.
  cbn [id set_hasOutstandingPong set_receiver receiver impl set_block]. set (l := splice (block R) recvBuffer ch).
  assert (lengthZ l = LARGE_BUFFER_SIZE) as El by (unfold l; by rewrite splice_length).
  destruct (shuttingDown (socket (impl R))) eqn:Hsd; cbn [negb orb] in *.
  { apply wp_ret. split; [done|]. by apply Hgone. }
  assert (isOpen (impl R) = true) as Hopen by (change (negb (is_gone (impl R)) = true); unfold is_gone; by rewrite Hclosed, Hsd).
  assert (Forall is_byte l) as Hl by (apply splice_bytes; [by eapply progress_bytes|done]).
  apply wp_lift. cbn [receiver].
  eapply wp_mono; [apply (consume_progress isServer ch rest result (set_block l R)); try done|].
  - by apply progress_block.
  - by apply here_stored.
  - cbn. unfold recvBuffer. by destruct isServer.
  - cbn [block set_block]. rewrite El. unfold recvBuffer. lia.
  - unfold LARGE_BUFFER_SIZE, CONSUME_POST_PADDING in *. pose proof (eq_refl : CONSUME_PRE_PADDING true = 13). lia.
  - intros [] R' [E P']. split; [|done]. transitivity (lengthZ l); done.
Qed.

Lemma read_all_spec chunks rest result c : Forall chunk_ok chunks -> Forall is_byte (concat chunks) ->
  lengthZ (block (receiver c)) = LARGE_BUFFER_SIZE -> progress isServer (concat chunks ++ rest) result (receiver c) ->
  wp nothing (read_all chunks) (fun _ c' => lengthZ (block (receiver c')) = LARGE_BUFFER_SIZE /\ progress isServer rest result (receiver c')) c.
Proof using HL HP.
  intros Hch. revert c. induction Hch as [|chunk chunks Hc _ IH]; intros c Hb Hlen P; cbn [read_all concat] in *; [by apply wp_ret|]. rewrite <- app_assoc in P.
  apply Forall_app in Hb as [Hb1 Hb2]. wp_step. eapply wp_mono; [by apply read_spec|]. intros [] c' [Hlen' P']. by apply IH.
Qed.

(** A connection behind the handshake: the parser is new, the socket is open. *)
Record fresh c : Prop := {
  fresh_block : lengthZ (block (receiver c)) = LARGE_BUFFER_SIZE;
  fresh_bytes : Forall is_byte (block (receiver c));
  fresh_parser : exists spill0 mask0, wState (receiver c) = new_WebSocketState spill0 mask0 /\
    lengthZ spill0 = LONG_MESSAGE_HEADER isServer - 1 /\ (isServer = true -> lengthZ mask0 = 4 /\ Forall is_byte mask0);
  fresh_ready : ready_ws deflate (impl (receiver c));
  fresh_buffer : fragmentBuffer (impl (receiver c)) = []
}.

Lemma fresh_progress fs c : fresh c -> Forall plain fs ->
  progress isServer (encode_frames isServer fs) (receive fs (mkRx [] true (impl (receiver c)))) (receiver c).
Proof using.
  intros [Hlen Hbytes (sp & m & Ews & Hsp & Hm) R _] Hplain. destruct c as [[l ws w] pong]. cbn in *. subst ws.
  apply progress_start; try done. change (negb (is_gone w) = true). by rewrite (ready_open deflate w R).
Qed.

Lemma read_frames chunks fs c : fresh c -> Forall plain fs -> Forall chunk_ok chunks -> concat chunks = encode_frames isServer fs ->
  exists c' gone r, read_all chunks c = Ok (tt, c') /\ receive fs (mkRx [] true (impl (receiver c))) = Ok (gone, r) /\
    if gone then same_end_ws (impl (receiver c')) (rx_app r) else impl (receiver c') = rx_app r /\ is_gone (rx_app r) = false.
Proof using HL HP Hmax deflate.
  intros F Hplain Hch E. pose proof (fresh_progress fs c F Hplain) as P. rewrite <- E, <- (app_nil_r (concat chunks)) in P.
  assert (Forall is_byte (concat chunks)) as Hb by (rewrite E; exact (encode_frames_bytes isServer fs Hplain)).
  destruct (wp_total _ _ _ (read_all_spec chunks _ _ c Hch Hb (fresh_block c F) P)) as ([] & c' & Eread & _ & P').
  destruct (progress_done _ _ _ P') as (gone & r & Er & Hr). exists c', gone, r. split; [done|]. split; [done|].
  destruct gone; [done|]. destruct Hr as [Hr Hopen]. split; [done|]. rewrite <- Hr.
  change (negb (is_gone (impl (receiver c'))) = true) in Hopen. by apply negb_true_iff.
Qed.

(** Any bytes at all, where no compression was negotiated. *)
Lemma read_anything chunks c : deflate = false -> fresh c -> Forall chunk_ok chunks -> Forall is_byte (concat chunks) ->
  exists c', read_all chunks c = Ok (tt, c') /\ lengthZ (block (receiver c')) = LARGE_BUFFER_SIZE /\
    (is_gone (impl (receiver c')) = false -> well_typed isServer (wState (receiver c'))).
Proof using HL HP Hmax.
  intros Hdef F Hch Hb. destruct (some_frames isServer (concat chunks) Hb) as (fs & rest & Hfs & E).
  assert (Forall plain fs) as Hplain by (eapply Forall_impl; [exact Hfs|]; intros f ?; split; [done|]; cbn; by rewrite Hdef).
  pose proof (fresh_progress fs c F Hplain) as P. rewrite <- E in P.
  destruct (wp_total _ _ _ (read_all_spec chunks _ _ c Hch Hb (fresh_block c F) P)) as ([] & c' & Eread & Hlen & P').
  exists c'. split; [done|]. split; [done|]. intros Hopen. eapply progress_typed; [exact P'|].
  change (negb (is_gone (impl (receiver c'))) = true). by rewrite Hopen.
Qed.

(** ** Messages

    The frames of one message: its first frame, and then the others with control
    frames between them.  [d] is the text, [cs] are the control frames. *)
Definition control (f : frame) : Prop := (f_op f = PING \/ f_op f = PONG) /\ f_fin f = true /\ f_form f = Short.

Inductive fragments : list frame -> list Z -> list frame -> Prop :=
| fragments_last f : f_op f = 0 -> f_fin f = true -> fragments [f] (f_payload f) []
| fragments_more f fs d cs : f_op f = 0 -> f_fin f = false -> fragments fs d cs -> fragments (f :: fs) (f_payload f ++ d) cs
| fragments_control f fs d cs : control f -> fragments fs d cs -> fragments (f :: fs) d (f :: cs).

Inductive message_of (op : Z) : list frame -> list Z -> list frame -> Prop :=
| message_single f : f_op f = op -> f_fin f = true -> message_of op [f] (f_payload f) []
| message_first f fs d cs : f_op f = op -> f_fin f = false -> fragments fs d cs -> message_of op (f :: fs) (f_payload f ++ d) cs
| message_control f fs d cs : control f -> message_of op fs d cs -> message_of op (f :: fs) d (f :: cs).

(** The frames of several messages. *)
Inductive conversation : list frame -> list (Z * list Z * list frame) -> Prop :=
| conversation_nil : conversation [] []
| conversation_cons op fs d cs fs' items : data_op op -> message_of op fs d cs -> conversation fs' items ->
    conversation (fs ++ fs') ((op, d, cs) :: items).

(** What comes of it: the control frames are handled in order, then the message. *)
Fixpoint handle_controls (cs : list frame) : M (WebSocket K U D) bool :=
  match cs with
  | [] => ret false
  | f :: cs =>
      gone <- end_control isServer rand (f_payload f) (f_op f) ;;
      if gone : bool then ret true else handle_controls cs
  end.

Definition handle_item (op : Z) (d : list Z) (cs : list frame) : M (WebSocket K U D) bool :=
  gone <- handle_controls cs ;; if gone : bool then ret true else end_message isServer rand maxPayload d op.

Fixpoint handle_items (items : list (Z * list Z * list frame)) : M (WebSocket K U D) bool :=
  match items with
  | [] => ret false
  | (op, d, cs) :: items => gone <- handle_item op d cs ;; if gone : bool then ret true else handle_items items
  end.

(** Frames that are not refused: no reserved bit is set, and the payload is not too long. *)
Definition fits (f : frame) : Prop := frame_ok f /\ f_rsv f = 0 /\ f_length f <= maxPayload.

Lemma fits_plain f : fits f -> plain f.
Proof using. intros (? & E & _). split; [done|]. intros _. by rewrite E. Qed.

Lemma accept_fits f ops fin w : fits f -> invalid_frame f = false -> misplaced f (mkRx ops fin w) = false ->
  accept f (mkRx ops fin w) = Ok (false, mkRx (if f_op f =? 0 then ops else ops ++ [f_op f]) (f_fin f) w).
Proof using.
  intros (_ & _ & Hlen) Hv Hm. rewrite accept_begun by (by rewrite Hv). cbn.
  unfold WebSocket_refusePayloadLength. by rewrite (proj2 (Z.ltb_ge _ _)).
Qed.

Lemma valid_data f : fits f -> f_op f = 0 \/ data_op (f_op f) -> invalid_frame f = false.
Proof using. intros (_ & E & _) Hop. unfold invalid_frame. rewrite E. by destruct Hop as [->|[-> | ->]]. Qed.

Lemma valid_control f : fits f -> control f -> invalid_frame f = false /\ lengthZ (f_payload f) <= 125.
Proof using.
  intros (Hf & E & _) (Hop & Hfin & Hform). pose proof (ok_length f Hf) as Hlen. unfold f_length in Hlen. rewrite Hform in Hlen. cbn in Hlen.
  split; [|lia]. unfold invalid_frame, length7, f_length. rewrite E, Hfin, Hform.
  rewrite (proj2 (Z.ltb_ge 125 _)) by lia. by destruct Hop as [-> | ->].
Qed.

(** A control frame within a message. *)
Lemma receive_control f fs ops fin b w : fits f -> control f -> lengthZ ops < 2 -> ready_ws deflate w ->
  exists gone w', end_control isServer rand (f_payload f) (f_op f) w = Ok (gone, w') /\ (gone = false -> ready_ws deflate w') /\
    exists r, receive (f :: fs) (mkRx ops fin (dress b 0 w)) = (if gone then Ok (true, r) else receive fs r) /\
      if gone then same_end_ws (rx_app r) w' else r = mkRx ops true (dress b 0 w').
Proof using HL HP.
  intros Hfit Hc Hops R. destruct (valid_control f Hfit Hc) as [Hv Hlen]. destruct Hc as (Hop & Hfin & _).
  assert (Forall is_byte (f_payload f)) as Hp by apply Hfit.
  assert (f_op f = CLOSE \/ f_op f = PING \/ f_op f = PONG) as Hop' by tauto.
  destruct (wp_total _ _ _ (end_control_spec isServer rand deflate _ (f_op f) w R Hp Hlen Hop')) as (gone & w' & E & Eg & Hst).
  exists gone, w'. split; [done|]. split; [intros Hg; exact (steady_ready _ _ _ R (Hst Hg))|].
  destruct (handle_control isServer rand maxPayload b [] (f_payload f) (f_op f) w gone w') as (b' & t' & Eh & Hg);
    [destruct Hop as [-> | ->]; done|done|done|].
  rewrite app_nil_r in Eh. change (lengthZ []) with 0 in Eh.
  assert ((f_op f =? 0) = false) as E0 by (by destruct Hop as [-> | ->]).
  assert (misplaced f (mkRx ops fin (dress b 0 w)) = false) as Hm.
  { unfold misplaced. rewrite E0. cbn [rx_ops rx_fin]. rewrite (proj2 (Z.eqb_neq _ _)) by lia. cbn [orb].
    destruct Hop as [-> | ->]; by rewrite andb_false_r. }
  exists (if gone then mkRx (ops ++ [f_op f]) true (dress b' t' w') else mkRx ops true (dress b' t' w')).
  split.
  - cbn [receive]. unfold receive_frame, bind. rewrite accept_fits, E0 by done. cbn [rx_ops].
    erewrite deliver_ok; [|cbn [rx_ops rx_app]; rewrite last_last, Hfin; exact Eh].
    destruct gone; [by rewrite Hfin|]. unfold ended. cbn [rx_ops rx_fin rx_app]. by rewrite Hfin, removelast_last.
  - destruct gone; [by exists b', t'|]. by destruct Hg as [-> ->].
Qed.

Definition agrees (o : outcome (bool * rx (WebSocket K U D))) (o' : outcome (bool * WebSocket K U D)) : Prop :=
  exists gone r w', o = Ok (gone, r) /\ o' = Ok (gone, w') /\
    if gone : bool then same_end_ws (rx_app r) w' else r = mkRx [] true (dress [] 0 w') /\ ready_ws deflate w'.

(** A control frame and what comes after it. *)
Lemma agrees_control f fs cs op d ops fin b w : fits f -> control f -> lengthZ ops < 2 -> ready_ws deflate w ->
  (forall w', ready_ws deflate w' -> agrees (receive fs (mkRx ops true (dress b 0 w'))) (handle_item op d cs w')) ->
  agrees (receive (f :: fs) (mkRx ops fin (dress b 0 w))) (handle_item op d (f :: cs) w).
Proof using HL HP.
  intros Hf Hc Hops R IH. destruct (receive_control f fs ops fin b w Hf Hc Hops R) as (gone & w' & E & Hg & r & Er & Hr).
  unfold handle_item. cbn [handle_controls]. unfold bind in *. rewrite Er, E. destruct gone.
  - by exists true, r, w'.
  - subst r. specialize (IH w' (Hg eq_refl)). unfold handle_item, bind in IH. done.
Qed.

(** A frame of the message: its payload joins what is in the buffer. *)
Lemma receive_data f fs ops fin b w : fits f -> f_op f = 0 \/ data_op (f_op f) -> misplaced f (mkRx ops fin (dress b 0 w)) = false ->
  data_op (List.last (if f_op f =? 0 then ops else ops ++ [f_op f]) 0) -> f_fin f = false ->
  receive (f :: fs) (mkRx ops fin (dress b 0 w)) =
  receive fs (mkRx (if f_op f =? 0 then ops else ops ++ [f_op f]) false (dress (b ++ f_payload f) 0 w)).
Proof using.
  intros Hf Hop Hm Hlast Hfin. cbn [receive]. unfold receive_frame, bind. rewrite accept_fits by (try done; by apply valid_data).
  erewrite deliver_ok.
  2: { cbn [rx_ops rx_app handleFragment cn_impl WebSocket_Impl]. rewrite Hfin. unfold WebSocket_handleFragment, bind, get, id.
       rewrite (proj2 (Z.ltb_lt _ _)) by (by destruct Hlast as [-> | ->]). reflexivity. }
  unfold ended. by rewrite Hfin.
Qed.

(** The last frame of the message. *)
Lemma receive_last f ops fin b w op : fits f -> f_op f = 0 \/ data_op (f_op f) -> misplaced f (mkRx ops fin (dress b 0 w)) = false ->
  (if f_op f =? 0 then ops else ops ++ [f_op f]) = [op] -> data_op op -> f_fin f = true -> ready_ws deflate w -> Forall is_byte b ->
  agrees (receive [f] (mkRx ops fin (dress b 0 w))) (handle_item op (b ++ f_payload f) [] w).
Proof using HL HP.
  intros Hf Hop Hm Hops Hlast Hfin R Hb.
  assert (op < 3) as Hop3 by (by destruct Hlast as [-> | ->]).
  assert (Forall is_byte (b ++ f_payload f)) as Hd by (apply Forall_app; split; [done|apply Hf]).
  destruct (wp_total _ _ _ (end_message_spec isServer rand maxPayload deflate _ op w R Hd)) as (gone & w' & E & Eg & Hst).
  destruct (handle_message isServer rand maxPayload b (f_payload f) op w gone w' Hop3 (ws_tip _ w R) E) as (b' & Eh & Hb').
  assert (handle_item op (b ++ f_payload f) [] w = Ok (gone, w')) as E' by exact E.
  cbn [receive]. unfold receive_frame, bind. rewrite accept_fits, Hops by (try done; by apply valid_data).
  erewrite deliver_ok; [|cbn [rx_ops rx_app List.last]; rewrite Hfin; exact Eh].
  unfold agrees. rewrite E'. destruct gone.
  - eexists true, _, w'. split; [done|]. split; [done|]. by exists b', 0.
  - eexists false, _, w'. split; [done|]. split; [done|]. unfold ended. cbn [rx_ops rx_fin rx_app removelast]. rewrite Hfin, Hb' by done.
    split; [done|]. exact (steady_ready _ _ _ R (Hst eq_refl)).
Qed.

Lemma receive_fragments fs d cs op : fragments fs d cs -> forall fin b w, Forall fits fs -> data_op op -> ready_ws deflate w -> Forall is_byte b ->
  agrees (receive fs (mkRx [op] fin (dress b 0 w))) (handle_item op (b ++ d) cs w).
Proof using HL HP.
  induction 1 as [f Hop Hfin|f fs d cs Hop Hfin _ IH|f fs d cs Hc _ IH]; intros fin b w Hfits Hdata R Hb;
    apply Forall_cons in Hfits as [Hf Hfits].
  - apply receive_last; try done; [by left|by unfold misplaced; rewrite Hop|by rewrite Hop].
  - rewrite receive_data; [|done|by left|by unfold misplaced; rewrite Hop|by rewrite Hop|done]. rewrite Hop, app_assoc.
    apply IH; try done. apply Forall_app. split; [done|apply Hf].
  - apply agrees_control; try done. intros w' R'. by apply IH.
Qed.

Lemma receive_message op fs d cs : data_op op -> message_of op fs d cs -> forall w, Forall fits fs -> ready_ws deflate w ->
  agrees (receive fs (mkRx [] true (dress [] 0 w))) (handle_item op d cs w).
Proof using HL HP.
  intros Hdata. induction 1 as [f Hop Hfin|f fs d cs Hop Hfin Hfr|f fs d cs Hc _ IH]; intros w Hfits R; apply Forall_cons in Hfits as [Hf Hfits].
  - assert ((f_op f =? 0) = false) as E0 by (rewrite Hop; by destruct Hdata as [-> | ->]).
    change (f_payload f) with ([] ++ f_payload f). apply receive_last; try done; [right; by rewrite Hop|unfold misplaced; by rewrite E0|by rewrite E0, Hop].
  - assert ((f_op f =? 0) = false) as E0 by (rewrite Hop; by destruct Hdata as [-> | ->]).
    rewrite receive_data; [|done|right; by rewrite Hop|unfold misplaced; by rewrite E0|by rewrite E0, Hop|done].
    rewrite E0, Hop. cbn [app]. apply receive_fragments; try done. apply Hf.
  - apply agrees_control; try done. intros w' R'. by apply IH.
Qed.

Lemma receive_app fs fs' (r : rx (WebSocket K U D)) : receive (fs ++ fs') r = (gone <- receive fs ;; if gone : bool then ret true else receive fs') r.
Proof using.
  revert r. induction fs as [|f fs IH]; intros r; [done|]. cbn [app receive]. unfold bind.
  destruct (receive_frame f r) as [[[] r']| | |]; done.
Qed.

Lemma receive_conversation fs items : conversation fs items -> forall w, Forall fits fs -> ready_ws deflate w ->
  agrees (receive fs (mkRx [] true (dress [] 0 w))) (handle_items items w).
Proof using HL HP.
  induction 1 as [|op fs d cs fs' items Hop Hm _ IH]; intros w Hfits R.
  - exists false, (mkRx [] true (dress [] 0 w)), w. done.
  - apply Forall_app in Hfits as [Hf1 Hf2]. destruct (receive_message op fs d cs Hop Hm w Hf1 R) as (gone & r & w' & Er & Eh & Hr).
    rewrite receive_app. cbn [handle_items]. unfold bind at 1. rewrite Er. unfold bind. rewrite Eh. destruct gone.
    + by exists true, r, w'.
    + destruct Hr as [-> R']. by apply IH.
Qed.

Lemma blind_items items : blind (handle_items items).
Proof using.
  assert (forall cs, blind (handle_controls cs)) as Hcs.
  { induction cs as [|f cs IH]; [apply blind_ret|]. cbn [handle_controls]. apply blind_bind; [apply blind_control|]. by intros []; [apply blind_ret|]. }
  induction items as [|[[op d] cs] items IH]; [apply blind_ret|]. cbn [handle_items]. apply blind_bind; [|by intros []; [apply blind_ret|]].
  apply blind_bind; [done|]. intros []; [apply blind_ret|apply blind_message].
Qed.

(** The reads of a conversation. *)
Lemma read_conversation chunks fs items c : fresh c -> Forall fits fs -> conversation fs items -> Forall chunk_ok chunks ->
  concat chunks = encode_frames isServer fs ->
  exists c' gone w', read_all chunks c = Ok (tt, c') /\ handle_items items (impl (receiver c)) = Ok (gone, w') /\
    if gone then same_end_ws (impl (receiver c')) w' else impl (receiver c') = w'.
Proof using HL HP Hmax deflate.
  intros F Hfits Hconv Hch E. pose proof (fresh_ready c F) as R. set (w := impl (receiver c)).
  assert (dress [] 0 w = w) as Ew by (rewrite <- (fresh_buffer c F) at 1; apply dress_id, R).
  destruct (read_frames chunks fs c F) as (c' & gone & r & Eread & Erec & Hr);
    [by eapply Forall_impl; [|apply fits_plain]|done..|]. fold w in Erec.
  destruct (receive_conversation fs items Hconv w Hfits R) as (gone' & r' & w' & Er' & Eh & Hr').
  rewrite Ew, Erec in Er'. simplify_eq. exists c', gone', w'. split; [done|]. split; [done|]. destruct gone'.
  - destruct Hr as (b & t & ->), Hr' as (b' & t' & ->). by exists b, t.
  - destruct Hr as [-> _], Hr' as [-> _]. cbn. pose proof (blind_items items [] 0 (impl (receiver c))) as Hb. rewrite Ew, Eh in Hb. cbn in Hb. by simplify_eq.
Qed.

(** ** The sender *)

Fixpoint send_all (ms : list (Z * list Z)) : M (WebSocket K U D) unit :=
  match ms with [] => ret tt | (op, d) :: ms => send isServer rand d op NoCallback ;; send_all ms end.

Definition sendable (limit : Z) (m : Z * list Z) : Prop :=
  data_op m.1 /\ Forall is_byte m.2 /\ lengthZ m.2 < 2 ^ 31 /\ lengthZ m.2 <= limit.

Lemma send_all_spec limit ms w : alive (K := K) -> Forall (sendable limit) ms -> live w ->
  wp nothing (send_all ms) (fun _ w' => live w' /\ exists fs, stream (socket w') = stream (socket w) ++ encode_frames (negb isServer) fs /\
    Forall2 (fun m f => exists random, f = sent_frame isServer random m.1 m.2 false) ms fs) w.
Proof using HL.
  intros Halive Hms. revert w. induction Hms as [|[op d] ms (Hop & Hd & Hlen & _) _ IH]; intros w Hw; cbn [send_all].
  - apply wp_ret. split; [done|]. exists []. split; [by rewrite app_nil_r|done].
  - cbn [fst snd] in *. wp_step. apply send_spec; [done..|destruct Hop as [-> | ->]; done|].
    intros s n [] Hok Hopen _ Hstr Hf; [by destruct (Hf eq_refl)|].
    eapply wp_mono; [by apply IH|]. intros [] w' (Hw' & fs & Hstr' & Hfs). split; [done|].
    eexists (_ :: fs). split; [|by constructor; [eexists|]].
    rewrite Hstr'. cbn [socket set_socket]. rewrite Hstr. unfold encode_frames. cbn [map concat]. by rewrite <- app_assoc.
Qed.

End Connection.

(** What a sender of messages puts on the wire is a conversation. *)
Lemma sent_conversation isServer limit ms fs : Forall (sendable limit) ms ->
  Forall2 (fun m f => exists random, f = sent_frame isServer random m.1 m.2 false) ms fs ->
  Forall (fits limit) fs /\ conversation fs (map (fun m => (m.1, m.2, [])) ms).
Proof.
  intros Hms. induction 1 as [|[op d] f ms fs [random ->] _ IH]; [by split; constructor|].
  apply Forall_cons in Hms as [(Hop & Hd & Hlen & Hlimit) Hms]. destruct (IH Hms) as [Hfits Hconv]. cbn [fst snd map] in *.
  split.
  - constructor; [|done]. split; [|by split]. apply sent_frame_ok; [destruct Hop as [-> | ->]; done|done|lia].
  - change (sent_frame isServer random op d false :: fs) with ([sent_frame isServer random op d false] ++ fs).
    constructor; [done| |done]. by apply (message_single op (sent_frame isServer random op d false)).
Qed.

(** ** Theorems *)

(** Frames that are not marked as compressed where compression was negotiated. *)
Definition uncompressed (deflate : bool) (f : frame) : Prop := frame_ok f /\ (deflate = true -> bits_set (f_rsv f) 4 = false).

Section Theorems.
Context (isServer : bool) (rand : nat -> Z) (maxPayload : Z) (deflate : bool).
Context {K : Type} {HK : Kernel K} {HL : KernelLaws K}.
Context {U : Type} {HU : Application U} {HP : Polite U} {D : Type} {HD : Zlib D}.
Implicit Types (c : Connection (K := K) (U := U) (D := D)) (w : WebSocket K U D).

(** C19: what a connection does is a function of the frames it gets.  However the
    encoding of a list of frames is cut into reads, in the middle of a head, of a
    mask or of a payload, masking and the receive buffer are handled without an
    undefined access, and the connection ends in the state in which handling each
    frame at once, in order, leaves it.  Frames the protocol forbids are among
    them: they end the connection at the same place with the same effects; then
    only the contents of the fragment buffer may differ. *)
Theorem WebSocket_reads chunks fs c : maxPayload < 2 ^ 32 ->
  fresh isServer deflate c -> Forall (uncompressed deflate) fs -> Forall chunk_ok chunks -> concat chunks = encode_frames isServer fs ->
  exists c' gone r, read_all isServer rand maxPayload chunks c = Ok (tt, c') /\
    receive (H := WebSocket_Impl isServer rand maxPayload) fs (mkRx [] true (impl (receiver c))) = Ok (gone, r) /\
    if gone : bool then exists b t, impl (receiver c') = dress b t (rx_app r) else impl (receiver c') = rx_app r.
Proof.
  intros Hmax F Hp Hc E. destruct (read_frames isServer rand maxPayload Hmax deflate chunks fs c F Hp Hc E) as (c' & gone & r & E1 & E2 & H).
  exists c', gone, r. split; [done|]. split; [done|]. destruct gone; [done|]. by destruct H.
Qed.

(** C3: no input leads to undefined behaviour.  Whatever bytes a connection without
    compression gets, in whatever pieces: the loops of the parser end, and no access
    to the receive buffer, to the spill, to the stack of opcodes or to the buffers of
    the outgoing messages is out of bounds. *)
Theorem WebSocket_hostile_input chunks c : maxPayload < 2 ^ 32 ->
  fresh isServer false c -> Forall chunk_ok chunks -> Forall is_byte (concat chunks) ->
  exists c', read_all isServer rand maxPayload chunks c = Ok (tt, c') /\ lengthZ (block (receiver c')) = LARGE_BUFFER_SIZE.
Proof.
  intros Hmax F Hch Hb. destruct (read_anything isServer rand maxPayload Hmax false chunks c eq_refl F Hch Hb) as (c' & ? & ? & _).
  by exists c'.
Qed.

(** The state of the parser is well typed between two reads, as long as the
    connection is open, whatever was received: the two-element stack of opcodes is
    never exceeded and its elements are assigned, and the bytes kept of a head
    never exceed their array. *)
Theorem WebSocket_parser_typed chunks c c' : maxPayload < 2 ^ 32 ->
  fresh isServer false c -> Forall chunk_ok chunks -> Forall is_byte (concat chunks) ->
  read_all isServer rand maxPayload chunks c = Ok (tt, c') -> is_gone (impl (receiver c')) = false ->
  well_typed isServer (wState (receiver c')).
Proof.
  intros Hmax F Hch Hb E Hopen. destruct (read_anything isServer rand maxPayload Hmax false chunks c eq_refl F Hch Hb) as (c2 & E2 & _ & H).
  rewrite E in E2. simplify_eq. by apply H.
Qed.

(** C1: messages arrive whole and in order.  The frames of a conversation are those
    of its messages, each in any number of fragments, with pings and pongs before
    and between them.  However they are cut into reads, the effect is that of
    answering the control frames in order and, once the last fragment of a message
    arrived, handing the concatenation of its fragments to the handler for
    messages, if it is a valid one. *)
Theorem WebSocket_conversation chunks fs items c : maxPayload < 2 ^ 32 ->
  fresh isServer deflate c -> Forall (fits maxPayload) fs -> conversation fs items -> Forall chunk_ok chunks ->
  concat chunks = encode_frames isServer fs ->
  exists c' gone w', read_all isServer rand maxPayload chunks c = Ok (tt, c') /\
    handle_items isServer rand maxPayload items (impl (receiver c)) = Ok (gone, w') /\
    if gone : bool then exists b t, impl (receiver c') = dress b t w' else impl (receiver c') = w'.
Proof. intros. by apply (read_conversation isServer rand maxPayload ltac:(done) deflate chunks fs items c). Qed.

End Theorems.

(** C2: what one side sends, the other side's application gets.  A server or a
    client sends messages; its kernel takes the bytes in any pieces, and when it
    goes on taking some, the queue runs empty.  Then, however the other side reads
    those bytes, it ends in the state in which handing it the messages themselves,
    in order, leaves it. *)
Theorem WebSocket_delivery {K U D} {HK : Kernel K} {HL : KernelLaws K} {HU : Application U} {HD : Zlib D}
    {K' U' D'} {HK' : Kernel K'} {HL' : KernelLaws K'} {HU' : Application U'} {HP' : Polite U'} {HD' : Zlib D'}
    isServer rand rand' maxPayload deflate ms (w : WebSocket K U D) :
  maxPayload < 2 ^ 32 -> Forall (sendable maxPayload) ms -> alive (K := K) -> taking (K := K) ->
  ready_ws deflate w -> messageQueue (socket w) = [] -> k_out (kernel (socket w)) = [] ->
  exists w1 n s', send_all isServer rand ms w = Ok (tt, w1) /\
    run_events (replicate n Writable) (socket w1) = Ok (tt, s') /\ messageQueue s' = [] /\
    forall chunks (c : Connection (K := K') (U := U') (D := D')),
      fresh (negb isServer) deflate c -> Forall chunk_ok chunks -> concat chunks = k_out (kernel s') ->
      exists c' gone w', read_all (negb isServer) rand' maxPayload chunks c = Ok (tt, c') /\
        handle_items (negb isServer) rand' maxPayload (map (fun m => (m.1, m.2, [])) ms) (impl (receiver c)) = Ok (gone, w') /\
        if gone : bool then exists b t, impl (receiver c') = dress b t w' else impl (receiver c') = w'.
Proof.
  intros Hmax Hms Halive Htaking R Hq Hout.
  destruct (wp_total _ _ _ (send_all_spec isServer rand maxPayload ms w Halive Hms (ws_live _ w R))) as ([] & w1 & Esend & [Hok Hopen] & fs & Hstr & Hfs).
  destruct (wp_total _ _ _ (drain_spec (Z.to_nat (queued (socket w1))) (socket w1) Hok Hopen Htaking ltac:(lia)))
    as ([] & s' & Edrain & Hq' & Hk).
  exists w1, (Z.to_nat (queued (socket w1))), s'. split_and!; [done..|]. intros chunks c F Hch E.
  destruct (sent_conversation isServer maxPayload ms fs Hms Hfs) as [Hfits Hconv].
  apply (read_conversation (negb isServer) rand' maxPayload Hmax deflate chunks fs _ c); try done.
  rewrite E, Hk, Hstr. unfold stream. by rewrite Hq, Hout.
Qed.

(** ** An echo server *)

#[global] Instance echo : Application (list (Z * list Z)) := {
  messageHandler d op log :=
    (log ++ [(op, d)], if (0 <=? op) && (op <? 16) && (lengthZ d <? 2 ^ 31) then [Send d op NoCallback] else []);
  pingHandler d log := (log ++ [(PING, d)], []);
  pongHandler d log := (log ++ [(PONG, d)], []);
  disconnectionHandler code d log := log ++ [(code, d)]
}.

#[global] Instance echo_polite : Polite (list (Z * list Z)).
Proof.
  constructor; [|done..]. intros d op u Hd. cbn. destruct ((0 <=? op) && (op <? 16) && (lengthZ d <? 2 ^ 31)) eqn:E; [|done].
  apply andb_prop in E as [[? ?]%andb_prop ?]. cbn. split_and!; try done; lia.
Qed.

(** No compression. *)
#[global] Instance no_zlib : Zlib unit := {| z_inflate _ _ z := ((Z_DATA_ERROR, [], []), z); z_reset z := z |}.

Definition new_webSocket : WebSocket (list Z) (list (Z * list Z)) unit := mkWebSocket new_socket [] DISABLED 0 true tt 0 [].

Definition new_connection (isServer : bool) : Connection (K := list Z) (U := list (Z * list Z)) (D := unit) :=
  mkConnection (mkReceiver (replicate (Z.to_nat LARGE_BUFFER_SIZE) 0)
    (new_WebSocketState (replicate (Z.to_nat (LONG_MESSAGE_HEADER isServer - 1)) 0) (if isServer then [0; 0; 0; 0] else [0])) new_webSocket) true.

Lemma new_webSocket_ready : ready_ws false new_webSocket.
Proof. constructor; try done. split; [|done]. constructor; [done|by left|done]. Qed.

Lemma new_connection_fresh isServer : fresh isServer false (new_connection isServer).
Proof.
  assert (forall n, Forall is_byte (replicate n 0)) as Hzero by (intros; apply Forall_replicate; by unfold is_byte).
  constructor; [unfold lengthZ; cbn [block receiver new_connection]; rewrite length_replicate; by vm_compute|apply Hzero| |apply new_webSocket_ready|done].
  eexists _, _. split; [done|]. split; [by destruct isServer|]. intros ->. split; [done|]. apply (Hzero 4%nat).
Qed.

(** The text of six bytes in two fragments with a ping between them, to a server. *)
Definition sample_mask : list Z := [0x37; 0xfa; 0x21; 0x3d].

Definition sample_frames : list frame :=
  [mkFrame false 0 TEXT Short true sample_mask [0x48; 0x65; 0x6c];
   mkFrame true 0 PING Short true sample_mask [1; 2];
   mkFrame true 0 0 Short true sample_mask [0x6c; 0x6f; 0x21]].

Definition sample_items : list (Z * list Z * list frame) :=
  [(TEXT, [0x48; 0x65; 0x6c; 0x6c; 0x6f; 0x21], [mkFrame true 0 PING Short true sample_mask [1; 2]])].

Lemma sample_fits : Forall (fits 100) sample_frames.
Proof. repeat constructor; cbn; by vm_compute. Qed.

Lemma sample_conversation : conversation sample_frames sample_items.
Proof.
  apply (conversation_cons TEXT sample_frames _ _ [] []); [by left| |constructor].
  apply (message_first TEXT (mkFrame false 0 TEXT Short true sample_mask [0x48; 0x65; 0x6c]) _ [0x6c; 0x6f; 0x21]); [done..|]. apply fragments_control; [by split; [left|]|]. by apply (fragments_last (mkFrame true 0 0 Short true sample_mask [0x6c; 0x6f; 0x21])).
Qed.

(** Cut behind the tenth and the twelfth byte. *)
Definition sample_chunks : list (list Z) :=
  let l := encode_frames true sample_frames in [slice l 0 10; slice l 10 2; slice l 12 100].

Lemma sample_chunks_ok : Forall chunk_ok sample_chunks /\ concat sample_chunks = encode_frames true sample_frames.
Proof. split; [|by vm_compute]. repeat constructor; by vm_compute. Qed.

Lemma WebSocket_reads_witness :
  exists c' gone r, read_all true (fun _ => 0) 100 sample_chunks (new_connection true) = Ok (tt, c') /\
    receive (H := WebSocket_Impl true (fun _ => 0) 100) sample_frames (mkRx [] true (impl (receiver (new_connection true)))) = Ok (gone, r) /\
    if gone : bool then exists b t, impl (receiver c') = dress b t (rx_app r) else impl (receiver c') = rx_app r.
Proof.
  apply (WebSocket_reads true (fun _ => 0) 100 false sample_chunks sample_frames); [done|apply new_connection_fresh| |apply sample_chunks_ok..].
  eapply Forall_impl; [apply sample_fits|]. by intros f [? _].
Defined.

Lemma WebSocket_conversation_witness :
  exists c' gone w', read_all true (fun _ => 0) 100 sample_chunks (new_connection true) = Ok (tt, c') /\
    handle_items true (fun _ => 0) 100 sample_items (impl (receiver (new_connection true))) = Ok (gone, w') /\
    if gone : bool then exists b t, impl (receiver c') = dress b t w' else impl (receiver c') = w'.
Proof.
  apply (WebSocket_conversation true (fun _ => 0) 100 false sample_chunks sample_frames);
    [done|apply new_connection_fresh|apply sample_fits|apply sample_conversation|apply sample_chunks_ok..].
Defined.

Lemma WebSocket_delivery_witness :
  let ms := [(TEXT, [0x48; 0x69]); (BINARY, [1; 2; 3])] in
  exists w1 n s', send_all false (fun n => Z.of_nat n + 5) ms new_webSocket = Ok (tt, w1) /\
    run_events (replicate n Writable) (socket w1) = Ok (tt, s') /\ messageQueue s' = [] /\
    forall chunks (c : Connection (K := list Z) (U := list (Z * list Z)) (D := unit)),
      fresh true false c -> Forall chunk_ok chunks -> concat chunks = k_out (kernel s') ->
      exists c' gone w', read_all true (fun _ => 0) 100 chunks c = Ok (tt, c') /\
        handle_items true (fun _ => 0) 100 (map (fun m => (m.1, m.2, [])) ms) (impl (receiver c)) = Ok (gone, w') /\
        if gone : bool then exists b t, impl (receiver c') = dress b t w' else impl (receiver c') = w'.
Proof.
  intros ms. apply (WebSocket_delivery false (fun n => Z.of_nat n + 5) (fun _ => 0) 100 false ms new_webSocket); try done.
  - constructor; [|constructor; [|done]]; (split; [by (left + right)|]); repeat constructor; by vm_compute.
  - intros d k Hd. exists (Z.min 3 (lengthZ d)). split; [|done].
    destruct d; [done|]. rewrite lengthZ_cons. pose proof (lengthZ_nonneg d). lia.
  - apply new_webSocket_ready.
Defined.

(** What the sample leads to: the pong and the echo are sent, and both were seen. *)
Lemma sample_run :
  match read_all true (fun _ => 0) 100 sample_chunks (new_connection true) with
  | Ok (_, c) => user (impl (receiver c)) = [(PING, [1; 2]); (TEXT, [0x48; 0x65; 0x6c; 0x6c; 0x6f; 0x21])]
  | _ => False
  end.
Proof. by vm_compute. Qed.

(** A frame with two bytes missing, behind an empty one; and random bytes. *)
Definition broken_chunks : list (list Z) := [[0x82; 0x80; 1; 2; 3; 4; 0x01]; [0x05; 9; 9; 9; 9; 65; 66; 67]].
Definition random_chunks : list (list Z) := [[13; 200; 7]; [254; 3; 3; 255; 255; 0; 17; 4]].

Lemma byte_chunks_ok : Forall (fun chunks => Forall chunk_ok chunks /\ Forall is_byte (concat chunks)) [broken_chunks; random_chunks].
Proof. repeat (constructor || split); by vm_compute. Qed.

Lemma WebSocket_hostile_input_witness :
  exists c', read_all true (fun _ => 0) 100 random_chunks (new_connection true) = Ok (tt, c') /\
    lengthZ (block (receiver c')) = LARGE_BUFFER_SIZE.
Proof.
  pose proof byte_chunks_ok as H. apply Forall_cons in H as [_ [[H1 H2] _]%Forall_cons].
  apply (WebSocket_hostile_input true (fun _ => 0) 100 random_chunks); [done|apply new_connection_fresh|done..].
Defined.

Lemma WebSocket_parser_typed_witness :
  match read_all true (fun _ => 0) 100 broken_chunks (new_connection true) with
  | Ok (_, c') => well_typed true (wState (receiver c'))
  | _ => False
  end.
Proof.
  assert (match read_all true (fun _ => 0) 100 broken_chunks (new_connection true) with
    | Ok (_, c') => is_gone (impl (receiver c')) = false | _ => False end) as Hopen by (by vm_compute).
  destruct (read_all true (fun _ => 0) 100 broken_chunks (new_connection true)) as [[[] c']| | |] eqn:E; [|done..].
  pose proof byte_chunks_ok as H. apply Forall_cons in H as [[H1 H2] _].
  apply (WebSocket_parser_typed true (fun _ => 0) 100 broken_chunks (new_connection true)); [done|apply new_connection_fresh|done..].
Defined.

(** ** What the protocol forbids and the parser lets pass *)

Definition log_of {D} (o : outcome (unit * Connection (K := list Z) (U := list (Z * list Z)) (D := D))) : list (Z * list Z) :=
  match o with Ok (_, c) => user (impl (receiver c)) | _ => [] end.

(** A binary frame may interrupt a text message; both arrive as one binary message,
    whose text is not validated. *)
Lemma interleaved_messages :
  let fs := [mkFrame false 0 TEXT Short true sample_mask [0x61; 0xff]; mkFrame true 0 BINARY Short true sample_mask [1; 2]] in
  log_of (read_all true (fun _ => 0) 100 [encode_frames true fs] (new_connection true)) = [(BINARY, [0x61; 0xff; 1; 2])].
Proof. by vm_compute. Qed.

(** Behind a control frame a second message may begin in the same way. *)
Lemma interleaved_by_ping :
  let fs := [mkFrame false 0 TEXT Short true sample_mask [0x61]; mkFrame true 0 PING Short true sample_mask [];
             mkFrame true 0 TEXT Short true sample_mask [0x62]] in
  log_of (read_all true (fun _ => 0) 100 [encode_frames true fs] (new_connection true)) = [(PING, []); (TEXT, [0x61; 0x62])].
Proof. by vm_compute. Qed.

(** A server takes a frame without a mask bit for a masked one. *)
Lemma unmasked_frame :
  let fs := [mkFrame true 0 BINARY Short false sample_mask [1; 2]] in
  log_of (read_all true (fun _ => 0) 100 [encode_frames true fs] (new_connection true)) = [(BINARY, [1; 2])].
Proof. by vm_compute. Qed.

(** A compressed frame is refused when the first read ends inside of its length
    field, and accepted otherwise. *)
Definition deflate_connection : Connection (K := list Z) (U := list (Z * list Z)) (D := list Z) :=
  mkConnection (mkReceiver (replicate (Z.to_nat LARGE_BUFFER_SIZE) 0)
    (new_WebSocketState (replicate 13 0) [0; 0; 0; 0]) (mkWebSocket new_socket [] ENABLED 0 true [] 0 [])) true.

Lemma compressed_head_split :
  let l := encode_frames true [mkFrame true 4 BINARY Medium true sample_mask [3; 65]] in
  log_of (read_all true (fun _ => 0) 100 [l] deflate_connection) = [(BINARY, [65; 65; 65])] /\
  log_of (read_all true (fun _ => 0) 100 [slice l 0 7; slice l 7 100] deflate_connection) = [(1006, [])].
Proof. by vm_compute. Qed.
