(* ===== verification/Group.v ===== *)
(** * Groups of WebSockets

    src/libuws/src/Group.cpp, src/libuws/include/Group.h and the prepared messages
    of src/libuws/src/WebSocket.cpp: the doubly linked list of the sockets of a
    group, the iteration over it, during which sockets may be removed, messages
    that are formatted once and sent to many sockets, and the timer that ends
    connections which do not answer.

    Objects are known by their addresses, which are integers.  The handlers of the
    application are not called here. *)

From S2P Require Import Prelude Memory Buffer WebSocketProtocol Socket.

(** [prev] and [next] of a socket; [None] is the null pointer. *)
Record Link := mkLink { prev : option Z; next : option Z }.

(** A socket of the group with its [hasOutstandingPong]. *)
Record Member (K : Type) := mkMember { m_socket : Socket K; m_pong : bool }.
Arguments mkMember {K}.
Arguments m_socket {K}.
Arguments m_pong {K}.

(** struct PreparedMessage; a null message has no entry in [prepared] below. *)
Record PreparedMessage := mkPrepared { p_buffer : list Z; p_length : Z; references : Z }.

(** struct Group with the objects its sockets and messages are.  The first element
    of [iterators] is its top. *)
Record Group (K : Type) := mkGroup {
  links : gmap Z Link;
  webSocketHead : option Z;
  iterators : list (option Z);
  sockets : gmap Z (Member K);
  prepared : gmap Z PreparedMessage;
  userPingMessage : list Z
}.
Arguments mkGroup {K}.
Arguments links {K}.
Arguments webSocketHead {K}.
Arguments iterators {K}.
Arguments sockets {K}.
Arguments prepared {K}.
Arguments userPingMessage {K}.

Section Group.
Context (isServer : bool) {K : Type} {HK : Kernel K}.
#[local] Abbreviation G := (Group K).

Definition set_links m (g : G) : G := mkGroup m (webSocketHead g) (iterators g) (sockets g) (prepared g) (userPingMessage g).
Definition set_webSocketHead h (g : G) : G := mkGroup (links g) h (iterators g) (sockets g) (prepared g) (userPingMessage g).
Definition set_iterators l (g : G) : G := mkGroup (links g) (webSocketHead g) l (sockets g) (prepared g) (userPingMessage g).
Definition set_sockets m (g : G) : G := mkGroup (links g) (webSocketHead g) (iterators g) m (prepared g) (userPingMessage g).
Definition set_prepared m (g : G) : G := mkGroup (links g) (webSocketHead g) (iterators g) (sockets g) m (userPingMessage g).

(** ** The list of sockets *)

Definition get_link (x : Z) : M G Link :=
  g <- get id ;; match links g !! x with Some l => ret l | None => undef end.

Definition set_prev (x : Z) (p : option Z) : M G unit :=
  l <- get_link x ;; modify (fun g => set_links (<[x := mkLink p (next l)]> (links g)) g).

Definition set_next (x : Z) (n : option Z) : M G unit :=
  l <- get_link x ;; modify (fun g => set_links (<[x := mkLink (prev l) n]> (links g)) g).

Definition addWebSocket (webSocket : Z) : M G unit :=
  g <- get id ;;
  match webSocketHead g with
  | Some head => set_prev head (Some webSocket) ;; set_next webSocket (Some head)
  | None => set_next webSocket None
  end ;;
  modify (set_webSocketHead (Some webSocket)) ;;
  set_prev webSocket None.

Definition removeWebSocket (webSocket : Z) : M G unit :=
  l <- get_link webSocket ;;
  modify (fun g => match iterators g with [] => g | _ :: its => set_iterators (next l :: its) g end) ;;
  if decide (prev l = next l) then modify (set_webSocketHead None)
  else
    match prev l with
    | Some p => set_next p (next l)
    | None => modify (set_webSocketHead (next l))
    end ;;
    match next l with
    | Some n => set_prev n (prev l)
    | None => ret tt
    end.

(** One round of the loop of forEach. *)
Definition forEach_round (cb : Z -> M G unit) (iterator : option Z) : M G (option Z + unit) :=
  match iterator with
  | None => ret (inr tt)
  | Some lastIterator =>
      cb lastIterator ;;
      g <- get id ;;
      match iterators g with
      | [] => undef
      | top :: its =>
          if decide (top = Some lastIterator) then
            l <- get_link lastIterator ;;
            modify (set_iterators (next l :: its)) ;; ret (inl (next l))
          else ret (inl top)
      end
  end.

(** Each round moves on in the list, whose elements are among [links]. *)
Definition forEach (cb : Z -> M G unit) : M G unit :=
  g <- get id ;;
  modify (set_iterators (webSocketHead g :: iterators g)) ;;
  iter (S (S (size (links g)))) (forEach_round cb) (webSocketHead g) ;;
  g <- get id ;;
  match iterators g with [] => undef | _ :: its => modify (set_iterators its) end.

(** ** Prepared messages *)

(** Both [new]s are the address [id]; [random] is rand(). *)
Definition prepareMessage (random id : Z) (data : list Z) (opCode : Z) (compressed : bool) : M G unit :=
  p <- with_block (replicate (Z.to_nat (lengthZ data + 10)) 0)
         (length <- formatMessage isServer random 0 data opCode (lengthZ data) compressed ;;
          buffer <- get (fun l => l) ;; ret (mkPrepared buffer length 1)) ;;
  modify (fun g => set_prepared (<[id := p]> (prepared g)) g).

Fixpoint format_batch (random : Z) (messages : list (list Z)) (opCode : Z) (compressed : bool) (offset : Z) : M (list Z) Z :=
  match messages with
  | [] => ret offset
  | m :: messages =>
      length <- formatMessage isServer random offset m opCode (lengthZ m) compressed ;;
      format_batch random messages opCode compressed (offset + length)
  end.

Definition prepareMessageBatch (random id : Z) (messages : list (list Z)) (opCode : Z) (compressed : bool) : M G unit :=
  let batchLength := lengthZ (concat messages) in
  p <- with_block (replicate (Z.to_nat (batchLength + 10 * lengthZ messages)) 0)
         (length <- format_batch random messages opCode compressed 0 ;;
          buffer <- get (fun l => l) ;; ret (mkPrepared buffer length 1)) ;;
  modify (fun g => set_prepared (<[id := p]> (prepared g)) g).

(** [--references], and the deletion of the message when nobody refers to it. *)
Definition release (id : Z) : M G unit :=
  g <- get (fun g => g) ;;
  match prepared g !! id with
  | None => undef
  | Some p =>
      let p := mkPrepared (p_buffer p) (p_length p) (references p - 1) in
      modify (set_prepared (if references p =? 0 then delete id (prepared g) else <[id := p]> (prepared g)))
  end.

(** The messages that were sent or given up: their callback is the lambda of
    sendPrepared, without a callback of the application. *)
Fixpoint run_callbacks (l : list (Z * bool)) : M G unit :=
  match l with [] => ret tt | (id, _) :: l => release id ;; run_callbacks l end.

Definition on_member {A} (x : Z) (m : M (Socket K) A) : M G A :=
  g <- get id ;;
  match sockets g !! x with
  | None => undef
  | Some ws =>
      match m (m_socket ws) with
      | Ok (a, s) =>
          let '(s, done) := (mkSocket (fd s) (poll s) (shuttingDown s) (timer s) (messageQueue s) (kernel s) [], called s) in
          modify (set_sockets (<[x := mkMember s (m_pong ws)]> (sockets g))) ;; run_callbacks done ;; ret a
      | Abort => abort
      | Undef => undef
      | NoFuel => fun _ => NoFuel
      end
  end.

Definition sendPrepared (id x : Z) : M G unit :=
  g <- get (fun g => g) ;;
  match prepared g !! id with
  | None => undef
  | Some p =>
      modify (set_prepared (<[id := mkPrepared (p_buffer p) (p_length p) (references p + 1)]> (prepared g))) ;;
      r <- on_member x (write (mkMessage (slice (p_buffer p) 0 (p_length p)) (UserCallback id))) ;;
      match r with
      | Some true => ret tt
      | _ => release id
      end
  end.

Definition finalizeMessage (id : Z) : M G unit := release id.

Definition broadcast (random id : Z) (message : list Z) (opCode : Z) : M G unit :=
  prepareMessage random id message opCode false ;;
  forEach (sendPrepared id) ;;
  finalizeMessage id.

(** ** Ends *)

(** WebSocket::onEnd of the socket [x]. *)
Definition terminate (x : Z) : M G unit :=
  g <- get id ;;
  match sockets g !! x with
  | None => undef
  | Some ws =>
      (if negb (shuttingDown (m_socket ws)) then removeWebSocket x else on_member x cancelTimeout) ;;
      on_member x (closeSocket ;; s <- get id ;; cancel_messages (messageQueue s))
  end.

(** stopListening, which concerns the listening socket, is left out. *)
Definition Group_terminate : M G unit := forEach terminate.

(** The lambda of timerCallback. *)
Definition check_pong (x : Z) : M G unit :=
  g <- get id ;;
  match sockets g !! x with
  | None => undef
  | Some ws =>
      if m_pong ws then terminate x
      else modify (set_sockets (<[x := mkMember (m_socket ws) true]> (sockets g)))
  end.

Definition timerCallback (random id : Z) : M G unit :=
  forEach check_pong ;;
  message <- get userPingMessage ;;
  if negb (lengthZ message =? 0) then broadcast random id message TEXT else broadcast random id [] PING.

(** The writable part of ioHandler for the socket [x]. *)
Definition writable (x : Z) : M G unit :=
  ended <- on_member x on_writable ;;
  if ended : bool then terminate x else ret tt.

End Group.
