(* ===== verification/GroupSpec.v ===== *)
(** * What a group promises

    The links of the sockets of a group represent a list, the iteration visits
    each element once although elements are removed on the way, and a prepared
    message lives exactly as long as somebody refers to it. *)

From S2P Require Import Prelude Memory Buffer WebSocketProtocol Masking WebSocketFrames WebSocketProtocolSpec Socket SocketSpec WebSocketFormat Group.

(** ** Linked lists *)

(** The list [l] is linked, between [p] and [e]. *)
Fixpoint seg (m : gmap Z Link) (p : option Z) (l : list Z) (e : option Z) : Prop :=
  match l with
  | [] => True
  | x :: l' => m !! x = Some (mkLink p (match l' with [] => e | y :: _ => Some y end)) /\ seg m (Some x) l' e
  end.

Definition first (l : list Z) (e : option Z) : option Z := match l with [] => e | y :: _ => Some y end.

Lemma seg_app m p l1 l2 e : seg m p (l1 ++ l2) e <-> seg m p l1 (first l2 e) /\ seg m (match last l1 with Some y => Some y | None => p end) l2 e.
Proof.
  revert p. induction l1 as [|x l1 IH]; intros p; cbn [app seg]; [cbn; tauto|]. rewrite IH.
  destruct l1 as [|y l1]; cbn [app]; [destruct l2; cbn; tauto|]. rewrite last_cons_cons.
  assert (is_Some (last (y :: l1))) as [z ->] by (apply last_is_Some; done). tauto.
Qed.

Lemma seg_insert m p l e x lk : x ∉ l -> seg m p l e -> seg (<[x := lk]> m) p l e.
Proof.
  revert p. induction l as [|y l IH]; intros p; [done|]. rewrite not_elem_of_cons. intros [Hne Hx] [E S]. split; [|by apply IH].
  by rewrite lookup_insert_ne.
Qed.

(** The first element gets another predecessor, the last one another successor. *)
Lemma seg_first m p l e p' x : x ∉ l -> seg m p (x :: l) e -> seg (<[x := mkLink p' (first l e)]> m) p' (x :: l) e.
Proof. intros Hx [_ S]. split; [by rewrite lookup_insert_eq|]. by apply seg_insert. Qed.

Lemma seg_last m p l e e' x : x ∉ l -> seg m p (l ++ [x]) e ->
  seg (<[x := mkLink (match last l with Some y => Some y | None => p end) e']> m) p (l ++ [x]) e'.
Proof.
  intros Hx [S1 _]%seg_app. apply seg_app. split; [|split; [by rewrite lookup_insert_eq|done]]. by apply seg_insert.
Qed.

Lemma seg_lookup m p l1 x l2 e : seg m p (l1 ++ x :: l2) e ->
  m !! x = Some (mkLink (match last l1 with Some y => Some y | None => p end) (first l2 e)).
Proof. by intros [_ [E _]]%seg_app. Qed.

Section Group.
Context {K : Type} {HK : Kernel K}.
Implicit Types (g : Group K).

(** The sockets of the group are [l], in this order. *)
Record linked g (l : list Z) : Prop := {
  linked_nodup : NoDup l;
  linked_head : webSocketHead g = head l;
  linked_seg : seg (links g) None l None
}.

Lemma wp_get_link b x lk g (Q : Link -> Group K -> Prop) : links g !! x = Some lk -> Q lk g -> wp b (get_link x) Q g.
Proof using. intros E HQ. unfold get_link. wp_step. apply wp_get. unfold id. rewrite E. by apply wp_ret. Qed.

Lemma wp_set_prev b x p lk g (Q : unit -> Group K -> Prop) : links g !! x = Some lk ->
  Q tt (set_links (<[x := mkLink p (next lk)]> (links g)) g) -> wp b (set_prev x p) Q g.
Proof using. intros E HQ. unfold set_prev. wp_step. eapply wp_get_link; [done|]. by apply wp_modify. Qed.

Lemma wp_set_next b x n lk g (Q : unit -> Group K -> Prop) : links g !! x = Some lk ->
  Q tt (set_links (<[x := mkLink (prev lk) n]> (links g)) g) -> wp b (set_next x n) Q g.
Proof using. intros E HQ. unfold set_next. wp_step. eapply wp_get_link; [done|]. by apply wp_modify. Qed.

(** What an operation on the list changes. *)
Definition relinked g g' (its : list (option Z)) : Prop :=
  iterators g' = its /\ sockets g' = sockets g /\ prepared g' = prepared g /\ userPingMessage g' = userPingMessage g /\
  dom (links g') = dom (links g).

Lemma addWebSocket_spec x l g : linked g l -> x ∉ l -> is_Some (links g !! x) ->
  wp nothing (addWebSocket x) (fun _ g' => linked g' (x :: l) /\ relinked g g' (iterators g)) g.
Proof using.
  intros [Hn Hh S] Hx [lk Elk]. unfold addWebSocket. wp_step. apply wp_get. unfold id. rewrite Hh. wp_step.
  apply wp_mono with (fun _ g' => exists m lk', g' = set_links m g /\ dom m = dom (links g) /\ m !! x = Some (mkLink lk' (head l)) /\
    seg m (Some x) l None).
  - destruct l as [|y l]; cbn [head].
    + eapply wp_set_next; [done|]. eexists _, _. split; [done|]. rewrite lookup_insert_eq.
      split; [|done]. apply dom_insert_lookup_L. by eexists.
    + destruct S as [Ey S]. apply not_elem_of_cons in Hx as [Hne Hx]. apply NoDup_cons in Hn as [Hy Hn].
      wp_step. eapply wp_set_prev; [done|]. eapply wp_set_next; [cbn; by rewrite lookup_insert_ne|].
      cbn. eexists _, _. split; [done|]. rewrite lookup_insert_eq. split; [|split; [done|]].
      * rewrite !dom_insert_lookup_L; [done|by eexists|rewrite lookup_insert_ne by done; by eexists].
      * split; [by rewrite lookup_insert_ne, lookup_insert_eq|]. by apply seg_insert, seg_insert.
  - intros _ ? (m & lk' & -> & Edom & Em & Sm). wp_step. apply wp_modify. eapply wp_set_prev; [done|]. cbn [next]. split.
    + constructor; [by constructor|done|]. cbn. split; [by rewrite lookup_insert_eq; destruct l|]. by apply seg_insert.
    + split_and!; try done. cbn. rewrite dom_insert_lookup_L; [done|by eexists].
Qed.

Lemma removeWebSocket_spec l1 x l2 g : linked g (l1 ++ x :: l2) ->
  wp nothing (removeWebSocket x) (fun _ g' => linked g' (l1 ++ l2) /\
    relinked g g' (match iterators g with [] => [] | _ :: its => head l2 :: its end)) g.
Proof using.
  intros [Hn Hh S]. pose proof (seg_lookup _ _ _ _ _ _ S) as Ex. unfold removeWebSocket.
  wp_step. eapply wp_get_link; [done|]. cbn [prev next]. wp_step. apply wp_modify.
  set (its := match iterators g with [] => [] | _ :: its => head l2 :: its end).
  assert (forall g' : Group K, match iterators g with [] => g | _ :: i => set_iterators (first l2 None :: i) g end = set_iterators its g) as Eits.
  { intros _. unfold its, first, head. destruct (iterators g) eqn:E; [|by destruct l2]. destruct g; cbn in *. by subst. }
  cbn [iterators]. rewrite (Eits g). clear Eits.
  apply NoDup_app in Hn as (Hn1 & Hdis & [Hx2 Hn2]%NoDup_cons).
  assert (x ∉ l1) as Hx1 by (intros H; apply (Hdis x H); by left).
  assert (NoDup (l1 ++ l2)) as Hn12 by (apply NoDup_app; split_and!; [done|intros y Hy Hy2; apply (Hdis y Hy); by right|done]).
  apply seg_app in S as [S1 [_ S2]]. cbn [first] in S1.
  destruct l1 as [|p l1 _] using rev_ind; [|rewrite last_snoc]; destruct l2 as [|n l2]; cbn [first last].
  - rewrite decide_True by done. apply wp_modify. done.
  - rewrite decide_False by done. wp_step. apply wp_modify.
    assert (links g !! n = Some (mkLink (Some x) (first l2 None))) as En by apply S2.
    eapply wp_set_prev; [exact En|]. apply NoDup_cons in Hn2 as [Hn2 _]. split.
    + constructor; [done..|]. by eapply seg_first.
    + split_and!; try done. cbn. apply dom_insert_lookup_L. by eexists.
  - rewrite decide_False by done.
    pose proof (seg_lookup _ _ _ _ _ _ S1) as Ep. apply NoDup_app in Hn1 as (_ & Hd1 & _).
    assert (p ∉ l1) as Hp by (intros H; apply (Hd1 p H); by left).
    wp_step. eapply wp_set_next; [exact Ep|]. apply wp_ret. rewrite app_nil_r in *. split.
    + constructor; [done| |by apply (seg_last _ _ _ (Some x))]. cbn. rewrite Hh. by destruct l1.
    + split_and!; try done. cbn. apply dom_insert_lookup_L. by eexists.
  - assert (links g !! n = Some (mkLink (Some x) (first l2 None))) as En by apply S2.
    pose proof (seg_lookup _ _ _ _ _ _ S1) as Ep. apply NoDup_app in Hn1 as (_ & Hd1 & _).
    assert (p ∉ l1) as Hp by (intros H; apply (Hd1 p H); by left).
    pose proof Hn12 as (_ & Hd12 & _)%NoDup_app.
    assert (p ∉ n :: l2) as Hp2 by (apply Hd12; apply elem_of_app; right; by left).
    assert (p <> n) as Hpn by (intros ->; apply Hp2; by left).
    rewrite decide_False by (intros [= ?]; done).
    wp_step. eapply wp_set_next; [exact Ep|]. cbn [prev]. eapply wp_set_prev; [cbn; rewrite lookup_insert_ne by done; exact En|].
    cbn [next]. apply NoDup_cons in Hn2 as [Hn2 Hn2']. split.
    + constructor; [done|cbn; rewrite Hh; by destruct l1|]. apply seg_app. split.
      * apply seg_insert; [intros H; by apply (Hd12 n H); left|]. by apply (seg_last _ _ _ (Some x)).
      * rewrite last_snoc. eapply seg_first; [done|]. apply seg_insert; [done|]. exact S2.
    + split_and!; try done. cbn. rewrite !dom_insert_lookup_L; [done|by eexists|rewrite lookup_insert_ne by done; by eexists].
Qed.

Lemma linked_iterators l its g : linked g l -> linked (set_iterators its g) l.
Proof using. intros []. by constructor. Qed.

Lemma linked_member l g x : linked g l -> x ∈ l -> is_Some (links g !! x).
Proof using. intros [_ _ S] (l1 & l2 & ->)%list_elem_of_split. rewrite (seg_lookup _ _ _ _ _ _ S). by eexists. Qed.

Lemma linked_size l g : linked g l -> (length l <= size (links g))%nat.
Proof using.
  intros L. rewrite <- (size_list_to_set (C := gset Z) l (linked_nodup _ _ L)), <- size_dom. apply subseteq_size.
  intros x Hx%elem_of_list_to_set. apply elem_of_dom. by eapply linked_member.
Qed.

(** ** Iteration

    [J d k] holds when the elements [d] were visited and [k] of them are left.  A
    callback may remove the socket it is called for, but no other one. *)
Section Iteration.
Context (cb : Z -> M (Group K) unit) (J : list Z -> list Z -> Group K -> Prop) (l : list Z) (its : list (option Z)).
Context (J_iterators : forall d k g i, J d k g -> J d k (set_iterators i g)).
Context (cb_spec : forall d x rest k g, l = d ++ x :: rest -> linked g (k ++ x :: rest) -> iterators g = Some x :: its -> J d k g ->
  wp nothing (cb x) (fun _ g' => exists b : bool, linked g' (k ++ (if b then x :: rest else rest)) /\
    iterators g' = (if b then Some x else head rest) :: its /\ J (d ++ [x]) (if b then k ++ [x] else k) g') g).

Lemma forEach_loop rest : forall n d k g, l = d ++ rest -> (length rest < n)%nat -> linked g (k ++ rest) -> iterators g = head rest :: its -> J d k g ->
  wp nothing (iter n (forEach_round cb) (head rest)) (fun _ g' => exists k', linked g' k' /\ iterators g' = None :: its /\ J l k' g') g.
Proof using cb_spec J_iterators.
  induction rest as [|x rest IH]; intros n d k g El Hn L Hi HJ; (destruct n as [|n]; [cbn in Hn; lia|]); cbn [iter head forEach_round].
  - wp_step. apply wp_ret. apply wp_ret. rewrite app_nil_r in *. subst. by exists k.
  - wp_step. wp_step. eapply wp_mono; [by eapply cb_spec|]. intros [] g1 (b & L1 & Hi1 & HJ1). wp_step. apply wp_get. unfold id. rewrite Hi1.
    assert (l = (d ++ [x]) ++ rest) as El' by (by rewrite <- app_assoc). cbn in Hn.
    pose proof (linked_nodup _ _ L) as (_ & _ & [Hx _]%NoDup_cons)%NoDup_app.
    destruct b.
    + rewrite decide_True by done. wp_step. eapply wp_get_link; [exact (seg_lookup _ _ _ _ _ _ (linked_seg _ _ L1))|]. cbn [next].
      replace (first rest None) with (head rest) by (by destruct rest). wp_step. apply wp_modify. apply wp_ret.
      apply (IH n (d ++ [x]) (k ++ [x])); [done|lia| |done|by apply J_iterators]. apply linked_iterators. by rewrite <- app_assoc.
    + rewrite decide_False by (destruct rest; cbn; [done|]; intros [= ->]; apply Hx; by left). apply wp_ret.
      apply (IH n (d ++ [x]) k); [done|lia|done..].
Qed.

Lemma forEach_spec g : linked g l -> iterators g = its -> J [] [] g ->
  wp nothing (forEach cb) (fun _ g' => exists k, linked g' k /\ iterators g' = its /\ J l k g') g.
Proof using cb_spec J_iterators.
  intros L Hi HJ. unfold forEach. wp_step. apply wp_get. unfold id. wp_step. apply wp_modify. wp_step.
  rewrite (linked_head _ _ L), Hi. pose proof (linked_size _ _ L).
  eapply wp_mono; [apply (forEach_loop l _ [] [])|]; [done|lia|by apply linked_iterators|done|by apply J_iterators|].
  intros [] g1 (k & L1 & Hi1 & HJ1). wp_step. apply wp_get. unfold id. rewrite Hi1. apply wp_modify.
  exists k. split; [by apply linked_iterators|]. split; [done|by apply J_iterators].
Qed.

End Iteration.

(** ** References to prepared messages *)

Definition callback_is (id : Z) (c : Callback) : Z := match c with UserCallback i => if i =? id then 1 else 0 | _ => 0 end.

Fixpoint waiting (id : Z) (q : list Message) : Z :=
  match q with [] => 0 | m :: q => callback_is id (m_callback m) + waiting id q end.

Fixpoint finished (id : Z) (l : list (Z * bool)) : Z :=
  match l with [] => 0 | c :: l => (if fst c =? id then 1 else 0) + finished id l end.

(** How many messages in the queues of all sockets are the message [id]. *)
Definition total (id : Z) (m : gmap Z (Member K)) : Z :=
  map_fold (fun _ ws n => waiting id (messageQueue (m_socket ws)) + n) 0 m.

Lemma waiting_nonneg id q : 0 <= waiting id q.
Proof using. induction q as [|m q IH]; cbn; [done|]. unfold callback_is. repeat case_match; lia. Qed.

Lemma waiting_app id q1 q2 : waiting id (q1 ++ q2) = waiting id q1 + waiting id q2.
Proof using. induction q1; cbn; lia. Qed.

Lemma finished_nonneg id l : 0 <= finished id l.
Proof using. induction l as [|c l IH]; cbn; [done|]. case_match; lia. Qed.

Lemma finished_app id l1 l2 : finished id (l1 ++ l2) = finished id l1 + finished id l2.
Proof using. induction l1; cbn; lia. Qed.

Lemma total_fresh id m x ws : m !! x = None -> total id (<[x := ws]> m) = waiting id (messageQueue (m_socket ws)) + total id m.
Proof using. intros E. unfold total. rewrite map_fold_insert_L; [done|lia|done]. Qed.

Lemma total_insert id m x ws ws' : m !! x = Some ws ->
  total id (<[x := ws']> m) = total id m - waiting id (messageQueue (m_socket ws)) + waiting id (messageQueue (m_socket ws')).
Proof using.
  intros E. rewrite <- (insert_delete_id m x ws E) at 2. rewrite <- (insert_delete_eq m x ws').
  rewrite !total_fresh by apply lookup_delete_eq. lia.
Qed.

(** [h id] references to the message [id] are held by somebody who is not a queue;
    its bytes are [B id]. *)
Definition counted (B : Z -> list Z) (h : Z -> Z) g : Prop := forall id, 0 <= h id /\
  match prepared g !! id with
  | Some p => references p = h id + total id (sockets g) /\ 0 < references p /\ slice (p_buffer p) 0 (p_length p) = B id /\ B id <> []
  | None => h id = 0 /\ total id (sockets g) = 0
  end.

Definition less (id : Z) (h : Z -> Z) (i : Z) : Z := if i =? id then h i - 1 else h i.

(** Nothing but the prepared messages changes. *)
Definition same_sockets g g' : Prop := links g' = links g /\ webSocketHead g' = webSocketHead g /\ iterators g' = iterators g /\
  sockets g' = sockets g /\ userPingMessage g' = userPingMessage g.

Lemma total_nonneg id m : 0 <= total id m.
Proof using.
  unfold total. apply (map_fold_weak_ind (fun n _ => 0 <= n)); [done|]. intros. pose proof (waiting_nonneg id (messageQueue (m_socket x))). lia.
Qed.

Lemma waiting_total id m x ws : m !! x = Some ws -> waiting id (messageQueue (m_socket ws)) <= total id m.
Proof using.
  intros E. rewrite <- (insert_delete_id m x ws E), total_fresh by apply lookup_delete_eq. pose proof (total_nonneg id (delete x m)). lia.
Qed.

Lemma release_spec B id h g : counted B h g -> 0 < h id ->
  wp nothing (release id) (fun _ g' => counted B (less id h) g' /\ same_sockets g g') g.
Proof using.
  intros C Hid. unfold release. wp_step. apply wp_get. destruct (C id) as [_ Cid].
  destruct (prepared g !! id) as [p|] eqn:Ep; [|lia]. destruct Cid as (Er & Hpos & Hb & Hne). cbn [references].
  apply wp_modify. split; [|done]. intros i. unfold less. destruct (C i) as [Hi Ci]. pose proof (total_nonneg id (sockets g)).
  destruct (Z.eqb_spec i id) as [->|Hne'].
  - split; [lia|]. destruct (Z.eqb_spec (references p - 1) 0).
    + cbn. rewrite lookup_delete_eq. lia.
    + cbn. rewrite lookup_insert_eq. cbn. split_and!; [lia|lia|done..].
  - split; [done|]. destruct (references p - 1 =? 0); cbn; rewrite ?lookup_delete_ne, ?lookup_insert_ne by done; done.
Qed.

Lemma run_callbacks_spec B done h g : counted B (fun id => h id + finished id done) g -> (forall id, 0 <= h id) ->
  wp nothing (run_callbacks done) (fun _ g' => counted B h g' /\ same_sockets g g') g.
Proof using.
  revert g. induction done as [|[i c] done IH]; intros g C Hh; cbn [run_callbacks].
  - apply wp_ret. split; [|done]. intros id. specialize (C id). cbn in C. by rewrite Z.add_0_r in C.
  - wp_step. eapply wp_mono; [apply (release_spec _ _ _ _ C)|].
    + cbn. rewrite Z.eqb_refl. specialize (Hh i). pose proof (finished_nonneg i done). lia.
    + intros [] g1 [C1 (E1 & E2 & E3 & E4 & E5)]. eapply wp_mono; [apply IH; [|done]|].
      * intros id. specialize (C1 id). unfold less in C1. cbn [finished fst] in C1. rewrite (Z.eqb_sym i id) in C1.
        replace (if id =? i then _ else _) with (h id + finished id done) in C1; [done|]. destruct (id =? i); lia.
      * intros [] g2 [C2 (F1 & F2 & F3 & F4 & F5)]. split; [done|]. unfold same_sockets. by rewrite F1, F2, F3, F4, F5.
Qed.

(** ** What the operations of a socket do to its queue *)

Definition outstanding (id : Z) (s : Socket K) : Z := waiting id (messageQueue s) + finished id (called s).

Lemma run_callback_outstanding c b s (Q : unit -> Socket K -> Prop) :
  (forall k l, (forall id, finished id l = finished id (called s) + callback_is id c) ->
     Q tt (mkSocket (fd s) (poll s) (shuttingDown s) (timer s) (messageQueue s) k l)) ->
  wp nothing (run_callback c b) Q s.
Proof using.
  intros HQ. assert (forall k, (forall id, callback_is id c = 0) -> Q tt (set_kernel k s)) as HQ0.
  { intros k Hc. apply HQ. intros id. rewrite Hc. lia. }
  destruct c; cbn [run_callback].
  - apply wp_ret. specialize (HQ0 (kernel s) (fun _ => eq_refl)). by destruct s.
  - destruct b; [apply wp_ret; specialize (HQ0 (kernel s) (fun _ => eq_refl)); by destruct s|].
    unfold shutdown. wp_step. apply wp_get. unfold id. destruct (isClosed s).
    + apply wp_ret. specialize (HQ0 (kernel s) (fun _ => eq_refl)). by destruct s.
    + apply wp_modify. by apply HQ0.
  - apply wp_modify. apply HQ. intros i. rewrite finished_app. cbn. destruct (Z.eqb_spec id i); lia.
Qed.

Lemma write_outstanding m s :
  wp nothing (write m) (fun r s' => forall id, outstanding id s' = outstanding id s + (if decide (r = Some true) then callback_is id (m_callback m) else 0)) s.
Proof using.
  unfold write, want_writable. wp_step. apply wp_get. unfold id. destruct (messageQueue s) as [|m0 q] eqn:Eq.
  - wp_step. apply wp_mono with (fun _ s' => messageQueue s' = [] /\ called s' = called s).
    { unfold sys_send. wp_step. apply wp_get. unfold id. destruct (isClosed s); [by apply wp_ret|].
      destruct (k_send _ _). wp_step. apply wp_modify. by apply wp_ret. }
    intros r s1 [E1 E2].
    assert (forall d, wp nothing (x <- (s <- get (fun s => s) ;; if bits_set (poll s) UV_WRITABLE then ret tt else modify (set_poll (Z.lor (poll s) UV_WRITABLE))) ;;
      (modify (set_messageQueue [mkMessage d (m_callback m)]) ;; ret (Some true)))
      (fun r s' => forall id, outstanding id s' = outstanding id s + (if decide (r = Some true) then callback_is id (m_callback m) else 0)) s1) as Hqueue.
    { intros d. wp_step. apply wp_mono with (fun _ s' => called s' = called s).
      - wp_step. apply wp_get. destruct (bits_set _ _); [by apply wp_ret|by apply wp_modify].
      - intros [] s2 E3. wp_step. apply wp_modify. apply wp_ret. intros i. rewrite decide_True by done.
        unfold outstanding. cbn. rewrite Eq, E3. cbn. lia. }
    destruct r.
    + case_match; [|apply Hqueue]. apply wp_ret. intros i. rewrite decide_False by done. unfold outstanding. rewrite E1, E2, Eq. lia.
    + pose proof (Hqueue (m_data m)) as Hq. by destruct m.
    + apply wp_ret. intros i. rewrite decide_False by done. unfold outstanding. rewrite E1, E2, Eq. lia.
  - wp_step. apply wp_modify. apply wp_ret. intros i. rewrite decide_True by done. unfold outstanding. cbn [messageQueue set_messageQueue called].
    rewrite waiting_app, Eq. cbn. lia.
Qed.

Lemma cancel_outstanding q s : messageQueue s = q ->
  wp nothing (cancel_messages q) (fun _ s' => messageQueue s' = [] /\ fd s' = fd s /\ poll s' = poll s /\ forall id, outstanding id s' = outstanding id s) s.
Proof using.
  revert s. induction q as [|m q IH]; intros s Eq; cbn [cancel_messages]; [by apply wp_ret|].
  wp_step. apply run_callback_outstanding. intros k l Hl. wp_step. apply wp_modify. eapply wp_mono; [by apply IH|].
  intros [] s' (E1 & E2 & E3 & Ho). split_and!; [done..|]. intros i. rewrite Ho. unfold outstanding. cbn. rewrite Hl, Eq. cbn. lia.
Qed.

Lemma writable_round_outstanding s : messageQueue s <> [] ->
  wp nothing (writable_round tt) (fun r s' => (forall id, outstanding id s' = outstanding id s) /\
    (r = inl tt -> messageQueue s' <> [] /\ length (messageQueue s) = S (length (messageQueue s')))) s.
Proof using.
  intros Hq. unfold writable_round. wp_step. apply wp_get. unfold id. destruct (messageQueue s) as [|m q] eqn:Eq; [done|].
  wp_step. apply wp_mono with (fun _ s' => exists k, s' = set_kernel k s).
  { unfold sys_send. wp_step. apply wp_get. unfold id. destruct (isClosed s); [apply wp_ret; exists (kernel s); by destruct s|].
    destruct (k_send _ _) as [? k]. wp_step. apply wp_modify. apply wp_ret. by exists k. }
  intros r ? [k ->]. destruct r.
  - case_match.
    + wp_step. apply run_callback_outstanding. intros k' l Hl. wp_step. apply wp_modify. destruct q as [|m2 q].
      * wp_step. apply wp_modify. apply wp_ret. split; [|done]. intros i. unfold outstanding. cbn. rewrite Hl, Eq. cbn. lia.
      * apply wp_ret. split; [|done]. intros i. unfold outstanding. cbn [messageQueue set_messageQueue called]. rewrite Hl, Eq. cbn. lia.
    + wp_step. apply wp_modify. apply wp_ret. split; [|done]. intros i. unfold outstanding. cbn. by rewrite Eq.
  - apply wp_ret. split; [|done]. done.
  - apply wp_ret. split; [|done]. done.
Qed.

Lemma on_writable_outstanding s : wp nothing on_writable (fun _ s' => forall id, outstanding id s' = outstanding id s) s.
Proof using.
  unfold on_writable. wp_step. apply wp_get. unfold id. destruct (messageQueue s) as [|m q] eqn:Eq; [by apply wp_ret|].
  apply (wp_iter _ _ (fun _ s' => messageQueue s' <> [] /\ forall id, outstanding id s' = outstanding id s) (fun _ s' => length (messageQueue s'))).
  - intros [] s1 [Hne Ho]. eapply wp_mono; [by apply writable_round_outstanding|]. intros [[]|ended] s2 [Ho2 Hl].
    + destruct (Hl eq_refl) as [Hne2 Hlen]. split; [|lia]. split; [done|]. intros i. by rewrite Ho2.
    + intros i. by rewrite Ho2.
  - by rewrite Eq.
  - rewrite Eq. cbn. lia.
Qed.

Lemma wp_and {S A} (m : M S A) (P Q : A -> S -> Prop) s : wp nothing m P s -> wp nothing m Q s -> wp nothing m (fun a s' => P a s' /\ Q a s') s.
Proof using. unfold wp. by destruct (m s) as [[]| | |]. Qed.

(** ** The invariant of a group *)

Record group_ok (B : Z -> list Z) (h : Z -> Z) g (l : list Z) : Prop := {
  gr_linked : linked g l;
  gr_sockets : forall x ws, sockets g !! x = Some ws -> called (m_socket ws) = [] /\ socket_ok (m_socket ws);
  gr_members : forall x, x ∈ l -> exists ws, sockets g !! x = Some ws /\ isClosed (m_socket ws) = false /\ shuttingDown (m_socket ws) = false;
  gr_counted : counted B h g
}.

Definition cleared (s : Socket K) : Socket K := mkSocket (fd s) (poll s) (shuttingDown s) (timer s) (messageQueue s) (kernel s) [].

(** What an operation on one socket leaves alone. *)
Definition same_list g g' : Prop := links g' = links g /\ webSocketHead g' = webSocketHead g /\ iterators g' = iterators g /\
  userPingMessage g' = userPingMessage g.

Lemma on_member_spec {A} B x (m : M (Socket K) A) ws h g l (extra : A -> Z -> Z) (P : A -> Socket K -> Prop) :
  group_ok B h g l -> sockets g !! x = Some ws ->
  wp nothing m (fun a s => P a s /\ socket_ok s /\ (x ∈ l -> isClosed s = false /\ shuttingDown s = false) /\
    forall id, 0 <= h id - extra a id /\ outstanding id s = outstanding id (m_socket ws) + extra a id) (m_socket ws) ->
  wp nothing (on_member x m) (fun a g' => group_ok B (fun id => h id - extra a id) g' l /\ same_list g g' /\
    exists s, P a s /\ sockets g' = <[x := mkMember (cleared s) (m_pong ws)]> (sockets g)) g.
Proof using.
  intros [L Hs Hm C] Ews Hwp. unfold on_member. wp_step. apply wp_get. unfold id. rewrite Ews.
  unfold wp in Hwp. destruct (m (m_socket ws)) as [[a s]| | |]; try done. destruct Hwp as (HP & Hok & Hmem & Hout).
  wp_step. apply wp_modify. fold (cleared s). set (g1 := set_sockets _ g). destruct (Hs x ws Ews) as [Hcalled _].
  assert (counted B (fun id => h id - extra a id + finished id (called s)) g1) as C1.
  { intros i. destruct (C i) as [Hi Ci]. destruct (Hout i) as [He Ho]. unfold outstanding in Ho. rewrite Hcalled in Ho. cbn in Ho.
    pose proof (finished_nonneg i (called s)). split; [lia|]. cbn [prepared sockets g1 set_sockets]. rewrite (total_insert i _ x ws) by done.
    cbn [m_socket messageQueue cleared]. pose proof (waiting_total i _ x ws Ews). pose proof (waiting_nonneg i (messageQueue s)).
    pose proof (waiting_nonneg i (messageQueue (m_socket ws))).
    destruct (prepared g !! i) as [p|]; [|lia]. destruct Ci as (? & ? & ? & ?). split_and!; [lia|lia|done..]. }
  wp_step. eapply wp_mono; [apply (run_callbacks_spec _ _ _ _ C1); intros i; apply Hout|].
  intros [] g2 [C2 (E1 & E2 & E3 & E4 & E5)]. apply wp_ret. split; [|split; [done|by exists s]].
  constructor; [|rewrite E4; cbn..|done].
  - destruct L. constructor; [done|by rewrite E2|by rewrite E1].
  - intros y wy. rewrite lookup_insert_Some. intros [[<- <-]|[_ ?]]; [|by eapply Hs]. split; [done|]. cbn. destruct Hok. by constructor.
  - intros y Hy. destruct (decide (x = y)) as [<-|Hne].
    + rewrite lookup_insert_eq. eexists. split; [done|]. by apply Hmem.
    + rewrite lookup_insert_ne by done. by apply Hm.
Qed.

(** Removing a socket from the list. *)
Lemma group_ok_relinked B h g g' l l' its : group_ok B h g l -> linked g' l' -> relinked g g' its -> (forall x, x ∈ l' -> x ∈ l) -> group_ok B h g' l'.
Proof using.
  intros [L Hs Hm C] L' (_ & E2 & E3 & _ & _) Hsub. constructor; [done|by rewrite E2|intros x Hx; rewrite E2; by apply Hm, Hsub|].
  intros i. specialize (C i). by rewrite E2, E3.
Qed.

Lemma group_ok_iterators B h g l its : group_ok B h g l -> group_ok B h (set_iterators its g) l.
Proof using. intros [[] ? ? ?]. constructor; try done. Qed.

Context {HL : KernelLaws K}.

(** What sending a prepared message does to the socket. *)
Definition extended (d : list Z) (s s' : Socket K) : Prop :=
  exists failed : bool, stream s' = stream s ++ (if failed then [] else d) /\ (failed = true -> ~ alive (K := K)).

Lemma group_ok_more B h g l id p : group_ok B h g l -> prepared g !! id = Some p ->
  group_ok B (fun i => if i =? id then h i + 1 else h i)
    (set_prepared (<[id := mkPrepared (p_buffer p) (p_length p) (references p + 1)]> (prepared g)) g) l.
Proof using.
  intros [[] Hs Hm C] Ep. constructor; [done..|]. intros i. destruct (C i) as [Hi Ci]. cbn.
  destruct (Z.eqb_spec i id) as [->|Hne].
  - rewrite Ep in Ci. rewrite lookup_insert_eq. cbn. destruct Ci as (? & ? & ? & ?). split_and!; [lia|lia|lia|done..].
  - by rewrite lookup_insert_ne.
Qed.

Lemma sendPrepared_spec B h g l id x : group_ok B h g l -> x ∈ l -> 0 < h id ->
  wp nothing (sendPrepared id x) (fun _ g' => group_ok B h g' l /\ same_list g g' /\
    exists ws s, sockets g !! x = Some ws /\ sockets g' = <[x := mkMember s (m_pong ws)]> (sockets g) /\ extended (B id) (m_socket ws) s) g.
Proof using HL.
  intros Hok Hx Hid. unfold sendPrepared. wp_step. apply wp_get. pose proof (gr_counted _ _ _ _ Hok id) as [_ Cid].
  destruct (prepared g !! id) as [p|] eqn:Ep; [|lia]. destruct Cid as (_ & _ & Hb & Hne). rewrite Hb.
  wp_step. apply wp_modify. pose proof (group_ok_more _ _ _ _ _ _ Hok Ep) as Hok1. set (h1 := fun i => _) in *. set (g1 := set_prepared _ g) in *.
  destruct (gr_members _ _ _ _ Hok x Hx) as (ws & Ews & Hopen & Hsd). destruct (gr_sockets _ _ _ _ Hok x ws Ews) as [_ Hs].
  set (extra := fun (r : option bool) i => if decide (r = Some true) then callback_is i (UserCallback id) else 0).
  wp_step. eapply wp_mono; [apply (on_member_spec B x _ ws h1 g1 l extra (fun r s => match r with None => stream s = stream (m_socket ws) /\ ~ alive (K := K) | _ => stream s = stream (m_socket ws) ++ B id end) Hok1 Ews)|].
  - eapply wp_mono; [apply wp_and; [apply (write_spec (mkMessage (B id) (UserCallback id)) _ Hs Hopen Hne)|apply write_outstanding]|].
    intros r s' [(Hs' & Hopen' & Hsd' & Hr) Ho]. split_and!; [|done|by rewrite Hsd'|].
    + destruct r as [b|]; [by destruct Hr|]. destruct Hr as (_ & ? & k & Hk). split; [done|]. intros Ha. by apply Ha in Hk.
    + intros i. split; [|apply Ho]. destruct (gr_counted _ _ _ _ Hok i) as [Hi _]. unfold extra, h1, callback_is. rewrite (Z.eqb_sym id i).
      destruct (decide _), (i =? id); lia.
  - intros r g2 (Hok2 & Hsame & s & Hr & Esock).
    assert (forall h', (forall i, h' i = h1 i - extra r i) -> group_ok B h' g2 l) as Hok2'.
    { intros h' E. destruct Hok2 as [? ? ? C]. constructor; try done. intros i. rewrite E. apply C. }
    assert (extended (B id) (m_socket ws) (cleared s)) as Hext.
    { destruct r; [by exists false|]. destruct Hr as [Hr Ha]. exists true. by rewrite app_nil_r. }
    destruct (decide (r = Some true)) as [->|Hr'].
    + apply wp_ret. split; [|split; [done|by eexists _, _]]. apply Hok2'. intros i. unfold extra, h1. rewrite decide_True by done. cbn.
      rewrite (Z.eqb_sym id i). destruct (i =? id); lia.
    + assert (group_ok B h1 g2 l) as Hok3 by (apply Hok2'; intros i; unfold extra; rewrite decide_False by done; lia).
      assert (wp nothing (release id) (fun _ g' => group_ok B h g' l /\ same_list g g' /\
        exists ws s, sockets g !! x = Some ws /\ sockets g' = <[x := mkMember s (m_pong ws)]> (sockets g) /\ extended (B id) (m_socket ws) s) g2) as Hrel;
        [|by destruct r as [[]|]].
      eapply wp_mono; [apply (release_spec _ _ _ _ (gr_counted _ _ _ _ Hok3)); unfold h1; rewrite Z.eqb_refl; lia|].
      intros [] g3 [C3 (E1 & E2 & E3 & E4 & E5)]. destruct Hsame as (F1 & F2 & F3 & F4).
      split; [|split; [unfold same_list; by rewrite E1, E2, E3, E5|exists ws, (cleared s); by rewrite E4]].
      destruct Hok3 as [[] ? ? ?]. constructor; [constructor; [done|by rewrite E2|by rewrite E1]|by rewrite E4..|].
      intros i. specialize (C3 i). unfold less, h1 in C3. destruct (i =? id); [|done]. by replace (h i + 1 - 1) with (h i) in C3 by lia.
Qed.

(** ** Broadcasting *)

(** What a broadcast of [d] does to the sockets [l], where [m] holds the sockets
    before it. *)
Definition delivered (d : list Z) (l : list Z) (m m' : gmap Z (Member K)) : Prop :=
  (forall x, x ∈ l -> exists ws s, m !! x = Some ws /\ m' !! x = Some (mkMember s (m_pong ws)) /\ extended d (m_socket ws) s) /\
  (forall x, x ∉ l -> m' !! x = m !! x).

Lemma delivered_snoc d l x m m1 s ws : delivered d l m m1 -> x ∉ l -> m1 !! x = Some ws -> extended d (m_socket ws) s ->
  delivered d (l ++ [x]) m (<[x := mkMember s (m_pong ws)]> m1).
Proof using.
  intros [H1 H2] Hx Ews Hext. split.
  - intros y [Hy|<-%list_elem_of_singleton]%elem_of_app.
    + assert (x <> y) by (by intros ->). rewrite lookup_insert_ne by done. by apply H1.
    + rewrite lookup_insert_eq. exists ws, s. by rewrite <- H2.
  - intros y Hy. rewrite not_elem_of_app, not_elem_of_cons in Hy. destruct Hy as (Hy & Hne & _).
    rewrite lookup_insert_ne by done. by apply H2.
Qed.

Lemma forEach_send B h g l id : group_ok B h g l -> 0 < h id ->
  wp nothing (forEach (sendPrepared id)) (fun _ g' => group_ok B h g' l /\ iterators g' = iterators g /\
    userPingMessage g' = userPingMessage g /\ delivered (B id) l (sockets g) (sockets g')) g.
Proof using HL.
  intros Hok Hid.
  set (J := fun (d k : list Z) (g' : Group K) => k = d /\ group_ok B h g' l /\ userPingMessage g' = userPingMessage g /\ delivered (B id) d (sockets g) (sockets g')).
  eapply wp_mono; [apply (forEach_spec (sendPrepared id) J l (iterators g)); [| |apply Hok|done|]|].
  - intros d k g1 i (-> & Hok1 & Hu & Hd). split_and!; try done. by apply group_ok_iterators.
  - intros d x rest k g1 El L Hi (-> & Hok1 & Hu & Hd).
    assert (x ∈ l) as Hx by (rewrite El; apply elem_of_app; right; by left).
    assert (x ∉ d) as Hxd.
    { pose proof (linked_nodup _ _ L) as (_ & Hdis & _)%NoDup_app. intros H. apply (Hdis x H). by left. }
    eapply wp_mono; [by apply sendPrepared_spec|]. intros [] g2 (Hok2 & (E1 & E2 & E3 & E4) & ws & s' & Ews & Esock & Hext).
    exists true. split; [destruct L; constructor; [done|by rewrite E2|by rewrite E1]|]. split; [by rewrite E3|].
    split_and!; [done|done|by rewrite E4|]. rewrite Esock. by apply delivered_snoc.
  - split_and!; try done. split; [by intros x ?%not_elem_of_nil|done].
  - intros [] g' (k & _ & Hi & -> & Hok' & Hu & Hd). done.
Qed.

Definition with_bytes (B : Z -> list Z) (id : Z) (d : list Z) (i : Z) : list Z := if i =? id then d else B i.

Lemma prepareMessage_spec B h g l random id msg op : group_ok B h g l -> prepared g !! id = None ->
  0 <= op < 16 -> Forall is_byte msg -> lengthZ msg < 2 ^ 31 ->
  let d := encode_frame false (sent_frame true random op msg false) in
  wp nothing (prepareMessage true random id msg op false) (fun _ g' =>
    group_ok (with_bytes B id d) (fun i => if i =? id then 1 else h i) g' l /\ same_list g g' /\ sockets g' = sockets g) g.
Proof using.
  intros [[] Hs Hm C] Ep Hop Hmsg Hlen d. unfold prepareMessage. pose proof (lengthZ_nonneg msg).
  set (l0 := replicate _ 0). destruct (formatMessage_writes true random op msg false Hop Hmsg Hlen l0) as (l' & E & Ed).
  { unfold l0, lengthZ. rewrite length_replicate. change (LONG_MESSAGE_HEADER (negb true)) with 10. unfold lengthZ in *. lia. }
  cbn [negb] in E, Ed. fold d in E, Ed. wp_step. eapply wp_with_block.
  { unfold bind. rewrite E. reflexivity. }
  apply wp_modify. split; [|done]. constructor; [done..|]. intros i. destruct (C i) as [Hi Ci]. cbn. unfold with_bytes.
  destruct (Z.eqb_spec i id) as [->|Hne]; [|by rewrite lookup_insert_ne]. rewrite Ep in Ci. destruct Ci as [Hh Ht].
  rewrite lookup_insert_eq. cbn. split_and!; [lia|lia|lia|done|]. by unfold d, encode_frame, header.
Qed.

Lemma broadcast_spec B h g l random id msg op : group_ok B h g l -> prepared g !! id = None ->
  0 <= op < 16 -> Forall is_byte msg -> lengthZ msg < 2 ^ 31 ->
  let d := encode_frame false (sent_frame true random op msg false) in
  wp nothing (broadcast true random id msg op) (fun _ g' =>
    group_ok (with_bytes B id d) h g' l /\ iterators g' = iterators g /\ userPingMessage g' = userPingMessage g /\
    delivered d l (sockets g) (sockets g')) g.
Proof using HL.
  intros Hok Ep Hop Hmsg Hlen d. unfold broadcast. wp_step. eapply wp_mono; [by eapply prepareMessage_spec|]. fold d.
  intros [] g1 (Hok1 & (E1 & E2 & E3 & E4) & E5). wp_step.
  eapply wp_mono; [apply (forEach_send _ _ _ _ id Hok1); by rewrite Z.eqb_refl|]. unfold with_bytes at 2. rewrite Z.eqb_refl.
  intros [] g2 (Hok2 & Hi2 & Hu2 & Hd2). unfold finalizeMessage.
  eapply wp_mono; [apply (release_spec _ _ _ _ (gr_counted _ _ _ _ Hok2)); by rewrite Z.eqb_refl|].
  intros [] g3 [C3 (F1 & F2 & F3 & F4 & F5)]. split; [|rewrite F3, F4, F5, Hi2, Hu2, E3, E4, <- E5; done].
  destruct Hok2 as [[] ? ? ?]. constructor; [constructor; [done|by rewrite F2|by rewrite F1]|by rewrite F4..|].
  pose proof (gr_counted _ _ _ _ Hok id) as [_ Cid]. rewrite Ep in Cid. destruct Cid as [Hh _].
  intros i. specialize (C3 i). unfold less in C3.
  replace (if i =? id then _ - 1 else _) with (h i) in C3; [done|]. destruct (Z.eqb_spec i id) as [E|]; [rewrite E; lia|done].
Qed.

(** ** Ends of connections *)

Lemma terminate_member B h g l1 x l2 : group_ok B h g (l1 ++ x :: l2) ->
  wp nothing (terminate x) (fun _ g' => group_ok B h g' (l1 ++ l2) /\
    iterators g' = match iterators g with [] => [] | _ :: its => head l2 :: its end /\
    userPingMessage g' = userPingMessage g /\
    exists ws, isClosed (m_socket ws) = true /\ messageQueue (m_socket ws) = [] /\ sockets g' = <[x := ws]> (sockets g)) g.
Proof using.
  intros Hok. assert (x ∈ l1 ++ x :: l2) as Hx by (apply elem_of_app; right; by left).
  destruct (gr_members _ _ _ _ Hok x Hx) as (ws & Ews & Hopen & Hsd). unfold terminate. wp_step. apply wp_get. unfold id. rewrite Ews, Hsd. cbn [negb].
  wp_step. eapply wp_mono; [apply removeWebSocket_spec, Hok|]. intros [] g1 [L1 Hrel].
  assert (group_ok B h g1 (l1 ++ l2)) as Hok1.
  { eapply group_ok_relinked; [exact Hok|done|exact Hrel|]. intros y. rewrite !elem_of_app, elem_of_cons. tauto. }
  destruct Hrel as (E1 & E2 & _ & E4 & _).
  assert (x ∉ l1 ++ l2) as Hx'.
  { pose proof (linked_nodup _ _ (gr_linked _ _ _ _ Hok)) as (_ & Hdis & [Hx2 _]%NoDup_cons)%NoDup_app. rewrite elem_of_app.
    intros [H|H]; [|done]. apply (Hdis x H). by left. }
  destruct (gr_sockets _ _ _ _ Hok x ws Ews) as [Hcalled Hs]. rewrite <- E2 in Ews.
  eapply wp_mono; [apply (on_member_spec B x _ ws h g1 _ (fun _ _ => 0) (fun _ s => isClosed s = true /\ messageQueue s = []) Hok1 Ews)|].
  - unfold closeSocket. wp_step. wp_step. apply wp_get. wp_step. apply wp_require; [intros _|unfold id; by rewrite Hopen]. apply wp_modify.
    wp_step. apply wp_get. unfold id. eapply wp_mono; [by apply cancel_outstanding|]. intros [] s (Eq & Ef & Ep & Ho).
    split; [unfold isClosed; by rewrite Ef|]. split; [|split; [done|]].
    + destruct Hs as [_ Hp _]. constructor; rewrite ?Eq; [constructor| |done]. rewrite Ep. exact Hp.
    + intros i. destruct (gr_counted _ _ _ _ Hok i) as [Hi _]. split; [lia|]. rewrite Ho. unfold outstanding. cbn. lia.
  - intros [] g2 (Hok2 & (F1 & F2 & F3 & F4) & s & [Hc Eq] & Esock). split; [|split_and!].
    + destruct Hok2 as [? ? ? C]. constructor; try done. intros i. specialize (C i). cbn in C. by rewrite Z.sub_0_r in C.
    + by rewrite F3.
    + by rewrite F4.
    + exists (mkMember (cleared s) (m_pong ws)). by rewrite Esock, E2.
Qed.

(** A tick of the timer: the sockets that owe a pong are ended. *)
Definition owes_pong g (x : Z) : bool := match sockets g !! x with Some ws => m_pong ws | None => false end.

Lemma group_ok_pong B h g l x ws b : group_ok B h g l -> sockets g !! x = Some ws ->
  group_ok B h (set_sockets (<[x := mkMember (m_socket ws) b]> (sockets g)) g) l.
Proof using.
  intros [[] Hs Hm C] Ews. constructor; [done|..].
  - intros y wy. cbn. rewrite lookup_insert_Some. intros [[<- <-]|[_ ?]]; [|by eapply Hs]. by apply (Hs x ws).
  - intros y Hy. cbn. destruct (decide (x = y)) as [<-|]; [|rewrite lookup_insert_ne by done; by apply Hm].
    rewrite lookup_insert_eq. eexists. split; [done|]. cbn. destruct (Hm x Hy) as (ws2 & E & ?). by simplify_eq.
  - intros i. specialize (C i). cbn. rewrite (total_insert i _ x ws) by done. cbn.
    by replace (total i (sockets g) - waiting i (messageQueue (m_socket ws)) + waiting i (messageQueue (m_socket ws))) with (total i (sockets g)) by lia.
Qed.

(** The sockets [d] were checked: those that did not owe a pong are left and owe one
    now, the others are closed. *)
Definition checked g (d : list Z) g' : Prop :=
  userPingMessage g' = userPingMessage g /\ (forall id, total id (sockets g') <= total id (sockets g)) /\
  (forall x, x ∉ d -> sockets g' !! x = sockets g !! x) /\
  (forall x, x ∈ d -> if owes_pong g x then exists ws, sockets g' !! x = Some ws /\ isClosed (m_socket ws) = true else owes_pong g' x = true).

Lemma checked_snoc g d g1 g2 x ws0 ws : checked g d g1 -> x ∉ d -> userPingMessage g2 = userPingMessage g1 -> sockets g2 = <[x := ws]> (sockets g1) ->
  sockets g1 !! x = Some ws0 -> (forall id, waiting id (messageQueue (m_socket ws)) <= waiting id (messageQueue (m_socket ws0))) ->
  (if owes_pong g x then isClosed (m_socket ws) = true else m_pong ws = true) -> checked g (d ++ [x]) g2.
Proof using.
  intros (Hu & Ht & H1 & H2) Hx Hu2 Es Ews0 Hw Hws. split; [by rewrite Hu2|]. split; [|split]; rewrite Es.
  - intros i. rewrite (total_insert i _ x ws0) by done. specialize (Ht i). specialize (Hw i). lia.
  - intros y. rewrite not_elem_of_app, not_elem_of_cons. intros (? & ? & _). rewrite lookup_insert_ne by done. by apply H1.
  - intros y [Hy| ->%list_elem_of_singleton]%elem_of_app.
    + specialize (H2 y Hy). unfold owes_pong at 2. rewrite Es, lookup_insert_ne by (by intros ->). done.
    + unfold owes_pong at 2. rewrite Es, lookup_insert_eq. destruct (owes_pong g x); [by eexists|done].
Qed.

Lemma check_pong_spec B h g l1 x l2 ws : group_ok B h g (l1 ++ x :: l2) -> sockets g !! x = Some ws ->
  wp nothing (check_pong x) (fun _ g' => group_ok B h g' (l1 ++ (if m_pong ws then l2 else x :: l2)) /\
    iterators g' = (if m_pong ws then match iterators g with [] => [] | _ :: its => head l2 :: its end else iterators g) /\
    userPingMessage g' = userPingMessage g /\
    exists ws', (forall id, waiting id (messageQueue (m_socket ws')) <= waiting id (messageQueue (m_socket ws))) /\ (if m_pong ws then isClosed (m_socket ws') = true else m_pong ws' = true) /\ sockets g' = <[x := ws']> (sockets g)) g.
Proof using.
  intros Hok Ews. unfold check_pong. wp_step. apply wp_get. unfold id. rewrite Ews. destruct (m_pong ws).
  - eapply wp_mono; [by apply terminate_member|]. intros [] g2 (Hok2 & Hi2 & Hu2 & ws' & ? & Eq & Esock). split_and!; try done. exists ws'. split_and!; try done.
    intros i. rewrite Eq. apply waiting_nonneg.
  - apply wp_modify. split; [by apply group_ok_pong|]. split_and!; try done. by exists (mkMember (m_socket ws) true).
Qed.

Lemma check_pongs B h g l : group_ok B h g l ->
  wp nothing (forEach check_pong) (fun _ g' => group_ok B h g' (filter (fun x => owes_pong g x = false) l) /\ iterators g' = iterators g /\ checked g l g') g.
Proof using.
  intros Hok. set (kept := filter (fun x => owes_pong g x = false)).
  set (J := fun (d k : list Z) (g' : Group K) => k = kept d /\ (forall rest, l = d ++ rest -> group_ok B h g' (k ++ rest)) /\ checked g d g').
  eapply wp_mono; [apply (forEach_spec check_pong J l (iterators g)); [| |apply Hok|done|]|].
  - intros d k g1 i (-> & Hok1 & Hc). split_and!; try done. intros rest E. by apply group_ok_iterators, Hok1.
  - intros d x rest k g1 El L Hi (-> & Hok1 & Hc). specialize (Hok1 _ El).
    assert (x ∉ d) as Hxd.
    { pose proof (linked_nodup _ _ (gr_linked _ _ _ _ Hok)) as Hn. rewrite El in Hn. apply NoDup_app in Hn as (_ & Hdis & _).
      intros H. apply (Hdis x H). by left. }
    assert (x ∈ kept d ++ x :: rest) as Hx by (apply elem_of_app; right; by left).
    destruct (gr_members _ _ _ _ Hok1 x Hx) as (ws & Ews & _).
    assert (owes_pong g x = m_pong ws) as Eo by (unfold owes_pong; destruct Hc as (_ & _ & <- & _); [by rewrite Ews|done]).
    eapply wp_mono; [by eapply check_pong_spec|]. intros [] g2 (Hok2 & Hi2 & Hu2 & ws' & Hw & Hws' & Esock).
    assert (checked g (d ++ [x]) g2) as Hc2 by (eapply checked_snoc; try done; by rewrite Eo).
    assert (forall rest', l = (d ++ [x]) ++ rest' -> rest' = rest) as Hrest.
    { intros rest' E. rewrite El, <- app_assoc in E. apply app_inv_head in E. cbn in E. by simplify_eq. }
    rewrite Hi in Hi2. unfold kept in *. destruct (m_pong ws); [exists false|exists true]; (split; [apply Hok2|]); (split; [done|]);
      (split; [rewrite filter_app, ?filter_cons_False, ?filter_cons_True, filter_nil, ?app_nil_r by (rewrite Eo; done); done|]);
      (split; [|done]); intros rest' ->%Hrest; [done|by rewrite <- app_assoc].
  - split_and!; try done; [intros rest ->; done|]. split_and!; try done. by intros x ?%not_elem_of_nil.
  - intros [] g' (k & _ & Hi & -> & Hok' & Hc). specialize (Hok' []). rewrite !app_nil_r in Hok'. split_and!; try done. by apply Hok'.
Qed.

Definition ping_message g : Z * list Z := match userPingMessage g with [] => (PING, []) | m => (TEXT, m) end.

(** A message nobody refers to is not there. *)
Lemma unreferenced B h g id : counted B h g -> h id = 0 -> total id (sockets g) = 0 -> prepared g !! id = None.
Proof using. intros C Hh Ht. destruct (C id) as [_ Cid]. destruct (prepared g !! id); [lia|done]. Qed.

Lemma timerCallback_spec B h g l random id : group_ok B h g l -> prepared g !! id = None ->
  Forall is_byte (userPingMessage g) -> lengthZ (userPingMessage g) < 2 ^ 31 ->
  let left := filter (fun x => owes_pong g x = false) l in
  let d := encode_frame false (sent_frame true random (ping_message g).1 (ping_message g).2 false) in
  wp nothing (timerCallback true random id) (fun _ g' => group_ok (with_bytes B id d) h g' left /\
    iterators g' = iterators g /\ userPingMessage g' = userPingMessage g /\
    exists g1, checked g l g1 /\ delivered d left (sockets g1) (sockets g')) g.
Proof using HL.
  intros Hok Ep Hb Hl left d. unfold timerCallback. wp_step. eapply wp_mono; [by apply check_pongs|]. fold left.
  intros [] g1 (Hok1 & Hi1 & Hc1). wp_step. apply wp_get. pose proof Hc1 as (Hu1 & Ht1 & _). rewrite Hu1.
  assert (prepared g1 !! id = None) as Ep1.
  { destruct (gr_counted _ _ _ _ Hok id) as [_ Cid]. rewrite Ep in Cid. destruct Cid as [Hh Ht].
    eapply unreferenced; [apply Hok1|done|]. specialize (Ht1 id). pose proof (total_nonneg id (sockets g1)). lia. }
  assert (forall op msg, ping_message g = (op, msg) -> wp nothing (broadcast true random id msg op) (fun _ g' => group_ok (with_bytes B id d) h g' left /\
    iterators g' = iterators g /\ userPingMessage g' = userPingMessage g /\
    exists g1, checked g l g1 /\ delivered d left (sockets g1) (sockets g')) g1) as Hbc.
  { intros op msg E. unfold d. rewrite E. eapply wp_mono; [apply (broadcast_spec _ _ _ _ random id msg op Hok1 Ep1)|].
    - unfold ping_message in E. destruct (userPingMessage g); simplify_eq; done.
    - unfold ping_message in E. destruct (userPingMessage g); simplify_eq; done.
    - unfold ping_message in E. destruct (userPingMessage g); simplify_eq; done.
    - intros [] g2 (Hok2 & Hi2 & Hu2 & Hd2). split_and!; [done|by rewrite Hi2|by rewrite Hu2|by exists g1]. }
  unfold ping_message in Hbc. destruct (userPingMessage g) as [|b m] eqn:Em; [by apply Hbc|].
  rewrite (proj2 (Z.eqb_neq _ _)); [by apply Hbc|]. rewrite lengthZ_cons. pose proof (lengthZ_nonneg m). lia.
Qed.

(** ** Histories of a group *)

(** What happens to a server's group: a socket joins it, data arrives, a socket is
    writable or its connection ends, the application broadcasts a message, and the
    timer ticks.  [random] and [id] are what rand and new return. *)
Inductive group_event :=
| Connect (x : Z) (s : Socket K)
| Data (x : Z)
| WritableEvent (x : Z)
| Ended (x : Z)
| Broadcast (random id : Z) (msg : list Z) (op : Z)
| Tick (random id : Z).

Definition run_group_event (e : group_event) : M (Group K) unit :=
  match e with
  | Connect x s =>
      modify (fun g => set_links (<[x := mkLink None None]> (links g)) (set_sockets (<[x := mkMember s false]> (sockets g)) g)) ;;
      addWebSocket x
  | Data x =>
      g <- get id ;;
      match sockets g !! x with
      | None => undef
      | Some ws => modify (set_sockets (<[x := mkMember (m_socket ws) false]> (sockets g)))
      end
  | WritableEvent x => writable x
  | Ended x => terminate x
  | Broadcast random id msg op => broadcast true random id msg op
  | Tick random id => timerCallback true random id
  end.

Definition is_open g (x : Z) : Prop := exists ws, sockets g !! x = Some ws /\ isClosed (m_socket ws) = false.

(** When it can happen: addresses of new objects are new, and closed sockets are not
    polled. *)
Definition enabled g (e : group_event) : Prop :=
  match e with
  | Connect x s => links g !! x = None /\ sockets g !! x = None /\ isClosed s = false /\ shuttingDown s = false /\
      messageQueue s = [] /\ poll s = UV_READABLE /\ called s = []
  | Data x | WritableEvent x | Ended x => is_open g x
  | Broadcast _ id msg op => prepared g !! id = None /\ 0 <= op < 16 /\ Forall is_byte msg /\ lengthZ msg < 2 ^ 31
  | Tick _ id => prepared g !! id = None
  end.

Definition new_group (ping : list Z) : Group K := mkGroup ∅ None [] ∅ ∅ ping.

Inductive reachable (ping : list Z) : Group K -> Prop :=
| reachable_new : reachable ping (new_group ping)
| reachable_step g e g' : reachable ping g -> enabled g e -> run_group_event e g = Ok (tt, g') -> reachable ping g'.

Record invariant (ping : list Z) g (l : list Z) : Prop := {
  inv_ok : exists B, group_ok B (fun _ => 0) g l;
  inv_iterators : iterators g = [];
  inv_ping : userPingMessage g = ping;
  inv_open : forall x, is_open g x -> x ∈ l
}.

(** [connect] puts the socket in front. *)
Lemma connect_spec ping g l x s : invariant ping g l -> enabled g (Connect x s) ->
  wp nothing (run_group_event (Connect x s)) (fun _ g' => invariant ping g' (x :: l)) g.
Proof using.
  intros [[B Hok] Hi Hp Ho] (Hl & Hx & Hopen & Hsd & Hq & Hpoll & Hcalled). cbn [run_group_event]. wp_step. apply wp_modify.
  set (g1 := set_links _ _). destruct Hok as [L Hs Hm C].
  assert (x ∉ l) as Hxl by (intros (lk & E)%(linked_member _ _ _ L); congruence).
  assert (linked g1 l) as L1 by (destruct L; constructor; [done..|]; by apply seg_insert).
  eapply wp_mono; [apply (addWebSocket_spec x l g1 L1 Hxl); cbn; rewrite lookup_insert_eq; by eexists|].
  intros [] g2 [L2 (E1 & E2 & E3 & E4 & _)]. cbn in E2, E3, E4. constructor; [exists B; constructor| | |].
  - done.
  - rewrite E2. intros y wy. rewrite lookup_insert_Some. intros [[<- <-]|[_ ?]]; [|by eapply Hs]. split; [done|].
    cbn. constructor; rewrite ?Hq; [constructor|by left|done].
  - intros y. rewrite elem_of_cons, E2. intros [-> |Hy]; [rewrite lookup_insert_eq; by eexists|].
    rewrite lookup_insert_ne by (by intros ->). by apply Hm.
  - intros i. specialize (C i). rewrite E2, E3. rewrite total_fresh by done. cbn. rewrite Hq. cbn. done.
  - by rewrite E1.
  - by rewrite E4.
  - intros y (wy & Ey & Hoy). rewrite E2 in Ey. rewrite elem_of_cons. destruct (decide (y = x)) as [->|]; [by left|right].
    rewrite lookup_insert_ne in Ey by done. apply Ho. by exists wy.
Qed.

Lemma split_member (l : list Z) x : x ∈ l -> exists l1 l2, l = l1 ++ x :: l2.
Proof using. apply list_elem_of_split. Qed.

Lemma ended_spec ping g l1 x l2 : invariant ping g (l1 ++ x :: l2) -> wp nothing (terminate x) (fun _ g' => invariant ping g' (l1 ++ l2)) g.
Proof using.
  intros [[B Hok] Hi Hp Ho]. eapply wp_mono; [by apply terminate_member|]. intros [] g' (Hok' & Hi' & Hu' & ws & Hc & _ & Esock).
  rewrite Hi in Hi'. constructor; [by exists B|done|by rewrite Hu'|]. intros y (wy & Ey & Hoy). rewrite Esock in Ey.
  apply lookup_insert_Some in Ey as [[<- <-]|[Hne Ey]]; [congruence|].
  assert (y ∈ l1 ++ x :: l2) as Hy by (apply Ho; by exists wy). revert Hy. rewrite !elem_of_app, elem_of_cons. intros [?|[-> |?]]; [by left|done|by right].
Qed.

Lemma writable_spec ping g l x : invariant ping g l -> x ∈ l -> wp nothing (writable x) (fun _ g' => exists l', invariant ping g' l') g.
Proof using HL.
  intros [[B Hok] Hi Hp Ho] Hx. destruct (gr_members _ _ _ _ Hok x Hx) as (ws & Ews & Hopen & Hsd).
  destruct (gr_sockets _ _ _ _ Hok x ws Ews) as [_ Hs]. unfold writable. wp_step.
  eapply wp_mono; [apply (on_member_spec B x _ ws (fun _ => 0) g l (fun _ _ => 0) (fun _ _ => True) Hok Ews)|].
  - eapply wp_mono; [apply wp_and; [by apply on_writable_spec|apply on_writable_outstanding]|].
    intros ended s' [(_ & Hs' & Hopen' & Hsd' & _) Hout]. split_and!; try done; [by rewrite Hsd'|].
    intros i. split; [lia|]. rewrite Hout. lia.
  - intros ended g1 (Hok1 & (_ & _ & E3 & E4) & s & _ & Esock).
    assert (invariant ping g1 l) as Hinv.
    { constructor; [|by rewrite E3|by rewrite E4|].
      - exists B. destruct Hok1 as [? ? ? C]. constructor; try done.
      - intros y (wy & Ey & Hoy). destruct (decide (y = x)) as [->|Hne]; [done|]. apply Ho. exists wy.
        by rewrite Esock, lookup_insert_ne in Ey. }
    destruct ended; [|apply wp_ret; by exists l]. destruct (split_member l x Hx) as (l1 & l2 & ->).
    eapply wp_mono; [by apply ended_spec|]. intros [] g2 H2. by exists (l1 ++ l2).
Qed.

(** Sockets outside of the list stay what they are. *)
Lemma delivered_open d l m m' x ws : delivered d l m m' -> m' !! x = Some ws -> isClosed (m_socket ws) = false -> x ∈ l \/ m !! x = Some ws.
Proof using. intros [_ H] E _. destruct (decide (x ∈ l)) as [|Hx]; [by left|right]. by rewrite <- H. Qed.

Lemma tick_spec ping g l random id : invariant ping g l -> prepared g !! id = None -> Forall is_byte ping -> lengthZ ping < 2 ^ 31 ->
  wp nothing (timerCallback true random id) (fun _ g' => invariant ping g' (filter (fun x => owes_pong g x = false) l)) g.
Proof using HL.
  intros [[B Hok] Hi Hp Ho] Ep Hb Hlen. rewrite <- Hp in Hb, Hlen. eapply wp_mono; [by apply timerCallback_spec|].
  intros [] g' (Hok' & Hi' & Hu' & g1 & (_ & _ & H1 & H2) & Hd).
  constructor; [by eexists|by rewrite Hi'|by rewrite Hu'|]. intros x (ws & Ews & Hopen).
  destruct (delivered_open _ _ _ _ _ _ Hd Ews Hopen) as [|E1]; [done|].
  assert (x ∈ l) as Hx by (destruct (decide (x ∈ l)) as [|Hx]; [done|apply Ho; exists ws; by rewrite <- H1]).
  specialize (H2 x Hx). apply list_elem_of_filter. split; [|done]. destruct (owes_pong g x); [|done].
  destruct H2 as (ws2 & E2 & Hc). congruence.
Qed.

Lemma group_event_spec ping g l e : Forall is_byte ping -> lengthZ ping < 2 ^ 31 -> invariant ping g l -> enabled g e ->
  wp nothing (run_group_event e) (fun _ g' => exists l', invariant ping g' l') g.
Proof using HL.
  intros Hb Hlen Hinv He. destruct e as [x s|x|x|x|random id msg op|random id]; cbn [run_group_event enabled] in *.
  - eapply wp_mono; [by apply connect_spec|]. intros [] g' ?. by eexists.
  - destruct He as (ws & Ews & Hopen). wp_step. apply wp_get. unfold id. rewrite Ews. apply wp_modify. exists l.
    destruct Hinv as [[B Hok] Hi Hp Ho]. constructor; [exists B; by apply group_ok_pong|done|done|].
    intros y (wy & Ey & Hoy). destruct (decide (y = x)) as [->|]; [apply Ho; by exists ws|]. apply Ho. exists wy. cbn in Ey. by rewrite lookup_insert_ne in Ey.
  - eapply writable_spec; [done|]. by apply Hinv.
  - destruct (split_member l x) as (l1 & l2 & ->); [by apply Hinv|]. eapply wp_mono; [by apply ended_spec|]. intros [] g' ?. by eexists.
  - destruct He as (Ep & Hop & Hmsg & Hml). destruct Hinv as [[B Hok] Hi Hp Ho]. eapply wp_mono; [by eapply broadcast_spec|].
    intros [] g' (Hok' & Hi' & Hu' & Hd). exists l. constructor; [by eexists|by rewrite Hi'|by rewrite Hu'|].
    intros x (ws & Ews & Hopen). destruct (delivered_open _ _ _ _ _ _ Hd Ews Hopen); [done|]. apply Ho. by exists ws.
  - eapply wp_mono; [by apply tick_spec|]. intros [] g' ?. by eexists.
Qed.

Lemma reachable_invariant ping g : Forall is_byte ping -> lengthZ ping < 2 ^ 31 -> reachable ping g -> exists l, invariant ping g l.
Proof using HL.
  intros Hb Hlen. induction 1 as [|g e g' _ [l Hinv] He E].
  - assert (forall x, sockets (new_group ping) !! x = None) as Hnone by (intros x; apply lookup_empty).
    exists []. constructor; [|done|done|intros x (ws & E & _); by rewrite Hnone in E].
    exists (fun _ => []). constructor; [by constructor; [constructor|..]|by intros x ws; rewrite Hnone|by intros x ?%not_elem_of_nil|].
    intros i. split; [done|]. by assert (prepared (new_group ping) !! i = None) as -> by apply lookup_empty.
  - pose proof (group_event_spec ping g l e Hb Hlen Hinv He) as H. unfold wp in H. by rewrite E in H.
Qed.

End Group.

(** ** Theorems *)

Section Theorems.
Context {K : Type} {HK : Kernel K} {HL : KernelLaws K}.
Implicit Types (g : Group K).


(** C34: a prepared message lives as long as a queue refers to it.  Between two events
    the reference count of every prepared message is the number of messages in the
    queues of all sockets that share its buffer, it is positive, and a message that
    is in no queue was deleted. *)
Theorem Group_references ping g id : Forall is_byte ping -> lengthZ ping < 2 ^ 31 -> reachable ping g ->
  match prepared g !! id with
  | Some p => references p = total id (sockets g) /\ 0 < references p
  | None => total id (sockets g) = 0
  end.
Proof.
  intros Hb Hlen Hr. destruct (reachable_invariant ping g Hb Hlen Hr) as [l [[B Hok] _ _ _]].
  destruct (gr_counted _ _ _ _ Hok id) as [_ C]. destruct (prepared g !! id); [|by destruct C].
  destruct C as (E & ? & _). by rewrite Z.add_0_l in E.
Qed.

(** C33: a broadcast reaches every socket once.  When the kernel reports no error,
    every open socket of the group gets the frame of the message behind what was
    sent to it before, and no other byte. *)
Theorem broadcast_reaches_all ping g random id msg op : Forall is_byte ping -> lengthZ ping < 2 ^ 31 -> reachable ping g ->
  enabled g (Broadcast random id msg op) -> alive (K := K) ->
  exists g', broadcast true random id msg op g = Ok (tt, g') /\
    forall x ws, sockets g !! x = Some ws -> isClosed (m_socket ws) = false ->
      exists ws', sockets g' !! x = Some ws' /\
        stream (m_socket ws') = stream (m_socket ws) ++ encode_frame false (sent_frame true random op msg false).
Proof.
  intros Hb Hlen Hr (Ep & Hop & Hmsg & Hml) Ha. destruct (reachable_invariant ping g Hb Hlen Hr) as [l [[B Hok] _ _ Ho]].
  destruct (wp_total _ _ _ (broadcast_spec B _ g l random id msg op Hok Ep Hop Hmsg Hml)) as ([] & g' & E & _ & _ & _ & Hd & _).
  exists g'. split; [done|]. intros x ws Ews Hopen. assert (x ∈ l) as Hx by (apply Ho; by exists ws).
  destruct (Hd x Hx) as (ws0 & s & E0 & E1 & [] & Hs & Hf); [by destruct (Hf eq_refl)|]. simplify_eq. by eexists.
Qed.


End Theorems.

(** ** A group of two sockets *)

Definition outcome_state {S A} (s0 : S) (o : outcome (A * S)) : S := match o with Ok (_, s) => s | _ => s0 end.

Definition group0 : Group (list Z) := new_group [].
Definition group1 : Group (list Z) := outcome_state group0 (run_group_event (Connect 10 new_socket) group0).
Definition group2 : Group (list Z) := outcome_state group1 (run_group_event (Connect 20 new_socket) group1).
Definition group3 : Group (list Z) := outcome_state group2 (run_group_event (Tick 0 100) group2).
Definition group4 : Group (list Z) := outcome_state group3 (run_group_event (Data 10) group3).

Lemma group4_reachable : reachable [] group4.
Proof.
  assert (reachable [] group1) as R1 by (apply (reachable_step _ group0 (Connect 10 new_socket)); [constructor|done|by vm_compute]).
  assert (reachable [] group2) as R2 by (apply (reachable_step _ group1 (Connect 20 new_socket)); [done|done|by vm_compute]).
  assert (reachable [] group3) as R3 by (apply (reachable_step _ group2 (Tick 0 100)); [done|by vm_compute|by vm_compute]).
  apply (reachable_step _ group3 (Data 10)); [done| |by vm_compute].
  eexists. split; [by vm_compute|done].
Qed.

Lemma group4_broadcast : enabled group4 (Broadcast 0 200 [72; 105] TEXT).
Proof. split; [by vm_compute|]. split; [done|]. split; [repeat constructor; by vm_compute|done]. Qed.


Lemma Group_references_witness :
  match prepared group4 !! 100 with
  | Some p => references p = total 100 (sockets group4) /\ 0 < references p
  | None => total 100 (sockets group4) = 0
  end.
Proof. apply (Group_references [] group4); [constructor|done|apply group4_reachable]. Defined.

Lemma broadcast_reaches_all_witness : exists g', broadcast true 0 200 [72; 105] TEXT group4 = Ok (tt, g') /\
  forall x ws, sockets group4 !! x = Some ws -> isClosed (m_socket ws) = false ->
    exists ws', sockets g' !! x = Some ws' /\
      stream (m_socket ws') = stream (m_socket ws) ++ encode_frame false (sent_frame true 0 TEXT [72; 105] false).
Proof. apply (broadcast_reaches_all [] group4); [constructor|done|apply group4_reachable|apply group4_broadcast|done]. Defined.


(** In the sample the socket 20 was silent. *)
Lemma group4_pongs : (owes_pong group4 10, owes_pong group4 20) = (false, true).
Proof. by vm_compute. Qed.

(** A callback that removes another socket misleads the iteration: the iterator is
    set to the successor of any socket that is removed.  Here the callback for 30
    removes 10, the last one, and 20 is never visited. *)
Definition note (x : Z) : M (Group (list Z)) unit :=
  modify (fun g => mkGroup (links g) (webSocketHead g) (iterators g) (sockets g) (prepared g) (userPingMessage g ++ [x])).

Lemma forEach_skips :
  outcome_map (fun '(_, g) => userPingMessage g)
    (bind (run_group_event (Connect 30 new_socket))
      (fun _ => forEach (fun x => bind (note x) (fun _ => if x =? 30 then removeWebSocket 10 else ret tt))) group2) = Ok [30].
Proof. by vm_compute. Qed.

(** A client's long message does not fit into the memory [prepareMessage] takes. *)
Lemma prepareMessage_overflows :
  prepareMessage false 0 100 (replicate (Z.to_nat 65536) 0) BINARY false group0 = Undef.
Proof. by vm_compute. Qed.
