(* ===== verification/Extensions.v ===== *)
(** * Negotiation of extensions

    src/libuws/src/Extensions.cpp and src/libuws/include/Extensions.h: the parser
    for the header Sec-WebSocket-Extensions, which sums up the characters of a
    word instead of comparing it, and the negotiation of permessage-deflate.

    The string is a block of memory that ends with the NUL of std::string. *)

From S2P Require Import Prelude CLib Memory Buffer.

(** ** The parser *)

Definition TOK_PERMESSAGE_DEFLATE : Z := 1838.
Definition TOK_SERVER_NO_CONTEXT_TAKEOVER : Z := 2807.
Definition TOK_CLIENT_NO_CONTEXT_TAKEOVER : Z := 2783.
Definition TOK_SERVER_MAX_WINDOW_BITS : Z := 2372.
Definition TOK_CLIENT_MAX_WINDOW_BITS : Z := 2348.

(** The fields of the parser; [lastInteger] points to one of its two integers. *)
Inductive integer_field := ServerMaxWindowBits | ClientMaxWindowBits.

Record ExtensionsParser := mkExtensionsParser {
  lastInteger : option integer_field;
  perMessageDeflate : bool;
  serverNoContextTakeover : bool;
  clientNoContextTakeover : bool;
  serverMaxWindowBits : Z;
  clientMaxWindowBits : Z
}.

Definition set_perMessageDeflate b p := mkExtensionsParser (lastInteger p) b (serverNoContextTakeover p) (clientNoContextTakeover p) (serverMaxWindowBits p) (clientMaxWindowBits p).
Definition set_serverNoContextTakeover b p := mkExtensionsParser (lastInteger p) (perMessageDeflate p) b (clientNoContextTakeover p) (serverMaxWindowBits p) (clientMaxWindowBits p).
Definition set_clientNoContextTakeover b p := mkExtensionsParser (lastInteger p) (perMessageDeflate p) (serverNoContextTakeover p) b (serverMaxWindowBits p) (clientMaxWindowBits p).

(** [*f = n], and the same with [lastInteger = f]. *)
Definition set_integer f n p :=
  match f with
  | ServerMaxWindowBits => mkExtensionsParser (lastInteger p) (perMessageDeflate p) (serverNoContextTakeover p) (clientNoContextTakeover p) n (clientMaxWindowBits p)
  | ClientMaxWindowBits => mkExtensionsParser (lastInteger p) (perMessageDeflate p) (serverNoContextTakeover p) (clientNoContextTakeover p) (serverMaxWindowBits p) n
  end.
Definition point_to f p := mkExtensionsParser (Some f) (perMessageDeflate p) (serverNoContextTakeover p) (clientNoContextTakeover p) (serverMaxWindowBits p) (clientMaxWindowBits p).

(** isalnum in the C locale.  The argument of a class is a [char], which is signed;
    a value that is neither an unsigned char nor EOF is undefined. *)
Definition alnum (c : Z) : bool :=
  digit c || ((65 <=? c) && (c <=? 90)) || ((97 <=? c) && (c <=? 122)).

Definition ctype {S} (class : Z -> bool) (b : Z) : M S bool :=
  require (-1 <=? s8 b) ;; ret (class (s8 b)).

(** One round of each of the loops of getToken. *)
Definition skip_round (stop i : Z) : M (list Z) (Z + Z) :=
  c <- load i ;; a <- ctype alnum c ;;
  ret (if negb a && negb (i =? stop) then inl (i + 1) else inr i).

Definition token_round (l : Z * Z) : M (list Z) (Z * Z + Z * Z) :=
  let '(hashedToken, i) := l in
  c <- load i ;; a <- ctype alnum c ;;
  if a || (c =? 45) || (c =? 95) then
    d <- ctype digit c ;;
    if d : bool then
      require (fits_signed 32 (hashedToken * 10)) ;;
      require (fits_signed 32 (hashedToken * 10 - (c - 48))) ;;
      ret (inl (hashedToken * 10 - (c - 48), i + 1))
    else
      require (fits_signed 32 (hashedToken + c)) ;;
      ret (inl (hashedToken + c, i + 1))
  else ret (inr (hashedToken, i)).

(** The token and the position behind it. *)
Definition getToken (i stop : Z) : M (list Z) (Z * Z) :=
  i <- iter (S (Z.to_nat (stop - i))) (skip_round stop) i ;;
  iter (S (Z.to_nat (stop - i))) token_round (0, i).

(** One round of each of the loops of the constructor. *)
Definition find_round (stop : Z) (l : Z * Z) : M (list Z) (Z * Z + Z * Z) :=
  let '(token, i) := l in
  if (token =? 0) || (token =? TOK_PERMESSAGE_DEFLATE) then ret (inr (token, i))
  else t <- getToken i stop ;; ret (inl t).

(** The body of the switch; [None] is the return. *)
Definition read_token (token : Z) (p : ExtensionsParser) : M (list Z) (option ExtensionsParser) :=
  if token =? TOK_PERMESSAGE_DEFLATE then ret None
  else if token =? TOK_SERVER_NO_CONTEXT_TAKEOVER then ret (Some (set_serverNoContextTakeover true p))
  else if token =? TOK_CLIENT_NO_CONTEXT_TAKEOVER then ret (Some (set_clientNoContextTakeover true p))
  else if token =? TOK_SERVER_MAX_WINDOW_BITS then ret (Some (point_to ServerMaxWindowBits (set_integer ServerMaxWindowBits 1 p)))
  else if token =? TOK_CLIENT_MAX_WINDOW_BITS then ret (Some (point_to ClientMaxWindowBits (set_integer ClientMaxWindowBits 1 p)))
  else match lastInteger p with
       | Some f =>
           if token <? 0 then require (fits_signed 32 (- token)) ;; ret (Some (set_integer f (- token) p))
           else ret (Some p)
       | None => ret (Some p)
       end.

Definition token_switch (stop : Z) (l : ExtensionsParser * Z) : M (list Z) (ExtensionsParser * Z + ExtensionsParser) :=
  let '(p, i) := l in
  t <- getToken i stop ;;
  let '(token, i) := t in
  if token =? 0 then ret (inr p) else
  let? p' := read_token token p else ret (inr p) in
  ret (inl (p', i)).

(** The constructor; every round goes past a character at least. *)
Definition new_ExtensionsParser (data length : Z) : M (list Z) ExtensionsParser :=
  let stop := data + length in
  let fuel := S (S (Z.to_nat length)) in
  t <- iter fuel (find_round stop) (1, data) ;;
  let '(token, i) := t in
  iter fuel (token_switch stop) (mkExtensionsParser None (token =? TOK_PERMESSAGE_DEFLATE) false false 0 0, i).

(** ** The negotiation *)

Definition PERMESSAGE_DEFLATE : Z := 1.
Definition SERVER_NO_CONTEXT_TAKEOVER : Z := 2.
Definition CLIENT_NO_CONTEXT_TAKEOVER : Z := 4.

Definition generateOffer (options : Z) : list Z :=
  if bits_set options PERMESSAGE_DEFLATE then
    chars "permessage-deflate" ++
    (if bits_set options CLIENT_NO_CONTEXT_TAKEOVER then chars "; client_no_context_takeover" else []) ++
    (if bits_set options SERVER_NO_CONTEXT_TAKEOVER then chars "; server_no_context_takeover" else [])
  else [].

(** readOffer: the new options.  [~PERMESSAGE_DEFLATE] is an unsigned int, as the
    enumeration has that type. *)
Definition without (options flag : Z) : Z := s32 (Z.land (u32 options) (u32 (Z.lnot flag))).

Definition readOffer {S} (isServer : bool) (options : Z) (offer : list Z) : M S Z :=
  if isServer then
    p <- with_block (offer ++ [0]) (new_ExtensionsParser 0 (lengthZ offer)) ;;
    if bits_set options PERMESSAGE_DEFLATE && perMessageDeflate p then
      let options := if clientNoContextTakeover p || bits_set options CLIENT_NO_CONTEXT_TAKEOVER
                     then Z.lor options CLIENT_NO_CONTEXT_TAKEOVER else options in
      ret (if serverNoContextTakeover p then Z.lor options SERVER_NO_CONTEXT_TAKEOVER
           else without options SERVER_NO_CONTEXT_TAKEOVER)
    else ret (without options PERMESSAGE_DEFLATE)
  else ret options.

(** ** What the negotiation means

    The words of an offer are the maximal runs of letters, digits, hyphens and
    underscores that start with a letter or a digit. *)
Definition word_char (c : Z) : bool := alnum c || (c =? 45) || (c =? 95).

Fixpoint words_from (w : option (list Z)) (l : list Z) : list (list Z) :=
  match l, w with
  | [], None => []
  | [], Some w => [w]
  | c :: l, None => if alnum c then words_from (Some [c]) l else words_from None l
  | c :: l, Some w => if word_char c then words_from (Some (w ++ [c])) l else w :: words_from None l
  end.

Definition words (l : list Z) : list (list Z) := words_from None l.

(** The words behind the first permessage-deflate and before the next: the
    parameters of the first offer. *)
Definition deflate_name : list Z := chars "permessage-deflate".

Fixpoint until_deflate (ws : list (list Z)) : list (list Z) :=
  match ws with
  | [] => []
  | w :: ws => if decide (w = deflate_name) then [] else w :: until_deflate ws
  end.

Fixpoint after_deflate (ws : list (list Z)) : option (list (list Z)) :=
  match ws with
  | [] => None
  | w :: ws => if decide (w = deflate_name) then Some ws else after_deflate ws
  end.

Definition parameters (ws : list (list Z)) : option (list (list Z)) := until_deflate <$> after_deflate ws.

(** The options a server that wants [options] settles on. *)
Definition set_flag (flag : Z) (b : bool) (options : Z) : Z :=
  if b then Z.lor options flag else Z.ldiff options flag.

Definition negotiated (options : Z) (ws : list (list Z)) : Z :=
  match parameters ws with
  | Some ps =>
      if bits_set options PERMESSAGE_DEFLATE then
        set_flag SERVER_NO_CONTEXT_TAKEOVER (bool_decide (chars "server_no_context_takeover" ∈ ps))
          (if bool_decide (chars "client_no_context_takeover" ∈ ps)
           then Z.lor options CLIENT_NO_CONTEXT_TAKEOVER else options)
      else set_flag PERMESSAGE_DEFLATE false options
  | None => set_flag PERMESSAGE_DEFLATE false options
  end.

(** ** Words and tokens

    The sum of a word, and that no int overflows on the way. *)
Definition hash_step (h c : Z) : Z := if digit c then h * 10 - (c - 48) else h + c.

Definition hash (w : list Z) : Z := foldl hash_step 0 w.

Fixpoint hash_fits (h : Z) (w : list Z) : bool :=
  match w with
  | [] => true
  | c :: w => (negb (digit c) || fits_signed 32 (h * 10)) && fits_signed 32 (hash_step h c) && hash_fits (hash_step h c) w
  end.

(** A word the code does not mistake for another one. *)
Definition token_of (w : list Z) : option Z :=
  if decide (w = deflate_name) then Some TOK_PERMESSAGE_DEFLATE
  else if decide (w = chars "server_no_context_takeover") then Some TOK_SERVER_NO_CONTEXT_TAKEOVER
  else if decide (w = chars "client_no_context_takeover") then Some TOK_CLIENT_NO_CONTEXT_TAKEOVER
  else if decide (w = chars "server_max_window_bits") then Some TOK_SERVER_MAX_WINDOW_BITS
  else if decide (w = chars "client_max_window_bits") then Some TOK_CLIENT_MAX_WINDOW_BITS
  else None.

Definition plain_word (w : list Z) : bool :=
  hash_fits 0 w && negb (hash w =? - 2 ^ 31) &&
  match token_of w with
  | Some _ => true
  | None => negb (bool_decide (hash w ∈ [0; TOK_PERMESSAGE_DEFLATE; TOK_SERVER_NO_CONTEXT_TAKEOVER; TOK_CLIENT_NO_CONTEXT_TAKEOVER;
                                         TOK_SERVER_MAX_WINDOW_BITS; TOK_CLIENT_MAX_WINDOW_BITS]))
  end.

Lemma token_of_hash w t : token_of w = Some t -> hash w = t.
Proof. unfold token_of. repeat case_decide; intros [= <-]; subst; by vm_compute. Qed.

(** The run of word characters at the start, and what follows. *)
Fixpoint word_end (l : list Z) : list Z * list Z :=
  match l with
  | c :: l' => if word_char c then let '(w, r) := word_end l' in (c :: w, r) else ([], l)
  | [] => ([], [])
  end.

Lemma words_from_Some w l : words_from (Some w) l = (w ++ fst (word_end l)) :: words_from None (snd (word_end l)).
Proof.
  revert w. induction l as [|c l IH]; intros w; cbn [words_from word_end]; [by rewrite app_nil_r|].
  destruct (word_char c) eqn:E; [|cbn; rewrite app_nil_r].
  - rewrite IH. destruct (word_end l) as [w' r]. cbn. by rewrite <- app_assoc.
  - cbn. by replace (alnum c) with false by (unfold word_char in E; destruct (alnum c); done).
Qed.

Lemma word_end_app l : fst (word_end l) ++ snd (word_end l) = l.
Proof. induction l as [|c l IH]; [done|]. cbn. destruct (word_char c); [|done]. destruct (word_end l). cbn in *. by rewrite IH. Qed.

(** The tests of the code decide which word it is. *)
Lemma plain_hash w name t : token_of name = Some t -> plain_word w = true -> (hash w =? t) = bool_decide (w = name).
Proof.
  intros Hn Hw. apply eq_bool_prop_intro. rewrite bool_decide_spec, Is_true_true, Z.eqb_eq.
  split; [|intros ->; by apply token_of_hash]. intros E. unfold plain_word in Hw.
  destruct (token_of w) as [t'|] eqn:Ew.
  - apply token_of_hash in Ew as Eh. rewrite E in Eh. subst t'. clear -Hn Ew. unfold token_of in *.
    repeat case_decide; simplify_eq; done.
  - exfalso. apply andb_true_iff in Hw as [_ Hw]. apply negb_true_iff, bool_decide_eq_false in Hw. apply Hw.
    rewrite E. clear -Hn. unfold token_of in Hn. repeat case_decide; simplify_eq; by_decide.
Qed.

Lemma plain_nonzero w : plain_word w = true -> hash w <> 0.
Proof.
  intros Hw E. unfold plain_word in Hw. destruct (token_of w) as [t|] eqn:Ew.
  - apply token_of_hash in Ew as Eh. rewrite E in Eh. subst t. clear -Ew. unfold token_of in Ew. repeat case_decide; done.
  - apply andb_true_iff in Hw as [_ Hw]. apply negb_true_iff, bool_decide_eq_false in Hw. apply Hw. rewrite E. by_decide.
Qed.

Lemma plain_fits w : plain_word w = true -> hash_fits 0 w = true /\ hash w <> - 2 ^ 31.
Proof. unfold plain_word. rewrite !andb_true_iff, negb_true_iff, Z.eqb_neq. tauto. Qed.

Lemma hash_fits_signed h w : in_signed 32 h -> hash_fits h w = true -> in_signed 32 (foldl hash_step h w).
Proof.
  revert h. induction w as [|c w IH]; intros h Hh; cbn; [done|]. rewrite !andb_true_iff, fits_signed_spec. intros [[_ H1] H2]. by apply IH.
Qed.

(** One token of the parameters. *)
Lemma read_token_spec w p (l : list Z) : plain_word w = true ->
  wp nothing (read_token (hash w) p) (fun r l' => l' = l /\
    match r with
    | None => w = deflate_name
    | Some p' => w <> deflate_name /\ perMessageDeflate p' = perMessageDeflate p /\
        serverNoContextTakeover p' = bool_decide (w = chars "server_no_context_takeover") || serverNoContextTakeover p /\
        clientNoContextTakeover p' = bool_decide (w = chars "client_no_context_takeover") || clientNoContextTakeover p
    end) l.
Proof.
  intros Hw. unfold read_token.
  rewrite (plain_hash w deflate_name _ eq_refl Hw), (plain_hash w (chars "server_no_context_takeover") _ eq_refl Hw),
    (plain_hash w (chars "client_no_context_takeover") _ eq_refl Hw), (plain_hash w (chars "server_max_window_bits") _ eq_refl Hw),
    (plain_hash w (chars "client_max_window_bits") _ eq_refl Hw).
  repeat case_bool_decide; subst; try (by apply wp_ret); try (apply wp_ret; split_and!; by vm_compute).
  destruct (lastInteger p) as [f|]; [|by apply wp_ret]. destruct (hash w <? 0) eqn:Eneg; [|by apply wp_ret].
  wp_step. apply wp_require; [intros _|].
  - apply wp_ret. by destruct f.
  - intros Hf. exfalso. apply plain_fits in Hw as [Hfit Hne]. apply (hash_fits_signed 0 w) in Hfit; [|done]. fold (hash w) in Hfit.
    apply not_true_iff_false in Hf. apply Hf, fits_signed_spec. unfold in_signed in *. simpl in *. lia.
Qed.

(** ** The loops *)

Definition ascii (c : Z) : Prop := 0 <= c < 128.

Lemma ctype_ascii {S} class c (Q : bool -> S -> Prop) s : ascii c -> Q (class c) s -> wp nothing (ctype class c) Q s.
Proof.
  intros Hc HQ. unfold ctype, ascii in *. rewrite swrap_small by (unfold in_signed; simpl; lia). wp_step.
  apply wp_require; [intros _; by apply wp_ret|lia].
Qed.

Section Loops.
Context (offer : list Z) (Hascii : Forall ascii offer).
#[local] Abbreviation block := (offer ++ [0]).
#[local] Abbreviation stop := (lengthZ offer).

(** The characters from a position on. *)
Definition suffix (i : Z) : list Z := drop (Z.to_nat i) offer.

Definition inside (i : Z) : Prop := 0 <= i <= stop.

Lemma suffix_length i : inside i -> lengthZ (suffix i) = stop - i.
Proof using. unfold inside, suffix, lengthZ. rewrite length_drop. lia. Qed.

Lemma suffix_cons i c l : inside i -> suffix i = c :: l -> inside (i + 1) /\ suffix (i + 1) = l.
Proof using.
  intros Hi E. pose proof (suffix_length i Hi) as Hlen. rewrite E, lengthZ_cons in Hlen. pose proof (lengthZ_nonneg l).
  unfold inside in *. split; [lia|]. unfold suffix in *. rewrite Z2Nat.inj_add, <- drop_drop, E by lia. done.
Qed.

Lemma suffix_stop i : inside i -> suffix i = [] <-> i = stop.
Proof using.
  intros Hi. pose proof (suffix_length i Hi) as Hlen. split.
  - intros E. rewrite E in Hlen. unfold lengthZ in Hlen at 1. simpl in Hlen. lia.
  - intros ->. apply lengthZ_0. lia.
Qed.

Lemma ascii_hd i : inside i -> ascii (hd 0 (suffix i)).
Proof using Hascii.
  intros _. unfold suffix. pose proof (Forall_drop ascii (Z.to_nat i) offer Hascii) as H.
  destruct H; [done|]. done.
Qed.

(** Reading at a position: the NUL stands at the end. *)
Lemma load_suffix i (Q : Z -> list Z -> Prop) : inside i -> Q (hd 0 (suffix i)) block -> wp nothing (load i) Q block.
Proof using.
  intros Hi HQ. apply wp_load.
  - apply in_block_spec. unfold inside in Hi. rewrite lengthZ_app. change (lengthZ [0]) with 1. lia.
  - replace (byte_at block i) with (hd 0 (suffix i)); [done|]. unfold byte_at, suffix, inside, lengthZ in *.
    assert (hd 0 (drop (Z.to_nat i) offer) = nth (Z.to_nat i) offer 0) as ->.
    { generalize (Z.to_nat i). intros n. clear. revert offer. induction n as [|n IH]; intros [|c l]; cbn; done. }
    destruct (decide (Z.to_nat i < length offer)%nat).
    + by rewrite app_nth1.
    + rewrite nth_overflow by lia. rewrite app_nth2 by lia. by replace (Z.to_nat i - length offer)%nat with 0%nat by lia.
Qed.

Lemma skip_spec i : inside i ->
  wp nothing (iter (S (Z.to_nat (stop - i))) (skip_round stop) i) (fun j l => l = block /\ inside j /\ i <= j /\
    words (suffix j) = words (suffix i) /\ (suffix j = [] \/ alnum (hd 0 (suffix j)) = true)) block.
Proof using Hascii.
  intros Hi.
  apply (wp_iter _ _ (fun j l => l = block /\ inside j /\ i <= j /\ words (suffix j) = words (suffix i)) (fun j _ => Z.to_nat (stop - j)));
    [|done|lia].
  intros j l (-> & Hj & Hle & Ew). unfold skip_round. wp_step. apply load_suffix; [done|]. wp_step. apply ctype_ascii; [by apply ascii_hd|].
  apply wp_ret. destruct (suffix j) as [|c l] eqn:Es.
  - apply suffix_stop in Es as Ej; [|done]. rewrite Ej, Z.eqb_refl, andb_false_r, <- Ej, Es. split_and!; try done. by left.
  - destruct (Z.eqb_spec j stop) as [->|Hne]; [by rewrite (proj2 (suffix_stop _ Hj) eq_refl) in Es|]. cbn [hd].
    destruct (alnum c) eqn:Ea; cbn [negb andb].
    + rewrite Es. split_and!; try done. by right.
    + destruct (suffix_cons j c l Hj Es) as [Hj1 Es1]. rewrite Es1. unfold inside in *. split_and!; try done; try lia.
      rewrite <- Ew. unfold words. cbn. by rewrite Ea.
Qed.

Lemma token_spec i h : inside i -> hash_fits h (fst (word_end (suffix i))) = true ->
  wp nothing (iter (S (Z.to_nat (stop - i))) token_round (h, i)) (fun '(t, j) l => l = block /\ inside j /\
    t = foldl hash_step h (fst (word_end (suffix i))) /\ suffix j = snd (word_end (suffix i)) /\
    j = i + lengthZ (fst (word_end (suffix i)))) block.
Proof using Hascii.
  intros Hi Hf. set (w := fst (word_end (suffix i))). set (r := snd (word_end (suffix i))).
  apply (wp_iter _ _ (fun '(h', j) l => l = block /\ inside j /\ hash_fits h' (fst (word_end (suffix j))) = true /\
      foldl hash_step h w = foldl hash_step h' (fst (word_end (suffix j))) /\ snd (word_end (suffix j)) = r /\
      j + lengthZ (fst (word_end (suffix j))) = i + lengthZ w) (fun '(_, j) _ => Z.to_nat (stop - j)));
    [|done|lia].
  intros [h' j] l (-> & Hj & Hf' & Eh & Er & El). unfold token_round. wp_step. apply load_suffix; [done|].
  wp_step. apply ctype_ascii; [by apply ascii_hd|]. pose proof (ascii_hd j Hj) as Ha.
  destruct (suffix j) as [|c l] eqn:Es.
  { cbn. rewrite Es. cbn in *. by rewrite lengthZ_nil, Z.add_0_r in El. }
  cbn [hd] in *. fold (word_char c). cbn [word_end] in *. destruct (word_char c) eqn:Ec.
  - destruct (suffix_cons j c l Hj Es) as [Hj1 Es1]. destruct (word_end l) as [w' r'] eqn:Ee. cbn [fst snd] in *. cbn [hash_fits foldl] in *.
    rewrite lengthZ_cons in El. apply andb_true_iff in Hf' as [Hf' Hf3]. apply andb_true_iff in Hf' as [Hf1 Hf2].
    wp_step. apply ctype_ascii; [done|]. remember (hash_step h' c) as x eqn:Ex. unfold hash_step in Ex. destruct (digit c); subst x.
    + cbn [negb orb] in Hf1. rewrite Hf1, Hf2. cbn. rewrite Es1, Ee. unfold inside in *. split_and!; try done; cbn; lia.
    + rewrite Hf2. cbn. rewrite Es1, Ee. unfold inside in *. split_and!; try done; cbn; lia.
  - apply wp_ret. cbn [fst snd foldl] in *. rewrite lengthZ_nil, Z.add_0_r in El. by rewrite Es.
Qed.

(** The next token is the sum of the next word. *)
Lemma getToken_spec i : inside i -> Forall (fun w => plain_word w = true) (words (suffix i)) ->
  wp nothing (getToken i stop) (fun '(t, j) l => l = block /\ inside j /\
    match words (suffix i) with
    | [] => t = 0 /\ words (suffix j) = []
    | w :: ws => t = hash w /\ words (suffix j) = ws /\ i < j
    end) block.
Proof using Hascii.
  intros Hi Hplain. unfold getToken. wp_step. eapply wp_mono; [by apply skip_spec|].
  intros j l (-> & Hj & Hle & Ew & Hend). rewrite <- Ew in *. destruct (suffix j) as [|c l] eqn:Es.
  - eapply wp_mono; [apply token_spec; [done|by rewrite Es]|]. intros [t k] l (-> & Hk & -> & Ek & _). rewrite Es in *. cbn in *. by rewrite Ek.
  - destruct Hend as [|Hc]; [done|]. cbn [hd] in Hc.
    assert (words (c :: l) = fst (word_end (c :: l)) :: words (snd (word_end (c :: l)))) as Ews.
    { unfold words at 1. cbn [words_from]. rewrite Hc, words_from_Some. cbn [word_end].
      assert (word_char c = true) as -> by (unfold word_char; by rewrite Hc). by destruct (word_end l). }
    rewrite Ews in Hplain |- *. apply Forall_cons in Hplain as [Hw _].
    eapply wp_mono; [apply token_spec; [done|]; rewrite Es; by apply plain_fits|].
    intros [t k] l' (-> & Hk & -> & Ek & El). rewrite Es in *. rewrite Ek. split_and!; try done.
    rewrite El. cbn [word_end]. assert (word_char c = true) as -> by (unfold word_char; by rewrite Hc).
    destruct (word_end l) as [w' r']. cbn. rewrite lengthZ_cons. pose proof (lengthZ_nonneg w'). lia.
Qed.

(** The words of the offer are plain, so those from any position on are. *)
#[local] Abbreviation plain ws := (Forall (fun w => plain_word w = true) ws).

Lemma find_spec fuel : plain (words offer) -> (S (Z.to_nat stop) < fuel)%nat ->
  wp nothing (iter fuel (find_round stop) (1, 0)) (fun '(t, j) l => l = block /\ inside j /\ plain (words (suffix j)) /\
    match after_deflate (words offer) with
    | Some ws => t = TOK_PERMESSAGE_DEFLATE /\ words (suffix j) = ws
    | None => t = 0
    end) block.
Proof using Hascii.
  intros Hplain Hfuel.
  apply (wp_iter _ _ (fun '(t, j) l => l = block /\ inside j /\ plain (words (suffix j)) /\
      ((t = TOK_PERMESSAGE_DEFLATE /\ after_deflate (words offer) = Some (words (suffix j))) \/
       (t = 0 /\ after_deflate (words offer) = None) \/
       (t <> 0 /\ t <> TOK_PERMESSAGE_DEFLATE /\ after_deflate (words offer) = after_deflate (words (suffix j)))))
    (fun '(t, j) _ => if t =? 0 then 0%nat else S (Z.to_nat (stop - j)))).
  - intros [t j] l (-> & Hj & Hp & Hcase). unfold find_round. pose proof (lengthZ_nonneg offer).
    destruct Hcase as [[-> E]|[[-> E]|(H0 & Ht & E)]].
    + cbn. by rewrite E.
    + cbn. by rewrite E.
    + rewrite (proj2 (Z.eqb_neq _ _) H0), (proj2 (Z.eqb_neq _ _) Ht). cbn [orb]. wp_step.
      eapply wp_mono; [by apply getToken_spec|]. intros [t' k] l (-> & Hk & Hw). apply wp_ret.
      destruct (words (suffix j)) as [|w ws] eqn:Ew.
      * destruct Hw as [-> Hw]. cbn. rewrite Hw. split; [|lia]. split_and!; try done. by right; left.
      * destruct Hw as (-> & Hw & Hlt). rewrite Hw. apply Forall_cons in Hp as [Hpw Hp]. pose proof (plain_nonzero w Hpw) as Hnz.
        rewrite (proj2 (Z.eqb_neq _ _) Hnz). unfold inside in *. split; [|lia]. split_and!; try done; try lia.
        pose proof (plain_hash w deflate_name _ eq_refl Hpw) as Eh. rewrite E. cbn [after_deflate].
        case_bool_decide as Ed.
        -- left. rewrite decide_True by done. split; [lia|done].
        -- right; right. rewrite decide_False by done. split; [done|]. split; [lia|done].
  - split_and!; try done; [unfold inside; pose proof (lengthZ_nonneg offer); lia|]. right; right. done.
  - simpl. lia.
Qed.

Lemma bool_decide_cons (x w : list Z) ws : bool_decide (x ∈ w :: ws) = bool_decide (w = x) || bool_decide (x ∈ ws).
Proof using.
  rewrite (bool_decide_ext _ _ (elem_of_cons ws x w)), bool_decide_or. f_equal. apply bool_decide_ext. split; congruence.
Qed.

Lemma switch_spec fuel p i : inside i -> plain (words (suffix i)) -> (Z.to_nat (stop - i) < fuel)%nat ->
  wp nothing (iter fuel (token_switch stop) (p, i)) (fun q l => l = block /\ perMessageDeflate q = perMessageDeflate p /\
    serverNoContextTakeover q = bool_decide (chars "server_no_context_takeover" ∈ until_deflate (words (suffix i))) || serverNoContextTakeover p /\
    clientNoContextTakeover q = bool_decide (chars "client_no_context_takeover" ∈ until_deflate (words (suffix i))) || clientNoContextTakeover p) block.
Proof using Hascii.
  intros Hi Hp Hfuel. set (us := until_deflate (words (suffix i))).
  apply (wp_iter _ _ (fun '(q, j) l => l = block /\ inside j /\ plain (words (suffix j)) /\ perMessageDeflate q = perMessageDeflate p /\
      (serverNoContextTakeover q || bool_decide (chars "server_no_context_takeover" ∈ until_deflate (words (suffix j)))) =
        bool_decide (chars "server_no_context_takeover" ∈ us) || serverNoContextTakeover p /\
      (clientNoContextTakeover q || bool_decide (chars "client_no_context_takeover" ∈ until_deflate (words (suffix j)))) =
        bool_decide (chars "client_no_context_takeover" ∈ us) || clientNoContextTakeover p)
    (fun '(_, j) _ => Z.to_nat (stop - j))); [|split_and!; try done; apply orb_comm|done].
  intros [q j] l (-> & Hj & Hpj & Epm & Es & Ec). unfold token_switch. wp_step.
  eapply wp_mono; [by apply getToken_spec|]. intros [t k] l (-> & Hk & Hw).
  destruct (words (suffix j)) as [|w ws] eqn:Ew.
  - destruct Hw as [-> _]. apply wp_ret. cbn in Es, Ec. rewrite orb_false_r in Es, Ec. done.
  - destruct Hw as (-> & Hw & Hlt). apply Forall_cons in Hpj as [Hpw Hps].
    rewrite (proj2 (Z.eqb_neq _ _) (plain_nonzero w Hpw)). wp_step. eapply wp_mono; [by apply read_token_spec|].
    intros [q'|] l (-> & Hq); cbn [until_deflate] in Es, Ec; [destruct Hq as (Hne & Eq1 & Eq2 & Eq3)|subst w].
    + apply wp_ret. rewrite decide_False in Es, Ec by done. rewrite Hw. unfold inside in *. split; [|lia].
      split_and!; try done; try lia; [by rewrite Eq1|rewrite <- Es, Eq2|rewrite <- Ec, Eq3]; rewrite bool_decide_cons;
        repeat case_bool_decide; by rewrite ?orb_true_r, ?orb_false_r.
    + apply wp_ret. rewrite decide_True in Es, Ec by done. cbn in Es, Ec. rewrite orb_false_r in Es, Ec. done.
Qed.

End Loops.

Lemma new_ExtensionsParser_spec offer : Forall ascii offer -> Forall (fun w => plain_word w = true) (words offer) ->
  wp nothing (new_ExtensionsParser 0 (lengthZ offer)) (fun p _ =>
    match parameters (words offer) with
    | Some ps => perMessageDeflate p = true /\
        serverNoContextTakeover p = bool_decide (chars "server_no_context_takeover" ∈ ps) /\
        clientNoContextTakeover p = bool_decide (chars "client_no_context_takeover" ∈ ps)
    | None => perMessageDeflate p = false
    end) (offer ++ [0]).
Proof.
  intros Hascii Hp. unfold new_ExtensionsParser. wp_step. eapply wp_mono; [apply find_spec; [done|done|lia]|].
  intros [t j] l (-> & Hj & Hpj & Ht). rewrite Z.add_0_l. eapply wp_mono; [apply switch_spec; try done; unfold inside in *; lia|].
  intros p l (_ & Epm & Es & Ec). cbn in Epm, Es, Ec. rewrite orb_false_r in Es, Ec. unfold parameters.
  destruct (after_deflate (words offer)) as [ws|]; cbn; [|by rewrite Epm, Ht]. destruct Ht as [-> Ew]. by rewrite Epm, Es, Ec, Ew.
Qed.

(** Bits below the sign keep an int an int. *)
Lemma same_sign x y : in_signed 32 y -> Z.shiftr x 31 = Z.shiftr y 31 -> in_signed 32 x.
Proof.
  unfold in_signed. change (32 - 1) with 31. rewrite !Z.shiftr_div_pow2 by lia. intros Hy E.
  pose proof (Z.div_mod x (2 ^ 31)). pose proof (Z.mod_pos_bound x (2 ^ 31)).
  pose proof (Z.div_mod y (2 ^ 31)). pose proof (Z.mod_pos_bound y (2 ^ 31)). lia.
Qed.

Lemma without_ldiff options flag : in_signed 32 options -> 0 <= flag < 2 ^ 31 -> without options flag = Z.ldiff options flag.
Proof.
  intros Ho Hf. unfold without, uwrap. rewrite <- !land_ones_mod by lia.
  replace (Z.land (Z.land options (Z.ones 32)) (Z.land (Z.lnot flag) (Z.ones 32))) with (u32 (Z.ldiff options flag)).
  2: { unfold uwrap. rewrite <- land_ones_mod, Z.ldiff_land by lia. apply Z.bits_inj'. intros n Hn.
       rewrite !Z.land_spec. destruct (Z.testbit options n), (Z.testbit (Z.lnot flag) n), (Z.testbit (Z.ones 32) n); done. }
  rewrite swrap_uwrap. apply swrap_small, (same_sign _ options); [lia|done|].
  rewrite Z.shiftr_ldiff, (Z.shiftr_div_pow2 flag), Z.div_small by lia. apply Z.ldiff_0_r.
Qed.

Lemma lor_flag options flag k : flag = 2 ^ k -> 0 <= k -> bits_set options flag = true -> Z.lor options flag = options.
Proof.
  intros -> Hk Hb. unfold bits_set in Hb. apply negb_true_iff, Z.eqb_neq in Hb. apply Z.bits_inj'. intros n Hn.
  rewrite Z.lor_spec, Z.pow2_bits_eqb by lia. destruct (Z.eqb_spec k n) as [->|]; [|by rewrite orb_false_r].
  rewrite orb_true_r. destruct (Z.testbit options n) eqn:E; [done|]. exfalso. apply Hb. apply Z.bits_inj'. intros m Hm.
  rewrite Z.land_spec, Z.pow2_bits_eqb, Z.bits_0 by lia. destruct (Z.eqb_spec n m) as [->|]; [by rewrite E|apply andb_false_r].
Qed.

(** C23: the server negotiates permessage-deflate as the words of the offer say.
    For every offer in ASCII whose words the code does not mistake for others (the
    sum of a word that is none of the five names is not that of a name, is not
    zero, and fits an int), readOffer reads the string up to its end and not
    beyond, and returns: without permessage-deflate when no word of the offer is
    its name, or the server does not want it; otherwise with the server's context
    takeover switched off exactly if the first offer of permessage-deflate names
    server_no_context_takeover, and the client's if it names
    client_no_context_takeover or the server asked for it. *)
Theorem readOffer_correct {S} options offer (s : S) : in_signed 32 options -> Forall ascii offer ->
  Forall (fun w => plain_word w = true) (words offer) ->
  readOffer true options offer s = Ok (negotiated options (words offer), s).
Proof.
  intros Ho Ha Hp. unfold readOffer, bind, with_block.
  destruct (wp_total _ _ _ (new_ExtensionsParser_spec offer Ha Hp)) as (p & l & -> & Hq). cbn [ret]. unfold negotiated.
  destruct (parameters (words offer)) as [ps|].
  - destruct Hq as (-> & -> & ->). rewrite andb_true_r. destruct (bits_set options PERMESSAGE_DEFLATE) eqn:Eb.
    + assert ((if bool_decide (chars "client_no_context_takeover" ∈ ps) || bits_set options CLIENT_NO_CONTEXT_TAKEOVER
               then Z.lor options CLIENT_NO_CONTEXT_TAKEOVER else options) =
              (if bool_decide (chars "client_no_context_takeover" ∈ ps) then Z.lor options CLIENT_NO_CONTEXT_TAKEOVER else options)) as ->.
      { case_bool_decide; [done|]. destruct (bits_set options CLIENT_NO_CONTEXT_TAKEOVER) eqn:Ec; [|done]. by apply (lor_flag _ _ 2). }
      unfold set_flag. case_bool_decide; [done|]. rewrite without_ldiff; [done| |by vm_compute].
      case_bool_decide; [|done]. apply (same_sign _ options); [done|]. rewrite Z.shiftr_lor. apply Z.lor_0_r.
    + unfold set_flag. by rewrite without_ldiff by done.
  - rewrite Hq, andb_false_r. unfold set_flag. by rewrite without_ldiff by done.
Qed.

(** The offer a browser sends. *)
Definition browser_offer : list Z := chars "permessage-deflate; client_max_window_bits=15".

Lemma readOffer_correct_witness : readOffer true 3 browser_offer tt = Ok (1, tt).
Proof. apply (readOffer_correct 3 browser_offer tt); by_decide. Defined.

(** What the server answers is read by the same code as what was meant: the offers
    that generateOffer writes come through. *)
Lemma generateOffer_read options : bits_set options PERMESSAGE_DEFLATE = true ->
  exists ps, parameters (words (generateOffer options)) = Some ps /\
    bool_decide (chars "client_no_context_takeover" ∈ ps) = bits_set options CLIENT_NO_CONTEXT_TAKEOVER /\
    bool_decide (chars "server_no_context_takeover" ∈ ps) = bits_set options SERVER_NO_CONTEXT_TAKEOVER.
Proof.
  intros H. unfold generateOffer. rewrite H.
  destruct (bits_set options CLIENT_NO_CONTEXT_TAKEOVER), (bits_set options SERVER_NO_CONTEXT_TAKEOVER);
    eexists; split_and!; by vm_compute.
Qed.

(** The sums do not tell words apart: this offer is none of permessage-deflate, and
    the server accepts it as one. *)
Remark anagram_accepted : parameters (words (chars "deflate-permessage")) = None /\
  readOffer true 1 (chars "deflate-permessage") tt = Ok (1, tt).
Proof. by vm_compute. Qed.

(** The number of a parameter overflows the int, and a character outside ASCII is no
    argument of isalnum. *)
Remark long_number_undefined : readOffer true 1 (chars "permessage-deflate; client_max_window_bits=99999999999") tt = Undef.
Proof. by vm_compute. Qed.

Remark latin1_undefined : readOffer true 1 (chars "x-" ++ [0xE9]) tt = Undef.
Proof. by vm_compute. Qed.
