(* ===== verification/Http.v ===== *)
(** * Heads of HTTP messages

    The parser of src/libuws/src/HTTPSocket.cpp, which works in place on the
    receive buffer, and HttpRequest of src/libuws/include/HTTPSocket.h; what the
    parser computes, for any bytes, and that it may be called again when more of a
    message arrived. *)

From S2P Require Import Prelude CLib Memory Buffer.

(** ** The code *)

(** struct Header with a key; one whose key is the null pointer ends the array. *)
Record Header := mkHeader { key : Z; value : Z; keyLength : Z; valueLength : Z }.

Definition MAX_HEADERS : Z := 100.

(** The characters of a key, and those between a key and its value.  [char] is
    signed. *)
Definition key_char (c : Z) : bool := negb (c =? 58) && (32 <? s8 c).

Definition gap_char (c : Z) : bool := ((c =? 58) || (s8 c <? 33)) && negb (c =? 13).

Definition key_round (buffer : Z) : M (list Z) (Z + Z) :=
  c <- load buffer ;;
  if key_char c then store buffer (Z.lor c 32) ;; ret (inl (buffer + 1)) else ret (inr buffer).

Definition gap_round (buffer : Z) : M (list Z) (Z + Z) :=
  c <- load buffer ;;
  ret (if gap_char c then inl (buffer + 1) else inr buffer).

(** memchr. *)
Fixpoint index_of (c : Z) (l : list Z) : option Z :=
  match l with
  | [] => None
  | b :: l => if b =? c then Some 0 else (fun i => i + 1) <$> index_of c l
  end.

Definition memchr (s c n : Z) : M (list Z) (option Z) :=
  bs <- load_bytes s n ;; ret ((fun i => s + i) <$> index_of c bs).

(** One header; the value of the loop is the cursor behind the head, and the headers
    before the one that ends the array. *)
Definition header_round (e maxHeaders : Z) (l : Z * Z * list Header) : M (list Z) (Z * Z * list Header + option (Z * list Header)) :=
  let '(i, buffer, headers) := l in
  if maxHeaders <=? i then ret (inr None) else
  let key := buffer in
  buffer <- iter (S (Z.to_nat (e - buffer))) key_round buffer ;;
  c <- load buffer ;;
  if c =? 13 then
    c1 <- load (buffer + 1) ;;
    ret (inr (if negb (buffer =? e) && (c1 =? 10) && (0 <? i) then Some (buffer + 2, headers) else None))
  else
    let keyLength := u32 (buffer - key) in
    value <- iter (S (Z.to_nat (e - buffer))) gap_round (buffer + 1) ;;
    let? buffer := memchr value 13 (e - value) else ret (inr None) in
    c1 <- load (buffer + 1) ;;
    if c1 =? 10 then ret (inl (i + 1, buffer + 2, headers ++ [mkHeader key value keyLength (u32 (buffer - value))]))
    else ret (inr None).

Definition getHeaders (buffer e maxHeaders : Z) : M (list Z) (option (Z * list Header)) :=
  iter (S (Z.to_nat maxHeaders)) (header_round e maxHeaders) (0, buffer, []).

(** HttpRequest: the array begins with the request line; strncmp of strings without
    NULs. *)
Definition has_key (k : list Z) (h : Header) : M (list Z) bool :=
  if keyLength h =? lengthZ k then bs <- load_bytes (key h) (lengthZ k) ;; ret (bool_decide (bs = k)) else ret false.

Fixpoint find_header (k : list Z) (hs : list Header) : M (list Z) (option Header) :=
  match hs with
  | [] => ret None
  | h :: hs => b <- has_key k h ;; if b : bool then ret (Some h) else find_header k hs
  end.

Definition getHeader (headers : list Header) (k : list Z) : M (list Z) (option Header) :=
  match headers with [] => undef | _ :: hs => find_header k hs end.

Inductive HttpMethod :=
| METHOD_GET | METHOD_POST | METHOD_PUT | METHOD_DELETE | METHOD_PATCH | METHOD_OPTIONS | METHOD_HEAD | METHOD_TRACE
| METHOD_CONNECT | METHOD_INVALID.

#[global] Instance HttpMethod_eq : EqDecision HttpMethod.
Proof. solve_decision. Defined.

Definition method_names : list (list Z * HttpMethod) :=
  [(chars "get", METHOD_GET); (chars "put", METHOD_PUT); (chars "post", METHOD_POST); (chars "head", METHOD_HEAD);
   (chars "patch", METHOD_PATCH); (chars "trace", METHOD_TRACE); (chars "delete", METHOD_DELETE);
   (chars "options", METHOD_OPTIONS); (chars "connect", METHOD_CONNECT)].

Fixpoint method_of (names : list (list Z * HttpMethod)) (h : Header) : M (list Z) HttpMethod :=
  match names with
  | [] => ret METHOD_INVALID
  | (k, m) :: names => b <- has_key k h ;; if b : bool then ret m else method_of names h
  end.

Definition getMethod (headers : list Header) : M (list Z) HttpMethod :=
  match headers with [] => undef | h :: _ => method_of method_names h end.

(** ** What the parser computes

    A line of a head: the key, what stands between it and the value, and the value. *)
Record line := mkLine { l_key : list Z; l_gap : list Z; l_value : list Z }.

Definition no_cr (c : Z) : bool := negb (c =? 13).

Definition lower (c : Z) : Z := Z.lor c 32.

(** The next line of the text, [End] of the head with the rest, or neither.  The
    keys are in lower case. *)
Inductive lexed := Line (l : line) (rest : list Z) | End (rest : list Z) | Stuck.

Definition lex_value (k g t : list Z) : lexed :=
  let '(v, r) := span no_cr t in
  match r with
  | _ :: c :: r => if c =? 10 then Line (mkLine (map lower k) g v) r else Stuck
  | _ => Stuck
  end.

Definition lex (t : list Z) : lexed :=
  let '(k, r) := span key_char t in
  match r with
  | [] => Stuck
  | c :: r =>
      if c =? 13 then match r with c :: r => if c =? 10 then End r else Stuck | [] => Stuck end
      else let '(g, r) := span gap_char r in lex_value k (c :: g) r
  end.

(** The lines of a head with less than [n] lines, and what follows it. *)
Fixpoint parse (n : nat) (first : bool) (t : list Z) : option (list line * list Z) :=
  match n with
  | O => None
  | S n =>
      match lex t with
      | Line l r => '(ls, r') ← parse n false r; Some (l :: ls, r')
      | End r => if first then None else Some ([], r)
      | Stuck => None
      end
  end.

(** The text the parser leaves behind. *)
Fixpoint lowered (n : nat) (t : list Z) : list Z :=
  match n with
  | O => t
  | S n =>
      let '(k, r) := span key_char t in
      map lower k ++
      match lex t with
      | Line l r' => l_gap l ++ l_value l ++ [13; 10] ++ lowered n r'
      | _ => r
      end
  end.

(** Where the lines of a head at [p] are. *)
Definition line_length (l : line) : Z := lengthZ (l_key l) + lengthZ (l_gap l) + lengthZ (l_value l) + 2.

Fixpoint place (p : Z) (ls : list line) : list Header :=
  match ls with
  | [] => []
  | l :: ls =>
      mkHeader p (p + lengthZ (l_key l) + lengthZ (l_gap l)) (u32 (lengthZ (l_key l))) (u32 (lengthZ (l_value l)))
      :: place (p + line_length l) ls
  end.

(** ** Accesses to a block whose parts are known *)

Lemma load_at pre c l : load (lengthZ pre) (pre ++ c :: l) = Ok (c, pre ++ c :: l).
Proof.
  unfold load, bind, get, id, require. rewrite (proj2 (in_block_spec _ _ _)).
  - unfold ret, byte_at, lengthZ. by rewrite Nat2Z.id, nth_middle.
  - pose proof (lengthZ_nonneg pre). pose proof (lengthZ_nonneg l). rewrite lengthZ_app, lengthZ_cons. lia.
Qed.

Lemma store_at pre c v l : store (lengthZ pre) v (pre ++ c :: l) = Ok (tt, pre ++ v :: l).
Proof.
  unfold store, bind, get, id, require. rewrite (proj2 (in_block_spec _ _ _)).
  - unfold modify, splice. do 2 f_equal. change (lengthZ [v]) with 1. unfold lengthZ.
    rewrite Z2Nat.inj_add, Nat2Z.id, take_app_length by lia. change (Z.to_nat 1) with 1%nat.
    by rewrite <- drop_drop, drop_app_length.
  - pose proof (lengthZ_nonneg pre). pose proof (lengthZ_nonneg l). rewrite lengthZ_app, lengthZ_cons. lia.
Qed.

Lemma load_bytes_at pre bs l : load_bytes (lengthZ pre) (lengthZ bs) (pre ++ bs ++ l) = Ok (bs, pre ++ bs ++ l).
Proof.
  unfold load_bytes, bind, get, id, require. rewrite (proj2 (in_block_spec _ _ _)).
  - unfold ret. by rewrite slice_app_r, Z.sub_diag, slice_prefix by lia.
  - pose proof (lengthZ_nonneg pre). pose proof (lengthZ_nonneg bs). pose proof (lengthZ_nonneg l). rewrite !lengthZ_app. lia.
Qed.

(** ** The loops *)

Lemma key_loop pre t x fuel : key_char (hd 0 x) = false -> (length t < fuel)%nat -> x <> [] ->
  iter fuel key_round (lengthZ pre) (pre ++ t ++ x) =
    Ok (lengthZ pre + lengthZ (fst (span key_char t)), pre ++ map lower (fst (span key_char t)) ++ snd (span key_char t) ++ x).
Proof.
  intros Hx Hf Hne. revert pre fuel Hf. induction t as [|c t IH]; intros pre [|fuel] Hf; cbn in Hf; try lia.
  - destruct x as [|c x]; [done|]. cbn in Hx |- *. unfold bind, key_round, bind. rewrite load_at, Hx. cbn. by rewrite lengthZ_nil, Z.add_0_r.
  - cbn [iter app span]. unfold bind at 1. unfold key_round at 1, bind at 1. rewrite load_at. destruct (key_char c) eqn:Ec.
    + unfold bind. rewrite store_at. cbn [ret]. pose proof (IH (pre ++ [lower c]) fuel ltac:(lia)) as E.
      rewrite lengthZ_app in E. change (lengthZ [lower c]) with 1 in E. rewrite <- !app_assoc in E. cbn [app] in E.
      fold (lower c). rewrite E. destruct (span key_char t) as [a r]. cbn. rewrite lengthZ_cons. do 2 f_equal. lia.
    + cbn. by rewrite lengthZ_nil, Z.add_0_r.
Qed.

Lemma gap_loop pre t x fuel : gap_char (hd 0 x) = false -> (length t < fuel)%nat -> x <> [] ->
  iter fuel gap_round (lengthZ pre) (pre ++ t ++ x) = Ok (lengthZ pre + lengthZ (fst (span gap_char t)), pre ++ t ++ x).
Proof.
  intros Hx Hf Hne. revert pre fuel Hf. induction t as [|c t IH]; intros pre [|fuel] Hf; cbn in Hf; try lia.
  - destruct x as [|c x]; [done|]. cbn in Hx |- *. unfold bind, gap_round, bind. rewrite load_at, Hx. cbn. by rewrite lengthZ_nil, Z.add_0_r.
  - cbn [iter app span]. unfold bind at 1. unfold gap_round at 1, bind at 1. rewrite load_at. destruct (gap_char c) eqn:Ec.
    + cbn [ret]. pose proof (IH (pre ++ [c]) fuel ltac:(lia)) as E.
      rewrite lengthZ_app in E. change (lengthZ [c]) with 1 in E. rewrite <- !app_assoc in E. cbn [app] in E.
      rewrite E. destruct (span gap_char t) as [a r]. cbn. rewrite lengthZ_cons. do 2 f_equal. lia.
    + cbn. by rewrite lengthZ_nil, Z.add_0_r.
Qed.

Lemma index_of_span t : index_of 13 t = match snd (span no_cr t) with [] => None | _ => Some (lengthZ (fst (span no_cr t))) end.
Proof.
  induction t as [|c t IH]; [done|]. cbn. unfold no_cr at 1 3. destruct (c =? 13) eqn:Ec; cbn; [done|].
  rewrite IH. destruct (span no_cr t) as [a [|b r]]; cbn; [done|]. rewrite lengthZ_cons. f_equal. lia.
Qed.

(** The character behind the one at [lengthZ pre]. *)
Lemma load_next pre c d l : load (lengthZ pre + 1) (pre ++ c :: d :: l) = Ok (d, pre ++ c :: d :: l).
Proof. pose proof (load_at (pre ++ [c]) d l) as E. rewrite lengthZ_app in E. change (lengthZ [c]) with 1 in E. by rewrite <- app_assoc in E. Qed.

Section Round.
Context (x : list Z) (e maxHeaders i : Z) (hs : list Header) (Hi : i < maxHeaders).
Context (c0 : Z) (pad : list Z) (Hx : x = 13 :: c0 :: pad).

(** The second half of a round, for a line whose key and first separator were read. *)
Lemma value_round pre k c t p : e = lengthZ pre + 1 + lengthZ t -> c <> 13 -> p + lengthZ k = lengthZ pre ->
  (value <- iter (S (Z.to_nat (e - lengthZ pre))) gap_round (lengthZ pre + 1) ;;
   let? buffer := memchr value 13 (e - value) else ret (inr None) in
   c1 <- load (buffer + 1) ;;
   if c1 =? 10 then ret (inl (i + 1, buffer + 2, hs ++ [mkHeader p value (u32 (lengthZ pre - p)) (u32 (buffer - value))]))
   else ret (inr None)) (pre ++ c :: t ++ x) =
  Ok (match lex_value k (c :: fst (span gap_char t)) (snd (span gap_char t)) with
      | Line l r => inl (i + 1, p + line_length l, hs ++ place p [l])
      | _ => inr None
      end : Z * Z * list Header + option (Z * list Header), pre ++ c :: t ++ x).
Proof using Hx.
  intros He Hc Hp. unfold bind at 1.
  pose proof (gap_loop (pre ++ [c]) t x (S (Z.to_nat (e - lengthZ pre)))) as E. rewrite lengthZ_app, <- !app_assoc in E.
  change (lengthZ [c]) with 1 in E. cbn [app] in E. rewrite E; [|by rewrite Hx|unfold lengthZ in *; lia|by rewrite Hx]. clear E.
  pose proof (span_app gap_char t) as Et. destruct (span gap_char t) as [g r] eqn:Eg. cbn [fst snd] in *. subst t.
  set (pre2 := pre ++ c :: g). assert (lengthZ pre2 = lengthZ pre + 1 + lengthZ g) as E2 by (subst pre2; rewrite lengthZ_app, lengthZ_cons; lia).
  rewrite lengthZ_app in He. rewrite <- E2. replace (pre ++ c :: (g ++ r) ++ x) with (pre2 ++ r ++ x) by (subst pre2; by rewrite <- !app_assoc).
  unfold bind at 1, memchr, bind at 1. replace (e - lengthZ pre2) with (lengthZ r) by lia. rewrite load_bytes_at. cbn [ret].
  rewrite index_of_span. unfold lex_value. pose proof (span_app no_cr r) as Er. pose proof (span_stop no_cr r) as Hs.
  destruct (span no_cr r) as [v r2]. cbn [fst snd] in *. subst r.
  destruct r2 as [|b r2]; [done|]. specialize (Hs b r2 eq_refl). unfold no_cr in Hs. apply negb_false_iff, Z.eqb_eq in Hs as ->. cbn [fmap option_fmap option_map].
  rewrite <- app_assoc. cbn [app]. replace (lengthZ pre2 + lengthZ v) with (lengthZ (pre2 ++ v)) by apply lengthZ_app.
  rewrite (app_assoc pre2 v). destruct r2 as [|d r2].
  - unfold bind at 1. rewrite Hx. cbn [app]. rewrite load_next. done.
  - unfold bind at 1. cbn [app]. rewrite load_next. destruct (d =? 10); [|done].
    unfold ret. rewrite lengthZ_app. do 2 f_equal. f_equal. unfold line_length. cbn [place l_key l_gap l_value].
    assert (lengthZ (map lower k) = lengthZ k) as Ek by (unfold lengthZ; by rewrite length_map). rewrite lengthZ_cons, !Ek.
    f_equal; [f_equal; lia|]. do 3 f_equal; [lia| |]; f_equal; lia.
Qed.

Lemma header_round_spec pre t : e = lengthZ pre + lengthZ t ->
  header_round e maxHeaders (i, lengthZ pre, hs) (pre ++ t ++ x) =
  Ok (match lex t with
      | Line l r => inl (i + 1, lengthZ pre + line_length l, hs ++ place (lengthZ pre) [l])
      | End r => inr (if 0 <? i then Some (e - lengthZ r, hs) else None)
      | Stuck => inr None
      end : Z * Z * list Header + option (Z * list Header), pre ++ lowered 1 t ++ x).
Proof using Hx Hi.
  intros He. unfold header_round. rewrite (proj2 (Z.leb_gt _ _) Hi). unfold bind at 1. rewrite key_loop by (rewrite ?Hx; try done; unfold lengthZ in *; lia).
  cbn [lowered]. unfold lex. pose proof (span_app key_char t) as Et. pose proof (span_stop key_char t) as Hs.
  destruct (span key_char t) as [k r]. cbn [fst snd] in *. subst t. rewrite lengthZ_app in He.
  assert (lengthZ (map lower k) = lengthZ k) as Ek by (unfold lengthZ; by rewrite length_map).
  set (pre1 := pre ++ map lower k). assert (lengthZ pre1 = lengthZ pre + lengthZ k) as E1 by (subst pre1; rewrite lengthZ_app; lia).
  rewrite <- E1, !app_assoc. fold pre1. destruct r as [|c r].
  - unfold bind at 1. rewrite Hx, app_nil_r, load_at. cbn [Z.eqb Pos.eqb]. unfold bind at 1. rewrite load_next.
    rewrite lengthZ_nil in He. by replace (lengthZ pre1 =? e) with true by lia.
  - rewrite lengthZ_cons in He. unfold bind at 1. rewrite <- !app_assoc. cbn [app]. rewrite load_at. destruct (c =? 13) eqn:Ec.
    + destruct r as [|d r].
      * unfold bind at 1. cbn [app]. rewrite Hx, load_next. cbn [Z.eqb]. by rewrite andb_false_r.
      * unfold bind at 1. cbn [app]. rewrite load_next. rewrite lengthZ_cons in He. pose proof (lengthZ_nonneg r).
        replace (lengthZ pre1 =? e) with false by lia. cbn [negb andb]. destruct (d =? 10); cbn [andb]; [|done].
        unfold ret. destruct (0 <? i); [|done]. do 5 f_equal. lia.
    + apply Z.eqb_neq in Ec. rewrite (value_round pre1 k c r (lengthZ pre)) by lia.
      pose proof (span_app gap_char r) as Er. destruct (span gap_char r) as [g r2]. cbn [fst snd] in *. subst r. unfold lex_value.
      pose proof (span_app no_cr r2) as Er. pose proof (span_stop no_cr r2) as Hs2. destruct (span no_cr r2) as [v r3]. cbn [fst snd] in *. subst r2.
      destruct r3 as [|b r3]; [done|]. specialize (Hs2 b r3 eq_refl). unfold no_cr in Hs2. apply negb_false_iff, Z.eqb_eq in Hs2 as ->.
      destruct r3 as [|d r3]; [done|]. destruct (d =? 10) eqn:Ed; [|done]. apply Z.eqb_eq in Ed as ->. cbn. by rewrite <- !app_assoc.
Qed.

End Round.

Lemma place_app p ls1 ls2 : place p (ls1 ++ ls2) = place p ls1 ++ place (p + foldr (fun l n => line_length l + n) 0 ls1) ls2.
Proof.
  revert p. induction ls1 as [|l ls1 IH]; intros p; cbn; [by rewrite Z.add_0_r|]. by rewrite IH, Z.add_assoc.
Qed.

(** The shape of a text that starts with a line. *)
Lemma lex_lowered t l r : lex t = Line l r ->
  lowered 1 t = l_key l ++ l_gap l ++ l_value l ++ [13; 10] ++ r /\ lengthZ t = line_length l + lengthZ r.
Proof.
  intros E. cbn [lowered]. rewrite E. unfold lex in E. pose proof (span_app key_char t) as Et.
  destruct (span key_char t) as [k r1]. cbn in Et. subst t. destruct r1 as [|c r1]; [done|].
  destruct (c =? 13); [by destruct r1 as [|d r1]; [|destruct (d =? 10)]|].
  pose proof (span_app gap_char r1) as Et. destruct (span gap_char r1) as [g r2]. cbn in Et. subst r1. unfold lex_value in E.
  pose proof (span_app no_cr r2) as Et. destruct (span no_cr r2) as [v r3]. cbn in Et. subst r2.
  destruct r3 as [|b [|d r3]]; [done..|]. destruct (d =? 10); [|done]. injection E as <- <-. split; [done|].
  unfold line_length. cbn. unfold lengthZ. rewrite !length_app. cbn. rewrite length_map, !length_app. cbn. lia.
Qed.

Section GetHeaders.
Context (x : list Z) (e maxHeaders : Z) (c0 : Z) (pad : list Z) (Hx : x = 13 :: c0 :: pad).

(** Rounds from the header with number [i] on. *)
Lemma getHeaders_rounds n i pre t hs : i + Z.of_nat n = maxHeaders -> 0 <= i -> e = lengthZ pre + lengthZ t ->
  iter (S n) (header_round e maxHeaders) (i, lengthZ pre, hs) (pre ++ t ++ x) =
  Ok ((fun '(ls, r) => (e - lengthZ r, hs ++ place (lengthZ pre) ls)) <$> parse n (i =? 0) t, pre ++ lowered n t ++ x).
Proof using Hx.
  revert i pre t hs. induction n as [|n IH]; intros i pre t hs En Hi He.
  - cbn [iter]. unfold bind, header_round. by rewrite (proj2 (Z.leb_le _ _)) by lia.
  - remember (S n) as n1. cbn [iter]. subst n1. unfold bind at 1.
    rewrite (header_round_spec x e maxHeaders i hs ltac:(lia) c0 pad Hx pre t He). cbn [parse].
    destruct (lex t) as [l r|r|] eqn:El.
    + destruct (lex_lowered t l r El) as [Elow Elen]. rewrite Elow.
      set (pre1 := pre ++ l_key l ++ l_gap l ++ l_value l ++ [13; 10]).
      assert (lengthZ pre1 = lengthZ pre + line_length l) as E1.
      { subst pre1. unfold line_length. rewrite !lengthZ_app. change (lengthZ [13; 10]) with 2. lia. }
      replace (pre ++ (l_key l ++ l_gap l ++ l_value l ++ [13; 10] ++ r) ++ x) with (pre1 ++ r ++ x)
        by (subst pre1; by rewrite <- !app_assoc).
      rewrite <- E1, (IH (i + 1) pre1 r) by lia. replace (i + 1 =? 0) with false by lia. f_equal. f_equal.
      * destruct (parse n false r) as [[ls r']|]; [|done]. cbn. rewrite <- app_assoc. cbn. by rewrite E1.
      * subst pre1. cbn [lowered] in Elow |- *. rewrite El in Elow |- *. destruct (span key_char t) as [k r1].
        apply app_inv_tail_iff in Elow as <-. by rewrite <- !app_assoc.
    + unfold ret. f_equal. f_equal; [|cbn [lowered]; rewrite El; by destruct (span key_char t)]. cbn. destruct (Z.eqb_spec i 0) as [->|]; [done|].
      replace (0 <? i) with true by lia. cbn. by rewrite app_nil_r.
    + unfold ret. f_equal. f_equal. cbn [lowered]. rewrite El. by destruct (span key_char t).
Qed.

Lemma getHeaders_spec pre t : 0 <= maxHeaders -> e = lengthZ pre + lengthZ t ->
  getHeaders (lengthZ pre) e maxHeaders (pre ++ t ++ x) =
  Ok ((fun '(ls, r) => (e - lengthZ r, place (lengthZ pre) ls)) <$> parse (Z.to_nat maxHeaders) true t,
      pre ++ lowered (Z.to_nat maxHeaders) t ++ x).
Proof using Hx. intros Hm He. unfold getHeaders. by rewrite (getHeaders_rounds _ 0 pre t []) by lia. Qed.

End GetHeaders.

(** ** Reading the headers *)

(** The text of a line, and of a head. *)
Definition line_text (l : line) : list Z := l_key l ++ l_gap l ++ l_value l ++ [13; 10].

Definition head_text (ls : list line) : list Z := concat (map line_text ls) ++ [13; 10].

Definition lower_line (l : line) : line := mkLine (map lower (l_key l)) (l_gap l) (l_value l).

(** A line as it is written: something separates the key from the value, which does
    not begin with a separator. *)
Record line_ok (l : line) : Prop := {
  ok_key : Forall (fun c => key_char c = true) (l_key l);
  ok_gap : Forall (fun c => gap_char c = true) (l_gap l);
  ok_gap_some : l_gap l <> [];
  ok_value : Forall (fun c => no_cr c = true) (l_value l);
  ok_value_start : gap_char (hd 13 (l_value l)) = false
}.

#[global] Instance line_ok_dec l : Decision (line_ok l).
Proof.
  refine (cast_if (decide (Forall (fun c => key_char c = true) (l_key l) /\ Forall (fun c => gap_char c = true) (l_gap l) /\
    l_gap l <> [] /\ Forall (fun c => no_cr c = true) (l_value l) /\ gap_char (hd 13 (l_value l)) = false)));
    [abstract (by destruct_and!; constructor)|abstract (intros []; naive_solver)].
Defined.

Lemma gap_not_key c : gap_char c = true -> key_char c = false /\ (c =? 13) = false.
Proof. unfold gap_char, key_char. destruct (c =? 58), (c =? 13); cbn; try done; intros; split; try done; lia. Qed.

Lemma lex_line l r : line_ok l -> lex (line_text l ++ r) = Line (lower_line l) r.
Proof.
  intros [Hk Hg Hne Hv Hs]. unfold lex, line_text. rewrite <- !app_assoc. destruct (l_gap l) as [|c g] eqn:Eg; [done|].
  apply Forall_cons in Hg as [Hc Hg]. apply gap_not_key in Hc as [Hc1 Hc2]. cbn [app]. rewrite span_all; [|done|by left]. rewrite Hc2.
  rewrite span_all; [|done|]. 2: { left. destruct (l_value l); [done|]. done. }
  unfold lex_value. rewrite span_all; [|done|by left]. cbn. unfold lower_line. by rewrite Eg.
Qed.

Lemma parse_head n ls r : Forall line_ok ls -> (0 < length ls < n)%nat ->
  parse n true (head_text ls ++ r) = Some (map lower_line ls, r).
Proof.
  intros Hok Hn. assert (forall first, (first = true -> ls <> []) -> parse n first (head_text ls ++ r) = Some (map lower_line ls, r)) as H.
  { clear - Hok Hn. destruct Hn as [_ Hn]. revert n Hn. induction Hok as [|l ls Hl _ IH]; intros [|n] Hn first Hf; cbn in Hn; try lia.
    - destruct first; [by destruct Hf|done].
    - unfold head_text. cbn [map concat]. rewrite <- !app_assoc. cbn [parse]. rewrite lex_line by done.
      specialize (IH n ltac:(lia) false ltac:(done)). unfold head_text in IH. rewrite <- app_assoc in IH. by rewrite IH. }
  apply H. intros _ ->. cbn in Hn. lia.
Qed.

(** What a parsed head leaves in the buffer. *)
Lemma parse_lowered n first t ls r : parse n first t = Some (ls, r) ->
  exists tail, lowered n t = concat (map line_text ls) ++ tail.
Proof.
  revert first t ls. induction n as [|n IH]; intros first t ls; [done|]. cbn [parse].
  destruct (lex t) as [l r1|r1|] eqn:El; [|destruct first; [done|]; intros [= <- <-]; by eexists|done].
  destruct (parse n false r1) as [[ls1 r2]|] eqn:Ep; [|done]. intros [= <- <-]. destruct (IH _ _ _ Ep) as [tail E].
  destruct (lex_lowered t l r1 El) as [Elow _]. cbn [lowered] in Elow |- *. rewrite El in Elow |- *.
  destruct (span key_char t) as [k r3]. apply app_inv_tail_iff in Elow as ->. rewrite E. exists tail.
  unfold line_text. cbn. by rewrite <- !app_assoc.
Qed.

(** Looking for a key among the lines. *)
Definition lookup_line (k : list Z) (ls : list line) : option line := List.find (fun l => bool_decide (l_key l = k)) ls.

(** The bytes of a value. *)
Definition header_value (h : Header) : M (list Z) (list Z) := load_bytes (value h) (valueLength h).

Lemma has_key_spec pre l rest k : lengthZ (line_text l) < 2 ^ 32 ->
  forall h, place (lengthZ pre) [l] = [h] ->
  has_key k h (pre ++ line_text l ++ rest) = Ok (bool_decide (l_key l = k), pre ++ line_text l ++ rest) /\
  header_value h (pre ++ line_text l ++ rest) = Ok (l_value l, pre ++ line_text l ++ rest) /\
  load_bytes (key h) (keyLength h) (pre ++ line_text l ++ rest) = Ok (l_key l, pre ++ line_text l ++ rest).
Proof.
  intros Hlen h [= <-]. unfold line_text in *. rewrite !lengthZ_app in Hlen. change (lengthZ [13; 10]) with 2 in Hlen.
  pose proof (lengthZ_nonneg (l_key l)). pose proof (lengthZ_nonneg (l_gap l)). pose proof (lengthZ_nonneg (l_value l)).
  split_and!.
  - unfold has_key. cbn [keyLength key]. rewrite uwrap_small by (unfold in_unsigned; lia).
    destruct (Z.eqb_spec (lengthZ (l_key l)) (lengthZ k)) as [E|Hne].
    + rewrite <- E. unfold bind. rewrite <- !app_assoc, load_bytes_at. done.
    + rewrite bool_decide_eq_false_2; [done|]. by intros E; rewrite E in Hne.
  - unfold header_value. cbn [value valueLength]. rewrite uwrap_small by (unfold in_unsigned; lia).
    rewrite <- !lengthZ_app. pose proof (load_bytes_at ((pre ++ l_key l) ++ l_gap l) (l_value l) ([13; 10] ++ rest)) as E.
    rewrite <- !app_assoc in *. exact E.
  - cbn [keyLength key]. rewrite uwrap_small by (unfold in_unsigned; lia). rewrite <- !app_assoc. apply load_bytes_at.
Qed.

Lemma find_header_spec k ls pre rest : Forall (fun l => lengthZ (line_text l) < 2 ^ 32) ls ->
  let b := pre ++ concat (map line_text ls) ++ rest in
  exists o, find_header k (place (lengthZ pre) ls) b = Ok (o, b) /\
    match o with
    | Some h => exists l, lookup_line k ls = Some l /\ header_value h b = Ok (l_value l, b) /\ valueLength h = lengthZ (l_value l)
    | None => lookup_line k ls = None
    end.
Proof.
  intros Hl b. subst b. revert pre. induction Hl as [|l ls Hl _ IH]; intros pre; [by exists None|].
  cbn [place map concat find_header]. unfold bind. rewrite <- app_assoc.
  destruct (has_key_spec pre l (concat (map line_text ls) ++ rest) k Hl _ eq_refl) as (E1 & E2 & _). rewrite E1. unfold lookup_line. cbn [List.find].
  case_bool_decide.
  - eexists. split; [done|]. exists l. split; [done|]. split; [done|].
    apply uwrap_small. unfold in_unsigned. unfold line_text in Hl. rewrite !lengthZ_app in Hl.
    pose proof (lengthZ_nonneg (l_key l)). pose proof (lengthZ_nonneg (l_gap l)). pose proof (lengthZ_nonneg (l_value l)).
    pose proof (lengthZ_nonneg [13; 10]). lia.
  - specialize (IH (pre ++ line_text l)). rewrite lengthZ_app in IH.
    replace (lengthZ (line_text l)) with (line_length l) in IH.
    2: { unfold line_text, line_length. rewrite !lengthZ_app. change (lengthZ [13; 10]) with 2. lia. }
    rewrite <- !app_assoc in IH. exact IH.
Qed.

(** ** Parsing again *)

Lemma lex_inv t l r : lex t = Line l r -> exists l', line_ok l' /\ t = line_text l' ++ r /\ l = lower_line l'.
Proof.
  unfold lex. pose proof (span_app key_char t) as Et. pose proof (span_stop key_char t) as Hs. pose proof (span_forall key_char t) as Hk.
  destruct (span key_char t) as [k r1]. cbn [fst snd] in *. subst t. destruct r1 as [|c r1]; [done|].
  specialize (Hs c r1 eq_refl). destruct (c =? 13) eqn:Ec; [by destruct r1 as [|d r1]; [|destruct (d =? 10)]|].
  pose proof (span_app gap_char r1) as Et. pose proof (span_stop gap_char r1) as Hs1. pose proof (span_forall gap_char r1) as Hg.
  destruct (span gap_char r1) as [g r2]. cbn [fst snd] in *. subst r1. unfold lex_value.
  pose proof (span_app no_cr r2) as Et. pose proof (span_stop no_cr r2) as Hs2. pose proof (span_forall no_cr r2) as Hv.
  destruct (span no_cr r2) as [v r3]. cbn [fst snd] in *. subst r2.
  destruct r3 as [|b [|d r3]]; [done..|]. destruct (d =? 10) eqn:Ed; [|done]. intros [= <- <-].
  specialize (Hs2 b _ eq_refl). unfold no_cr in Hs2. apply negb_false_iff, Z.eqb_eq in Hs2 as ->. apply Z.eqb_eq in Ed as ->.
  exists (mkLine k (c :: g) v). split; [|split; [|done]]; [|unfold line_text; cbn [l_key l_gap l_value]; by rewrite <- !app_assoc].
  constructor; cbn; try done.
  - constructor; [|done]. unfold key_char, gap_char in *. rewrite Ec. destruct (c =? 58); cbn in *; lia.
  - destruct v as [|b v]; [done|]. by apply (Hs1 b (v ++ 13 :: 10 :: r3)).
Qed.

Lemma lower_lower c : lower (lower c) = lower c.
Proof. unfold lower. by rewrite <- Z.lor_assoc, Z.lor_diag. Qed.

Lemma lower_line_twice l : lower_line (lower_line l) = lower_line l.
Proof. unfold lower_line. cbn. f_equal. rewrite map_map. apply map_ext, lower_lower. Qed.

Lemma key_char_lower k : Forall is_byte k -> Forall (fun c => key_char c = true) k -> Forall (fun c => key_char c = true) (map lower k).
Proof.
  intros Hb Hk. induction Hk as [|c k Hc _ IH]; [constructor|]. apply Forall_cons in Hb as [Hb Hbs]. constructor; [|by apply IH].
  pose proof (all_bytes_spec (fun c => implb (key_char c) (key_char (lower c))) c ltac:(by vm_compute) Hb) as E. cbn in E. by rewrite Hc in E.
Qed.

Lemma lower_line_ok l : Forall is_byte (l_key l) -> line_ok l -> line_ok (lower_line l).
Proof. intros Hb []. constructor; try done. by apply key_char_lower. Qed.

(** A key may have been lowered before. *)
Lemma lex_lower k t : Forall is_byte k -> Forall (fun c => key_char c = true) k -> lex (map lower k ++ t) = lex (k ++ t).
Proof.
  intros Hb Hk. pose proof (key_char_lower k Hb Hk) as Hk'. unfold lex. rewrite !span_prefix by done.
  destruct (span key_char t) as [k2 r]. cbn [fst snd]. destruct r as [|c r]; [done|]. destruct (c =? 13); [done|].
  destruct (span gap_char r) as [g r2]. unfold lex_value. rewrite !map_app, map_map. by rewrite (map_ext _ _ lower_lower).
Qed.

Lemma lowered_lower n k t : Forall is_byte k -> Forall (fun c => key_char c = true) k ->
  lowered (S n) (map lower k ++ t) = lowered (S n) (k ++ t).
Proof.
  intros Hb Hk. cbn [lowered]. rewrite lex_lower by done. rewrite !span_prefix by (done || by apply key_char_lower).
  destruct (span key_char t) as [k2 r]. cbn [fst snd]. by rewrite !map_app, map_map, (map_ext _ _ lower_lower).
Qed.

Lemma lowered_length n t : lengthZ (lowered n t) = lengthZ t.
Proof.
  revert t. induction n as [|n IH]; intros t; [done|]. destruct (lex t) as [l r| |] eqn:El.
  - destruct (lex_lowered t l r El) as [E1 E2]. cbn [lowered] in E1 |- *. rewrite El in E1 |- *.
    destruct (span key_char t) as [k r1]. apply (f_equal lengthZ) in E1. rewrite !lengthZ_app in E1. rewrite !lengthZ_app, IH, E2. unfold line_length.
    change (lengthZ [13; 10]) with 2 in *. lia.
  - cbn [lowered]. rewrite El. pose proof (span_app key_char t) as E. destruct (span key_char t) as [k r]. cbn in E. subst t.
    rewrite !lengthZ_app. f_equal. unfold lengthZ. by rewrite length_map.
  - cbn [lowered]. rewrite El. pose proof (span_app key_char t) as E. destruct (span key_char t) as [k r]. cbn in E. subst t.
    rewrite !lengthZ_app. f_equal. unfold lengthZ. by rewrite length_map.
Qed.

Lemma again_key n first d1 d2 : Forall is_byte d1 ->
  let t := map lower (fst (span key_char d1)) ++ snd (span key_char d1) in
  parse (S n) first (t ++ d2) = parse (S n) first (d1 ++ d2) /\ lowered (S n) (t ++ d2) = lowered (S n) (d1 ++ d2).
Proof.
  intros Hb t. subst t. pose proof (span_app key_char d1) as E. pose proof (span_forall key_char d1) as Hk.
  destruct (span key_char d1) as [k r]. cbn [fst snd] in *. subst d1. apply Forall_app in Hb as [Hb _].
  rewrite <- !app_assoc, lowered_lower by done. split; [|done]. cbn [parse]. by rewrite lex_lower.
Qed.

(** A part of a head was parsed, and then it is parsed again together with what
    follows: the result is that of parsing it all at once. *)
Lemma parse_again n first d1 d2 : Forall is_byte d1 ->
  parse n first (lowered n d1 ++ d2) = parse n first (d1 ++ d2) /\ lowered n (lowered n d1 ++ d2) = lowered n (d1 ++ d2).
Proof.
  revert first d1. induction n as [|n IH]; intros first d1 Hb; [done|]. destruct (lex d1) as [l r| |] eqn:El.
  - destruct (lex_inv d1 l r El) as (l' & Hok & -> & ->). apply Forall_app in Hb as [Hbl Hbr]. 
    assert (Forall is_byte (l_key l')) as Hbk by (by apply Forall_app in Hbl as [? _]).
    assert (forall T, lowered (S n) (line_text l' ++ T) = line_text (lower_line l') ++ lowered n T) as Elow.
    { intros T. pose proof (lex_line l' T Hok) as E. destruct (lex_lowered _ _ _ E) as [E1 _]. cbn [lowered] in E1 |- *.
      rewrite E in E1 |- *. destruct (span key_char _) as [k r1]. apply app_inv_tail_iff in E1 as ->. unfold line_text. cbn. by rewrite <- !app_assoc. }
    assert (forall T, lowered (S n) (line_text (lower_line l') ++ T) = line_text (lower_line l') ++ lowered n T) as Elow2.
    { intros T. unfold line_text at 1. cbn [lower_line l_key l_gap l_value]. rewrite <- !app_assoc, lowered_lower by (done || apply Hok).
      rewrite <- Elow. unfold line_text. by rewrite <- !app_assoc. }
    rewrite Elow, <- !app_assoc, Elow2, Elow. destruct (IH false r Hbr) as [IH1 IH2]. rewrite IH2. split; [|done].
    cbn [parse]. rewrite (lex_line l'), (lex_line (lower_line l')), lower_line_twice, IH1 by (done || by apply lower_line_ok). done.
  - assert (lowered (S n) d1 = map lower (fst (span key_char d1)) ++ snd (span key_char d1)) as -> 
      by (cbn [lowered]; rewrite El; by destruct (span key_char d1)).
    by apply again_key.
  - assert (lowered (S n) d1 = map lower (fst (span key_char d1)) ++ snd (span key_char d1)) as -> 
      by (cbn [lowered]; rewrite El; by destruct (span key_char d1)).
    by apply again_key.
Qed.

(** Parsing in pieces, in terms of the code: whatever part of a head was parsed, when
    more arrived it is parsed as if it had arrived at once. *)
Lemma getHeaders_again d1 d2 x c0 pad maxHeaders : x = 13 :: c0 :: pad -> 0 <= maxHeaders -> Forall is_byte d1 ->
  exists o d1', getHeaders 0 (lengthZ d1) maxHeaders (d1 ++ x) = Ok (o, d1' ++ x) /\ lengthZ d1' = lengthZ d1 /\
    getHeaders 0 (lengthZ (d1 ++ d2)) maxHeaders ((d1' ++ d2) ++ x) = getHeaders 0 (lengthZ (d1 ++ d2)) maxHeaders ((d1 ++ d2) ++ x).
Proof.
  intros Hx Hm Hb. pose proof (getHeaders_spec x (lengthZ d1) maxHeaders c0 pad Hx [] d1 Hm) as E.
  rewrite lengthZ_nil in E. specialize (E eq_refl). eexists _, _. split; [exact E|].
  assert (lengthZ (lowered (Z.to_nat maxHeaders) d1) = lengthZ d1) as El by apply lowered_length. split; [done|].
  destruct (parse_again (Z.to_nat maxHeaders) true d1 d2 Hb) as [E1 E2].
  pose proof (getHeaders_spec x (lengthZ (d1 ++ d2)) maxHeaders c0 pad Hx [] (d1 ++ d2) Hm) as F1.
  pose proof (getHeaders_spec x (lengthZ (d1 ++ d2)) maxHeaders c0 pad Hx [] (lowered (Z.to_nat maxHeaders) d1 ++ d2) Hm) as F2.
  rewrite lengthZ_nil in F1, F2. cbn [app] in F1, F2. rewrite F1, F2, E1, E2; [done| |done].
  rewrite !lengthZ_app, El. lia.
Qed.

(** A head that is complete stays one when more follows. *)
Lemma lex_end t r q : lex t = End r -> lex (t ++ q) = End (r ++ q).
Proof.
  unfold lex. pose proof (span_app key_char t) as Et. pose proof (span_stop key_char t) as Hs. pose proof (span_forall key_char t) as Hk.
  destruct (span key_char t) as [k r1]. cbn [fst snd] in *. subst t. destruct r1 as [|c r1]; [done|]. specialize (Hs c r1 eq_refl).
  rewrite <- app_assoc, span_all by (done || by left). cbn [app]. destruct (c =? 13).
  - destruct r1 as [|d r1]; [done|]. cbn. by destruct (d =? 10); [intros [= ->]|].
  - destruct (span gap_char r1) as [g r2]. unfold lex_value. destruct (span no_cr r2) as [v [|b [|d r3]]]; [done..|]. by destruct (d =? 10).
Qed.

Lemma parse_more n first t ls r q : parse n first t = Some (ls, r) -> parse n first (t ++ q) = Some (ls, r ++ q).
Proof.
  revert first t ls. induction n as [|n IH]; intros first t ls; [done|]. cbn [parse]. destruct (lex t) as [l r1|r1|] eqn:El; [| |done].
  - destruct (lex_inv t l r1 El) as (l' & Hok & -> & ->). rewrite <- app_assoc, lex_line by done.
    destruct (parse n false r1) as [[ls1 r2]|] eqn:Ep; [|done]. intros [= <- <-]. by rewrite (IH _ _ _ Ep).
  - rewrite (lex_end t r1 q El). by destruct first; [|intros [= <- <-]].
Qed.

Lemma parse_part n first t q ls : parse n first (t ++ q) = Some (ls, []) -> q <> [] -> parse n first t = None.
Proof.
  intros E Hq. destruct (parse n first t) as [[ls' r]|] eqn:Ep; [|done]. apply (parse_more _ _ _ _ _ q) in Ep. rewrite E in Ep.
  injection Ep as _ E2. symmetry in E2. apply app_nil in E2 as [_ ->]. done.
Qed.
