(* ===== verification/HttpSocket.v ===== *)
(** * HTTP sockets

    src/libuws/src/HTTPSocket.cpp and the class HttpResponse of
    src/libuws/include/HTTPSocket.h: a connection before it becomes a WebSocket,
    the answers to requests, which may be given in any order, and the upgrade.

    The responses are objects of a heap; an address that was deleted is no longer
    in it.  The application and OpenSSL's SHA1 are parameters.  TCP_CORK, the
    changes of the event loop, and TLS are left out. *)

From S2P Require Import Prelude CLib Memory Maps Buffer Socket Extensions Http.

(** ** Parameters *)

(** What a handler does with the socket or with a response. *)
Inductive HttpAction :=
| WriteResponse (response : Z) (message : list Z) (callback : Callback)
| EndResponse (response : Z) (message : list Z) (callback : Callback)
| TerminateHttp.

(** The handlers of a group.  A request is given by its lines, the data by the bytes
    of a range, if it is one of the buffer.  httpUpgradeHandler has no default. *)
Class HttpApplication (U : Type) := {
  httpRequestHandler : option (Z -> list line -> option (list Z) -> Z -> U -> U * list HttpAction);
  httpDataHandler : option Z -> list Z -> Z -> U -> U * list HttpAction;
  httpUpgradeHandler : option (list line -> U -> U * list HttpAction);
  httpCancelledRequestHandler : Z -> U -> U;
  httpDisconnectionHandler : U -> U;
  errorHandler : U -> U
}.

(** ** State *)

(** [r_messages] is the list at messageQueue; [r_dangling] is whether its last link
    points to a message that is gone. *)
Record HttpResponse := mkHttpResponse {
  next : option Z;
  r_messages : list Message;
  r_dangling : bool;
  hasEnded : bool;
  hasHead : bool
}.

Definition new_HttpResponse : HttpResponse := mkHttpResponse None [] false false false.

(** [heap] holds the responses and [allocated] counts them; [inHttpGroup] is whether the
    socket is in the list of its group. *)
Record HttpSocket (K U : Type) := mkHttpSocket {
  http_socket : Socket K;
  heap : gmap Z HttpResponse;
  allocated : Z;
  outstandingResponsesHead : option Z;
  outstandingResponsesTail : option Z;
  preAllocatedResponse : option Z;
  httpBuffer : list Z;
  contentLength : Z;
  missedDeadline : bool;
  inHttpGroup : bool;
  httpUser : U
}.
Arguments mkHttpSocket {K U}.
Arguments http_socket {K U}.
Arguments heap {K U}.
Arguments allocated {K U}.
Arguments outstandingResponsesHead {K U}.
Arguments outstandingResponsesTail {K U}.
Arguments preAllocatedResponse {K U}.
Arguments httpBuffer {K U}.
Arguments contentLength {K U}.
Arguments missedDeadline {K U}.
Arguments inHttpGroup {K U}.
Arguments httpUser {K U}.

Section HttpSocket.
Context (isServer : bool) (extensionOptions : Z) (SHA1 : list Z -> list Z).
Context {K : Type} {HK : Kernel K} {U : Type} {HA : HttpApplication U}.
#[local] Abbreviation S := (HttpSocket K U).

Definition set_http_socket x (s : S) : S := mkHttpSocket x (heap s) (allocated s) (outstandingResponsesHead s) (outstandingResponsesTail s) (preAllocatedResponse s) (httpBuffer s) (contentLength s) (missedDeadline s) (inHttpGroup s) (httpUser s).
Definition set_heap x (s : S) : S := mkHttpSocket (http_socket s) x (allocated s) (outstandingResponsesHead s) (outstandingResponsesTail s) (preAllocatedResponse s) (httpBuffer s) (contentLength s) (missedDeadline s) (inHttpGroup s) (httpUser s).
Definition set_allocated x (s : S) : S := mkHttpSocket (http_socket s) (heap s) x (outstandingResponsesHead s) (outstandingResponsesTail s) (preAllocatedResponse s) (httpBuffer s) (contentLength s) (missedDeadline s) (inHttpGroup s) (httpUser s).
Definition set_head x (s : S) : S := mkHttpSocket (http_socket s) (heap s) (allocated s) x (outstandingResponsesTail s) (preAllocatedResponse s) (httpBuffer s) (contentLength s) (missedDeadline s) (inHttpGroup s) (httpUser s).
Definition set_tail x (s : S) : S := mkHttpSocket (http_socket s) (heap s) (allocated s) (outstandingResponsesHead s) x (preAllocatedResponse s) (httpBuffer s) (contentLength s) (missedDeadline s) (inHttpGroup s) (httpUser s).
Definition set_preAllocatedResponse x (s : S) : S := mkHttpSocket (http_socket s) (heap s) (allocated s) (outstandingResponsesHead s) (outstandingResponsesTail s) x (httpBuffer s) (contentLength s) (missedDeadline s) (inHttpGroup s) (httpUser s).
Definition set_httpBuffer x (s : S) : S := mkHttpSocket (http_socket s) (heap s) (allocated s) (outstandingResponsesHead s) (outstandingResponsesTail s) (preAllocatedResponse s) x (contentLength s) (missedDeadline s) (inHttpGroup s) (httpUser s).
Definition set_contentLength x (s : S) : S := mkHttpSocket (http_socket s) (heap s) (allocated s) (outstandingResponsesHead s) (outstandingResponsesTail s) (preAllocatedResponse s) (httpBuffer s) (u64 x) (missedDeadline s) (inHttpGroup s) (httpUser s).
Definition set_missedDeadline x (s : S) : S := mkHttpSocket (http_socket s) (heap s) (allocated s) (outstandingResponsesHead s) (outstandingResponsesTail s) (preAllocatedResponse s) (httpBuffer s) (contentLength s) x (inHttpGroup s) (httpUser s).
Definition set_inHttpGroup x (s : S) : S := mkHttpSocket (http_socket s) (heap s) (allocated s) (outstandingResponsesHead s) (outstandingResponsesTail s) (preAllocatedResponse s) (httpBuffer s) (contentLength s) (missedDeadline s) x (httpUser s).
Definition set_httpUser x (s : S) : S := mkHttpSocket (http_socket s) (heap s) (allocated s) (outstandingResponsesHead s) (outstandingResponsesTail s) (preAllocatedResponse s) (httpBuffer s) (contentLength s) (missedDeadline s) (inHttpGroup s) x.

Definition on_http_socket {A} (m : M (Socket K) A) : M S A := lift http_socket set_http_socket m.

(** ** Responses *)

(** Access to the object at an address, and [delete]. *)
Definition deref (a : Z) : M S HttpResponse :=
  s <- get id ;; match heap s !! a with Some r => ret r | None => undef end.

Definition assign (a : Z) (r : HttpResponse) : M S unit := deref a ;; modify (fun s => set_heap (<[a := r]> (heap s)) s).

Definition delete_response (a : Z) : M S unit := deref a ;; modify (fun s => set_heap (delete a (heap s)) s).

(** The fields of an object that is used again keep their values. *)
Definition allocateResponse : M S Z :=
  s <- get id ;;
  match preAllocatedResponse s with
  | Some a => modify (set_preAllocatedResponse None) ;; ret a
  | None =>
      modify (set_heap (<[allocated s := new_HttpResponse]> (heap s))) ;;
      modify (set_allocated (allocated s + 1)) ;; ret (allocated s)
  end.

Definition freeResponse (a : Z) : M S unit :=
  s <- get id ;;
  match preAllocatedResponse s with
  | Some _ => delete_response a
  | None => modify (set_preAllocatedResponse (Some a))
  end.

Definition response_write (a : Z) (message : list Z) (callback : Callback) : M S unit :=
  deref a ;;
  on_http_socket (sendTransformed (lengthZ message) (store_bytes 0 message ;; ret (lengthZ message)) callback) ;;
  r <- deref a ;;
  assign a (mkHttpResponse (next r) (r_messages r) (r_dangling r) (hasEnded r) true).

Definition crlf : list Z := [13; 10].

Definition response_head (length : Z) : list Z :=
  chars "HTTP/1.1 200 OK" ++ crlf ++ chars "Content-Length: " ++ print_number 10 (u32 length) ++ crlf ++ crlf.

(** HttpTransformer; sprintf writes a NUL behind its text. *)
Definition HttpTransformer_estimate (length : Z) : Z := length + 128.

Definition HttpTransformer_transform (head : bool) (src : list Z) : M (list Z) Z :=
  let text := response_head (lengthZ src) in
  offset <- (if head then ret 0 else store_bytes 0 (text ++ [0]) ;; ret (lengthZ text)) ;;
  store_bytes offset src ;;
  ret (lengthZ src + offset).

(** The loop over the messages of a response that was answered before its turn: true
    when the socket failed.  The callback is that of the response being ended. *)
Definition set_last_callback (c : Callback) (s : Socket K) : Socket K :=
  match rev (messageQueue s) with
  | m :: q => set_messageQueue (rev q ++ [mkMessage (m_data m) c]) s
  | [] => s
  end.

Fixpoint drain_messages (callback : Callback) (ms : list Message) : M S bool :=
  match ms with
  | [] => ret false
  | m :: ms =>
      r <- on_http_socket (write m) ;;
      match r with
      | Some false => on_http_socket (run_callback callback false) ;; drain_messages callback ms
      | Some true => on_http_socket (modify (set_last_callback callback)) ;; drain_messages callback ms
      | None => on_http_socket (run_callback callback true) ;; ret true
      end
  end.

(** One round of the loop that moves the head as far as possible. *)
Definition advance_round (callback : Callback) (head : option Z) : M S (option Z + option Z) :=
  match head with
  | None => ret (inr None)
  | Some a =>
      r <- deref a ;;
      failed <- drain_messages callback (r_messages r) ;;
      require (failed || negb (r_dangling r)) ;;
      assign a (mkHttpResponse (next r) [] (r_dangling r || negb (bool_decide (r_messages r = []))) (hasEnded r) (hasHead r)) ;;
      if failed || negb (hasEnded r) then ret (inr (Some a))
      else freeResponse a ;; ret (inl (next r))
  end.

(** Every round but one either takes the place of the preallocated response or
    deletes an object. *)
Definition advance (callback : Callback) (head : option Z) : M S (option Z) :=
  s <- get id ;; iter (Datatypes.S (Datatypes.S (size (heap s)))) (advance_round callback) head.

Definition response_end (a : Z) (message : list Z) (callback : Callback) : M S unit :=
  r <- deref a ;;
  s <- get id ;;
  let estimate := HttpTransformer_estimate (lengthZ message) in
  let transform := HttpTransformer_transform (hasHead r) message in
  if decide (outstandingResponsesHead s = Some a) then
    on_http_socket (sendTransformed estimate transform callback) ;;
    r <- deref a ;;
    head <- advance callback (next r) ;;
    modify (set_head head) ;;
    (if bool_decide (head = None) then modify (set_tail None) else ret tt) ;;
    freeResponse a
  else
    data <- with_block (replicate (Z.to_nat estimate) 0) (length <- transform ;; load_bytes 0 length) ;;
    assign a (mkHttpResponse (next r) (mkMessage data callback :: r_messages r) (r_dangling r) true (hasHead r)).

(** ** The end of a connection *)

Definition removeHttpSocket : M S unit := s <- get id ;; require (inHttpGroup s) ;; modify (set_inHttpGroup false).

(** One round of the loop over the outstanding responses. *)
Definition cancel_round (_ : unit) : M S (unit + unit) :=
  s <- get id ;;
  match outstandingResponsesHead s with
  | None => ret (inr tt)
  | Some a =>
      modify (set_httpUser (httpCancelledRequestHandler a (httpUser s))) ;;
      r <- deref a ;;
      delete_response a ;;
      modify (set_head (next r)) ;; ret (inl tt)
  end.

Definition onEnd : M S unit :=
  s <- get id ;;
  (if negb (shuttingDown (http_socket s)) then
     if isServer then removeHttpSocket ;; modify (fun s => set_httpUser (httpDisconnectionHandler (httpUser s)) s) else ret tt
   else on_http_socket cancelTimeout) ;;
  on_http_socket closeSocket ;;
  s <- get id ;;
  on_http_socket (cancel_messages (messageQueue (http_socket s))) ;;
  iter (Datatypes.S (size (heap s))) cancel_round tt ;;
  s <- get id ;;
  match preAllocatedResponse s with Some a => delete_response a | None => ret tt end ;;
  if isServer then ret tt
  else on_http_socket cancelTimeout ;; modify (fun s => set_httpUser (errorHandler (httpUser s)) s).

(** What the timer of the group, which runs while it has HTTP sockets, does with each
    of them. *)
Definition check_deadline : M S unit :=
  s <- get id ;;
  if missedDeadline s then onEnd
  else match outstandingResponsesHead s with None => modify (set_missedDeadline true) | Some _ => ret tt end.

(** ** Handlers *)

Definition run_http_action (x : HttpAction) : M S unit :=
  match x with
  | WriteResponse a message callback => response_write a message callback
  | EndResponse a message callback => response_end a message callback
  | TerminateHttp => onEnd
  end.

Fixpoint run_http_actions (l : list HttpAction) : M S unit :=
  match l with [] => ret tt | x :: l => run_http_action x ;; run_http_actions l end.

Definition call_http_handler (h : U -> U * list HttpAction) : M S unit :=
  s <- get id ;;
  let '(u, actions) := h (httpUser s) in
  modify (set_httpUser u) ;; run_http_actions actions.

(** ** The upgrade *)

Definition b64 : list Z := chars "ABCDEFGHIJKLMNOPQRSTUVWXYZabcdefghijklmnopqrstuvwxyz0123456789+/".

Definition b64_at (i : Z) : Z := byte_at b64 i.

(** Three bytes of the source from [i] on. *)
Definition base64_group (src : list Z) (i : Z) : list Z :=
  let s0 := byte_at src i in let s1 := byte_at src (i + 1) in let s2 := byte_at src (i + 2) in
  [b64_at (Z.land (Z.shiftr s0 2) 63);
   b64_at (Z.lor (Z.shiftl (Z.land s0 3) 4) (Z.shiftr (Z.land s1 240) 4));
   b64_at (Z.lor (Z.shiftl (Z.land s1 15) 2) (Z.shiftr (Z.land s2 192) 6));
   b64_at (Z.land s2 63)].

Definition base64 (src : list Z) : list Z :=
  concat (map (base64_group src) [0; 3; 6; 9; 12; 15]) ++
  [b64_at (Z.land (Z.shiftr (byte_at src 18) 2) 63);
   b64_at (Z.lor (Z.shiftl (Z.land (byte_at src 18) 3) 4) (Z.shiftr (Z.land (byte_at src 19) 240) 4));
   b64_at (Z.shiftl (Z.land (byte_at src 19) 15) 2);
   61].

Definition websocket_guid : list Z := chars "258EAFA5-E914-47DA-95CA-C5AB0DC85B11".

(** A header of the answer, unless its value is empty or too long, written at
    [length] into the buffer: the new length. *)
Definition put_header (name text : list Z) (length : Z) : M (list Z) Z :=
  if negb (lengthZ text =? 0) && (lengthZ text <? 200) then
    store_bytes length name ;;
    store_bytes (length + lengthZ name) text ;;
    store_bytes (length + lengthZ name + lengthZ text) crlf ;;
    ret (length + lengthZ name + lengthZ text + 2)
  else ret length.

Definition upgrade_start : list Z :=
  chars "HTTP/1.1 101 Switching Protocols" ++ crlf ++ chars "Upgrade: websocket" ++ crlf ++
  chars "Connection: Upgrade" ++ crlf ++ chars "Sec-WebSocket-Accept: ".

Definition stamp : list Z :=
  chars "Sec-WebSocket-Version: 13" ++ crlf ++ chars "WebSocket-Server: uWebSockets" ++ crlf ++ crlf.

(** The answer, in upgradeBuffer. *)
Definition upgrade_answer (secKey extensionsResponse subprotocol : list Z) : M (list Z) (list Z) :=
  let shaDigest := SHA1 (slice secKey 0 24 ++ websocket_guid) in
  store_bytes 0 upgrade_start ;;
  store_bytes 97 (base64 shaDigest) ;;
  store_bytes 125 crlf ;;
  upgradeResponseLength <- put_header (chars "Sec-WebSocket-Extensions: ") extensionsResponse 127 ;;
  upgradeResponseLength <- put_header (chars "Sec-WebSocket-Protocol: ") subprotocol upgradeResponseLength ;;
  store_bytes upgradeResponseLength stamp ;;
  load_bytes 0 (upgradeResponseLength + lengthZ stamp).

(** Returns perMessageDeflate. *)
Definition upgrade (secKey extensions subprotocol : list Z) : M S bool :=
  if isServer then
    negotiation <- (match extensions with
                    | [] => ret ([], false)
                    | _ => options <- readOffer true extensionOptions extensions ;;
                           ret (generateOffer options, bits_set options PERMESSAGE_DEFLATE)
                    end) ;;
    let '(extensionsResponse, perMessageDeflate) := negotiation in
    message <- with_block (replicate 1024 0) (upgrade_answer secKey extensionsResponse subprotocol) ;;
    on_http_socket (write (mkMessage message NoCallback)) ;;
    ret perMessageDeflate
  else
    s <- get id ;;
    modify (set_httpBuffer []) ;;
    on_http_socket (write (mkMessage (httpBuffer s) NoCallback)) ;;
    ret false.

(** ** Data from the socket *)

(** The text of the headers, as an HttpRequest shows it. *)
Fixpoint request_lines (headers : list Header) : M (list Z) (list line) :=
  match headers with
  | [] => ret []
  | h :: hs =>
      k <- load_bytes (key h) (keyLength h) ;; v <- header_value h ;;
      ls <- request_lines hs ;; ret (mkLine k [] v :: ls)
  end.

(** atoi of the characters from a position on; a number that is no int is undefined. *)
Definition atoi (l : list Z) : option Z :=
  let l := skip_spaces l in
  let '(negative, l) := sign l in
  let n := decimal (fst (span digit l)) in
  let n := if negative : bool then - n else n in
  if fits_signed 32 n then Some n else None.

Definition load_atoi (h : Header) : M (list Z) Z :=
  l <- get id ;;
  match atoi (drop (Z.to_nat (value h)) l) with Some n => ret n | None => undef end.

(** What a call of onData makes of the socket.  A WebSocket takes over its first
    data from the given part of a block. *)
Inductive upshot := StaysHttp | BecomesWebSocket (perMessageDeflate : bool) (request : list line) (text : list Z) (cursor : Z).

Definition MAX_HEADER_BUFFER_SIZE : Z := 4096.

(** The memory behind the data: the sentinel and the rest of CONSUME_POST_PADDING. *)
Definition sentinel : list Z := [13; 0; 0; 0].

(** getHeaders changes the text. *)
Definition in_text {A} (text : list Z) (m : M (list Z) A) : M S (A * list Z) :=
  match m (text ++ sentinel) with
  | Ok (a, b) => ret (a, slice b 0 (lengthZ text))
  | Abort => abort
  | Undef => undef
  | NoFuel => fun _ => NoFuel
  end.

Definition reading {A} (text : list Z) (m : M (list Z) A) : M S A := with_block (text ++ sentinel) m.

(** A header's bytes; those of a header that is missing are none. *)
Definition value_of (text : list Z) (h : option Header) : M S (list Z) :=
  match h with Some h => reading text (header_value h) | None => ret [] end.

(** The answer to a request for an upgrade. *)
Definition server_upgrade (text : list Z) (headers : list Header) (request : list line) (cursor : Z) : M S upshot :=
  match httpUpgradeHandler with
  | Some h => call_http_handler (h request) ;; ret StaysHttp
  | None =>
      secKey <- reading text (getHeader headers (chars "sec-websocket-key")) ;;
      extensions <- reading text (getHeader headers (chars "sec-websocket-extensions")) ;;
      subprotocol <- reading text (getHeader headers (chars "sec-websocket-protocol")) ;;
      key <- value_of text secKey ;;
      if lengthZ key =? 24 then
        extensions <- value_of text extensions ;;
        subprotocol <- value_of text subprotocol ;;
        perMessageDeflate <- upgrade key extensions subprotocol ;;
        removeHttpSocket ;;
        ret (BecomesWebSocket perMessageDeflate request text cursor)
      else onEnd ;; ret StaysHttp
  end.

(** The new response becomes the last one. *)
Definition append_response : M S Z :=
  res <- allocateResponse ;;
  s <- get id ;;
  match outstandingResponsesTail s with
  | Some t => r <- deref t ;; assign t (mkHttpResponse (Some res) (r_messages r) (r_dangling r) (hasEnded r) (hasHead r))
  | None => modify (set_head (Some res))
  end ;;
  modify (set_tail (Some res)) ;; ret res.

(** A request: the cursor behind its data, or the end of onData. *)
Definition server_request (text : list Z) (headers : list Header) (request : list line) (cursor : Z) : M S (Z + upshot) :=
  match httpRequestHandler with
  | Some h =>
      res <- append_response ;;
      method <- reading text (getMethod headers) ;;
      length <- (if decide (method = METHOD_GET) then ret None else reading text (getHeader headers (chars "content-length"))) ;;
      cursor <- (match length with
                 | Some header =>
                     n <- reading text (load_atoi header) ;;
                     modify (set_contentLength n) ;;
                     s <- get id ;;
                     let bytesToRead := u64 (Z.min (s32 (contentLength s)) (s32 (lengthZ text - cursor))) in
                     modify (set_contentLength (contentLength s - bytesToRead)) ;;
                     s <- get id ;;
                     let data := if in_block text cursor bytesToRead then Some (slice text cursor bytesToRead) else None in
                     call_http_handler (h res request data (contentLength s)) ;;
                     require (in_block text cursor bytesToRead) ;;
                     ret (cursor + bytesToRead)
                 | None => call_http_handler (h res request (Some []) 0) ;; ret cursor
                 end) ;;
      s <- get id ;;
      if isClosed (http_socket s) || shuttingDown (http_socket s) then ret (inr StaysHttp) else ret (inl cursor)
  | None => onEnd ;; ret (inr StaysHttp)
  end.

(** A head that is complete; [inr] leaves the loop of onData, with [None] at its end. *)
Definition on_head (text : list Z) (cursor : Z) (headers : list Header) : M S (Z * list Z + option upshot) :=
  if isServer then
    let headers := match headers with
                   | h :: hs => mkHeader (key h) (value h) (keyLength h) (Z.max 0 (s32 (u32 (valueLength h - 9)))) :: hs
                   | [] => [] end in
    modify (set_missedDeadline false) ;;
    request <- reading text (request_lines headers) ;;
    upgraded <- reading text (getHeader headers (chars "upgrade")) ;;
    match upgraded with
    | Some _ => u <- server_upgrade text headers request cursor ;; ret (inr (Some u))
    | None =>
        next <- server_request text headers request cursor ;;
        match next with
        | inl cursor => ret (if cursor =? lengthZ text then inr None else inl (cursor, text))
        | inr u => ret (inr (Some u))
        end
    end
  else
    request <- reading text (request_lines headers) ;;
    upgraded <- reading text (getHeader headers (chars "upgrade")) ;;
    match upgraded with
    | Some _ => on_http_socket cancelTimeout ;; ret (inr (Some (BecomesWebSocket false request text cursor)))
    | None => onEnd ;; ret (inr (Some StaysHttp))
    end.

(** One round of the loop over the heads.  [buffered] is whether the text is
    httpBuffer. *)
Definition onData_round (buffered : bool) (l : Z * list Z) : M S (Z * list Z + option upshot) :=
  let '(lastCursor, text) := l in
  parsed <- in_text text (getHeaders lastCursor (lengthZ text) MAX_HEADERS) ;;
  let '(found, text) := parsed in
  (if buffered then modify (set_httpBuffer text) else ret tt) ;;
  match found with
  | Some (cursor, headers) => on_head text cursor headers
  | None =>
      (if buffered then ret tt
       else if MAX_HEADER_BUFFER_SIZE <? lengthZ text then onEnd
       else modify (set_httpBuffer (slice text lastCursor (lengthZ text - lastCursor)))) ;;
      ret (inr (Some StaysHttp))
  end.

(** The part of onData behind the data that belongs to the last request. *)
Definition onData_heads (data : list Z) : M S upshot :=
  s <- get id ;;
  let buffered := negb (lengthZ (httpBuffer s) =? 0) in
  if buffered && (MAX_HEADER_BUFFER_SIZE <? lengthZ (httpBuffer s) + lengthZ data) then onEnd ;; ret StaysHttp else
  let text := if buffered then httpBuffer s ++ data else data in
  r <- iter (Datatypes.S (length text)) (onData_round buffered) (0, text) ;;
  match r with
  | Some u => ret u
  | None => modify (set_httpBuffer []) ;; ret StaysHttp
  end.

Definition onData (data : list Z) : M S upshot :=
  s <- get id ;;
  if contentLength s =? 0 then onData_heads data else
  modify (set_missedDeadline false) ;;
  if lengthZ data <=? contentLength s then
    modify (set_contentLength (contentLength s - lengthZ data)) ;;
    call_http_handler (httpDataHandler (outstandingResponsesTail s) data (u64 (contentLength s - lengthZ data))) ;;
    ret StaysHttp
  else
    call_http_handler (httpDataHandler (outstandingResponsesTail s) (slice data 0 (contentLength s)) 0) ;;
    s <- get id ;;
    let rest := slice data (contentLength s) (lengthZ data - contentLength s) in
    modify (set_contentLength 0) ;;
    onData_heads rest.

End HttpSocket.
