(* ===== verification/HttpSpec.v ===== *)
(** * What HTTP sockets promise

    A head is read the same way however it arrives; the answers to pipelined
    requests leave in the order of the requests; both sides of the handshake of
    this library understand each other. *)

From S2P Require Import Prelude Memory Maps Buffer Socket SocketSpec Extensions Http HttpSocket.

(** ** States up to the buffer for a part of a head *)

Section Agree.
Context {K : Type} {HK : Kernel K} {U : Type} {HA : HttpApplication U}.
#[local] Abbreviation S := (HttpSocket K U).

Definition same (s s' : S) : Prop := set_httpBuffer [] s = set_httpBuffer [] s'.

Definition same_outcome {A} (o o' : outcome (A * S)) : Prop :=
  match o, o' with
  | Ok (a, t), Ok (a', t') => a = a' /\ same t t'
  | Abort, Abort | Undef, Undef | NoFuel, NoFuel => True
  | _, _ => False
  end.

Definition agree {A} (m m' : M S A) : Prop := forall s s', same s s' -> same_outcome (m s) (m' s').

#[export] Instance same_equivalence : Equivalence same.
Proof. unfold same. split; congruence. Qed.

Lemma same_fields s s' : same s s' <->
  http_socket s = http_socket s' /\ heap s = heap s' /\ allocated s = allocated s' /\
  outstandingResponsesHead s = outstandingResponsesHead s' /\ outstandingResponsesTail s = outstandingResponsesTail s' /\
  preAllocatedResponse s = preAllocatedResponse s' /\ contentLength s = contentLength s' /\
  missedDeadline s = missedDeadline s' /\ inHttpGroup s = inHttpGroup s' /\ httpUser s = httpUser s'.
Proof.
  destruct s, s'. unfold same, set_httpBuffer. cbn. split; [intros [=]; subst; tauto|]. intros ?. destruct_and!. by subst.
Qed.

Lemma same_set_httpBuffer b s : same (set_httpBuffer b s) s.
Proof. done. Qed.

Lemma agree_ret {A} (a : A) : agree (ret a) (ret a).
Proof. by intros s s' H. Qed.

Lemma agree_undef {A} : agree (undef : M S A) undef.
Proof. by intros s s' H. Qed.

Lemma agree_bind {A B} (m m' : M S A) (k k' : A -> M S B) :
  agree m m' -> (forall a, agree (k a) (k' a)) -> agree (bind m k) (bind m' k').
Proof.
  intros Hm Hk s s' H. specialize (Hm s s' H). unfold bind, same_outcome in *.
  destruct (m s) as [[a t]| | |], (m' s') as [[a' t']| | |]; try done. destruct Hm as [-> Ht]. by apply Hk.
Qed.

(** A method that looks at the state does so at fields other than the buffer. *)
Lemma agree_get {B} (k k' : S -> M S B) : (forall s s', same s s' -> agree (k s) (k' s')) -> agree (bind (get id) k) (bind (get id) k').
Proof. intros Hk s s' H. unfold bind, get, id. by apply Hk. Qed.

Lemma agree_modify (f f' : S -> S) : (forall s s', same s s' -> same (f s) (f' s')) -> agree (modify f) (modify f').
Proof. intros Hf s s' H. split; [done|by apply Hf]. Qed.

Lemma agree_require b : agree (require b) (require b).
Proof. by intros s s' H; destruct b. Qed.

Lemma agree_socket {A} (m : M (Socket K) A) : agree (on_http_socket m) (on_http_socket m).
Proof.
  intros s s' H. apply same_fields in H as (E & H). unfold on_http_socket, lift. rewrite <- E.
  destruct (m (http_socket s)) as [[a t]| | |]; try done. split; [done|]. apply same_fields. by destruct s, s'.
Qed.

Lemma agree_iter {L A} (body body' : L -> M S (L + A)) n l : (forall l, agree (body l) (body' l)) -> agree (iter n body l) (iter n body' l).
Proof.
  intros Hb. revert l. induction n as [|n IH]; intros l; [by intros s s' H|]. cbn [iter]. apply agree_bind; [done|].
  intros [l'|a]; [apply IH|apply agree_ret].
Qed.

Lemma agree_with_block {A} l (m : M (list Z) A) : agree (with_block l m) (with_block l m).
Proof. intros s s' H. unfold with_block. by destruct (m l) as [[a b]| | |]. Qed.

Lemma agree_in_text {A} l (m : M (list Z) A) : agree (in_text l m) (in_text l m).
Proof. intros s s' H. unfold in_text. by destruct (m _) as [[a b]| | |]. Qed.

Lemma in_text_length {A} l (m : M (list Z) A) (s : S) a t : in_text l m s = Ok (a, t) -> lengthZ (snd a) <= lengthZ l.
Proof.
  unfold in_text. destruct (m _) as [[x b]| | |]; try done. intros [= <- <-]. cbn. unfold slice, lengthZ. rewrite length_take. lia.
Qed.

Lemma agree_bind_in_text {A B} l (m : M (list Z) A) (k k' : A * list Z -> M S B) :
  (forall a l', lengthZ l' <= lengthZ l -> agree (k (a, l')) (k' (a, l'))) -> agree (bind (in_text l m) k) (bind (in_text l m) k').
Proof.
  intros Hk s s' H. pose proof (in_text_length l m s) as Hl. pose proof (agree_in_text l m s s' H) as Hs. unfold bind, same_outcome in *.
  destruct (in_text l m s) as [[[a t] t2]| | |], (in_text l m s') as [[[a' t'] t2']| | |]; try done.
  destruct Hs as [[= <- <-] Ht]. apply Hk; [|done]. by apply (Hl (a, t) t2).
Qed.

End Agree.

Ltac agree_step :=
  lazymatch goal with
  | |- agree (ret _) (ret _) => apply agree_ret
  | |- agree undef undef => apply agree_undef
  | |- agree (bind (get id) _) _ => apply agree_get; intros [] [] Hsame; apply same_fields in Hsame; cbn in Hsame; destruct_and! Hsame; subst; cbn
  | |- agree (bind _ _) _ => apply agree_bind; [|intros ?]
  | |- agree (modify _) _ => apply agree_modify; intros [] [] Hsame; apply same_fields in Hsame; cbn in Hsame; destruct_and! Hsame; subst; apply same_fields; cbn; done
  | |- agree (require _) _ => apply agree_require
  | |- agree (on_http_socket _) _ => apply agree_socket
  | |- agree (with_block _ _) _ => apply agree_with_block
  | |- agree (reading _ _) _ => apply agree_with_block
  | |- agree (in_text _ _) _ => apply agree_in_text
  | |- agree (iter _ _ _) _ => apply agree_iter; intros ?
  | |- agree (match ?x with _ => _ end) _ => destruct x
  end.

Ltac agree_go := repeat (agree_step; cbn beta iota); auto with agree.

Create HintDb agree.

Section Operations.
Context (isServer : bool) (extensionOptions : Z) (SHA1 : list Z -> list Z).
Context {K : Type} {HK : Kernel K} {U : Type} {HA : HttpApplication U}.
#[local] Abbreviation S := (HttpSocket K U).
#[local] Abbreviation blind m := (agree (K := K) (U := U) m m).

Lemma deref_blind a : blind (deref a).
Proof. unfold deref. agree_go. Qed.
#[local] Hint Resolve deref_blind : agree.

Lemma assign_blind a r : blind (assign a r).
Proof. unfold assign. agree_go. Qed.
#[local] Hint Resolve assign_blind : agree.

Lemma delete_response_blind a : blind (delete_response a).
Proof. unfold delete_response. agree_go. Qed.
#[local] Hint Resolve delete_response_blind : agree.

Lemma allocateResponse_blind : blind allocateResponse.
Proof. unfold allocateResponse. agree_go. Qed.
#[local] Hint Resolve allocateResponse_blind : agree.

Lemma freeResponse_blind a : blind (freeResponse a).
Proof. unfold freeResponse. agree_go. Qed.
#[local] Hint Resolve freeResponse_blind : agree.

Lemma response_write_blind a m c : blind (response_write a m c).
Proof. unfold response_write. agree_go. Qed.
#[local] Hint Resolve response_write_blind : agree.

Lemma drain_messages_blind c ms : blind (drain_messages c ms).
Proof. induction ms; cbn [drain_messages]; agree_go. Qed.
#[local] Hint Resolve drain_messages_blind : agree.

Lemma advance_blind c h : blind (advance c h).
Proof. unfold advance, advance_round. agree_go. Qed.
#[local] Hint Resolve advance_blind : agree.

Lemma response_end_blind a m c : blind (response_end a m c).
Proof. unfold response_end. agree_go. Qed.
#[local] Hint Resolve response_end_blind : agree.

Lemma onEnd_blind : blind (onEnd isServer).
Proof. unfold onEnd, removeHttpSocket, cancel_round. agree_go. Qed.
#[local] Hint Resolve onEnd_blind : agree.

Lemma run_http_actions_blind l : blind (run_http_actions isServer l).
Proof. induction l as [|x l IH]; cbn [run_http_actions]; [agree_go|]. apply agree_bind; [destruct x; cbn; agree_go|done]. Qed.
#[local] Hint Resolve run_http_actions_blind : agree.

Lemma call_http_handler_blind h : blind (call_http_handler isServer h).
Proof. unfold call_http_handler. agree_go. Qed.
#[local] Hint Resolve call_http_handler_blind : agree.

Lemma upgrade_blind k e p : isServer = true -> blind (upgrade isServer extensionOptions SHA1 k e p).
Proof. intros ->. unfold upgrade, readOffer. agree_go. Qed.
#[local] Hint Resolve upgrade_blind : agree.

Lemma server_upgrade_blind text hs ls cursor : isServer = true ->
  blind (server_upgrade isServer extensionOptions SHA1 text hs ls cursor).
Proof. intros E. unfold server_upgrade, value_of, removeHttpSocket. agree_go. Qed.
#[local] Hint Resolve server_upgrade_blind : agree.

Lemma server_request_blind text hs ls cursor : blind (server_request isServer text hs ls cursor).
Proof. unfold server_request, append_response. agree_go. Qed.
#[local] Hint Resolve server_request_blind : agree.

Lemma on_head_blind text c hs : blind (on_head isServer extensionOptions SHA1 text c hs).
Proof. unfold on_head. destruct isServer eqn:E; rewrite <- E; agree_go. Qed.

(** A round does the same whether the text is in httpBuffer or was just received. *)
Lemma onData_round_agree text cursor b b' : lengthZ text <= MAX_HEADER_BUFFER_SIZE ->
  agree (onData_round isServer extensionOptions SHA1 b (cursor, text)) (onData_round isServer extensionOptions SHA1 b' (cursor, text)).
Proof.
  intros Hlen. unfold onData_round. apply agree_bind_in_text. intros found text' Hl.
  apply agree_bind; [intros t t' Ht; by destruct b, b'|]. intros _. destruct found as [[c hs]|]; [apply on_head_blind|].
  apply agree_bind; [|intros; apply agree_ret]. replace (MAX_HEADER_BUFFER_SIZE <? lengthZ text') with false by lia.
  intros t t' Ht. by destruct b, b'.
Qed.

Lemma onData_round_length b text cursor s c' text' t :
  onData_round isServer extensionOptions SHA1 b (cursor, text) s = Ok (inl (c', text'), t) -> lengthZ text' <= lengthZ text.
Proof.
  unfold onData_round. unfold bind at 1. pose proof (in_text_length text (getHeaders cursor (lengthZ text) MAX_HEADERS) s) as Hl.
  destruct (in_text text _ s) as [[[found text2] t2]| | |]; try done. specialize (Hl _ _ eq_refl). cbn in Hl. unfold bind at 1.
  assert (exists t3, (if b then modify (set_httpBuffer text2) else ret tt) t2 = Ok (tt, t3)) as [t3 ->] by (destruct b; by eexists).
  destruct found as [[c hs]|].
  - intros E. enough (wp anything (on_head isServer extensionOptions SHA1 text2 c hs) (fun r _ => match r with inl (_, x) => x = text2 | _ => True end) t3) as Hw.
    { unfold wp in Hw. rewrite E in Hw. by subst. }
    clear. unfold on_head. destruct isServer.
    + wp_step. apply wp_modify. wp_step. unfold wp at 1. destruct (reading _ _ _) as [[x y]| | |]; try done. wp_step. unfold wp at 1.
      destruct (reading _ _ y) as [[[h|] z]| | |]; try done.
      * wp_step. unfold wp at 1. by destruct (server_upgrade _ _ _ _ _ _ _ z) as [[u v]| | |].
      * wp_step. unfold wp at 1. destruct (server_request _ _ _ _ _ z) as [[[u|u] v]| | |]; try done. apply wp_ret. by destruct (_ =? _).
    + wp_step. unfold wp at 1. destruct (reading _ _ _) as [[x y]| | |]; try done. wp_step. unfold wp at 1.
      destruct (reading _ _ y) as [[[h|] z]| | |]; try done.
      wp_step. unfold wp at 1. by destruct (onEnd _ z) as [[u v]| | |].
  - unfold bind. by destruct (_ t3) as [[? ?]| | |].
Qed.

Lemma onData_loop_agree n text cursor b b' : lengthZ text <= MAX_HEADER_BUFFER_SIZE ->
  agree (iter n (onData_round isServer extensionOptions SHA1 b) (cursor, text)) (iter n (onData_round isServer extensionOptions SHA1 b') (cursor, text)).
Proof.
  revert text cursor. induction n as [|n IH]; intros text cursor Hlen; [by intros s s' H|]. intros s s' Hs. cbn [iter].
  pose proof (onData_round_agree text cursor b b' Hlen s s' Hs) as H. pose proof (onData_round_length b text cursor s) as Hl.
  unfold bind. unfold same_outcome in H at 1.
  destruct (onData_round _ _ _ b _ s) as [[[[c2 t2]|u] t]| | |], (onData_round _ _ _ b' _ s') as [[[[c2' t2']|u'] t']| | |]; try done;
    destruct H as [[= <-] Ht]; try done.
  subst. apply IH; [|done]. specialize (Hl _ _ _ eq_refl). lia.
Qed.

End Operations.

(** ** A head in pieces *)

Section Pieces.
Context (isServer : bool) (extensionOptions : Z) (SHA1 : list Z -> list Z).
Context {K : Type} {HK : Kernel K} {U : Type} {HA : HttpApplication U}.
#[local] Abbreviation S := (HttpSocket K U).
#[local] Abbreviation onData := (onData isServer extensionOptions SHA1 (K := K) (U := U)).

(** Reads until the socket is a WebSocket. *)
Fixpoint read_chunks (chunks : list (list Z)) : M S upshot :=
  match chunks with
  | [] => ret StaysHttp
  | c :: cs => u <- onData c ;; match u with StaysHttp => read_chunks cs | _ => ret u end
  end.

Lemma in_text_getHeaders text (s : S) :
  in_text text (getHeaders 0 (lengthZ text) MAX_HEADERS) s =
  Ok ((((fun '(ls, r) => (lengthZ text - lengthZ r, place 0 ls)) <$> parse 100 true text), lowered 100 text), s).
Proof.
  unfold in_text. pose proof (getHeaders_spec sentinel (lengthZ text) MAX_HEADERS 0 [0; 0] eq_refl [] text) as E.
  change (lengthZ []) with 0 in E. cbn [app] in E. rewrite E by done. unfold ret. rewrite <- (lowered_length 100 text), slice_prefix. done.
Qed.

(** onData when no data of a request is awaited. *)
Lemma onData_start c (s : S) : contentLength s = 0 ->
  onData c s =
  (let buffered := negb (lengthZ (httpBuffer s) =? 0) in
   if buffered && (MAX_HEADER_BUFFER_SIZE <? lengthZ (httpBuffer s) + lengthZ c) then onEnd isServer ;; ret StaysHttp else
   let text := if buffered then httpBuffer s ++ c else c in
   r <- iter (Datatypes.S (length text)) (onData_round isServer extensionOptions SHA1 buffered) (0, text) ;;
   match r with Some u => ret u | None => modify (set_httpBuffer []) ;; ret StaysHttp end) s.
Proof. intros E. unfold HttpSocket.onData, bind at 1, get, id. by rewrite E. Qed.

(** A part of a head is kept, in lower case. *)
Lemma onData_part p c s : parse 100 true (p ++ c) = None -> Forall is_byte p -> c <> [] -> lengthZ (p ++ c) <= MAX_HEADER_BUFFER_SIZE ->
  httpBuffer s = lowered 100 p -> contentLength s = 0 ->
  onData c s = Ok (StaysHttp, set_httpBuffer (lowered 100 (p ++ c)) s).
Proof.
  intros Hp Hb Hc Hlen Eb Ec. rewrite onData_start by done. cbv zeta. rewrite Eb, lowered_length. rewrite lengthZ_app in Hlen.
  set (text := if negb (lengthZ p =? 0) then lowered 100 p ++ c else c).
  assert (lowered 100 text = lowered 100 (p ++ c) /\ parse 100 true text = None /\ lengthZ text = lengthZ p + lengthZ c) as (El & Ep & Et).
  { destruct (parse_again 100 true p c Hb) as [E1 E2]. subst text. destruct (Z.eqb_spec (lengthZ p) 0) as [E0|Hne]; cbn [negb].
    - apply lengthZ_0 in E0 as ->. cbn [app] in Hp. split_and!; try done.
    - rewrite E1, E2, lengthZ_app, lowered_length. done. }
  set (b := negb (lengthZ p =? 0)). replace (MAX_HEADER_BUFFER_SIZE <? lengthZ p + lengthZ c) with false by lia. rewrite andb_false_r.
  unfold bind at 1. cbn [iter]. unfold bind at 1. unfold onData_round at 1. unfold bind at 1. rewrite in_text_getHeaders, Ep, El. cbn [fmap option_fmap option_map].
  rewrite lowered_length, lengthZ_app. replace (MAX_HEADER_BUFFER_SIZE <? lengthZ p + lengthZ c) with false by lia.
  unfold bind, ret, modify. destruct b; [done|]. f_equal. f_equal. f_equal.
  rewrite Z.sub_0_r, <- lengthZ_app, <- (lowered_length 100 (p ++ c)). apply slice_whole.
Qed.

(** The last part of a head, and all of it at once. *)
Lemma onData_last p c t s : Forall is_byte p -> lengthZ (p ++ c) <= MAX_HEADER_BUFFER_SIZE ->
  same t s -> httpBuffer t = lowered 100 p -> httpBuffer s = [] -> contentLength s = 0 ->
  same_outcome (onData c t) (onData (p ++ c) s).
Proof.
  intros Hb Hlen Hs Et Es Ec. assert (contentLength t = 0) as Ect by (apply same_fields in Hs; destruct_and! Hs; congruence).
  rewrite !onData_start by done. cbv zeta. rewrite Et, Es, lowered_length. change (negb (lengthZ [] =? 0)) with false. cbn [andb].
  set (text := if negb (lengthZ p =? 0) then lowered 100 p ++ c else c). set (b := negb (lengthZ p =? 0)).
  assert (parse 100 true text = parse 100 true (p ++ c) /\ lowered 100 text = lowered 100 (p ++ c) /\ lengthZ text = lengthZ (p ++ c)) as (Ep & El & Elen).
  { destruct (parse_again 100 true p c Hb) as [E1 E2]. subst text. destruct (Z.eqb_spec (lengthZ p) 0) as [E0|Hne]; cbn [negb].
    - by apply lengthZ_0 in E0 as ->.
    - rewrite E1, E2, !lengthZ_app, lowered_length. done. }
  assert (length text = length (p ++ c)) as -> by (unfold lengthZ in Elen; lia).
  rewrite lengthZ_app in Hlen. replace (MAX_HEADER_BUFFER_SIZE <? lengthZ p + lengthZ c) with false by lia. rewrite andb_false_r.
  apply agree_bind; [|intros [u|]; [apply agree_ret|]|done].
  - cbn [iter]. intros x y Hxy.
    assert (onData_round isServer extensionOptions SHA1 b (0, text) x = onData_round isServer extensionOptions SHA1 b (0, p ++ c) x) as E.
    { unfold onData_round, bind. by rewrite !in_text_getHeaders, Ep, El, Elen. }
    unfold bind at 1. rewrite E. apply (onData_loop_agree isServer extensionOptions SHA1 (Datatypes.S (length (p ++ c))) (p ++ c) 0 b false); [|done].
    by rewrite lengthZ_app.
  - apply agree_bind; [apply agree_modify; by intros ? ? ?|intros; apply agree_ret].
Qed.

Lemma onData_in_pieces chunks text ls (s : S) : concat chunks = text -> Forall (fun c => c <> []) chunks -> chunks <> [] ->
  parse 100 true text = Some (ls, []) -> Forall is_byte text -> lengthZ text <= MAX_HEADER_BUFFER_SIZE ->
  httpBuffer s = [] -> contentLength s = 0 ->
  same_outcome (read_chunks chunks s) (onData text s).
Proof.
  intros E Hne Hch Hp Hb Hlen Eb Ec.
  enough (forall p t, text = p ++ concat chunks -> same t s -> httpBuffer t = lowered 100 p -> same_outcome (read_chunks chunks t) (onData text s)) as H
    by (by apply (H [] s)).
  clear E. induction Hne as [|c cs Hc Hcs IH]; [done|]. intros p t E Ht Ebt. cbn [concat read_chunks] in *.
  assert (Forall is_byte p) as Hbp by (rewrite E in Hb; by apply Forall_app in Hb as [? _]).
  destruct cs as [|c2 cs].
  - cbn in E. rewrite app_nil_r in E. subst text. pose proof (onData_last p c t s Hbp Hlen Ht Ebt Eb Ec) as H.
    unfold bind. destruct (onData c t) as [[u t']| | |]; try done. by destruct u.
  - assert (concat (c2 :: cs) <> []) as Hq by (inversion_clear Hcs as [|? ? Hc2]; cbn; by destruct c2).
    assert (parse 100 true (p ++ c) = None) as Hn by (rewrite E, app_assoc in Hp; exact (parse_part _ _ _ _ _ Hp Hq)).
    unfold bind. rewrite (onData_part p c t Hn Hbp Hc); [|rewrite E, !lengthZ_app in Hlen; rewrite lengthZ_app;
      pose proof (lengthZ_nonneg (concat (c2 :: cs))); lia|done|apply same_fields in Ht; destruct_and! Ht; congruence].
    apply (IH ltac:(done) (p ++ c)); [by rewrite <- app_assoc|by rewrite <- Ht|done].
Qed.

(** C6: a head is read the same way however it arrives.  For every request without
    a body, or answer, whose head ends where it ends and fits the buffer for heads:
    in however many reads it arrives, what onData does in the end (the new state, up
    to the buffer for heads, the calls of handlers, the bytes sent, and whether the
    socket becomes a WebSocket) is what it does when all arrives in one read. *)
Theorem onData_pieces chunks text ls (s : S) : concat chunks = text -> Forall (fun c => c <> []) chunks -> chunks <> [] ->
  parse 100 true text = Some (ls, []) -> Forall is_byte text -> lengthZ text <= MAX_HEADER_BUFFER_SIZE ->
  httpBuffer s = [] -> contentLength s = 0 ->
  same_outcome (read_chunks chunks s) (onData text s).
Proof. intros. by apply (onData_in_pieces chunks text ls). Qed.

End Pieces.

(** ** The answer of a server *)

Definition optional_header (name text : list Z) : list Z :=
  if negb (lengthZ text =? 0) && (lengthZ text <? 200) then name ++ text ++ crlf else [].

Definition answer_text (SHA1 : list Z -> list Z) (secKey extensions subprotocol : list Z) : list Z :=
  upgrade_start ++ base64 (SHA1 (secKey ++ websocket_guid)) ++ crlf ++
  optional_header (chars "Sec-WebSocket-Extensions: ") extensions ++
  optional_header (chars "Sec-WebSocket-Protocol: ") subprotocol ++ stamp.

(** A block of 1024 bytes that begins with [w]. *)
Definition begins (w l : list Z) : Prop := lengthZ l = 1024 /\ slice l 0 (lengthZ w) = w.

Lemma begins_store w bs l (Q : unit -> list Z -> Prop) : begins w l -> lengthZ w + lengthZ bs <= 1024 ->
  (forall l', begins (w ++ bs) l' -> Q tt l') -> wp nothing (store_bytes (lengthZ w) bs) Q l.
Proof.
  intros [Hl Hw] Hlen HQ. pose proof (lengthZ_nonneg w). pose proof (lengthZ_nonneg bs).
  assert (in_block l (lengthZ w) (lengthZ bs) = true) as Hin by (apply in_block_spec; lia).
  apply wp_store_bytes; [done|]. apply HQ. split; [by rewrite splice_length|].
  rewrite lengthZ_app, slice_app by lia. rewrite splice_before by (done || lia). rewrite Hw, Z.add_0_l. by rewrite splice_same.
Qed.

Lemma begins_load w l (Q : list Z -> list Z -> Prop) : begins w l -> Q w l -> wp nothing (load_bytes 0 (lengthZ w)) Q l.
Proof.
  intros [Hl Hw] HQ. apply wp_load_bytes; [|by rewrite Hw]. apply in_block_spec. split; [lia|]. split; [apply lengthZ_nonneg|].
  apply (f_equal lengthZ) in Hw. unfold slice in Hw. rewrite drop_0 in Hw. unfold lengthZ in *. rewrite length_take in Hw. lia.
Qed.

Lemma put_header_spec name text w l (Q : Z -> list Z -> Prop) : begins w l -> lengthZ w + lengthZ name + 202 <= 1024 ->
  (forall l', begins (w ++ optional_header name text) l' -> Q (lengthZ (w ++ optional_header name text)) l') ->
  wp nothing (put_header name text (lengthZ w)) Q l.
Proof.
  intros Hw Hlen HQ. unfold put_header. unfold optional_header in HQ. destruct (negb (lengthZ text =? 0) && (lengthZ text <? 200)) eqn:E.
  - apply andb_true_iff in E as [_ E]. pose proof (lengthZ_nonneg w). pose proof (lengthZ_nonneg name). pose proof (lengthZ_nonneg text).
    wp_step. apply (begins_store w); [done|lia|]. intros l1 B1. wp_step. rewrite <- lengthZ_app.
    apply begins_store; [done|rewrite lengthZ_app; lia|]. intros l2 B2. wp_step. rewrite <- lengthZ_app.
    apply begins_store; [done|rewrite !lengthZ_app; change (lengthZ crlf) with 2; lia|]. intros l3 B3. apply wp_ret.
    rewrite <- !app_assoc in B3. specialize (HQ l3 B3). rewrite !lengthZ_app in HQ. rewrite !lengthZ_app. change (lengthZ crlf) with 2 in HQ.
    by replace (lengthZ w + lengthZ name + lengthZ text + 2) with (lengthZ w + (lengthZ name + (lengthZ text + 2))) by lia.
  - apply wp_ret. rewrite app_nil_r in HQ. by apply HQ.
Qed.

Lemma base64_length src : lengthZ (base64 src) = 28.
Proof. done. Qed.

Lemma optional_header_length name text : lengthZ (optional_header name text) <= lengthZ name + 202.
Proof.
  unfold optional_header. destruct (_ && _) eqn:E; [|pose proof (lengthZ_nonneg name); rewrite lengthZ_nil; lia].
  apply andb_true_iff in E as [_ E]. rewrite !lengthZ_app. change (lengthZ crlf) with 2. lia.
Qed.

Lemma upgrade_answer_spec SHA1 secKey e p : lengthZ secKey = 24 ->
  exists l, upgrade_answer SHA1 secKey e p (replicate 1024 0) = Ok (answer_text SHA1 secKey e p, l).
Proof.
  intros Hk. enough (wp nothing (upgrade_answer SHA1 secKey e p) (fun a _ => a = answer_text SHA1 secKey e p) (replicate 1024 0)) as H
    by (apply wp_total in H as (a & l & E & ->); by exists l).
  assert (begins [] (replicate 1024 0)) as H0 by done.
  unfold upgrade_answer. rewrite <- Hk, slice_whole. wp_step. apply (begins_store []); [done|by vm_compute|]. intros l1 H1. wp_step.
  change 97 with (lengthZ ([] ++ upgrade_start)). apply begins_store; [done|by vm_compute|]. intros l2 H2. wp_step.
  replace 125 with (lengthZ (([] ++ upgrade_start) ++ base64 (SHA1 (secKey ++ websocket_guid)))) by done.
  apply begins_store; [done|by vm_compute|]. intros l3 H3. wp_step.
  match type of H3 with begins ?w _ => replace 127 with (lengthZ w) by done end.
  apply put_header_spec; [done|by vm_compute|]. intros l4 H4. wp_step.
  pose proof (optional_header_length (chars "Sec-WebSocket-Extensions: ") e) as L4. change (lengthZ (chars "Sec-WebSocket-Extensions: ")) with 26 in L4.
  apply put_header_spec; [done|rewrite lengthZ_app; change (lengthZ (chars "Sec-WebSocket-Protocol: ")) with 24|].
  { match goal with |- ?x + _ + _ + _ <= _ => replace x with 127 by done end. lia. }
  intros l5 H5. wp_step. pose proof (optional_header_length (chars "Sec-WebSocket-Protocol: ") p) as L5.
  change (lengthZ (chars "Sec-WebSocket-Protocol: ")) with 24 in L5.
  apply begins_store; [done| |].
  { rewrite !(lengthZ_app _ (optional_header _ _)). match goal with |- ?x + _ + _ + _ <= _ => replace x with 127 by done end. change (lengthZ stamp) with 60. lia. }
  intros l6 H6. rewrite <- lengthZ_app. apply begins_load; [done|]. unfold answer_text. by rewrite <- !app_assoc.
Qed.

(** ** Reading a head that was parsed *)

(** The value of the first header with a key, behind the first line. *)
Definition header_of (k : list Z) (ls : list line) : option (list Z) := l_value <$> lookup_line k (tl ls).

Section Reading.
Context {K : Type} {U : Type}.
Context (text : list Z) (l0 : line) (lt : list line) (rest : list Z).
Context (Htext : text ++ sentinel = line_text l0 ++ concat (map line_text lt) ++ rest).
Context (Hshort : lengthZ text < 2 ^ 31).
#[local] Abbreviation S := (HttpSocket K U).
#[local] Abbreviation ls := (l0 :: lt).

Lemma lines_short : lengthZ (line_text l0) < 2 ^ 32 /\ Forall (fun l => lengthZ (line_text l) < 2 ^ 32) lt.
Proof using Htext Hshort.
  assert (lengthZ (line_text l0 ++ concat (map line_text lt)) < 2 ^ 32) as H.
  { rewrite app_assoc in Htext. apply (f_equal lengthZ) in Htext. rewrite !lengthZ_app in Htext. change (lengthZ sentinel) with 4 in Htext.
    pose proof (lengthZ_nonneg rest). rewrite lengthZ_app. lia. }
  rewrite lengthZ_app in H. pose proof (lengthZ_nonneg (line_text l0)). pose proof (lengthZ_nonneg (concat (map line_text lt))). split; [lia|].
  assert (lengthZ (concat (map line_text lt)) < 2 ^ 32) as H2 by lia. clear -H2. induction lt as [|l ls IH]; [constructor|].
  cbn in H2. rewrite lengthZ_app in H2. pose proof (lengthZ_nonneg (line_text l)). pose proof (lengthZ_nonneg (concat (map line_text ls))).
  constructor; [lia|apply IH; lia].
Qed.

Lemma line_text_length l : lengthZ (line_text l) = line_length l.
Proof using. unfold line_text, line_length. rewrite !lengthZ_app. change (lengthZ [13; 10]) with 2. lia. Qed.

(** Looking for a header; [h0] stands for the first line. *)
Lemma getHeader_reading h0 k (s : S) :
  exists o, reading text (getHeader (h0 :: place (line_length l0) lt) k) s = Ok (o, s) /\
    (is_Some o <-> is_Some (header_of k ls)) /\ value_of text o s = Ok (default [] (header_of k ls), s).
Proof using Htext Hshort.
  destruct lines_short as [_ Hlt]. destruct (find_header_spec k lt (line_text l0) rest Hlt) as (o & E & Ho).
  rewrite line_text_length in E. exists o. unfold reading, with_block. rewrite Htext. cbn [getHeader]. rewrite E. split; [done|].
  unfold header_of. cbn [tl]. destruct o as [h|].
  - destruct Ho as (l & El & Ev & _). rewrite El. split; [by split; eexists|]. cbn [value_of fmap option_fmap option_map default].
    unfold reading, with_block. by rewrite Htext, Ev.
  - rewrite Ho. split; [split; by intros []|done].
Qed.

(** The text of all headers. *)
Lemma request_lines_spec pre l1 r : Forall (fun l => lengthZ (line_text l) < 2 ^ 32) l1 ->
  let b := pre ++ concat (map line_text l1) ++ r in
  request_lines (place (lengthZ pre) l1) b = Ok (map (fun l => mkLine (l_key l) [] (l_value l)) l1, b).
Proof using.
  intros Hl b. subst b. revert pre. induction Hl as [|l l1 Hl _ IH]; intros pre; [done|]. cbn [place request_lines map concat].
  rewrite <- app_assoc. unfold bind. destruct (has_key_spec pre l (concat (map line_text l1) ++ r) [] Hl _ eq_refl) as (_ & E1 & E2).
  rewrite E2, E1. specialize (IH (pre ++ line_text l)). rewrite lengthZ_app, line_text_length, <- !app_assoc in IH. by rewrite IH.
Qed.

(** The first line without the version. *)
Lemma request_reading (s : S) n : 0 <= n <= lengthZ (l_value l0) ->
  let h0 := mkHeader 0 (lengthZ (l_key l0) + lengthZ (l_gap l0)) (u32 (lengthZ (l_key l0))) n in
  reading text (request_lines (h0 :: place (line_length l0) lt)) s =
    Ok (mkLine (l_key l0) [] (slice (l_value l0) 0 n) :: map (fun l => mkLine (l_key l) [] (l_value l)) lt, s).
Proof using Htext Hshort.
  intros Hn h0. destruct lines_short as [Hl0 Hlt]. unfold reading, with_block. rewrite Htext. cbn [request_lines]. unfold bind.
  destruct (has_key_spec [] l0 (concat (map line_text lt) ++ rest) [] Hl0 _ eq_refl) as (_ & _ & E). cbn [app key keyLength] in E. subst h0. cbn [key keyLength].
  change (lengthZ []) with 0 in E. rewrite E. unfold header_value. cbn [value valueLength].
  pose proof (load_bytes_at (l_key l0 ++ l_gap l0) (slice (l_value l0) 0 n) (slice (l_value l0) n (lengthZ (l_value l0) - n) ++ [13; 10] ++ concat (map line_text lt) ++ rest)) as E1.
  rewrite lengthZ_app, slice_length in E1 by lia. rewrite (app_assoc (slice (l_value l0) 0 n)), slice_split, <- app_assoc in E1 by done.
  assert (line_text l0 ++ concat (map line_text lt) ++ rest = l_key l0 ++ l_gap l0 ++ l_value l0 ++ [13; 10] ++ concat (map line_text lt) ++ rest) as E2
    by (unfold line_text; by rewrite <- !app_assoc).
  rewrite <- E2 in E1. rewrite E1. rewrite <- line_text_length, request_lines_spec by done. done.
Qed.

End Reading.

(** ** Both sides of the handshake *)

Lemma parse_text n text ls r : parse n true text = Some (ls, r) ->
  exists l0 lt rest, ls = l0 :: lt /\ forall x, lowered n text ++ x = line_text l0 ++ concat (map line_text lt) ++ rest ++ x.
Proof.
  intros E. destruct (parse_lowered _ _ _ _ _ E) as [tail El]. destruct ls as [|l0 lt].
  - destruct n as [|n]; [done|]. cbn [parse] in E. destruct (lex text); [|done..]. by destruct (parse n false rest) as [[? ?]|].
  - exists l0, lt, tail. split; [done|]. intros x. rewrite El. cbn. by rewrite <- !app_assoc.
Qed.

(** What a server makes of an offer, and the offers it understands. *)
Definition negotiation (options : Z) (offer : list Z) : list Z * bool :=
  match offer with
  | [] => ([], false)
  | _ => let o := negotiated options (words offer) in (generateOffer o, bits_set o PERMESSAGE_DEFLATE)
  end.

Definition offer_ok (offer : list Z) : Prop := Forall ascii offer /\ Forall (fun w => plain_word w = true) (words offer).

Section Handshake.
Context (extensionOptions : Z) (Hoptions : in_signed 32 extensionOptions) (SHA1 : list Z -> list Z).
Context {K : Type} {HK : Kernel K} {HL : KernelLaws K} (Halive : alive (K := K)) {U : Type} {HA : HttpApplication U}.
Implicit Types (s : HttpSocket K U).

(** A socket that got nothing so far. *)
Record http_fresh s : Prop := {
  hf_socket : socket_ok (http_socket s);
  hf_open : isClosed (http_socket s) = false;
  hf_buffer : httpBuffer s = [];
  hf_length : contentLength s = 0
}.

Lemma upgrade_spec secKey offer proto s : lengthZ secKey = 24 -> offer_ok offer -> http_fresh s ->
  wp nothing (upgrade true extensionOptions SHA1 secKey offer proto) (fun b s' => b = snd (negotiation extensionOptions offer) /\
    exists k, s' = set_http_socket k s /\ socket_ok k /\ isClosed k = false /\ shuttingDown k = shuttingDown (http_socket s) /\
      stream k = stream (http_socket s) ++ answer_text SHA1 secKey (fst (negotiation extensionOptions offer)) proto) s.
Proof using Hoptions HL Halive.
  intros Hk [Ha Hp] [Hs Ho _ _]. unfold upgrade. wp_step.
  apply wp_mono with (fun n s' => n = negotiation extensionOptions offer /\ s' = s).
  - unfold negotiation. destruct offer as [|c offer]; [by apply wp_ret|]. wp_step. unfold wp at 1. rewrite readOffer_correct by done. by apply wp_ret.
  - intros n s' [-> ->]. destruct (negotiation extensionOptions offer) as [e b]. wp_step.
    destruct (upgrade_answer_spec SHA1 secKey e proto Hk) as [l E]. apply (wp_with_block _ _ l _ _ _ _ E). wp_step. apply wp_lift.
    eapply wp_mono; [apply write_spec; [done|done|]|].
    { intros E2. discriminate E2. }
    intros r k (Hok & Hopen & Hsd & Hr). apply wp_ret. split; [done|]. exists k. split; [done|]. split; [done|]. split; [done|]. split; [done|].
    destruct r as [q|]; [by destruct Hr|]. destruct Hr as (_ & _ & k0 & Hf). by apply Halive in Hf.
Qed.

(** The first line of a request loses its version. *)
Lemma url_length n : 0 <= n < 2 ^ 31 -> 0 <= Z.max 0 (s32 (u32 (n - 9))) <= n.
Proof using. intros Hn. rewrite swrap_uwrap, swrap_small by (unfold in_signed; lia). lia. Qed.

Section Text.
Context (text : list Z) (ls : list line) (Hparse : parse 100 true text = Some (ls, [])) (Hlen : lengthZ text <= MAX_HEADER_BUFFER_SIZE).

Lemma lowered_short : lengthZ (lowered 100 text) < 2 ^ 31.
Proof using Hlen. rewrite lowered_length. unfold MAX_HEADER_BUFFER_SIZE in Hlen. lia. Qed.

(** A head in one read. *)
Lemma onData_head isServer s (Q : upshot -> HttpSocket K U -> Prop) : http_fresh s ->
  wp nothing (on_head isServer extensionOptions SHA1 (lowered 100 text) (lengthZ text) (place 0 ls))
    (fun r s' => match r with inr (Some u) => Q u s' | _ => False end) s ->
  wp nothing (onData isServer extensionOptions SHA1 text) Q s.
Proof using Hparse Hlen.
  intros [_ _ Eb Ec] H. unfold wp. rewrite onData_start by done. cbv zeta. rewrite Eb. change (negb (lengthZ [] =? 0)) with false. cbn [andb].
  fold (wp nothing (r <- iter (S (length text)) (onData_round isServer extensionOptions SHA1 false) (0, text) ;;
    match r with Some u => ret u | None => modify (set_httpBuffer []) ;; ret StaysHttp end) Q s).
  wp_step. cbn [iter]. wp_step. unfold onData_round at 1. wp_step. eapply wp_ok; [apply in_text_getHeaders|]. rewrite Hparse.
  cbn [fmap option_fmap option_map]. rewrite lengthZ_nil, Z.sub_0_r. wp_step. apply wp_ret.
  eapply wp_mono; [exact H|]. intros [l|[u|]] s'; [done| |done]. intros HQ. apply wp_ret. by apply wp_ret.
Qed.

Lemma client_accepts s v : http_fresh s -> header_of (chars "upgrade") ls = Some v ->
  wp nothing (onData false extensionOptions SHA1 text) (fun u s' => exists request, u = BecomesWebSocket false request (lowered 100 text) (lengthZ text) /\
    s' = set_http_socket (set_timer false (http_socket s)) s) s.
Proof using Hparse Hlen.
  intros F Hv. apply onData_head; [done|]. unfold on_head.
  destruct (parse_text _ _ _ _ Hparse) as (l0 & lt & rest & -> & Htext). specialize (Htext sentinel).
  wp_step. eapply wp_ok.
  { unfold reading, with_block. rewrite Htext. pose proof (lines_short (lowered 100 text) l0 lt (rest ++ sentinel) Htext lowered_short) as [H0 H1].
    pose proof (request_lines_spec [] (l0 :: lt) (rest ++ sentinel) ltac:(by constructor)) as E. change (lengthZ []) with 0 in E. cbn [app] in E.
    cbn [map concat] in E |- *. rewrite <- app_assoc in E. rewrite E. done. }
  wp_step. destruct (getHeader_reading (lowered 100 text) l0 lt (rest ++ sentinel) Htext lowered_short
    (mkHeader 0 (lengthZ (l_key l0) + lengthZ (l_gap l0)) (u32 (lengthZ (l_key l0))) (u32 (lengthZ (l_value l0)))) (chars "upgrade") s) as (o & E & Ho & _).
  eapply wp_ok; [exact E|]. destruct o as [h|]; [|exfalso; destruct Ho as [_ Ho]; rewrite Hv in Ho; by destruct Ho].
  wp_step. apply wp_lift. unfold cancelTimeout. apply wp_modify. apply wp_ret. eexists. split; [done|]. by destruct s.
Qed.

Lemma server_accepts s v secKey : http_fresh s -> inHttpGroup s = true -> httpUpgradeHandler = None ->
  header_of (chars "upgrade") ls = Some v -> header_of (chars "sec-websocket-key") ls = Some secKey -> lengthZ secKey = 24 ->
  let offer := default [] (header_of (chars "sec-websocket-extensions") ls) in
  let protocol := default [] (header_of (chars "sec-websocket-protocol") ls) in
  offer_ok offer ->
  wp nothing (onData true extensionOptions SHA1 text) (fun u s' =>
    (exists request, u = BecomesWebSocket (snd (negotiation extensionOptions offer)) request (lowered 100 text) (lengthZ text)) /\
    socket_ok (http_socket s') /\ isClosed (http_socket s') = false /\ shuttingDown (http_socket s') = shuttingDown (http_socket s) /\
    stream (http_socket s') = stream (http_socket s) ++ answer_text SHA1 secKey (fst (negotiation extensionOptions offer)) protocol) s.
Proof using Hparse Hlen Hoptions HL Halive.
  intros F Hg Hnone Hv Hkey H24 offer protocol Hoffer. apply onData_head; [done|]. unfold on_head.
  destruct (parse_text _ _ _ _ Hparse) as (l0 & lt & rest & -> & Htext). specialize (Htext sentinel).
  pose proof (lines_short (lowered 100 text) l0 lt (rest ++ sentinel) Htext lowered_short) as [H0 _].
  wp_step. apply wp_modify. set (s1 := set_missedDeadline false s). cbn [place].
  assert (0 <= lengthZ (l_value l0) < 2 ^ 31) as Hv0.
  { split; [apply lengthZ_nonneg|]. apply (f_equal lengthZ) in Htext. rewrite !lengthZ_app in Htext. pose proof lowered_short.
    change (lengthZ sentinel) with 4 in Htext. unfold line_text in Htext at 1. rewrite !lengthZ_app in Htext. change (lengthZ [13; 10]) with 2 in Htext.
    pose proof (lengthZ_nonneg (l_key l0)). pose proof (lengthZ_nonneg (l_gap l0)). pose proof (lengthZ_nonneg rest).
    pose proof (lengthZ_nonneg (concat (map line_text lt))). lia. }
  wp_step. eapply wp_ok; [apply (request_reading (lowered 100 text) l0 lt (rest ++ sentinel) Htext lowered_short s1); cbn;
    rewrite (uwrap_small 32 (lengthZ (l_value l0))) by (unfold in_unsigned; lia); by apply url_length|].
  match goal with |- context [getHeader (?h :: _) _] => generalize h as h0 end. intros h0. change (0 + line_length l0) with (line_length l0).
  pose proof (fun k (t : HttpSocket K U) => getHeader_reading (lowered 100 text) l0 lt (rest ++ sentinel) Htext lowered_short h0 k t) as Hget.
  wp_step. destruct (Hget (chars "upgrade") s1) as (o & E & Ho & _). eapply wp_ok; [exact E|].
  destruct o as [h|]; [clear E Ho|exfalso; destruct Ho as [_ Ho]; rewrite Hv in Ho; by destruct Ho].
  wp_step. unfold server_upgrade. rewrite Hnone.
  destruct (Hget (chars "sec-websocket-key") s1) as (o1 & E1 & _ & V1). destruct (Hget (chars "sec-websocket-extensions") s1) as (o2 & E2 & _ & V2).
  destruct (Hget (chars "sec-websocket-protocol") s1) as (o3 & E3 & _ & V3).
  wp_step. eapply wp_ok; [exact E1|]. wp_step. eapply wp_ok; [exact E2|]. wp_step. eapply wp_ok; [exact E3|].
  wp_step. eapply wp_ok; [exact V1|]. rewrite Hkey. cbn [default id]. rewrite H24. cbn [Z.eqb Pos.eqb].
  wp_step. eapply wp_ok; [exact V2|]. wp_step. eapply wp_ok; [exact V3|]. wp_step.
  eapply wp_mono; [apply (upgrade_spec secKey offer protocol s1); [done|done|by destruct F]|].
  intros b s' (-> & k & -> & Hok & Hopen & Hsd & Hstr). unfold removeHttpSocket. wp_step. wp_step. apply wp_get. unfold id. wp_step.
  apply wp_require; [intros _|cbn; by rewrite Hg]. apply wp_modify. apply wp_ret. apply wp_ret. split; [by eexists|]. done.
Qed.

End Text.

End Handshake.
