(* ===== verification/HttpResponses.v ===== *)
(** * Answers to pipelined requests

    HttpResponse::end of src/libuws/include/HTTPSocket.h refines a queue: the
    answers may be given in any order, and they leave in the order of the
    requests.  The objects of the responses are a chain in the heap. *)

From S2P Require Import Prelude CLib Memory Maps Buffer Socket SocketSpec Extensions Http HttpSocket HttpSpec.

(** ** The queue

    A request that waits for its turn, and the answer if it was given already. *)
Abbreviation slot := (Z * option Message)%type.

(** Answers leave as long as they were given. *)
Fixpoint flush (q : list slot) : list Z * list slot :=
  match q with
  | (a, Some m) :: q => let '(out, rest) := flush q in (m_data m ++ out, rest)
  | _ => ([], q)
  end.

Definition hold (a : Z) (m : Message) (q : list slot) : list slot :=
  map (fun x : slot => if decide (x.1 = a) then (a, Some m) else x) q.

(** Giving an answer. *)
Definition answer (a : Z) (m : Message) (q : list slot) : list Z * list slot := flush (hold a m q).

Definition response_text (msg : list Z) : list Z := response_head (lengthZ msg) ++ msg.

(** ** The text of an answer *)

Lemma response_head_length n : lengthZ (response_head n) < 128.
Proof.
  unfold response_head. rewrite !lengthZ_app. change (lengthZ crlf) with 2.
  change (lengthZ (chars "HTTP/1.1 200 OK")) with 15. change (lengthZ (chars "Content-Length: ")) with 16.
  pose proof (print_digits_length 10 64 (u32 n)). unfold print_number, lengthZ. lia.
Qed.

Lemma transform_writes msg : writes (HttpTransformer_estimate (lengthZ msg)) (HttpTransformer_transform false msg) (response_text msg).
Proof.
  intros l Hl. unfold HttpTransformer_estimate in Hl. pose proof (response_head_length (lengthZ msg)) as Hh.
  pose proof (lengthZ_nonneg (response_head (lengthZ msg))). pose proof (lengthZ_nonneg msg).
  unfold HttpTransformer_transform, response_text. set (h := response_head (lengthZ msg)) in *.
  assert (in_block l 0 (lengthZ (h ++ [0])) = true) as H1
    by (apply in_block_spec; rewrite lengthZ_app; change (lengthZ [0]) with 1; lia).
  unfold bind, store_bytes, bind, get, id, require. rewrite H1. unfold ret, modify.
  set (l1 := splice l 0 (h ++ [0])). assert (lengthZ l1 = lengthZ l) as E1 by (by apply splice_length).
  assert (in_block l1 (lengthZ h) (lengthZ msg) = true) as H2 by (apply in_block_spec; lia). rewrite H2.
  exists (splice l1 (lengthZ h) msg). rewrite lengthZ_app. split; [do 2 f_equal; lia|].
  rewrite slice_app by lia. rewrite splice_before, splice_same by (done || lia). f_equal.
  pose proof (splice_same l (h ++ [0]) 0 H1) as E. fold l1 in E. rewrite lengthZ_app in E. change (lengthZ [0]) with 1 in E.
  rewrite slice_app in E by lia. apply app_inj_1 in E as [E _]; [done|].
  pose proof (slice_length l1 0 (lengthZ h) ltac:(lia) ltac:(lia) ltac:(lia)) as E2. unfold lengthZ in *. lia.
Qed.

Lemma response_text_some msg : response_text msg <> [].
Proof. done. Qed.

(** ** Responses in the heap *)

Definition first (q : list slot) : option Z := fst <$> head q.

(** The object of a slot with its successor. *)
Definition slot_object (o : option Message) (succ : option Z) : HttpResponse :=
  mkHttpResponse succ (match o with Some m => [m] | None => [] end) false (bool_decide (is_Some o)) false.

Fixpoint chain (h : gmap Z HttpResponse) (q : list slot) : Prop :=
  match q with
  | [] => True
  | (a, o) :: q => h !! a = Some (slot_object o (first q)) /\ chain h q
  end.

Lemma chain_frame h h' q : chain h q -> (forall b, b ∈ map fst q -> h' !! b = h !! b) -> chain h' q.
Proof.
  induction q as [|[a o] q IH]; [done|]. cbn. intros [Ha Hq] Hf. split.
  - rewrite Hf; [done|]. by left.
  - apply IH; [done|]. intros b Hb. apply Hf. by right.
Qed.

Lemma chain_size h q : chain h q -> NoDup (map fst q) -> (length q <= size h)%nat.
Proof.
  intros Hc Hn. replace (length q) with (length (map fst q)) by apply length_map. rewrite <- (size_list_to_set (C := gset Z) (map fst q)), <- (size_dom h) by done.
  apply subseteq_size. intros b Hb%elem_of_list_to_set. clear Hn. induction q as [|[a o] q IH]; [by apply elem_of_nil in Hb|].
  destruct Hc as [Ha Hc]. cbn in Hb. apply elem_of_cons in Hb as [->|Hb]; [by apply elem_of_dom_2 in Ha|by apply IH].
Qed.

Lemma flush_suffix q : exists d, map fst q = d ++ map fst (snd (flush q)).
Proof.
  induction q as [|[a [m|]] q [d IH]]; [by exists []|..|by exists []]. cbn. destruct (flush q) as [out rest]. cbn in *. exists (a :: d). by rewrite IH.
Qed.

Lemma chain_snoc h q a t o : chain h (q ++ [(t, o)]) -> NoDup (map fst (q ++ [(t, o)]) ++ [a]) -> h !! a = Some new_HttpResponse ->
  h !! t = Some (slot_object o None) /\ chain (<[t := slot_object o (Some a)]> h) ((q ++ [(t, o)]) ++ [(a, None)]).
Proof.
  intros Hc Hn Ha. induction q as [|[b o'] q IH].
  - cbn in *. destruct Hc as [Ht _]. apply NoDup_cons in Hn as [Hta _]. rewrite lookup_insert_eq, lookup_insert_ne by (intros ->; by apply Hta, list_elem_of_singleton). by split_and!.
  - cbn [app map fst] in Hc, Hn. destruct Hc as [Hb Hc]. apply NoDup_cons in Hn as [Hnb Hn]. destruct (IH Hc Hn) as [Ht IH']. split; [done|].
    cbn [app chain]. split; [|done]. rewrite lookup_insert_ne.
    + rewrite Hb. do 2 f_equal. by destruct q as [|[? ?] ?].
    + intros ->. apply Hnb. rewrite map_app, !elem_of_app. left. right. by apply list_elem_of_singleton.
Qed.

Lemma NoDup_snoc {A} (l : list A) a : NoDup l -> a ∉ l -> NoDup (l ++ [a]).
Proof. intros Hl Ha. apply NoDup_app. split_and!; [done|by intros x Hx ->%list_elem_of_singleton|apply NoDup_singleton]. Qed.

Section Refinement.
Context {K : Type} {HK : Kernel K} {HL : KernelLaws K} (Halive : alive (K := K)) {U : Type} {HA : HttpApplication U}.
#[local] Abbreviation S := (HttpSocket K U).
Implicit Types (s : S).

(** A socket that can send, with a stream. *)
Definition sends s (out : list Z) : Prop :=
  socket_ok (http_socket s) /\ isClosed (http_socket s) = false /\ stream (http_socket s) = out.

(** What a method does to the socket alone. *)
Definition only_socket s s' : Prop := exists k, s' = set_http_socket k s.

Lemma wp_deref a r s (Q : HttpResponse -> S -> Prop) : heap s !! a = Some r -> Q r s -> wp nothing (deref a) Q s.
Proof using. intros E HQ. unfold deref. wp_step. apply wp_get. unfold id. rewrite E. by apply wp_ret. Qed.

Lemma wp_assign a r r' s (Q : unit -> S -> Prop) : heap s !! a = Some r -> Q tt (set_heap (<[a := r']> (heap s)) s) -> wp nothing (assign a r') Q s.
Proof using. intros E HQ. unfold assign. wp_step. eapply wp_deref; [done|]. by apply wp_modify. Qed.

Lemma wp_delete a r s (Q : unit -> S -> Prop) : heap s !! a = Some r -> Q tt (set_heap (delete a (heap s)) s) -> wp nothing (delete_response a) Q s.
Proof using. intros E HQ. unfold delete_response. wp_step. eapply wp_deref; [done|]. by apply wp_modify. Qed.

(** Freeing changes one object at most. *)
Lemma freeResponse_spec a r s : heap s !! a = Some r ->
  wp nothing (freeResponse a) (fun _ s' => exists h p, s' = set_preAllocatedResponse p (set_heap h s) /\
    (forall b, b <> a -> h !! b = heap s !! b) /\
    ((preAllocatedResponse s = None /\ p = Some a /\ h = heap s) \/ (is_Some (preAllocatedResponse s) /\ p = preAllocatedResponse s /\ h = delete a (heap s)))) s.
Proof using.
  intros E. unfold freeResponse. wp_step. apply wp_get. unfold id. destruct (preAllocatedResponse s) as [p|] eqn:Ep.
  - eapply wp_delete; [done|]. exists (delete a (heap s)), (Some p). split; [destruct s; cbn in *; by subst|].
    split; [intros b Hb; by apply lookup_delete_ne|]. right. by split_and!; [eexists|..].
  - apply wp_modify. exists (heap s), (Some a). split; [by destruct s|]. split; [done|]. by left.
Qed.

Lemma set_last_callback_spec c k : socket_ok k -> isClosed k = false ->
  socket_ok (set_last_callback c k) /\ isClosed (set_last_callback c k) = false /\ stream (set_last_callback c k) = stream (K := K) k /\
  shuttingDown (set_last_callback c k) = shuttingDown k.
Proof using.
  intros [Hm Hp Hw] Ho. unfold set_last_callback. destruct (rev (messageQueue k)) as [|m q] eqn:E; [by split_and!|].
  apply (f_equal (@rev _)) in E. rewrite rev_involutive in E. cbn in E.
  split; [|split_and!; try done].
  - rewrite E in Hm, Hw. apply Forall_app in Hm as [Hm1 Hm2]. constructor; cbn; [|done|].
    + apply Forall_app. split; [done|]. apply Forall_cons in Hm2 as [Hm2 _]. by repeat constructor.
    + intros _. apply Hw. by destruct (rev q).
  - unfold stream. cbn. rewrite E, !map_app, !concat_app. done.
Qed.

(** One message that was held back. *)
Lemma drain_one c m s out : sends s out -> m_data m <> [] ->
  wp nothing (drain_messages c [m]) (fun failed s' => failed = false /\ only_socket s s' /\ sends s' (out ++ m_data m)) s.
Proof using HL Halive.
  intros (Hok & Hopen & Hstr) Hne. cbn [drain_messages]. wp_step. apply wp_lift. eapply wp_mono; [by apply write_spec|].
  intros [[]|] k (Hok1 & Hopen1 & _ & Hr).
  - wp_step. apply wp_lift, wp_modify. apply wp_ret. destruct (set_last_callback_spec c k Hok1 Hopen1) as (? & ? & E & _).
    split; [done|]. split; [eexists; by destruct s|]. split; [done|]. split; [done|]. cbn. rewrite E. destruct Hr as [Hr _]. by rewrite Hr, Hstr.
  - wp_step. apply wp_lift, run_callback_spec. intros k' l Hk'. apply wp_ret. split; [done|]. split; [eexists; by destruct s|].
    destruct Hr as [Hr _]. split; [destruct Hok1; by constructor|]. split; [done|]. unfold stream in *. cbn in *. by rewrite Hk', Hr, Hstr.
  - destruct Hr as (_ & _ & k0 & Hf). by apply Halive in Hf.
Qed.

(** The answers that can leave do. *)
Definition filled (q : list slot) : Prop := Forall (fun x : slot => match x.2 with Some m => m_data m <> [] | None => True end) q.

(** What moving the head leaves alone. *)
Definition kept s s' : Prop :=
  outstandingResponsesHead s' = outstandingResponsesHead s /\ outstandingResponsesTail s' = outstandingResponsesTail s /\
  allocated s' = allocated s.

Lemma advance_loop c q : forall fuel s out, (length q < fuel)%nat -> sends s out -> chain (heap s) q -> NoDup (map fst q) -> filled q ->
  (forall a, preAllocatedResponse s = Some a -> a ∉ map fst q) ->
  wp nothing (iter fuel (advance_round c) (first q)) (fun h s' => h = first (snd (flush q)) /\ kept s s' /\
    sends s' (out ++ fst (flush q)) /\ chain (heap s') (snd (flush q)) /\ (forall b, b ∉ map fst q -> heap s' !! b = heap s !! b) /\
    (preAllocatedResponse s' = preAllocatedResponse s \/
     exists a, preAllocatedResponse s' = Some a /\ a ∈ map fst q /\ a ∉ map fst (snd (flush q)))) s.
Proof using HL Halive.
  induction q as [|[a o] q IH]; intros [|fuel] s out Hf Hs Hc Hn Hd Hp; cbn in Hf; try lia.
  { cbn [iter first head fmap option_fmap option_map advance_round]. wp_step. apply wp_ret. apply wp_ret. cbn. rewrite app_nil_r. unfold kept. tauto. }
  destruct Hc as [Ha Hc]. cbn [map fst] in Hn, Hp. apply NoDup_cons in Hn as [Hna Hn]. apply Forall_cons in Hd as [Ho Hd]. cbn [snd] in Ho.
  cbn [iter first head fmap option_fmap option_map fst advance_round]. wp_step. wp_step. eapply wp_deref; [done|]. wp_step. destruct o as [m|].
  - cbn [slot_object r_messages]. eapply wp_mono; [by apply drain_one|]. intros failed s1 (-> & [k ->] & Hs1). wp_step. apply wp_require; [intros _|done].
    wp_step. eapply wp_assign; [done|]. cbn [orb negb hasEnded slot_object next]. rewrite (bool_decide_eq_true_2 (is_Some (Some m))) by done. cbn [negb].
    wp_step. eapply wp_mono; [eapply freeResponse_spec; cbn; apply lookup_insert_eq|].
    intros [] s2 (h & p & -> & Hh & Hcase). apply wp_ret. cbn [heap set_heap set_http_socket] in Hh.
    assert (forall b, b <> a -> h !! b = heap s !! b) as Hh' by (intros b Hb; rewrite Hh by done; cbn; by rewrite lookup_insert_ne).
    eapply wp_mono; [apply (IH fuel _ (out ++ m_data m)); [lia|done| |done|done|]|].
    + apply (chain_frame (heap s)); [done|]. intros b Hb. apply Hh'. by intros ->.
    + cbn. intros b ->. cbn in Hcase. destruct Hcase as [(_ & [= ->] & _)|([x Hx] & E & _)]; [done|]. by apply eq_sym, Hp, not_elem_of_cons in E as [_ E].
    + intros h' s' (-> & Hk & Hs' & Hc' & Hfr & Hpre). cbn [flush]. destruct (flush q) as [out' rest] eqn:Ef. cbn [fst snd] in *. rewrite app_assoc.
      split; [done|]. split; [done|]. split; [done|]. split; [done|]. split.
      * intros b [Hb1 Hb2]%not_elem_of_cons. rewrite Hfr by done. cbn. by apply Hh'.
      * assert (forall b, b ∈ map fst rest -> b ∈ map fst q) as Hsub.
        { intros b Hb. pose proof (flush_suffix q) as [d E]. rewrite E, Ef. apply elem_of_app. by right. }
        destruct Hpre as [E|(b & E & Hb & Hb2)].
        -- cbn in E. destruct Hcase as [(_ & -> & _)|(_ & Ep & _)]; [right|left; rewrite E, Ep; done].
           exists a. split; [done|]. split; [by left|]. intros Hin. by apply Hna, Hsub.
        -- right. exists b. split; [done|]. split; [by right|done].
  - cbn [slot_object r_messages drain_messages]. apply wp_ret. wp_step. apply wp_require; [intros _|done]. wp_step. eapply wp_assign; [done|].
    cbn [orb negb hasEnded slot_object next hasHead r_dangling]. change (bool_decide (is_Some (None : option Message))) with false. cbn [negb].
    apply wp_ret. apply wp_ret. cbn [flush fst snd]. rewrite app_nil_r.
    match goal with |- context [<[a := ?r]> (heap s)] => assert (<[a := r]> (heap s) = heap s) as -> by (by apply insert_id) end.
    split; [done|]. split; [done|]. split; [done|]. split; [by split|]. split; [done|]. by left.
Qed.

(** A socket whose outstanding responses are the queue [q], and what was sent. *)
Record waits s (q : list slot) (out : list Z) : Prop := {
  w_sends : sends s out;
  w_chain : chain (heap s) q;
  w_nodup : NoDup (map fst q);
  w_head : outstandingResponsesHead s = first q;
  w_tail : outstandingResponsesTail s = fst <$> last q;
  w_turn : match q with (_, Some _) :: _ => False | _ => True end;
  w_filled : filled q;
  w_free : forall a, preAllocatedResponse s = Some a -> a ∉ map fst q
}.

Lemma flush_turn q : match snd (flush q) with (_, Some _) :: _ => False | _ => True end.
Proof using. induction q as [|[a [m|]] q IH]; [done| |done]. cbn. by destruct (flush q). Qed.

Lemma flush_filled q : filled q -> filled (snd (flush q)).
Proof using. induction q as [|[a [m|]] q IH]; [done| |done]. intros [_ H]%Forall_cons. cbn. specialize (IH H). by destruct (flush q). Qed.

Lemma flush_last q : snd (flush q) <> [] -> last (snd (flush q)) = last q.
Proof using.
  induction q as [|[a [m|]] q IH]; [done| |done]. cbn [flush]. destruct (flush q) as [out rest] eqn:E. cbn [snd] in *. intros Hne.
  rewrite IH by done. destruct q; [by injection E as <- <-|done].
Qed.

Lemma hold_fst a m q : map fst (hold a m q) = map fst q.
Proof using. unfold hold. rewrite map_map. apply map_ext. intros [b o]. cbn. by case_decide; subst. Qed.

Lemma hold_first a m q : first (hold a m q) = first q.
Proof using. destruct q as [|[b o] q]; [done|]. unfold first. cbn. by case_decide; subst. Qed.

Lemma hold_notin a m q : a ∉ map fst q -> hold a m q = q.
Proof using.
  induction q as [|[b o] q IH]; [done|]. cbn. intros [Hb Hq]%not_elem_of_cons. rewrite decide_False by done. f_equal. by apply IH.
Qed.

Lemma hold_filled a m q : m_data m <> [] -> filled q -> filled (hold a m q).
Proof using. intros Hm Hq. unfold hold. apply Forall_map. eapply Forall_impl; [exact Hq|]. intros [b o]. cbn. by case_decide. Qed.

Lemma hold_last a m q : (fst <$> last (hold a m q)) = (fst <$> last q).
Proof using. unfold hold. rewrite fmap_last. destruct (last q) as [[b o]|]; [|done]. cbn. by case_decide; subst. Qed.

Lemma chain_hold h a m q : chain h q -> NoDup (map fst q) ->
  chain (match h !! a with Some r => <[a := slot_object (Some m) (next r)]> h | None => h end) (hold a m q).
Proof using.
  induction q as [|[b o] q IH]; [done|]. intros [Hb Hc] [Hnb Hn]%NoDup_cons. cbn [hold map fst]. fold (hold a m q).
  case_decide as Eb; cbn [fst] in Eb; [subst b|].
  - rewrite Hb. cbn [chain slot_object next]. rewrite (hold_notin a m q) by done. split; [apply lookup_insert_eq|].
    apply (chain_frame h); [done|]. intros b Hin. apply lookup_insert_ne. by intros ->.
  - cbn [chain]. rewrite hold_first. split; [|by apply IH]. destruct (h !! a); [|done]. by rewrite lookup_insert_ne.
Qed.

Lemma chain_lookup h q a o : chain h q -> (a, o) ∈ q -> exists succ, h !! a = Some (slot_object o succ).
Proof using.
  induction q as [|[b o'] q IH]; [by intros _ ?%elem_of_nil|]. intros [Hb Hc] [[= -> ->]|Hin]%elem_of_cons; [by eexists|by apply IH].
Qed.

(** The first response is answered, and those behind it that were answered before. *)
Lemma end_first a msg c s q out : waits s ((a, None) :: q) out ->
  wp nothing (response_end a msg c) (fun _ s' =>
    waits s' (snd (flush q)) (out ++ response_text msg ++ fst (flush q)) /\ allocated s' = allocated s /\
    (q = [] -> preAllocatedResponse s = None -> preAllocatedResponse s' = Some a /\ heap s' = heap s)) s.
Proof using HL Halive.
  intros [(Hok & Hopen & Hstr) [Ha Hc] Hn Hhead Htail _ Hd Hfree]. cbn [map fst] in *. apply NoDup_cons in Hn as [Hna Hn]. apply Forall_cons in Hd as [_ Hd].
  unfold response_end. wp_step. eapply wp_deref; [done|]. wp_step. apply wp_get. unfold id. rewrite Hhead. rewrite decide_True by done.
  wp_step. apply wp_lift. eapply wp_mono; [apply (sendTransformed_spec _ _ (response_text msg)); [done|done| |done|apply transform_writes]|].
  { unfold HttpTransformer_estimate. pose proof (lengthZ_nonneg msg). lia. }
  intros [] k (Hok1 & Hopen1 & _ & failed & Hstr1 & Hf). destruct failed; [by destruct Hf as [k0 Hf%Halive]|].
  wp_step. eapply wp_deref; [done|]. wp_step. unfold advance. wp_step. apply wp_get. unfold id. cbn [slot_object next].
  eapply wp_mono; [apply (advance_loop c q _ _ (out ++ response_text msg)); [|split; [done|split; [done|cbn; by rewrite Hstr1, Hstr]]|done|done|done|]|].
  { cbn. pose proof (chain_size _ _ Hc Hn). lia. }
  { cbn. intros b Hb%Hfree. by apply not_elem_of_cons in Hb as [_ Hb]. }
  intros h s1 (-> & (_ & Ht & Hal) & Hs1 & Hc1 & Hfr & Hpre). wp_step. apply wp_modify.
  assert (forall b, b ∈ map fst (snd (flush q)) -> b ∈ map fst q) as Hsub.
  { intros b Hb. pose proof (flush_suffix q) as [d E]. rewrite E. apply elem_of_app. by right. }
  assert (NoDup (map fst (snd (flush q)))) as Hn1.
  { pose proof (flush_suffix q) as [d E]. rewrite E in Hn. by apply NoDup_app in Hn as (_ & _ & Hn). }
  set (rest := snd (flush q)) in *.
  wp_step. apply wp_mono with (fun _ s2 => s2 = set_tail (fst <$> last rest) (set_head (first rest) s1)).
  - destruct (decide (rest = [])) as [->|Hne]; [by apply wp_modify|].
    rewrite bool_decide_eq_false_2 by (by destruct rest). apply wp_ret. unfold rest in Hne |- *. rewrite (flush_last q) by done.
    assert (outstandingResponsesTail s1 = fst <$> last q) as Et by (rewrite Ht; cbn; rewrite Htail; destruct q; [by destruct Hne|done]).
    rewrite <- Et. by destruct s1.
  - intros [] ? ->. eapply wp_mono; [eapply freeResponse_spec; cbn; rewrite Hfr by done; exact Ha|].
    intros [] s' (h & p & -> & Hh & Hcase). cbn in Hh, Hcase. split; [|split; [done|]]; [constructor; cbn; try done|].
    + by rewrite app_assoc.
    + apply (chain_frame (heap s1)); [done|]. intros b Hb. apply Hh. intros ->. by apply Hna, Hsub.
    + apply flush_turn.
    + by apply flush_filled.
    + intros b ->. destruct Hcase as [(_ & [= ->] & _)|(_ & E & _)]; [by intros Hb%Hsub|]. destruct Hpre as [E2|(b' & E2 & _ & Hb')].
      * cbn in E2. rewrite E2 in E. apply eq_sym, Hfree in E. apply not_elem_of_cons in E as [_ E]. by intros Hb%Hsub.
      * rewrite E2 in E. by injection E as ->.
    + intros -> Hnone. cbn in Hnone |- *. destruct Hpre as [E2|(b' & _ & Hb' & _)]; [|by apply elem_of_nil in Hb'].
      cbn in E2. rewrite Hnone in E2. destruct Hcase as [(_ & -> & ->)|([x Hx] & _)]; [|congruence].
      split; [done|]. apply map_eq. intros b. rewrite Hfr by apply not_elem_of_nil. done.
Qed.

(** An answer that has to wait. *)
Lemma end_later a msg c s q out : waits s q out -> (a, None) ∈ q -> first q <> Some a ->
  wp nothing (response_end a msg c) (fun _ s' => waits s' (hold a (mkMessage (response_text msg) c) q) out /\ allocated s' = allocated s) s.
Proof using HL Halive.
  intros [Hs Hc Hn Hhead Htail Hturn Hd Hfree] Hin Hne. destruct (chain_lookup _ _ _ _ Hc Hin) as [succ Ha].
  unfold response_end. wp_step. eapply wp_deref; [done|]. wp_step. apply wp_get. unfold id. rewrite decide_False by congruence.
  pose proof (transform_writes msg (replicate (Z.to_nat (HttpTransformer_estimate (lengthZ msg))) 0)) as (l' & Et & El).
  { unfold lengthZ at 2. rewrite length_replicate. pose proof (lengthZ_nonneg msg). unfold HttpTransformer_estimate. lia. }
  wp_step. eapply (wp_with_block _ _ l' _ (response_text msg)).
  { cbn [slot_object hasHead]. unfold bind. rewrite Et. unfold load_bytes, bind, get, id, require.
    assert (in_block l' 0 (lengthZ (response_text msg)) = true) as ->; [|unfold ret; by rewrite El].
    apply in_block_spec. split; [lia|]. split; [apply lengthZ_nonneg|]. apply (f_equal lengthZ) in El. unfold slice in El. rewrite drop_0 in El.
    unfold lengthZ in *. rewrite length_take in El. lia. }
  eapply wp_assign; [done|]. split; [|done]. set (m := mkMessage (response_text msg) c).
  pose proof (chain_hold (heap s) a m q Hc Hn) as Hch. rewrite Ha in Hch. cbn [next slot_object] in Hch.
  constructor; cbn; try done.
  - by rewrite hold_fst.
  - by rewrite hold_first.
  - by rewrite hold_last.
  - destruct q as [|[b [o|]] q]; [done|done|]. cbn. rewrite decide_False; [done|]. cbn. intros ->. by apply Hne.
  - by apply hold_filled.
  - by rewrite hold_fst.
Qed.

(** Giving an answer refines the queue. *)
Lemma response_end_spec a msg c s q out : waits s q out -> (a, None) ∈ q ->
  let m := mkMessage (response_text msg) c in
  wp nothing (response_end a msg c) (fun _ s' =>
    waits s' (snd (answer a m q)) (out ++ fst (answer a m q)) /\ allocated s' = allocated s) s.
Proof using HL Halive.
  intros W Hin m. unfold answer. destruct (decide (first q = Some a)) as [E|Hne].
  - destruct q as [|[b o] q]; [done|]. injection E as <-. pose proof (w_nodup _ _ _ W) as Hn. cbn in Hn. apply NoDup_cons in Hn as [Hnb _].
    apply elem_of_cons in Hin as [[= <-]|Hin]; [|by destruct Hnb; apply (list_elem_of_fmap_2 fst) in Hin].
    cbn [hold map fst]. rewrite decide_True by done. fold (hold b m q). rewrite hold_notin by done. cbn [flush].
    eapply wp_mono; [by apply end_first|]. intros [] s' (Hw & Hal & _). by destruct (flush q).
  - assert (flush (hold a m q) = ([], hold a m q)) as ->.
    { destruct q as [|[b [o|]] q]; [done|by destruct (w_turn _ _ _ W)|]. cbn. rewrite decide_False; [done|]. cbn. intros ->. by apply Hne. }
    cbn [fst snd]. rewrite app_nil_r. by apply end_later.
Qed.

(** ** Requests *)

(** Addresses of new objects are new, and an object that is kept for the next request
    is as good as new. *)
Record roomy s : Prop := {
  ro_fresh : forall b, is_Some (heap s !! b) -> b < allocated s;
  ro_kept : forall a, preAllocatedResponse s = Some a -> heap s !! a = Some new_HttpResponse
}.

Lemma append_spec s q out : waits s q out -> roomy s ->
  wp nothing append_response (fun a s' => waits s' (q ++ [(a, None)]) out /\ roomy s' /\ preAllocatedResponse s' = None) s.
Proof using.
  intros [Hs Hc Hn Hhead Htail Hturn Hd Hfree] [Hfr Hk]. unfold append_response. wp_step.
  apply wp_mono with (fun a s1 => exists h n, s1 = set_preAllocatedResponse None (set_allocated n (set_heap h s)) /\ (a ∉ map fst q) /\
    h !! a = Some new_HttpResponse /\ (forall b, b <> a -> h !! b = heap s !! b) /\ (forall b, is_Some (h !! b) -> b < n)).
  - unfold allocateResponse. wp_step. apply wp_get. unfold id. destruct (preAllocatedResponse s) as [a|] eqn:Ea.
    + wp_step. apply wp_modify. apply wp_ret. exists (heap s), (allocated s). split; [by destruct s|]. by split_and!; [apply Hfree|apply Hk|..].
    + wp_step. apply wp_modify. wp_step. apply wp_modify. apply wp_ret. exists (<[allocated s := new_HttpResponse]> (heap s)), (allocated s + 1).
      split; [destruct s; cbn in *; by subst|]. split_and!.
      * intros [[b o] [E Hin]]%list_elem_of_fmap. cbn in E. subst b. destruct (chain_lookup _ _ _ _ Hc Hin) as [r Hr].
        specialize (Hfr (allocated s) ltac:(by eexists)). lia.
      * apply lookup_insert_eq.
      * intros b Hb. by apply lookup_insert_ne.
      * intros b [x Hx]. destruct (decide (b = allocated s)) as [->|Hb]; [lia|]. rewrite lookup_insert_ne in Hx by done.
        specialize (Hfr b ltac:(by eexists)). lia.
  - intros a s1 (h & n & -> & Haq & Ha & Hh & Hlt). assert (chain h q) as Hc1 by (apply (chain_frame (heap s)); [done|]; intros b Hb; apply Hh; by intros ->).
    assert (NoDup (map fst q ++ [a])) as Hn1 by (by apply NoDup_snoc).
    wp_step. apply wp_get. unfold id. cbn [outstandingResponsesTail set_preAllocatedResponse set_allocated set_heap]. rewrite Htail.
    wp_step. apply wp_mono with (fun _ s2 => exists h2, s2 = set_preAllocatedResponse None (set_head (first (q ++ [(a, None)])) (set_allocated n (set_heap h2 s))) /\
      chain h2 (q ++ [(a, None)]) /\ (forall b, is_Some (h2 !! b) -> b < n)).
    + destruct (decide (q = [])) as [->|Hne].
      * apply wp_modify. exists h. split; [by destruct s|]. done.
      * destruct (exists_last Hne) as (q' & [t o] & ->). rewrite last_snoc in *. cbn [fmap option_fmap option_map fst].
        destruct (chain_snoc h q' a t o Hc1 Hn1 Ha) as [Ht Hc2]. wp_step. eapply wp_deref; [done|]. eapply wp_assign; [done|].
        exists (<[t := slot_object o (Some a)]> h). split; [|split; [done|]].
        -- assert (first ((q' ++ [(t, o)]) ++ [(a, None)]) = first (q' ++ [(t, o)])) as -> by (by destruct q'). rewrite <- Hhead. by destruct s.
        -- intros b [x Hx]. apply Hlt. destruct (decide (b = t)) as [->|]; [by eexists|]. rewrite lookup_insert_ne in Hx by done. by eexists.
    + intros [] s2 (h2 & -> & Hc2 & Hlt2). wp_step. apply wp_modify. apply wp_ret. split; [|split; [by constructor|done]].
      constructor; cbn; try done.
      * by rewrite map_app.
      * by rewrite last_snoc.
      * by destruct q as [|[? [?|]] ?].
      * apply Forall_app. split; [done|by repeat constructor].
Qed.

(** ** Exchanges *)

Abbreviation reply := (list Z * Callback)%type.

Fixpoint requests (n : nat) : M S (list Z) :=
  match n with
  | O => ret []
  | Datatypes.S n => a <- append_response ;; l <- requests n ;; ret (a :: l)
  end.

Fixpoint give_answers (l : list (Z * reply)) : M S unit :=
  match l with [] => ret tt | (a, (msg, c)) :: l => response_end a msg c ;; give_answers l end.

(** Requests that are answered one at a time. *)
Fixpoint exchanges (l : list reply) : M S unit :=
  match l with [] => ret tt | (msg, c) :: l => a <- append_response ;; response_end a msg c ;; exchanges l end.

Definition texts (l : list reply) : list Z := concat (map (fun r => response_text r.1) l).

Lemma exchanges_spec l s out : waits s [] out -> roomy s ->
  wp nothing (exchanges l) (fun _ s' => waits s' [] (out ++ texts l) /\ roomy s') s.
Proof using HL Halive.
  revert s out. induction l as [|[msg c] l IH]; intros s out W R; cbn [exchanges]; [apply wp_ret; unfold texts; cbn; by rewrite app_nil_r|].
  wp_step. eapply wp_mono; [by apply append_spec|]. intros a s1 (W1 & R1 & Hnone). wp_step. eapply wp_mono; [by apply (end_first a msg c s1 [])|].
  intros [] s2 (W2 & Hal & Hkeep). destruct (Hkeep eq_refl Hnone) as [Hp Hh]. cbn in W2. rewrite app_nil_r in W2.
  unfold texts. cbn [map concat fst]. rewrite app_assoc. apply IH; [done|]. destruct R1 as [Hfr _]. constructor.
  - intros b. rewrite Hh, Hal. apply Hfr.
  - intros b Hb. rewrite Hp in Hb. injection Hb as <-. rewrite Hh. destruct (w_chain _ _ _ W1) as [Ha _]. exact Ha.
Qed.

Lemma requests_spec n s q out : waits s q out -> roomy s ->
  wp nothing (requests n) (fun l s' => length l = n /\ waits s' (q ++ map (fun a => (a, None)) l) out) s.
Proof using.
  revert s q. induction n as [|n IH]; intros s q W R; cbn [requests]; [apply wp_ret; cbn; by rewrite app_nil_r|].
  wp_step. eapply wp_mono; [by apply append_spec|]. intros a s1 (W1 & R1 & _). wp_step. eapply wp_mono; [by apply IH|].
  intros l s2 [Hl W2]. apply wp_ret. cbn. split; [by rewrite Hl|]. by rewrite <- app_assoc in W2.
Qed.

(** The queue [q] for the requests [todo] when the answers [left] are still to be given. *)
Definition pending (left : list (Z * reply)) (r : Z * reply) (x : slot) : Prop :=
  x.1 = r.1 /\ (x.2 = None /\ r ∈ left \/ x.2 = Some (mkMessage (response_text r.2.1) r.2.2) /\ r ∉ left).

Lemma key_unique {A} (l : list (Z * A)) r r' : NoDup (map fst l) -> r ∈ l -> r' ∈ l -> r'.1 = r.1 -> r' = r.
Proof using.
  induction l as [|x l IH]; [by intros _ ?%elem_of_nil|]. cbn. intros [Hx Hn]%NoDup_cons [->|Hr]%elem_of_cons [->|Hr']%elem_of_cons E; [done|..|by apply IH].
  - destruct Hx. rewrite <- E. by apply (list_elem_of_fmap_2 fst).
  - destruct Hx. rewrite E. by apply (list_elem_of_fmap_2 fst).
Qed.

Lemma pending_hold left r todo q : (forall r', r' ∈ todo -> r'.1 = r.1 -> r' = r) -> r ∉ left -> r ∈ todo -> Forall2 (pending (r :: left)) todo q ->
  Forall2 (pending left) todo (hold r.1 (mkMessage (response_text r.2.1) r.2.2) q) /\ (r.1, None) ∈ q.
Proof using.
  intros Hu Hr Hin H. split.
  - clear Hin. unfold hold. induction H as [|r' [a o] todo q [Ha Ho] _ IH]; [constructor|].
    cbn [fst snd] in Ha, Ho. subst a. constructor; [|apply IH; intros x Hx; apply Hu; by right]. cbn. case_decide as E.
    + rewrite (Hu r' ltac:(by left) E) in *. split; [done|]. by right.
    + split; [done|]. destruct Ho as [[-> Ho]|[-> Ho]]; [left|right]; (split; [done|]).
      * apply elem_of_cons in Ho as [->|Ho]; [done|done].
      * by apply not_elem_of_cons in Ho as [_ Ho].
  - clear Hu. induction H as [|r' [a o] todo q [Ha Ho] _ IH]; [by apply elem_of_nil in Hin|]. cbn [fst snd] in Ha, Ho. subst a.
    apply elem_of_cons in Hin as [->|Hin]; [|right; by apply IH]. destruct Ho as [[-> _]|[_ Ho]]; [by left|]. by destruct Ho; left.
Qed.

(** What leaves the queue are the answers to its first requests. *)
Lemma pending_flush left todo q : Forall2 (pending left) todo q ->
  exists d t, todo = d ++ t /\ Forall2 (pending left) t (snd (flush q)) /\ fst (flush q) = texts (map snd d) /\ Forall (fun r => r ∉ left) d.
Proof using.
  induction 1 as [|r [a o] todo q [Ha Ho] H IH]; [by exists [], []|]. destruct Ho as [[Eo Ho]|[Eo Ho]]; cbn [snd] in Eo; subst o.
  - exists [], (r :: todo). split; [done|]. cbn. split; [|done]. constructor; [|done]. split; [done|]. by left.
  - destruct IH as (d & t & -> & Ht & Ef & Hd). exists (r :: d), t. cbn [flush]. destruct (flush q) as [out rest]. cbn [fst snd m_data] in *.
    split; [done|]. split; [done|]. split; [|by constructor]. unfold texts in *. cbn. by rewrite Ef.
Qed.

Lemma give_answers_spec left todo q s out : waits s q out -> NoDup (map fst todo) -> NoDup left -> (forall r, r ∈ left -> r ∈ todo) ->
  Forall2 (pending left) todo q ->
  wp nothing (give_answers left) (fun _ s' => waits s' [] (out ++ texts (map snd todo))) s.
Proof using HL Halive.
  revert todo q s out. induction left as [|r left IH]; intros todo q s out W Hn Hl Hsub Hp.
  - cbn [give_answers]. apply wp_ret. destruct Hp as [|r [a o] todo q [_ Ho] _]; [unfold texts; cbn; by rewrite app_nil_r|].
    destruct Ho as [[_ Ho]|[Ho _]]; [by apply elem_of_nil in Ho|]. cbn in Ho. subst o. by destruct (w_turn _ _ _ W).
  - apply NoDup_cons in Hl as [Hr Hl]. assert (r ∈ todo) as Hin by (apply Hsub; by left).
    destruct (pending_hold left r todo q (fun r' Hr' => key_unique todo r r' Hn Hin Hr') Hr Hin Hp) as [Hp1 Hslot].
    destruct (pending_flush _ _ _ Hp1) as (d & t & Et & Hp2 & Ef & Hd). destruct r as [a [msg c]]. cbn [give_answers]. cbn [fst snd] in *.
    wp_step. eapply wp_mono; [by apply response_end_spec|]. intros [] s1 [W1 _]. unfold answer in W1. rewrite Ef in W1. subst todo.
    rewrite map_app in Hn. apply NoDup_app in Hn as (_ & _ & Hn).
    eapply wp_mono; [apply (IH t _ s1 _ W1); [done|done| |done]|].
    + intros r' Hr'. specialize (Hsub r' ltac:(by right)). apply elem_of_app in Hsub as [Hd'|]; [|done].
      rewrite Forall_forall in Hd. by destruct (Hd r' Hd').
    + intros [] s2 W2. unfold texts in *. rewrite <- app_assoc, <- concat_app, <- map_app, <- map_app in W2. done.
Qed.

End Refinement.

(** C5: answers leave in the order of the requests.  On a connection on which so far
    every request was answered before the next one came, any number of requests
    come at once; the application answers each of them, in whatever order and with
    whatever callbacks.  Then, as long as the kernel reports no error, no access to
    the objects of the responses is undefined, and what was and will be sent are
    the answers, each once, in the order of the requests. *)
Theorem responses_in_order {K U} {HK : Kernel K} {HL : KernelLaws K} prior n (s : HttpSocket K U) :
  alive (K := K) -> socket_ok (http_socket s) -> isClosed (http_socket s) = false ->
  heap s = ∅ -> preAllocatedResponse s = None -> outstandingResponsesHead s = None -> outstandingResponsesTail s = None ->
  exists s0 l s1, exchanges prior s = Ok (tt, s0) /\ requests n s0 = Ok (l, s1) /\ length l = n /\
    forall replies order, length replies = n -> order ≡ₚ zip l replies ->
      exists s2, give_answers order s1 = Ok (tt, s2) /\
        stream (http_socket s2) = stream (http_socket s) ++ texts prior ++ texts replies /\
        outstandingResponsesHead s2 = None /\ outstandingResponsesTail s2 = None.
Proof.
  intros Halive Hok Hopen Hh Hp Hhead Htail.
  assert (waits s [] (stream (http_socket s))) as W by (constructor; try done; [apply NoDup_nil_2|by constructor|by rewrite Hp]).
  assert (roomy s) as R by (constructor; [intros b; rewrite Hh, lookup_empty; by intros []|by rewrite Hp]).
  destruct (wp_total _ _ _ (exchanges_spec Halive prior s _ W R)) as ([] & s0 & E0 & W0 & R0).
  destruct (wp_total _ _ _ (requests_spec n s0 [] _ W0 R0)) as (l & s1 & E1 & Hl & W1). cbn [app] in W1.
  exists s0, l, s1. split; [done|]. split; [done|]. split; [done|]. intros replies order Hlen Hperm.
  assert (map fst (zip l replies) = l) as Ez by (apply (fst_zip l replies); lia).
  pose proof (w_nodup _ _ _ W1) as Hn. rewrite map_map, map_id in Hn.
  assert (NoDup (map fst (zip l replies))) as Hn2 by (by rewrite Ez).
  assert (Forall2 (pending order) (zip l replies) (map (fun a => (a, None)) l)) as Hpend.
  { assert (forall r, r ∈ zip l replies -> r ∈ order) as Hin by (intros r; by rewrite Hperm).
    clear -Hlen Hl Hin. revert l replies Hl Hlen Hin. induction n as [|n IH]; intros [|a l] [|r replies] Hl Hlen Hin; try done.
    constructor; [split; [done|]; left; split; [done|apply Hin; by left]|]. apply IH; [by injection Hl|by injection Hlen|].
    intros x Hx. apply Hin. by right. }
  assert (NoDup order) as Ho by (rewrite Hperm; by apply (NoDup_fmap_1 fst)).
  destruct (wp_total _ _ _ (give_answers_spec Halive order _ _ s1 _ W1 Hn2 Ho ltac:(intros r; by rewrite Hperm) Hpend)) as ([] & s2 & E2 & W2).
  exists s2. split; [done|]. rewrite (w_head _ _ _ W2), (w_tail _ _ _ W2). split; [|done].
  destruct (w_sends _ _ _ W2) as (_ & _ & ->). by rewrite snd_zip, <- app_assoc by lia.
Qed.

(** ** Deadlines *)

Section Deadline.
Context {K : Type} {HK : Kernel K} {HL : KernelLaws K} {U : Type} {HA : HttpApplication U}.
Implicit Types (s : HttpSocket K U).

(** An open connection of a server on which no answer is awaited. *)
Record idle s : Prop := {
  idle_open : isClosed (http_socket s) = false;
  idle_working : shuttingDown (http_socket s) = false;
  idle_group : inHttpGroup s = true;
  idle_head : outstandingResponsesHead s = None;
  idle_kept : forall a, preAllocatedResponse s = Some a -> is_Some (heap s !! a)
}.

Lemma idle_onEnd s : idle s -> wp nothing (onEnd true) (fun _ s' => isClosed (http_socket s') = true) s.
Proof using HL.
  intros [Hopen Hsd Hg Hhead Hpre]. unfold onEnd, removeHttpSocket, closeSocket. wp_step. apply wp_get. unfold id. rewrite Hsd. cbn [negb].
  do 4 wp_step. wp_step. apply wp_require; [intros _|by rewrite Hg]. apply wp_modify. apply wp_modify.
  wp_step. apply wp_lift. wp_step. apply wp_get. wp_step. apply wp_require; [intros _|unfold isClosed in *; cbn; by rewrite Hopen]. apply wp_modify.
  wp_step. apply wp_get. wp_step. apply wp_lift. eapply wp_mono; [apply cancel_messages_spec|]. intros [] k [Hk _].
  wp_step. cbn [iter]. wp_step. unfold cancel_round at 1. wp_step. apply wp_get. cbn. rewrite Hhead. apply wp_ret. apply wp_ret.
  wp_step. apply wp_get. cbn. wp_step. destruct (preAllocatedResponse s) as [a|].
  - destruct (Hpre a eq_refl) as [r Hr]. eapply wp_delete; [done|]. apply wp_ret. cbn. unfold isClosed. by rewrite Hk.
  - apply wp_ret. apply wp_ret. cbn. unfold isClosed. by rewrite Hk.
Qed.

(** A connection without a request is closed at the second tick of the timer. *)
Lemma deadline_ends s : idle s -> missedDeadline s = false ->
  exists s', (check_deadline true ;; check_deadline true) s = Ok (tt, s') /\ isClosed (http_socket s') = true.
Proof using HL.
  intros I Hm. enough (wp nothing (check_deadline true ;; check_deadline true) (fun _ s' => isClosed (http_socket s') = true) s) as H
    by (apply wp_total in H as ([] & s' & E & H); by exists s').
  wp_step. unfold check_deadline at 1. wp_step. apply wp_get. unfold id. rewrite Hm, (idle_head s I). apply wp_modify.
  unfold check_deadline. wp_step. apply wp_get. cbn. apply idle_onEnd. by destruct I.
Qed.

End Deadline.

(** ** Examples *)

(** An application that answers every request with its path and writes it down. *)
#[local] Instance http_echo : HttpApplication (list (list Z)) := {
  httpRequestHandler := Some (fun res ls _ _ u => (u ++ map l_value (take 1 ls), [EndResponse res (concat (map l_value (take 1 ls))) NoCallback]));
  httpDataHandler := fun _ _ _ u => (u, []);
  httpUpgradeHandler := None;
  httpCancelledRequestHandler := fun _ u => u;
  httpDisconnectionHandler := fun u => u;
  errorHandler := fun u => u
}.

Definition new_HttpSocket : HttpSocket (list Z) (list (list Z)) :=
  mkHttpSocket new_socket ∅ 0 None None None [] 0 false true [].

Definition request_text (path : list Z) : list Z := chars "GET " ++ path ++ chars " HTTP/1.1" ++ crlf ++ chars "Host: a" ++ crlf ++ crlf.

Lemma responses_in_order_witness :
  exists s0 l s1, exchanges [(chars "a", NoCallback)] new_HttpSocket = Ok (tt, s0) /\ requests 3 s0 = Ok (l, s1) /\ length l = 3%nat /\
    forall replies order, length replies = 3%nat -> order ≡ₚ zip l replies ->
      exists s2, give_answers order s1 = Ok (tt, s2) /\
        stream (http_socket s2) = stream (http_socket new_HttpSocket) ++ texts [(chars "a", NoCallback)] ++ texts replies /\
        outstandingResponsesHead s2 = None /\ outstandingResponsesTail s2 = None.
Proof. apply (responses_in_order [(chars "a", NoCallback)] 3 new_HttpSocket); try done. constructor; [constructor|by left|done]. Defined.

(** An object that is used again keeps its link: after two pipelined requests, the
    answer to the next one follows a link to an object that was deleted. *)
Remark stale_link :
  (l <- requests 2 ;; give_answers (zip l [(chars "a", NoCallback); (chars "b", NoCallback)]) ;;
   exchanges [(chars "c", NoCallback)]) new_HttpSocket = Undef.
Proof. by vm_compute. Qed.

(** It also keeps its mark that a head was written: the next answer has none. *)
Remark reused_without_head :
  outcome_map (fun '(_, s) => stream (http_socket s))
    ((a <- append_response ;; response_write a (chars "own head") NoCallback ;; response_end a (chars "x") NoCallback ;;
      exchanges [(chars "hello", NoCallback)]) new_HttpSocket) = Ok (chars "own headxhello").
Proof. by vm_compute. Qed.

(** The buffer for a head also holds what was handled before it: when a head was
    buffered and the next one is incomplete again, the first request is handled
    twice. *)
Remark request_handled_twice :
  outcome_map (fun '(_, s) => httpUser s)
    (read_chunks true 0 id [chars "GET /1 HT"; chars "TP/1.1" ++ crlf ++ chars "Host: a" ++ crlf ++ crlf ++ chars "GET /2 HT";
       chars "TP/1.1" ++ crlf ++ chars "Host: a" ++ crlf ++ crlf] new_HttpSocket)
  = Ok [chars "/1"; chars "/1"; chars "/2"].
Proof. by vm_compute. Qed.

(** A negative Content-Length makes the handler's length, and the step of the cursor,
    those of an enormous size_t. *)
Remark negative_length :
  read_chunks true 0 id [chars "POST /1 HTTP/1.1" ++ crlf ++ chars "Content-Length: -1" ++ crlf ++ crlf] new_HttpSocket = Undef.
Proof. by vm_compute. Qed.

(** A request in three reads. *)
Lemma onData_pieces_witness :
  let chunks := [chars "GET /1"; chars " HTTP/1.1" ++ [13]; [10] ++ chars "Host: a" ++ crlf ++ crlf] in
  same_outcome (read_chunks true 0 id chunks new_HttpSocket) (onData true 0 id (concat chunks) new_HttpSocket).
Proof.
  intros chunks. apply (onData_pieces true 0 id chunks (concat chunks) [mkLine (chars "get") (chars " ") (chars "/1 HTTP/1.1"); mkLine (chars "host") (chars ": ") (chars "a")]);
    try done; by_decide.
Defined.
