(* ===== verification/Hub.v ===== *)
(** * The client's side of a connection

    Hub::connect of src/libuws/src/Hub.cpp: the parser for the URI and the request
    of the handshake. *)

From S2P Require Import Prelude CLib Memory Maps Buffer Extensions Http HttpSocket.

(** ** Strings *)

(** [s.find(c, offset)] and [s.find_first_of(cs, offset)]: the distance from the
    offset. *)
Fixpoint find_first_of (cs l : list Z) : option Z :=
  match l with
  | [] => None
  | c :: l => if bool_decide (c ∈ cs) then Some 0 else (fun i => i + 1) <$> find_first_of cs l
  end.

(** [s.substr(offset, n)] on the characters from the offset on, where no number
    stands for npos minus the offset. *)
Definition substr (l : list Z) (n : option Z) : list Z :=
  match n with Some n => take (Z.to_nat n) l | None => l end.

(** std::stoi: [None] is an exception. *)
Definition stoi (l : list Z) : option Z :=
  let l := skip_spaces l in
  let '(negative, l) := sign l in
  match fst (span digit l) with
  | [] => None
  | ds =>
      let n := decimal ds in
      let n := if negative : bool then - n else n in
      if fits_signed 32 n then Some n else None
  end.

(** ** parseURI *)

Record URI := mkURI { secure : bool; hostname : list Z; port : Z; path : list Z }.

(** The path at the end of the URI. *)
Definition parse_path (s : bool) (h : list Z) (p : Z) (rest : list Z) : option URI :=
  match rest with
  | [] => Some (mkURI s h p [])
  | c :: rest => Some (mkURI s h p (if c =? 47 then rest else []))
  end.

(** What follows the host. *)
Definition parse_port (s : bool) (h : list Z) (p : Z) (rest : list Z) : option URI :=
  match rest with
  | [] => Some (mkURI s h p [])
  | c :: rest' =>
      if c =? 58 then
        let portStr := substr rest' (find_first_of [47] rest') in
        match portStr with
        | [] => None
        | _ => n ← stoi portStr; parse_path s h n (drop (length portStr) rest')
        end
      else parse_path s h p rest
  end.

(** The host. *)
Definition parse_host (s : bool) (p : Z) (rest : list Z) : option URI :=
  match rest with
  | [] => None
  | c :: rest' =>
      if c =? 91 then
        match rest' with
        | [] => None
        | _ =>
            endBracket ← find_first_of [93] rest';
            parse_port s (substr rest' (Some endBracket)) p (drop (Z.to_nat (endBracket + 1)) rest')
        end
      else
        let h := substr rest (find_first_of (chars ":/") rest) in
        parse_port s h p (drop (length h) rest)
  end.

Definition parseURI (uri : list Z) : option URI :=
  if decide (take 6 uri = chars "wss://") then parse_host true 443 (drop 6 uri)
  else if decide (take 5 uri = chars "ws://") then parse_host false 80 (drop 5 uri)
  else None.

(** ** The request *)

Definition randomKey : list Z := chars "x3JJHMbDL1EzLkh9GBhXDw==".

Definition connect_request (path hostname : list Z) (extraHeaders : list (list Z * list Z)) : list Z :=
  chars "GET /" ++ path ++ chars " HTTP/1.1" ++ crlf ++
  chars "Upgrade: websocket" ++ crlf ++
  chars "Connection: Upgrade" ++ crlf ++
  chars "Sec-WebSocket-Key: " ++ randomKey ++ crlf ++
  chars "Host: " ++ hostname ++ crlf ++
  chars "Sec-WebSocket-Version: 13" ++ crlf ++
  concat (map (fun '(k, v) => k ++ chars ": " ++ v ++ crlf) extraHeaders) ++ crlf.

(** ** What the parser promises *)

Definition uri_text (u : URI) (port_text : list Z) : list Z :=
  (if secure u then chars "wss://" else chars "ws://") ++ hostname u ++ port_text ++ chars "/" ++ path u.

Lemma find_first_of_app cs a c r : Forall (fun x => x ∉ cs) a -> c ∈ cs -> find_first_of cs (a ++ c :: r) = Some (lengthZ a).
Proof.
  intros Ha Hc. induction Ha as [|x a Hx _ IH]; cbn [app find_first_of].
  - by rewrite bool_decide_eq_true_2.
  - rewrite bool_decide_eq_false_2, IH by done. cbn. rewrite lengthZ_cons. f_equal. lia.
Qed.

Lemma substr_app cs a c r : Forall (fun x => x ∉ cs) a -> c ∈ cs -> substr (a ++ c :: r) (find_first_of cs (a ++ c :: r)) = a.
Proof. intros. rewrite find_first_of_app by done. unfold substr, lengthZ. by rewrite Nat2Z.id, take_app_length. Qed.

Lemma stoi_numeral k n : (0 < k)%nat -> 0 <= n < 10 ^ Z.of_nat k -> n < 2 ^ 31 -> stoi (numeral 10 k n) = Some n.
Proof.
  intros Hk Hn Hmax. unfold stoi. pose proof (numeral_digits k n) as Hd. pose proof (numeral_value k n Hn) as Hv.
  pose proof (numeral_length 10 k n) as Hl. destruct (numeral 10 k n) as [|c ds] eqn:E; [cbn in Hl; lia|].
  pose proof (proj1 (Forall_cons_1 _ _ _ Hd)) as Hc. unfold digit in Hc. cbn [skip_spaces].
  assert (isspace c = false) as -> by (unfold isspace; lia). rewrite sign_none by lia.
  rewrite <- (app_nil_r (c :: ds)), span_all by (done || by right). cbn [fst]. rewrite Hv.
  by rewrite (proj2 (fits_signed_spec 32 n)) by (unfold in_signed; simpl; lia).
Qed.

(** A host as it stands in a URI without brackets. *)
Definition host_ok (h : list Z) : Prop := h <> [] /\ Forall (fun c => c ∉ chars ":/") h /\ hd 0 h <> 91.

(** C35: the parser reads the URI that was meant.  Whatever the host, if it is not in
    brackets, the port, with any number of digits, and the path are: parsing the
    text of the URI gives them back, with the scheme. *)
Theorem parseURI_roundtrip u k : host_ok (hostname u) -> (0 < k)%nat -> 0 <= port u < 10 ^ Z.of_nat k -> port u < 2 ^ 31 ->
  parseURI (uri_text u (chars ":" ++ numeral 10 k (port u))) = Some u.
Proof.
  intros (Hne & Hh & Hb) Hk Hp Hmax. unfold parseURI, uri_text.
  assert (forall s p, parse_host s p (hostname u ++ (chars ":" ++ numeral 10 k (port u)) ++ chars "/" ++ path u) = Some (mkURI s (hostname u) (port u) (path u))) as H.
  { intros s p. change (chars ":") with [58]. change (chars "/") with [47]. cbn [app].
    unfold parse_host. destruct (hostname u) as [|c h] eqn:Eh; [done|]. cbn [app hd] in *. rewrite (proj2 (Z.eqb_neq c 91) Hb).
    rewrite (app_comm_cons h _ c), substr_app by (done || by_decide). rewrite drop_app_length. cbn [parse_port Z.eqb Pos.eqb].
    assert (Forall (fun x => x ∉ [47]) (numeral 10 k (port u))) as Hn.
    { eapply Forall_impl; [apply numeral_digits|]. cbn. intros x Hx ->%list_elem_of_singleton. done. }
    rewrite substr_app by (done || by_decide). rewrite stoi_numeral, drop_app_length by done. pose proof (numeral_length 10 k (port u)).
    destruct (numeral 10 k (port u)); [cbn in *; lia|]. done. }
  destruct u as [[] h p q]; cbn [secure hostname port path] in *.
  - change (chars "wss://" ++ ?x) with (119 :: 115 :: 115 :: 58 :: 47 :: 47 :: x). rewrite decide_True by done. apply H.
  - change (chars "ws://" ++ ?x) with (119 :: 115 :: 58 :: 47 :: 47 :: x). rewrite decide_False by done. rewrite decide_True by done. apply H.
Qed.

Definition sample_uri : URI := mkURI true (chars "example.org") 8443 (chars "chat?room=1").

Lemma parseURI_roundtrip_witness : parseURI (chars "wss://example.org:08443/chat?room=1") = Some sample_uri.
Proof. apply (parseURI_roundtrip sample_uri 5); [split; [done|split; [|done]]; by_decide|lia|cbn; lia|cbn; lia]. Defined.
