(* ===== verification/Handshake.v ===== *)
(** * The handshake

    The upgrade of an HTTP socket to a WebSocket, the end of HttpSocket::onData in
    src/libuws/src/HTTPSocket.cpp, and the theorem that a client and a server of
    this library come to an open connection. *)

From S2P Require Import Prelude Memory Maps Buffer Utf8 WebSocketProtocol Masking WebSocketFrames WebSocketProtocolSpec.
From S2P Require Import Socket SocketSpec Extensions Http HttpSocket HttpSpec Hub WebSocketFormat WebSocket WebSocketSpec ConnectionSpec.

(** ** The code *)

(** The handler for new connections. *)
Class Greeter (U : Type) := connectionHandler : list line -> U -> U * list Action.

Section Upgrade.
Context (isServer : bool) (rand : nat -> Z) (maxPayload : Z).
Context {K : Type} {HK : Kernel K} {U : Type} {HU : Application U} {HG : Greeter U} {D : Type} {HD : Zlib D}.

(** [new WebSocket<isServer>(perMessageDeflate, httpSocket)], in the list of its
    group; [d] is the stream of the hub, [spill0] and [mask0] what the arrays of the
    parser hold before they are assigned. *)
Definition new_WebSocket (perMessageDeflate : bool) (h : HttpSocket K U) (d : D) : WebSocket K U D :=
  mkWebSocket (http_socket h) [] (if perMessageDeflate then ENABLED else DISABLED) 0 true d 0 (httpUser h).

Definition new_Connection (perMessageDeflate : bool) (h : HttpSocket K U) (d : D) (text spill0 mask0 : list Z) :
    Connection (K := K) (U := U) (D := D) :=
  mkConnection (mkReceiver (text ++ sentinel) (new_WebSocketState spill0 mask0) (new_WebSocket perMessageDeflate h d)) false.

(** The application greets the other side; a client goes on with the data behind the
    head.  Later reads use the receive buffer of the node, which holds [recv]. *)
Definition start_WebSocket (request : list line) (text : list Z) (cursor : Z) (recv : list Z) : M (Connection (K := K) (U := U) (D := D)) unit :=
  on_receiver (on_impl (call_handler isServer rand (connectionHandler request))) ;;
  c <- get id ;;
  (if isServer || is_gone (impl (receiver c)) then ret tt
   else on_receiver (consume (H := WebSocket_Impl isServer rand maxPayload) isServer cursor (lengthZ text - cursor))) ;;
  on_receiver (modify (set_block recv)).

End Upgrade.

(** ** The request of the client *)

Definition connect_lines (path hostname : list Z) (extraHeaders : list (list Z * list Z)) : list line :=
  [mkLine (chars "GET") (chars " ") (chars "/" ++ path ++ chars " HTTP/1.1");
   mkLine (chars "Upgrade") (chars ": ") (chars "websocket");
   mkLine (chars "Connection") (chars ": ") (chars "Upgrade");
   mkLine (chars "Sec-WebSocket-Key") (chars ": ") randomKey;
   mkLine (chars "Host") (chars ": ") hostname;
   mkLine (chars "Sec-WebSocket-Version") (chars ": ") (chars "13")] ++
  map (fun '(k, v) => mkLine k (chars ": ") v) extraHeaders.

Lemma connect_text path hostname extra : connect_request path hostname extra = head_text (connect_lines path hostname extra).
Proof.
  unfold connect_request, head_text, connect_lines. rewrite map_app, concat_app. cbn [map concat]. unfold line_text. cbn [l_key l_gap l_value].
  rewrite map_map. rewrite <- !app_assoc.
  replace (map (fun x : list Z * list Z => l_key (let '(k, v) := x in mkLine k (chars ": ") v) ++ l_gap (let '(k, v) := x in mkLine k (chars ": ") v) ++
    l_value (let '(k, v) := x in mkLine k (chars ": ") v) ++ [13; 10]) extra) with (map (fun '(k, v) => k ++ chars ": " ++ v ++ crlf) extra)
    by (apply map_ext; by intros [k v]).
  reflexivity.
Qed.

(** What may be asked for: no CR, and headers with a key. *)
Record request_ok (path hostname : list Z) (extraHeaders : list (list Z * list Z)) : Prop := {
  rq_path : Forall (fun c => no_cr c = true) path;
  rq_host : Forall (fun c => no_cr c = true) hostname /\ gap_char (hd 13 hostname) = false;
  rq_extra : Forall (fun '(k, v) => line_ok (mkLine k (chars ": ") v)) extraHeaders;
  rq_few : (length extraHeaders < 94)%nat
}.

Lemma connect_lines_ok path hostname extra : request_ok path hostname extra ->
  Forall line_ok (connect_lines path hostname extra) /\ (0 < length (connect_lines path hostname extra) < 100)%nat.
Proof.
  intros [Hp [Hh Hh0] He Hn]. split.
  - unfold connect_lines. apply Forall_app. split; [|apply Forall_map; eapply Forall_impl; [exact He|]; by intros [k v]].
    repeat apply Forall_cons_2; [..|constructor]; try by_decide.
    + constructor; try by_decide. cbn [l_value]. apply Forall_app. split; [by_decide|]. apply Forall_app. split; [done|by_decide].
    + constructor; try by_decide; done.
  - unfold connect_lines. rewrite length_app, length_map. cbn. lia.
Qed.

(** ** The answer of the server *)

Definition optional_line (name text : list Z) : list line :=
  if negb (lengthZ text =? 0) && (lengthZ text <? 200) then [mkLine name (chars ": ") text] else [].

Definition answer_lines (accept extensions subprotocol : list Z) : list line :=
  [mkLine (chars "HTTP/1.1") (chars " ") (chars "101 Switching Protocols");
   mkLine (chars "Upgrade") (chars ": ") (chars "websocket");
   mkLine (chars "Connection") (chars ": ") (chars "Upgrade");
   mkLine (chars "Sec-WebSocket-Accept") (chars ": ") accept] ++
  optional_line (chars "Sec-WebSocket-Extensions") extensions ++
  optional_line (chars "Sec-WebSocket-Protocol") subprotocol ++
  [mkLine (chars "Sec-WebSocket-Version") (chars ": ") (chars "13");
   mkLine (chars "WebSocket-Server") (chars ": ") (chars "uWebSockets")].

Lemma optional_text name text :
  concat (map line_text (optional_line name text)) = optional_header (name ++ chars ": ") text.
Proof.
  unfold optional_line, optional_header. destruct (_ && _); [|done]. cbn. unfold line_text. cbn. by rewrite app_nil_r, <- app_assoc.
Qed.

Lemma answer_head SHA1 secKey e p :
  answer_text SHA1 secKey e p = head_text (answer_lines (base64 (SHA1 (secKey ++ websocket_guid))) e p).
Proof.
  unfold head_text, answer_lines. rewrite !map_app, !concat_app, !optional_text. unfold answer_text.
  generalize (base64 (SHA1 (secKey ++ websocket_guid))). intros accept. cbn [map concat]. unfold line_text. cbn [l_key l_gap l_value].
  rewrite app_nil_r, <- !app_assoc. reflexivity.
Qed.

(** The characters of base64. *)
Definition visible (c : Z) : bool := no_cr c && negb (gap_char c) && (0 <=? c) && (c <? 256).

Lemma visible_spec c : visible c = true -> no_cr c = true /\ gap_char c = false /\ is_byte c.
Proof. unfold visible, is_byte. rewrite !andb_true_iff, negb_true_iff. intros [[[? ?] ?] ?]. split_and!; try done; lia. Qed.

Lemma b64_visible i : 0 <= i < 64 -> visible (b64_at i) = true.
Proof.
  intros Hi. assert (forallb (fun i => visible (b64_at i)) (seqZ 0 64) = true) as H by by vm_compute.
  rewrite forallb_forall in H. apply H, list_elem_of_In, elem_of_seqZ. lia.
Qed.

Lemma lor_below a b n : 0 <= n -> 0 <= a < 2 ^ n -> 0 <= b < 2 ^ n -> 0 <= Z.lor a b < 2 ^ n.
Proof.
  intros Hn Ha Hb. assert (Z.shiftr (Z.lor a b) n = 0) as E by (rewrite Z.shiftr_lor, !Z.shiftr_div_pow2, !Z.div_small by lia; done).
  rewrite Z.shiftr_div_pow2 in E by lia. assert (0 <= Z.lor a b) by (apply Z.lor_nonneg; lia).
  pose proof (Z.div_mod (Z.lor a b) (2 ^ n)). pose proof (Z.mod_pos_bound (Z.lor a b) (2 ^ n)). lia.
Qed.

(** The parts of a sextet that come from one byte. *)
Lemma sextet a n k : 0 <= n -> 0 <= k -> 0 <= Z.shiftl (Z.land a (Z.ones n)) k < 2 ^ (n + k).
Proof.
  intros Hn Hk. rewrite Z.land_ones, Z.shiftl_mul_pow2, Z.pow_add_r by lia. pose proof (Z.mod_pos_bound a (2 ^ n)). nia.
Qed.

Lemma sextet_top a m k n : Z.shiftr m k = Z.ones n -> 0 <= n -> 0 <= Z.shiftr (Z.land a m) k < 2 ^ n.
Proof. intros E Hn. rewrite Z.shiftr_land, E, Z.land_ones by lia. apply Z.mod_pos_bound. lia. Qed.

Lemma base64_visible src : Forall (fun c => visible c = true) (base64 src).
Proof.
  assert (forall a b, 0 <= Z.lor (Z.shiftl (Z.land a 3) 4) (Z.shiftr (Z.land b 240) 4) < 64) as H1.
  { intros a b. apply (lor_below _ _ 6); [lia|apply (sextet a 2 4); lia|]. pose proof (sextet_top b 240 4 4 eq_refl ltac:(lia)). lia. }
  assert (forall a b, 0 <= Z.lor (Z.shiftl (Z.land a 15) 2) (Z.shiftr (Z.land b 192) 6) < 64) as H2.
  { intros a b. apply (lor_below _ _ 6); [lia|apply (sextet a 4 2); lia|]. pose proof (sextet_top b 192 6 2 eq_refl ltac:(lia)). lia. }
  assert (forall a, 0 <= Z.land a 63 < 64) as H3 by (intros a; pose proof (sextet a 6 0 ltac:(lia) ltac:(lia)) as H; by rewrite Z.shiftl_0_r in H).
  assert (forall a, 0 <= Z.shiftl (Z.land a 15) 2 < 64) as H4 by (intros a; apply (sextet a 4 2); lia).
  assert (forall i, Forall (fun c => visible c = true) (base64_group src i)) as Hg by (intros i; repeat constructor; by apply b64_visible).
  unfold base64. apply Forall_app. split; [|repeat constructor; by apply b64_visible].
  apply Forall_concat, Forall_map, Forall_true, Hg.
Qed.

(** Values that can stand in a header. *)
Definition value_ok (v : list Z) : Prop := Forall (fun c => no_cr c = true) v /\ gap_char (hd 13 v) = false.

Lemma optional_line_ok name text : Forall (fun c => key_char c = true) name -> value_ok text -> Forall line_ok (optional_line name text).
Proof. intros Hn [Hv Hs]. unfold optional_line. destruct (_ && _); [|constructor]. constructor; [|constructor]. by constructor; try by_decide. Qed.

Lemma generateOffer_ok options : value_ok (generateOffer options).
Proof. unfold generateOffer. repeat case_match; by_decide. Qed.

Lemma answer_parsed SHA1 secKey e p : value_ok e -> value_ok p ->
  parse 100 true (answer_text SHA1 secKey e p) = Some (map lower_line (answer_lines (base64 (SHA1 (secKey ++ websocket_guid))) e p), []).
Proof.
  intros He Hp. rewrite answer_head, <- (app_nil_r (head_text _)). pose proof (base64_visible (SHA1 (secKey ++ websocket_guid))) as Ha.
  generalize dependent (base64 (SHA1 (secKey ++ websocket_guid))). intros accept Ha. apply parse_head.
  - unfold answer_lines. rewrite !Forall_app. split_and!; [|by apply optional_line_ok; [by_decide|]..|by_decide].
    repeat apply Forall_cons_2; [by_decide..| |constructor]. constructor; try by_decide; cbn [l_value].
    + eapply Forall_impl; [exact Ha|]. by intros c [? _]%visible_spec.
    + destruct Ha as [|c accept Hc _]; [done|]. by apply visible_spec in Hc as [_ [? _]].
  - unfold answer_lines, optional_line. rewrite !length_app. cbn. repeat case_match; cbn; lia.
Qed.

Lemma answer_bytes SHA1 secKey e p : Forall is_byte e -> Forall is_byte p -> Forall is_byte (answer_text SHA1 secKey e p).
Proof.
  intros He Hp. unfold answer_text. rewrite !Forall_app. split_and!; [by_decide| |by_decide| | |by_decide].
  - eapply Forall_impl; [apply base64_visible|]. by intros c (_ & _ & ?)%visible_spec.
  - unfold optional_header. destruct (_ && _); [|constructor]. rewrite !Forall_app. split_and!; [by_decide|done|by_decide].
  - unfold optional_header. destruct (_ && _); [|constructor]. rewrite !Forall_app. split_and!; [by_decide|done|by_decide].
Qed.

Lemma generateOffer_bytes options : Forall is_byte (generateOffer options).
Proof. unfold generateOffer. repeat case_match; by_decide. Qed.

Lemma answer_short SHA1 secKey e p : lengthZ (answer_text SHA1 secKey e p) <= MAX_HEADER_BUFFER_SIZE.
Proof.
  unfold answer_text, MAX_HEADER_BUFFER_SIZE. rewrite !lengthZ_app, base64_length.
  pose proof (optional_header_length (chars "Sec-WebSocket-Extensions: ") e). pose proof (optional_header_length (chars "Sec-WebSocket-Protocol: ") p).
  change (lengthZ upgrade_start) with 97. change (lengthZ crlf) with 2. change (lengthZ stamp) with 60.
  change (lengthZ (chars "Sec-WebSocket-Extensions: ")) with 26 in *. change (lengthZ (chars "Sec-WebSocket-Protocol: ")) with 24 in *. lia.
Qed.

(** ** Values of the extra headers *)

Definition extra_value (name : list Z) (extraHeaders : list (list Z * list Z)) : list Z :=
  default [] (l_value <$> lookup_line name (map lower_line (map (fun '(k, v) => mkLine k (chars ": ") v) extraHeaders))).

Lemma extra_value_forall (P : list Z -> Prop) name extra : P [] -> Forall (fun '(k, v) => P v) extra -> P (extra_value name extra).
Proof.
  intros H0 H. unfold extra_value, lookup_line. induction H as [|[k v] extra Hv _ IH]; [done|]. cbn. case_bool_decide; [done|exact IH].
Qed.

Lemma connect_headers path hostname extra :
  let ls := map lower_line (connect_lines path hostname extra) in
  header_of (chars "upgrade") ls = Some (chars "websocket") /\
  header_of (chars "sec-websocket-key") ls = Some randomKey /\
  default [] (header_of (chars "sec-websocket-extensions") ls) = extra_value (chars "sec-websocket-extensions") extra /\
  default [] (header_of (chars "sec-websocket-protocol") ls) = extra_value (chars "sec-websocket-protocol") extra.
Proof. split_and!; reflexivity. Qed.

Lemma connect_extra_bytes path hostname extra : Forall is_byte (connect_request path hostname extra) -> Forall (fun '(_, v) => Forall is_byte v) extra.
Proof.
  unfold connect_request. rewrite !Forall_app. intros H. destruct_and! H.
  match goal with Hc : Forall is_byte (concat _) |- _ => rename Hc into He end.
  rewrite Forall_concat, Forall_map in He. eapply Forall_impl; [exact He|]. intros [k v]. cbn. rewrite !Forall_app. tauto.
Qed.

(** ** The WebSocket begins *)

Section Start.
Context (isServer : bool) (rand : nat -> Z) (maxPayload : Z).
Context {K : Type} {HK : Kernel K} {HL : KernelLaws K} {U : Type} {HU : Application U} {HG : Greeter U} {D : Type} {HD : Zlib D}.
Implicit Types (h : HttpSocket K U).

(** A greeting that ends with at most one close. *)
Definition polite_greeting : Prop := forall request u, polite (snd (connectionHandler request u)).

(** An upgrade leads to an open connection, or the application gave it up at once.
    The arrays of the parser and the receive buffer may hold anything. *)
Definition opens (deflate : bool) (u : upshot) h : Prop :=
  match u with
  | StaysHttp => False
  | BecomesWebSocket perMessageDeflate request text cursor =>
      perMessageDeflate = deflate /\
      forall (d : D) recv spill0 mask0, lengthZ recv = LARGE_BUFFER_SIZE -> Forall is_byte recv ->
        lengthZ spill0 = LONG_MESSAGE_HEADER isServer - 1 -> (isServer = true -> lengthZ mask0 = 4 /\ Forall is_byte mask0) ->
        exists c, start_WebSocket isServer rand maxPayload request text cursor recv
                    (new_Connection perMessageDeflate h d text spill0 mask0) = Ok (tt, c) /\
          (is_gone (impl (receiver c)) = true \/ fresh isServer deflate c)
  end.

Lemma consume_nothing cursor (R : Receiver (WebSocket K U D)) : spillLength (wState R) = 0 -> wantsHead (wState R) = true ->
  consume (H := WebSocket_Impl isServer rand maxPayload) isServer cursor 0 R = Ok (tt, R).
Proof using. intros E1 E2. unfold consume, bind, get. rewrite E1. cbn [negb Z.eqb ret]. rewrite E2. by destruct isServer. Qed.

Lemma upgrade_opens deflate request text h : polite_greeting -> socket_ok (http_socket h) -> isClosed (http_socket h) = false ->
  shuttingDown (http_socket h) = false -> opens deflate (BecomesWebSocket deflate request text (lengthZ text)) h.
Proof using HL.
  intros Hpol Hok Hopen Hsd. split; [done|]. intros d recv spill0 mask0 Hrecv Hbytes Hspill Hmask.
  enough (wp nothing (start_WebSocket isServer rand maxPayload request text (lengthZ text) recv) (fun _ c => is_gone (impl (receiver c)) = true \/ fresh isServer deflate c)
    (new_Connection deflate h d text spill0 mask0)) as H by (apply wp_total in H as ([] & c & E & Hc); by exists c).
  set (w := new_WebSocket deflate h d). assert (ready_ws deflate w) as R by (constructor; try done; by destruct deflate).
  pose proof (call_handler_spec isServer rand deflate (connectionHandler request) w R (Hpol _ _)) as Hcall.
  unfold start_WebSocket. wp_step. unfold on_receiver at 1, on_impl. apply wp_lift, wp_lift. cbn [new_Connection receiver impl]. fold w.
  assert (wp nothing (call_handler isServer rand (connectionHandler request)) (fun _ w' => settled w (is_gone w') w') w) as Hcall2
    by (unfold wp, bind, get in Hcall |- *; by destruct (call_handler _ _ _ w) as [[? ?]| | |]).
  eapply wp_mono; [exact Hcall2|]. intros [] w' [_ Hw']. cbn [set_receiver set_impl]. wp_step. apply wp_get. unfold id. cbn [receiver impl].
  wp_step. set (c := set_receiver _ _). apply wp_mono with (fun _ c' => c' = c).
  - destruct (_ || _) eqn:Eg; [by apply wp_ret|]. apply wp_lift. rewrite Z.sub_diag. unfold wp. rewrite consume_nothing by done. by destruct c.
  - intros [] ? ->. apply wp_lift, wp_modify. destruct (is_gone w') eqn:Eg; [by left|right].
    specialize (Hw' eq_refl). pose proof (steady_ready _ _ _ R Hw') as R'. destruct Hw' as (s & n & u & -> & _).
    constructor; cbn; try done. by exists spill0, mask0.
Qed.

End Start.

(** ** The theorem *)

(** A head in pieces that leads to an upgrade, given that it does in one piece. *)
Lemma pieces_upgrade {K U} {HK : Kernel K} {HA : HttpApplication U} isServer options SHA1 chunks text ls (s : HttpSocket K U)
    (Q : upshot -> HttpSocket K U -> Prop) :
  concat chunks = text -> Forall (fun c => c <> []) chunks -> text <> [] -> parse 100 true text = Some (ls, []) ->
  Forall is_byte text -> lengthZ text <= MAX_HEADER_BUFFER_SIZE -> http_fresh s ->
  (forall u t t', same t t' -> Q u t -> Q u t') -> wp nothing (HttpSocket.onData isServer options SHA1 text) Q s ->
  exists u s', read_chunks isServer options SHA1 chunks s = Ok (u, s') /\ Q u s'.
Proof.
  intros E Hne Htext Hp Hb Hlen [_ _ Eb Ec] HQ H. apply wp_total in H as (u & t & Et & Hu).
  assert (chunks <> []) as Hch by (intros ->; by subst).
  pose proof (onData_in_pieces isServer options SHA1 chunks text ls s E Hne Hch Hp Hb Hlen Eb Ec) as Hs. rewrite Et in Hs.
  unfold same_outcome in Hs. destruct (read_chunks _ _ _ _ s) as [[u' t']| | |]; try done. destruct Hs as [-> Hs]. exists u, t'.
  split; [done|]. by apply (HQ u t t').
Qed.


(** ** An example *)

#[local] Instance plain_http : HttpApplication (list (Z * list Z)) := {
  httpRequestHandler := None;
  httpDataHandler := fun _ _ _ u => (u, []);
  httpUpgradeHandler := None;
  httpCancelledRequestHandler := fun _ u => u;
  httpDisconnectionHandler := fun u => u;
  errorHandler := fun u => u
}.

#[local] Instance hello : Greeter (list (Z * list Z)) := fun _ u => (u, [Send (chars "hello") TEXT NoCallback]).

Lemma hello_polite : polite_greeting.
Proof. intros request u. cbn. split_and!; try done. by_decide. Qed.

Definition fresh_http : HttpSocket (list Z) (list (Z * list Z)) := mkHttpSocket new_socket ∅ 0 None None None [] 0 false true [].

Lemma fresh_http_ok : http_fresh fresh_http.
Proof. constructor; try done. constructor; [done|by left|done]. Qed.

Definition sample_extra : list (list Z * list Z) := [(chars "Sec-WebSocket-Extensions", browser_offer)].

(** The request in three pieces. *)
Definition sample_request : list (list Z) :=
  let l := connect_request (chars "chat") (chars "example.org") sample_extra in [slice l 0 10; slice l 10 30; slice l 40 1000].

