(* ===== verification/Json.v ===== *)
(** * JSON values and the lexer

    The bundled JSON library, src/libjson/include/json.hpp (other directories hold
    copies of it): the values, the exceptions, the two input adapters and the class
    lexer. *)

From S2P Require Import Prelude CLib Memory Buffer.

(** ** The C library

    The floating-point numbers of the library and the functions on them.  strtod
    also returns how many characters it converts; [snprintf_g] is "%.*g" with
    digits10.  localeconv gives the characters of the locale, which need not be
    there. *)
Class Floats (F : Type) := {
  float_zero : F;
  isfinite : F -> bool;
  isnan : F -> bool;
  strtod : list Z -> F * Z;
  snprintf_g : F -> list Z;
  locale_decimal_point : option Z;
  locale_thousands_sep : option Z
}.

(** ** Values *)

(** basic_json.  A string is its bytes; an object, a std::map, is the list of its
    members in the order of their keys. *)
#[warnings="-register-all"]
Inductive json (F : Type) : Type :=
| j_null
| j_boolean (b : bool)
| j_number_integer (n : Z)
| j_number_unsigned (n : Z)
| j_number_float (x : F)
| j_string (s : list Z)
| j_array (l : list (json F))
| j_object (m : list (list Z * json F))
| j_discarded.
Arguments j_null {F}.
Arguments j_boolean {F} b.
Arguments j_number_integer {F} n.
Arguments j_number_unsigned {F} n.
Arguments j_number_float {F} x.
Arguments j_string {F} s.
Arguments j_array {F} l.
Arguments j_object {F} m.
Arguments j_discarded {F}.

Definition is_discarded {F} (j : json F) : bool := match j with j_discarded => true | _ => false end.

(** std::less<std::string>: bytes are compared as unsigned characters. *)
Fixpoint string_less (a b : list Z) : bool :=
  match a, b with
  | _, [] => false
  | [], _ :: _ => true
  | x :: a, y :: b => if x <? y then true else if y <? x then false else string_less a b
  end.

(** std::map::emplace: a key that is there keeps its value. *)
Fixpoint emplace {V} (k : list Z) (v : V) (m : list (list Z * V)) : list (list Z * V) :=
  match m with
  | [] => [(k, v)]
  | (k', v') :: m' =>
      if string_less k k' then (k, v) :: m
      else if string_less k' k then (k', v') :: emplace k v m'
      else m
  end.

(** ** Exceptions *)

Inductive exception :=
| parse_error_exception (id byte : Z) (what : list Z)
| out_of_range_exception (id : Z) (what : list Z).

Definition exception_name (ename : list Z) (id : Z) : list Z :=
  chars "[json.exception." ++ ename ++ chars "." ++ to_string id ++ chars "] ".

Definition parse_error_create (id byte : Z) (what_arg : list Z) : exception :=
  parse_error_exception id byte
    (exception_name (chars "parse_error") id ++ chars "parse error" ++
     (if negb (byte =? 0) then chars " at " ++ to_string byte else []) ++ chars ": " ++ what_arg).

Definition out_of_range_create (id : Z) (what_arg : list Z) : exception :=
  out_of_range_exception id (exception_name (chars "out_of_range") id ++ what_arg).

(** ** Input adapters *)

(** std::char_traits<char>::eof() *)
Definition EOF : Z := -1.

(** input_adapter_protocol *)
Class InputAdapter (A : Type) := {
  get_character : M A Z;
  adapter_read (offset length : Z) : M A (list Z)
}.

Definition byte_order_mark : list Z := [0xEF; 0xBB; 0xBF].

(** input_buffer_adapter: [cursor] counts from the start. *)
Record input_buffer_adapter := mkInputBuffer { buffer_start : list Z; cursor : Z }.

Definition new_input_buffer_adapter (b : list Z) : input_buffer_adapter :=
  mkInputBuffer b (if bool_decide (take 3 b = byte_order_mark) then 3 else 0).

Definition buffer_get_character : M input_buffer_adapter Z :=
  a <- get id ;;
  if cursor a <? lengthZ (buffer_start a) then
    modify (fun a => mkInputBuffer (buffer_start a) (cursor a + 1)) ;;
    ret (Z.land (byte_at (buffer_start a) (cursor a)) 0xFF)
  else ret EOF.

Definition buffer_read (offset length : Z) : M input_buffer_adapter (list Z) :=
  a <- get id ;;
  let max_length := lengthZ (buffer_start a) in
  let n := Z.min length (u64 (max_length - offset)) in
  require (in_block (buffer_start a) offset n) ;;
  ret (slice (buffer_start a) offset n).

#[global] Instance input_buffer_protocol : InputAdapter input_buffer_adapter := {
  get_character := buffer_get_character;
  adapter_read := buffer_read
}.

(** A std::istream: its characters, the position, and whether a read came to the
    end, after which reads give nothing. *)
Record istream := mkIstream { stream : list Z; position : Z; failed : bool }.

Definition istream_read (n : Z) : M istream (list Z) :=
  i <- get id ;;
  if failed i then ret [] else
  let bs := slice (stream i) (position i) n in
  modify (fun i => mkIstream (stream i) (position i + lengthZ bs) (lengthZ bs <? n)) ;;
  ret bs.

(** cached_input_stream_adapter<BufferSize> *)
Record cached_input_stream_adapter := mkInputStream {
  is_ : istream;
  start_position : Z;
  processed_chars : Z;
  buffer_pos : Z;
  eof : bool;
  fill_size : Z;
  buffer : list Z
}.

Definition fill_buffer (BufferSize : Z) : M cached_input_stream_adapter unit :=
  bs <- lift is_ (fun i a => mkInputStream i (start_position a) (processed_chars a) (buffer_pos a) (eof a) (fill_size a) (buffer a))
          (istream_read BufferSize) ;;
  modify (fun a => mkInputStream (is_ a) (start_position a) (processed_chars a) (buffer_pos a) (eof a) (lengthZ bs) (splice (buffer a) 0 bs)).

(** The constructor and the destructor. *)
Definition new_cached_input_stream_adapter (BufferSize : Z) (i : istream) : outcome cached_input_stream_adapter :=
  let skip_mark :=
    fill_buffer BufferSize ;;
    a <- get id ;;
    if (3 <=? fill_size a) && bool_decide (take 3 (buffer a) = byte_order_mark) then
      modify (fun a => mkInputStream (is_ a) (start_position a) (processed_chars a + 3) (buffer_pos a + 3) (eof a) (fill_size a) (buffer a))
    else ret tt in
  outcome_map snd (skip_mark (mkInputStream i (position i) 0 0 false 0 (replicate (Z.to_nat BufferSize) 0))).

Definition delete_cached_input_stream_adapter (a : cached_input_stream_adapter) : istream :=
  mkIstream (stream (is_ a)) (Z.min (start_position a + processed_chars a) (lengthZ (stream (is_ a)))) false.

Definition stream_get_character (BufferSize : Z) : M cached_input_stream_adapter Z :=
  let next :=
    a <- get id ;;
    modify (fun a => mkInputStream (is_ a) (start_position a) (processed_chars a + 1) (buffer_pos a) (eof a) (fill_size a) (buffer a)) ;;
    CHECK (buffer_pos a <? BufferSize) ;;
    modify (fun a => mkInputStream (is_ a) (start_position a) (processed_chars a) (buffer_pos a + 1) (eof a) (fill_size a) (buffer a)) ;;
    ret (Z.land (byte_at (buffer a) (buffer_pos a)) 0xFF) in
  a <- get id ;;
  if (buffer_pos a =? fill_size a) && negb (eof a) then
    fill_buffer BufferSize ;;
    a <- get id ;;
    if fill_size a =? 0 then
      modify (fun a => mkInputStream (is_ a) (start_position a) (processed_chars a) (buffer_pos a) true (fill_size a) (buffer a)) ;;
      ret EOF
    else
      modify (fun a => mkInputStream (is_ a) (start_position a) (processed_chars a) 0 (eof a) (fill_size a) (buffer a)) ;;
      next
  else next.

(** Reads from the given position of the stream, which is then put back. *)
Definition stream_read (offset length : Z) : M cached_input_stream_adapter (list Z) :=
  a <- get id ;;
  let bs := slice (stream (is_ a)) offset length in
  ret (bs ++ replicate (Z.to_nat (length - lengthZ bs)) 0).

Definition stream_protocol (BufferSize : Z) : InputAdapter cached_input_stream_adapter := {|
  get_character := stream_get_character BufferSize;
  adapter_read := stream_read
|}.

(** ** The lexer *)

Inductive token_type :=
| uninitialized | literal_true | literal_false | literal_null | value_string | value_unsigned | value_integer | value_float
| begin_array | begin_object | end_array | end_object | name_separator | value_separator | parse_error | end_of_input
| literal_or_value.

#[global] Instance token_type_eq : EqDecision token_type.
Proof. solve_decision. Defined.

Definition token_type_name (t : token_type) : list Z :=
  match t with
  | uninitialized => chars "<uninitialized>"
  | literal_true => chars "true literal"
  | literal_false => chars "false literal"
  | literal_null => chars "null literal"
  | value_string => chars "string literal"
  | value_unsigned | value_integer | value_float => chars "number literal"
  | begin_array => chars "'['"
  | begin_object => chars "'{'"
  | end_array => chars "']'"
  | end_object => chars "'}'"
  | name_separator => chars "':'"
  | value_separator => chars "','"
  | parse_error => chars "<parse error>"
  | end_of_input => chars "end of input"
  | literal_or_value => chars "'[', '{', or a literal"
  end.

(** [yytext] is the first yylen bytes of the vector, which grows as needed. *)
Record lexer (A F : Type) := mkLexer {
  ia : A;
  current : Z;
  next_unget : bool;
  chars_read : Z;
  start_pos : Z;
  yytext : list Z;
  error_message : list Z;
  number_integer : Z;
  number_unsigned : Z;
  number_float : F
}.
Arguments mkLexer {A F}.
Arguments ia {A F}.
Arguments current {A F}.
Arguments next_unget {A F}.
Arguments chars_read {A F}.
Arguments start_pos {A F}.
Arguments yytext {A F}.
Arguments error_message {A F}.
Arguments number_integer {A F}.
Arguments number_unsigned {A F}.
Arguments number_float {A F}.

Section Lexer.
Context {A F : Type} {HA : InputAdapter A} {HF : Floats F}.
#[local] Abbreviation L := (lexer A F).

Definition set_ia x (l : L) : L := mkLexer x (current l) (next_unget l) (chars_read l) (start_pos l) (yytext l) (error_message l) (number_integer l) (number_unsigned l) (number_float l).
Definition set_current x (l : L) : L := mkLexer (ia l) x (next_unget l) (chars_read l) (start_pos l) (yytext l) (error_message l) (number_integer l) (number_unsigned l) (number_float l).
Definition set_next_unget x (l : L) : L := mkLexer (ia l) (current l) x (chars_read l) (start_pos l) (yytext l) (error_message l) (number_integer l) (number_unsigned l) (number_float l).
Definition set_chars_read x (l : L) : L := mkLexer (ia l) (current l) (next_unget l) x (start_pos l) (yytext l) (error_message l) (number_integer l) (number_unsigned l) (number_float l).
Definition set_start_pos x (l : L) : L := mkLexer (ia l) (current l) (next_unget l) (chars_read l) x (yytext l) (error_message l) (number_integer l) (number_unsigned l) (number_float l).
Definition set_yytext x (l : L) : L := mkLexer (ia l) (current l) (next_unget l) (chars_read l) (start_pos l) x (error_message l) (number_integer l) (number_unsigned l) (number_float l).
Definition set_error_message x (l : L) : L := mkLexer (ia l) (current l) (next_unget l) (chars_read l) (start_pos l) (yytext l) x (number_integer l) (number_unsigned l) (number_float l).
Definition set_number_integer x (l : L) : L := mkLexer (ia l) (current l) (next_unget l) (chars_read l) (start_pos l) (yytext l) (error_message l) x (number_unsigned l) (number_float l).
Definition set_number_unsigned x (l : L) : L := mkLexer (ia l) (current l) (next_unget l) (chars_read l) (start_pos l) (yytext l) (error_message l) (number_integer l) x (number_float l).
Definition set_number_float x (l : L) : L := mkLexer (ia l) (current l) (next_unget l) (chars_read l) (start_pos l) (yytext l) (error_message l) (number_integer l) (number_unsigned l) x.

Definition new_lexer (adapter : A) : L := mkLexer adapter EOF false 0 0 [] [] 0 0 float_zero.

Definition decimal_point_char : Z := match locale_decimal_point with Some c => c | None => 46 end.

(** *** Input management *)

Definition reset : M L unit := modify (fun l => set_yytext [] (set_start_pos (u64 (chars_read l - 1)) l)).

Definition lex_get : M L Z :=
  modify (fun l => set_chars_read (u64 (chars_read l + 1)) l) ;;
  l <- get id ;;
  if next_unget l then modify (set_next_unget false) ;; ret (current l)
  else c <- lift ia set_ia get_character ;; modify (set_current c) ;; ret c.

Definition add (c : Z) : M L unit := modify (fun l => set_yytext (yytext l ++ [u8 c]) l).

Definition fail_with (message : list Z) : M L token_type := modify (set_error_message message) ;; ret parse_error.

(** *** Strings *)

(** The value of a hexadecimal digit. *)
Definition hex_digit (c : Z) : option Z :=
  if (48 <=? c) && (c <=? 57) then Some (c - 0x30)
  else if (65 <=? c) && (c <=? 70) then Some (c - 0x37)
  else if (97 <=? c) && (c <=? 102) then Some (c - 0x57)
  else None.

Fixpoint get_codepoint_loop (factors : list Z) (codepoint : Z) : M L Z :=
  match factors with
  | [] => CHECK ((0 <=? codepoint) && (codepoint <=? 0xFFFF)) ;; ret codepoint
  | factor :: factors =>
      c <- lex_get ;;
      match hex_digit c with
      | Some d => get_codepoint_loop factors (codepoint + Z.shiftl d factor)
      | None => ret (-1)
      end
  end.

Definition get_codepoint : M L Z := l <- get id ;; CHECK (current l =? 117) ;; get_codepoint_loop [12; 8; 4; 0] 0.

Definition ill_formed : list Z := chars "invalid string: ill-formed UTF-8 byte".

Fixpoint range_loop (ranges : list (Z * Z)) : M L bool :=
  match ranges with
  | [] => ret true
  | (lo, hi) :: ranges =>
      c <- lex_get ;;
      if (lo <=? c) && (c <=? hi) then add c ;; range_loop ranges
      else modify (set_error_message ill_formed) ;; ret false
  end.

Definition next_byte_in_range (ranges : list (Z * Z)) : M L bool :=
  l <- get id ;; add (current l) ;; range_loop ranges.

(** The bytes of a code point. *)
Definition add_codepoint (codepoint : Z) : M L unit :=
  CHECK ((0 <=? codepoint) && (codepoint <=? 0x10FFFF)) ;;
  if codepoint <? 0x80 then add codepoint
  else if codepoint <=? 0x7ff then
    add (Z.lor 0xC0 (Z.shiftr codepoint 6)) ;;
    add (Z.lor 0x80 (Z.land codepoint 0x3F))
  else if codepoint <=? 0xffff then
    add (Z.lor 0xE0 (Z.shiftr codepoint 12)) ;;
    add (Z.lor 0x80 (Z.land (Z.shiftr codepoint 6) 0x3F)) ;;
    add (Z.lor 0x80 (Z.land codepoint 0x3F))
  else
    add (Z.lor 0xF0 (Z.shiftr codepoint 18)) ;;
    add (Z.lor 0x80 (Z.land (Z.shiftr codepoint 12) 0x3F)) ;;
    add (Z.lor 0x80 (Z.land (Z.shiftr codepoint 6) 0x3F)) ;;
    add (Z.lor 0x80 (Z.land codepoint 0x3F)).

Definition four_digits : list Z := chars "invalid string: '\u' must be followed by 4 hex digits".

Definition lone_surrogate : list Z := chars "invalid string: surrogate U+DC00..U+DFFF must be followed by U+DC00..U+DFFF".

(** [Some t]: the scanner returns [t]. *)
Definition fails (message : list Z) : M L (option token_type) := t <- fail_with message ;; ret (Some t).

(** The escape of a code point, behind the letter u. *)
Definition scan_unicode : M L (option token_type) :=
  codepoint1 <- get_codepoint ;;
  if codepoint1 =? -1 then fails four_digits
  else if (0xD800 <=? codepoint1) && (codepoint1 <=? 0xDBFF) then
    c <- lex_get ;;
    if negb (c =? 92) then fails lone_surrogate else
    c <- lex_get ;;
    if negb (c =? 117) then fails lone_surrogate else
    codepoint2 <- get_codepoint ;;
    if codepoint2 =? -1 then fails four_digits
    else if (0xDC00 <=? codepoint2) && (codepoint2 <=? 0xDFFF) then
      add_codepoint (Z.shiftl codepoint1 10 + codepoint2 - 0x35FDC00) ;; ret None
    else fails lone_surrogate
  else if (0xDC00 <=? codepoint1) && (codepoint1 <=? 0xDFFF) then
    fails (chars "invalid string: surrogate U+DC00..U+DFFF must follow U+D800..U+DBFF")
  else add_codepoint codepoint1 ;; ret None.

(** The character an escape of one letter stands for. *)
Definition simple_escape (c : Z) : option Z :=
  if c =? 34 then Some 34
  else if c =? 92 then Some 92
  else if c =? 47 then Some 47
  else if c =? 98 then Some 8
  else if c =? 102 then Some 12
  else if c =? 110 then Some 10
  else if c =? 114 then Some 13
  else if c =? 116 then Some 9
  else None.

Definition scan_escape : M L (option token_type) :=
  c <- lex_get ;;
  match simple_escape c with
  | Some x => add x ;; ret None
  | None =>
      if c =? 117 then scan_unicode
      else fails (chars "invalid string: forbidden character after backslash")
  end.

Definition scan_ranges (ranges : list (Z * Z)) : M L (option token_type) :=
  b <- next_byte_in_range ranges ;; ret (if b : bool then None else Some parse_error).

(** One round of the loop: the switch over a character. *)
Definition scan_char (c : Z) : M L (option token_type) :=
  if c =? EOF then fails (chars "invalid string: missing closing quote")
  else if c =? 34 then ret (Some value_string)
  else if c =? 92 then scan_escape
  else if (0 <=? c) && (c <=? 0x1f) then fails (chars "invalid string: control character must be escaped")
  else if (0x20 <=? c) && (c <=? 0x7f) then add c ;; ret None
  else if (0xc2 <=? c) && (c <=? 0xdf) then scan_ranges [(0x80, 0xBF)]
  else if c =? 0xe0 then scan_ranges [(0xA0, 0xBF); (0x80, 0xBF)]
  else if ((0xe1 <=? c) && (c <=? 0xec)) || (c =? 0xee) || (c =? 0xef) then scan_ranges [(0x80, 0xBF); (0x80, 0xBF)]
  else if c =? 0xed then scan_ranges [(0x80, 0x9F); (0x80, 0xBF)]
  else if c =? 0xf0 then scan_ranges [(0x90, 0xBF); (0x80, 0xBF); (0x80, 0xBF)]
  else if (0xf1 <=? c) && (c <=? 0xf3) then scan_ranges [(0x80, 0xBF); (0x80, 0xBF); (0x80, 0xBF)]
  else if c =? 0xf4 then scan_ranges [(0x80, 0x8F); (0x80, 0xBF); (0x80, 0xBF)]
  else fails ill_formed.

Definition scan_string_round (_ : unit) : M L (unit + token_type) :=
  c <- lex_get ;; t <- scan_char c ;; ret (match t with None => inl tt | Some t => inr t end).

Definition scan_string (fuel : nat) : M L token_type :=
  reset ;;
  l <- get id ;;
  CHECK (current l =? 34) ;;
  iter fuel scan_string_round tt.

(** *** Numbers *)

(** The labels of the state machine. *)
Inductive number_label := at_minus | at_zero | at_any1 | at_decimal1 | at_decimal2 | at_exponent | at_sign | at_any2.

(** From [scan_number_done] on. *)
Definition scan_number_done (number_type : token_type) : M L token_type :=
  modify (fun l => set_next_unget true (set_chars_read (u64 (chars_read l - 1)) l)) ;;
  l <- get id ;;
  let as_float :=
    let '(x, n) := strtod (yytext l) in
    modify (set_number_float x) ;;
    CHECK (n =? lengthZ (yytext l)) ;;
    ret value_float in
  match number_type with
  | value_unsigned =>
      let '(x, rest) := strtoull (yytext l) in
      CHECK (bool_decide (rest = [])) ;;
      match x with
      | Some x => modify (set_number_unsigned x) ;; ret value_unsigned
      | None => as_float
      end
  | value_integer =>
      let '(x, rest) := strtoll (yytext l) in
      CHECK (bool_decide (rest = [])) ;;
      match x with
      | Some x => modify (set_number_integer x) ;; ret value_integer
      | None => as_float
      end
  | _ => as_float
  end.

Definition is_exponent (c : Z) : bool := (c =? 101) || (c =? 69).

(** What a label makes of the next character: [inl] the label to go to and the
    character to add, [inr] the message of an error, or the end of the number. *)
Definition number_switch (label : number_label) (c : Z) : (number_label * Z) + option (list Z) :=
  match label with
  | at_minus =>
      if c =? 48 then inl (at_zero, c)
      else if digit c then inl (at_any1, c)
      else inr (Some (chars "invalid number; expected digit after '-'"))
  | at_zero =>
      if c =? 46 then inl (at_decimal1, decimal_point_char)
      else if is_exponent c then inl (at_exponent, c)
      else inr None
  | at_any1 =>
      if digit c then inl (at_any1, c)
      else if c =? 46 then inl (at_decimal1, decimal_point_char)
      else if is_exponent c then inl (at_exponent, c)
      else inr None
  | at_decimal1 =>
      if digit c then inl (at_decimal2, c)
      else inr (Some (chars "invalid number; expected digit after '.'"))
  | at_decimal2 =>
      if digit c then inl (at_decimal2, c)
      else if is_exponent c then inl (at_exponent, c)
      else inr None
  | at_exponent =>
      if (c =? 43) || (c =? 45) then inl (at_sign, c)
      else if digit c then inl (at_any2, c)
      else inr (Some (chars "invalid number; expected '+', '-', or digit after exponent"))
  | at_sign =>
      if digit c then inl (at_any2, c)
      else inr (Some (chars "invalid number; expected digit after exponent sign"))
  | at_any2 =>
      if digit c then inl (at_any2, c)
      else inr None
  end.

(** The type of the number at a label. *)
Definition number_type_at (label : number_label) (number_type : token_type) : token_type :=
  match label with
  | at_minus => value_integer
  | at_decimal1 | at_exponent => value_float
  | _ => number_type
  end.

Definition scan_number_round (s : number_label * token_type) : M L ((number_label * token_type) + token_type) :=
  let '(label, number_type) := s in
  let number_type := number_type_at label number_type in
  c <- lex_get ;;
  match number_switch label c with
  | inl (label, x) => add x ;; ret (inl (label, number_type))
  | inr (Some message) => t <- fail_with message ;; ret (inr t)
  | inr None => t <- scan_number_done number_type ;; ret (inr t)
  end.

Definition scan_number (fuel : nat) : M L token_type :=
  reset ;;
  l <- get id ;;
  let c := current l in
  CHECK ((c =? 45) || digit c) ;;
  add c ;;
  iter fuel scan_number_round (if c =? 45 then at_minus else if c =? 48 then at_zero else at_any1, value_unsigned).

(** *** Tokens *)

Fixpoint scan_literal_loop (text : list Z) (return_type : token_type) : M L token_type :=
  match text with
  | [] => ret return_type
  | x :: text =>
      c <- lex_get ;;
      if negb (c =? x) then fail_with (chars "invalid literal") else scan_literal_loop text return_type
  end.

Definition scan_literal (literal_text : list Z) (return_type : token_type) : M L token_type :=
  l <- get id ;;
  CHECK (current l =? byte_at literal_text 0) ;;
  scan_literal_loop (tl literal_text) return_type.

Definition is_whitespace (c : Z) : bool := (c =? 32) || (c =? 9) || (c =? 10) || (c =? 13).

Definition skip_round (_ : unit) : M L (unit + Z) :=
  c <- lex_get ;; ret (if is_whitespace c then inl tt else inr c).

Definition scan_switch (fuel : nat) (c : Z) : M L token_type :=
  if c =? 91 then ret begin_array
  else if c =? 93 then ret end_array
  else if c =? 123 then ret begin_object
  else if c =? 125 then ret end_object
  else if c =? 58 then ret name_separator
  else if c =? 44 then ret value_separator
  else if c =? 116 then scan_literal (chars "true") literal_true
  else if c =? 102 then scan_literal (chars "false") literal_false
  else if c =? 110 then scan_literal (chars "null") literal_null
  else if c =? 34 then scan_string fuel
  else if (c =? 45) || digit c then scan_number fuel
  else if (c =? 0) || (c =? EOF) then ret end_of_input
  else fail_with (chars "invalid literal").

Definition scan (fuel : nat) : M L token_type := c <- iter fuel skip_round tt ;; scan_switch fuel c.

(** The text of the last token, with control characters in a readable form. *)
Definition escape_control (c : Z) : list Z :=
  if (c =? 0) || (s8 c =? EOF) then []
  else if c <=? 0x1f then
    let h := map (fun d => if (97 <=? d) && (d <=? 102) then d - 32 else d) (print_number 16 c) in
    chars "<U+" ++ replicate (4 - length h) 48 ++ h ++ chars ">"
  else [c].

Definition get_token_string : M L (list Z) :=
  l <- get id ;;
  s <- lift ia set_ia (adapter_read (start_pos l) (u64 (chars_read l - start_pos l))) ;;
  ret (concat (map escape_control s)).

End Lexer.
