(* ===== verification/JsonParser.v ===== *)
(** * The parser of JSON

    The class parser of src/libjson/include/json.hpp: parse with its callback and
    accept. *)

From S2P Require Import Prelude CLib Memory Buffer Json.

Inductive parse_event_t := object_start | object_end | array_start | array_end | key | value.

(** How a function ends. *)
Inductive result (T : Type) := Returns (x : T) | Throws (e : exception).
Arguments Returns {T} x.
Arguments Throws {T} e.

(** Runs on when a call has not thrown. *)
Notation "'try' x := m 'in' k" := (bind m (fun r => match r with Returns x => k | Throws e => ret (Throws e) end))
  (at level 10, x name, m at level 99, k at level 200) : cpp_scope.

(** [cb_state] is what the callback keeps. *)
Record parser (A F U : Type) := mkParser {
  depth : Z;
  last_token : token_type;
  m_lexer : lexer A F;
  errored : bool;
  expected : token_type;
  cb_state : U
}.
Arguments mkParser {A F U}.
Arguments depth {A F U}.
Arguments last_token {A F U}.
Arguments m_lexer {A F U}.
Arguments errored {A F U}.
Arguments expected {A F U}.
Arguments cb_state {A F U}.

(** A callback gets the depth, the event and the value, which it may change. *)
Definition parser_callback_t (F U : Type) : Type := Z -> parse_event_t -> json F -> U -> bool * json F * U.

Section Parser.
Context {A F U : Type} {HA : InputAdapter A} {HF : Floats F}.
Context (callback : option (parser_callback_t F U)) (allow_exceptions : bool).
#[local] Abbreviation P := (parser A F U).

Definition set_depth x (p : P) : P := mkParser x (last_token p) (m_lexer p) (errored p) (expected p) (cb_state p).
Definition set_last_token x (p : P) : P := mkParser (depth p) x (m_lexer p) (errored p) (expected p) (cb_state p).
Definition set_m_lexer x (p : P) : P := mkParser (depth p) (last_token p) x (errored p) (expected p) (cb_state p).
Definition set_error x (p : P) : P := mkParser (depth p) (last_token p) (m_lexer p) true x (cb_state p).
Definition set_cb_state x (p : P) : P := mkParser (depth p) (last_token p) (m_lexer p) (errored p) (expected p) x.

Definition new_parser (adapter : A) (u : U) : P := mkParser 0 uninitialized (new_lexer adapter) false uninitialized u.

Definition on_lexer {T} (m : M (lexer A F) T) : M P T := lift m_lexer set_m_lexer m.

Definition get_token (fuel : nat) : M P token_type :=
  t <- on_lexer (scan fuel) ;; modify (set_last_token t) ;; ret t.

(** The text of throw_exception; position and text of the lexer are read. *)
Definition throw_exception : M P exception :=
  p <- get id ;;
  cause <- (if decide (last_token p = parse_error) then
              s <- on_lexer get_token_string ;; ret (error_message (m_lexer p) ++ chars "; last read: '" ++ s ++ chars "'")
            else ret (chars "unexpected " ++ token_type_name (last_token p))) ;;
  ret (parse_error_create 101 (chars_read (m_lexer p))
         (chars "syntax error - " ++ cause ++
          (if decide (expected p = uninitialized) then [] else chars "; expected " ++ token_type_name (expected p)))).

Definition expect (t : token_type) : M P (result bool) :=
  p <- get id ;;
  if decide (t = last_token p) then ret (Returns true) else
  modify (set_error t) ;;
  if allow_exceptions then e <- throw_exception ;; ret (Throws e) else ret (Returns false).

(** Calls the callback: the answer and the value it leaves. *)
Definition call (cb : parser_callback_t F U) (d : Z) (event : parse_event_t) (j : json F) : M P (bool * json F) :=
  p <- get id ;;
  let '(b, j, u) := cb d event j (cb_state p) in
  modify (set_cb_state u) ;; ret (b, j).

(** [callback(depth++, event, j)] and [callback(--depth, event, j)]. *)
Definition call_start (cb : parser_callback_t F U) (event : parse_event_t) (j : json F) : M P (bool * json F) :=
  p <- get id ;;
  require (fits_signed 32 (depth p + 1)) ;;
  modify (set_depth (depth p + 1)) ;;
  call cb (depth p) event j.

Definition call_end (cb : parser_callback_t F U) (event : parse_event_t) (j : json F) : M P (bool * json F) :=
  p <- get id ;;
  require (fits_signed 32 (depth p - 1)) ;;
  modify (set_depth (depth p - 1)) ;;
  call cb (depth p - 1) event j.

(** The start of an object or an array: whether it is kept, and the value. *)
Definition start_value (keep : bool) (event : parse_event_t) (empty : json F) : M P (bool * json F) :=
  if keep then
    match callback with
    | Some cb =>
        r <- call_start cb event j_discarded ;;
        let '(keep, j) := r in
        ret (keep, if keep : bool then empty else j)
    | None => ret (true, empty)
    end
  else ret (false, j_discarded).

(** The end: a value that the callback rejects is discarded. *)
Definition end_value (cond : bool) (event : parse_event_t) (j : json F) : M P (json F) :=
  match callback with
  | Some cb =>
      if cond then r <- call_end cb event j ;; let '(b, j) := r in ret (if b : bool then j else j_discarded)
      else ret j
  | None => ret j
  end.

(** Whether the member of a key is kept. *)
Definition keep_member (keep : bool) (k : list Z) : M P bool :=
  if keep then
    match callback with
    | Some cb => p <- get id ;; r <- call cb (depth p) key (j_string k) ;; ret (fst r)
    | None => ret true
    end
  else ret false.

(** [result.m_value.object->emplace] and [array->push_back]; a result of another
    type has no such member. *)
Definition object_emplace (k : list Z) (v : json F) (j : json F) : M P (json F) :=
  match j with j_object m => ret (j_object (emplace k v m)) | _ => undef end.

Definition array_push_back (v : json F) (j : json F) : M P (json F) :=
  match j with j_array l => ret (j_array (l ++ [v])) | _ => undef end.

Section Rounds.
(** [rec]: parse_internal for the values inside. *)
Context (fuel : nat) (rec : bool -> M P (result (json F))) (keep : bool).

(** What follows a value: [Some true] for a comma, behind which the next token has
    been read, [Some false] for the closing token, [None] after an error. *)
Definition separator (closing : token_type) : M P (result (option bool)) :=
  t <- get_token fuel ;;
  if decide (t = value_separator) then get_token fuel ;; ret (Returns (Some true))
  else try ok := expect closing in ret (Returns (if ok : bool then Some false else None)).

(** A round of the loop over the members: [inl] the object to go on with, [inr] the
    object and whether its end was read. *)
Definition object_round (j : json F) : M P (json F + result (bool * json F)) :=
  r <- expect value_string ;;
  match r with
  | Throws e => ret (inr (Throws e))
  | Returns false => ret (inr (Returns (false, j)))
  | Returns true =>
      k <- get (fun p => yytext (m_lexer p)) ;;
      keep_tag <- keep_member keep k ;;
      get_token fuel ;;
      r <- expect name_separator ;;
      match r with
      | Throws e => ret (inr (Throws e))
      | Returns false => ret (inr (Returns (false, j)))
      | Returns true =>
          get_token fuel ;;
          r <- rec keep ;;
          p <- get id ;;
          match r with
          | Throws e => ret (inr (Throws e))
          | Returns v =>
              if errored p then ret (inr (Returns (false, j))) else
              j <- (if keep && keep_tag && negb (is_discarded v) then object_emplace k v j else ret j) ;;
              r <- separator end_object ;;
              ret (match r with
                   | Throws e => inr (Throws e)
                   | Returns None => inr (Returns (false, j))
                   | Returns (Some true) => inl j
                   | Returns (Some false) => inr (Returns (true, j))
                   end)
          end
      end
  end.

Definition array_round (j : json F) : M P (json F + result (bool * json F)) :=
  r <- rec keep ;;
  p <- get id ;;
  match r with
  | Throws e => ret (inr (Throws e))
  | Returns v =>
      if errored p then ret (inr (Returns (false, j))) else
      j <- (if keep && negb (is_discarded v) then array_push_back v j else ret j) ;;
      r <- separator end_array ;;
      ret (match r with
           | Throws e => inr (Throws e)
           | Returns None => inr (Returns (false, j))
           | Returns (Some true) => inl j
           | Returns (Some false) => inr (Returns (true, j))
           end)
  end.

End Rounds.

(** The last lines of parse_internal: the event of a value. *)
Definition value_event (keep : bool) (j : json F) : M P (result (json F)) :=
  match callback with
  | Some cb =>
      if keep then p <- get id ;; r <- call cb (depth p) value j ;; let '(b, j) := r in ret (Returns (if b : bool then j else j_discarded))
      else ret (Returns j)
  | None => ret (Returns j)
  end.

(** A scalar is the value of the last token. *)
Definition parse_scalar (keep : bool) : M P (result (json F)) :=
  p <- get id ;;
  let l := m_lexer p in
  match last_token p with
  | literal_null => value_event keep j_null
  | value_string => value_event keep (j_string (yytext l))
  | literal_true => value_event keep (j_boolean true)
  | literal_false => value_event keep (j_boolean false)
  | value_unsigned => value_event keep (j_number_unsigned (number_unsigned l))
  | value_integer => value_event keep (j_number_integer (number_integer l))
  | value_float =>
      if isfinite (number_float l) then value_event keep (j_number_float (number_float l))
      else if allow_exceptions then
        s <- on_lexer get_token_string ;;
        ret (Throws (out_of_range_create 406 (chars "number overflow parsing '" ++ s ++ chars "'")))
      else try _ := expect uninitialized in value_event keep (j_number_float (number_float l))
  | parse_error => try ok := expect uninitialized in if ok : bool then value_event keep j_discarded else ret (Returns j_discarded)
  | _ => try ok := expect literal_or_value in if ok : bool then value_event keep j_discarded else ret (Returns j_discarded)
  end.

(** The object or the array of the last token; [round] is the loop inside. *)
Definition parse_inside (fuel : nat) (keep : bool) (start end_ : parse_event_t) (empty : json F) (closing : token_type)
    (early : bool -> bool) (round : bool -> json F -> M P (json F + result (bool * json F))) : M P (result (json F)) :=
  s <- start_value keep start empty ;;
  let '(keep, j) := s in
  t <- get_token fuel ;;
  if decide (t = closing) then j <- end_value (early keep) end_ j ;; value_event keep j
  else
    try r := iter fuel (round keep) j in
    let '(closed, j) := r in
    if closed : bool then j <- end_value keep end_ j ;; value_event keep j
    else ret (Returns j).

(** The callback for the end of an empty array does not depend on [keep]. *)
Fixpoint parse_internal (n : nat) (fuel : nat) (keep : bool) : M P (result (json F)) :=
  match n with
  | O => fun _ => NoFuel
  | S n =>
      p <- get id ;;
      CHECK (negb (errored p)) ;;
      match last_token p with
      | begin_object => parse_inside fuel keep object_start object_end (j_object []) end_object (fun keep => keep) (object_round fuel (parse_internal n fuel))
      | begin_array => parse_inside fuel keep array_start array_end (j_array []) end_array (fun _ => true) (array_round fuel (parse_internal n fuel))
      | _ => parse_scalar keep
      end
  end.

Definition parse (fuel : nat) (strict : bool) : M P (result (json F)) :=
  get_token fuel ;;
  try j := parse_internal fuel fuel true in
  try _ := (if strict then get_token fuel ;; expect end_of_input else ret (Returns true)) in
  p <- get id ;;
  ret (Returns (if errored p then j_discarded else if is_discarded j then j_null else j)).

(** *** The acceptor *)

Section AcceptRounds.
Context (fuel : nat) (rec : M P bool).

(** What follows a value: [inl] to go on, [inr] whether the closing token was
    read. *)
Definition accept_separator (closing : token_type) : M P (unit + bool) :=
  t <- get_token fuel ;;
  if decide (t = value_separator) then get_token fuel ;; ret (inl tt) else ret (inr (bool_decide (t = closing))).

Definition accept_object_round (_ : unit) : M P (unit + bool) :=
  p <- get id ;;
  if decide (last_token p <> value_string) then ret (inr false) else
  t <- get_token fuel ;;
  if decide (t <> name_separator) then ret (inr false) else
  get_token fuel ;;
  call? rec else ret (inr false) in
  accept_separator end_object.

Definition accept_array_round (_ : unit) : M P (unit + bool) :=
  call? rec else ret (inr false) in
  accept_separator end_array.

End AcceptRounds.

Fixpoint accept_internal (n : nat) (fuel : nat) : M P bool :=
  match n with
  | O => fun _ => NoFuel
  | S n =>
      p <- get id ;;
      match last_token p with
      | begin_object =>
          t <- get_token fuel ;;
          if decide (t = end_object) then ret true else iter fuel (accept_object_round fuel (accept_internal n fuel)) tt
      | begin_array =>
          t <- get_token fuel ;;
          if decide (t = end_array) then ret true else iter fuel (accept_array_round fuel (accept_internal n fuel)) tt
      | value_float => ret (isfinite (number_float (m_lexer p)))
      | literal_false | literal_null | literal_true | value_integer | value_string | value_unsigned => ret true
      | _ => ret false
      end
  end.

Definition accept (fuel : nat) (strict : bool) : M P bool :=
  get_token fuel ;;
  call? accept_internal fuel fuel else ret false in
  if strict then t <- get_token fuel ;; ret (bool_decide (t = end_of_input)) else ret true.

End Parser.
