(* ===== verification/JsonDump.v ===== *)
(** * The serializer of JSON

    The class serializer and basic_json::dump of src/libjson/include/json.hpp. *)

From S2P Require Import Prelude CLib Memory Buffer Json.

(** ** Strings *)

(** [None] is std::string::npos. *)
Definition bytes_following (u : Z) : option Z :=
  if u <=? 127 then Some 0
  else if (192 <=? u) && (u <=? 223) then Some 1
  else if (224 <=? u) && (u <=? 239) then Some 2
  else if (240 <=? u) && (u <=? 247) then Some 3
  else None.

(** The characters that are escaped with a letter, and the letter. *)
Definition escape_letter (c : Z) : option Z :=
  if c =? 34 then Some 34
  else if c =? 92 then Some 92
  else if c =? 8 then Some 98
  else if c =? 12 then Some 102
  else if c =? 10 then Some 110
  else if c =? 13 then Some 114
  else if c =? 9 then Some 116
  else None.

Definition non_ascii (c : Z) : bool := bits_set c 0x80 || (c =? 0x7F).

Section Strings.
Context (ensure_ascii : bool) (s : list Z).

(** A round of extra_space at the index [i]: the index and the space behind it. *)
Definition extra_space_round (l : Z * Z) : M (list Z) ((Z * Z) + Z) :=
  let '(i, res) := l in
  if negb (i <? lengthZ s) then ret (inr res) else
  let c := byte_at s i in
  match escape_letter c with
  | Some _ => ret (inl (i + 1, res + 1))
  | None =>
      if c <=? 0x1f then ret (inl (i + 1, res + 5))
      else if ensure_ascii && non_ascii c then
        match bytes_following c with
        | None => ret (inl (i + 1, res))
        | Some bytes => ret (inl (i + bytes + 1, res + (if bytes =? 3 then 12 - bytes - 1 else 6 - bytes - 1)))
        end
      else ret (inl (i + 1, res))
  end.

Definition extra_space : M (list Z) Z := iter (S (length s)) extra_space_round (0, 0).

(** [result[++pos] = hexify[...]] for the four digits of a code unit: the new
    position. *)
Definition put_hex (unit_ pos : Z) : M (list Z) Z :=
  store (pos + 1) (digit_char (Z.land (Z.shiftr unit_ 12) 0x0F)) ;;
  store (pos + 2) (digit_char (Z.land (Z.shiftr unit_ 8) 0x0F)) ;;
  store (pos + 3) (digit_char (Z.land (Z.shiftr unit_ 4) 0x0F)) ;;
  store (pos + 4) (digit_char (Z.land unit_ 0x0F)) ;;
  ret (pos + 4).

Definition escape_codepoint (codepoint pos : Z) : M (list Z) Z :=
  CHECK ((0 <=? codepoint) && (codepoint <=? 0x10FFFF)) ;;
  c <- load pos ;;
  CHECK (c =? 92) ;;
  store (pos + 1) 117 ;;
  pos <- (if codepoint <? 0x10000 then put_hex codepoint (pos + 1)
          else
            let codepoint := codepoint - 0x10000 in
            let high_surrogate := Z.lor 0xD800 (Z.land (Z.shiftr codepoint 10) 0x3FF) in
            let low_surrogate := Z.lor 0xDC00 (Z.land codepoint 0x3FF) in
            pos <- put_hex high_surrogate (pos + 1) ;;
            store (pos + 2) 117 ;;
            put_hex low_surrogate (pos + 2)) ;;
  ret (pos + 1).

(** The code point of [bytes] + 1 bytes from the index [i] on. *)
Definition codepoint_at (i bytes : Z) : Z :=
  let b k := byte_at s (i + k) in
  if bytes =? 0 then Z.land (b 0) 0xFF
  else if bytes =? 1 then Z.shiftl (Z.land (b 0) 0x3F) 6 + Z.land (b 1) 0x7F
  else if bytes =? 2 then Z.shiftl (Z.land (b 0) 0x1F) 12 + Z.shiftl (Z.land (b 1) 0x7F) 6 + Z.land (b 2) 0x7F
  else Z.shiftl (Z.land (b 0) 0xF) 18 + Z.shiftl (Z.land (b 1) 0x7F) 12 + Z.shiftl (Z.land (b 2) 0x7F) 6 + Z.land (b 3) 0x7F.

(** A round of the loop over the string; the block is [result]. *)
Definition escape_round (l : Z * Z) : M (list Z) ((Z * Z) + Z) :=
  let '(i, pos) := l in
  if negb (i <? lengthZ s) then ret (inr pos) else
  let c := byte_at s i in
  match escape_letter c with
  | Some x =>
      (if x =? 92 then ret tt else store (pos + 1) x) ;;
      ret (inl (i + 1, pos + 2))
  | None =>
      if (c <=? 0x1f) || (ensure_ascii && non_ascii c) then
        match bytes_following c with
        | None => store pos c ;; ret (inl (i + 1, pos + 1))
        | Some bytes =>
            CHECK (i + bytes <? lengthZ s) ;;
            pos <- escape_codepoint (codepoint_at i bytes) pos ;;
            ret (inl (i + bytes + 1, pos))
        end
      else store pos c ;; ret (inl (i + 1, pos + 1))
  end.

(** The text that dump_escaped writes. *)
Definition escaped : M (list Z) (list Z) :=
  space <- extra_space ;;
  if space =? 0 then ret s else
  let size := lengthZ s + space in
  with_block (replicate (Z.to_nat size) 92)
    (pos <- iter (S (length s)) escape_round (0, 0) ;;
     CHECK (pos =? size) ;;
     load_bytes 0 size).

End Strings.

(** ** The serializer *)

(** [o] is what has been written. *)
Record serializer := mkSerializer { o : list Z; indent_string : list Z }.

Definition new_serializer (ichar : Z) : serializer := mkSerializer [] (replicate 512 ichar).

Definition write_characters (cs : list Z) : M serializer unit := modify (fun s => mkSerializer (o s ++ cs) (indent_string s)).

Definition dump_escaped (s : list Z) (ensure_ascii : bool) : M serializer unit :=
  cs <- with_block [] (escaped ensure_ascii s) ;; write_characters cs.

(** A round of the loop of dump_integer, with the number and what is in
    number_buffer. *)
Definition integer_round (l : Z * list Z) : M serializer ((Z * list Z) + list Z) :=
  let '(x, number_buffer) := l in
  if x =? 0 then ret (inr number_buffer) else
  CHECK (lengthZ number_buffer <? 63) ;;
  ret (inl (Z.quot x 10, number_buffer ++ [48 + Z.abs (Z.rem x 10)])).

Definition dump_integer (x : Z) : M serializer unit :=
  if x =? 0 then write_characters [48] else
  number_buffer <- iter 65 integer_round (x, []) ;;
  number_buffer <- (if x <? 0 then CHECK (lengthZ number_buffer <? 62) ;; ret (number_buffer ++ [45]) else ret number_buffer) ;;
  write_characters (rev number_buffer).

(** Replaces the first [a] by [b]. *)
Fixpoint replace_first (a b : Z) (l : list Z) : list Z :=
  match l with
  | [] => []
  | c :: l => if c =? a then b :: l else c :: replace_first a b l
  end.

(** The characters of the locale; a missing one is NUL. *)
Definition separator_char (c : option Z) : Z := match c with Some c => c | None => 0 end.

(** The number as dump_float writes it, without the part ".0". *)
Definition float_text {F} {HF : Floats F} (x : F) : list Z :=
  let text := snprintf_g x in
  let sep := separator_char locale_thousands_sep in
  let point := separator_char locale_decimal_point in
  let text := if sep =? 0 then text else filter (fun c => c <> sep) text in
  if (point =? 0) || (point =? 46) then text else replace_first point 46 text.

Definition dump_float {F} {HF : Floats F} (x : F) : M serializer unit :=
  if negb (isfinite x) || isnan x then write_characters (chars "null") else
  let len := lengthZ (snprintf_g x) in
  CHECK (0 <? len) ;;
  CHECK (len <? 64) ;;
  write_characters (float_text x) ;;
  if forallb (fun c => negb ((c =? 46) || (c =? 101))) (float_text x) then write_characters (chars ".0") else ret tt.

(** [indent_string.resize] in front of the elements of an object or an array. *)
Definition grow_indent (new_indent : Z) : M serializer unit :=
  s <- get id ;;
  let size := lengthZ (indent_string s) in
  if size <? new_indent then modify (fun s => mkSerializer (o s) (indent_string s ++ replicate (Z.to_nat size) 32)) else ret tt.

(** [write_characters(indent_string.c_str(), n)]; the terminating NUL is readable. *)
Definition write_indent (n : Z) : M serializer unit :=
  s <- get id ;;
  require (in_block (indent_string s ++ [0]) 0 n) ;;
  write_characters (slice (indent_string s ++ [0]) 0 n).

(** The first n - 1 elements, each followed by [sep], and the last one. *)
Fixpoint join (sep : list Z) (items : list (M serializer unit)) : M serializer unit :=
  match items with
  | [] => abort
  | [m] => m
  | m :: items => m ;; write_characters sep ;; join sep items
  end.

Fixpoint dump_value {F} {HF : Floats F} (val : json F) (pretty_print ensure_ascii : bool) (indent_step current_indent : Z) : M serializer unit :=
  match val with
  | j_object [] => write_characters (chars "{}")
  | j_object m =>
      if pretty_print then
        write_characters [123; 10] ;;
        let new_indent := u32 (current_indent + indent_step) in
        grow_indent new_indent ;;
        join [44; 10]
          (List.map (fun kv => let '(k, v) := kv in
             write_indent new_indent ;;
             write_characters [34] ;;
             dump_escaped k ensure_ascii ;;
             write_characters [34; 58; 32] ;;
             dump_value v true ensure_ascii indent_step new_indent) m) ;;
        write_characters [10] ;;
        write_indent current_indent ;;
        write_characters [125]
      else
        write_characters [123] ;;
        join [44]
          (List.map (fun kv => let '(k, v) := kv in
             write_characters [34] ;;
             dump_escaped k ensure_ascii ;;
             write_characters [34; 58] ;;
             dump_value v false ensure_ascii indent_step current_indent) m) ;;
        write_characters [125]
  | j_array [] => write_characters (chars "[]")
  | j_array l =>
      if pretty_print then
        write_characters [91; 10] ;;
        let new_indent := u32 (current_indent + indent_step) in
        grow_indent new_indent ;;
        join [44; 10] (List.map (fun v => write_indent new_indent ;; dump_value v true ensure_ascii indent_step new_indent) l) ;;
        write_characters [10] ;;
        write_indent current_indent ;;
        write_characters [93]
      else
        write_characters [91] ;;
        join [44] (List.map (fun v => dump_value v false ensure_ascii indent_step current_indent) l) ;;
        write_characters [93]
  | j_string s =>
      write_characters [34] ;;
      dump_escaped s ensure_ascii ;;
      write_characters [34]
  | j_boolean b => write_characters (if b then chars "true" else chars "false")
  | j_number_integer n => dump_integer n
  | j_number_unsigned n => dump_integer n
  | j_number_float x => dump_float x
  | j_discarded => write_characters (chars "<discarded>")
  | j_null => write_characters (chars "null")
  end.

(** basic_json::dump *)
Definition dump {F} {HF : Floats F} (val : json F) (indent indent_char : Z) (ensure_ascii : bool) : outcome (list Z) :=
  outcome_map (fun '(_, s) => o s)
    ((if 0 <=? indent then dump_value val true ensure_ascii indent 0 else dump_value val false ensure_ascii 0 0) (new_serializer indent_char)).
