(* ===== verification/JsonLexSpec.v ===== *)
(** * What the lexer of JSON promises

    The laws of input adapters and that both adapters satisfy them; the spelling of
    tokens as RFC 7159 has it, and that scan reads a token exactly when it is spelled
    there. *)

From S2P Require Import Prelude CLib Memory Buffer Utf8 Json.

(** ** Input adapters

    [feeds a m r]: the adapter has delivered [m] characters, and [r] is to come,
    until the end has been delivered. *)
Class AdapterLaws (A : Type) {HA : InputAdapter A} := {
  feeds : A -> Z -> option (list Z) -> Prop;
  feeds_next a m c r : feeds a m (Some (c :: r)) -> exists a', get_character a = Ok (c, a') /\ feeds a' (m + 1) (Some r);
  feeds_end a m : feeds a m (Some []) -> exists a', get_character a = Ok (EOF, a') /\ feeds a' m None;
  feeds_bytes a m r : feeds a m (Some r) -> Forall is_byte r;
  feeds_read a m r offset n : feeds a m r -> 0 <= offset <= m -> 0 <= n -> exists s a', adapter_read offset n a = Ok (s, a')
}.

Definition without_mark (text : list Z) : list Z := if bool_decide (take 3 text = byte_order_mark) then drop 3 text else text.

(** *** Buffers *)

Definition buffer_feeds (a : input_buffer_adapter) (m : Z) (r : option (list Z)) : Prop :=
  Forall is_byte (buffer_start a) /\ 0 <= m <= cursor a /\ cursor a <= lengthZ (buffer_start a) /\ lengthZ (buffer_start a) < 2 ^ 63 /\
  match r with Some r => drop (Z.to_nat (cursor a)) (buffer_start a) = r | None => True end.

Lemma land_ff c : is_byte c -> Z.land c 0xFF = c.
Proof. intros H. change 0xFF with (Z.ones 8). rewrite Z.land_ones by lia. by apply Z.mod_small. Qed.

Lemma drop_head l i c r : 0 <= i -> drop (Z.to_nat i) l = c :: r -> i < lengthZ l /\ byte_at l i = c /\ drop (Z.to_nat (i + 1)) l = r.
Proof.
  intros Hi E. assert (i < lengthZ l) as Hl.
  { destruct (Z.lt_ge_cases i (lengthZ l)); [done|]. rewrite drop_ge in E by (unfold lengthZ in *; lia). done. }
  split_and!; [done| |].
  - unfold byte_at. rewrite nth_lookup. replace (Z.to_nat i) with (Z.to_nat i + 0)%nat by lia. by rewrite <- lookup_drop, E.
  - replace (Z.to_nat (i + 1)) with (1 + Z.to_nat i)%nat by lia. by rewrite <- skipn_skipn, E.
Qed.

#[global] Program Instance input_buffer_laws : AdapterLaws input_buffer_adapter := {| feeds := buffer_feeds |}.
Next Obligation.
  intros a m c r (Hb & Hm & Hc0 & Hs & E). destruct (drop_head (buffer_start a) (cursor a) c r) as (Hl & Hc & E2); [lia|done|].
  exists (mkInputBuffer (buffer_start a) (cursor a + 1)). split.
  - cbn. unfold buffer_get_character, bind, get. cbn. rewrite (proj2 (Z.ltb_lt _ _)) by done. cbn. rewrite land_ff; [by rewrite Hc|].
    rewrite Hc. rewrite Forall_forall in Hb. apply Hb. rewrite <- (take_drop (Z.to_nat (cursor a)) (buffer_start a)), E. apply elem_of_app. right. by left.
  - unfold buffer_feeds. cbn. split_and!; try done; lia.
Qed.
Next Obligation.
  intros a m (Hb & Hm & Hc0 & Hs & E). exists a. split; [|done]. cbn. unfold buffer_get_character, bind, get. cbn.
  rewrite (proj2 (Z.ltb_ge _ _)); [done|]. apply (f_equal length) in E. rewrite length_drop in E. cbn in E. unfold lengthZ. lia.
Qed.
Next Obligation. intros a m r (Hb & _ & _ & _ & <-). by apply Forall_drop. Qed.
Next Obligation.
  intros a m r offset n (Hb & Hm & Hc0 & Hs & _) Ho Hn. cbn. unfold buffer_read, bind, get. cbn.
  rewrite uwrap_small by (unfold in_unsigned; lia).
  rewrite (proj2 (in_block_spec _ _ _)) by lia. cbn. eauto.
Qed.

Lemma new_input_buffer_feeds text : Forall is_byte text -> lengthZ text < 2 ^ 63 ->
  feeds (new_input_buffer_adapter text) 0 (Some (without_mark text)).
Proof.
  intros Hb Hl. unfold new_input_buffer_adapter, without_mark. cbn. unfold buffer_feeds. cbn. pose proof (lengthZ_nonneg text).
  destruct (bool_decide_reflect (take 3 text = byte_order_mark)) as [E|]; cbn; split_and!; try done; try lia.
  apply (f_equal length) in E. rewrite length_take in E. change (length byte_order_mark) with 3%nat in E. unfold lengthZ. lia.
Qed.

(** *** Streams *)

(** What is left of a stream. *)
Definition unread (i : istream) : list Z := if failed i then [] else drop (Z.to_nat (position i)) (stream i).

Record stream_ok (BufferSize : Z) (a : cached_input_stream_adapter) : Prop := {
  stream_bytes : Forall is_byte (stream (is_ a));
  stream_position : 0 <= position (is_ a) <= lengthZ (stream (is_ a));
  stream_end : failed (is_ a) = true -> position (is_ a) = lengthZ (stream (is_ a));
  stream_size : lengthZ (buffer a) = BufferSize;
  stream_fill : 0 <= buffer_pos a <= fill_size a /\ fill_size a <= BufferSize;
  stream_chars : Forall is_byte (slice (buffer a) (buffer_pos a) (fill_size a - buffer_pos a))
}.

Definition stream_feeds (BufferSize : Z) (a : cached_input_stream_adapter) (m : Z) (r : option (list Z)) : Prop :=
  match r with
  | Some r => 0 < BufferSize /\ stream_ok BufferSize a /\ eof a = false /\
      r = slice (buffer a) (buffer_pos a) (fill_size a - buffer_pos a) ++ unread (is_ a)
  | None => True
  end.

Lemma istream_read_spec BufferSize i : 0 < BufferSize -> 0 <= position i <= lengthZ (stream i) -> 
  exists bs i', istream_read BufferSize i = Ok (bs, i') /\ unread i = bs ++ unread i' /\ lengthZ bs <= BufferSize /\
    (bs = [] -> unread i = []) /\ (lengthZ bs < BufferSize -> unread i' = []) /\ stream i' = stream i /\ 0 <= position i' <= lengthZ (stream i) /\
    ((failed i = true -> position i = lengthZ (stream i)) -> failed i' = true -> position i' = lengthZ (stream i)).
Proof.
  intros HB Hp. unfold istream_read, bind, get, modify, ret, unread, id. destruct (failed i) eqn:Ef; cbn.
  { exists [], i. rewrite Ef, lengthZ_nil. cbn. split_and!; auto with lia. }
  pose proof (Z.lt_ge_cases (lengthZ (stream i) - position i) BufferSize) as Hc.
  assert (lengthZ (slice (stream i) (position i) BufferSize) = Z.min BufferSize (lengthZ (stream i) - position i)) as El.
  { unfold slice, lengthZ in *. rewrite length_take, length_drop. lia. }
  assert (slice (stream i) (position i) BufferSize ++ drop (Z.to_nat (position i + lengthZ (slice (stream i) (position i) BufferSize))) (stream i)
    = drop (Z.to_nat (position i)) (stream i)) as Eu.
  { rewrite El. unfold slice, lengthZ in *. rewrite <- (take_drop (Z.to_nat BufferSize) (drop (Z.to_nat (position i)) (stream i))) at 2. f_equal.
    rewrite skipn_skipn. destruct Hc; [rewrite !drop_ge by lia; done|]. f_equal. lia. }
  do 2 eexists. split; [done|]. cbn. rewrite El in *. split_and!; try done; try lia.
  - rewrite <- Eu. f_equal. destruct (Z.ltb_spec (Z.min BufferSize (lengthZ (stream i) - position i)) BufferSize); [|done].
    apply drop_ge. unfold lengthZ in *. lia.
  - intros E. rewrite <- Eu, E. cbn. rewrite E, lengthZ_nil in El. apply drop_ge. unfold lengthZ in *. lia.
  - intros Hlt. by rewrite (proj2 (Z.ltb_lt _ _)).
Qed.

Section Streams.
Context (BufferSize : Z).

Definition set_buffer_pos n a : cached_input_stream_adapter :=
  mkInputStream (is_ a) (start_position a) (processed_chars a) n (eof a) (fill_size a) (buffer a).

Lemma fill_buffer_spec a : 0 < BufferSize -> stream_ok BufferSize a -> exists a', fill_buffer BufferSize a = Ok (tt, a') /\
  unread (is_ a) = slice (buffer a') 0 (fill_size a') ++ unread (is_ a') /\ (fill_size a' = 0 -> unread (is_ a) = []) /\
  0 <= fill_size a' /\ (fill_size a' < BufferSize -> unread (is_ a') = []) /\ buffer_pos a' = buffer_pos a /\ eof a' = eof a /\ stream_ok BufferSize (set_buffer_pos 0 a').
Proof.
  intros HB [Hb Hp He Hs Hf Hc]. destruct (istream_read_spec BufferSize (is_ a)) as (bs & i' & E & Eu & Hl & Hn & Hx & Es & Hp' & He'); [done..|].
  assert (Forall is_byte (unread (is_ a))) as Hub by (unfold unread; destruct (failed _); [done|]; by apply Forall_drop).
  pose proof (lengthZ_nonneg bs). assert (in_block (buffer a) 0 (lengthZ bs) = true) as Hin by (apply in_block_spec; lia).
  unfold fill_buffer, bind, lift, modify. rewrite E. cbn. eexists. split; [done|]. cbn.
  rewrite splice_same by done. split_and!; try done.
  - intros E0. apply Hn. by apply lengthZ_0.
  - split; cbn; rewrite ?Es, ?Z.sub_0_r; try done; [by apply He'|by rewrite splice_length|rewrite splice_same by done].
    rewrite Eu in Hub. by apply Forall_app in Hub as [? _].
Qed.

(** [get_character] once the buffer has a character left. *)
Lemma stream_take a c r : stream_ok BufferSize a -> buffer_pos a < fill_size a ->
  c :: r = slice (buffer a) (buffer_pos a) (fill_size a - buffer_pos a) ++ unread (is_ a) ->
  c = Z.land (byte_at (buffer a) (buffer_pos a)) 0xFF /\ stream_ok BufferSize (set_buffer_pos (buffer_pos a + 1) a) /\
  r = slice (buffer a) (buffer_pos a + 1) (fill_size a - (buffer_pos a + 1)) ++ unread (is_ a).
Proof.
  intros [Hb Hp He Hs Hf Hc] Hlt E. rewrite slice_S in E, Hc by lia. cbn in E. injection E as -> ->. apply Forall_cons in Hc as [Hc Hr].
  rewrite land_ff by done. replace (fill_size a - (buffer_pos a + 1)) with (fill_size a - buffer_pos a - 1) by lia.
  split_and!; try done. split; cbn; try done; [lia|]. by replace (fill_size a - (buffer_pos a + 1)) with (fill_size a - buffer_pos a - 1) by lia.
Qed.

Lemma stream_feeds_next a m c r : stream_feeds BufferSize a m (Some (c :: r)) ->
  exists a', stream_get_character BufferSize a = Ok (c, a') /\ stream_feeds BufferSize a' (m + 1) (Some r).
Proof.
  intros (HB & Hok & He & E). unfold stream_get_character, bind, get. cbn. rewrite He.
  pose proof (stream_fill _ _ Hok) as [Hf1 Hf2]. destruct (Z.eqb_spec (buffer_pos a) (fill_size a)) as [Ep|Ep]; cbn.
  - destruct (fill_buffer_spec a HB Hok) as (a' & -> & Eu & Hz & Hf & _ & Epos & Ee & Hok').
    rewrite Ep, Z.sub_diag, slice_0 in E. cbn in E. destruct (Z.eqb_spec (fill_size a') 0) as [E0|E0]; [by rewrite Hz in E|].
    unfold modify, CHECK, ret. cbn. rewrite (proj2 (Z.ltb_lt 0 BufferSize)) by done. cbn.
    destruct (stream_take (set_buffer_pos 0 a') c r) as (Ec & Hok2 & Er); [done|cbn; lia|cbn; by rewrite Z.sub_0_r, <- Eu|]. cbn in *.
    eexists. rewrite <- Ec. split; [done|]. split_and!; try done; [by split; destruct Hok2|]. by rewrite <- He, <- Ee.
  - destruct (stream_take a c r) as (Ec & Hok2 & Er); [done|lia|done|]. unfold modify, CHECK, ret. cbn.
    rewrite (proj2 (Z.ltb_lt _ BufferSize)) by lia. cbn. eexists. rewrite <- Ec. split; [done|]. split_and!; try done. by split; destruct Hok2.
Qed.

Lemma stream_feeds_end a m : stream_feeds BufferSize a m (Some []) -> exists a', stream_get_character BufferSize a = Ok (EOF, a').
Proof.
  intros (HB & Hok & He & E). unfold stream_get_character, bind, get. cbn. rewrite He.
  pose proof (stream_fill _ _ Hok) as [Hf1 Hf2]. destruct (Z.eqb_spec (buffer_pos a) (fill_size a)) as [Ep|Ep]; cbn.
  - destruct (fill_buffer_spec a HB Hok) as (a' & -> & Eu & Hz & Hf & _ & Epos & Ee & Hok').
    rewrite Ep, Z.sub_diag, slice_0 in E. cbn in E. rewrite <- E in Eu. symmetry in Eu. apply app_nil in Eu as [Eu _].
    apply (f_equal lengthZ) in Eu. rewrite slice_length, lengthZ_nil in Eu by (destruct Hok' as [_ _ _ ? ? _]; cbn in *; lia).
    rewrite Eu. cbn. unfold modify, ret. eauto.
  - rewrite slice_S in E by (destruct Hok; lia). done.
Qed.

End Streams.

#[global] Program Instance stream_laws BufferSize : AdapterLaws cached_input_stream_adapter (HA := stream_protocol BufferSize) :=
  {| feeds := stream_feeds BufferSize |}.
Next Obligation. apply stream_feeds_next. Qed.
Next Obligation. intros BufferSize a m H. destruct (stream_feeds_end _ _ _ H) as [a' E]. by exists a'. Qed.
Next Obligation.
  intros BufferSize a m r (_ & [Hb Hp He Hs Hf Hc] & _ & ->). apply Forall_app. split; [done|].
  unfold unread. destruct (failed _); [done|]. by apply Forall_drop.
Qed.
Next Obligation. intros. cbn. unfold stream_read, bind, get, ret. eauto. Qed.

Lemma new_stream_feeds BufferSize text : 3 <= BufferSize -> Forall is_byte text ->
  exists a, new_cached_input_stream_adapter BufferSize (mkIstream text 0 false) = Ok a /\
    feeds (AdapterLaws := stream_laws BufferSize) a 0 (Some (without_mark text)).
Proof.
  intros HB Hb. unfold new_cached_input_stream_adapter. cbn [position].
  set (a0 := mkInputStream _ _ _ _ _ _ _). assert (stream_ok BufferSize a0) as Hok.
  { pose proof (lengthZ_nonneg text). subst a0. split; cbn [is_ stream position failed buffer buffer_pos fill_size]; try done; try lia.
    unfold lengthZ. rewrite length_replicate. lia. }
  destruct (fill_buffer_spec BufferSize a0 ltac:(lia) Hok) as (a & E & Eu & Hz & Hf & Hx & Epos & Ee & Hok').
  unfold bind, get. rewrite E. unfold id. unfold unread in Eu at 1. cbn in Eu. change (drop (Z.to_nat 0) text) with text in Eu. change (buffer_pos a0) with 0 in Epos. change (eof a0) with false in Ee.
  pose proof Hok' as [Hb' Hp' He' Hs' Hf' Hc']. cbn in Hf', Hs'.
  assert (3 <= fill_size a -> take 3 (buffer a) = take 3 text) as E3.
  { intros H3. rewrite Eu. unfold slice. change (drop (Z.to_nat 0) (buffer a)) with (buffer a).
    rewrite take_app_le by (rewrite length_take; unfold lengthZ in *; lia). rewrite take_take. f_equal. lia. }
  assert (set_buffer_pos 0 a = a) as Ea by (destruct a; cbn in *; by subst).
  unfold without_mark. destruct (Z.leb_spec 3 (fill_size a)) as [H3|H3]; cbn [andb].
  - rewrite E3 by done. destruct (bool_decide (take 3 text = byte_order_mark)); cbn.
    + assert (slice (buffer a) 0 (fill_size a) = slice (buffer a) 0 3 ++ slice (buffer a) 3 (fill_size a - 3)) as E4
        by (rewrite <- slice_app by lia; f_equal; lia).
      assert (length (slice (buffer a) 0 3) = 3%nat) as El by (unfold slice, lengthZ in *; rewrite length_take, length_drop; lia).
      eexists. split; [done|]. rewrite Epos. cbn. split_and!; [lia| |done|].
      * split; cbn; try done; [lia|]. rewrite Ea, Epos, Z.sub_0_r, E4 in Hc'. by apply Forall_app in Hc' as [_ ?].
      * rewrite Eu, E4, <- app_assoc, drop_app_length' by done. done.
    + exists a. split; [done|]. split_and!; [lia|by rewrite <- Ea|done|]. by rewrite Epos, Z.sub_0_r.
  - exists a. split; [done|]. rewrite bool_decide_eq_false_2.
    + split_and!; [lia|by rewrite <- Ea|done|]. by rewrite Epos, Z.sub_0_r.
    + rewrite Eu, Hx, app_nil_r by lia. intros E4. apply (f_equal length) in E4. rewrite length_take in E4.
      change (length byte_order_mark) with 3%nat in E4. unfold slice in E4. rewrite length_take in E4. lia.
Qed.

(** ** The spelling of strings *)

Definition surrogate (c : Z) : Prop := 0xD800 <= c < 0xE000.

(** Four hexadecimal digits and their value. *)
Inductive hex4 : Z -> list Z -> Prop :=
| hex4_intro c1 c2 c3 c4 d1 d2 d3 d4 :
    hex_digit c1 = Some d1 -> hex_digit c2 = Some d2 -> hex_digit c3 = Some d3 -> hex_digit c4 = Some d4 ->
    hex4 (d1 * 4096 + d2 * 256 + d3 * 16 + d4) [c1; c2; c3; c4].

(** One character of a string and what it can be written as. *)
Inductive piece : list Z -> list Z -> Prop :=
| piece_plain c : scalar c -> 0x20 <= c -> c <> 34 -> c <> 92 -> piece (utf8_encode c) (utf8_encode c)
| piece_escape e x : simple_escape e = Some x -> piece [x] [92; e]
| piece_unicode c ds : hex4 c ds -> ~ surrogate c -> piece (utf8_encode c) (92 :: 117 :: ds)
| piece_pair hi lo ds1 ds2 : hex4 hi ds1 -> hex4 lo ds2 -> 0xD800 <= hi < 0xDC00 -> 0xDC00 <= lo < 0xE000 ->
    piece (utf8_encode (0x10000 + (hi - 0xD800) * 1024 + (lo - 0xDC00))) (92 :: 117 :: ds1 ++ 92 :: 117 :: ds2).

Inductive spells : list Z -> list Z -> Prop :=
| spells_nil : spells [] []
| spells_cons x u s t : piece x u -> spells s t -> spells (x ++ s) (u ++ t).

Lemma spells_app s t s' t' : spells s t -> spells s' t' -> spells (s ++ s') (t ++ t').
Proof. induction 1; intros; [done|]. rewrite <- !app_assoc. constructor; auto. Qed.

Lemma spells_snoc s t x u : spells s t -> piece x u -> spells (s ++ x) (t ++ u).
Proof.
  intros. apply spells_app; [done|]. rewrite <- (app_nil_r x), <- (app_nil_r u). constructor; [done|constructor].
Qed.

Lemma piece_nonempty x u : piece x u -> 0 < lengthZ u.
Proof. intros Hp. destruct Hp; [unfold utf8_encode; repeat case_match| | |]; rewrite ?lengthZ_cons; unfold lengthZ; lia. Qed.

Lemma hex_digit_range c d : hex_digit c = Some d -> 0 <= d < 16.
Proof. unfold hex_digit. intros. split_cases. Qed.

Lemma hex4_range c ds : hex4 c ds -> 0 <= c < 0x10000.
Proof. intros []. repeat match goal with H : hex_digit _ = Some _ |- _ => apply hex_digit_range in H end. lia. Qed.

Lemma hex4_length c ds : hex4 c ds -> length ds = 4%nat.
Proof. by intros []. Qed.

Lemma hex4_unique c c' ds ds' t t' : hex4 c ds -> hex4 c' ds' -> ds ++ t = ds' ++ t' -> c = c' /\ ds = ds' /\ t = t'.
Proof.
  intros H H' E. apply app_inj_1 in E as [-> ->]; [|by rewrite (hex4_length _ _ H), (hex4_length _ _ H')].
  split; [|done]. destruct H. by inversion H'; simplify_eq.
Qed.

Lemma lor_add k n x : 0 <= n -> 0 <= x < 2 ^ n -> Z.lor (k * 2 ^ n) x = k * 2 ^ n + x.
Proof.
  intros Hn Hx. assert (Z.land (k * 2 ^ n) x = 0) as E.
  { apply Z.bits_inj'. intros i Hi. rewrite Z.land_spec, Z.bits_0. destruct (Z.lt_ge_cases i n).
    - by rewrite Z.mul_pow2_bits_low.
    - rewrite <- (Z.mod_small x (2 ^ n)) by done. rewrite Z.mod_pow2_bits_high by lia. apply andb_false_r. }
  rewrite Z.add_nocarry_lxor, Z.lxor_lor by done. done.
Qed.

Lemma lor_lead k x : 0 <= x < 64 -> Z.lor (k * 64) x = k * 64 + x.
Proof. intros. by apply (lor_add k 6). Qed.

(** The bytes of [add_codepoint]. *)
Lemma utf8_bits c : 0 <= c < 0x110000 ->
  utf8_encode c =
  if c <? 0x80 then [u8 c]
  else if c <=? 0x7ff then [u8 (Z.lor 0xC0 (Z.shiftr c 6)); u8 (Z.lor 0x80 (Z.land c 0x3F))]
  else if c <=? 0xffff then [u8 (Z.lor 0xE0 (Z.shiftr c 12)); u8 (Z.lor 0x80 (Z.land (Z.shiftr c 6) 0x3F)); u8 (Z.lor 0x80 (Z.land c 0x3F))]
  else [u8 (Z.lor 0xF0 (Z.shiftr c 18)); u8 (Z.lor 0x80 (Z.land (Z.shiftr c 12) 0x3F)); u8 (Z.lor 0x80 (Z.land (Z.shiftr c 6) 0x3F));
        u8 (Z.lor 0x80 (Z.land c 0x3F))].
Proof.
  intros Hc. unfold utf8_encode. change 0x3F with (Z.ones 6). rewrite !Z.land_ones, !Z.shiftr_div_pow2 by lia.
  change (2 ^ 6) with 64. change (2 ^ 12) with 4096. change (2 ^ 18) with 262144.
  pose proof (Z.mod_pos_bound c 64 ltac:(lia)). pose proof (Z.mod_pos_bound (c / 64) 64 ltac:(lia)). pose proof (Z.mod_pos_bound (c / 4096) 64 ltac:(lia)).
  rewrite !(lor_lead 2) by lia.
  destruct (Z.ltb_spec c 0x80); [by rewrite uwrap_small by (unfold in_unsigned; lia)|].
  replace (c <? 0x800) with (c <=? 0x7ff) by lia. destruct (Z.leb_spec c 0x7ff).
  { rewrite (lor_lead 3) by euclid. rewrite !uwrap_small by (unfold in_unsigned; euclid). done. }
  replace (c <? 0x10000) with (c <=? 0xffff) by lia. destruct (Z.leb_spec c 0xffff).
  { rewrite (lor_add 14 4) by euclid. rewrite !uwrap_small by (unfold in_unsigned; euclid). done. }
  rewrite (lor_add 30 3) by euclid. rewrite !uwrap_small by (unfold in_unsigned; euclid). done.
Qed.

(** The ranges of the bytes that follow a first byte. *)
Definition ranges_of (c : Z) : option (list (Z * Z)) :=
  if (0xc2 <=? c) && (c <=? 0xdf) then Some [(0x80, 0xBF)]
  else if c =? 0xe0 then Some [(0xA0, 0xBF); (0x80, 0xBF)]
  else if ((0xe1 <=? c) && (c <=? 0xec)) || (c =? 0xee) || (c =? 0xef) then Some [(0x80, 0xBF); (0x80, 0xBF)]
  else if c =? 0xed then Some [(0x80, 0x9F); (0x80, 0xBF)]
  else if c =? 0xf0 then Some [(0x90, 0xBF); (0x80, 0xBF); (0x80, 0xBF)]
  else if (0xf1 <=? c) && (c <=? 0xf3) then Some [(0x80, 0xBF); (0x80, 0xBF); (0x80, 0xBF)]
  else if c =? 0xf4 then Some [(0x80, 0x8F); (0x80, 0xBF); (0x80, 0xBF)]
  else None.

Definition in_range (c : Z) (r : Z * Z) : Prop := fst r <= c <= snd r.

Ltac sequence_cases H :=
  unfold ranges_of in H; repeat (case_match; simplify_eq); 
  repeat match goal with H : Forall2 in_range _ (_ :: _) |- _ => apply Forall2_cons_inv_r in H as (? & ? & ? & H & ->) end;
  repeat match goal with H : Forall2 in_range _ [] |- _ => apply Forall2_nil_inv_r in H as -> end;
  unfold in_range in *; cbn [fst snd] in *.

Lemma ranges_sequence c rs bs t : 0x80 <= c -> ranges_of c = Some rs -> Forall2 in_range bs rs -> first_sequence (c :: bs ++ t) t.
Proof.
  intros Hc H Hbs. unfold first_sequence. sequence_cases H.
  all: first [right; left; do 2 eexists; split; [done|]; unfold two_bytes, tail_byte; lia
    |right; right; left; do 3 eexists; split; [done|]; unfold three_bytes, tail_byte; lia
    |right; right; right; do 4 eexists; split; [done|]; unfold four_bytes, tail_byte; lia].
Qed.

Lemma sequence_ranges c l t : 0x80 <= c -> first_sequence (c :: l) t -> exists rs bs, ranges_of c = Some rs /\ l = bs ++ t /\ Forall2 in_range bs rs.
Proof.
  intros Hc [(b0&E&H)|[(b0&b1&E&H)|[(b0&b1&b2&E&H)|(b0&b1&b2&b3&E&H)]]]; injection E as -> ->; [lia| | |];
    unfold two_bytes, three_bytes, four_bytes, tail_byte in H; unfold ranges_of; repeat case_match; try lia;
    eexists; first [exists [b1; b2; b3]|exists [b1; b2]|exists [b1]]; (split; [done|split; [done|]]);
    repeat constructor; unfold in_range; cbn; lia.
Qed.

Lemma sequence_plain c bs t : 0x80 <= c -> first_sequence (c :: bs ++ t) t -> piece (c :: bs) (c :: bs).
Proof.
  intros Hc H. apply first_encoded in H as (x & Hx & E). change (c :: bs ++ t) with ((c :: bs) ++ t) in E. apply app_inv_tail in E.
  assert (0x80 <= x). { destruct (Z.lt_ge_cases x 0x80); [|done]. unfold utf8_encode in E. rewrite (proj2 (Z.ltb_lt _ _)) in E by done.
    injection E as -> ->. lia. }
  rewrite E. constructor; [done|lia..].
Qed.

(** ** Reading characters *)

Section Reading.
Context {A F : Type} {HA : InputAdapter A} {HF : Floats F} {HL : AdapterLaws A}.
Context (total : Z) (Htotal : total < 2 ^ 63).
#[local] Abbreviation L := (lexer A F).
Implicit Types l : L.

(** [at_input l n r]: the lexer has read [n] of [total] characters and [r] is to
    come, until the end has been read. *)
Definition at_input l (n : Z) (r : option (list Z)) : Prop :=
  chars_read l = n /\ 0 <= n /\ match r with Some t => n + lengthZ t = total | None => n = total + 1 end /\
  exists m, 0 <= start_pos l <= m /\
    if next_unget l then
      match r with
      | Some (c :: t) => current l = c /\ is_byte c /\ feeds (ia l) m (Some t) /\ n + 1 <= m
      | Some [] => current l = EOF /\ feeds (ia l) m None /\ n <= m
      | None => False
      end
    else feeds (ia l) m r /\ match r with Some _ => n <= m | None => n <= m + 1 end.

Lemma at_input_nonneg l n r : at_input l n r -> 0 <= n.
Proof. by intros (_ & ? & _). Qed.

(** What a read does to the rest of the lexer. *)
Record got l (c : Z) l' : Prop := {
  got_current : current l' = c;
  got_unget : next_unget l' = false;
  got_yytext : yytext l' = yytext l;
  got_unsigned : number_unsigned l' = number_unsigned l;
  got_integer : number_integer l' = number_integer l;
  got_float : number_float l' = number_float l
}.

Lemma wp_get_char b l n c t Q : at_input l n (Some (c :: t)) ->
  (forall l', at_input l' (n + 1) (Some t) -> got l c l' -> is_byte c -> Q c l') -> wp b lex_get Q l.
Proof.
  intros (Hn & H0 & Ht & m & Hs & H) HQ. rewrite lengthZ_cons in Ht. pose proof (lengthZ_nonneg t).
  unfold lex_get, wp, bind, modify, get, lift, ret, id, set_chars_read. cbn.
  rewrite Hn, uwrap_small by (unfold in_unsigned; lia). destruct (next_unget l) eqn:Eu.
  - destruct H as (Hc & Hb & Hf & Hm). rewrite Hc. apply HQ; [|by split|done].
    split_and!; cbn; [done|lia|lia|]. by exists m.
  - destruct H as [Hf Hm]. pose proof (feeds_bytes _ _ _ Hf) as Hb. apply Forall_cons in Hb as [Hb _].
    cbn [ia]. destruct (feeds_next _ _ _ _ Hf) as (a' & -> & Hf'). cbn. apply HQ; [|by split|done].
    split_and!; cbn; [done|lia|lia|]. exists (m + 1). split_and!; (done || lia).
Qed.

Lemma wp_get_end b l n Q : at_input l n (Some []) -> (forall l', at_input l' (n + 1) None -> got l EOF l' -> Q EOF l') -> wp b lex_get Q l.
Proof.
  intros (Hn & H0 & Ht & m & Hs & H) HQ. rewrite lengthZ_nil in Ht.
  unfold lex_get, wp, bind, modify, get, lift, ret, id, set_chars_read. cbn.
  rewrite Hn, uwrap_small by (unfold in_unsigned; lia). destruct (next_unget l) eqn:Eu.
  - destruct H as (Hc & Hf & Hm). rewrite Hc. apply HQ; [|by split].
    split_and!; cbn; [done|lia|lia|]. exists m. split_and!; (done || lia).
  - destruct H as [Hf Hm]. cbn [ia]. destruct (feeds_end _ _ Hf) as (a' & -> & Hf'). cbn. apply HQ; [|by split].
    split_and!; cbn; [done|lia|lia|]. exists m. split_and!; (done || lia).
Qed.

(** Putting the last character back. *)
Lemma unget_char l n c t : 0 <= n -> at_input l (n + 1) (Some t) -> current l = c -> next_unget l = false -> is_byte c ->
  at_input (set_next_unget true (set_chars_read (u64 (chars_read l - 1)) l)) n (Some (c :: t)).
Proof.
  intros H0 (Hn & _ & Ht & m & Hs & H) Hc Eu Hb. rewrite Eu in H. destruct H as [Hf Hm]. pose proof (lengthZ_nonneg t).
  split_and!; cbn; [|done|rewrite lengthZ_cons; lia|by exists m].
  rewrite Hn, uwrap_small by (unfold in_unsigned; lia). lia.
Qed.

Lemma unget_end l n : 0 <= n -> at_input l (n + 1) None -> current l = EOF -> next_unget l = false ->
  at_input (set_next_unget true (set_chars_read (u64 (chars_read l - 1)) l)) n (Some []).
Proof.
  intros H0 (Hn & _ & Ht & m & Hs & H) Hc Eu. rewrite Eu in H. destruct H as [Hf Hm].
  split_and!; cbn; [|done|change (lengthZ []) with 0; lia|exists m; split_and!; (done || lia)].
  rewrite Hn, uwrap_small by (unfold in_unsigned; lia). lia.
Qed.

Lemma at_input_set l l' n r : at_input l n r -> chars_read l' = chars_read l -> next_unget l' = next_unget l -> current l' = current l ->
  ia l' = ia l -> start_pos l' = start_pos l -> at_input l' n r.
Proof. intros (Hn & H0 & Ht & m & H) E1 E2 E3 E4 E5. split_and!; [congruence|done|done|]. exists m. by rewrite E2, E3, E4, E5. Qed.

(** ** Strings *)

Lemma add_spec b c l Q : Q tt (set_yytext (yytext l ++ [u8 c]) l) -> wp b (add c) Q l.
Proof. intros. by apply wp_modify. Qed.

(** [written l n r l' x]: the lexer has gone on to [r] and has added [x]. *)
Definition written l (n : Z) (r : option (list Z)) (x : list Z) l' : Prop := at_input l' n r /\ yytext l' = yytext l ++ x.

Lemma hex_loop_spec b f fs acc l n t (Q : Z -> L -> Prop) : at_input l n (Some t) ->
  (forall c d t' l', t = c :: t' -> hex_digit c = Some d -> at_input l' (n + 1) (Some t') -> yytext l' = yytext l ->
     wp b (get_codepoint_loop fs (acc + Z.shiftl d f)) Q l') ->
  (forall l' r n', at_input l' n' r -> 0 < n' -> (forall c t', t = c :: t' -> hex_digit c = None) -> Q (-1) l') ->
  wp b (get_codepoint_loop (f :: fs) acc) Q l.
Proof.
  intros Hl Hgo Hstop. pose proof (at_input_nonneg _ _ _ Hl) as Hn0. cbn [get_codepoint_loop]. apply wp_bind. destruct t as [|c t].
  - apply (wp_get_end b l n); [done|]. intros l' Hl' _. cbn. eapply Hstop; [done|lia|done].
  - apply (wp_get_char b l n c t); [done|]. intros l' Hl' Hg _. destruct (hex_digit c) eqn:Ec.
    + eapply Hgo; [done..|]. by apply Hg.
    + eapply Hstop; [done|lia|]. by intros ? ? [= <- <-].
Qed.

(** The value of an escape: [inl] it, or [inr] that there is none. *)
Lemma get_codepoint_spec l n t : at_input l n (Some t) -> current l = 117 ->
  wp nothing get_codepoint (fun c l' =>
    (exists ds t', t = ds ++ t' /\ hex4 c ds /\ written l (n + 4) (Some t') [] l') \/
    (c = -1 /\ (exists n' r, at_input l' n' r /\ 0 < n') /\ forall c ds t', t = ds ++ t' -> ~ hex4 c ds)) l.
Proof.
  intros Hl Hc. unfold get_codepoint. wp_step. wp_step. wp_step. unfold id. wp_step; [|rewrite Hc in *; done].
  assert (forall l' r n' (d : list Z), at_input l' n' r -> 0 < n' -> (forall c t', drop (length d) t = c :: t' -> hex_digit c = None) ->
    (length d < 4)%nat -> -1 = -1 /\ (exists n' r, at_input l' n' r /\ 0 < n') /\ forall c ds t', t = ds ++ t' -> ~ hex4 c ds) as Hstop.
  { intros l' r n' d Hl' Hn' Hd Hlen. split_and!; [done|eauto|]. intros c ds t' -> Hh. destruct Hh.
    destruct d as [|? [|? [|? [|]]]]; cbn in *; try lia; pose proof (Hd _ _ eq_refl); congruence. }
  apply (hex_loop_spec _ _ _ _ _ n t); [done| |intros; right; eapply (Hstop _ _ _ []); [eassumption|done|subst; cbn; eauto|cbn; lia]].
  intros c1 d1 t1 l1 E1 Hd1 Hl1 Hy1. apply (hex_loop_spec _ _ _ _ _ (n + 1) t1); [done| |intros; right; eapply (Hstop _ _ _ [c1]); [eassumption|done|subst; cbn; eauto|cbn; lia]].
  intros c2 d2 t2 l2 E2 Hd2 Hl2 Hy2. apply (hex_loop_spec _ _ _ _ _ (n + 1 + 1) t2); [done| |intros; right; eapply (Hstop _ _ _ [c1; c2]); [eassumption|done|subst; cbn; eauto|cbn; lia]].
  intros c3 d3 t3 l3 E3 Hd3 Hl3 Hy3. apply (hex_loop_spec _ _ _ _ _ (n + 1 + 1 + 1) t3); [done| |intros; right; eapply (Hstop _ _ _ [c1; c2; c3]); [eassumption|done|subst; cbn; eauto|cbn; lia]].
  intros c4 d4 t4 l4 E4 Hd4 Hl4 Hy4. cbn [get_codepoint_loop]. 
  assert (hex4 (0 + Z.shiftl d1 12 + Z.shiftl d2 8 + Z.shiftl d3 4 + Z.shiftl d4 0) [c1; c2; c3; c4]) as Hh.
  { rewrite !Z.shiftl_mul_pow2 by lia. 
    replace (0 + d1 * 2 ^ 12 + d2 * 2 ^ 8 + d3 * 2 ^ 4 + d4 * 2 ^ 0) with (d1 * 4096 + d2 * 256 + d3 * 16 + d4) by lia. by constructor. }
  pose proof (hex4_range _ _ Hh). wp_step. wp_step; [|lia]. wp_step. left. exists [c1; c2; c3; c4], t4. split_and!; [by subst|done|].
  split; [|by rewrite app_nil_r; congruence]. by replace (n + 4) with (n + 1 + 1 + 1 + 1) by lia.
Qed.

Lemma add_codepoint_spec c l (Q : unit -> L -> Prop) : 0 <= c < 0x110000 -> Q tt (set_yytext (yytext l ++ utf8_encode c) l) ->
  wp nothing (add_codepoint c) Q l.
Proof.
  intros Hc HQ. rewrite utf8_bits in HQ by done. unfold add_codepoint. wp_step. wp_step; [|lia].
  destruct (c <? 0x80); [by apply add_spec|]. destruct (c <=? 0x7ff); [|destruct (c <=? 0xffff)];
    repeat (apply wp_bind; apply add_spec); apply add_spec; cbn; by rewrite <- !app_assoc.
Qed.

Lemma written_set l n t l' x : written l n t [] l' -> written l n t x (set_yytext (yytext l' ++ x) l').
Proof. intros [H E]. split; [by eapply at_input_set|]. cbn. by rewrite E, app_nil_r. Qed.

Lemma fails_spec b message l (Q : option token_type -> L -> Prop) : Q (Some parse_error) (set_error_message message l) -> wp b (fails message) Q l.
Proof. intros. unfold fails, fail_with. repeat wp_step. done. Qed.

Lemma written_0 l n r l' : at_input l' n r -> yytext l' = yytext l -> written l n r [] l'.
Proof. intros. split; [done|]. by rewrite app_nil_r. Qed.

(** After an error nothing is known but where the lexer is, behind a character. *)
Definition stopped l : Prop := exists n r, at_input l n r /\ 0 < n.

Lemma stopped_set l n r message : at_input l n r -> 0 < n -> stopped (set_error_message message l).
Proof. intros. exists n, r. split; [by eapply at_input_set|done]. Qed.

Lemma pair_value hi lo : Z.shiftl hi 10 + lo - 0x35FDC00 = 0x10000 + (hi - 0xD800) * 1024 + (lo - 0xDC00).
Proof. rewrite Z.shiftl_mul_pow2 by lia. lia. Qed.

(** The end of a path that reports an error. *)
Ltac failing := (try apply fails_spec); split; [done|eapply stopped_set; [done|lia]].

Lemma scan_unicode_sound l n t : at_input l n (Some t) -> current l = 117 ->
  wp nothing scan_unicode (fun o l' => match o with
    | None => exists x u t', t = u ++ t' /\ piece x (92 :: 117 :: u) /\ written l (n + lengthZ u) (Some t') x l'
    | Some tok => tok = parse_error /\ stopped l' end) l.
Proof.
  intros Hl Hc. pose proof (at_input_nonneg _ _ _ Hl) as Hn0. unfold scan_unicode. wp_step. eapply wp_mono; [by apply get_codepoint_spec|]. cbn.
  intros c1 l1 [(ds1 & t1 & -> & Hh1 & Hw1)|(-> & (n' & r & Hl1 & Hn1) & _)]; [|cbn; failing].
  pose proof (hex4_range _ _ Hh1). destruct (Z.eqb_spec c1 (-1)); [lia|]. destruct Hw1 as [Hl1 Hy1].
  destruct (decide (0xD800 <= c1 <= 0xDBFF)) as [Hs|Hs].
  - replace ((0xD800 <=? c1) && (c1 <=? 0xDBFF)) with true by lia. wp_step.
    destruct t1 as [|c t1]; [eapply wp_get_end; [done|]; cbn; intros l2 Hl2 _; failing|].
    eapply wp_get_char; [done|]. intros l2 Hl2 Hg2 _. destruct (Z.eqb_spec c 92) as [->|]; cbn; [|failing].
    wp_step. destruct t1 as [|c t1]; [eapply wp_get_end; [done|]; cbn; intros l3 Hl3 _; failing|].
    eapply wp_get_char; [done|]. intros l3 Hl3 Hg3 _. destruct (Z.eqb_spec c 117) as [->|]; cbn; [|failing].
    wp_step. eapply wp_mono; [by apply get_codepoint_spec, Hg3|]. cbn.
    intros c2 l4 [(ds2 & t2 & -> & Hh2 & Hw2)|(-> & (n' & r & Hl4 & Hn4) & _)]; [|cbn; failing].
    pose proof (hex4_range _ _ Hh2). destruct (Z.eqb_spec c2 (-1)); [lia|].
    destruct (decide (0xDC00 <= c2 <= 0xDFFF)) as [Hs2|Hs2].
    + replace ((0xDC00 <=? c2) && (c2 <=? 0xDFFF)) with true by lia. wp_step. rewrite pair_value. apply add_codepoint_spec; [lia|]. wp_step.
      exists (utf8_encode (0x10000 + (c1 - 0xD800) * 1024 + (c2 - 0xDC00))), (ds1 ++ 92 :: 117 :: ds2), t2.
      split_and!; [by rewrite <- app_assoc|constructor; (done || lia)|].
      destruct Hw2 as [Hl4 Hy4]. split; [|cbn; rewrite Hy4, app_nil_r, (got_yytext _ _ _ Hg3), (got_yytext _ _ _ Hg2), Hy1; by rewrite app_nil_r].
      eapply at_input_set; [|done..]. pose proof (hex4_length _ _ Hh1). pose proof (hex4_length _ _ Hh2).
      replace (n + lengthZ (ds1 ++ 92 :: 117 :: ds2)) with (n + 4 + 1 + 1 + 4); [done|].
      rewrite lengthZ_app, !lengthZ_cons. unfold lengthZ. lia.
    + replace ((0xDC00 <=? c2) && (c2 <=? 0xDFFF)) with false by lia. destruct Hw2 as [Hl4 _]. failing.
  - replace ((0xD800 <=? c1) && (c1 <=? 0xDBFF)) with false by lia. destruct (decide (0xDC00 <= c1 <= 0xDFFF)) as [Hs2|Hs2].
    + replace ((0xDC00 <=? c1) && (c1 <=? 0xDFFF)) with true by lia. failing.
    + replace ((0xDC00 <=? c1) && (c1 <=? 0xDFFF)) with false by lia. wp_step. apply add_codepoint_spec; [lia|]. wp_step.
      exists (utf8_encode c1), ds1, t1. split_and!; [done|constructor; [done|unfold surrogate; lia]|].
      pose proof (hex4_length _ _ Hh1). replace (n + lengthZ ds1) with (n + 4) by (unfold lengthZ; lia). by apply written_set.
Qed.

Lemma range_loop_spec ranges l n t : at_input l n (Some t) -> Forall (fun r => 0 <= fst r) ranges -> Forall (fun r => snd r < 256) ranges ->
  wp nothing (range_loop ranges) (fun b l' =>
    if b then exists bs t', t = bs ++ t' /\ Forall2 in_range bs ranges /\ written l (n + lengthZ bs) (Some t') bs l'
    else stopped l' /\ forall bs t', t = bs ++ t' -> ~ Forall2 in_range bs ranges) l.
Proof.
  intros Hl Hr Hr2. revert l n t Hl. induction ranges as [|[lo hi] ranges IH]; intros l n t Hl; cbn [range_loop].
  { wp_step. exists [], t. split_and!; [done|done|]. apply written_0; [by rewrite lengthZ_nil, Z.add_0_r|done]. }
  pose proof (at_input_nonneg _ _ _ Hl) as Hn0.
  apply Forall_cons in Hr as [Hlo Hr]. apply Forall_cons in Hr2 as [Hhi Hr2]. cbn in Hlo, Hhi. wp_step.
  destruct t as [|c t].
  { eapply wp_get_end; [done|]. intros l1 Hl1 _. unfold EOF. replace (lo <=? -1) with false by lia. cbn. split; [eapply stopped_set; [done|lia]|].
    intros bs t' E H. apply Forall2_cons_inv_r in H as (? & ? & ? & H & ->). done. }
  eapply wp_get_char; [done|]. intros l1 Hl1 Hg Hb. destruct (decide (lo <= c <= hi)) as [Hin|Hin].
  - replace ((lo <=? c) && (c <=? hi)) with true by lia. wp_step. apply add_spec.
    eapply wp_mono; [apply (IH Hr Hr2 _ (n + 1) t); by eapply at_input_set|]. intros [] l2; cbn.
    + intros (bs & t' & -> & H & Hw). exists (c :: bs), t'. split_and!; [done|by constructor|].
      rewrite lengthZ_cons. replace (n + (1 + lengthZ bs)) with (n + 1 + lengthZ bs) by lia.
      destruct Hw as [Hw1 Hw2]. split; [done|]. rewrite Hw2. cbn. rewrite (got_yytext _ _ _ Hg), uwrap_small by done. by rewrite <- app_assoc.
    + intros [Hs Hno]. split; [done|]. intros bs t' E H. apply Forall2_cons_inv_r in H as (x & bs' & ? & H & ->). injection E as -> ->. by eapply Hno.
  - replace ((lo <=? c) && (c <=? hi)) with false by lia. wp_step. wp_step. wp_step. split; [eapply stopped_set; [done|lia]|].
    intros bs t' E H. apply Forall2_cons_inv_r in H as (x & bs' & Hx & H & ->). injection E as -> ->. done.
Qed.

Lemma scan_ranges_spec c ranges l n t : at_input l n (Some t) -> current l = c -> is_byte c -> ranges_of c = Some ranges ->
  wp nothing (scan_ranges ranges) (fun o l' => match o with
    | None => exists bs t', t = bs ++ t' /\ Forall2 in_range bs ranges /\ written l (n + lengthZ bs) (Some t') (c :: bs) l'
    | Some tok => tok = parse_error /\ stopped l' /\ forall bs t', t = bs ++ t' -> ~ Forall2 in_range bs ranges end) l.
Proof.
  intros Hl Hc Hb Hr. unfold scan_ranges, next_byte_in_range. repeat wp_step. unfold id. apply add_spec.
  eapply wp_mono; [apply (range_loop_spec _ _ n t); [by eapply at_input_set| |];
    unfold ranges_of in Hr; repeat (case_match; simplify_eq); repeat constructor; done|].
  intros [] l1; cbn.
  - intros (bs & t' & -> & H & Hw1 & Hw2). exists bs, t'. split_and!; [done..|]. split; [done|]. rewrite Hw2. cbn.
    rewrite uwrap_small by (by rewrite Hc). rewrite Hc. by rewrite <- app_assoc.
  - done.
Qed.

Lemma simple_escape_range e x : simple_escape e = Some x -> is_byte x /\ e <> 117 /\ 0 <= e.
Proof. unfold simple_escape, is_byte. intros. split_cases. Qed.

Lemma scan_escape_sound l n t : at_input l n (Some t) ->
  wp nothing scan_escape (fun o l' => match o with
    | None => exists x u t', t = u ++ t' /\ piece x (92 :: u) /\ written l (n + lengthZ u) (Some t') x l'
    | Some tok => tok = parse_error /\ stopped l' end) l.
Proof.
  intros Hl. pose proof (at_input_nonneg _ _ _ Hl) as Hn0. unfold scan_escape. wp_step. destruct t as [|c t]; [eapply wp_get_end; [done|]; cbn; intros l1 Hl1 _; failing|].
  eapply wp_get_char; [done|]. intros l1 Hl1 Hg Hb. destruct (simple_escape c) as [x|] eqn:Ex.
  - wp_step. apply add_spec. wp_step. exists [x], [c], t. apply simple_escape_range in Ex as ?. split_and!; [done|by constructor|].
    rewrite uwrap_small by (unfold in_unsigned; unfold is_byte in *; lia). split; [by eapply at_input_set|]. cbn. by rewrite (got_yytext _ _ _ Hg).
  - destruct (Z.eqb_spec c 117) as [->|]; [|failing]. eapply wp_mono; [by apply scan_unicode_sound, Hg|]. intros [] l2; [done|].
    intros (x & u & t' & -> & Hp & Hw1 & Hw2). exists x, (117 :: u), t'. split_and!; [done|done|].
    rewrite lengthZ_cons. replace (n + (1 + lengthZ u)) with (n + 1 + lengthZ u) by lia. split; [done|]. by rewrite Hw2, (got_yytext _ _ _ Hg).
Qed.

Lemma scan_char_high c : 0x80 <= c -> scan_char (A := A) (F := F) c = match ranges_of c with Some rs => scan_ranges rs | None => fails ill_formed end.
Proof.
  intros. unfold scan_char, ranges_of, EOF. replace (c =? -1) with false by lia. replace (c =? 34) with false by lia. replace (c =? 92) with false by lia.
  replace (c <=? 0x1f) with false by lia. replace (c <=? 0x7f) with false by lia. rewrite !andb_false_r. by repeat case_match.
Qed.

Lemma scan_char_sound c l n t : at_input l n (Some t) -> 0 < n -> current l = c -> is_byte c ->
  wp nothing (scan_char c) (fun o l' => match o with
    | None => exists x u t', c :: t = u ++ t' /\ piece x u /\ written l (n - 1 + lengthZ u) (Some t') x l'
    | Some tok => (tok = value_string /\ c = 34 /\ l' = l) \/ (tok = parse_error /\ stopped l') end) l.
Proof.
  intros Hl Hn0 Hc Hb. destruct (Z.lt_ge_cases c 0x80) as [Hlow|Hhigh].
  - unfold scan_char, EOF. unfold is_byte in Hb. replace (c =? -1) with false by lia.
    destruct (Z.eqb_spec c 34) as [->|]; [wp_step; by left|]. destruct (Z.eqb_spec c 92) as [->|].
    + eapply wp_mono; [by apply (scan_escape_sound _ n t)|]. intros [] l1; [by right|]. intros (x & u & t' & -> & Hp & Hw).
      exists x, (92 :: u), t'. split_and!; [done..|]. rewrite lengthZ_cons. by replace (n - 1 + (1 + lengthZ u)) with (n + lengthZ u) by lia.
    + destruct (decide (c <= 0x1f)).
      { replace ((0 <=? c) && (c <=? 0x1f)) with true by lia. apply fails_spec. right. split; [done|by eapply stopped_set]. }
      replace ((0 <=? c) && (c <=? 0x1f)) with false by lia. replace ((0x20 <=? c) && (c <=? 0x7f)) with true by lia.
      wp_step. apply add_spec. wp_step. exists [c], [c], t. rewrite uwrap_small by (unfold in_unsigned; lia).
      assert (utf8_encode c = [c]) as E by (unfold utf8_encode; by rewrite (proj2 (Z.ltb_lt _ _))).
      split_and!; [done|rewrite <- E; constructor; [unfold scalar; lia|lia..]|].
      change (lengthZ [c]) with 1. replace (n - 1 + 1) with n by lia. split; [by eapply at_input_set|done].
  - rewrite scan_char_high by done. destruct (ranges_of c) as [rs|] eqn:Er; [|apply fails_spec; right; split; [done|by eapply stopped_set]].
    eapply wp_mono; [by apply (scan_ranges_spec c _ l n t)|]. intros [tok|] l1; [intros (-> & Hs & _); by right|].
    intros (bs & t' & -> & Hbs & Hw). exists (c :: bs), (c :: bs), t'. split_and!; [done| |].
    + eapply sequence_plain; [done|]. by eapply (ranges_sequence c rs bs []).
    + rewrite lengthZ_cons. by replace (n - 1 + (1 + lengthZ bs)) with (n + lengthZ bs) by lia.
Qed.

Lemma scan_string_sound fuel l n t : at_input l n (Some t) -> (length t < fuel)%nat ->
  wp nothing (iter fuel scan_string_round tt) (fun tok l' =>
    (tok = value_string /\ exists s u t', t = u ++ 34 :: t' /\ spells s u /\ written l (n + lengthZ u + 1) (Some t') s l') \/
    (tok = parse_error /\ stopped l')) l.
Proof.
  intros Hl Hfuel.
  apply (wp_iter nothing scan_string_round (fun _ l' => exists s u t', t = u ++ t' /\ spells s u /\ written l (n + lengthZ u) (Some t') s l')
    (fun _ l' => Z.to_nat (total - chars_read l'))).
  - intros [] l1 (s & u & t1 & -> & Hs & Hl1 & Hy1). unfold scan_string_round. wp_step. pose proof (at_input_nonneg _ _ _ Hl1) as Hn0. destruct t1 as [|c t1].
    { eapply wp_get_end; [done|]. intros l2 Hl2 _. cbn. right. split; [done|eapply stopped_set; [done|lia]]. }
    eapply wp_get_char; [done|]. intros l2 Hl2 Hg Hb. wp_step. eapply wp_mono; [eapply scan_char_sound; [done|lia|apply Hg|done]|].
    intros [tok|] l3.
    + intros [(-> & -> & ->)|(-> & Hs3)]; wp_step; [left|by right]. split; [done|]. exists s, u, t1. split_and!; [done..|].
      split; [done|]. by rewrite (got_yytext _ _ _ Hg).
    + intros (x & v & t' & E & Hp & Hl3 & Hy3). wp_step. split.
      * exists (s ++ x), (u ++ v), t'. split_and!; [by rewrite E, app_assoc|by apply spells_snoc|].
        rewrite lengthZ_app. replace (n + (lengthZ u + lengthZ v)) with (n + lengthZ u + 1 - 1 + lengthZ v) by lia.
        split; [done|]. by rewrite Hy3, (got_yytext _ _ _ Hg), Hy1, app_assoc.
      * destruct Hl1 as (En & _ & Et & _). destruct Hl3 as (En3 & _ & Et3 & _). rewrite En, En3.
        pose proof (piece_nonempty _ _ Hp).
        pose proof (lengthZ_nonneg (c :: t1)). pose proof (lengthZ_nonneg t'). lia.
  - exists [], [], t. split_and!; [done|constructor|]. rewrite lengthZ_nil, Z.add_0_r. by apply written_0.
  - destruct Hl as (En & _ & Et & _). rewrite En. unfold lengthZ in *. lia.
Qed.

(** The other direction: what is spelled is read. *)
Lemma get_codepoint_complete c ds l n t : hex4 c ds -> at_input l n (Some (ds ++ t)) -> current l = 117 ->
  wp nothing get_codepoint (fun c' l' => c' = c /\ written l (n + 4) (Some t) [] l') l.
Proof.
  intros Hh Hl Hc. eapply wp_mono; [by eapply get_codepoint_spec|]. intros c' l'.
  intros [(ds' & t' & E & Hh' & Hw)|(_ & _ & Hno)]; [|by edestruct Hno].
  destruct (hex4_unique _ _ _ _ _ _ Hh Hh' E) as (-> & _ & ->). done.
Qed.

Lemma scan_unicode_complete x u l n t : piece x (92 :: 117 :: u) -> at_input l n (Some (u ++ t)) -> current l = 117 ->
  wp nothing scan_unicode (fun o l' => o = None /\ written l (n + lengthZ u) (Some t) x l') l.
Proof.
  intros Hp Hl Hc. unfold scan_unicode. wp_step. inversion Hp as [c ? ? ? ? E1 E2|e y Hy E1 E2|c ds Hh Hs E1 E2|hi lo ds1 ds2 Hh1 Hh2 Hhi Hlo E1 E2]; subst.
  - unfold utf8_encode in E2. repeat case_match; simplify_eq; euclid.
  - done.
  - pose proof (hex4_range _ _ Hh). pose proof (hex4_length _ _ Hh). eapply wp_mono; [by eapply (get_codepoint_complete c)|]. intros c' l1 [-> Hw]. cbn.
    unfold surrogate in Hs. replace (c =? -1) with false by lia. replace ((0xD800 <=? c) && (c <=? 0xDBFF)) with false by lia.
    replace ((0xDC00 <=? c) && (c <=? 0xDFFF)) with false by lia. wp_step. apply add_codepoint_spec; [lia|]. wp_step. split; [done|].
    replace (n + lengthZ u) with (n + 4) by (unfold lengthZ; lia). by apply written_set.
  - pose proof (hex4_length _ _ Hh1). pose proof (hex4_length _ _ Hh2). rewrite <- app_assoc in Hl. cbn [app] in Hl.
    eapply wp_mono; [by eapply (get_codepoint_complete hi)|]. intros c' l1 [-> [Hl1 Hy1]]. cbn.
    replace (hi =? -1) with false by lia. replace ((0xD800 <=? hi) && (hi <=? 0xDBFF)) with true by lia.
    wp_step. eapply wp_get_char; [done|]. intros l2 Hl2 Hg2 _. cbn. wp_step. eapply wp_get_char; [done|]. intros l3 Hl3 Hg3 _. cbn.
    wp_step. eapply wp_mono; [by eapply (get_codepoint_complete lo), Hg3|]. intros c' l4 [-> [Hl4 Hy4]].
    replace (lo =? -1) with false by lia. replace ((0xDC00 <=? lo) && (lo <=? 0xDFFF)) with true by lia.
    wp_step. rewrite pair_value. apply add_codepoint_spec; [lia|]. wp_step. split; [done|].
    split; [|cbn; rewrite Hy4, app_nil_r, (got_yytext _ _ _ Hg3), (got_yytext _ _ _ Hg2), Hy1; by rewrite app_nil_r].
    eapply at_input_set; [|done..]. replace (n + lengthZ (ds1 ++ 92 :: 117 :: ds2)) with (n + 4 + 1 + 1 + 4); [done|].
    rewrite lengthZ_app, !lengthZ_cons. unfold lengthZ. lia.
Qed.

Lemma scan_escape_complete x u l n t : piece x (92 :: u) -> at_input l n (Some (u ++ t)) ->
  wp nothing scan_escape (fun o l' => o = None /\ written l (n + lengthZ u) (Some t) x l') l.
Proof.
  intros Hp Hl. assert (u <> []) as Hu.
  { inversion Hp; subst; try done. unfold utf8_encode in *. repeat case_match; simplify_eq; euclid. }
  destruct u as [|e u]; [done|]. unfold scan_escape. wp_step. eapply wp_get_char; [done|]. intros l1 Hl1 Hg Hb.
  rewrite lengthZ_cons. replace (n + (1 + lengthZ u)) with (n + 1 + lengthZ u) by lia. fold (app u t) in Hl1.
  assert (e <> 117 -> simple_escape e = Some (hd 0 x) /\ x = [hd 0 x] /\ u = []) as Hesc.
  { intros Hne. inversion Hp; subst; try done. unfold utf8_encode in *. repeat case_match; simplify_eq; euclid. }
  destruct (decide (e = 117)) as [->|Hne].
  - cbn. eapply wp_mono; [by apply (scan_unicode_complete x u _ (n + 1) t), Hg|]. intros o l2 [-> [Hl2 Hy2]]. split; [done|]. split; [done|].
    by rewrite Hy2, (got_yytext _ _ _ Hg).
  - destruct (Hesc Hne) as (Ey & Ex & ->). rewrite Ey, Ex. cbn [hd]. apply simple_escape_range in Ey as (Hy & _). wp_step. apply add_spec. wp_step.
    rewrite uwrap_small by done. split; [done|]. rewrite lengthZ_nil, Z.add_0_r. split; [by eapply at_input_set|]. cbn. by rewrite (got_yytext _ _ _ Hg).
Qed.

Lemma utf8_encode_head c : 0x80 <= c -> scalar c -> exists b bs, utf8_encode c = b :: bs /\ 0x80 <= b < 256.
Proof. intros Hc Hs. unfold utf8_encode. repeat case_match; try lia; do 2 eexists; (split; [done|]); euclid. Qed.

Lemma scan_char_complete x u c l n t t' : piece x u -> c :: t = u ++ t' -> at_input l n (Some t) -> current l = c -> is_byte c ->
  wp nothing (scan_char c) (fun o l' => o = None /\ written l (n - 1 + lengthZ u) (Some t') x l') l.
Proof.
  intros Hp E Hl Hc Hb. destruct (decide (c = 92)) as [->|H92].
  { unfold scan_char. cbn. destruct u as [|c u].
    { apply piece_nonempty in Hp. unfold lengthZ in Hp. cbn in Hp. lia. }
    injection E as <- ->. rewrite lengthZ_cons. replace (n - 1 + (1 + lengthZ u)) with (n + lengthZ u) by lia. by apply scan_escape_complete. }
  assert (exists d, scalar d /\ 0x20 <= d /\ d <> 34 /\ x = utf8_encode d /\ u = utf8_encode d) as (d & Hs & H20 & H34 & -> & ->).
  { inversion Hp; subst; cbn in E; simplify_eq. eauto 10. }
  destruct (Z.lt_ge_cases d 0x80) as [Hlow|Hhigh].
  - assert (utf8_encode d = [d]) as Ed by (unfold utf8_encode; by rewrite (proj2 (Z.ltb_lt _ _))). rewrite Ed in *. injection E as <- <-.
    unfold scan_char, EOF. replace (c =? -1) with false by lia. replace (c =? 34) with false by lia. replace (c =? 92) with false by lia.
    replace ((0 <=? c) && (c <=? 0x1f)) with false by lia. replace ((0x20 <=? c) && (c <=? 0x7f)) with true by lia.
    wp_step. apply add_spec. wp_step. split; [done|]. rewrite uwrap_small by done. change (lengthZ [c]) with 1.
    replace (n - 1 + 1) with n by lia. split; [by eapply at_input_set|done].
  - pose proof (utf8_encode_first d t' Hs) as Hf. destruct (utf8_encode_head d Hhigh Hs) as (b & bs & Ed & Hbb). rewrite Ed in *. injection E as -> ->.
    cbn [app] in Hf. destruct (sequence_ranges b (bs ++ t') t') as (rs & bs' & Er & Eb & Hrs); [lia|done|]. apply app_inv_tail in Eb as <-.
    rewrite scan_char_high, Er by lia. eapply wp_mono; [by eapply (scan_ranges_spec b rs l n)|]. intros [tok|] l1.
    + intros (_ & _ & Hno). by edestruct Hno.
    + intros (bs2 & t2 & Eb & Hrs2 & Hw). split; [done|].
      apply Forall2_length in Hrs, Hrs2. apply app_inj_1 in Eb as [<- <-]; [|congruence].
      rewrite lengthZ_cons. by replace (n - 1 + (1 + lengthZ bs)) with (n + lengthZ bs) by lia.
Qed.

Lemma scan_string_complete s u fuel l n t : spells s u -> at_input l n (Some (u ++ 34 :: t)) -> (length (u ++ 34%Z :: t) < fuel)%nat ->
  wp nothing (iter fuel scan_string_round tt) (fun tok l' => tok = value_string /\ written l (n + lengthZ u + 1) (Some t) s l') l.
Proof.
  intros Hs. revert fuel l n. induction Hs as [|x u s v Hp Hs IH]; intros fuel l n Hl Hfuel; (destruct fuel as [|fuel]; [lia|]); cbn [iter]; wp_step;
    unfold scan_string_round; wp_step.
  - eapply wp_get_char; [done|]. intros l1 Hl1 Hg _. cbn. split; [done|]. rewrite lengthZ_nil, Z.add_0_r. apply written_0; [done|apply Hg].
  - pose proof (piece_nonempty _ _ Hp). destruct u as [|c u]; [by unfold lengthZ in H|]. cbn [app] in Hl. eapply wp_get_char; [done|]. intros l1 Hl1 Hg Hb.
    wp_step. eapply wp_mono; [eapply (scan_char_complete x (c :: u) c); [done| |done|apply Hg|done]; by rewrite <- !app_assoc|].
    intros o l2 [-> [Hl2 Hy2]]. wp_step. eapply wp_mono; [apply (IH fuel l2); [done|cbn in Hfuel; rewrite !length_app in *; lia]|].
    intros tok l3 [-> [Hl3 Hy3]]. split; [done|]. rewrite lengthZ_app. replace (n + (lengthZ (c :: u) + lengthZ v) + 1) with (n + 1 - 1 + lengthZ (c :: u) + lengthZ v + 1) by lia.
    split; [done|]. by rewrite Hy3, Hy2, (got_yytext _ _ _ Hg), app_assoc.
Qed.

End Reading.
