(* ===== verification/JsonTokens.v ===== *)
(** * The tokens of JSON

    Numbers as RFC 7159 has them, and that scan reads them; the tokens of a text and
    that the lexer yields exactly the tokens that are spelled there. *)

From S2P Require Import Prelude CLib Memory Buffer Utf8 Json JsonLexSpec.

(** ** Numbers *)

Record number := mkNumber {
  negative : bool;
  int_part : list Z;
  fraction : option (list Z);
  exponent : option (Z * option Z * list Z)
}.

Definition digits_ok (ds : list Z) : Prop := ds <> [] /\ Forall (fun c => digit c = true) ds.

Record number_ok (n : number) : Prop := {
  int_ok : digits_ok (int_part n) /\ (hd 0 (int_part n) = 48 -> int_part n = [48]);
  fraction_ok : match fraction n with Some ds => digits_ok ds | None => True end;
  exponent_ok : match exponent n with
                | Some (e, s, ds) => is_exponent e = true /\ match s with Some c => c = 43 \/ c = 45 | None => True end /\ digits_ok ds
                | None => True
                end
}.

(** The text of a number, with [point] for the decimal point. *)
Definition fraction_text (point : Z) (f : option (list Z)) : list Z := match f with Some ds => point :: ds | None => [] end.

Definition exponent_text (e : option (Z * option Z * list Z)) : list Z :=
  match e with Some (e, s, ds) => e :: option_list s ++ ds | None => [] end.

Definition number_text (point : Z) (n : number) : list Z :=
  (if negative n then [45] else []) ++ int_part n ++ fraction_text point (fraction n) ++ exponent_text (exponent n).

Definition number_kind (n : number) : token_type :=
  match fraction n, exponent n with
  | None, None => if negative n then value_integer else value_unsigned
  | _, _ => value_float
  end.

(** Reading a number from the front of a text. *)
Definition read_digits (t : list Z) : option (list Z * list Z) :=
  match span digit t with ([], _) => None | x => Some x end.

Definition read_int (t : list Z) : option (list Z * list Z) :=
  match t with c :: t' => if c =? 48 then Some ([48], t') else read_digits t | [] => None end.

Definition read_fraction (t : list Z) : option (option (list Z) * list Z) :=
  match t with
  | c :: t' => if c =? 46 then '(ds, r) ← read_digits t'; Some (Some ds, r) else Some (None, t)
  | [] => Some (None, [])
  end.

Definition read_exponent (t : list Z) : option (option (Z * option Z * list Z) * list Z) :=
  match t with
  | e :: t' =>
      if is_exponent e then
        match t' with
        | c :: t'' =>
            if (c =? 43) || (c =? 45) then '(ds, r) ← read_digits t''; Some (Some (e, Some c, ds), r)
            else '(ds, r) ← read_digits t'; Some (Some (e, None, ds), r)
        | [] => None
        end
      else Some (None, t)
  | [] => Some (None, [])
  end.

Definition read_sign (t : list Z) : bool * list Z :=
  match t with c :: t' => if c =? 45 then (true, t') else (false, t) | [] => (false, []) end.

Definition read_number (t : list Z) : option (number * list Z) :=
  let '(neg, t) := read_sign t in
  '(i, t) ← read_int t; '(f, t) ← read_fraction t; '(e, t) ← read_exponent t; Some (mkNumber neg i f e, t).

(** *** What is read is the number that is there *)

Lemma read_digits_sound t ds r : read_digits t = Some (ds, r) -> t = ds ++ r /\ digits_ok ds /\ digit (hd (-1) r) = false.
Proof.
  unfold read_digits. pose proof (span_app digit t) as E. pose proof (span_forall digit t) as H. pose proof (span_stop digit t) as Hs.
  destruct (span digit t) as [[|d ds'] r']; [done|]. intros [= <- <-]. cbn in *. split_and!; [done|done|]. destruct r' as [|c r']; [done|]. by apply (Hs c r').
Qed.

Lemma read_digits_complete ds r : digits_ok ds -> digit (hd (-1) r) = false -> read_digits (ds ++ r) = Some (ds, r).
Proof.
  intros [Hne H] Hr. unfold read_digits. rewrite span_all; [by destruct ds|done|]. destruct r; [by right|by left].
Qed.

(** The character behind a number does not go on with it. *)
Definition stops (n : number) (r : list Z) : Prop :=
  let c := hd (-1) r in
  match exponent n with
  | Some _ => digit c = false
  | None => is_exponent c = false /\
      match fraction n with
      | Some _ => digit c = false
      | None => c <> 46 /\ (int_part n = [48] \/ digit c = false)
      end
  end.

Lemma read_exponent_sound t e r : read_exponent t = Some (e, r) ->
  t = exponent_text e ++ r /\
  match e with
  | Some (x, s, ds) => is_exponent x = true /\ match s with Some c => c = 43 \/ c = 45 | None => True end /\ digits_ok ds /\ digit (hd (-1) r) = false
  | None => is_exponent (hd (-1) r) = false
  end.
Proof.
  unfold read_exponent. destruct t as [|x t]; [by intros [= <- <-]|]. destruct (is_exponent x) eqn:Ex; [|by intros [= <- <-]].
  destruct t as [|c t]; [done|]. destruct ((c =? 43) || (c =? 45)) eqn:Ec.
  - destruct (read_digits t) as [[ds r']|] eqn:Ed; [|done]. intros [= <- <-]. apply read_digits_sound in Ed as (-> & Hd & Hr). split; [done|].
    split_and!; [done|lia|done..].
  - destruct (read_digits (c :: t)) as [[ds r']|] eqn:Ed; [|done]. intros [= <- <-]. apply read_digits_sound in Ed as (-> & Hd & Hr). done.
Qed.

Lemma read_fraction_sound t f r : read_fraction t = Some (f, r) ->
  t = fraction_text 46 f ++ r /\ match f with Some ds => digits_ok ds /\ digit (hd (-1) r) = false | None => hd (-1) r <> 46 end.
Proof.
  unfold read_fraction. destruct t as [|c t]; [by intros [= <- <-]|]. destruct (Z.eqb_spec c 46) as [->|Hc]; [|by intros [= <- <-]].
  destruct (read_digits t) as [[ds r']|] eqn:Ed; [|done]. intros [= <- <-]. apply read_digits_sound in Ed as (-> & Hd & Hr). done.
Qed.

Lemma read_int_sound t i r : read_int t = Some (i, r) ->
  t = i ++ r /\ digits_ok i /\ (hd 0 i = 48 -> i = [48]) /\ (i = [48] \/ digit (hd (-1) r) = false).
Proof.
  unfold read_int. destruct t as [|c t]; [done|]. destruct (Z.eqb_spec c 48) as [->|Hc].
  - intros [= <- <-]. split_and!; try done; [|by left]. split; [done|]. by repeat constructor.
  - intros (E & Hd & Hr)%read_digits_sound. split_and!; try done; [|by right]. destruct i as [|d i]; [by destruct Hd|]. cbn. by injection E as -> ->.
Qed.

Lemma read_number_sound t n r : read_number t = Some (n, r) -> t = number_text 46 n ++ r /\ number_ok n /\ stops n r.
Proof.
  unfold read_number. destruct (read_sign t) as [neg t1] eqn:Es. cbn.
  destruct (read_int t1) as [[i t2]|] eqn:Ei; [|done]. cbn. destruct (read_fraction t2) as [[f t3]|] eqn:Ef; [|done]. cbn.
  destruct (read_exponent t3) as [[e t4]|] eqn:Ee; [|done]. cbn. intros [= <- <-].
  apply read_int_sound in Ei as (-> & Hi & Hz & Hi2). apply read_fraction_sound in Ef as (-> & Hf). apply read_exponent_sound in Ee as (-> & He).
  split_and!.
  - unfold number_text. cbn. rewrite <- !app_assoc. unfold read_sign in Es. destruct t as [|c t]; [by injection Es as <- <-|].
    destruct (Z.eqb_spec c 45) as [->|]; by injection Es as <- <-.
  - split; cbn; [done|destruct f; [apply Hf|done]|]. destruct e as [[[x s] ds]|]; [|done]. by destruct He as (? & ? & ? & ?).
  - unfold stops. cbn. destruct e as [[[x s] ds]|]; [by destruct He as (? & ? & ? & ?)|]. split; [done|]. cbn in *.
    destruct f; [by destruct Hf|]. done.
Qed.

Lemma digit_cases c : digit c = true -> c <> 45 /\ c <> 46 /\ c <> 43 /\ is_exponent c = false.
Proof. unfold digit, is_exponent. lia. Qed.

Lemma read_number_complete n r : number_ok n -> stops n r -> read_number (number_text 46 n ++ r) = Some (n, r).
Proof.
  intros [[[Hi1 Hi2] Hz] Hf He] Hs. destruct n as [neg i f e]. unfold stops in Hs. cbn in *. unfold number_text, read_number. cbn. rewrite <- !app_assoc.
  destruct i as [|d i]; [done|]. apply Forall_cons in Hi2 as Hd. destruct Hd as [Hd _].
  assert (read_sign ((if neg then [45] else []) ++ (d :: i) ++ fraction_text 46 f ++ exponent_text e ++ r)
    = (neg, (d :: i) ++ fraction_text 46 f ++ exponent_text e ++ r)) as ->.
  { apply digit_cases in Hd. destruct neg; [done|]. cbn. by rewrite (proj2 (Z.eqb_neq d 45)) by lia. }
  assert (forall x, is_exponent x = true -> digit x = false) as Hx by (intros x; unfold is_exponent, digit; lia).
  assert (match e with None => True | _ => digit (hd (-1) (exponent_text e ++ r)) = false end) as Hde.
  { destruct e as [[[x s] ds]|]; [|done]. cbn. apply Hx, He. }
  assert (read_int ((d :: i) ++ fraction_text 46 f ++ exponent_text e ++ r) = Some (d :: i, fraction_text 46 f ++ exponent_text e ++ r)) as ->.
  { unfold read_int. cbn [app]. destruct (Z.eqb_spec d 48) as [->|]; [by injection (Hz eq_refl) as ->|].
    apply (read_digits_complete (d :: i)); [done|]. destruct f; [done|]. destruct e; [done|]. cbn. destruct Hs as (_ & _ & [[= -> ->]|?]); done. }
  cbn. assert (read_fraction (fraction_text 46 f ++ exponent_text e ++ r) = Some (f, exponent_text e ++ r)) as ->.
  { unfold read_fraction. destruct f as [ds|]; cbn.
    - rewrite read_digits_complete; [done|done|]. destruct e; [done|]. by destruct Hs.
    - destruct e as [[[x s] ds]|]; cbn.
      + destruct He as [He _]. unfold is_exponent in He. by rewrite (proj2 (Z.eqb_neq x 46)) by lia.
      + destruct Hs as (_ & Hs & _). destruct r as [|c r]; [done|]. cbn in Hs. by rewrite (proj2 (Z.eqb_neq c 46)). }
  cbn. assert (read_exponent (exponent_text e ++ r) = Some (e, r)) as ->; [|done].
  unfold read_exponent. destruct e as [[[x s] ds]|]; cbn.
  - destruct He as (-> & Hsg & Hds). destruct s as [c|]; cbn.
    + replace ((c =? 43) || (c =? 45)) with true by lia. by rewrite read_digits_complete.
    + pose proof Hds as [Hne Hfd]. destruct ds as [|d' ds]; [done|]. cbn. apply Forall_cons in Hfd as [Hfd _]. apply digit_cases in Hfd.
      replace ((d' =? 43) || (d' =? 45)) with false by lia. change (d' :: ds ++ r) with ((d' :: ds) ++ r). by rewrite read_digits_complete.
  - destruct Hs as [Hs _]. destruct r as [|c r]; [done|]. cbn in Hs. by rewrite Hs.
Qed.

(** ** The state machine of scan_number *)

Section Machine.
Context {F : Type} {HF : Floats F}.
#[local] Abbreviation switch := (number_switch (F := F)).
#[local] Abbreviation point := (decimal_point_char (F := F)).

(** What the machine adds to yytext, the type of the number, and what is left. *)
Definition prepend (w : list Z) (x : option (list Z * token_type * list Z)) : option (list Z * token_type * list Z) :=
  '(w', ty, r) ← x; Some (w ++ w', ty, r).

Fixpoint run (label : number_label) (ty : token_type) (t : list Z) : option (list Z * token_type * list Z) :=
  let ty := number_type_at label ty in
  match t with
  | [] => match switch label EOF with inr None => Some ([], ty, []) | _ => None end
  | c :: t' =>
      match switch label c with
      | inl (label', x) => prepend [x] (run label' ty t')
      | inr None => Some ([], ty, t)
      | inr (Some _) => None
      end
  end.

Lemma prepend_app w w' x : prepend w (prepend w' x) = prepend (w ++ w') x.
Proof. unfold prepend. destruct x as [[[]]|]; cbn; [|done]. by rewrite app_assoc. Qed.

Lemma prepend_nil x : prepend [] x = x.
Proof. by destruct x as [[[]]|]. Qed.

Lemma run_any2 ty t : run at_any2 ty t = Some (fst (span digit t), ty, snd (span digit t)).
Proof.
  induction t as [|c t IH]; [done|]. cbn [run number_switch number_type_at]. cbn [span]. destruct (digit c); [|done].
  rewrite IH. destruct (span digit t). done.
Qed.

Lemma run_digits ty t : (if digit (hd EOF t) then run at_any2 ty t else None) = '(ds, r) ← read_digits t; Some (ds, ty, r).
Proof.
  rewrite run_any2. unfold read_digits. destruct t as [|c t]; [done|]. cbn. destruct (digit c); [|done]. by destruct (span digit t).
Qed.

(** At a label that asks for a digit. *)
Lemma run_sign ty t : run at_sign ty t = '(ds, r) ← read_digits t; Some (ds, ty, r).
Proof.
  rewrite <- run_digits. destruct t as [|c t]; [done|]. cbn [run number_switch number_type_at hd]. destruct (digit c) eqn:Ec; [|done].
  rewrite !run_any2. cbn. try rewrite Ec. by destruct (span digit t).
Qed.

(** The end of a number from the exponent on, and from the fraction on. *)
Definition run_exponent (ty : token_type) (t : list Z) : option (list Z * token_type * list Z) :=
  '(e, r) ← read_exponent t; Some (exponent_text e, match e with Some _ => value_float | None => ty end, r).

Definition run_fraction (ty : token_type) (t : list Z) : option (list Z * token_type * list Z) :=
  '(f, r) ← read_fraction t; prepend (fraction_text point f) (run_exponent (match f with Some _ => value_float | None => ty end) r).

Lemma run_at_exponent ty e t : is_exponent e = true -> prepend [e] (run at_exponent ty t) = run_exponent ty (e :: t).
Proof.
  intros He. unfold run_exponent, read_exponent. rewrite He. destruct t as [|c t]; [done|]. cbn [run number_switch number_type_at].
  destruct ((c =? 43) || (c =? 45)) eqn:Ec.
  - rewrite run_sign. by destruct (read_digits t) as [[]|].
  - unfold read_digits. cbn [span]. destruct (digit c); [|done]. rewrite run_any2. by destruct (span digit t).
Qed.

Lemma run_at_decimal2 ty t : run at_decimal2 ty t = prepend (fst (span digit t)) (run_exponent ty (snd (span digit t))).
Proof.
  induction t as [|c t IH]; [done|]. cbn [run number_switch number_type_at]. cbn [span]. destruct (digit c) eqn:Ed.
  - rewrite IH, prepend_app. by destruct (span digit t).
  - cbn [fst snd]. rewrite prepend_nil. destruct (is_exponent c) eqn:Ee; [by apply run_at_exponent|]. unfold run_exponent, read_exponent. by rewrite Ee.
Qed.

Lemma run_at_zero ty t : run at_zero ty t = run_fraction ty t.
Proof.
  unfold run_fraction. destruct t as [|c t]; [done|]. cbn [run number_switch number_type_at]. unfold read_fraction.
  destruct (Z.eqb_spec c 46) as [->|Hc].
  - destruct t as [|d t]; [done|]. cbn [run number_switch number_type_at]. unfold read_digits. cbn [span]. destruct (digit d); [|done].
    rewrite run_at_decimal2, prepend_app. destruct (span digit t) as [ds r]. cbn. by rewrite prepend_app.
  - cbn [mbind option_bind fraction_text]. rewrite prepend_nil. destruct (is_exponent c) eqn:Ee; [by apply run_at_exponent|].
    unfold run_exponent, read_exponent. by rewrite Ee.
Qed.

Lemma run_at_any1 ty t : run at_any1 ty t = prepend (fst (span digit t)) (run_fraction ty (snd (span digit t))).
Proof.
  induction t as [|c t IH]; [done|]. cbn [span]. destruct (digit c) eqn:Ed.
  - cbn [run number_switch number_type_at]. rewrite Ed, IH, prepend_app. by destruct (span digit t).
  - cbn [fst snd]. rewrite prepend_nil, <- run_at_zero. cbn [run number_switch number_type_at]. by rewrite Ed.
Qed.

Definition start_label (c : Z) : number_label := if c =? 45 then at_minus else if c =? 48 then at_zero else at_any1.

(** The machine reads the number that is there. *)
Lemma run_int ty c t : digit c = true -> prepend [c] (run (if c =? 48 then at_zero else at_any1) ty t) =
  '(i, r) ← read_int (c :: t); prepend i (run_fraction ty r).
Proof.
  intros Hc. unfold read_int. destruct (Z.eqb_spec c 48) as [->|]; [by rewrite run_at_zero|].
  rewrite run_at_any1, prepend_app. unfold read_digits. cbn [span]. rewrite Hc. by destruct (span digit t).
Qed.

Lemma run_number c t : c = 45 \/ digit c = true ->
  prepend [c] (run (start_label c) value_unsigned t) = '(n, r) ← read_number (c :: t); Some (number_text point n, number_kind n, r).
Proof.
  intros Hc. unfold read_number, start_label. cbn [read_sign].
  assert (forall neg i r, prepend (if neg : bool then [45] else []) (prepend i (run_fraction (if neg then value_integer else value_unsigned) r)) =
    '(n, r) ← ('(f, t) ← read_fraction r; '(e, t) ← read_exponent t; Some (mkNumber neg i f e, t)); Some (number_text point n, number_kind n, r)) as Hgo.
  { intros neg i r. unfold run_fraction, run_exponent. destruct (read_fraction r) as [[f r1]|]; [|done]. cbn.
    destruct (read_exponent r1) as [[e r2]|]; [|done]. cbn. unfold number_text, number_kind. cbn. by destruct f, e. }
  destruct (Z.eqb_spec c 45) as [->|].
  - destruct t as [|d t]; [done|]. cbn [run number_switch number_type_at].
    destruct (digit d) eqn:Hd.
    + assert ((match (if d =? 48 then inl (at_zero, d) else inl (at_any1, d) : (number_label * Z) + option (list Z)) with
        | inl (label', x) => prepend [x] (run label' value_integer t) | inr (Some _) => None | inr None => Some ([], value_integer, d :: t) end)
        = prepend [d] (run (if d =? 48 then at_zero else at_any1) value_integer t)) as -> by (by destruct (d =? 48)).
      rewrite run_int by done. destruct (read_int (d :: t)) as [[i r]|]; [|done]. cbn. apply (Hgo true).
    + unfold digit in Hd. replace (d =? 48) with false by lia. cbn. unfold read_digits. cbn. unfold digit. rewrite Hd.
      by replace (d =? 48) with false by lia.
  - destruct Hc as [|Hc]; [done|]. rewrite run_int by done. destruct (read_int (c :: t)) as [[i r]|]; [|done]. cbn.
    rewrite <- (prepend_nil (prepend i _)). apply (Hgo false).
Qed.

End Machine.

(** ** The value of a number *)

(** strtod converts a number as a whole. *)
Class FloatLaws (F : Type) {HF : Floats F} := {
  point_byte : is_byte (decimal_point_char (F := F));
  strtod_reads n : number_ok n -> snd (strtod (number_text (decimal_point_char (F := F)) n)) = lengthZ (number_text (decimal_point_char (F := F)) n)
}.

Definition number_value {F} {HF : Floats F} (n : number) : json F :=
  let x := j_number_float (fst (strtod (number_text (decimal_point_char (F := F)) n))) in
  let v := decimal (int_part n) in
  match number_kind n with
  | value_unsigned => if v <? 2 ^ 64 then j_number_unsigned v else x
  | value_integer => if v <=? 2 ^ 63 then j_number_integer (- v) else x
  | _ => x
  end.

Lemma digits_all ds acc n : Forall (fun c => digit c = true) ds ->
  digits 10 ds acc n = (foldl (fun n c => n * 10 + (c - 48)) acc ds, (n + length ds)%nat, []).
Proof.
  intros H. revert acc n. induction H as [|c ds Hc _ IH]; intros acc n; cbn [digits foldl length]; [by rewrite Nat.add_0_r|].
  assert (digit_of 10 c = Some (c - 48)) as ->.
  { unfold digit in Hc. unfold digit_of, digit_value. rewrite Hc. by replace (c - 48 <? 10) with true by lia. }
  rewrite IH. f_equal. f_equal. lia.
Qed.

Lemma decimal_nonneg ds : Forall (fun c => digit c = true) ds -> 0 <= decimal ds.
Proof.
  intros H. unfold decimal. assert (forall acc, 0 <= acc -> 0 <= foldl (fun n c => n * 10 + (c - 48)) acc ds) as Hgo; [|by apply Hgo].
  induction H as [|c ds Hc _ IH]; intros acc Ha; cbn; [done|]. apply IH. unfold digit in Hc. lia.
Qed.

Lemma digit_no_space c : digit c = true -> isspace c = false.
Proof. unfold digit, isspace. lia. Qed.

Lemma strtoull_digits ds : digits_ok ds -> strtoull ds = (if decimal ds <? 2 ^ 64 then Some (decimal ds) else None, []).
Proof.
  intros [Hne H]. destruct ds as [|c ds]; [done|]. pose proof (proj1 (Forall_cons_1 _ _ _ H)) as Hc. unfold strtoull. cbn [skip_spaces].
  apply digit_cases in Hc as ?. rewrite digit_no_space, sign_none by (done || lia). rewrite digits_all by done. done.
Qed.

Lemma strtoll_digits ds : digits_ok ds -> strtoll (45 :: ds) = (if decimal ds <=? 2 ^ 63 then Some (- decimal ds) else None, []).
Proof.
  intros [Hne H]. unfold strtoll. cbn [skip_spaces]. change (isspace 45) with false. cbn [sign].
  change (45 =? 45) with true. cbv iota. rewrite digits_all by done. cbn. destruct ds as [|c ds]; [done|].
  fold (decimal (c :: ds)). pose proof (decimal_nonneg _ H). 
  replace (fits_signed 64 (- decimal (c :: ds))) with (decimal (c :: ds) <=? 2 ^ 63); [done|]. unfold fits_signed. lia.
Qed.

(** ** Tokens *)

(** The tokens and how they are written. *)
Inductive token := T_mark (t : token_type) | T_string (s : list Z) | T_number (n : number).

Definition mark_text (t : token_type) : option (list Z) :=
  match t with
  | begin_array => Some (chars "[")
  | end_array => Some (chars "]")
  | begin_object => Some (chars "{")
  | end_object => Some (chars "}")
  | name_separator => Some (chars ":")
  | value_separator => Some (chars ",")
  | literal_true => Some (chars "true")
  | literal_false => Some (chars "false")
  | literal_null => Some (chars "null")
  | _ => None
  end.

Definition token_text (tok : token) (u : list Z) : Prop :=
  match tok with
  | T_mark t => mark_text t = Some u
  | T_string s => exists v, spells s v /\ u = 34 :: v ++ [34]
  | T_number n => number_ok n /\ u = number_text 46 n
  end.

Definition token_stops (tok : token) (r : list Z) : Prop := match tok with T_number n => stops n r | _ => True end.

Definition blank (w : list Z) : Prop := Forall (fun c => is_whitespace c = true) w.

(** [lexes ts t r]: the text [t] begins with the tokens [ts], and [r] is behind them. *)
Inductive lexes : list token -> list Z -> list Z -> Prop :=
| lexes_nil r : lexes [] r r
| lexes_cons w tok u ts t r : blank w -> token_text tok u -> token_stops tok t -> lexes ts t r -> lexes (tok :: ts) (w ++ u ++ t) r.

(** Nothing but white space is left, in front of the end or of a NUL. *)
Definition ends (t : list Z) : Prop := exists w r, t = w ++ r /\ blank w /\ (r = [] \/ exists r', r = 0 :: r').

Lemma blank_unique w c x w' c' x' : blank w -> blank w' -> is_whitespace c = false -> is_whitespace c' = false ->
  w ++ c :: x = w' ++ c' :: x' -> w = w' /\ c = c' /\ x = x'.
Proof.
  intros Hw. revert w'. induction Hw as [|a w Ha _ IH]; intros w' Hw' Hc Hc' E; destruct Hw' as [|b w' Hb Hw']; cbn in E; injection E as E1 E2; subst; try congruence.
  - done.
  - destruct (IH w' Hw' Hc Hc' E2) as (-> & -> & ->). done.
Qed.

Lemma not_blank w c x : is_whitespace c = false -> ~ blank (w ++ c :: x).
Proof. intros Hc H. apply Forall_app in H as [_ H]. apply Forall_cons in H as [H _]. congruence. Qed.

Lemma number_head num : number_ok num -> exists c u, number_text 46 num = c :: u /\ (c = 45 \/ digit c = true).
Proof.
  intros [[[Hne Hd] _] _ _]. unfold number_text. destruct (negative num); [do 2 eexists; split; [done|by left]|].
  destruct (int_part num) as [|c ds]; [done|]. apply Forall_cons in Hd as [Hd _]. do 2 eexists. split; [done|by right].
Qed.

Lemma token_head tok u : token_text tok u -> exists c u', u = c :: u' /\ is_whitespace c = false.
Proof.
  destruct tok as [m|s|num]; cbn.
  - destruct m; intros [= <-]; by do 2 eexists.
  - intros (v & _ & ->). by do 2 eexists.
  - intros [Hn ->]. destruct (number_head num Hn) as (c & u & -> & H). do 2 eexists. split; [done|]. unfold is_whitespace, digit in *. lia.
Qed.

(** ** Scanning *)

Section Scanning.
Context {A F : Type} {HA : InputAdapter A} {HF : Floats F} {HL : AdapterLaws A} {HFL : FloatLaws F}.
Context (total : Z) (Htotal : total < 2 ^ 63).
#[local] Abbreviation L := (lexer A F).
#[local] Abbreviation at_input := (at_input total).
#[local] Abbreviation stopped := (stopped total).
Implicit Types l : L.

Definition unget l : L := set_next_unget true (set_chars_read (u64 (chars_read l - 1)) l).

Lemma switch_end label : exists x, number_switch (F := F) label EOF = inr x.
Proof. destruct label; cbn; eauto. Qed.

Lemma switch_byte label c label' x : is_byte c -> number_switch (F := F) label c = inl (label', x) -> is_byte x.
Proof. intros Hc. pose proof point_byte. unfold number_switch. intros. repeat case_match; by simplify_eq. Qed.

Lemma wp_machine fuel label ty l n t Q : at_input l n (Some t) -> (length t < fuel)%nat ->
  match run (F := F) label ty t with
  | Some (w, ty', r) => forall l1, yytext l1 = yytext l ++ w -> at_input (unget l1) (n + lengthZ t - lengthZ r) (Some r) -> wp nothing (scan_number_done ty') Q l1
  | None => forall l1, stopped l1 -> Q parse_error l1
  end -> wp nothing (iter fuel scan_number_round (label, ty)) Q l.
Proof.
  revert label ty l n t. induction fuel as [|fuel IH]; intros label ty l n t Hl Hfuel H; [lia|]. pose proof (at_input_nonneg _ _ _ _ Hl).
  cbn [iter]. wp_step. unfold scan_number_round. wp_step. destruct t as [|c t]; cbn [run] in H.
  - eapply (wp_get_end total Htotal); [done|]. intros l1 Hl1 Hg. destruct (switch_end label) as [[m|] E]; rewrite E in *.
    + unfold fail_with. repeat wp_step. apply H. eapply stopped_set; [done|lia].
    + wp_step. eapply wp_mono; [apply H|intros; by wp_step].
      * by rewrite (got_yytext _ _ _ Hg), app_nil_r.
      * rewrite lengthZ_nil, Z.add_0_r, Z.sub_0_r. apply (unget_end total Htotal); [done..|apply Hg|apply Hg].
  - eapply (wp_get_char total Htotal); [done|]. intros l1 Hl1 Hg Hb. destruct (number_switch label c) as [[label' x]|[m|]] eqn:E.
    + wp_step. apply add_spec. wp_step. apply switch_byte in E; [|done]. rewrite uwrap_small by done.
      eapply (IH _ _ _ (n + 1) t); [by eapply at_input_set|cbn in Hfuel; lia|].
      destruct (run label' _ t) as [[[w ty'] r]|]; [|done]. cbn in H. intros l2 Hy2 Hl2. apply H.
      * rewrite Hy2. cbn. by rewrite (got_yytext _ _ _ Hg), <- app_assoc.
      * rewrite lengthZ_cons. by replace (n + (1 + lengthZ t) - lengthZ r) with (n + 1 + lengthZ t - lengthZ r) by lia.
    + unfold fail_with. repeat wp_step. apply H. eapply stopped_set; [done|lia].
    + wp_step. eapply wp_mono; [apply H|intros; by wp_step].
      * by rewrite (got_yytext _ _ _ Hg), app_nil_r.
      * replace (n + lengthZ (c :: t) - lengthZ (c :: t)) with n by lia. apply (unget_char total Htotal); [done..|apply Hg|apply Hg|done].
Qed.

(** The number that the lexer holds. *)
Definition holds_number l (tok : token_type) (j : json F) : Prop :=
  match j with
  | j_number_unsigned v => tok = value_unsigned /\ number_unsigned l = v
  | j_number_integer v => tok = value_integer /\ number_integer l = v
  | j_number_float x => tok = value_float /\ number_float l = x
  | _ => False
  end.

Lemma number_digits num : number_ok num -> fraction num = None -> exponent num = None ->
  number_text (decimal_point_char (F := F)) num = (if negative num then [45] else []) ++ int_part num.
Proof. intros _ Ef Ee. unfold number_text. rewrite Ef, Ee. cbn. by rewrite app_nil_r. Qed.

Lemma scan_number_done_spec num l n r : at_input (unget l) n (Some r) -> number_ok num -> yytext l = number_text (decimal_point_char (F := F)) num ->
  wp nothing (scan_number_done (number_kind num)) (fun tok l' => at_input l' n (Some r) /\ holds_number l' tok (number_value num)) l.
Proof.
  intros Hl Hn Hy. unfold scan_number_done. wp_step. wp_step. change (set_next_unget true _) with (unget l). wp_step. wp_step. unfold id.
  change (yytext (unget l)) with (yytext l). rewrite Hy.
  assert (forall j, j = j_number_float (fst (strtod (number_text (decimal_point_char (F := F)) num))) ->
    wp nothing (let '(x, n) := strtod (number_text (decimal_point_char (F := F)) num) in
      modify (set_number_float x) ;; CHECK (n =? lengthZ (number_text (decimal_point_char (F := F)) num)) ;; ret value_float)
      (fun tok l' => at_input l' n (Some r) /\ holds_number l' tok j) (unget l)) as Hfloat.
  { intros j ->. pose proof (strtod_reads num Hn) as E. destruct (strtod _) as [x m]. cbn in E. subst m. repeat wp_step; [|lia].
    split; [by eapply at_input_set|done]. }
  unfold number_value, number_kind. destruct (int_ok _ Hn) as [Hi _].
  destruct (fraction num) as [ds|] eqn:Ef; [by apply Hfloat|]. destruct (exponent num) as [e|] eqn:Ee; [by apply Hfloat|].
  rewrite (number_digits num) in Hfloat |- * by done. destruct (negative num); cbn [app] in *.
  - rewrite strtoll_digits by done. wp_step. wp_step; [|done]. destruct (decimal (int_part num) <=? 2 ^ 63); [|by apply Hfloat].
    repeat wp_step. split; [by eapply at_input_set|done].
  - rewrite strtoull_digits by done. wp_step. wp_step; [|done]. destruct (decimal (int_part num) <? 2 ^ 64); [|by apply Hfloat].
    repeat wp_step. split; [by eapply at_input_set|done].
Qed.

Definition holds l (tok : token) (t : token_type) : Prop :=
  match tok with
  | T_mark m => t = m
  | T_string s => t = value_string /\ yytext l = s
  | T_number n => holds_number l t (number_value n)
  end.

Lemma wp_reset b l n t (Q : unit -> L -> Prop) : at_input l n (Some t) -> next_unget l = false -> 0 < n ->
  (forall l', at_input l' n (Some t) -> yytext l' = [] -> current l' = current l -> Q tt l') -> wp b reset Q l.
Proof.
  intros (En & H0 & Ht & m & Hs & H) Eu Hn HQ. pose proof (lengthZ_nonneg t). rewrite Eu in H. destruct H as [Hf Hm]. apply wp_modify. apply HQ; [|done..].
  split_and!; cbn; [done..|]. exists m. rewrite Eu. rewrite En, uwrap_small by (unfold in_unsigned; lia). split_and!; (done || lia).
Qed.

Lemma wp_scan_number fuel c l n t : at_input l n (Some t) -> (length t < fuel)%nat -> next_unget l = false -> 0 < n -> current l = c -> is_byte c ->
  c = 45 \/ digit c = true ->
  wp nothing (scan_number fuel) (fun tok l' => match read_number (c :: t) with
    | Some (num, r) => at_input l' (n + lengthZ t - lengthZ r) (Some r) /\ holds_number l' tok (number_value num)
    | None => tok = parse_error /\ stopped l' end) l.
Proof.
  intros Hl Hfuel Hu Hn Hc Hb Hd. unfold scan_number. wp_step. eapply wp_reset; [done..|]. intros l1 Hl1 Hy1 Hc1. wp_step. wp_step. unfold id.
  rewrite Hc1, Hc. wp_step. wp_step; [|unfold digit in *; lia].
  wp_step. apply add_spec. rewrite uwrap_small, Hy1 by done. eapply (wp_machine _ _ _ _ n t); [by eapply at_input_set|done|].
  pose proof (run_number (F := F) c t Hd) as E. unfold start_label in E. destruct (run _ _ t) as [[[w ty] r]|]; cbn in E.
  - destruct (read_number (c :: t)) as [[num r']|] eqn:En; [|done]. cbn in E. injection E as E1 -> ->.
    intros l2 Hy2 Hl2. cbn in Hy2. apply scan_number_done_spec; [done|by apply (read_number_sound _ _ _ En)|]. by rewrite Hy2.
  - destruct (read_number (c :: t)) as [[num r']|]; [done|]. done.
Qed.

Lemma wp_literal text rt l n t : Forall is_byte text -> at_input l n (Some t) ->
  wp nothing (scan_literal_loop text rt) (fun tok l' =>
    (tok = rt /\ exists r, t = text ++ r /\ at_input l' (n + lengthZ text) (Some r)) \/ 
    (tok = parse_error /\ stopped l' /\ forall r, t <> text ++ r)) l.
Proof.
  intros Ht. revert l n t. induction Ht as [|x text Hx _ IH]; intros l n t Hl; cbn [scan_literal_loop].
  { wp_step. left. split; [done|]. exists t. by rewrite lengthZ_nil, Z.add_0_r. }
  pose proof (at_input_nonneg _ _ _ _ Hl). wp_step. destruct t as [|c t].
  { eapply (wp_get_end total Htotal); [done|]. intros l1 Hl1 _. unfold is_byte in Hx. replace (EOF =? x) with false by (unfold EOF; lia). cbn [negb].
    unfold fail_with. repeat wp_step. right. split_and!; [done|eapply stopped_set; [done|lia]|done]. }
  eapply (wp_get_char total Htotal); [done|]. intros l1 Hl1 Hg Hb. destruct (Z.eqb_spec c x) as [->|Hne]; cbn [negb].
  - eapply wp_mono; [by apply (IH _ (n + 1) t)|]. intros tok l2 [(-> & r & -> & Hl2)|(-> & Hs & Hno)].
    + left. split; [done|]. exists r. split; [done|]. rewrite lengthZ_cons. by replace (n + (1 + lengthZ text)) with (n + 1 + lengthZ text) by lia.
    + right. split_and!; [done..|]. intros r [= E]. by apply (Hno r).
  - unfold fail_with. repeat wp_step. right. split_and!; [done|eapply stopped_set; [done|lia]|]. intros r [= E1 E2]. done.
Qed.

Lemma wp_skip fuel l n t Q : at_input l n (Some t) -> (length t < fuel)%nat ->
  (forall w c r l', t = w ++ c :: r -> blank w -> is_whitespace c = false -> at_input l' (n + lengthZ w + 1) (Some r) -> current l' = c ->
     next_unget l' = false -> is_byte c -> Q c l') ->
  (forall l', blank t -> at_input l' (n + lengthZ t + 1) None -> Q EOF l') ->
  wp nothing (iter fuel skip_round tt) Q l.
Proof.
  revert l n t. induction fuel as [|fuel IH]; intros l n t Hl Hfuel Hc He; [lia|]. cbn [iter]. unfold skip_round at 1. wp_step. wp_step. destruct t as [|c t].
  - eapply (wp_get_end total Htotal); [done|]. intros l1 Hl1 _. cbn. apply He; [constructor|]. by rewrite lengthZ_nil, Z.add_0_r.
  - eapply (wp_get_char total Htotal); [done|]. intros l1 Hl1 Hg Hb. wp_step. destruct (is_whitespace c) eqn:Ew.
    + eapply (IH _ (n + 1) t); [done|cbn in Hfuel; lia| |].
      * intros w d r l2 -> Hw Hd Hl2. apply (Hc (c :: w) d r); [done|by constructor|done|]. rewrite lengthZ_cons.
        by replace (n + (1 + lengthZ w) + 1) with (n + 1 + lengthZ w + 1) by lia.
      * intros l2 Hw Hl2. apply He; [by constructor|]. rewrite lengthZ_cons. by replace (n + (1 + lengthZ t) + 1) with (n + 1 + lengthZ t + 1) by lia.
    + wp_step. apply (Hc [] c t); [done|constructor|done| |apply Hg|apply Hg|done]. by rewrite lengthZ_nil, Z.add_0_r.
Qed.

(** What scan makes of a text behind white space: a token, the end, or an error. *)
Definition scanned l (n c : Z) (t : list Z) (tt : token_type) l' : Prop :=
  (exists tok u r, c :: t = u ++ r /\ token_text tok u /\ token_stops tok r /\ holds l' tok tt /\ at_input l' (n - 1 + lengthZ u) (Some r)) \/
  (tt = end_of_input /\ c = 0 /\ l' = l) \/ (tt = parse_error /\ stopped l').

(** One token from its first character on. *)
Lemma scan_switch_sound fuel c l n t : at_input l n (Some t) -> (length t < fuel)%nat -> next_unget l = false -> 0 < n -> current l = c -> is_byte c ->
  wp nothing (scan_switch fuel c) (scanned l n c t) l.
Proof.
  intros Hl Hfuel Hu Hn Hc Hb. unfold scan_switch.
  assert (forall m x, mark_text m = Some [x] -> c = x -> wp nothing (ret m) (scanned l n c t) l) as Hmark.
  { intros m x Hm ->. wp_step. left. exists (T_mark m), [x], t. split_and!; [done..|]. change (lengthZ [x]) with 1. by replace (n - 1 + 1) with n by lia. }
  assert (forall m x text, mark_text m = Some (x :: text) -> Forall is_byte text -> c = x -> wp nothing (scan_literal (x :: text) m) (scanned l n c t) l) as Hliteral.
  { intros m x text Hm Ht ->. unfold scan_literal. wp_step. wp_step. wp_step. unfold id. change (byte_at (x :: text) 0) with x. wp_step; [|lia]. cbn [tl].
    eapply wp_mono; [by apply (wp_literal text m _ n t)|]. intros tok l2 [(-> & r & -> & Hl2)|(-> & Hs & _)]; [left|by right; right].
    exists (T_mark m), (x :: text), r. split_and!; [done..|]. rewrite lengthZ_cons. by replace (n - 1 + (1 + lengthZ text)) with (n + lengthZ text) by lia. }
  destruct (Z.eqb_spec c 91); [by eapply Hmark|]. destruct (Z.eqb_spec c 93); [by eapply Hmark|]. destruct (Z.eqb_spec c 123); [by eapply Hmark|].
  destruct (Z.eqb_spec c 125); [by eapply Hmark|]. destruct (Z.eqb_spec c 58); [by eapply Hmark|]. destruct (Z.eqb_spec c 44); [by eapply Hmark|].
  destruct (Z.eqb_spec c 116); [by apply Hliteral; [|by_decide|]|]. destruct (Z.eqb_spec c 102); [by apply Hliteral; [|by_decide|]|].
  destruct (Z.eqb_spec c 110); [by apply Hliteral; [|by_decide|]|].
  destruct (Z.eqb_spec c 34) as [->|].
  { unfold scan_string. wp_step. eapply wp_reset; [done..|]. intros l1 Hl1 Hy1 Hc1. wp_step. wp_step. wp_step. unfold id. wp_step; [|lia].
    eapply wp_mono; [by eapply (scan_string_sound total Htotal)|]. intros tok l2 [(-> & s & u & r & -> & Hs & Hw1 & Hw2)|(-> & Hs)]; [left|by right; right].
    exists (T_string s), (34 :: u ++ [34]), r. split_and!; [cbn; by rewrite <- app_assoc|by exists u|done|split; [done|by rewrite Hw2, Hy1]|].
    rewrite lengthZ_cons, lengthZ_app. change (lengthZ [34]) with 1. by replace (n - 1 + (1 + (lengthZ u + 1))) with (n + lengthZ u + 1) by lia. }
  destruct ((c =? 45) || digit c) eqn:Ed.
  { assert (c = 45 \/ digit c = true) as Hd by (unfold digit in *; lia). eapply wp_mono; [by apply (wp_scan_number fuel c l n t)|].
    intros tok l2. destruct (read_number (c :: t)) as [[num r]|] eqn:En; [|by right; right]. intros [Hl2 Hh]. left.
    apply read_number_sound in En as (E & Hok & Hstops). exists (T_number num), (number_text 46 num), r. split_and!; [done..|].
    apply (f_equal lengthZ) in E. rewrite lengthZ_cons, lengthZ_app in E.
    by replace (n - 1 + lengthZ (number_text 46 num)) with (n + lengthZ t - lengthZ r) by lia. }
  destruct ((c =? 0) || (c =? EOF)) eqn:Ez; [wp_step; right; left; unfold EOF in Ez; unfold is_byte in Hb; split_and!; [done|lia|done]|].
  unfold fail_with. repeat wp_step. right. right. split; [done|by eapply stopped_set].
Qed.

Lemma scan_sound fuel l n t : at_input l n (Some t) -> (length t < fuel)%nat ->
  wp nothing (scan fuel) (fun tt l' =>
    (exists tok w u r, t = w ++ u ++ r /\ blank w /\ token_text tok u /\ token_stops tok r /\ holds l' tok tt /\
       at_input l' (n + lengthZ w + lengthZ u) (Some r)) \/
    (tt = end_of_input /\ ends t /\ stopped l') \/ (tt = parse_error /\ stopped l')) l.
Proof.
  intros Hl Hfuel. pose proof (at_input_nonneg _ _ _ _ Hl). unfold scan. wp_step. eapply wp_skip; [done..| |].
  - intros w c r l1 -> Hw Hc Hl1 Hcur Hu Hb. pose proof (lengthZ_nonneg w).
    eapply wp_mono; [apply (scan_switch_sound fuel c l1 _ r Hl1); [rewrite length_app in Hfuel; cbn in Hfuel; lia|done|lia|done..]|].
    intros tt l2 [(tok & u & r' & E & Ht & Hs & Hh & Hl2)|[(-> & -> & ->)|Herr]]; [left|right; left|by right; right].
    + exists tok, w, u, r'. rewrite <- E. split_and!; try done. by replace (n + lengthZ w + lengthZ u) with (n + lengthZ w + 1 - 1 + lengthZ u) by lia.
    + split_and!; [done| |exists (n + lengthZ w + 1), (Some r); split; [done|lia]]. exists w, (0 :: r). eauto.
  - intros l1 Hw Hl1. pose proof (lengthZ_nonneg t). cbn. right. left. split_and!; [done| |exists (n + lengthZ t + 1), None; split; [done|lia]].
    exists t, []. rewrite app_nil_r. auto.
Qed.

Lemma scan_switch_complete fuel tok u r c l n t : c :: t = u ++ r -> token_text tok u -> token_stops tok r ->
  at_input l n (Some t) -> (length t < fuel)%nat -> next_unget l = false -> 0 < n -> current l = c -> is_byte c ->
  wp nothing (scan_switch fuel c) (fun tt l' => holds l' tok tt /\ at_input l' (n - 1 + lengthZ u) (Some r)) l.
Proof.
  intros E Ht Hs Hl Hfuel Hu Hn Hc Hb. destruct tok as [m|s|num]; cbn in Ht.
  - assert (forall x, mark_text m = Some [x] -> u = [x] -> wp nothing (ret m) (fun tt l' => holds l' (T_mark m) tt /\ at_input l' (n - 1 + lengthZ u) (Some r)) l) as Hmark.
    { intros x _ ->. injection E as <- ->. wp_step. split; [done|]. change (lengthZ [c]) with 1. by replace (n - 1 + 1) with n by lia. }
    assert (forall x text, u = x :: text -> Forall is_byte text ->
      wp nothing (scan_literal (x :: text) m) (fun tt l' => holds l' (T_mark m) tt /\ at_input l' (n - 1 + lengthZ u) (Some r)) l) as Hliteral.
    { intros x text -> Htext. injection E as <- ->. unfold scan_literal. wp_step. wp_step. wp_step. unfold id. change (byte_at (c :: text) 0) with c.
      wp_step; [|lia]. cbn [tl]. eapply wp_mono; [by apply (wp_literal text m _ n)|]. intros tt l2 [(-> & r' & Er & Hl2)|(_ & _ & Hno)]; [|by edestruct Hno].
      apply app_inv_head in Er as <-. split; [done|]. rewrite lengthZ_cons. by replace (n - 1 + (1 + lengthZ text)) with (n + lengthZ text) by lia. }
    destruct m; try discriminate Ht; injection Ht as <-; cbn in E; injection E as -> ->; first [by eapply Hmark|by apply Hliteral; [|by_decide]].
  - destruct Ht as (v & Hv & ->). cbn in E. injection E as -> ->. rewrite <- app_assoc in *. cbn [app] in *.
    change (scan_switch fuel 34) with (scan_string (A := A) (F := F) fuel). unfold scan_string. wp_step. eapply wp_reset; [done..|]. intros l1 Hl1 Hy1 Hc1. wp_step. wp_step. wp_step. unfold id. wp_step; [|lia].
    eapply wp_mono; [by eapply (scan_string_complete total Htotal s v)|]. intros tok l2 (-> & Hw1 & Hw2). split; [split; [done|by rewrite Hw2, Hy1]|].
    rewrite lengthZ_cons, lengthZ_app. change (lengthZ [34]) with 1. by replace (n - 1 + (1 + (lengthZ v + 1))) with (n + lengthZ v + 1) by lia.
  - destruct Ht as [Hok ->]. destruct (number_head num Hok) as (c' & u & Eu & Hd). pose proof E as E'. rewrite Eu in E'. injection E' as <- ->.
    assert (scan_switch (A := A) (F := F) fuel c = scan_number fuel) as ->.
    { unfold scan_switch, digit in *. repeat case_match; lia || done. }
    eapply wp_mono; [by apply (wp_scan_number fuel c l n (u ++ r))|]. intros tt l2. cbn in Hs. rewrite E, read_number_complete by done. intros [Hl2 Hh]. split; [done|].
    rewrite lengthZ_app in Hl2. rewrite Eu, lengthZ_cons. by replace (n - 1 + (1 + lengthZ u)) with (n + (lengthZ u + lengthZ r) - lengthZ r) by lia.
Qed.

Lemma scan_complete fuel tok w u r l n : blank w -> token_text tok u -> token_stops tok r ->
  at_input l n (Some (w ++ u ++ r)) -> (length (w ++ u ++ r) < fuel)%nat ->
  wp nothing (scan fuel) (fun tt l' => holds l' tok tt /\ at_input l' (n + lengthZ w + lengthZ u) (Some r)) l.
Proof.
  intros Hw Ht Hs Hl Hfuel. pose proof (at_input_nonneg _ _ _ _ Hl). destruct (token_head tok u Ht) as (c & u' & -> & Hc). unfold scan. wp_step.
  eapply wp_skip; [done..| |].
  - intros w' c' r' l1 E Hw' Hc' Hl1 Hcur Hu Hb. cbn [app] in E. destruct (blank_unique _ _ _ _ _ _ Hw Hw' Hc Hc' E) as (<- & <- & <-). pose proof (lengthZ_nonneg w).
    eapply wp_mono; [eapply (scan_switch_complete fuel tok (c :: u') r c l1); try done; [rewrite !length_app in Hfuel; cbn in Hfuel; rewrite ?length_app in *; lia|lia]|].
    intros tt l2 [Hh Hl2]. split; [done|]. by replace (n + lengthZ w + lengthZ (c :: u')) with (n + lengthZ w + 1 - 1 + lengthZ (c :: u')) by lia.
  - intros l1 Hbl. by apply not_blank in Hbl.
Qed.

Lemma scan_end fuel l n t : ends t -> at_input l n (Some t) -> (length t < fuel)%nat ->
  wp nothing (scan fuel) (fun tt l' => tt = end_of_input /\ stopped l') l.
Proof.
  intros (w & r & -> & Hw & Hr) Hl Hfuel. pose proof (at_input_nonneg _ _ _ _ Hl). pose proof (lengthZ_nonneg w). unfold scan. wp_step. eapply wp_skip; [done..| |].
  - intros w' c' r' l1 E Hw' Hc' Hl1 Hcur Hu Hb. destruct Hr as [->|(r2 & ->)].
    { exfalso. rewrite app_nil_r in E. subst. by apply not_blank in Hw. }
    destruct (blank_unique w 0 r2 w' c' r' Hw Hw' eq_refl Hc' E) as (<- & <- & <-). cbn. split; [done|]. exists (n + lengthZ w + 1), (Some r2). split; [done|lia].
  - intros l1 Hbl Hl1. cbn. split; [done|]. pose proof (lengthZ_nonneg (w ++ r)). eexists _, None. split; [done|lia].
Qed.

End Scanning.
