(* ===== verification/JsonSpec.v ===== *)
(** * What the parser of JSON promises

    The grammar of JSON over tokens, and that parse returns a value exactly when the
    text is one; that accept agrees with parse; that no input is undefined. *)

From S2P Require Import Prelude CLib Memory Buffer Utf8 Json JsonLexSpec JsonTokens JsonParser.

(** ** The grammar *)

(** Items separated by commas. *)
Inductive separated {X : Type} (item : X -> list token -> Prop) : list X -> list token -> Prop :=
| separated_one x ts : item x ts -> separated item [x] ts
| separated_more x ts l ts' : item x ts -> separated item l ts' -> separated item (x :: l) (ts ++ T_mark value_separator :: ts').

Inductive member {F : Type} (item : json F -> list token -> Prop) : list Z * json F -> list token -> Prop :=
| member_intro k v ts : item v ts -> member item (k, v) (T_string k :: T_mark name_separator :: ts).

(** The first value of a key is kept. *)
Definition object_of {F} (ms : list (list Z * json F)) : json F := j_object (foldl (fun m kv => emplace (fst kv) (snd kv) m) [] ms).

Definition finite {F} {HF : Floats F} (j : json F) : bool := match j with j_number_float x => isfinite x | _ => true end.

Section Grammar.
Context {F : Type} {HF : Floats F}.

#[warnings="-register-all"] Inductive value_tokens : json F -> list token -> Prop :=
| v_null : value_tokens j_null [T_mark literal_null]
| v_true : value_tokens (j_boolean true) [T_mark literal_true]
| v_false : value_tokens (j_boolean false) [T_mark literal_false]
| v_number n : finite (number_value (F := F) n) = true -> value_tokens (number_value n) [T_number n]
| v_string s : value_tokens (j_string s) [T_string s]
| v_empty_array : value_tokens (j_array []) [T_mark begin_array; T_mark end_array]
| v_array l ts : separated value_tokens l ts -> value_tokens (j_array l) (T_mark begin_array :: ts ++ [T_mark end_array])
| v_empty_object : value_tokens (j_object []) [T_mark begin_object; T_mark end_object]
| v_object ms ts : separated (member value_tokens) ms ts -> value_tokens (object_of ms) (T_mark begin_object :: ts ++ [T_mark end_object]).

(** A text is a value between white space. *)
Definition document (j : json F) (t : list Z) : Prop := exists ts r, value_tokens j ts /\ lexes ts t r /\ ends r.

End Grammar.

Lemma lexes_app a b t r r' : lexes a t r -> lexes b r r' -> lexes (a ++ b) t r'.
Proof. induction 1; intros; cbn; [done|]. constructor; auto. Qed.

(** The items read so far, with the comma behind them. *)
Definition begun {X} (item : X -> list token -> Prop) (l : list X) (ts : list token) : Prop :=
  (l = [] /\ ts = []) \/ exists ts', separated item l ts' /\ ts = ts' ++ [T_mark value_separator].

Lemma separated_snoc {X} (item : X -> list token -> Prop) l ts x ts' : separated item l ts -> item x ts' ->
  separated item (l ++ [x]) (ts ++ T_mark value_separator :: ts').
Proof.
  induction 1; intros; cbn; [by constructor; [|constructor]|]. rewrite <- app_assoc. cbn. constructor; auto.
Qed.

Lemma begun_item {X} (item : X -> list token -> Prop) l ts x ts' : begun item l ts -> item x ts' -> separated item (l ++ [x]) (ts ++ ts').
Proof.
  intros [(-> & ->)|(ts0 & H & ->)] Hx; [by constructor|]. rewrite <- app_assoc. by apply separated_snoc.
Qed.

(** ** Soundness *)

Section Sound.
Context {A F U : Type} {HA : InputAdapter A} {HF : Floats F} {HL : AdapterLaws A} {HFL : FloatLaws F}.
Context (callback : option (parser_callback_t F U)) (allow_exceptions : bool).
Context (total : Z) (Hsmall : total < 2 ^ 31 - 2) (fuel : nat) (Hfuel : (Z.to_nat total < fuel)%nat).
#[local] Abbreviation P := (parser A F U).
#[local] Abbreviation at_input := (at_input total).
#[local] Abbreviation stopped := (stopped total).
#[local] Abbreviation expect := (expect (A := A) (F := F) (U := U) allow_exceptions).
Implicit Types (p : P) (j v : json F).

Lemma Htotal : total < 2 ^ 63.
Proof. lia. Qed.

(** The position of an error is that of a character or of the end. *)
Definition error_ok (e : exception) : Prop :=
  match e with
  | parse_error_exception id byte _ => id = 101 /\ 1 <= byte <= total + 1
  | out_of_range_exception id _ => id = 406
  end.

Lemma at_input_bound (l : lexer A F) n t : at_input l n (Some t) -> (length t < fuel)%nat /\ n <= total /\ 0 <= n.
Proof. intros (_ & H0 & Ht & _). unfold lengthZ in *. lia. Qed.

(** [same p p']: the lexer and the last token may have changed. *)
Definition same p p' : Prop := depth p' = depth p /\ errored p' = errored p.

Lemma wp_get_token p n t Q : at_input (m_lexer p) n (Some t) ->
  (forall tok w u r p', t = w ++ u ++ r -> blank w -> token_text tok u -> token_stops tok r -> holds (m_lexer p') tok (last_token p') ->
     at_input (m_lexer p') (n + lengthZ w + lengthZ u) (Some r) -> same p p' -> Q (last_token p') p') ->
  (forall p', last_token p' = end_of_input -> ends t -> stopped (m_lexer p') -> same p p' -> Q end_of_input p') ->
  (forall p', last_token p' = parse_error -> stopped (m_lexer p') -> same p p' -> Q parse_error p') ->
  wp nothing (get_token fuel) Q p.
Proof.
  intros Hl Htok Hend Herr. destruct (at_input_bound _ _ _ Hl) as [Hf _]. unfold get_token, on_lexer. wp_step. wp_step.
  eapply wp_mono; [by apply (scan_sound total Htotal fuel _ n t)|]. intros tt l [(tok & w & u & r & -> & Hw & Ht & Hs & Hh & Hl')|[(-> & He & Hs)|(-> & Hs)]];
    wp_step; wp_step; wp_step.
  - by eapply (Htok tok w u r (set_last_token tt (set_m_lexer l p))).
  - by apply Hend.
  - by apply Herr.
Qed.

Lemma wp_token_string (l : lexer A F) (Q : list Z -> lexer A F -> Prop) : stopped l -> (forall s l', Q s l') -> wp nothing get_token_string Q l.
Proof.
  intros (n & r & (_ & _ & _ & m & Hs & H) & Hn) HQ. unfold get_token_string. wp_step. wp_step. wp_step. wp_step. unfold id.
  assert (exists r', feeds (ia l) m r') as [r' Hf].
  { destruct (next_unget l); [|destruct H; eauto]. destruct r as [[|c t]|]; [|destruct H as (_ & _ & ? & _); eauto|done]. destruct H as (_ & ? & _). eauto. }
  destruct (feeds_read (ia l) m r' (start_pos l) (u64 (chars_read l - start_pos l))) as (s & a' & E); [done|done|by apply uwrap_range|].
  unfold wp. rewrite E. apply HQ.
Qed.

Lemma wp_throw p (Q : exception -> P -> Prop) : stopped (m_lexer p) -> (forall e p', error_ok e -> Q e p') -> wp nothing throw_exception Q p.
Proof.
  intros Hs HQ. unfold throw_exception, on_lexer. wp_step. wp_step. wp_step. unfold id. 
  assert (error_ok (parse_error_create 101 (chars_read (m_lexer p)) [])) as He.
  { destruct Hs as (n & r & (En & _ & Ht & _) & Hn). cbn. rewrite En. split; [done|]. destruct r as [t|]; [pose proof (lengthZ_nonneg t)|]; lia. }
  destruct (decide (last_token p = parse_error)).
  - wp_step. wp_step. apply wp_token_string; [done|]. intros s l'. wp_step. wp_step. by apply HQ.
  - wp_step. wp_step. by apply HQ.
Qed.

Lemma wp_expect t p (Q : result bool -> P -> Prop) : stopped (m_lexer p) ->
  (t = last_token p -> Q (Returns true) p) -> (forall e p', error_ok e -> Q (Throws e) p') ->
  (forall p', allow_exceptions = false -> errored p' = true -> Q (Returns false) p') -> wp nothing (expect t) Q p.
Proof.
  intros Hs Htrue Hthrow Hfalse. unfold JsonParser.expect. wp_step. wp_step. unfold id. destruct (decide (t = last_token p)); [wp_step; auto|].
  wp_step. wp_step. destruct allow_exceptions.
  - wp_step. apply wp_throw; [done|]. intros. wp_step. auto.
  - wp_step. by apply Hfalse.
Qed.

(** *** Positions *)

(** The text that is left of the input fixes the position. *)
Definition here p (t : list Z) : Prop := at_input (m_lexer p) (total - lengthZ t) (Some t).

(** The depth moves by one per character at most. *)
Definition settled p (t : list Z) : Prop := here p t /\ errored p = false /\ Z.abs (depth p) <= total - lengthZ t.

Definition carries (l : lexer A F) (tok : token) (tt : token_type) : Prop := (exists u, token_text tok u) /\ holds l tok tt.

Definition loaded p (tok : token) (t : list Z) : Prop :=
  carries (m_lexer p) tok (last_token p) /\ here p t /\ errored p = false /\ Z.abs (depth p) < total - lengthZ t.

(** No token: the end of the text [t], or an error of the lexer. *)
Definition broken p (t : list Z) : Prop :=
  (last_token p = end_of_input /\ ends t \/ last_token p = parse_error) /\ stopped (m_lexer p) /\ errored p = false.

Definition next p (t : list Z) : Prop := (exists tok r, lexes [tok] t r /\ loaded p tok r) \/ broken p t.

Lemma loaded_stopped p tok t : loaded p tok t -> stopped (m_lexer p).
Proof. intros (_ & H & _ & Hd). exists (total - lengthZ t), (Some t). split; [done|lia]. Qed.

Lemma next_stopped p t : next p t -> stopped (m_lexer p).
Proof. intros [(tok & r & _ & H)|H]; [by eapply loaded_stopped|apply H]. Qed.

Lemma next_errored p t : next p t -> errored p = false.
Proof. intros [(tok & r & _ & H)|H]; apply H. Qed.

Lemma at_input_here (l : lexer A F) n t : at_input l n (Some t) -> n = total - lengthZ t.
Proof. intros (_ & _ & H & _). lia. Qed.

Lemma lexes_one tok w u r : blank w -> token_text tok u -> token_stops tok r -> lexes [tok] (w ++ u ++ r) r.
Proof. intros. constructor; try done. constructor. Qed.

Lemma lexes_shorter ts t r : lexes ts t r -> (length r + length ts <= length t)%nat.
Proof.
  induction 1 as [|w tok u ts t r Hw Ht Hs _ IH]; cbn; [lia|]. destruct (token_head tok u Ht) as (c & u' & -> & _). rewrite length_app. cbn. rewrite length_app. lia.
Qed.

Lemma lexes_shorterZ tok ts t r : lexes (tok :: ts) t r -> lengthZ r < lengthZ t.
Proof. intros H%lexes_shorter. unfold lengthZ. cbn in H. lia. Qed.

Lemma wp_next p t Q : settled p t -> (forall p', next p' t -> Q (last_token p') p') -> wp nothing (get_token fuel) Q p.
Proof.
  intros (Hh & He & Hd) HQ. eapply wp_get_token; [done|..].
  - intros tok w u r p' -> Hw Ht Hs Hl Hp [Ed Ee]. apply HQ. left. exists tok, r. pose proof (lexes_one _ _ _ _ Hw Ht Hs) as Hx.
    split; [done|]. pose proof (at_input_here _ _ _ Hp). split_and!; [by split; [eexists|]|unfold here; congruence|congruence|]. apply lexes_shorterZ in Hx. lia.
  - intros p' El Hend Hs [_ Ee]. rewrite <- El. apply HQ. right. split_and!; [by left|done|congruence].
  - intros p' El Hs [_ Ee]. rewrite <- El. apply HQ. right. split_and!; [by right|done|congruence].
Qed.

Lemma holds_mark (l : lexer A F) tok m : holds l tok m -> mark_text m <> None -> tok = T_mark m.
Proof.
  destruct tok; cbn; [by intros ->|by intros [-> _]|]. destruct (number_value n); cbn; try done; by intros [-> _].
Qed.

(** The mark that was read. *)
Lemma next_mark p t m : next p t -> last_token p = m -> is_Some (mark_text m) -> exists r, lexes [T_mark m] t r /\ loaded p (T_mark m) r.
Proof.
  intros [(tok & r & Hx & Hl)|(H & _ & _)] Em [x Hm]; [|rewrite Em in H; destruct H as [[-> _]| ->]; done].
  assert (tok = T_mark m) as ->; [|eauto]. apply (holds_mark (m_lexer p)); [rewrite <- Em; apply Hl|congruence].
Qed.

Lemma loaded_settled p tok t : loaded p tok t -> settled p t.
Proof. intros (_ & H & He & Hd). split_and!; [done..|lia]. Qed.

(** *** Calls of the callback *)

Lemma not_fits x : fits_signed 32 x = false -> ~ Z.abs x < 2 ^ 31.
Proof. intros H Hx. assert (fits_signed 32 x = true); [|congruence]. apply fits_signed_spec. unfold in_signed. cbn. lia. Qed.

Lemma wp_call cb d ev j p (Q : bool * json F -> P -> Prop) : (forall b j u, Q (b, j) (set_cb_state u p)) -> wp nothing (call cb d ev j) Q p.
Proof. intros HQ. unfold call. wp_step. wp_step. destruct (cb _ _ _ _) as [[b j'] u]. wp_step. wp_step. wp_step. apply HQ. Qed.

Lemma wp_start_value keep ev empty p tok t Q : loaded p tok t ->
  (forall b j p', settled p' t -> (b = true -> j = empty) -> (callback = None -> b = keep) -> Q (b, j) p') ->
  wp nothing (start_value callback keep ev empty) Q p.
Proof.
  intros (_ & Hh & He & Hd) HQ. pose proof (lengthZ_nonneg t). unfold start_value. destruct keep; [|wp_step; apply HQ; [split_and!; [done..|lia]|done..]].
  destruct callback as [cb|]; [|wp_step; apply HQ; [split_and!; [done..|lia]|done..]].
  unfold call_start. wp_step. wp_step. wp_step. wp_step. unfold id. wp_step; [|by apply not_fits in H0; lia].
  wp_step. wp_step. apply wp_call. intros b j u. wp_step. apply HQ; [|by intros ->|done].
  split_and!; [done..|cbn; lia].
Qed.

Lemma wp_end_value cond ev j p tok t Q : loaded p tok t ->
  (forall j' p', settled p' t -> (callback = None -> j' = j) -> Q j' p') -> wp nothing (end_value callback cond ev j) Q p.
Proof.
  intros (_ & Hh & He & Hd) HQ. pose proof (lengthZ_nonneg t). unfold end_value.
  destruct callback as [cb|]; [destruct cond|]; [|wp_step; apply HQ; [split_and!; [done..|lia]|done]..].
  unfold call_end. wp_step. wp_step. wp_step. wp_step. unfold id. wp_step; [|by apply not_fits in H0; lia].
  wp_step. wp_step. apply wp_call. intros b j' u. wp_step. apply HQ; [|done]. split_and!; [done..|cbn; lia].
Qed.

Lemma wp_value_event keep j p t Q : settled p t ->
  (forall j' p', settled p' t -> (callback = None -> j' = j) -> Q (Returns j') p') -> wp nothing (value_event callback keep j) Q p.
Proof.
  intros Hs HQ. unfold value_event. destruct callback as [cb|]; [destruct keep|]; [|wp_step; by apply HQ..].
  wp_step. wp_step. wp_step. apply wp_call. intros b j' u. wp_step. by apply HQ.
Qed.

Lemma wp_keep_member keep k p tok t Q : loaded p tok t ->
  (forall b p', loaded p' tok t -> (callback = None -> b = keep) -> Q b p') -> wp nothing (keep_member callback keep k) Q p.
Proof.
  intros Hs HQ. unfold keep_member. destruct keep; [destruct callback as [cb|]|]; [|wp_step; by apply HQ..].
  wp_step. wp_step. wp_step. apply wp_call. intros b j' u. wp_step. by apply HQ.
Qed.

(** *** Values *)

Definition gave_up p : Prop := errored p = true /\ allow_exceptions = false.

Definition failed {T} (res : result T) p : Prop := match res with Throws e => error_ok e | Returns _ => gave_up p end.

(** What parse_internal leaves, from the token [tok] and the text [t] behind it. *)
Definition parsed (keep : bool) (tok : token) (t : list Z) (res : result (json F)) p : Prop :=
  match res with
  | Throws e => error_ok e
  | Returns v => gave_up p \/ exists ts r v0, value_tokens v0 (tok :: ts) /\ lexes ts t r /\ settled p r /\ (callback = None -> keep = true -> v = v0)
  end.

Lemma wp_unexpected t p (Q : result bool -> P -> Prop) : stopped (m_lexer p) -> t <> last_token p ->
  (forall res p', failed res p' -> match res with Returns b => b = false | _ => True end -> Q res p') -> wp nothing (expect t) Q p.
Proof. intros Hs Ht HQ. apply wp_expect; [done|done|intros; by apply HQ|]. intros p' Ha He. by apply (HQ (Returns false) p'). Qed.

Lemma parse_scalar_ok keep p tok t v : loaded p tok t -> value_tokens v [tok] ->
  wp nothing (value_event callback keep v) (parsed keep tok t) p.
Proof.
  intros Hl Hv. eapply wp_value_event; [by eapply loaded_settled|]. intros j' p' Hs Hj. right. exists [], t, v.
  split_and!; [done|constructor|done|by intros ->%Hj].
Qed.

(** A token that no value begins with. *)
Lemma wp_reject t keep p (Q : result (json F) -> P -> Prop) : stopped (m_lexer p) -> t <> last_token p -> (forall res p', failed res p' -> Q res p') ->
  wp nothing (try ok := expect t in if ok : bool then value_event callback keep j_discarded else ret (Returns j_discarded)) Q p.
Proof.
  intros Hs Ht HQ. wp_step. apply wp_unexpected; [done..|]. intros [b|e] p' Hf Hb; [|wp_step; by apply HQ]. subst b. wp_step. by apply HQ.
Qed.

Lemma wp_overflow keep x p tok t : loaded p tok t -> last_token p = value_float ->
  wp nothing (if allow_exceptions then
       s <- on_lexer get_token_string ;; ret (Throws (out_of_range_create 406 (chars "number overflow parsing '" ++ s ++ chars "'")))
     else try _ := expect uninitialized in value_event callback keep (j_number_float x)) (parsed keep tok t) p.
Proof.
  intros Hl Et. pose proof (loaded_stopped _ _ _ Hl) as Hs. destruct allow_exceptions eqn:Ea.
  - unfold on_lexer. wp_step. wp_step. apply wp_token_string; [done|]. intros s l'. wp_step. done.
  - wp_step. rewrite <- Ea. apply wp_unexpected; [done|by rewrite Et|]. intros [b|e] p' Hf _; [|wp_step; done]. unfold value_event.
    destruct callback as [cb|]; [destruct keep|]; [|wp_step; left; apply Hf..]. wp_step. wp_step. wp_step. apply wp_call. intros b' j' u. wp_step. left. apply Hf.
Qed.

Lemma parse_scalar_sound keep p tok t : loaded p tok t -> last_token p <> begin_object -> last_token p <> begin_array ->
  wp nothing (parse_scalar callback allow_exceptions keep) (parsed keep tok t) p.
Proof.
  intros Hl Ho Ha. pose proof (loaded_stopped _ _ _ Hl) as Hs. pose proof Hl as ((Hu & Hh) & _). unfold parse_scalar. wp_step. wp_step. unfold id.
  assert (forall res p', failed res p' -> parsed keep tok t res p') as Hfail by (intros [v|e] p'; [by left|done]).
  destruct tok as [m|s|num].
  - cbn in Hh. destruct Hu as [u Hu]. cbn in Hu. rewrite Hh in *. destruct m; try done; try (apply wp_reject; [done|by rewrite Hh|done]);
      (eapply parse_scalar_ok; [done|constructor]).
  - destruct Hh as [-> ->]. eapply parse_scalar_ok; [done|constructor].
  - cbn in Hh. assert (finite (number_value (F := F) num) = true -> value_tokens (number_value (F := F) num) [T_number num]) as Hv by apply v_number.
    destruct (number_value num) as [| | | | |n|n|x|] eqn:En; cbn in Hh; try done; destruct Hh as [Et <-]; rewrite Et.
    + eapply parse_scalar_ok; [done|by apply Hv].
    + eapply parse_scalar_ok; [done|by apply Hv].
    + destruct (isfinite _) eqn:Ef; [eapply parse_scalar_ok; [done|by apply Hv]|]. by apply wp_overflow.
Qed.

Lemma parse_scalar_broken keep p t : broken p t -> wp nothing (parse_scalar callback allow_exceptions keep) failed p.
Proof.
  intros ([[E _]|E] & Hs & _); unfold parse_scalar; wp_step; wp_step; unfold id; rewrite E; (apply wp_reject; [done|by rewrite E|done]).
Qed.

(** *** What follows a value *)

Lemma separator_sound closing p t : settled p t -> is_Some (mark_text closing) ->
  wp nothing (separator allow_exceptions fuel closing) (fun r p' =>
    match r with
    | Throws e => error_ok e
    | Returns None => gave_up p'
    | Returns (Some true) => exists t', lexes [T_mark value_separator] t t' /\ next p' t'
    | Returns (Some false) => exists t', lexes [T_mark closing] t t' /\ loaded p' (T_mark closing) t'
    end) p.
Proof.
  intros Hs Hm. unfold separator. wp_step. eapply wp_next; [done|]. intros p1 H1. destruct (decide _) as [E|_].
  - destruct (next_mark _ _ _ H1 E) as (t' & Hx & Hl); [done|]. wp_step. eapply wp_next; [by eapply loaded_settled|]. intros p2 H2. wp_step. eauto.
  - wp_step. apply wp_expect; [by eapply next_stopped|..].
    + intros E. wp_step. by eapply next_mark.
    + intros e p' He. by wp_step.
    + intros p' Ha He. by wp_step.
Qed.

(** *** Objects and arrays *)

Lemma value_kept v ts : value_tokens v ts -> is_discarded v = false.
Proof. destruct 1 as [| | |n _| | | | |]; try done. unfold number_value. repeat case_match; done. Qed.

(** The parts of an object or an array: [item] is the grammar of a member, [add]
    puts one into the value and [fits] is the type of the value. *)
Section Inside.
Context {X : Type} (item : X -> list token -> Prop) (add_item : json F -> X -> json F) (fits : json F -> Prop) (closing : token_type).
Context (Hclosing : is_Some (mark_text closing)).
Context (round : bool -> json F -> M P (json F + result (bool * json F))).

Definition goes_on (keep : bool) j (x : X) (j' : json F) : Prop :=
  (keep = true -> fits j') /\ (callback = None -> keep = true -> j' = add_item j x).

Definition round_ok (keep : bool) j (tok : token) (t : list Z) (r : json F + result (bool * json F)) p : Prop :=
  match r with
  | inl j' => exists x ts t', item x (tok :: ts) /\ lexes (ts ++ [T_mark value_separator]) t t' /\ next p t' /\ goes_on keep j x j'
  | inr (Throws e) => error_ok e
  | inr (Returns (false, _)) => gave_up p
  | inr (Returns (true, j')) => exists x ts t', item x (tok :: ts) /\ lexes (ts ++ [T_mark closing]) t t' /\ loaded p (T_mark closing) t' /\ goes_on keep j x j'
  end.

Definition round_fails (r : json F + result (bool * json F)) p : Prop :=
  match r with inl _ => False | inr (Throws e) => error_ok e | inr (Returns (b, _)) => b = false /\ gave_up p end.

Context (m : nat).
Context (Hround : forall keep j p tok t, loaded p tok t -> (S (length t) < m)%nat -> (keep = true -> fits j) -> wp nothing (round keep j) (round_ok keep j tok t) p).
Context (Hbroken : forall keep j p t, broken p t -> (0 < m)%nat -> wp nothing (round keep j) round_fails p).

Lemma loop_sound k keep empty tb pre l t1 j p : begun item l pre -> lexes pre tb t1 -> next p t1 -> (keep = true -> fits j) ->
  (callback = None -> keep = true -> j = foldl add_item empty l) -> (length t1 < k)%nat -> (length t1 < m)%nat -> (0 < m)%nat ->
  wp nothing (iter k (round keep) j) (fun res p' =>
    match res with
    | Throws e => error_ok e
    | Returns (false, _) => gave_up p'
    | Returns (true, j') => exists l ts t', separated item l ts /\ lexes (ts ++ [T_mark closing]) tb t' /\ loaded p' (T_mark closing) t' /\
        (callback = None -> keep = true -> j' = foldl add_item empty l)
    end) p.
Proof.
  revert pre l t1 j p. induction k as [|k IH]; intros pre l t1 j p Hb Hx Hn Hfits Hj Hk Hm Hm0; [lia|]. cbn [iter]. wp_step.
  destruct Hn as [(tok & t & Hx1 & Hl)|Hbr].
  2: { eapply wp_mono; [by eapply Hbroken|]. intros [j'|[[b j']|e]] p' Hr; cbn in Hr; [done| |by wp_step]. destruct Hr as [-> Hr]. by wp_step. }
  pose proof (lexes_shorter _ _ _ Hx1) as Hlen. cbn in Hlen. eapply wp_mono; [apply Hround; [done|lia|done]|].
  intros [j'|[[[] j']|e]] p' Hr; cbn in Hr; [|wp_step|by wp_step..].
  - destruct Hr as (x & ts & t' & Hi & Hts & Hn' & Hfits' & Hj'). pose proof (lexes_shorter _ _ _ Hts) as Hlen'. rewrite length_app in Hlen'. cbn in Hlen'.
    eapply (IH ((pre ++ tok :: ts) ++ [T_mark value_separator]) (l ++ [x]) t'); try done; try lia.
    + right. eexists. split; [by eapply begun_item|done].
    + rewrite <- app_assoc. eapply lexes_app; [done|]. by apply (lexes_app [tok] (ts ++ _) _ t).
    + intros Hc Hkeep. rewrite foldl_app. cbn. by rewrite <- Hj, <- Hj'.
  - destruct Hr as (x & ts & t' & Hi & Hts & Hn' & Hfits' & Hj'). exists (l ++ [x]), (pre ++ tok :: ts), t'. split_and!; [by eapply begun_item| |done|].
    + rewrite <- app_assoc. eapply lexes_app; [done|]. by apply (lexes_app [tok] (ts ++ _) _ t).
    + intros Hc Hkeep. rewrite foldl_app. cbn. by rewrite <- Hj, <- Hj'.
Qed.

Lemma inside_sound keep start end_ empty early opening p t : loaded p (T_mark opening) t -> fits empty ->
  value_tokens empty [T_mark opening; T_mark closing] ->
  (forall l ts, separated item l ts -> value_tokens (foldl add_item empty l) (T_mark opening :: ts ++ [T_mark closing])) -> (length t < m)%nat ->
  wp nothing (parse_inside callback fuel keep start end_ empty closing early round) (parsed keep (T_mark opening) t) p.
Proof.
  intros Hl Hempty Hv0 Hv Hm. destruct (at_input_bound _ _ _ (proj1 (proj2 Hl))) as [Hf _]. unfold parse_inside. wp_step. eapply wp_start_value; [done|].
  intros b j p1 Hs Hj Hb. wp_step. eapply wp_next; [done|]. intros p2 Hn. destruct (decide _) as [E|_].
  - destruct (next_mark _ _ _ Hn E Hclosing) as (t' & Hx & Hl2). wp_step. eapply wp_end_value; [done|]. intros j2 p3 Hs3 Hj2.
    eapply wp_value_event; [done|]. intros j3 p4 Hs4 Hj3. right. exists [T_mark closing], t', empty. split_and!; [done..|].
    intros Hc ->. rewrite Hj3, Hj2 by done. apply Hj. by apply Hb.
  - wp_step. eapply wp_mono; [apply (loop_sound fuel b empty t [] [] t); [by left|apply lexes_nil|done|by intros ->%Hj|by intros _ ->%Hj|done|done|lia]|].
    intros [[[] j2]|e] p3 Hr; [|wp_step; by left|by wp_step]. destruct Hr as (l & ts & t' & Hl3 & Hx & Hlo & Hj2). wp_step.
    eapply wp_end_value; [done|]. intros j3 p4 Hs4 Hj3. eapply wp_value_event; [done|]. intros j4 p5 Hs5 Hj4. right.
    exists (ts ++ [T_mark closing]), t', (foldl add_item empty l). split_and!; [by apply Hv|done..|]. intros Hc ->. rewrite Hj4, Hj3 by done. auto.
Qed.

End Inside.

Definition add_element j (v : json F) : json F := match j with j_array l => j_array (l ++ [v]) | _ => j end.
Definition add_member j (kv : list Z * json F) : json F := match j with j_object ms => j_object (emplace (fst kv) (snd kv) ms) | _ => j end.

Lemma elements_array l l0 : foldl add_element (j_array l0) l = j_array (l0 ++ l).
Proof. revert l0. induction l as [|v l IH]; intros l0; cbn; [by rewrite app_nil_r|]. rewrite IH. by rewrite <- app_assoc. Qed.

Lemma members_object ms m0 : foldl add_member (j_object m0) ms = j_object (foldl (fun m kv => emplace (fst kv) (snd kv) m) m0 ms).
Proof. revert m0. induction ms as [|kv ms IH]; intros m0; cbn; [done|]. apply IH. Qed.

Definition is_array_ j : Prop := exists l, j = j_array l.
Definition is_object_ j : Prop := exists ms, j = j_object ms.

Section Rounds.
Context (m : nat) (rec : bool -> M P (result (json F))).
Context (Hrec : forall keep p tok t, loaded p tok t -> (S (length t) < m)%nat -> wp nothing (rec keep) (parsed keep tok t) p).
Context (Hrec_broken : forall keep p t, broken p t -> (0 < m)%nat -> wp nothing (rec keep) failed p).

Lemma array_round_sound keep j p tok t : loaded p tok t -> (S (length t) < m)%nat -> (keep = true -> is_array_ j) ->
  wp nothing (array_round allow_exceptions fuel rec keep j) (round_ok value_tokens add_element is_array_ end_array keep j tok t) p.
Proof.
  intros Hl Hm Hfits. unfold array_round. wp_step. eapply wp_mono; [by apply Hrec|]. intros [v|e] p1 Hv; wp_step; wp_step; [|by wp_step]. unfold id.
  destruct Hv as [Hg|(ts & r & v0 & Hv & Hx & Hs & Ev)]; [rewrite (proj1 Hg); by wp_step|]. pose proof Hs as (_ & -> & _). wp_step.
  apply (wp_mono _ _ (fun j' p' => p' = p1 /\ goes_on add_element is_array_ keep j v0 j')).
  { destruct (keep && _) eqn:Ek.
    - apply andb_true_iff in Ek as [-> Hd]. destruct (Hfits eq_refl) as [l ->]. split; [done|]. split; [by eexists|]. intros Hc _. by rewrite (Ev Hc eq_refl).
    - wp_step. split; [done|]. split; [done|]. intros Hc ->. rewrite (Ev Hc eq_refl), (value_kept _ _ Hv) in Ek. done. }
  intros j' p' [-> Hgo]. wp_step. eapply wp_mono; [by apply separator_sound|].
  intros [[[]|]|e] p2 Hr; cbn in Hr; wp_step; try done; destruct Hr as (t' & Hx' & Hn); exists v0, ts, t'; (split_and!; [done|by eapply lexes_app|done..]).
Qed.

Lemma carries_string (l : lexer A F) tok : carries l tok value_string -> tok = T_string (yytext l).
Proof.
  intros [[u Hu] Hh]. destruct tok; cbn in Hh; [by subst|destruct Hh as [_ <-]; done|]. destruct (number_value n); cbn in Hh; try done; by destruct Hh.
Qed.

(** After the key and the colon. *)
Lemma member_sound keep keep_tag k p1 t1 t j : next p1 t1 -> lexes [T_mark name_separator] t t1 -> (length t1 < m)%nat -> (keep = true -> is_object_ j) ->
  (callback = None -> keep_tag = keep) ->
  wp nothing
    (r <- rec keep ;; p <- get id ;;
     match r with
     | Throws e => ret (inr (Throws e))
     | Returns v =>
         if errored p then ret (inr (Returns (false, j))) else
         j <- (if keep && keep_tag && negb (is_discarded v) then object_emplace k v j else ret j) ;;
         r <- separator allow_exceptions fuel end_object ;;
         ret (match r with
              | Throws e => inr (Throws e)
              | Returns None => inr (Returns (false, j))
              | Returns (Some true) => inl j
              | Returns (Some false) => inr (Returns (true, j))
              end)
     end) (round_ok (member value_tokens) add_member is_object_ end_object keep j (T_string k) t) p1.
Proof.
  intros Hn Hx Hm Hfits Htag. wp_step. destruct Hn as [(tok & t2 & Hx2 & Hl)|Hbr].
  2: { eapply wp_mono; [eapply Hrec_broken; [done|lia]|]. intros [v|e] p2 Hf; wp_step; wp_step; [|by wp_step]. unfold id. destruct Hf as [He Ha]. rewrite He. by wp_step. }
  pose proof (lexes_shorter _ _ _ Hx2) as Hlen. cbn in Hlen. eapply wp_mono; [eapply Hrec; [done|lia]|]. intros [v|e] p2 Hv; wp_step; wp_step; [|by wp_step]. unfold id.
  destruct Hv as [Hg|(ts & r & v0 & Hv & Hts & Hs & Ev)]; [rewrite (proj1 Hg); by wp_step|]. pose proof Hs as (_ & -> & _). wp_step.
  apply (wp_mono _ _ (fun j' p' => p' = p2 /\ goes_on add_member is_object_ keep j (k, v0) j')).
  { destruct (keep && _ && _) eqn:Ek.
    - apply andb_true_iff in Ek as [[-> _]%andb_true_iff Hd]. destruct (Hfits eq_refl) as [l ->]. split; [done|]. split; [by eexists|]. intros Hc _. cbn. by rewrite (Ev Hc eq_refl).
    - wp_step. split; [done|]. split; [done|]. intros Hc ->. rewrite (Htag Hc), (Ev Hc eq_refl), (value_kept _ _ Hv) in Ek. done. }
  intros j' p' [-> Hgo]. wp_step. eapply wp_mono; [by apply separator_sound|].
  assert (forall mk t', lexes [mk] r t' -> lexes ((T_mark name_separator :: tok :: ts) ++ [mk]) t t') as Hlex.
  { intros mk t' H. apply (lexes_app [T_mark name_separator] _ _ t1); [done|]. apply (lexes_app [tok] _ _ t2); [done|]. by eapply lexes_app. }
  intros [[[]|]|e] p3 Hr; cbn in Hr; wp_step; try done; destruct Hr as (t' & Hx' & Hn); eexists (k, v0), (T_mark name_separator :: tok :: ts), t';
    (split_and!; [by constructor|by apply Hlex|done..]).
Qed.

Lemma object_round_sound keep j p tok t : loaded p tok t -> (S (length t) < m)%nat -> (keep = true -> is_object_ j) ->
  wp nothing (object_round callback allow_exceptions fuel rec keep j) (round_ok (member value_tokens) add_member is_object_ end_object keep j tok t) p.
Proof.
  intros Hl Hm Hfits. unfold object_round. wp_step. apply wp_expect; [by eapply loaded_stopped|intros Et|intros; by wp_step|intros; by wp_step].
  pose proof Hl as (Hc & _). rewrite <- Et in Hc. apply carries_string in Hc as ->. wp_step. wp_step. wp_step. eapply wp_keep_member; [done|]. intros tag p1 Hl1 Htag.
  wp_step. eapply wp_next; [by eapply loaded_settled|]. intros p2 Hn2. wp_step.
  apply wp_expect; [by eapply next_stopped|intros Et2|intros; by wp_step|intros; by wp_step]. destruct (next_mark _ _ _ Hn2 (eq_sym Et2)) as (t2 & Hx2 & Hl2); [done|].
  pose proof (lexes_shorter _ _ _ Hx2) as Hlen. cbn in Hlen. wp_step. eapply wp_next; [by eapply loaded_settled|]. intros p3 Hn3. eapply member_sound; try done. lia.
Qed.

Lemma array_round_broken keep j p t : broken p t -> (0 < m)%nat -> wp nothing (array_round allow_exceptions fuel rec keep j) round_fails p.
Proof.
  intros Hb Hm. unfold array_round. wp_step. eapply wp_mono; [by eapply Hrec_broken|]. intros [v|e] p1 Hf; wp_step; wp_step; [|by wp_step]. unfold id.
  destruct Hf as [He Ha]. rewrite He. by wp_step.
Qed.

Lemma object_round_broken keep j p t : broken p t -> (0 < m)%nat -> wp nothing (object_round callback allow_exceptions fuel rec keep j) round_fails p.
Proof.
  intros (Ht & Hs & _) _. unfold object_round. wp_step. apply wp_unexpected; [done|by destruct Ht as [[-> _]| ->]|]. intros [b|e] p1 Hf Hb; [subst b|]; wp_step; cbn; [by split|done].
Qed.

End Rounds.

Lemma parse_internal_broken n keep p t : broken p t -> (0 < n)%nat -> wp nothing (parse_internal callback allow_exceptions n fuel keep) failed p.
Proof.
  intros Hb Hn. destruct n as [|n]; [lia|]. cbn [parse_internal]. wp_step. wp_step. unfold id. pose proof Hb as (Ht & _ & He). rewrite He. wp_step. wp_step; [|done].
  destruct Ht as [[E _]|E]; rewrite E; by eapply parse_scalar_broken.
Qed.

Lemma parse_internal_sound n keep p tok t : loaded p tok t -> (S (length t) < n)%nat ->
  wp nothing (parse_internal callback allow_exceptions n fuel keep) (parsed keep tok t) p.
Proof.
  revert keep p tok t. induction n as [|n IH]; intros keep p tok t Hl Hn; [lia|]. cbn [parse_internal]. wp_step. wp_step. unfold id.
  pose proof Hl as ((_ & Hc) & _ & He & _). rewrite He. wp_step. wp_step; [|done].
  destruct (last_token p) eqn:Et; try (apply parse_scalar_sound; [done|congruence..]).
  - assert (tok = T_mark begin_array) as -> by (by eapply holds_mark). eapply inside_sound with (item := value_tokens) (add_item := add_element) (fits := is_array_) (m := n); try done; try lia.
    + intros k' j p' tok' t' Hl' Hn'. by eapply array_round_sound.
    + intros k' j p' t' Hb Hm. eapply array_round_broken; [|done..]. intros. by eapply parse_internal_broken.
    + by eexists.
    + constructor.
    + intros l ts Hts. rewrite elements_array. by constructor.
  - assert (tok = T_mark begin_object) as -> by (by eapply holds_mark). eapply inside_sound with (item := member value_tokens) (add_item := add_member) (fits := is_object_) (m := n); try done; try lia.
    + intros k' j p' tok' t' Hl' Hn'. eapply object_round_sound; [done| |done..]. intros. by eapply parse_internal_broken.
    + intros k' j p' t' Hb Hm. by eapply object_round_broken.
    + by eexists.
    + constructor.
    + intros l ts Hts. rewrite members_object. by constructor.
Qed.

(** What parse leaves of the text [t]. *)
Definition answer (strict : bool) (t : list Z) (res : result (json F)) : Prop :=
  match res with
  | Throws e => error_ok e
  | Returns v => (v = j_discarded /\ allow_exceptions = false) \/
      exists ts r v0, value_tokens v0 ts /\ lexes ts t r /\ (strict = true -> ends r) /\ (callback = None -> v = v0)
  end.

(** The end of a text, where parse is strict. *)
Lemma end_sound (strict : bool) p r : settled p r -> wp nothing (if strict then get_token fuel ;; expect end_of_input else ret (Returns true)) (fun res p' =>
  match res with Throws e => error_ok e | Returns _ => gave_up p' \/ (errored p' = false /\ (strict = true -> ends r)) end) p.
Proof.
  intros Hs. destruct strict; [|wp_step; right; split; [apply Hs|done]]. wp_step. eapply wp_next; [done|]. intros p1 Hn.
  apply wp_expect; [by eapply next_stopped| |done|by left]. intros Et. right. split; [by eapply next_errored|]. intros _.
  destruct Hn as [(tok & r' & _ & Hl)|(H & _ & _)]; [|rewrite <- Et in H; destruct H as [[_ ?]|?]; done].
  destruct Hl as ((Hu & Hh) & _). rewrite <- Et in Hh. destruct Hu as [u Hu]. destruct tok; cbn in Hh, Hu; [by subst|by destruct Hh|].
  destruct (number_value n); cbn in Hh; try done; by destruct Hh.
Qed.

Lemma parse_sound strict p t : settled p t -> allow_exceptions = true \/ strict = false ->
  wp nothing (parse callback allow_exceptions fuel strict) (fun res _ => answer strict t res) p.
Proof.
  intros Hs Hmode. destruct (at_input_bound _ _ _ (proj1 Hs)) as [Hf _]. unfold parse. wp_step. eapply wp_next; [done|]. intros p1 [(tok & t1 & Hx & Hl)|Hb]; wp_step.
  - pose proof (lexes_shorter _ _ _ Hx) as Hlen. cbn in Hlen. eapply wp_mono; [apply parse_internal_sound; [done|lia]|].
    intros [v|e] p2 Hv; [|by wp_step]. destruct Hv as [[He Ha]|(ts & r & v0 & Hv & Hts & Hs2 & Ev)].
    + destruct Hmode as [|Hst]; [congruence|]. subst strict. wp_step. wp_step. wp_step. wp_step. wp_step. unfold id. rewrite He. by left.
    + wp_step. eapply wp_mono; [by apply end_sound|]. intros [b|e] p3 H3; [|by wp_step]. wp_step. wp_step. wp_step. unfold id.
      destruct H3 as [[He Ha]|[He Hend]]; rewrite He; [by left|right]. exists (tok :: ts), r, v0. split_and!; [done|by apply (lexes_app [tok] ts _ t1)|done|].
      intros Hc. by rewrite (Ev Hc eq_refl), (value_kept _ _ Hv).
  - eapply wp_mono; [eapply parse_internal_broken; [done|lia]|]. intros [v|e] p2 Hv; [|by wp_step]. destruct Hv as [He Ha].
    destruct Hmode as [|Hst]; [congruence|]. subst strict. wp_step. wp_step. wp_step. wp_step. wp_step. unfold id. rewrite He. by left.
Qed.

(** ** Completeness *)

Lemma lexes_split a b t r : lexes (a ++ b) t r -> exists t', lexes a t t' /\ lexes b t' r.
Proof.
  revert t. induction a as [|tok a IH]; intros t H; cbn in H; [exists t; split; [constructor|done]|].
  inversion H as [|w tok' u ts t0 r0 Hw Ht Hs Hx]; subst. destruct (IH _ Hx) as (t' & H1 & H2). exists t'. split; [by constructor|done].
Qed.

Lemma lexes_first tok ts t r : lexes (tok :: ts) t r -> exists t', lexes [tok] t t' /\ lexes ts t' r.
Proof. apply (lexes_split [tok]). Qed.

Lemma wp_read_token p t tok r Q : settled p t -> lexes [tok] t r -> (forall p', loaded p' tok r -> Q (last_token p') p') -> wp nothing (get_token fuel) Q p.
Proof.
  intros (Hh & He & Hd) Hx HQ. pose proof (lexes_shorterZ _ _ _ _ Hx). destruct (at_input_bound _ _ _ Hh) as [Hf _].
  inversion Hx as [|w tok' u ts t0 r0 Hw Ht Hs Hx0]; subst. inversion Hx0; subst. unfold get_token, on_lexer. wp_step. wp_step.
  eapply wp_mono; [by eapply (scan_complete total Htotal)|]. intros tt l [Hl Hin]. wp_step. wp_step. wp_step.
  apply (HQ (set_last_token tt (set_m_lexer l p))). pose proof (at_input_here _ _ _ Hin) as En. split_and!; [by split; [eexists|]| |done|cbn; lia].
  unfold here. cbn. by rewrite <- En.
Qed.

Lemma loaded_mark p m t : loaded p (T_mark m) t -> last_token p = m.
Proof. by intros ((_ & Hh) & _). Qed.

Lemma wp_expected t p (Q : result bool -> P -> Prop) : last_token p = t -> Q (Returns true) p -> wp nothing (expect t) Q p.
Proof. intros <- HQ. unfold JsonParser.expect. wp_step. wp_step. unfold id. rewrite decide_True by done. by wp_step. Qed.

(** The comma with the token behind it, or the closing token. *)
Definition follows (closing : token_type) (more : option token) : list token :=
  match more with Some tok => [T_mark value_separator; tok] | None => [T_mark closing] end.

Definition last_of (closing : token_type) (more : option token) : token := match more with Some tok => tok | None => T_mark closing end.

Lemma separator_complete closing more p t r : settled p t -> closing <> value_separator -> lexes (follows closing more) t r ->
  wp nothing (separator allow_exceptions fuel closing) (fun res p' =>
    res = Returns (Some (bool_decide (is_Some more))) /\ loaded p' (last_of closing more) r) p.
Proof.
  intros Hs Hc Hx. unfold separator. wp_step. destruct more as [tok|]; cbn in Hx |- *.
  - apply lexes_first in Hx as (t1 & Hx1 & Hx2). eapply wp_read_token; [done..|]. intros p1 Hl1. rewrite (loaded_mark _ _ _ Hl1), decide_True by done.
    wp_step. eapply wp_read_token; [by eapply loaded_settled|done|]. intros p2 Hl2. by wp_step.
  - eapply wp_read_token; [done..|]. intros p1 Hl1. rewrite (loaded_mark _ _ _ Hl1), decide_False by done.
    wp_step. apply wp_expected; [by eapply loaded_mark|]. by wp_step.
Qed.

Definition no_callback : Prop := callback = None.

Section NoCallback.
Context (Hnone : no_callback).

Section InsideComplete.
Context {X : Type} (item : X -> list token -> Prop) (add_item : json F -> X -> json F) (fits : json F -> Prop) (closing : token_type).
Context (Hclosing : closing <> value_separator) (Hmark : mark_text closing <> None).
Context (round : bool -> json F -> M P (json F + result (bool * json F))) (m : nat).
Context (Hadd : forall j x, fits j -> fits (add_item j x)).
Context (Hitem : forall x ts, item x ts -> exists tok ts', ts = tok :: ts').
Context (Hround : forall x tok ts t r1 more r2 j p, item x (tok :: ts) -> loaded p tok t -> lexes ts t r1 -> lexes (follows closing more) r1 r2 ->
  fits j -> (S (length t) < m)%nat ->
  wp nothing (round true j) (fun res p' =>
    res = match more with Some _ => inl (add_item j x) | None => inr (Returns (true, add_item j x)) end /\ loaded p' (last_of closing more) r2) p).

Lemma separated_head l ts : separated item l ts -> exists tok ts', ts = tok :: ts'.
Proof. destruct 1 as [x ts H|x ts l ts' H _]; destruct (Hitem _ _ H) as (tok & ts0 & ->); cbn; eauto. Qed.

Lemma loop_complete k l tok ts t r j p : separated item l (tok :: ts) -> loaded p tok t -> lexes (ts ++ [T_mark closing]) t r -> fits j ->
  (length t < k)%nat -> (S (length t) < m)%nat ->
  wp nothing (iter k (round true) j) (fun res p' => res = Returns (true, foldl add_item j l) /\ loaded p' (T_mark closing) r) p.
Proof.
  revert l tok ts t j p. induction k as [|k IH]; intros l tok ts t j p Hl Hp Hx Hj Hk Hm; [lia|]. cbn [iter]. wp_step.
  inversion Hl as [x ts0 Hi|x ts1 l2 ts2 Hi Hl2]; subst.
  - apply lexes_split in Hx as (t1 & Hx1 & Hx2). eapply wp_mono; [by apply (Hround x tok ts t t1 None r)|]. intros res p' [-> Hp']. by wp_step.
  - destruct (Hitem _ _ Hi) as (tok1 & ts1' & ->). cbn in H0. injection H0 as -> <-. destruct (separated_head _ _ Hl2) as (tok2 & ts2' & ->).
    rewrite <- app_assoc in Hx. apply lexes_split in Hx as (t1 & Hx1 & Hx2). apply (lexes_split [T_mark value_separator; tok2]) in Hx2 as (t2 & Hx2 & Hx3).
    pose proof (lexes_shorter _ _ _ Hx1). pose proof (lexes_shorter _ _ _ Hx2) as Hlen. cbn in Hlen.
    eapply wp_mono; [by apply (Hround x tok ts1' t t1 (Some tok2) t2)|]. intros res p' [-> Hp']. cbn in Hp'. cbn [foldl]. apply (IH l2 tok2 ts2' t2); try done; [by apply Hadd|lia..].
Qed.

Lemma inside_complete start end_ empty early opening p ts t r l : loaded p (T_mark opening) t -> fits empty ->
  lexes (ts ++ [T_mark closing]) t r -> (ts = [] /\ l = [] \/ separated item l ts) -> (forall tok ts', ts = tok :: ts' -> tok <> T_mark closing) -> (length t < m)%nat ->
  wp nothing (parse_inside callback fuel true start end_ empty closing early round) (fun res p' => res = Returns (foldl add_item empty l) /\ settled p' r) p.
Proof.
  intros Hl Hempty Hx Hts Hne Hm. destruct (at_input_bound _ _ _ (proj1 (proj2 Hl))) as [Hf _]. unfold parse_inside. wp_step. eapply wp_start_value; [done|].
  intros b j p1 Hs Hj Hb. rewrite (Hb Hnone) in *. rewrite (Hj eq_refl). clear Hb Hj j. wp_step. destruct Hts as [[-> ->]|Hts].
  - eapply wp_read_token; [done..|]. intros p2 Hl2. rewrite (loaded_mark _ _ _ Hl2), decide_True by done. wp_step. eapply wp_end_value; [done|]. intros j2 p3 Hs3 Hj2.
    eapply wp_value_event; [done|]. intros j3 p4 Hs4 Hj3. by rewrite Hj3, Hj2.
  - destruct (separated_head _ _ Hts) as (tok & ts' & ->). apply lexes_first in Hx as (t1 & Hx1 & Hx2). pose proof (lexes_shorter _ _ _ Hx1) as Hlen. cbn in Hlen.
    eapply wp_read_token; [done..|]. intros p2 Hl2. rewrite decide_False. 2: { intros E. apply (Hne tok ts'); [done|]. apply (holds_mark (m_lexer p2)); [rewrite <- E; apply Hl2|done]. }
    wp_step. eapply wp_mono; [by apply (loop_complete fuel l tok ts' t1 r); [..|lia|lia]|]. intros res p3 [-> Hl3]. wp_step. eapply wp_end_value; [done|].
    intros j2 p4 Hs4 Hj2. eapply wp_value_event; [done|]. intros j3 p5 Hs5 Hj3. by rewrite Hj3, Hj2.
Qed.

End InsideComplete.

Section RoundsComplete.
Context (m : nat) (rec : bool -> M P (result (json F))).
Context (Hrec : forall v p tok ts t r, value_tokens v (tok :: ts) -> loaded p tok t -> lexes ts t r -> (S (length t) < m)%nat ->
  wp nothing (rec true) (fun res p' => res = Returns v /\ settled p' r) p).

Lemma array_round_complete v tok ts t r1 more r2 j p : value_tokens v (tok :: ts) -> loaded p tok t -> lexes ts t r1 -> lexes (follows end_array more) r1 r2 ->
  is_array_ j -> (S (length t) < m)%nat ->
  wp nothing (array_round allow_exceptions fuel rec true j) (fun res p' =>
    res = match more with Some _ => inl (add_element j v) | None => inr (Returns (true, add_element j v)) end /\ loaded p' (last_of end_array more) r2) p.
Proof.
  intros Hv Hl Hx Hmore [l ->] Hm. unfold array_round. wp_step. eapply wp_mono; [by eapply Hrec|]. intros res p1 [-> Hs]. wp_step. wp_step. unfold id.
  pose proof Hs as (_ & -> & _). rewrite (value_kept _ _ Hv). cbn [negb andb array_push_back]. wp_step. wp_step. wp_step.
  eapply wp_mono; [by eapply (separator_complete end_array more)|]. intros res p2 [-> Hl2]. wp_step. split; [|done]. by destruct more.
Qed.

Lemma object_round_complete kv tok ts t r1 more r2 j p : member value_tokens kv (tok :: ts) -> loaded p tok t -> lexes ts t r1 -> lexes (follows end_object more) r1 r2 ->
  is_object_ j -> (S (length t) < m)%nat ->
  wp nothing (object_round callback allow_exceptions fuel rec true j) (fun res p' =>
    res = match more with Some _ => inl (add_member j kv) | None => inr (Returns (true, add_member j kv)) end /\ loaded p' (last_of end_object more) r2) p.
Proof.
  intros Hkv Hl Hx Hmore [ms ->] Hm. inversion Hkv as [k v ts' Hv]; subst. assert (exists tok' ts2, ts' = tok' :: ts2) as (tok' & ts2 & ->) by (inversion Hv; eauto).
  apply lexes_first in Hx as (t1 & Hx1 & Hx). apply lexes_first in Hx as (t2 & Hx2 & Hx).
  pose proof (lexes_shorter _ _ _ Hx1) as Hlen1. pose proof (lexes_shorter _ _ _ Hx2) as Hlen2. cbn in Hlen1, Hlen2. pose proof Hl as ((_ & [Et Ey]) & _).
  unfold object_round. wp_step. apply wp_expected; [done|]. wp_step. wp_step. rewrite Ey. wp_step. eapply wp_keep_member; [done|]. intros tag p1 Hl1 Htag. rewrite (Htag Hnone).
  wp_step. eapply wp_read_token; [by eapply loaded_settled|done|]. intros p2 Hl2. wp_step. apply wp_expected; [by eapply loaded_mark|].
  wp_step. eapply wp_read_token; [by eapply loaded_settled|done|]. intros p3 Hl3. wp_step. eapply wp_mono; [eapply Hrec; [done..|lia]|]. intros res p4 [-> Hs]. wp_step. wp_step. unfold id.
  pose proof Hs as (_ & -> & _). rewrite (value_kept _ _ Hv). cbn [negb andb object_emplace]. wp_step. wp_step. wp_step.
  eapply wp_mono; [by eapply (separator_complete end_object more)|]. intros res p5 [-> Hl5]. wp_step. split; [|done]. by destruct more.
Qed.

End RoundsComplete.

Lemma scalar_complete v tok p t : value_tokens v [tok] -> loaded p tok t ->
  wp nothing (parse_scalar callback allow_exceptions true) (fun res p' => res = Returns v /\ settled p' t) p.
Proof.
  intros Hv Hl. pose proof Hl as ((_ & Hh) & _). unfold parse_scalar. wp_step. wp_step. unfold id.
  assert (forall w, v = w -> wp nothing (value_event callback true w) (fun res p' => res = Returns v /\ settled p' t) p) as Hev.
  { intros w <-. eapply wp_value_event; [by eapply loaded_settled|]. intros j' p' Hs Hj. by rewrite Hj. }
  inversion Hv as [| | |n Hfin|s| |l0 ts Hts| |l0 ts Hts]; subst; cbn in Hh; try (rewrite Hh; by apply Hev); try (by destruct ts).
  - destruct (number_value n); cbn in Hh, Hfin; try done; destruct Hh as [-> Hh]; rewrite Hh; try by apply Hev. rewrite Hfin. by apply Hev.
  - destruct Hh as [-> ->]. by apply Hev.
Qed.

Lemma value_tokens_nonempty v ts : value_tokens v ts -> exists tok ts', ts = tok :: ts'.
Proof. destruct 1; eauto. Qed.

Lemma scalar_token v tok (l : lexer A F) tt : value_tokens v [tok] -> holds l tok tt -> tt <> begin_object /\ tt <> begin_array.
Proof.
  intros Hv Hh. inversion Hv as [| | |n Hfin|s| |l0 ts Hts| |l0 ts Hts]; subst; cbn in Hh; try (by subst); try (by destruct ts).
  - destruct (number_value n); cbn in Hh; try done; by destruct Hh as [-> _].
  - by destruct Hh as [-> _].
Qed.

Lemma array_complete n p l ts t r : (forall v p tok ts t r, value_tokens v (tok :: ts) -> loaded p tok t -> lexes ts t r -> (S (length t) < n)%nat ->
    wp nothing (parse_internal callback allow_exceptions n fuel true) (fun res p' => res = Returns v /\ settled p' r) p) ->
  (ts = [] /\ l = [] \/ separated value_tokens l ts) -> loaded p (T_mark begin_array) t -> lexes (ts ++ [T_mark end_array]) t r -> (length t < n)%nat ->
  wp nothing (parse_inside callback fuel true array_start array_end (j_array []) end_array (fun _ => true) (array_round allow_exceptions fuel (parse_internal callback allow_exceptions n fuel)))
    (fun res p' => res = Returns (j_array l) /\ settled p' r) p.
Proof.
  intros IH Hts Hl Hx Hn. change (j_array l) with (j_array ([] ++ l)). rewrite <- elements_array.
  eapply inside_complete with (item := value_tokens) (fits := is_array_) (m := n); try done.
  - intros j v [l' ->]. by eexists.
  - apply value_tokens_nonempty.
  - intros x tok ts0 t0 r1 more r2 j p0 Hx0 Hl0. by eapply array_round_complete.
  - by eexists.
  - intros tok ts' -> ->. destruct Hts as [[? _]|Hts]; [done|]. inversion Hts as [x ts0 Hi|x ts1 l2 ts2 Hi Hl2]; subst; [inversion Hi|].
    destruct (value_tokens_nonempty _ _ Hi) as (tok & ts3 & ->). cbn in *. simplify_eq. inversion Hi.
Qed.

Lemma object_complete n p l ts t r : (forall v p tok ts t r, value_tokens v (tok :: ts) -> loaded p tok t -> lexes ts t r -> (S (length t) < n)%nat ->
    wp nothing (parse_internal callback allow_exceptions n fuel true) (fun res p' => res = Returns v /\ settled p' r) p) ->
  (ts = [] /\ l = [] \/ separated (member value_tokens) l ts) -> loaded p (T_mark begin_object) t -> lexes (ts ++ [T_mark end_object]) t r -> (length t < n)%nat ->
  wp nothing (parse_inside callback fuel true object_start object_end (j_object []) end_object (fun keep => keep) (object_round callback allow_exceptions fuel (parse_internal callback allow_exceptions n fuel)))
    (fun res p' => res = Returns (object_of l) /\ settled p' r) p.
Proof.
  intros IH Hts Hl Hx Hn. unfold object_of. rewrite <- members_object.
  eapply inside_complete with (item := member value_tokens) (fits := is_object_) (m := n); try done.
  - intros j v [l' ->]. by eexists.
  - intros x ts0 Hm. inversion Hm. eauto.
  - intros x tok ts0 t0 r1 more r2 j p0 Hx0 Hl0. by eapply object_round_complete.
  - by eexists.
  - intros tok ts' -> ->. destruct Hts as [[? _]|Hts]; [done|]. inversion Hts as [x ts0 Hi|x ts1 l2 ts2 Hi Hl2]; subst; inversion Hi; subst; cbn in *; simplify_eq.
Qed.

Lemma parse_internal_complete n v p tok ts t r : value_tokens v (tok :: ts) -> loaded p tok t -> lexes ts t r -> (S (length t) < n)%nat ->
  wp nothing (parse_internal callback allow_exceptions n fuel true) (fun res p' => res = Returns v /\ settled p' r) p.
Proof.
  revert v p tok ts t r. induction n as [|n IH]; intros v p tok ts t r Hv Hl Hx Hn; [lia|]. cbn [parse_internal]. wp_step. wp_step. unfold id.
  pose proof Hl as ((_ & Hc) & _ & He & _). rewrite He. wp_step. wp_step; [|done]. destruct (decide (ts = [])) as [->|Hne].
  - destruct (scalar_token _ _ _ _ Hv Hc) as [Ho Ha]. inversion Hx; subst. destruct (last_token p); try done; by eapply scalar_complete.
  - inversion Hv as [| | |num Hfin|s| |l ts0 Hts| |l ts0 Hts]; subst; try done; cbn in Hc; rewrite Hc.
    + apply (array_complete n p [] [] t r); try done; [by left|lia].
    + apply (array_complete n p l ts0 t r); try done; [by right|lia].
    + apply (object_complete n p [] [] t r); try done; [by left|lia].
    + apply (object_complete n p l ts0 t r); try done; [by right|lia].
Qed.

Lemma parse_complete strict v p t ts r : settled p t -> value_tokens v ts -> lexes ts t r -> (strict = true -> ends r) ->
  wp nothing (parse callback allow_exceptions fuel strict) (fun res _ => res = Returns v) p.
Proof.
  intros Hs Hv Hx Hend. destruct (at_input_bound _ _ _ (proj1 Hs)) as [Hf _]. destruct (value_tokens_nonempty _ _ Hv) as (tok & ts' & ->).
  apply lexes_first in Hx as (t1 & Hx1 & Hx). pose proof (lexes_shorter _ _ _ Hx1) as Hlen. cbn in Hlen. unfold parse. wp_step. eapply wp_read_token; [done..|]. intros p1 Hl1. wp_step.
  eapply wp_mono; [apply (parse_internal_complete fuel v p1 tok ts' t1 r); try done; lia|]. intros res p2 [-> Hs2]. wp_step.
  assert (forall p', errored p' = false -> wp nothing (p <- get id ;; ret (Returns (if errored p then j_discarded else if is_discarded v then j_null else v)))
    (fun res _ => res = Returns v) p') as Hlast.
  { intros p' He. wp_step. wp_step. wp_step. unfold id. by rewrite He, (value_kept _ _ Hv). }
  destruct strict; [|wp_step; apply Hlast, Hs2]. wp_step. unfold get_token, on_lexer. destruct (at_input_bound _ _ _ (proj1 Hs2)) as [Hf2 _]. wp_step. wp_step.
  eapply wp_mono; [by apply (scan_end total Htotal fuel _ (total - lengthZ r) r); [apply Hend|apply Hs2|]|]. intros tt l [-> _]. wp_step. wp_step. wp_step.
  apply wp_expected; [done|]. apply Hlast. apply Hs2.
Qed.

End NoCallback.

End Sound.

(** ** The acceptor

    accept reads the same tokens as parse without a callback, and refuses where
    parse throws. *)

Section Accept.
Context {A F U : Type} {HA : InputAdapter A} {HF : Floats F}.
Context (fuel : nat).
#[local] Abbreviation P := (parser A F U).
#[local] Abbreviation expect := (expect (A := A) (F := F) (U := U) true).
Implicit Types (p : P).

Lemma wp_any {S T} (m : M S T) (Q : T -> S -> Prop) (s : S) : (forall x s', m s = Ok (x, s') -> Q x s') -> wp anything m Q s.
Proof. intros HQ. unfold wp. destruct (m s) as [[x s']| | |] eqn:E; [by apply HQ|done..]. Qed.

Lemma any_bind {S X T} (m : M S X) (k : X -> M S T) (Q : T -> S -> Prop) (s : S) : (forall x s', wp anything (k x) Q s') -> wp anything (bind m k) Q s.
Proof. intros HQ. wp_step. apply wp_any. intros. apply HQ. Qed.

(** The lexer never returns the pseudo-token of error messages. *)
Definition real (t : token_type) : Prop := t <> literal_or_value.

Ltac any_step := first [apply wp_ret; done | apply any_bind; intros ? ? | progress case_match | done].

Lemma scan_char_real c (l : lexer A F) : wp anything (scan_char c) (fun t _ => t <> Some literal_or_value) l.
Proof.
  assert (forall m (l : lexer A F), wp anything (fails m) (fun t _ => t <> Some literal_or_value) l) as Hf by done.
  assert (forall rs (l : lexer A F), wp anything (scan_ranges rs) (fun t _ => t <> Some literal_or_value) l) as Hr.
  { intros rs l0. unfold scan_ranges. apply any_bind. intros [] ?; done. }
  unfold scan_char, scan_escape, scan_unicode. repeat (first [apply Hf | apply Hr | any_step]).
Qed.

Lemma scan_number_done_real ty (l : lexer A F) : wp anything (scan_number_done ty) (fun t _ => real t) l.
Proof. unfold scan_number_done. repeat any_step. Qed.

Lemma scan_real (l : lexer A F) : wp anything (scan fuel) (fun t _ => real t) l.
Proof.
  unfold scan. apply any_bind. intros c l1. unfold scan_switch. repeat case_match; try done.
  1-3: unfold scan_literal; cbn [scan_literal_loop chars tl]; repeat any_step.
  - unfold scan_string. do 3 (apply any_bind; intros ? ?). apply (wp_iter_partial _ _ (fun _ _ => True)); [done| |done]. intros [] l2 _. unfold scan_string_round. apply any_bind.
    intros c' l3. wp_step. eapply wp_mono; [apply scan_char_real|]. intros [t|] l4 Ht; wp_step; [|done]. intros ->. done.
  - unfold scan_number. do 4 (apply any_bind; intros ? ?). apply (wp_iter_partial _ _ (fun _ _ => True)); [done| |done]. intros [label ty] l2 _. unfold scan_number_round. apply any_bind.
    intros c' l3. destruct (number_switch label c') as [[? ?]|[m|]]; [apply any_bind; by intros|done|]. wp_step. eapply wp_mono; [apply scan_number_done_real|]. intros t l4 Ht. by wp_step.
Qed.

Definition agrees {T} (m : M P bool) (res : result T) p p' : Prop :=
  match res with
  | Returns _ => errored p' = false /\ m p = Ok (true, p')
  | Throws _ => exists p', m p = Ok (false, p')
  end.

Lemma any_get_token p (Q : token_type -> P -> Prop) :
  (forall p', get_token fuel p = Ok (last_token p', p') -> errored p' = errored p -> real (last_token p') -> Q (last_token p') p') -> wp anything (get_token fuel) Q p.
Proof.
  intros HQ. unfold get_token at 1, on_lexer. wp_step. wp_step. pose proof (scan_real (m_lexer p)) as Hreal. unfold wp in Hreal.
  apply wp_any. intros tt l El. rewrite El in Hreal. wp_step. wp_step. wp_step.
  apply (HQ (set_last_token tt (set_m_lexer l p))); [|done..]. unfold get_token, on_lexer, bind, lift. by rewrite El.
Qed.

Lemma any_expect t p (Q : result bool -> P -> Prop) : (t = last_token p -> Q (Returns true) p) -> (t <> last_token p -> forall e p', Q (Throws e) p') ->
  wp anything (expect t) Q p.
Proof.
  intros H1 H2. unfold JsonParser.expect. wp_step. wp_step. unfold id. destruct (decide (t = last_token p)); [wp_step; auto|]. wp_step. wp_step. wp_step.
  apply wp_any. intros e p' _. wp_step. by apply H2.
Qed.

Definition fresh p : Prop := errored p = false /\ real (last_token p).

Definition round_agrees (m : M P (unit + bool)) (res : json F + result (bool * json F)) p p' : Prop :=
  match res with
  | inl _ => fresh p' /\ m p = Ok (inl tt, p')
  | inr (Returns (b, _)) => b = true /\ errored p' = false /\ m p = Ok (inr true, p')
  | inr (Throws _) => exists p', m p = Ok (inr false, p')
  end.

Lemma separator_agrees closing p (j : json F) : closing <> value_separator -> errored p = false ->
  wp anything (r <- separator true fuel closing ;;
    ret (match r with
         | Throws e => inr (Throws e)
         | Returns None => inr (Returns (false, j))
         | Returns (Some true) => inl j
         | Returns (Some false) => inr (Returns (true, j))
         end)) (fun res p' => round_agrees (accept_separator fuel closing) res p p') p.
Proof.
  intros Hc He. wp_step. unfold separator. wp_step. apply any_get_token. intros p1 E1 He1 Hr1. destruct (decide _) as [Et|Hne].
  - wp_step. apply any_get_token. intros p2 E2 He2 Hr2. wp_step. wp_step. cbn. split; [split; [congruence|done]|]. unfold accept_separator, bind. rewrite E1, decide_True by done. by rewrite E2.
  - wp_step. apply any_expect; [intros Et|intros Ht e p'].
    + wp_step. wp_step. cbn. split_and!; [done|congruence|]. unfold accept_separator, bind. rewrite E1, decide_False by done. by rewrite bool_decide_true.
    + wp_step. wp_step. cbn. exists p1. unfold accept_separator, bind. rewrite E1, decide_False by done. by rewrite bool_decide_false by congruence.
Qed.

Section AcceptRounds.
Context (rec : bool -> M P (result (json F))) (arec : M P bool).
Context (Hrec : forall keep p, fresh p -> wp anything (rec keep) (fun res p' => agrees arec res p p') p).

Lemma array_round_agrees keep j p : fresh p ->
  wp anything (array_round true fuel rec keep j) (fun res p' => round_agrees (accept_array_round fuel arec tt) res p p') p.
Proof.
  intros He. unfold array_round. wp_step. eapply wp_mono; [by apply Hrec|]. intros [v|e] p1 Hv; wp_step; wp_step; unfold id.
  - destruct Hv as [He1 E1]. rewrite He1. wp_step. apply (wp_mono _ _ (fun _ p' => p' = p1)).
    { destruct (keep && _); [|by wp_step]. unfold array_push_back. destruct j; try done; by wp_step. }
    intros j' p' ->. eapply wp_mono; [by apply separator_agrees|]. intros res p2 Hr. unfold round_agrees, accept_array_round, bind in *. by rewrite E1.
  - destruct Hv as [p' E1]. wp_step. exists p'. unfold accept_array_round, bind. by rewrite E1.
Qed.

Lemma object_round_agrees keep j p : fresh p ->
  wp anything (object_round None true fuel rec keep j) (fun res p' => round_agrees (accept_object_round fuel arec tt) res p p') p.
Proof.
  intros He. unfold object_round. wp_step. apply any_expect.
  2: { intros Ht e p'. wp_step. exists p. unfold accept_object_round, bind, get, id. by rewrite decide_True by congruence. }
  intros Et. wp_step. wp_step. wp_step. apply (wp_mono _ _ (fun _ p' => p' = p)); [by destruct keep|]. intros tag p' ->. wp_step. apply any_get_token. intros p1 E1 He1 Hr1. wp_step.
  apply any_expect.
  2: { intros Ht e p'. wp_step. exists p1. unfold accept_object_round, bind, get, id. rewrite decide_False by congruence. rewrite E1. by rewrite decide_True by congruence. }
  intros Et1. wp_step. apply any_get_token. intros p2 E2 He2 Hr2. wp_step. eapply wp_mono; [apply Hrec; split; [destruct He; congruence|done]|]. intros [v|e] p3 Hv; wp_step; wp_step; unfold id.
  - destruct Hv as [He3 E3]. rewrite He3. wp_step. apply (wp_mono _ _ (fun _ p' => p' = p3)).
    { destruct (keep && _ && _); [|by wp_step]. unfold object_emplace. destruct j; try done; by wp_step. }
    intros j' p' ->. eapply wp_mono; [by apply separator_agrees|]. intros res p4 Hr. unfold round_agrees, accept_object_round, bind, get, id in *.
    rewrite decide_False by congruence. rewrite E1. rewrite decide_False by congruence. rewrite E2. by rewrite E3.
  - destruct Hv as [p' E3]. wp_step. exists p'. unfold accept_object_round, bind, get, id.
    rewrite decide_False by congruence. rewrite E1. rewrite decide_False by congruence. rewrite E2. by rewrite E3.
Qed.

End AcceptRounds.

Lemma loop_agrees (round : json F -> M P (json F + result (bool * json F))) around k j p : (forall j p, fresh p -> wp anything (round j) (fun res p' => round_agrees (around tt) res p p') p) ->
  fresh p -> wp anything (iter k round j) (fun res p' => agrees (iter k around tt) res p p' /\ match res with Returns (b, _) => b = true | _ => True end) p.
Proof.
  intros Hr. revert j p. induction k as [|k IH]; intros j p He; [done|]. cbn [iter]. wp_step. eapply wp_mono; [by apply Hr|].
  intros [j'|[[b j']|e]] p1 H1; cbn in H1.
  - destruct H1 as [He1 E1]. eapply wp_mono; [by apply IH|]. intros res p2 [H2 H3]. split; [|done]. unfold agrees, bind in *. by rewrite E1.
  - destruct H1 as (-> & He1 & E1). wp_step. split; [|done]. split; [done|]. unfold bind. by rewrite E1.
  - destruct H1 as (p' & E1). wp_step. split; [|done]. exists p'. unfold bind. by rewrite E1.
Qed.

Lemma inside_agrees keep start end_ empty closing early round around p :
  (forall keep j p, fresh p -> wp anything (round keep j) (fun res p' => round_agrees (around tt) res p p') p) -> fresh p ->
  wp anything (parse_inside None fuel keep start end_ empty closing early round)
    (fun res p' => agrees (t <- get_token fuel ;; if decide (t = closing) then ret true else iter fuel around tt) res p p') p.
Proof.
  intros Hr He. unfold parse_inside. wp_step. apply (wp_mono _ _ (fun _ p' => p' = p)); [by destruct keep|]. intros [b j] p' ->. wp_step. apply any_get_token. intros p1 E1 He1 Hr1.
  destruct (decide _) as [Et|Hne].
  - wp_step. cbn. split; [destruct He; congruence|]. unfold bind. rewrite E1. by rewrite decide_True by done.
  - wp_step. eapply wp_mono; [apply loop_agrees; [apply (Hr b)|split; [destruct He; congruence|done]]|]. intros [[b' j']|e] p2 [H2 Hb].
    + subst b'. wp_step. cbn. destruct H2 as [He2 E2]. split; [done|]. unfold bind. rewrite E1. by rewrite decide_False by done.
    + wp_step. destruct H2 as [p' E2]. exists p'. unfold bind. rewrite E1. by rewrite decide_False by done.
Qed.

(** A token that is refused. *)
Lemma reject_agrees (m : M P bool) t keep p : t <> last_token p -> m p = Ok (false, p) ->
  wp anything (try ok := expect t in if ok : bool then value_event None keep j_discarded else ret (Returns j_discarded)) (fun (res : result (json F)) p' => agrees m res p p') p.
Proof. intros Ht Em. wp_step. apply any_expect; [done|]. intros _ e p'. wp_step. by exists p. Qed.

Lemma parse_internal_agrees n keep p : fresh p ->
  wp anything (parse_internal None true n fuel keep) (fun res p' => agrees (accept_internal n fuel) res p p') p.
Proof.
  revert keep p. induction n as [|n IH]; intros keep p [He Hreal]; [done|]. cbn [parse_internal]. wp_step. wp_step. unfold id. rewrite He. wp_step. wp_step; [|done].
  assert (forall T (m : M P bool) (mp : M P (result T)), accept_internal (S n) fuel p = m p -> wp anything mp (fun res p' => agrees m res p p') p ->
    wp anything mp (fun res p' => agrees (accept_internal (S n) fuel) res p p') p) as Hm.
  { intros T m mp E Hp. eapply wp_mono; [done|]. intros res p' H'. unfold agrees in *. by rewrite E. }
  destruct (last_token p) eqn:Et; try (
    unfold parse_scalar; wp_step; wp_step; unfold id; rewrite Et;
    first [ unfold value_event; apply wp_ret; split; [done|] | apply reject_agrees; [by rewrite Et|] ]; cbn [accept_internal]; unfold bind, get, id; by rewrite Et).
  - unfold parse_scalar; wp_step; wp_step; unfold id; rewrite Et. destruct (isfinite _) eqn:Ef.
    + apply wp_ret. split; [done|]. cbn [accept_internal]; unfold bind, get, id. by rewrite Et, Ef.
    + wp_step. apply wp_any. intros s p' _. wp_step. exists p. cbn [accept_internal]; unfold bind, get, id. by rewrite Et, Ef.
  - eapply Hm; [cbn [accept_internal]; unfold bind at 1, get, id; rewrite Et; reflexivity|]. apply inside_agrees; [|by split; [|rewrite Et]]. intros. by apply array_round_agrees.
  - eapply Hm; [cbn [accept_internal]; unfold bind at 1, get, id; rewrite Et; reflexivity|]. apply inside_agrees; [|by split; [|rewrite Et]]. intros. by apply object_round_agrees.
Qed.

Lemma parse_agrees strict p : errored p = false ->
  wp anything (parse None true fuel strict) (fun res p' => agrees (accept fuel strict) res p p') p.
Proof.
  intros He. unfold parse. wp_step. apply any_get_token. intros p1 E1 He1 Hr1. wp_step. eapply wp_mono; [apply parse_internal_agrees; split; [congruence|done]|]. intros [v|e] p2 H2.
  - destruct H2 as [He2 E2]. wp_step. destruct strict.
    + wp_step. apply any_get_token. intros p3 E3 He3 Hr3. apply any_expect; [intros Et|intros Ht e p'].
      * wp_step. wp_step. wp_step. split; [congruence|]. unfold accept, bind. rewrite E1, E2, E3. by rewrite bool_decide_true.
      * wp_step. exists p3. unfold accept, bind. rewrite E1, E2, E3. by rewrite bool_decide_false by congruence.
    + wp_step. wp_step. wp_step. wp_step. split; [done|]. unfold accept, bind. by rewrite E1, E2.
  - destruct H2 as [p' E2]. wp_step. exists p'. unfold accept, bind. by rewrite E1, E2.
Qed.

End Accept.

(** ** Documents *)

Section Documents.
Context {F U : Type} {HF : Floats F} {HFL : FloatLaws F}.
Implicit Types (text : list Z).

Section Start.
Context {A : Type} {HA : InputAdapter A} {HL : AdapterLaws A}.

Lemma new_parser_settled (a : A) (u : U) t : feeds a 0 (Some t) -> settled (F := F) (lengthZ t) (new_parser a u) t.
Proof.
  intros Hf. pose proof (lengthZ_nonneg t). split_and!; [|done|cbn; lia]. unfold here, at_input. cbn. split_and!; [lia|lia|lia|]. exists 0. split; [lia|]. split; [done|lia].
Qed.

Lemma parse_answers callback allow_exceptions (a : A) (u : U) t fuel strict : feeds a 0 (Some t) -> lengthZ t < 2 ^ 31 - 2 -> (length t < fuel)%nat ->
  allow_exceptions = true \/ strict = false ->
  exists res p', parse callback allow_exceptions fuel strict (new_parser (F := F) a u) = Ok (res, p') /\ answer callback allow_exceptions (lengthZ t) strict t res.
Proof.
  intros Hf Hsmall Hfuel Hmode. apply wp_total. eapply parse_sound; [done| |by apply new_parser_settled|done]. unfold lengthZ. lia.
Qed.

Lemma parse_document (a : A) (u : U) t fuel : feeds a 0 (Some t) -> lengthZ t < 2 ^ 31 - 2 -> (length t < fuel)%nat ->
  exists res p', parse None true fuel true (new_parser (F := F) a u) = Ok (res, p') /\ forall v, res = Returns v <-> document v t.
Proof.
  intros Hf Hsmall Hfuel. destruct (parse_answers None true a u t fuel true Hf Hsmall Hfuel) as (res & p' & E & Hans); [by left|].
  exists res, p'. split; [done|]. intros v. split.
  - intros ->. destruct Hans as [[_ ?]|(ts & r & v0 & Hv & Hx & Hend & Ev)]; [done|]. rewrite (Ev eq_refl). exists ts, r. auto.
  - intros (ts & r & Hv & Hx & Hend). assert (wp nothing (parse None true fuel true) (fun res _ => res = Returns v) (new_parser (F := F) a u)) as Hw.
    { eapply parse_complete; [done| |done|by apply new_parser_settled|done..]. unfold lengthZ. lia. }
    unfold wp in Hw. by rewrite E in Hw.
Qed.

Lemma accept_document (a : A) (u : U) t fuel : feeds a 0 (Some t) -> lengthZ t < 2 ^ 31 - 2 -> (length t < fuel)%nat ->
  exists b p', accept fuel true (new_parser (F := F) a u) = Ok (b, p') /\ (b = true <-> exists v : json F, document v t).
Proof.
  intros Hf Hsmall Hfuel. destruct (parse_document a u t fuel Hf Hsmall Hfuel) as (res & p' & E & Hdoc).
  pose proof (parse_agrees fuel true (new_parser (F := F) a u) eq_refl) as Hw. unfold wp in Hw. rewrite E in Hw. destruct res as [v|e].
  - destruct Hw as [_ Ea]. exists true, p'. split; [done|]. split; [|done]. intros _. exists v. by apply Hdoc.
  - destruct Hw as [p2 Ea]. exists false, p2. split; [done|]. split; [done|]. intros [v Hv]. by apply Hdoc in Hv.
Qed.

End Start.

Lemma without_mark_shorter text : (length (without_mark text) <= length text)%nat.
Proof. unfold without_mark. case_match; [rewrite length_drop; lia|lia]. Qed.


(** C11: json::parse of a stream gives the same answer as for the same text in memory,
    for every size of the adapter's buffer of 3 or more bytes. *)
Theorem json_stream_correct BufferSize text (u : U) fuel : 3 <= BufferSize -> Forall is_byte text -> lengthZ text < 2 ^ 31 - 2 -> (length text < fuel)%nat ->
  exists a res p', new_cached_input_stream_adapter BufferSize (mkIstream text 0 false) = Ok a /\
    parse (HA := stream_protocol BufferSize) None true fuel true (new_parser (F := F) a u) = Ok (res, p') /\
    forall v, res = Returns v <-> document v (without_mark text).
Proof.
  intros HB Hb Hl Hf. pose proof (without_mark_shorter text). destruct (new_stream_feeds BufferSize text HB Hb) as (a & Ea & Hfeeds). exists a.
  destruct (parse_document (HL := stream_laws BufferSize) a u (without_mark text) fuel Hfeeds) as (res & p' & E & Hdoc); [unfold lengthZ in *; lia|lia|]. eauto.
Qed.

(** C9: Whatever the bytes, the callback and the size of the buffer of a stream, parse
    ends without an assertion that fails, without undefined behaviour and within the
    fuel; an exception is parse_error.101 with a position in the text or just behind
    it, or out_of_range.406; without a callback the value is that of the document.
    Without exceptions this holds where the rest of the text is not examined. *)
Theorem json_hostile_input BufferSize callback allow_exceptions strict text (u : U) fuel :
  3 <= BufferSize -> Forall is_byte text -> lengthZ text < 2 ^ 31 - 2 -> (length text < fuel)%nat -> allow_exceptions = true \/ strict = false ->
  let t := without_mark text in
  (exists res p', parse callback allow_exceptions fuel strict (new_parser (F := F) (new_input_buffer_adapter text) u) = Ok (res, p') /\
     answer callback allow_exceptions (lengthZ t) strict t res) /\
  exists a res p', new_cached_input_stream_adapter BufferSize (mkIstream text 0 false) = Ok a /\
    parse (HA := stream_protocol BufferSize) callback allow_exceptions fuel strict (new_parser (F := F) a u) = Ok (res, p') /\
    answer callback allow_exceptions (lengthZ t) strict t res.
Proof.
  intros HB Hb Hl Hf Hmode t. pose proof (without_mark_shorter text). split.
  - apply parse_answers; [apply new_input_buffer_feeds; [done|lia]|unfold t, lengthZ in *; lia|unfold t; lia|done].
  - destruct (new_stream_feeds BufferSize text HB Hb) as (a & Ea & Hfeeds). exists a.
    destruct (parse_answers (HL := stream_laws BufferSize) callback allow_exceptions a u t fuel strict Hfeeds) as (res & p' & E & Hans);
      [unfold t, lengthZ in *; lia|unfold t; lia|done|]. eauto.
Qed.

(** C10: json::accept answers true exactly for the documents, that is for the texts
    that json::parse returns a value for. *)
Theorem json_accept_correct text (u : U) fuel : Forall is_byte text -> lengthZ text < 2 ^ 31 - 2 -> (length text < fuel)%nat ->
  exists b p', accept fuel true (new_parser (F := F) (new_input_buffer_adapter text) u) = Ok (b, p') /\
    (b = true <-> exists v : json F, document v (without_mark text)).
Proof.
  intros Hb Hl Hf. pose proof (without_mark_shorter text). apply accept_document; [apply new_input_buffer_feeds; [done|lia]|unfold lengthZ in *; lia|lia].
Qed.

End Documents.

(** ** Samples *)

(** Floating-point numbers that are their texts. *)
#[local] Instance text_floats : Floats (list Z) := {|
  float_zero := chars "0.0"; isfinite _ := true; isnan _ := false; strtod t := (t, lengthZ t); snprintf_g x := x;
  locale_decimal_point := Some 46; locale_thousands_sep := None
|}.

#[local] Instance text_float_laws : FloatLaws (list Z).
Proof. by split. Qed.

(** [ { "a" : [1, -2.5, true], "b" : null } ] without the outer brackets *)
Definition sample_json : list Z :=
  chars " { " ++ [34; 97; 34] ++ chars " : [1, -2.5, true], " ++ [34; 98; 34] ++ chars ":null} ".

Definition sample_value : json (list Z) :=
  j_object [([97], j_array [j_number_unsigned 1; j_number_float (chars "-2.5"); j_boolean true]); ([98], j_null)].


Lemma json_stream_correct_witness :
  exists a p', new_cached_input_stream_adapter 4 (mkIstream sample_json 0 false) = Ok a /\
    parse (HA := stream_protocol 4) None true 100 true (new_parser a tt) = Ok (Returns sample_value, p') /\ document sample_value sample_json.
Proof.
  destruct (json_stream_correct (F := list Z) 4 sample_json tt 100) as (a & res & p' & Ea & E & H); [done|by_decide|done|by_decide|]. exists a, p'. split; [done|].
  assert (res = Returns sample_value) as ->; [|split; [done|by apply H]]. vm_compute in Ea. injection Ea as <-. vm_compute in E. by injection E.
Defined.

(** A callback that keeps the events with their depths and rejects arrays. *)
Definition reject_arrays (d : Z) (event : parse_event_t) (j : json (list Z)) (events : list (Z * parse_event_t)) : bool * json (list Z) * list (Z * parse_event_t) :=
  (match event with array_start => false | _ => true end, j, events ++ [(d, event)]).

Definition final {T} (x : outcome (T * parser input_buffer_adapter (list Z) (list (Z * parse_event_t)))) : option (T * list (Z * parse_event_t)) :=
  match x with Ok (x, p) => Some (x, cb_state p) | _ => None end.

(** The array of the first member leaves the depth too large by one: the key of the
    second member is reported at depth 2. *)
Remark rejected_array_depth :
  final (parse (Some reject_arrays) true 100 true (new_parser (new_input_buffer_adapter sample_json) [])) =
  Some (Returns (j_object [([98], j_null)]), [(0, object_start); (1, key); (1, array_start); (2, key); (2, value); (1, object_end); (1, value)]).
Proof. vm_compute. reflexivity. Qed.

(** The callback hears of the end of an empty array that it has rejected. *)
Remark rejected_empty_array :
  final (parse (Some reject_arrays) true 100 true (new_parser (new_input_buffer_adapter (chars "[]")) [])) = Some (Returns j_null, [(0, array_start); (0, array_end)]).
Proof. vm_compute. reflexivity. Qed.

(** A NUL ends the text: what follows is not examined. *)
Remark nul_ends_text :
  final (parse None true 100 true (new_parser (new_input_buffer_adapter [49; 0; 120]) [])) = Some (Returns (j_number_unsigned 1), []).
Proof. vm_compute. reflexivity. Qed.

(** The text of the last token in a message goes back to the last string or number. *)
Remark last_read_text :
  match parse (F := list Z) None true 100 true (new_parser (new_input_buffer_adapter (chars "[1,x]")) tt) with
  | Ok (Throws (parse_error_exception 101 4 what), _) => drop 83 what = chars "last read: '1,x'"
  | _ => False
  end.
Proof. vm_compute. reflexivity. Qed.

(** Without exceptions, parse asks a stream for more after its end, and an assertion
    of the adapter fails. *)
Remark stream_after_end :
  match new_cached_input_stream_adapter 4 (mkIstream (chars "[1  ") 0 false) with
  | Ok a => parse (F := list Z) (HA := stream_protocol 4) None false 100 true (new_parser a tt) = Abort
  | _ => False
  end.
Proof. vm_compute. reflexivity. Qed.

(** The character behind a number is taken from the stream with the number: the
    string that follows loses its quote. *)
Remark stream_behind_number :
  match new_cached_input_stream_adapter 4 (mkIstream [49; 34; 97; 34] 0 false) with
  | Ok a =>
      match parse (F := list Z) (HA := stream_protocol 4) None true 100 false (new_parser a tt) with
      | Ok (Returns v, p) => v = j_number_unsigned 1 /\ position (delete_cached_input_stream_adapter (ia (m_lexer p))) = 2
      | _ => False
      end
  | _ => False
  end.
Proof. vm_compute. by split. Qed.

Lemma json_hostile_input_witness :
  exists e p', parse (Some reject_arrays) true 100 true (new_parser (new_input_buffer_adapter (chars "[[0,{")) []) = Ok (Throws e, p') /\ error_ok 5 e.
Proof.
  destruct (proj1 (json_hostile_input (F := list Z) 4 (Some reject_arrays) true true (chars "[[0,{") [] 100 ltac:(done) ltac:(by_decide) ltac:(done) ltac:(by_decide) (or_introl eq_refl)))
    as (res & p' & E & H). destruct res as [v|e]; [vm_compute in E; discriminate|]. exists e, p'. split; [exact E|exact H].
Defined.

Lemma json_accept_correct_witness :
  exists p', accept 100 true (new_parser (F := list Z) (new_input_buffer_adapter sample_json) tt) = Ok (true, p') /\ exists v : json (list Z), document v sample_json.
Proof.
  destruct (json_accept_correct (F := list Z) sample_json tt 100) as (b & p' & E & H); [by_decide|done|by_decide|]. exists p'.
  assert (b = true) as ->; [|split; [done|by apply H]]. vm_compute in E. by injection E.
Defined.
