(* ===== verification/JsonDumpSpec.v ===== *)
(** * What the serializer of JSON promises

    That dump writes a document, and that parse reads the value back. *)

From stdpp Require Import sorting.
From S2P Require Import Prelude CLib Memory Buffer Utf8 Json JsonLexSpec JsonTokens JsonParser JsonSpec JsonDump.

(** ** Strings *)

(** The four digits of a code unit, and a code point as escapes. *)
Definition hex_text (x : Z) : list Z :=
  [digit_char (Z.land (Z.shiftr x 12) 0x0F); digit_char (Z.land (Z.shiftr x 8) 0x0F); digit_char (Z.land (Z.shiftr x 4) 0x0F); digit_char (Z.land x 0x0F)].

Definition unicode_text (c : Z) : list Z :=
  if c <? 0x10000 then 92 :: 117 :: hex_text c
  else 92 :: 117 :: hex_text (Z.lor 0xD800 (Z.land (Z.shiftr (c - 0x10000) 10) 0x3FF)) ++ 92 :: 117 :: hex_text (Z.lor 0xDC00 (Z.land (c - 0x10000) 0x3FF)).

(** What is written of the bytes [x] in one round: [letter] an escape with a letter,
    [code] a code point in hexadecimal, [raw] the byte itself. *)
Inductive round_text (ensure_ascii : bool) : list Z -> list Z -> Prop :=
| letter c e : escape_letter c = Some e -> round_text ensure_ascii [c] [92; e]
| code c : scalar c -> escape_letter c = None -> c <= 0x1f \/ (ensure_ascii = true /\ 0x7f <= c) -> round_text ensure_ascii (utf8_encode c) (unicode_text c)
| raw b : is_byte b -> escape_letter b = None -> 0x20 <= b -> ensure_ascii && non_ascii b = false -> round_text ensure_ascii [b] [b].

Inductive rounds_text (ensure_ascii : bool) : list Z -> list Z -> Prop :=
| rounds_nil : rounds_text ensure_ascii [] []
| rounds_cons x u s t : round_text ensure_ascii x u -> rounds_text ensure_ascii s t -> rounds_text ensure_ascii (x ++ s) (u ++ t).

Lemma byte_at_app (a l : list Z) k : 0 <= k -> byte_at (a ++ l) (lengthZ a + k) = byte_at l k.
Proof. intros. unfold byte_at, lengthZ. rewrite app_nth2 by lia. f_equal. lia. Qed.

Ltac sizes := rewrite ?lengthZ_app; unfold lengthZ in *; cbn [length hex_text] in *; lia.

Ltac at_bytes := unfold byte_at; change (Z.to_nat 0) with 0%nat; change (Z.to_nat 1) with 1%nat; change (Z.to_nat 2) with 2%nat; change (Z.to_nat 3) with 3%nat; cbn.

Lemma land_ones_low m n x : 0 <= n -> 0 <= x < 2 ^ n -> Z.land (m * 2 ^ n + x) (Z.ones n) = x.
Proof. intros Hn Hx. rewrite Z.land_ones, Z.add_comm, Z.mod_add by lia. by apply Z.mod_small. Qed.

Lemma follow_2 x y a r : 2 <= x < 32 -> 0 <= y < 64 ->
  bytes_following (0xC0 + x) = Some 1 /\ codepoint_at (a ++ [0xC0 + x; 0x80 + y] ++ r) (lengthZ a) 1 = x * 64 + y.
Proof.
  intros Hx Hy. split; [unfold bytes_following; split_cases|]. unfold codepoint_at. rewrite !byte_at_app by lia. at_bytes.
  rewrite Z.shiftl_mul_pow2 by lia. pose proof (land_ones_low 3 6 x ltac:(lia) ltac:(lia)) as E1. pose proof (land_ones_low 1 7 y ltac:(lia) ltac:(lia)) as E2.
  change (Z.ones 6) with 63 in E1. change (Z.ones 7) with 127 in E2. change (3 * 2 ^ 6) with 192 in E1. change (1 * 2 ^ 7) with 128 in E2. rewrite E1, E2. lia.
Qed.

Lemma follow_3 x y z a r : 0 <= x < 16 -> 0 <= y < 64 -> 0 <= z < 64 ->
  bytes_following (0xE0 + x) = Some 2 /\ codepoint_at (a ++ [0xE0 + x; 0x80 + y; 0x80 + z] ++ r) (lengthZ a) 2 = x * 4096 + y * 64 + z.
Proof.
  intros Hx Hy Hz. split; [unfold bytes_following; split_cases|]. unfold codepoint_at. rewrite !byte_at_app by lia. at_bytes.
  rewrite !Z.shiftl_mul_pow2 by lia. pose proof (land_ones_low 7 5 x ltac:(lia) ltac:(lia)) as E1. pose proof (land_ones_low 1 7 y ltac:(lia) ltac:(lia)) as E2.
  pose proof (land_ones_low 1 7 z ltac:(lia) ltac:(lia)) as E3. change (Z.ones 5) with 31 in E1. change (Z.ones 7) with 127 in *. change (7 * 2 ^ 5) with 224 in E1.
  change (1 * 2 ^ 7) with 128 in *. rewrite E1, E2, E3. lia.
Qed.

Lemma follow_4 x y z w a r : 0 <= x < 8 -> 0 <= y < 64 -> 0 <= z < 64 -> 0 <= w < 64 ->
  bytes_following (0xF0 + x) = Some 3 /\ codepoint_at (a ++ [0xF0 + x; 0x80 + y; 0x80 + z; 0x80 + w] ++ r) (lengthZ a) 3 = x * 262144 + y * 4096 + z * 64 + w.
Proof.
  intros Hx Hy Hz Hw. split; [unfold bytes_following; split_cases|]. unfold codepoint_at. rewrite !byte_at_app by lia. at_bytes.
  rewrite !Z.shiftl_mul_pow2 by lia. pose proof (land_ones_low 15 4 x ltac:(lia) ltac:(lia)) as E1. pose proof (land_ones_low 1 7 y ltac:(lia) ltac:(lia)) as E2.
  pose proof (land_ones_low 1 7 z ltac:(lia) ltac:(lia)) as E3. pose proof (land_ones_low 1 7 w ltac:(lia) ltac:(lia)) as E4. change (Z.ones 4) with 15 in E1. change (Z.ones 7) with 127 in *.
  change (15 * 2 ^ 4) with 240 in E1. change (1 * 2 ^ 7) with 128 in *. rewrite E1, E2, E3, E4. lia.
Qed.

(** The first byte tells the length, and the bytes the character. *)
Lemma encoded c : scalar c -> 0x80 <= c -> exists b0 bs, utf8_encode c = b0 :: bs /\ bytes_following b0 = Some (lengthZ bs) /\ 0xC2 <= b0 < 0x100 /\
  lengthZ bs = (if c <? 0x800 then 1 else if c <? 0x10000 then 2 else 3) /\ forall a r, codepoint_at (a ++ (b0 :: bs) ++ r) (lengthZ a) (lengthZ bs) = c.
Proof.
  intros Hc H80. assert (c < 0x110000) by (unfold scalar in Hc; lia). unfold utf8_encode. replace (c <? 0x80) with false by lia.
  destruct (c <? 0x800) eqn:E2; [|destruct (c <? 0x10000) eqn:E3]; (eexists _, _; split; [reflexivity|]).
  - pose proof (fun a r => follow_2 (c / 64) (c mod 64) a r ltac:(euclid) ltac:(euclid)) as Hf. split_and!; [apply (Hf [] [])|euclid|euclid|done|].
    intros a r. etrans; [apply (Hf a r)|]. euclid.
  - pose proof (fun a r => follow_3 (c / 4096) (c / 64 mod 64) (c mod 64) a r ltac:(euclid) ltac:(euclid) ltac:(euclid)) as Hf. split_and!; [apply (Hf [] [])|euclid|euclid|done|].
    intros a r. etrans; [apply (Hf a r)|]. euclid.
  - pose proof (fun a r => follow_4 (c / 262144) (c / 4096 mod 64) (c / 64 mod 64) (c mod 64) a r ltac:(euclid) ltac:(euclid) ltac:(euclid) ltac:(euclid)) as Hf.
    split_and!; [apply (Hf [] [])|euclid|euclid|done|]. intros a r. etrans; [apply (Hf a r)|]. euclid.
Qed.

Lemma hex_text_spec c : 0 <= c < 0x10000 -> hex4 c (hex_text c).
Proof.
  intros Hc. unfold hex_text.
  assert (forall d, 0 <= d < 16 -> hex_digit (digit_char d) = Some d) as Hd by (intros; unfold hex_digit, digit_char; split_cases; f_equal; lia).
  change 0x0F with (Z.ones 4). rewrite !Z.land_ones, !Z.shiftr_div_pow2 by lia. change (2 ^ 12) with 4096. change (2 ^ 8) with 256. change (2 ^ 4) with 16.
  replace c with ((c / 4096) mod 16 * 4096 + (c / 256) mod 16 * 256 + (c / 16) mod 16 * 16 + c mod 16) at 1 by (Z.to_euclidean_division_equations; lia).
  constructor; apply Hd; apply Z.mod_pos_bound; lia.
Qed.

Lemma unicode_piece c : scalar c -> piece (utf8_encode c) (unicode_text c).
Proof.
  intros Hc. unfold unicode_text. destruct (Z.ltb_spec c 0x10000).
  - constructor; [apply hex_text_spec; unfold scalar in *; lia|unfold surrogate, scalar in *; lia].
  - change 0x3FF with (Z.ones 10). rewrite !Z.land_ones, !Z.shiftr_div_pow2 by lia. change (2 ^ 10) with 1024. assert (0x10000 <= c < 0x110000) by (unfold scalar in *; lia).
    assert ((c - 0x10000) / 1024 mod 1024 = (c - 0x10000) / 1024) as -> by (Z.to_euclidean_division_equations; lia).
    assert (0 <= (c - 0x10000) / 1024 < 1024) by (Z.to_euclidean_division_equations; lia). pose proof (Z.mod_pos_bound (c - 0x10000) 1024 ltac:(lia)).
    rewrite (lor_add 54 10), (lor_add 55 10) by lia. change (54 * 2 ^ 10) with 0xD800. change (55 * 2 ^ 10) with 0xDC00.
    replace c with (0x10000 + (0xD800 + (c - 0x10000) / 1024 - 0xD800) * 1024 + (0xDC00 + (c - 0x10000) mod 1024 - 0xDC00)) at 1 by (Z.to_euclidean_division_equations; lia).
    apply piece_pair; [by apply hex_text_spec; lia..|lia|lia].
Qed.

Lemma letter_piece c e : escape_letter c = Some e -> piece [c] [92; e].
Proof. intros H. constructor. revert H. unfold escape_letter. intros. split_cases; match goal with H : (_ =? _) = true |- _ => by apply Z.eqb_eq in H as -> end. Qed.

Lemma escape_letter_none c : 93 <= c -> escape_letter c = None.
Proof. intros. unfold escape_letter. split_cases. Qed.

Lemma escape_letter_ascii c e : escape_letter c = Some e -> 0 <= c < 0x80.
Proof. unfold escape_letter. intros. split_cases. Qed.

Lemma utf8_ascii c : c < 0x80 -> utf8_encode c = [c].
Proof. intros. unfold utf8_encode. by replace (c <? 0x80) with true by lia. Qed.

Lemma rounds_raw ensure_ascii bs : Forall (fun b => round_text ensure_ascii [b] [b]) bs -> rounds_text ensure_ascii bs bs.
Proof. induction 1 as [|b bs Hb _ IH]; [constructor|]. by apply (rounds_cons _ [b] [b]). Qed.

Lemma rounds_one ensure_ascii x u : round_text ensure_ascii x u -> rounds_text ensure_ascii x u.
Proof. intros. rewrite <- (app_nil_r x), <- (app_nil_r u). constructor; [done|constructor]. Qed.

Lemma rounds_app ensure_ascii s t s' t' : rounds_text ensure_ascii s t -> rounds_text ensure_ascii s' t' -> rounds_text ensure_ascii (s ++ s') (t ++ t').
Proof. induction 1; intros; [done|]. rewrite <- !app_assoc. constructor; auto. Qed.

Lemma non_ascii_spec c : is_byte c -> non_ascii c = (0x7f <=? c).
Proof. intros Hc. unfold non_ascii. by apply (byte_test c (fun c => bits_set c 0x80 || (c =? 0x7F)) (fun c => 0x7f <=? c)). Qed.

Lemma utf8_bytes c : scalar c -> Forall is_byte (utf8_encode c) /\ (0x80 <= c -> Forall (fun b => 0x80 <= b) (utf8_encode c)).
Proof.
  intros Hc. unfold utf8_encode. repeat case_match; (split; [repeat constructor; euclid|intros; repeat constructor; euclid]).
Qed.

Lemma char_text ensure_ascii c : scalar c -> exists u, rounds_text ensure_ascii (utf8_encode c) u /\ piece (utf8_encode c) u.
Proof.
  intros Hc. destruct (escape_letter c) as [e|] eqn:El.
  { pose proof (escape_letter_ascii _ _ El). exists [92; e]. rewrite utf8_ascii by lia. split; [apply rounds_one; by constructor|by apply letter_piece]. }
  destruct (decide (c <= 0x1f \/ (ensure_ascii = true /\ 0x7f <= c))) as [Hcode|Hraw].
  { exists (unicode_text c). split; [apply rounds_one; by constructor|by apply unicode_piece]. }
  assert (0x20 <= c /\ (ensure_ascii = false \/ c < 0x7f)) as [H20 Ha] by (destruct ensure_ascii; (split; [lia|]); [right|by left]; lia).
  exists (utf8_encode c). split; [|constructor; [done|lia|intros ->; done|intros ->; done]].
  apply rounds_raw. destruct (decide (c < 0x80)) as [Hlow|Hhigh].
  - rewrite utf8_ascii by lia. constructor; [|constructor]. constructor; [unfold is_byte; lia|done|done|]. rewrite non_ascii_spec by (unfold is_byte; lia).
    destruct Ha as [-> | ]; [done|]. replace (0x7f <=? c) with false by lia. apply andb_false_r.
  - destruct (utf8_bytes c Hc) as [Hb1 Hb2]. specialize (Hb2 ltac:(lia)). assert (ensure_ascii = false) as -> by (destruct Ha; [done|lia]).
    apply Forall_forall. intros b Hb. rewrite Forall_forall in Hb1, Hb2. specialize (Hb1 b Hb). specialize (Hb2 b Hb). constructor; [done|apply escape_letter_none; lia|lia|done].
Qed.

Lemma string_text ensure_ascii s : utf8_text s -> exists t, rounds_text ensure_ascii s t /\ spells s t.
Proof.
  intros (cs & Hcs & ->). induction Hcs as [|c cs Hc _ (t & H1 & H2)]; [exists []; split; constructor|].
  destruct (char_text ensure_ascii c Hc) as (u & Hu1 & Hu2). exists (u ++ t). cbn. split; [by apply rounds_app|by constructor].
Qed.

Lemma unicode_length c : lengthZ (unicode_text c) = if c <? 0x10000 then 6 else 12.
Proof. unfold unicode_text. by case_match. Qed.

Section Escaping.
Context (ensure_ascii : bool).

Lemma extra_round a x u r res m : round_text ensure_ascii x u ->
  extra_space_round ensure_ascii (a ++ x ++ r) (lengthZ a, res) m = Ok (inl (lengthZ a + lengthZ x, res + (lengthZ u - lengthZ x)), m).
Proof.
  intros Hx. assert (exists b bs, x = b :: bs) as (b & bs & Ex) by (destruct Hx as [| c Hc ? ?|]; [eauto|unfold utf8_encode; repeat case_match; eauto|eauto]).
  pose proof (byte_at_app a (x ++ r) 0 ltac:(lia)) as Eb. rewrite Z.add_0_r in Eb. replace (byte_at (x ++ r) 0) with b in Eb by (by rewrite Ex).
  unfold extra_space_round. rewrite Eb. pose proof (lengthZ_nonneg r). pose proof (lengthZ_nonneg bs).
  replace (lengthZ a <? lengthZ (a ++ x ++ r)) with true by (rewrite Ex, !lengthZ_app, lengthZ_cons; lia). cbn [negb]. clear Eb.
  destruct Hx as [c e He|c Hc He Hcode|c Hb He H20 Ha].
  - injection Ex as <- <-. by rewrite He.
  - rewrite unicode_length. destruct (decide (c < 0x80)) as [Hlow|Hhigh].
    + rewrite utf8_ascii in * by lia. injection Ex as <- <-. rewrite He. replace (c <? 0x10000) with true by lia. destruct (c <=? 0x1f) eqn:E1; [done|].
      assert (c = 0x7f) as -> by lia. destruct Hcode as [|[-> _]]; [lia|]. cbn. unfold ret. by rewrite Z.add_0_r.
    + destruct (encoded c Hc ltac:(lia)) as (b0 & bs0 & E & Hf & Hb & Hl & _). rewrite E in Ex. injection Ex as -> ->. rewrite E.
      rewrite escape_letter_none by lia. replace (b <=? 0x1f) with false by lia. destruct Hcode as [|[-> _]]; [lia|]. rewrite non_ascii_spec by (unfold is_byte; lia).
      replace (0x7f <=? b) with true by lia. cbn [andb]. rewrite Hf, lengthZ_cons. unfold ret.
      do 2 f_equal. apply (f_equal inl), f_equal2; [lia|]. rewrite Hl. repeat case_match; lia.
  - injection Ex as <- <-. rewrite He. replace (c <=? 0x1f) with false by lia. rewrite Ha. unfold ret. change (lengthZ [c]) with 1. by rewrite Z.sub_diag, Z.add_0_r.
Qed.

Lemma extra_loop fuel a s t res m : rounds_text ensure_ascii s t -> (length s < fuel)%nat ->
  iter fuel (extra_space_round ensure_ascii (a ++ s)) (lengthZ a, res) m = Ok (res + (lengthZ t - lengthZ s), m).
Proof.
  intros Hr. revert fuel a res. induction Hr as [|x u s t Hx Hr IH]; intros fuel a res Hf; (destruct fuel as [|fuel]; [lia|]); cbn [iter]; unfold bind.
  - unfold extra_space_round. rewrite app_nil_r. replace (lengthZ a <? lengthZ a) with false by lia. cbn. unfold ret. do 2 f_equal. unfold lengthZ. cbn. lia.
  - rewrite (extra_round a x u s res m Hx). rewrite <- lengthZ_app, app_assoc. rewrite IH.
    + rewrite !lengthZ_app. do 2 f_equal. lia.
    + assert (0 < length x)%nat; [|rewrite length_app in Hf; lia]. destruct Hx; cbn; [lia| |lia]. unfold utf8_encode. repeat case_match; cbn; lia.
Qed.

Lemma wp_store_at b (l1 l2 : list Z) y i v (Q : unit -> list Z -> Prop) m : m = l1 ++ y :: l2 -> i = lengthZ l1 -> Q tt (l1 ++ v :: l2) -> wp b (store i v) Q m.
Proof.
  intros -> -> HQ. pose proof (lengthZ_nonneg l1). pose proof (lengthZ_nonneg l2). apply wp_store; [apply in_block_spec; rewrite lengthZ_app, lengthZ_cons; lia|].
  assert (splice (l1 ++ y :: l2) (lengthZ l1) [v] = l1 ++ v :: l2) as ->; [|done]. unfold splice, lengthZ. rewrite Nat2Z.id, take_app_length.
  rewrite drop_app_ge by (cbn; lia). f_equal. cbn [length app]. by replace (Z.to_nat (Z.of_nat (length l1) + Z.of_nat 1) - length l1)%nat with 1%nat by lia.
Qed.

Lemma wp_load_at b (l1 l2 : list Z) y i (Q : Z -> list Z -> Prop) : i = lengthZ l1 -> Q y (l1 ++ y :: l2) -> wp b (load i) Q (l1 ++ y :: l2).
Proof.
  intros -> HQ. pose proof (lengthZ_nonneg l1). pose proof (lengthZ_nonneg l2). apply wp_load; [apply in_block_spec; rewrite lengthZ_app, lengthZ_cons; lia|].
  pose proof (byte_at_app l1 (y :: l2) 0 ltac:(lia)) as E. rewrite Z.add_0_r in E. by rewrite E.
Qed.

Ltac same_list := rewrite <- ?app_assoc; reflexivity.

Lemma put_hex_spec x pos pre y1 y2 y3 y4 rest (Q : Z -> list Z -> Prop) m : m = pre ++ y1 :: y2 :: y3 :: y4 :: rest -> pos + 1 = lengthZ pre ->
  Q (pos + 4) (pre ++ hex_text x ++ rest) -> wp nothing (put_hex x pos) Q m.
Proof.
  intros -> Hp HQ. unfold put_hex. wp_step. eapply (wp_store_at _ pre); [same_list|sizes|]. wp_step. eapply (wp_store_at _ (pre ++ [_])); [same_list|sizes|].
  wp_step. eapply (wp_store_at _ (pre ++ [_; _])); [same_list|sizes|]. wp_step. eapply (wp_store_at _ (pre ++ [_; _; _])); [same_list|sizes|].
  wp_step. by rewrite <- !app_assoc.
Qed.

Lemma escape_codepoint_spec c pre rest : 0 <= c <= 0x10FFFF ->
  wp nothing (escape_codepoint c (lengthZ pre)) (fun p m => p = lengthZ pre + lengthZ (unicode_text c) /\ m = pre ++ unicode_text c ++ rest)
    (pre ++ replicate (length (unicode_text c)) 92 ++ rest).
Proof.
  intros Hc. rewrite unicode_length. unfold escape_codepoint, unicode_text. wp_step. wp_step; [|lia]. wp_step. destruct (c <? 0x10000); cbn [length app replicate hex_text].
  - apply wp_load_at; [done|]. wp_step. wp_step; [|done]. wp_step. eapply (wp_store_at _ (pre ++ [92])); [same_list|sizes|]. wp_step.
    eapply (put_hex_spec _ _ (pre ++ [92; 117])); [same_list|sizes|]. wp_step. split; [lia|same_list].
  - apply wp_load_at; [done|]. wp_step. wp_step; [|done]. wp_step. eapply (wp_store_at _ (pre ++ [92])); [same_list|sizes|]. wp_step. wp_step.
    eapply (put_hex_spec _ _ (pre ++ [92; 117])); [same_list|sizes|]. wp_step. eapply (wp_store_at _ (pre ++ [92; 117] ++ hex_text _ ++ [92])); [same_list|sizes|].
    eapply (put_hex_spec _ _ (pre ++ [92; 117] ++ hex_text _ ++ [92; 117])); [same_list|sizes|]. wp_step. split; [lia|same_list].
Qed.

(** A code point that is written in hexadecimal. *)
Lemma code_bytes c : scalar c -> escape_letter c = None -> c <= 0x1f \/ (ensure_ascii = true /\ 0x7f <= c) ->
  exists b bs k, utf8_encode c = b :: bs /\ escape_letter b = None /\ (b <=? 31) || (ensure_ascii && non_ascii b) = true /\ bytes_following b = Some k /\
    lengthZ (utf8_encode c) = k + 1 /\ forall a r, codepoint_at (a ++ utf8_encode c ++ r) (lengthZ a) k = c.
Proof.
  intros Hc He Hcode. destruct (decide (c < 0x80)) as [Hlow|Hhigh].
  - exists c, [], 0. rewrite (utf8_ascii c) by lia. split_and!; [done|done| |unfold bytes_following; by replace (c <=? 127) with true by lia|done|].
    + destruct (c <=? 31) eqn:E1; [done|]. assert (c = 0x7f) as -> by lia. destruct Hcode as [|[-> _]]; [lia|done].
    + intros a r. unfold codepoint_at. rewrite byte_at_app by lia. at_bytes. unfold scalar in Hc. change 255 with (Z.ones 8). rewrite Z.land_ones by lia. apply Z.mod_small. lia.
  - destruct (encoded c Hc ltac:(lia)) as (b & bs & E & Hf & Hb & Hl & Hcp). exists b, bs, (lengthZ bs). rewrite E. split_and!; [done|apply escape_letter_none; lia| |done|rewrite lengthZ_cons; lia|done].
    destruct Hcode as [|[-> _]]; [lia|]. rewrite non_ascii_spec by (unfold is_byte; lia). apply orb_true_iff. right. cbn. lia.
Qed.

Lemma escape_round_spec a x u r out rest : round_text ensure_ascii x u ->
  wp nothing (escape_round ensure_ascii (a ++ x ++ r) (lengthZ a, lengthZ out))
    (fun res m => res = inl (lengthZ a + lengthZ x, lengthZ out + lengthZ u) /\ m = out ++ u ++ rest) (out ++ replicate (length u) 92 ++ rest).
Proof.
  intros Hx. assert (exists b bs, x = b :: bs) as (b & bs & Ex) by (destruct Hx as [| c Hc ? ?|]; [eauto|unfold utf8_encode; repeat case_match; eauto|eauto]).
  pose proof (byte_at_app a (x ++ r) 0 ltac:(lia)) as Eb. rewrite Z.add_0_r in Eb. replace (byte_at (x ++ r) 0) with b in Eb by (by rewrite Ex).
  unfold escape_round. rewrite Eb. pose proof (lengthZ_nonneg r). pose proof (lengthZ_nonneg bs).
  replace (lengthZ a <? lengthZ (a ++ x ++ r)) with true by (rewrite Ex, !lengthZ_app, lengthZ_cons; lia). cbn [negb]. clear Eb.
  destruct Hx as [c e He|c Hc He Hcode|c Hb He H20 Ha].
  - injection Ex as <- <-. rewrite He. wp_step. cbn [length replicate app]. destruct (e =? 92) eqn:E92.
    + wp_step. wp_step. assert (e = 92) as -> by lia. done.
    + eapply (wp_store_at _ (out ++ [92])); [same_list|sizes|]. wp_step. split; [done|same_list].
  - destruct (code_bytes c Hc He Hcode) as (b' & bs' & k & E & El & Ecode & Hf & Hk & Hcp). rewrite E in Ex. injection Ex as -> ->. rewrite El, Ecode, Hf, Hcp.
    wp_step. wp_step; [|rewrite !lengthZ_app in *; lia]. wp_step. eapply wp_mono; [apply escape_codepoint_spec; unfold scalar in Hc; lia|].
    intros p m [-> ->]. wp_step. split; [|done]. rewrite Hk. by rewrite Z.add_assoc.
  - injection Ex as <- <-. rewrite He. rewrite Ha. replace (c <=? 31) with false by lia. cbn [orb length replicate app]. wp_step. eapply wp_store_at; [done..|]. by wp_step.
Qed.

Lemma escape_loop fuel a s t out : rounds_text ensure_ascii s t -> (length s < fuel)%nat ->
  wp nothing (iter fuel (escape_round ensure_ascii (a ++ s)) (lengthZ a, lengthZ out)) (fun pos m => pos = lengthZ out + lengthZ t /\ m = out ++ t)
    (out ++ replicate (length t) 92).
Proof.
  intros Hr. revert fuel a out. induction Hr as [|x u s t Hx Hr IH]; intros fuel a out Hf; (destruct fuel as [|fuel]; [lia|]); cbn [iter]; wp_step.
  - unfold escape_round. rewrite app_nil_r. replace (lengthZ a <? lengthZ a) with false by lia. cbn [negb]. wp_step. wp_step. split; [unfold lengthZ; cbn; lia|done].
  - rewrite length_app, replicate_add. eapply wp_mono; [by apply escape_round_spec|]. intros res m [-> ->]. cbn beta iota.
    rewrite <- !lengthZ_app, !app_assoc. eapply wp_mono; [apply IH|].
    + assert (0 < length x)%nat; [|rewrite length_app in Hf; lia]. destruct Hx; cbn; [lia| |lia]. unfold utf8_encode. repeat case_match; cbn; lia.
    + intros pos m [-> ->]. rewrite !lengthZ_app. split; [lia|done].
Qed.

Lemma rounds_longer s t : rounds_text ensure_ascii s t -> lengthZ s <= lengthZ t /\ (lengthZ s = lengthZ t -> s = t).
Proof.
  induction 1 as [|x u s t Hx Hr [IH1 IH2]]; [done|]. rewrite !lengthZ_app.
  assert (lengthZ x <= lengthZ u /\ (lengthZ x = lengthZ u -> x = u)) as [H1 H2].
  { destruct Hx as [c e He|c Hc He Hcode|c Hb He H20 Ha]; [done| |done]. rewrite unicode_length. unfold utf8_encode. repeat case_match; unfold lengthZ; cbn; split; lia. }
  split; [lia|]. intros E. rewrite H2, IH2 by lia. done.
Qed.

(** dump_escaped writes a spelling of the string. *)
Lemma escaped_spec s m : utf8_text s -> exists t m', escaped ensure_ascii s m = Ok (t, m') /\ spells s t.
Proof.
  intros Hs. destruct (string_text ensure_ascii s Hs) as (t & Hr & Hsp). destruct (rounds_longer _ _ Hr) as [Hle Heq]. exists t. unfold escaped, extra_space, bind at 1.
  pose proof (extra_loop (S (length s)) [] s t 0 m Hr ltac:(lia)) as El. cbn [app] in El. change (lengthZ []) with 0 in El. rewrite El. rewrite Z.add_0_l.
  destruct (lengthZ t - lengthZ s =? 0) eqn:E0; [exists m; split; [|done]; unfold ret; by rewrite Heq by lia|]. replace (lengthZ s + (lengthZ t - lengthZ s)) with (lengthZ t) by lia.
  assert (wp nothing (pos <- iter (S (length s)) (escape_round ensure_ascii s) (0, 0) ;; CHECK (pos =? lengthZ t) ;; load_bytes 0 (lengthZ t)) (fun x _ => x = t)
    (replicate (Z.to_nat (lengthZ t)) 92)) as Hw.
  { wp_step. replace (Z.to_nat (lengthZ t)) with (length t) by (unfold lengthZ; lia). eapply wp_mono; [apply (escape_loop _ [] s t [] Hr); lia|]. intros pos m1 [-> ->]. cbn [app]. change (lengthZ []) with 0.
    wp_step. wp_step; [|lia]. pose proof (lengthZ_nonneg t). apply wp_load_bytes; [apply in_block_spec; lia|]. apply slice_whole. }
  apply wp_total in Hw as (x & m' & E & ->). exists m. split; [|done]. unfold with_block. by rewrite E.
Qed.

End Escaping.

(** ** Integers *)

Lemma integer_loop k f x nb (s : serializer) : 0 < Z.abs x < 10 ^ Z.of_nat k -> (k < f)%nat -> lengthZ nb + Z.of_nat k <= 63 ->
  exists ds, iter f integer_round (x, nb) s = Ok (nb ++ ds, s) /\ (length ds <= k)%nat /\ digits_ok (rev ds) /\ hd 0 (rev ds) <> 48 /\ decimal (rev ds) = Z.abs x.
Proof.
  revert f x nb. induction k as [|k IH]; intros f x nb Hx Hf Hnb; [cbn in Hx; lia|]. destruct f as [|f]; [lia|]. cbn [iter]. unfold bind, integer_round at 1.
  replace (x =? 0) with false by lia. unfold bind, CHECK. replace (lengthZ nb <? 63) with true by lia. cbn -[Z.quot Z.rem Z.abs Z.pow].
  set (d := 48 + Z.abs (Z.rem x 10)). assert (digit d = true) as Hd by (unfold digit, d; Z.to_euclidean_division_equations; lia).
  rewrite Nat2Z.inj_succ, Z.pow_succ_r in Hx by lia. destruct (decide (Z.quot x 10 = 0)) as [E0|Hne].
  - exists [d]. rewrite E0. destruct f as [|f]; [lia|]. cbn -[Z.quot Z.rem Z.abs]. split_and!; [done|lia|split; [done|by repeat constructor]|unfold d; Z.to_euclidean_division_equations; lia|].
    unfold decimal, d. cbn -[Z.quot Z.rem Z.abs]. Z.to_euclidean_division_equations; lia.
  - destruct (IH f (Z.quot x 10) (nb ++ [d])) as (ds & E & Hl & (Hn & Hds) & Hh & Hv); [Z.to_euclidean_division_equations; lia|lia|rewrite lengthZ_app; unfold lengthZ in *; cbn; lia|].
    exists (d :: ds). rewrite E, <- app_assoc. cbn [length rev]. split_and!; [done|lia| | |].
    + split; [by destruct (rev ds)|]. apply Forall_app. split; [done|by repeat constructor].
    + by destruct (rev ds).
    + unfold decimal in *. rewrite foldl_app, Hv. cbn -[Z.quot Z.rem Z.abs]. unfold d. Z.to_euclidean_division_equations; lia.
Qed.

Definition integer_number (x : Z) (n : number) : Prop :=
  number_ok n /\ fraction n = None /\ exponent n = None /\ negative n = (x <? 0) /\ decimal (int_part n) = Z.abs x.

Lemma dump_integer_spec x s : - 2 ^ 63 <= x < 2 ^ 64 ->
  exists n, integer_number x n /\ dump_integer x s = Ok (tt, mkSerializer (o s ++ number_text 46 n) (indent_string s)).
Proof.
  intros Hx. unfold dump_integer. destruct (Z.eqb_spec x 0) as [->|Hne].
  - exists (mkNumber false [48] None None). split; [|done]. split_and!; try done. split; cbn; try done. split; [|done]. split; [done|by repeat constructor].
  - destruct (integer_loop 20 65 x [] s) as (ds & E & Hl & Hds & Hh & Hv); [change (10 ^ Z.of_nat 20) with 100000000000000000000; lia|lia|unfold lengthZ; cbn; lia|].
    exists (mkNumber (x <? 0) (rev ds) None None). split.
    + by split_and!.
    + unfold bind. rewrite E. cbn [app]. unfold number_text. cbn [negative int_part fraction exponent fraction_text exponent_text]. rewrite !app_nil_r.
      destruct (x <? 0); [|done]. unfold CHECK. replace (lengthZ ds <? 62) with true by (unfold lengthZ; lia). cbn. by rewrite rev_app_distr.
Qed.

(** ** Texts *)

(** What may follow a value. *)
Definition closed (r : list Z) : Prop :=
  match r with [] => True | c :: _ => c = 44 \/ c = 93 \/ c = 125 \/ is_whitespace c = true end.

Lemma closed_stops n r : closed r -> stops n r.
Proof.
  intros Hr. assert (let c := hd (-1) r in digit c = false /\ is_exponent c = false /\ c <> 46) as (Hd & He & Hp).
  { destruct r as [|c r]; [done|]. cbn in *. unfold is_whitespace, digit, is_exponent in *. lia. }
  unfold stops. split_cases. auto.
Qed.

Lemma lexes_blank w tok ts t r : blank w -> lexes (tok :: ts) t r -> lexes (tok :: ts) (w ++ t) r.
Proof.
  intros Hw Hx. inversion Hx as [|w' tok' u ts' t' r' Hw' Ht Hs Hx']; subst. rewrite app_assoc. constructor; [|done..]. by apply Forall_app.
Qed.

Lemma lexes_mark m u ts t r : mark_text m = Some u -> lexes ts t r -> lexes (T_mark m :: ts) (u ++ t) r.
Proof. intros Hm Hx. apply (lexes_cons [] (T_mark m) u); [constructor|done..]. Qed.

(** [spelled item x t]: the text [t] is one for [x], wherever it stands. *)
Definition spelled {X} (item : X -> list token -> Prop) (x : X) (t : list Z) : Prop :=
  exists tok ts, item x (tok :: ts) /\ forall r, closed r -> lexes (tok :: ts) (t ++ r) r.

Lemma spelled_blank {X} (item : X -> list token -> Prop) x w t : blank w -> spelled item x t -> spelled item x (w ++ t).
Proof. intros Hw (tok & ts & Hi & Hx). exists tok, ts. split; [done|]. intros r Hr. rewrite <- app_assoc. by apply lexes_blank, Hx. Qed.

Lemma spelled_one {X} (item : X -> list token -> Prop) x t : spelled item x t -> spelled (separated item) [x] t.
Proof. intros (tok & ts & Hi & Hx). exists tok, ts. split; [by constructor|done]. Qed.

Lemma spelled_more {X} (item : X -> list token -> Prop) x t w l t' : blank w -> spelled item x t -> spelled (separated item) l t' ->
  spelled (separated item) (x :: l) (t ++ (44 :: w) ++ t').
Proof.
  intros Hw (tok & ts & Hi & Hx) (tok' & ts' & Hi' & Hx'). exists tok, (ts ++ T_mark value_separator :: tok' :: ts'). split; [by apply (separated_more _ x (tok :: ts))|].
  intros r Hr. apply (lexes_app (tok :: ts) _ _ ((44 :: w) ++ t' ++ r)); [rewrite <- !app_assoc; apply Hx; by left|].
  apply (lexes_mark value_separator [44] _ (w ++ t' ++ r)); [done|]. by apply lexes_blank, Hx'.
Qed.

(** Items between brackets. *)
Lemma spelled_inside {F} {HF : Floats F} {X} (item : X -> list token -> Prop) l (j : json F) opening uo closing uc w w' t :
  mark_text opening = Some uo -> mark_text closing = Some uc -> closed uc -> uc <> [] -> blank w -> blank w' ->
  (forall ts, separated item l ts -> value_tokens j (T_mark opening :: ts ++ [T_mark closing])) ->
  spelled (separated item) l t -> spelled value_tokens j (uo ++ w ++ t ++ w' ++ uc).
Proof.
  intros Ho Hc Hcl Hne Hw Hw' Hv (tok & ts & Hi & Hx). exists (T_mark opening), ((tok :: ts) ++ [T_mark closing]). split; [by apply Hv|]. intros r Hr. rewrite <- !app_assoc.
  apply lexes_mark; [done|]. change ((tok :: ts) ++ [T_mark closing]) with (tok :: (ts ++ [T_mark closing])). apply lexes_blank; [done|].
  apply (lexes_app (tok :: ts) _ _ (w' ++ uc ++ r)).
  - apply Hx. destruct w' as [|c w']; [by destruct uc|]. inversion Hw'; subst. right. right. right. done.
  - apply lexes_blank; [done|]. apply lexes_mark; [done|constructor].
Qed.

(** ** Writing *)

Definition indented (s : serializer) : Prop := 512 <= lengthZ (indent_string s) /\ Forall (fun c => is_whitespace c = true) (indent_string s).

(** [m] writes a text with the property [P], when the indentation [cur] is at hand. *)
Definition writes (cur : Z) (P : list Z -> Prop) (m : M serializer unit) : Prop :=
  forall s, indented s -> cur <= lengthZ (indent_string s) ->
  wp nothing m (fun _ s' => indented s' /\ lengthZ (indent_string s) <= lengthZ (indent_string s') /\ exists t, o s' = o s ++ t /\ P t) s.

Lemma writes_mono cur (P P' : list Z -> Prop) m : writes cur P m -> (forall t, P t -> P' t) -> writes cur P' m.
Proof. intros Hm HP s Hs Hc. eapply wp_mono; [by apply Hm|]. intros _ s' (H1 & H2 & t & H3 & H4). split_and!; [done..|]. eauto. Qed.

Lemma writes_chars cur cs : writes cur (eq cs) (write_characters cs).
Proof. intros s Hs Hc. unfold write_characters. wp_step. split_and!; [done|done|]. by exists cs. Qed.

Lemma writes_bind cur (P Q R : list Z -> Prop) m k : writes cur P m -> writes cur Q k -> (forall t1 t2, P t1 -> Q t2 -> R (t1 ++ t2)) -> writes cur R (m ;; k).
Proof.
  intros Hm Hk HR s Hs Hc. wp_step. eapply wp_mono; [by apply Hm|]. intros _ s1 (H1 & H2 & t1 & H3 & H4). eapply wp_mono; [apply Hk; [done|lia]|].
  intros _ s2 (H5 & H6 & t2 & H7 & H8). split_and!; [done|lia|]. exists (t1 ++ t2). split; [by rewrite H7, H3, app_assoc|auto].
Qed.

(** Characters in front. *)
Lemma writes_then cur (P R : list Z -> Prop) cs k : writes cur P k -> (forall t, P t -> R (cs ++ t)) -> writes cur R (write_characters cs ;; k).
Proof. intros Hk HR. eapply writes_bind; [apply writes_chars|done|]. intros t1 t2 <-. auto. Qed.

Lemma writes_grow cur new (P : list Z -> Prop) k : new <= cur + 512 -> writes (Z.max cur new) P k -> writes cur P (grow_indent new ;; k).
Proof.
  intros Hnew Hk s Hs Hc. wp_step. unfold grow_indent. wp_step. wp_step. unfold id. destruct (_ <? new) eqn:E.
  - wp_step. pose proof Hs as [H512 Hw]. assert (lengthZ (replicate (Z.to_nat (lengthZ (indent_string s))) 32) = lengthZ (indent_string s)) as El
      by (unfold lengthZ; rewrite length_replicate; lia).
    eapply wp_mono; [apply Hk|].
    + split; cbn; [rewrite lengthZ_app; lia|]. apply Forall_app. split; [done|]. by apply Forall_replicate.
    + cbn. rewrite lengthZ_app. lia.
    + intros _ s' (H1 & H2 & H3). cbn in H2, H3. rewrite lengthZ_app in H2. split_and!; [done|lia|done].
  - wp_step. apply Hk; [done|lia].
Qed.

Lemma writes_indent cur n : 0 <= n <= cur -> writes cur blank (write_indent n).
Proof.
  intros Hn s Hs Hc. unfold write_indent. wp_step. wp_step. unfold id. wp_step. wp_step.
  2: { assert (in_block (indent_string s ++ [0]) 0 n = true); [|congruence]. apply in_block_spec. rewrite lengthZ_app. unfold lengthZ in *. cbn. lia. }
  unfold write_characters. wp_step. split_and!; [done|done|]. eexists. split; [done|]. rewrite slice_app_l by lia. apply Forall_take, Forall_drop, Hs.
Qed.

Lemma writes_join {X} (item : X -> list token -> Prop) cur w ms xs : blank w -> Forall2 (fun m x => writes cur (spelled item x) m) ms xs -> xs <> [] ->
  writes cur (spelled (separated item) xs) (join (44 :: w) ms).
Proof.
  intros Hw Hms. induction Hms as [|m x ms xs Hm Hms IH]; intros Hne; [done|]. destruct Hms as [|m' x' ms xs Hm' Hms].
  - eapply writes_mono; [done|]. apply spelled_one.
  - cbn [join]. eapply (writes_bind _ _ (fun t => exists t', t = (44 :: w) ++ t' /\ spelled (separated item) (x' :: xs) t')); [done|eapply writes_then; [by apply IH|eauto]|].
    intros t1 t2 H1 (t' & -> & H2). by apply spelled_more.
Qed.

(** ** Values *)

(** A non-negative integer is read back as an unsigned one. *)
Fixpoint normal {F} (j : json F) : json F :=
  match j with
  | j_number_integer n => if 0 <=? n then j_number_unsigned n else j
  | j_array l => j_array (List.map normal l)
  | j_object m => j_object (List.map (fun '(k, v) => (k, normal v)) m)
  | _ => j
  end.

(** The text of a floating-point number is a number that is read as this one. *)
Definition float_ok {F} {HF : Floats F} (x : F) : Prop :=
  isfinite x = true /\ isnan x = false /\ 0 < lengthZ (snprintf_g x) < 64 /\
  exists n, number_ok n /\ number_value n = j_number_float x /\
    number_text 46 n = float_text x ++ (if forallb (fun c => negb ((c =? 46) || (c =? 101))) (float_text x) then chars ".0" else []).

(** Values that parse can give: text in UTF-8, numbers of 64 bits, the members of an
    object in the order of their keys. *)
Fixpoint proper {F} {HF : Floats F} (j : json F) : Prop :=
  match j with
  | j_null | j_boolean _ => True
  | j_number_integer n => in_signed 64 n
  | j_number_unsigned n => in_unsigned 64 n
  | j_number_float x => float_ok x
  | j_string s => utf8_text s
  | j_array l => foldr (fun v P => proper v /\ P) True l
  | j_object m => StronglySorted (fun a b => string_less (fst a) (fst b) = true) m /\ foldr (fun kv P => utf8_text (fst kv) /\ proper (snd kv) /\ P) True m
  | j_discarded => False
  end.

(** Induction over the values inside. *)
Section Induction.
Context {F : Type} (P : json F -> Prop).
Context (Hscalar : forall j, match j with j_array _ | j_object _ => True | _ => P j end).
Context (Harray : forall l, Forall P l -> P (j_array l)) (Hobject : forall m, Forall (fun kv => P (snd kv)) m -> P (j_object m)).

Fixpoint json_induction (j : json F) : P j :=
  match j return P j with
  | j_array l => Harray l ((fix go l : Forall P l := match l with [] => Forall_nil_2 P | v :: l => Forall_cons_2 _ _ _ (json_induction v) (go l) end) l)
  | j_object m =>
      Hobject m ((fix go m : Forall (fun kv => P (snd kv)) m := match m with [] => Forall_nil_2 _ | kv :: m => Forall_cons_2 _ _ _ (json_induction (snd kv)) (go m) end) m)
  | j => Hscalar j
  end.

End Induction.

Lemma string_less_asym a b : string_less a b = true -> string_less b a = false.
Proof.
  revert b. induction a as [|x a IH]; intros [|y b]; cbn; try done. destruct (Z.ltb_spec x y), (Z.ltb_spec y x); try done; try lia. apply IH.
Qed.

Lemma emplace_last {V} k (v : V) m : Forall (fun kv => string_less (fst kv) k = true) m -> emplace k v m = m ++ [(k, v)].
Proof.
  induction 1 as [|[k' v'] m Hk _ IH]; [done|]. cbn in *. by rewrite (string_less_asym _ _ Hk), Hk, IH.
Qed.

(** The members of an object are all kept. *)
Lemma emplace_sorted {V} (m0 m : list (list Z * V)) : StronglySorted (fun a b => string_less (fst a) (fst b) = true) m ->
  Forall (fun a => Forall (fun b => string_less (fst a) (fst b) = true) m) m0 -> foldl (fun m kv => emplace (fst kv) (snd kv) m) m0 m = m0 ++ m.
Proof.
  intros Hs. revert m0. induction Hs as [|[k v] m Hs IH Hk]; intros m0 H0; cbn [foldl fst snd]; [by rewrite app_nil_r|].
  rewrite emplace_last by (eapply Forall_impl; [done|]; intros a Ha; by inversion Ha).
  rewrite IH; [by rewrite <- app_assoc|]. apply Forall_app. split; [|by repeat constructor]. eapply Forall_impl; [done|]. intros a Ha. by inversion Ha.
Qed.

Lemma object_sorted {F} (m : list (list Z * json F)) : StronglySorted (fun a b => string_less (fst a) (fst b) = true) m ->
  object_of (List.map (fun '(k, v) => (k, normal v)) m) = normal (j_object m).
Proof.
  intros Hs. unfold object_of. cbn. f_equal. rewrite emplace_sorted; [done| |constructor]. induction Hs as [|[k v] m Hs IH Hk]; cbn; constructor; [done|].
  apply Forall_map. eapply Forall_impl; [done|]. by intros [k' v'].
Qed.

Lemma writes_weaken cur cur' P m : cur <= cur' -> writes cur P m -> writes cur' P m.
Proof. intros Hle Hm s Hs Hc. apply Hm; [done|lia]. Qed.

Section Dump.
Context {F : Type} {HF : Floats F}.
Implicit Types (v : json F).

Lemma spelled_mark (v : json F) m u : mark_text m = Some u -> value_tokens v [T_mark m] -> spelled value_tokens v u.
Proof. intros Hm Hv. exists (T_mark m), []. split; [done|]. intros r Hr. apply lexes_mark; [done|constructor]. Qed.

Lemma spelled_number (v : json F) n : number_ok n -> value_tokens v [T_number n] -> spelled value_tokens v (number_text 46 n).
Proof.
  intros Hn Hv. exists (T_number n), []. split; [done|]. intros r Hr. apply (lexes_cons [] (T_number n)); [constructor|done|by apply closed_stops|constructor].
Qed.

Lemma lexes_string s t r : spells s t -> lexes [T_string s] (34 :: t ++ [34] ++ r) r.
Proof. intros Hs. replace (34 :: t ++ [34] ++ r) with ([] ++ (34 :: t ++ [34]) ++ r) by (cbn; by rewrite <- app_assoc). constructor; [constructor|by exists t|done|constructor]. Qed.

Lemma writes_escaped cur s ensure_ascii : utf8_text s -> writes cur (spells s) (dump_escaped s ensure_ascii).
Proof.
  intros Hs st Hst Hc. destruct (escaped_spec ensure_ascii s [] Hs) as (t & m' & E & Hsp). unfold dump_escaped. wp_step. eapply wp_with_block; [done|].
  unfold write_characters. wp_step. split_and!; [done|done|]. eauto.
Qed.

(** A string with its quotes, and the characters behind it. *)
Lemma writes_string cur s ensure_ascii cs k (P R : list Z -> Prop) : utf8_text s -> writes cur P k ->
  (forall t1 t2, spells s t1 -> P t2 -> R (34 :: t1 ++ (34 :: cs) ++ t2)) -> writes cur R (write_characters [34] ;; dump_escaped s ensure_ascii ;; write_characters (34 :: cs) ;; k).
Proof.
  intros Hs Hk HR. eapply (writes_then _ (fun t => exists t1 t2, spells s t1 /\ P t2 /\ t = t1 ++ (34 :: cs) ++ t2)).
  - eapply (writes_bind _ (spells s) (fun t => exists t2, P t2 /\ t = (34 :: cs) ++ t2)); [by apply writes_escaped|eapply writes_then; [done|eauto]|].
    intros t1 t2 H1 (t3 & H3 & ->). eauto.
  - intros t (t1 & t2 & H1 & H2 & ->). by apply HR.
Qed.

Lemma integer_value x n : integer_number x n -> - 2 ^ 63 <= x < 2 ^ 64 ->
  number_value (F := F) n = if 0 <=? x then j_number_unsigned x else j_number_integer x.
Proof.
  intros (_ & Ef & Ee & En & Ev) Hx. unfold number_value, number_kind. rewrite Ef, Ee, En, Ev. replace (x <? 0) with (negb (0 <=? x)) by lia. destruct (Z.leb_spec 0 x); cbn [negb].
  - replace (Z.abs x <? 2 ^ 64) with true by lia. f_equal. lia.
  - replace (Z.abs x <=? 2 ^ 63) with true by lia. f_equal. lia.
Qed.

Lemma writes_integer cur x : - 2 ^ 63 <= x < 2 ^ 64 ->
  writes cur (spelled value_tokens (if 0 <=? x then j_number_unsigned x else j_number_integer x : json F)) (dump_integer x).
Proof.
  intros Hx s Hs Hc. destruct (dump_integer_spec x s Hx) as (n & Hn & E). eapply wp_ok; [done|]. split_and!; [done|done|]. exists (number_text 46 n). split; [done|].
  pose proof (integer_value x n Hn Hx) as Ev. apply spelled_number; [apply Hn|]. rewrite <- Ev. apply v_number. rewrite Ev. by destruct (0 <=? x).
Qed.

Lemma writes_float cur x : float_ok x -> writes cur (spelled value_tokens (j_number_float x)) (dump_float x).
Proof.
  intros (Hfin & Hnan & Hlen & n & Hn & Ev & Et) s Hs Hc. unfold dump_float. rewrite Hfin, Hnan. cbn [negb orb]. wp_step. wp_step; [|lia]. wp_step. wp_step; [|lia].
  assert (spelled value_tokens (j_number_float x) (number_text 46 n)) as Hsp by (apply spelled_number; [done|rewrite <- Ev; apply v_number; by rewrite Ev]). rewrite Et in Hsp.
  wp_step. unfold write_characters. wp_step. destruct (forallb _ _).
  - wp_step. split_and!; [done|done|]. eexists. split; [|done]. cbn. by rewrite <- app_assoc.
  - wp_step. split_and!; [done|done|]. eexists. split; [|done]. by rewrite app_nil_r.
Qed.

(** The end of an object or an array. *)
Lemma writes_end cur uc : 0 <= cur -> writes cur (fun t => exists w, blank w /\ t = w ++ uc) (write_characters [10] ;; write_indent cur ;; write_characters uc).
Proof.
  intros Hcur. eapply (writes_then _ (fun t => exists w, blank w /\ t = w ++ uc)).
  - eapply writes_bind; [apply writes_indent; lia|apply writes_chars|]. intros t1 t2 H1 <-. eauto.
  - intros t (w & Hw & ->). exists (10 :: w). split; [by constructor|done].
Qed.

Section Brackets.
Context {X : Type} (item : X -> list token -> Prop) (xs : list X) (v : json F) (opening closing : token_type) (uo uc : list Z).
Context (Ho : mark_text opening = Some uo) (Hc : mark_text closing = Some uc) (Hclosed : closed uc) (Huc : uc <> []) (Hxs : xs <> []).
Context (Hv : forall ts, separated item xs ts -> value_tokens v (T_mark opening :: ts ++ [T_mark closing])).
Context (ms : list (M serializer unit)) (cur : Z).

Lemma writes_compact : Forall2 (fun m x => writes cur (spelled item x) m) ms xs ->
  writes cur (spelled value_tokens v) (write_characters uo ;; join [44] ms ;; write_characters uc).
Proof.
  intros Hms. eapply (writes_then _ (fun t => exists t', t = t' ++ uc /\ spelled (separated item) xs t')).
  - eapply writes_bind; [by apply (writes_join item cur [] ms xs); [constructor|..]|apply writes_chars|]. intros t1 t2 H1 <-. eauto.
  - intros t (t' & -> & Ht). apply (spelled_inside item xs v opening uo closing uc [] []); try done; constructor.
Qed.

Lemma writes_pretty new : new <= cur + 512 -> 0 <= cur -> Forall2 (fun m x => writes new (spelled item x) m) ms xs ->
  writes cur (spelled value_tokens v)
    (write_characters (uo ++ [10]) ;; grow_indent new ;; join [44; 10] ms ;; write_characters [10] ;; write_indent cur ;; write_characters uc).
Proof.
  intros Hnew Hcur Hms. eapply (writes_then _ (fun t => exists t' w, blank w /\ t = t' ++ w ++ uc /\ spelled (separated item) xs t')).
  - apply writes_grow; [done|]. eapply writes_bind.
    + apply (writes_join item _ [10] ms xs); [by repeat constructor| |done]. eapply Forall2_impl; [done|]. intros m x Hm. apply (writes_weaken new); [lia|exact Hm].
    + eapply writes_weaken; [|by apply writes_end]. lia.
    + intros t1 t2 H1 (w & Hw & ->). eauto.
  - intros t (t' & w & Hw & -> & Ht). rewrite <- app_assoc. apply (spelled_inside item xs v opening uo closing uc [10] w); try done. by repeat constructor.
Qed.

End Brackets.

Lemma items_written {Y X} (item : X -> list token -> Prop) cur (f : Y -> M serializer unit) (g : Y -> X) l :
  Forall (fun y => writes cur (spelled item (g y)) (f y)) l -> Forall2 (fun m x => writes cur (spelled item x) m) (List.map f l) (List.map g l).
Proof. induction 1; cbn; constructor; auto. Qed.

Lemma writes_indented {X} (item : X -> list token -> Prop) x cur m : 0 <= cur -> writes cur (spelled item x) m -> writes cur (spelled item x) (write_indent cur ;; m).
Proof. intros Hcur Hm. eapply writes_bind; [apply writes_indent; lia|done|]. intros t1 t2 H1 H2. by apply spelled_blank. Qed.

Lemma writes_member cur ensure_ascii k v cs m : utf8_text k -> cs = [] \/ cs = [32] -> writes cur (spelled value_tokens (normal v)) m ->
  writes cur (spelled (member value_tokens) (k, normal v))
    (write_characters [34] ;; dump_escaped k ensure_ascii ;; write_characters (34 :: 58 :: cs) ;; m).
Proof.
  intros Hk Hcs Hm. eapply writes_string; [done..|]. intros t1 t2 H1 (tok & ts & Hi & Hx). exists (T_string k), (T_mark name_separator :: tok :: ts). split; [by constructor|].
  intros r Hr. apply (lexes_app [T_string k] _ _ (58 :: cs ++ t2 ++ r)).
  - replace ((34 :: t1 ++ (34 :: 58 :: cs) ++ t2) ++ r) with (34 :: t1 ++ [34] ++ 58 :: cs ++ t2 ++ r) by (cbn; by rewrite <- !app_assoc, <- !app_comm_cons, <- app_assoc).
    by apply lexes_string.
  - apply (lexes_mark name_separator [58] _ (cs ++ t2 ++ r)); [done|]. apply lexes_blank; [|by apply Hx]. destruct Hcs as [-> | ->]; by repeat constructor.
Qed.

(** An empty object or array. *)
Lemma writes_empty cur v opening uo closing uc : mark_text opening = Some uo -> mark_text closing = Some uc -> value_tokens v [T_mark opening; T_mark closing] ->
  writes cur (spelled value_tokens v) (write_characters (uo ++ uc)).
Proof.
  intros Ho Hc Hv. eapply writes_mono; [apply writes_chars|]. intros t <-. eexists _, _. split; [done|]. intros r Hr. rewrite <- app_assoc.
  apply lexes_mark; [done|]. apply lexes_mark; [done|constructor].
Qed.

(** What dump writes of a value inside another one. *)
Definition dumps v : Prop := forall pretty_print ensure_ascii indent_step cur, 0 <= indent_step <= 512 -> 0 <= cur ->
  writes cur (spelled value_tokens (normal v)) (dump_value v pretty_print ensure_ascii indent_step cur).

Lemma new_indent_range cur step : 0 <= step <= 512 -> 0 <= cur -> 0 <= u32 (cur + step) <= cur + 512.
Proof. intros. unfold uwrap. pose proof (Z.mod_pos_bound (cur + step) (2 ^ 32) ltac:(lia)). pose proof (Z.mod_le (cur + step) (2 ^ 32) ltac:(lia) ltac:(lia)). lia. Qed.

Lemma array_dumps l : Forall dumps l -> dumps (j_array l).
Proof.
  intros Hl pretty_print ensure_ascii step cur Hstep Hcur. destruct l as [|x l].
  { by apply (writes_empty _ _ begin_array [91] end_array [93]); [..|constructor]. }
  pose proof (new_indent_range cur step Hstep Hcur) as Hnew.
  assert (forall ts, separated value_tokens (List.map normal (x :: l)) ts -> value_tokens (normal (j_array (x :: l))) (T_mark begin_array :: ts ++ [T_mark end_array])) as Hv
    by (intros; by constructor).
  destruct pretty_print.
  - apply (writes_pretty value_tokens (List.map normal (x :: l)) _ begin_array end_array [91] [93]); try done; [by right; left|lia|].
    apply (items_written value_tokens _ _ normal). eapply Forall_impl; [done|]. intros v Hd. apply writes_indented; [lia|]. apply Hd; lia.
  - apply (writes_compact value_tokens (List.map normal (x :: l)) _ begin_array end_array [91] [93]); try done; [by right; left|].
    apply (items_written value_tokens _ _ normal). eapply Forall_impl; [done|]. intros v Hd. by apply Hd.
Qed.

Lemma object_dumps (m : list (list Z * json F)) : StronglySorted (fun a b => string_less (fst a) (fst b) = true) m ->
  Forall (fun kv => utf8_text (fst kv) /\ dumps (snd kv)) m -> dumps (j_object m).
Proof.
  intros Hs Hm pretty_print ensure_ascii step cur Hstep Hcur. destruct m as [|x m].
  { by apply (writes_empty _ _ begin_object [123] end_object [125]); [..|constructor]. }
  pose proof (new_indent_range cur step Hstep Hcur) as Hnew. set (g := fun '(k, v) => (k, normal v) : list Z * json F).
  assert (forall ts, separated (member value_tokens) (List.map g (x :: m)) ts -> value_tokens (normal (j_object (x :: m))) (T_mark begin_object :: ts ++ [T_mark end_object])) as Hv
    by (intros; rewrite <- object_sorted by done; by constructor).
  destruct pretty_print.
  - apply (writes_pretty (member value_tokens) (List.map g (x :: m)) _ begin_object end_object [123] [125]); try done; [by right; right; left|lia|].
    apply (items_written (member value_tokens) _ _ g). eapply Forall_impl; [done|]. intros [k v] [Hk Hd]. apply writes_indented; [lia|]. apply writes_member; [done|by right|].
    apply Hd; lia.
  - apply (writes_compact (member value_tokens) (List.map g (x :: m)) _ begin_object end_object [123] [125]); try done; [by right; right; left|].
    apply (items_written (member value_tokens) _ _ g). eapply Forall_impl; [done|]. intros [k v] [Hk Hd]. apply writes_member; [done|by left|]. by apply Hd.
Qed.

Lemma scalar_dumps v : proper v -> match v with j_array _ | j_object _ => True | _ => dumps v end.
Proof.
  destruct v; intros Hp; try done; intros pretty_print ensure_ascii step cur Hstep Hcur; cbn [dump_value normal].
  - eapply writes_mono; [apply writes_chars|]. intros t <-. by eapply (spelled_mark _ literal_null); [|constructor].
  - eapply writes_mono; [apply writes_chars|]. intros t <-. destruct b; [by eapply (spelled_mark _ literal_true); [|constructor]|by eapply (spelled_mark _ literal_false); [|constructor]].
  - apply writes_integer. unfold proper, in_signed in Hp. cbn in Hp. lia.
  - unfold proper, in_unsigned in Hp. pose proof (writes_integer cur n ltac:(lia)) as Hw. by replace (0 <=? n) with true in Hw by lia.
  - by apply writes_float.
  - eapply (writes_then _ (fun t => exists t1, spells s t1 /\ t = t1 ++ [34])).
    + eapply writes_bind; [by apply writes_escaped|apply writes_chars|]. intros t1 t2 H1 <-. eauto.
    + intros t (t1 & H1 & ->). exists (T_string s), []. split; [constructor|]. intros r Hr. cbn. rewrite <- app_assoc. by apply lexes_string.
Qed.

Lemma dump_value_writes v : proper v -> dumps v.
Proof.
  revert v. apply (json_induction (fun v => proper v -> dumps v)); [intros j; pose proof (scalar_dumps j); by destruct j|intros l IH Hp|intros m IH Hp].
  - apply array_dumps. cbn in Hp. induction IH as [|v l Hv _ IH]; constructor; cbn in Hp; [apply Hv, Hp|apply IH, Hp].
  - cbn in Hp. destruct Hp as [Hs Hp]. apply object_dumps; [done|]. clear Hs. induction IH as [|kv m Hv _ IH]; constructor; cbn in Hp; [split; [apply Hp|apply Hv, Hp]|apply IH, Hp].
Qed.

(** ** The round trip *)

(** dump writes a document. *)
Lemma dump_document v indent indent_char ensure_ascii : proper v -> indent <= 512 -> is_whitespace indent_char = true ->
  exists t tok ts, dump v indent indent_char ensure_ascii = Ok t /\ value_tokens (normal v) (tok :: ts) /\ lexes (tok :: ts) t [].
Proof.
  intros Hp Hi Hc. assert (exists pretty step, 0 <= step <= 512 /\ dump v indent indent_char ensure_ascii =
    outcome_map (fun '(_, s) => o s) (dump_value v pretty ensure_ascii step 0 (new_serializer indent_char))) as (pretty & step & Hstep & ->).
  { unfold dump. destruct (Z.leb_spec 0 indent); [exists true, indent|exists false, 0]; by split; [lia|]. }
  assert (indented (new_serializer indent_char)) as Hs by (split; [done|]; by apply Forall_replicate).
  destruct (wp_total _ _ _ (dump_value_writes v Hp pretty ensure_ascii step 0 Hstep ltac:(lia) _ Hs ltac:(destruct Hs; lia))) as ([] & s' & E & _ & _ & t & Eo & tok & ts & Hv & Hx).
  exists t, tok, ts. rewrite E. cbn. cbn in Eo. split_and!; [by rewrite Eo|done|].
  specialize (Hx []). rewrite app_nil_r in Hx. by apply Hx.
Qed.

End Dump.

(** The text of a document is bytes, and begins with none of a byte order mark. *)
Lemma hex_bytes c ds : hex4 c ds -> Forall is_byte ds.
Proof.
  assert (forall c d, hex_digit c = Some d -> is_byte c) as Hb by (unfold hex_digit, is_byte; intros; split_cases).
  intros []. rewrite !Forall_cons. split_and!; eauto.
Qed.

Lemma spells_bytes s t : spells s t -> Forall is_byte t.
Proof.
  induction 1 as [|x u s t Hp _ IH]; [constructor|]. apply Forall_app. split; [|done]. destruct Hp as [c Hc| e x He|c ds Hd|hi lo ds1 ds2 H1 H2].
  - by apply utf8_bytes.
  - rewrite !Forall_cons. split_and!; [done| |constructor]. revert He. unfold simple_escape, is_byte. intros. split_cases.
  - rewrite !Forall_cons. split_and!; [done|done|by eapply hex_bytes].
  - rewrite !Forall_cons, Forall_app, !Forall_cons. split_and!; try done; by eapply hex_bytes.
Qed.

Lemma digits_bytes ds : Forall (fun c => digit c = true) ds -> Forall is_byte ds.
Proof. intros H. eapply Forall_impl; [done|]. unfold digit, is_byte. lia. Qed.

Lemma number_bytes n : number_ok n -> Forall is_byte (number_text 46 n).
Proof.
  intros [[[_ Hi] _] Hf He]. unfold number_text. rewrite !Forall_app. split_and!.
  - destruct (negative n); [by repeat constructor|constructor].
  - by apply digits_bytes.
  - destruct (fraction n) as [ds|]; cbn; [|constructor]. apply Forall_cons. split; [done|]. by apply digits_bytes, Hf.
  - destruct (exponent n) as [[[e s] ds]|]; cbn; [|constructor]. destruct He as (He & Hs & [_ Hd]). apply Forall_cons. split; [unfold is_exponent, is_byte in *; lia|].
    apply Forall_app. split; [|by apply digits_bytes]. destruct s as [c|]; cbn; [|constructor]. apply Forall_cons. split; [unfold is_byte; lia|constructor].
Qed.

Lemma token_bytes tok u : token_text tok u -> Forall is_byte u.
Proof.
  destruct tok as [m|s|n]; cbn.
  - destruct m; intros [= <-]; by repeat constructor.
  - intros (v & Hv & ->). apply Forall_cons. split; [done|]. apply Forall_app. split; [by eapply spells_bytes|by repeat constructor].
  - intros [Hn ->]. by apply number_bytes.
Qed.

Lemma lexes_bytes ts t r : lexes ts t r -> Forall is_byte r -> Forall is_byte t.
Proof.
  induction 1 as [|w tok u ts t r Hw Ht _ _ IH]; intros Hr; [done|]. rewrite !Forall_app. split_and!; [|by eapply token_bytes|by apply IH].
  eapply Forall_impl; [done|]. unfold is_whitespace, is_byte. lia.
Qed.

Lemma token_first tok c u : token_text tok (c :: u) -> c < 128.
Proof.
  destruct tok as [m|s|n]; cbn.
  - destruct m; intros [= <- _]; done.
  - intros (v & Hv & [= -> _]). done.
  - intros [Hn E]. destruct (number_head n Hn) as (c' & u' & E' & H). rewrite E' in E. injection E as -> _. unfold digit in *. lia.
Qed.

Lemma lexes_first_byte tok ts t r : lexes (tok :: ts) t r -> without_mark t = t.
Proof.
  intros Hx. unfold without_mark. rewrite bool_decide_false; [done|]. inversion Hx as [|w tok' u ts' t' r' Hw Ht Hs Hx']; subst. intros E.
  destruct (token_head _ _ Ht) as (c & u' & -> & _). apply token_first in Ht. destruct w as [|x w]; cbn in E; injection E as -> _; [lia|]. inversion Hw; subst. done.
Qed.

Section RoundTrip.
Context {F U : Type} {HF : Floats F} {HFL : FloatLaws F}.


End RoundTrip.

(** ** Samples *)

#[local] Existing Instance text_floats.
#[local] Existing Instance text_float_laws.

(** A value with an integer, a float, text beyond ASCII and nested members. *)
Definition sample_tree : json (list Z) :=
  j_object [([97], j_array [j_number_integer 12; j_number_integer (-3); j_number_float (chars "-2.5")]);
            ([98], j_object [([], j_string ([34; 10] ++ utf8_encode 0xE9 ++ utf8_encode 0x1F600))])].

Lemma sample_tree_proper : proper sample_tree.
Proof.
  assert (forall cs, forallb (fun c => ((0 <=? c) && (c <? 0xD800)) || ((0xE000 <=? c) && (c <? 0x110000))) cs = true -> utf8_text (concat (map utf8_encode cs))) as Ht.
  { intros cs H. exists cs. split; [|done]. apply Forall_forall. intros c Hc. rewrite forallb_forall in H. specialize (H c (proj1 (list_elem_of_In _ _) Hc)). unfold scalar. lia. }
  cbn. split_and!; try done; try (by apply (Ht [97])); try (by apply (Ht [98])); try (by apply (Ht [])); try (by repeat constructor).
  - split_and!; [done..|]. exists (mkNumber true [50] (Some [53]) None). split; [|done]. split; cbn; [split; [split; [done|by repeat constructor]|done]|split; [done|by repeat constructor]|done].
  - by apply (Ht [34; 10; 0xE9; 0x1F600]).
Qed.


(** An indentation of more than 1024 reads behind the string of blanks. *)
Remark indent_overrun : dump (j_array [j_null : json (list Z)]) 1026 32 false = Undef.
Proof. vm_compute. reflexivity. Qed.

(** The second half of the string of blanks is spaces whatever the character. *)
Remark indent_spaces : match dump (j_array [j_null : json (list Z)]) 513 9 false with Ok t => drop 513 t = chars (String (Ascii.ascii_of_nat 9) " null") ++ [10; 93] | _ => False end.
Proof. vm_compute. reflexivity. Qed.

(** A string that ends within a character fails an assertion when what is not ASCII is
    escaped; so does a character beyond the last code point. *)
Remark ill_formed_escaped :
  dump (j_string [0xC3] : json (list Z)) (-1) 32 true = Abort /\ dump (j_string [0xF7; 0x80; 0x80; 0x80] : json (list Z)) (-1) 32 true = Abort.
Proof. split; vm_compute; reflexivity. Qed.
